(* ===== verification/_CoqProject ===== *)
-Q . S2P
Prelude.v
Core.v
StdMap.v
OrderPool.v
PriceLevel.v
OrderBook.v
MatchingEngine.v
ClientIndex.v
MatchingSpec.v
MatchingRefine.v
EngineInvariant.v
EngineRefine.v
EngineTheorems.v
CancelTheorems.v
EventTheorems.v
EngineWitness.v
EngineApi.v
Doubles.v
RiskEngine.v
RiskTheorems.v
RiskTotal.v
SpscRing.v
Bytes.v
ByteOrder.v
BinaryCodec.v
Text.v
TextProtocol.v
GatewayCodec.v
CodecTheorems.v
TcpServer.v
TcpTheorems.v
RingQueue.v
ExchangeServer.v
ExchangeTheorems.v
UdpFeed.v
FeedTheorems.v
FeedQueue.v
Fix.v
FixTheorems.v
Strategy.v
StrategySession.v
StrategyTheorems.v
Cli.v
CliTheorems.v
Workload.v
WorkloadTheorems.v
QueueBench.v
JsonCodec.v
TcpLifetime.v
ExchangeHang.v
Shutdown.v
ShutdownTheorems.v
EndToEnd.v
VenueTotal.v
ServerMain.v
ServerTables.v
ServerTheorems.v
ServerRun.v
FeedLevel.v
FeedBook.v
LatencyRecorder.v
LatencyBench.v
QueueLatency.v
RoundTrip.v
WeakRing.v
FeedThread.v
FixTime.v
FixVenue.v
Decimal.v
ReportFile.v
AllocCount.v
Primitives.v
QueueReport.v
RoundTripMain.v
