(* ===== verification/Prelude.v ===== *)
(** * MiniExchange: a verification development

    MiniExchange is a single-symbol limit order exchange in C++.  A TCP server
    (adapters/tcp) reassembles length-prefixed frames, a protocol adapter
    (adapters/binary_protocol or adapters/text_protocol) turns a frame into a
    command, a lock-free ring (lockfree_queue) carries it to the engine
    thread, the risk decorator (risk) and the matching engine (engine, over
    orderbook) process it, and a second ring carries the response back to the
    I/O thread, which renders, frames and sends it (apps/exchange_server).
    The engine announces trades and order events to an event sink
    (interfaces/event_sink.hpp) while it matches.  Around it: a UDP feed
    (adapters/udp), a FIX adapter (adapters/fix), a command-line client
    (apps/cli), two trading strategies with a runner (strategy,
    apps/strategy_runner), a workload generator and benchmarks (tools,
    apps/benchmark).

    ** How the code is modelled

    Integers are [Z] at their C++ width: unsigned arithmetic wraps through
    [u64_add], [u64_sub], [wrap32]; signed overflow is undefined.  A
    computation is an [outcome]: [Ok], [Undefined] (C++ undefined behaviour: a
    dangling or null dereference, a read past a buffer, a signed overflow) or
    [NoFuel] (a loop that has not finished within its budget).  Theorems about
    results exclude the last two.  Pointers are indices: an [Order*] is a slot
    of the pool, a [PriceLevel*] a key of a price tree, a [Connection&] a
    descriptor of the connection table; using one whose target is gone is
    [Undefined].

    ** Files

    - Prelude: integers, outcomes, tactics, shared lemmas.  Core: core/ and
      the [EventSink] port.  Primitives: the operators of core/Types.hpp and
      what the containers need of them.
    - StdMap: the sorted association lists standing for [std::map], with the
      operations the code uses.
    - OrderPool, PriceLevel, OrderBook: orderbook/.  The pool is a slab whose
      free slots are linked through the storage; a level is an intrusive
      doubly linked queue in the pool's memory; the book is two trees of
      levels and an id index.  [level_rep] and the book's representation
      invariant relate the pointers to lists of orders.
    - MatchingEngine: engine/, statement by statement; ClientIndex: the
      per-client index of resting prices used for self-trade prevention.
    - MatchingSpec: price-time priority matching on lists of orders, the
      specification.  MatchingRefine, EngineInvariant, EngineRefine: the
      engine implements it.  EngineTheorems, CancelTheorems, EventTheorems:
      the engine's properties; EngineWitness: concrete runs.
    - EngineApi: the input port as a class with laws; RiskEngine,
      RiskTheorems: risk/, over any lawful engine; doubles are IEEE binary64
      (SpecFloat).  Doubles: how far rounding can move a number; RiskTotal:
      the band's arithmetic never leaves its range.
    - SpscRing: the ring, run without interference ([try_push], [try_pop]) and
      as a step relation over every shared-memory access; RingQueue: the
      queue interface its clients use.  WeakRing: the ring under release and
      acquire, where loads may be stale and slot accesses may race.
    - Bytes, ByteOrder, BinaryCodec, GatewayCodec, CodecTheorems: the binary protocol and
      framing.  Text, TextProtocol: decimal text, the line grammar and its
      renderer.
    - TcpServer, TcpTheorems: connection tables, framing, write path, event
      loop body.
    - ExchangeServer, ExchangeTheorems: arguments, protocol slots, dispatch,
      frame and drain handlers, and the two threads as a step relation.
    - UdpFeed, FeedTheorems: adapters/udp: the publisher as an event sink, the
      queued sink and its drain, the datagrams, the book builder.  FeedQueue:
      the queue between engine and publisher under any schedule; FeedThread:
      [run_feed_publisher], the offers and the stop flag access by access on
      WeakRing's memory, with the memory orders of the code.
    - Fix, FixTheorems: adapters/fix: envelope, parser, encoder and session
      over any engine behind the port.  FixTime: the text of SendingTime.
      FixVenue: whole sessions over engines that answer every order but those
      a test of the engine's own names (class [TotalEngine]).
    - Strategy: strategy/ over any engine behind the port (class [Strategy]),
      and apps/strategy_runner/main.cpp with its deferred trade sink, tick and
      settle loops; StrategySession, StrategyTheorems: sessions on the real
      risk and matching engines.
    - Cli, CliTheorems: apps/cli from the bytes typed to the bytes printed.
    - Workload, WorkloadTheorems: tools/workload_generator, over any random
      source (class [RandomSource]), and its workloads on the engine.
    - QueueBench: apps/benchmark/mutex_queue.hpp and the loops of
      queue_bench.cpp; class [BoundedQueue] is what both queues promise.
    - JsonCodec: adapters/binary_protocol/JsonCodec.cpp over any JSON library
      (classes [Json], [LawfulJson]), and the messages and loops of
      tools/protocol_benchmark; AllocCount: its allocation counter.
    - TcpLifetime: the TCP server's constructor, set-up functions and
      destructor over the process's open descriptors.
    - ExchangeHang: the two threads of ExchangeServer with a full outbound
      queue.  Shutdown, ShutdownTheorems: signal handler, end of the engine
      loop, [request_shutdown] and the loop of [TcpServer::run], as step
      relations around the two threads; what the I/O thread does by itself
      ([io_own_step]) is apart from what clients and signals do to it
      ([io_env_step]).
    - EndToEnd: one client's commands from the readable event through the
      engine thread to the drain handler, for any engine.
    - ServerMain: [main] of apps/exchange_server/main.cpp: signals, feed and
      risk configuration, construction on every error path, the last lines.  ServerTables: the
      event loop with the callbacks [main] installs.
    - VenueTotal: the risk decorator over the matching engine answers every
      command, but an order that sweeps a level, with a response that fits
      the wire.  ServerTheorems: EndToEnd
      for the engine [main] builds; ServerRun: all threads around it.
    - FeedLevel, FeedBook: the publisher against the engine's book.
    - LatencyRecorder, LatencyBench, QueueLatency: apps/benchmark: sample
      statistics, latency and throughput benchmarks over any clock.  RoundTrip,
      RoundTripMain: the client, server and command script of
      tcp_roundtrip_bench.cpp, and the process around them.  Decimal: doubles
      in decimal; ReportFile, QueueReport: the report files.

    ** What is proved

    - Matching: every submit on a reachable engine returns exactly what
      price-time priority prescribes, or is undefined, and it is undefined on
      exactly the accepted orders that take the last order at a price with
      quantity left (the loop then reads the erased level); the book stays
      uncrossed and in priority order; quantity is conserved; limits are
      respected; with prevention on no client trades with itself; the index
      behind that test equals a scan of the book; rejected orders have no
      effect; cancels remove exactly the order named; the sink hears exactly
      the trades reported and cannot influence the engine.
    - Risk: every branch of the decorator: forwarded within the limits,
      refused by the first failing check outside them, undefined where the
      band's arithmetic overflows; for bands up to one half and non-negative
      prices it does not, for any reference: the product in binary64 is
      finite and in [int64_t] range and the checks return.
    - Ring: FIFO, bounded and free of data races under the memory orders of
      the code, with every load of the other thread's index possibly stale,
      before 2^64 pushes; a push after [size()] was below the capacity is not
      refused; runs on one memory are among these runs.
    - Protocols: encode/decode and print/parse round trips on hosts of either
      endianness, totality of decoding, readable responses.
    - TCP and threads: frames survive any split into reads, streams are
      extended by exactly what is sent, backlogs stay bounded, and with the
      handlers of [main] the tables agree in every reachable state;
      every command is answered exactly once, in order, to its client, and no
      wake-up is lost.  End to end: pipelined commands of a client come back
      as the framed renderings of their sequential execution by the engine
      [main] builds, and that server is never stuck, however its threads
      interleave; both for commands with non-negative prices and up to the
      first that sweeps a level, which is where the code is undefined.
    - Feed: a subscriber that misses nothing mirrors the publisher from the
      first snapshot on; one that misses something is marked stale or right;
      the queued feed differs from the direct one by the counted drops only;
      the feed thread publishes what it pops in order and returns once it has
      seen the stop flag; after
      submits the published best prices and sizes are the engine's, on the
      runs described there.
    - FIX: a framed order or cancel does to the engine exactly what it says;
      execution reports are valid and read back; a corrupted field value is
      rejected without effect; a session over the matching engine answers any
      bytes, its reports numbered without a gap, up to an order that sweeps a
      level; SendingTime follows the
      Gregorian calendar and reads back as the time it was made from.
    - Strategies: sessions of any length return, every tick settles within the
      guard, and the book is exactly the maker's two quotes; what the runner
      prints for every argument list; the drift stays in bounds.
    - Client and tools: typing grammar and QUIT runs exactly the commands
      typed and prints their responses; a printed book is the depth of the
      book; generated workloads are well formed and accepted up to an order that
      sweeps a level; the mutex queue
      and the ring answer every client alike; the throughput measurement
      consumes everything; JSON and binary codecs agree; the recorder's 99th
      percentile, median and maximum are defined and come from the samples;
      each latency benchmark times the call its label names; the round-trip
      client and server transfer every frame and answer every line; doubles
      are printed correctly rounded, and the benchmark programs write their
      reports, with percentiles and maxima that are samples digit for digit;
      the allocation counter counts the allocations of one round.
    - Lifetime and shutdown: which descriptors every error path of the
      constructor leaves; a requested shutdown leaves the eventfd readable for an
      I/O thread that waits, which then ends in a bounded number of its own
      steps; [main] gives every descriptor back.
    - Faults found, as theorems: a read of an erased price level when an
      order sweeps past it; order ids shared between clients; signed overflow
      in the price band; the ring's emptiness test after wrap-around; a
      connection used after its error reply closed it; responses longer than
      a frame; a feed that misses the resting remainder of a crossing order;
      a late snapshot that rewinds a subscriber; a hang of both threads when
      the outbound queue fills under sustained load; an answer dropped at
      shutdown; a listening socket left open by a failed construction; a
      port in use that ends the process by [std::terminate]; a
      maker that forgets a resting quote; QUIT before a carriage return; a
      push benchmark that fills its queue; a drained side published at a
      worse price; events left unpublished because the relaxed stop flag does
      not order the feed thread's last drain.

    ** Parameters and bounds

    - [freed_empty] is what the inner matching loop's read of an erased level
      yields.  [Undefined] is the reading of the C++ standard, and every
      theorem that a call of the matching engine returns, by itself or behind
      the server, a FIX session or a generated workload, is stated under it
      and says on which orders the call is undefined ([sweeps], [call_reads],
      [batch_reads], [session_stops], computed from the engine).  Theorems on
      what commands did (the book's invariants, quantities, trades, events)
      are stated for the reading "empty" ([Ok true]), under which every
      command returns and every run defined under the strict reading is the
      same run; so are the strategy sessions, the latency and round-trip
      benchmarks.  [sweep_reads_erased_level] is the fault itself.
    - The matching loops get a budget computed from the book (one round per
      resting order and level and one to stop); [commands_return] shows it is
      enough.  The tokenizer's budget is the length of the line, the framing
      loop's the length of the buffer, the drain loop's the queue size, the
      FIX tokenizer's the length of the message.
    - [host_little] is the host's endianness.  The answers of the kernel to
      accept, read and send are inputs of the TCP server's operations; that
      accept returns a descriptor not in use is a hypothesis.  The feed's clock
      and send function are parameters; subscribers are assumed distinct.  What
      [std::time] returns is an input; the theorems on sessions assume years up to 9999.
      The random engine and distributions are a parameter that draws within
      the ranges the standard promises; [nlohmann::json] is one that keeps
      integers through its text.
    - Strategy sessions are below 2^50 ticks, which keeps order ids and
      sequence numbers from wrapping; the settle guard is the code's 1000.
    - Ring and thread theorems assume fewer than 2^64 pushes.  WeakRing has
      the views of release/acquire memory models: values out of thin air are
      excluded, and each index has one writer, as in the code.  FeedThread
      uses WeakRing's accesses, with the stop flag as one more atomic; the models of
      the server's threads use the member functions of the ring as single steps, and
      take the eventfd's system calls to order what they wake.

    ** Not modelled

    - Logging and what the programs print on the terminal beside the answers
      of the command-line client and the strategy runner's report: no state
      depends on it.
    - Failures to start a thread, exhaustion of memory outside the counted
      allocations, and the deallocations of destructors.
    - Google Benchmark, [nlohmann::json], the random engine, clocks and the kernel:
      parameters, with what the code relies on as laws or as inputs.
    - Headers that only declare, tests, load generators and scripts.
    - In the two-thread and shutdown models, handling a client event other
      than a frame may do anything to the connection table and returns
      (TcpServer models it exactly).
    - Commands with negative prices are outside the theorems on the whole
      server, because the band check overflows on some of them
      ([price_band_overflows]). *)
From stdpp Require Export base tactics list gmap fin_maps sorting.
From Stdlib Require Export ZArith Lia Sorting.Sorted.

#[global] Open Scope Z_scope.

(** ** Machine integers

    A [uint64_t], [uint32_t] or [size_t] is a [Z] kept in range by the
    explicit reductions below; an [int64_t] is a [Z] in two's-complement
    range.  Nothing is silently unbounded: every C++ [+=], [-=], [++] or
    [--] on an unsigned type goes through one of these. *)

Definition wrap64 (z : Z) : Z := z mod 18446744073709551616.

Definition wrap32 (z : Z) : Z := z mod 4294967296.

Definition u64_add (a b : Z) : Z := wrap64 (a + b).

Definition u64_sub (a b : Z) : Z := wrap64 (a - b).

Definition in_u64 (z : Z) : Prop := 0 <= z < 18446744073709551616.

Definition in_u32 (z : Z) : Prop := 0 <= z < 4294967296.

Definition in_i64 (z : Z) : Prop :=
  -9223372036854775808 <= z < 9223372036854775808.

(** Reading the bit pattern of an unsigned 64-bit word as an [int64_t]. *)
Definition to_i64 (u : Z) : Z :=
  if Z.ltb u 9223372036854775808 then u else u - 18446744073709551616.

(** ** Outcomes of a computation

    [Undefined] is C++ undefined behaviour (a dangling or null
    dereference, a read of memory that does not hold an object of the
    type, a signed overflow); [NoFuel] is a loop that did not finish within
    the iteration budget it was given.  Theorems about results always
    exclude both. *)

Inductive outcome (A : Type) : Type :=
| Ok (a : A)
| Undefined
| NoFuel.
Arguments Ok {A} _.
Arguments Undefined {A}.
Arguments NoFuel {A}.

#[global] Instance outcome_ret : MRet outcome := @Ok.

#[global] Instance outcome_bind : MBind outcome :=
  λ A B f m, match m with Ok a => f a | Undefined => Undefined | NoFuel => NoFuel end.

(** A partial read: [None] is a dereference of something that is not there. *)
Definition deref {A} (o : option A) : outcome A :=
  match o with Some a => Ok a | None => Undefined end.

Definition is_ok {A} (m : outcome A) : Prop := ∃ a, m = Ok a.

(** ** Tactics and hints *)

Create HintDb mex.
Create Rewrite HintDb mex.

(** Open a chain of successful monadic steps. *)
Ltac inv_ok :=
  repeat match goal with
  | H : Ok _ = Ok _ |- _ => injection H as H
  | H : Undefined = Ok _ |- _ => discriminate H
  | H : NoFuel = Ok _ |- _ => discriminate H
  | H : mbind _ ?m = Ok _ |- _ =>
      let E := fresh "E" in destruct m eqn:E; simpl in H; try discriminate H
  | H : deref ?o = Ok _ |- _ =>
      let E := fresh "E" in destruct o eqn:E; simpl in H; try discriminate H
  end.

(** Case analysis on every boolean comparison in sight. *)
Ltac zb :=
  repeat match goal with
  | H : context [Z.eqb ?a ?b] |- _ => destruct (Z.eqb_spec a b)
  | H : context [Z.ltb ?a ?b] |- _ => destruct (Z.ltb_spec a b)
  | H : context [Z.leb ?a ?b] |- _ => destruct (Z.leb_spec a b)
  | |- context [Z.eqb ?a ?b] => destruct (Z.eqb_spec a b)
  | |- context [Z.ltb ?a ?b] => destruct (Z.ltb_spec a b)
  | |- context [Z.leb ?a ?b] => destruct (Z.leb_spec a b)
  end.

Ltac u64 := unfold u64_add, u64_sub, wrap64, wrap32, in_u64, in_u32, in_i64 in *.

(** ** Machine-integer lemmas *)

Lemma wrap64_range z : in_u64 (wrap64 z).
Proof. u64. apply Z.mod_pos_bound. lia. Qed.

Lemma wrap64_small z : in_u64 z → wrap64 z = z.
Proof. u64. intros. apply Z.mod_small. lia. Qed.

Lemma wrap32_small z : in_u32 z → wrap32 z = z.
Proof. u64. intros. apply Z.mod_small. lia. Qed.

Lemma u64_add_small a b : in_u64 (a + b) → u64_add a b = a + b.
Proof. apply wrap64_small. Qed.

Lemma u64_sub_small a b : in_u64 a → 0 <= b <= a → u64_sub a b = a - b.
Proof. intros. unfold u64_sub. apply wrap64_small. u64. lia. Qed.

Lemma wrap64_add_l a b : wrap64 (wrap64 a + b) = wrap64 (a + b).
Proof. unfold wrap64. rewrite Zplus_mod_idemp_l. done. Qed.

Lemma wrap64_sub_l a b : wrap64 (wrap64 a - b) = wrap64 (a - b).
Proof. unfold wrap64. rewrite Zminus_mod_idemp_l. done. Qed.

#[export] Hint Resolve wrap64_range : mex.
#[export] Hint Rewrite wrap64_add_l wrap64_sub_l : mex.

(** ** Sums over lists *)

Fixpoint sumZ {A} (f : A → Z) (l : list A) : Z :=
  match l with [] => 0 | x :: l' => f x + sumZ f l' end.

Lemma sumZ_app {A} (f : A → Z) l1 l2 : sumZ f (l1 ++ l2) = sumZ f l1 + sumZ f l2.
Proof. induction l1 as [|x l1 IH]; simpl; [done|]. lia. Qed.

Lemma sumZ_nonneg {A} (f : A → Z) l : (∀ x, x ∈ l → 0 <= f x) → 0 <= sumZ f l.
Proof.
  induction l as [|x l IH]; simpl; [done|]. intros H.
  assert (0 <= f x) by (apply H; constructor).
  assert (0 <= sumZ f l) by (apply IH; intros; apply H; by constructor). lia.
Qed.

#[export] Hint Rewrite @sumZ_app : mex.
