(* ===== verification/Core.v ===== *)
(** * Core: the domain vocabulary of core/ and the output port

    The strong-typed wrappers of core/Types.hpp (OrderId, ClientId, Price,
    Quantity, Sequence, TradeSequence) are all one machine integer with
    comparison operators; they are [Z] here, with the arithmetic operators
    the code defines on them written out at their width.  The records and
    variants of core/ follow.  [EventSink] is the output port of
    interfaces/event_sink.hpp, as a type class over the sink's state. *)
From S2P Require Import Prelude.

(** ** core/Types.hpp *)

Inductive Side := Buy | Sell.

Inductive StpPolicy := RejectIncoming | CancelResting.

Record StpConfig := mkStpConfig { stp_enabled : bool; stp_policy : StpPolicy }.

(** [StpConfig{}]: disabled, RejectIncoming. *)
Definition StpConfig_default : StpConfig := mkStpConfig false RejectIncoming.

#[global] Instance Side_eq_dec : EqDecision Side.
Proof. solve_decision. Defined.

#[global] Instance StpPolicy_eq_dec : EqDecision StpPolicy.
Proof. solve_decision. Defined.

#[global] Program Instance Side_countable : Countable Side :=
  inj_countable' (λ s, match s with Buy => true | Sell => false end)
                 (λ b, if b then Buy else Sell) _.
Next Obligation. by intros []. Qed.

Definition side_eqb (a b : Side) : bool := bool_decide (a = b).

Definition opposite (s : Side) : Side := match s with Buy => Sell | Sell => Buy end.

(** [Quantity::operator+] and [operator-]: unsigned 64-bit, wrapping. *)
Definition Quantity_add (a b : Z) : Z := u64_add a b.

Definition Quantity_sub (a b : Z) : Z := u64_sub a b.

(** [Sequence::operator++(int)] and [TradeSequence::operator++(int)]: the
    stored value after the increment (the expression's value is the old one). *)
Definition Sequence_incr (s : Z) : Z := u64_add s 1.

Definition TradeSequence_incr (s : Z) : Z := u64_add s 1.

(** ** core/NewOrder.hpp *)

Record LimitOrder := mkLimit {
  lo_id : Z; lo_side : Side; lo_price : Z; lo_quantity : Z; lo_owner : Z }.

Record MarketOrder := mkMarket {
  mo_id : Z; mo_side : Side; mo_quantity : Z; mo_owner : Z }.

Inductive NewOrder := NLimit (o : LimitOrder) | NMarket (o : MarketOrder).

Definition new_order_id (o : NewOrder) : Z :=
  match o with NLimit l => lo_id l | NMarket m => mo_id m end.

Definition new_order_owner (o : NewOrder) : Z :=
  match o with NLimit l => lo_owner l | NMarket m => mo_owner m end.

Definition new_order_side (o : NewOrder) : Side :=
  match o with NLimit l => lo_side l | NMarket m => mo_side m end.

Definition new_order_quantity (o : NewOrder) : Z :=
  match o with NLimit l => lo_quantity l | NMarket m => mo_quantity m end.

(** The [std::optional<Price>] the matching loop receives. *)
Definition new_order_limit (o : NewOrder) : option Z :=
  match o with NLimit l => Some (lo_price l) | NMarket _ => None end.

(** Field values are values of their C++ types. *)
Definition wf_new_order (o : NewOrder) : Prop :=
  in_u64 (new_order_id o) ∧ in_u64 (new_order_owner o) ∧
  in_u64 (new_order_quantity o) ∧
  match o with NLimit l => in_i64 (lo_price l) | NMarket _ => True end.

(** ** core/Order.hpp

    An [Order*] is an index into the pool's storage; [nullptr] is [None].
    A [PriceLevel*] is the address of a node of one of the two price trees.
    [std::map] nodes do not move, so a node is identified by its tree and
    its key for as long as it lives; a pointer whose key is no longer in
    the tree dangles. *)

Abbreviation OrderPtr := nat.

Definition LevelPtr : Type := Side * Z.

Record Order := mkOrder {
  o_id : Z; o_side : Side; o_price : Z; o_quantity : Z; o_sequence : Z;
  o_owner : Z;
  o_prev : option OrderPtr; o_next : option OrderPtr;
  o_level : option LevelPtr }.

(** Field assignments through an [Order*]. *)
Definition set_quantity (q : Z) (o : Order) : Order :=
  mkOrder (o_id o) (o_side o) (o_price o) q (o_sequence o) (o_owner o)
          (o_prev o) (o_next o) (o_level o).

Definition set_prev (p : option OrderPtr) (o : Order) : Order :=
  mkOrder (o_id o) (o_side o) (o_price o) (o_quantity o) (o_sequence o) (o_owner o)
          p (o_next o) (o_level o).

Definition set_next (n : option OrderPtr) (o : Order) : Order :=
  mkOrder (o_id o) (o_side o) (o_price o) (o_quantity o) (o_sequence o) (o_owner o)
          (o_prev o) n (o_level o).

Definition set_links (p n : option OrderPtr) (lv : option LevelPtr) (o : Order) : Order :=
  mkOrder (o_id o) (o_side o) (o_price o) (o_quantity o) (o_sequence o) (o_owner o)
          p n lv.

(** ** core/Trade.hpp and core/Events.hpp *)

Record Trade := mkTrade {
  trade_sequence : Z; buy_order_id : Z; sell_order_id : Z; t_price : Z;
  t_quantity : Z; resting_order_removed : bool }.

Inductive EngineResult :=
| Accepted | DuplicateOrderId | UnknownOrderId | InvalidQuantity | InvalidPrice
| PoolExhausted | SelfTradePrevented
| PriceOutOfBand | QuantityTooLarge | TickSizeMisaligned
| InternalError.

#[global] Instance EngineResult_eq_dec : EqDecision EngineResult.
Proof. solve_decision. Defined.

Record EngineResponse := mkResponse {
  status : EngineResult; trades : list Trade; remaining_qty : Z; order_id : Z }.

Record OrderAccepted := mkAccepted {
  oa_id : Z; oa_side : Side; oa_quantity : Z; oa_price : Z }.

Record OrderCancelled := mkCancelled {
  oc_id : Z; oc_remaining_qty : Z; oc_side : Side; oc_price : Z }.

(** ** core/EngineCommand.hpp and core/TaggedCommand.hpp *)

Record CancelRequest := mkCancel { cr_id : Z }.

Inductive EngineCommand :=
| CLimit (o : LimitOrder) | CMarket (o : MarketOrder) | CCancel (c : CancelRequest).

Record TaggedCommand := mkTaggedCommand { tc_client : Z; tc_command : EngineCommand }.

Record TaggedResponse := mkTaggedResponse { tr_client : Z; tr_response : EngineResponse }.

(** ** interfaces/event_sink.hpp *)

Class EventSink (S : Type) := {
  on_trade : Trade → S → S;
  on_order_accepted : OrderAccepted → S → S;
  on_order_cancelled : OrderCancelled → S → S }.

(** [NullEventSink]: the no-op default. *)
#[global] Instance NullEventSink : EventSink unit := {
  on_trade _ s := s; on_order_accepted _ s := s; on_order_cancelled _ s := s }.

(** The calls an [EventSink] can receive, as data. *)
Inductive Event :=
| EvTrade (t : Trade) | EvAccepted (a : OrderAccepted) | EvCancelled (c : OrderCancelled).

(** A sink that records its calls, newest last. *)
#[global] Instance RecordingEventSink : EventSink (list Event) := {
  on_trade t s := s ++ [EvTrade t];
  on_order_accepted a s := s ++ [EvAccepted a];
  on_order_cancelled c s := s ++ [EvCancelled c] }.

(** Delivering one call, or a list of calls, to a sink. *)
Definition deliver {S} `{EventSink S} (s : S) (e : Event) : S :=
  match e with
  | EvTrade t => on_trade t s
  | EvAccepted a => on_order_accepted a s
  | EvCancelled c => on_order_cancelled c s
  end.

Definition deliver_all {S} `{EventSink S} (es : list Event) (s : S) : S :=
  foldl deliver s es.

Lemma deliver_all_app {S} `{EventSink S} es1 es2 (s : S) :
  deliver_all (es1 ++ es2) s = deliver_all es2 (deliver_all es1 s).
Proof. apply foldl_app. Qed.

Lemma deliver_all_recording (es l : list Event) : deliver_all es l = l ++ es.
Proof.
  revert l. induction es as [|e es IH]; intros l; simpl; [by rewrite app_nil_r|].
  rewrite IH. destruct e; simpl; by rewrite <- app_assoc.
Qed.

Definition event_trades (es : list Event) : list Trade :=
  omap (λ e, match e with EvTrade t => Some t | _ => None end) es.
