(* ===== verification/StdMap.v ===== *)
(** * StdMap: [std::map] keyed by a price

    The ordered map the code uses for the price trees ([BidTree] with
    [std::greater], [AskTree] with [std::less]) and for the per-client price
    counts, as the list of its nodes in iteration order.  [begin()] is the
    head and [rbegin()] the last element; the comparator is a parameter. *)
From S2P Require Import Prelude.

Section StdMap.
Context {V : Type}.
Variable lt : Z → Z → bool.

Fixpoint map_find (k : Z) (m : list (Z * V)) : option V :=
  match m with
  | [] => None
  | (k', v) :: m' => if Z.eqb k k' then Some v else map_find k m'
  end.

(** [try_emplace(k, v)]: insert at the position the comparator gives, unless
    the key is present, in which case the node keeps its value. *)
Fixpoint map_try_emplace (k : Z) (v : V) (m : list (Z * V)) : list (Z * V) :=
  match m with
  | [] => [(k, v)]
  | (k', v') :: m' =>
      if lt k k' then (k, v) :: m
      else if lt k' k then (k', v') :: map_try_emplace k v m'
      else m
  end.

Fixpoint map_erase (k : Z) (m : list (Z * V)) : list (Z * V) :=
  match m with
  | [] => []
  | (k', v) :: m' => if Z.eqb k k' then m' else (k', v) :: map_erase k m'
  end.

(** Mutation of a node's value through a pointer or reference to it. *)
Fixpoint map_update (k : Z) (v : V) (m : list (Z * V)) : list (Z * V) :=
  match m with
  | [] => []
  | (k', v') :: m' => if Z.eqb k k' then (k', v) :: m' else (k', v') :: map_update k v m'
  end.

Definition map_begin (m : list (Z * V)) : option (Z * V) := head m.

Definition map_rbegin (m : list (Z * V)) : option (Z * V) := last m.

(** Iteration order: keys strictly ascending for the comparator. *)
Definition map_sorted (m : list (Z * V)) : Prop :=
  StronglySorted (λ a b, lt a b = true) m.*1.
End StdMap.
Arguments map_sorted {V} lt m.

(** A comparator that is a strict total order. *)
Class StrictOrderB (lt : Z → Z → bool) : Prop := {
  ltb_irrefl a : lt a a = false;
  ltb_trans a b c : lt a b = true → lt b c = true → lt a c = true;
  ltb_total a b : lt a b = false → lt b a = false → a = b }.

#[global] Instance less_order : StrictOrderB Z.ltb.
Proof. split; intros; zb; lia || done. Qed.

#[global] Instance greater_order : StrictOrderB Z.gtb.
Proof.
  split; intros *; rewrite ?Z.gtb_ltb; [apply Z.ltb_irrefl| |]; intros; zb; lia || done.
Qed.

Section Facts.
Context {V : Type} (lt : Z → Z → bool) `{!StrictOrderB lt}.
Implicit Types (m : list (Z * V)) (k : Z) (v : V).

Lemma map_find_elem m k v : map_find k m = Some v → (k, v) ∈ m.
Proof.
  induction m as [|[k' v'] m IH]; simpl; [done|]. zb; intros; simplify_eq.
  - constructor.
  - constructor. auto.
Qed.

Lemma map_find_None m k : map_find k m = None ↔ k ∉ m.*1.
Proof.
  induction m as [|[k' v'] m IH]; simpl.
  - split; [intros _; apply not_elem_of_nil|done].
  - rewrite not_elem_of_cons. zb; split; intros; try naive_solver.
Qed.

Lemma map_sorted_cons k v m :
  map_sorted lt ((k, v) :: m) ↔ map_sorted lt m ∧ ∀ k', k' ∈ m.*1 → lt k k' = true.
Proof.
  unfold map_sorted. simpl. split.
  - intros H; inversion H; subst. rewrite Forall_forall in *. split; [done|].
    intros; by apply H3.
  - intros [H1 H2]. constructor; [done|]. rewrite Forall_forall. auto.
Qed.

Lemma map_sorted_find m k v : map_sorted lt m → (k, v) ∈ m → map_find k m = Some v.
Proof.
  induction m as [|[k' v'] m IH]; simpl.
  { by intros _ ?%elem_of_nil. }
  rewrite map_sorted_cons. intros [Hs Hk]. rewrite elem_of_cons. intros [?|Hin].
  - simplify_eq. by rewrite Z.eqb_refl.
  - destruct (Z.eqb_spec k k') as [->|]; [|auto].
    assert (lt k' k' = true) as E by (apply Hk; apply list_elem_of_fmap; by exists (k', v)).
    by rewrite ltb_irrefl in E.
Qed.

Lemma map_update_keys k v m : (map_update k v m).*1 = m.*1.
Proof. induction m as [|[k' v'] m IH]; simpl; [done|]. zb; simpl; by f_equal. Qed.

Lemma map_update_sorted k v m : map_sorted lt m → map_sorted lt (map_update k v m).
Proof. unfold map_sorted. by rewrite map_update_keys. Qed.

Lemma map_erase_subset k k' m : k' ∈ (map_erase k m).*1 → k' ∈ m.*1.
Proof.
  induction m as [|[k1 v1] m IH]; simpl; [done|]. zb; simpl; rewrite !elem_of_cons;
    naive_solver.
Qed.

Lemma map_erase_sorted k m : map_sorted lt m → map_sorted lt (map_erase k m).
Proof.
  induction m as [|[k' v'] m IH]; [done|]. rewrite map_sorted_cons. intros [Hs Hk].
  simpl. zb; [done|]. rewrite map_sorted_cons. split; [auto|].
  intros k1 ?%map_erase_subset. auto.
Qed.

Lemma map_emplace_keys k k' v m :
  k' ∈ (map_try_emplace lt k v m).*1 ↔ k' = k ∨ k' ∈ m.*1.
Proof.
  induction m as [|[k1 v1] m IH]; simpl.
  - rewrite list_elem_of_singleton, elem_of_nil. naive_solver.
  - destruct (lt k k1) eqn:E1; simpl; [rewrite !elem_of_cons; naive_solver|].
    destruct (lt k1 k) eqn:E2; simpl; rewrite !elem_of_cons.
    + rewrite IH. naive_solver.
    + rewrite (ltb_total k k1) by done. naive_solver.
Qed.

Lemma map_emplace_sorted k v m : map_sorted lt m → map_sorted lt (map_try_emplace lt k v m).
Proof.
  induction m as [|[k' v'] m IH]; simpl; [repeat constructor|]. intros Hs.
  pose proof Hs as [Hs' Hk]%map_sorted_cons.
  destruct (lt k k') eqn:E1; [|destruct (lt k' k) eqn:E2; [|done]].
  - rewrite map_sorted_cons. split; [done|]. intros k1. simpl. rewrite elem_of_cons.
    intros [->|?]; [done|]. eapply ltb_trans; eauto.
  - rewrite map_sorted_cons. split; [auto|]. intros k1 [->|?]%map_emplace_keys; auto.
Qed.

Lemma map_emplace_present k v v0 m :
  map_sorted lt m → map_find k m = Some v0 → map_try_emplace lt k v m = m.
Proof.
  induction m as [|[k' v'] m IH]; [done|]. rewrite map_sorted_cons. intros [Hs Hk]. simpl.
  destruct (Z.eqb_spec k k') as [->|]; [by rewrite ltb_irrefl|]. intros Hf.
  pose proof Hf as Hin%map_find_elem.
  assert (lt k' k = true) as E by (apply Hk, list_elem_of_fmap; by exists (k, v0)).
  assert (lt k k' = false) as ->.
  { destruct (lt k k') eqn:E'; [|done].
    pose proof (ltb_trans _ _ _ E E') as C. by rewrite ltb_irrefl in C. }
  rewrite E. f_equal. auto.
Qed.

Lemma map_find_split k v m :
  map_find k m = Some v → ∃ m1 m2, m = m1 ++ (k, v) :: m2 ∧ k ∉ m1.*1.
Proof.
  induction m as [|[k' v'] m IH]; simpl; [done|].
  destruct (Z.eqb_spec k k') as [->|Hne]; intros H.
  - simplify_eq. exists [], m. split; [done|apply not_elem_of_nil].
  - destruct (IH H) as (m1 & m2 & -> & Hk). exists ((k', v') :: m1), m2.
    split; [done|]. simpl. by apply not_elem_of_cons.
Qed.

Lemma map_find_here k v m1 m2 : k ∉ m1.*1 → map_find k (m1 ++ (k, v) :: m2) = Some v.
Proof.
  induction m1 as [|[k' v'] m1 IH]; simpl; [by rewrite Z.eqb_refl|].
  rewrite not_elem_of_cons. intros [? ?]. zb; [done|auto].
Qed.

Lemma map_update_split k v v' m1 m2 :
  k ∉ m1.*1 → map_update k v' (m1 ++ (k, v) :: m2) = m1 ++ (k, v') :: m2.
Proof.
  induction m1 as [|[k1 v1] m1 IH]; simpl; [by rewrite Z.eqb_refl|].
  rewrite not_elem_of_cons. intros [? ?]. zb; [done|]. f_equal. auto.
Qed.

Lemma map_erase_split k v m1 m2 :
  k ∉ m1.*1 → map_erase k (m1 ++ (k, v) :: m2) = m1 ++ m2.
Proof.
  induction m1 as [|[k1 v1] m1 IH]; simpl; [by rewrite Z.eqb_refl|].
  rewrite not_elem_of_cons. intros [? ?]. zb; [done|]. f_equal. auto.
Qed.

(** Where a new node lands: after every smaller key, before every larger one. *)
Lemma map_emplace_split k m :
  map_sorted lt m → map_find k m = None →
  ∃ m1 m2, m = m1 ++ m2 ∧ (∀ v, map_try_emplace lt k v m = m1 ++ (k, v) :: m2) ∧
    (∀ k', k' ∈ m1.*1 → lt k' k = true) ∧ (∀ k', k' ∈ m2.*1 → lt k k' = true).
Proof.
  induction m as [|[k' v'] m IH]; intros Hs Hf.
  { exists [], []. repeat split; simpl; intros ? ?%elem_of_nil; done. }
  pose proof Hs as [Hs' Hk]%map_sorted_cons. simpl in Hf.
  destruct (Z.eqb_spec k k') as [|Hne]; [done|].
  destruct (lt k k') eqn:E1; [|destruct (lt k' k) eqn:E2].
  - exists [], ((k', v') :: m). split; [done|]. split; [intros v; simpl; by rewrite E1|].
    split; [intros ? ?%elem_of_nil; done|]. intros k1. simpl. rewrite elem_of_cons.
    intros [->|?]; [done|]. eapply ltb_trans; eauto.
  - destruct (IH Hs' Hf) as (m1 & m2 & -> & He & H1 & H2).
    exists ((k', v') :: m1), m2. split; [done|]. split.
    { intros v. simpl. rewrite E1, E2, He. done. }
    split; [|done]. intros k1. simpl. rewrite elem_of_cons. intros [->|?]; auto.
  - by pose proof (ltb_total _ _ E1 E2).
Qed.

(** ** Lookups after an update *)
Lemma map_find_update k k' v m :
  map_find k' (map_update k v m) =
  if Z.eqb k' k then (match map_find k m with Some _ => Some v | None => None end) else map_find k' m.
Proof.
  induction m as [|[k1 v1] m IH]; simpl; [by destruct (Z.eqb k' k)|].
  destruct (Z.eqb_spec k k1) as [->|]; simpl.
  - destruct (Z.eqb_spec k' k1); done.
  - destruct (Z.eqb_spec k' k1) as [->|]; [|done]. destruct (Z.eqb_spec k1 k); congruence.
Qed.

Lemma map_find_erase k k' m :
  map_sorted lt m → map_find k' (map_erase k m) = if Z.eqb k' k then None else map_find k' m.
Proof.
  induction m as [|[k1 v1] m IH]; simpl; [by destruct (Z.eqb k' k)|].
  rewrite map_sorted_cons. intros [Hs Hk]. destruct (Z.eqb_spec k k1) as [->|]; simpl.
  - destruct (Z.eqb_spec k' k1) as [->|]; [|done]. apply map_find_None. intros Hin.
    specialize (Hk _ Hin). by rewrite ltb_irrefl in Hk.
  - destruct (Z.eqb_spec k' k1) as [->|]; [destruct (Z.eqb_spec k1 k); congruence|auto].
Qed.

Lemma map_find_emplace k k' v m :
  map_sorted lt m →
  map_find k' (map_try_emplace lt k v m) =
  if Z.eqb k' k then Some (default v (map_find k m)) else map_find k' m.
Proof.
  intros Hs. destruct (map_find k m) as [v0|] eqn:Ef.
  - rewrite (map_emplace_present _ _ _ _ Hs Ef). destruct (Z.eqb_spec k' k); by subst.
  - destruct (map_emplace_split _ _ Hs Ef) as (m1 & m2 & -> & -> & _). simpl.
    apply map_find_None in Ef. rewrite fmap_app in Ef.
    destruct (Z.eqb_spec k' k) as [->|Hne].
    + apply map_find_here. set_solver.
    + clear Hs Ef. induction m1 as [|[k1 v1] m1 IH]; simpl; [|by rewrite IH].
      destruct (Z.eqb_spec k' k); done.
Qed.

Lemma map_sorted_app m1 m2 :
  map_sorted lt (m1 ++ m2) ↔ map_sorted lt m1 ∧ map_sorted lt m2 ∧
    ∀ k1 k2, k1 ∈ m1.*1 → k2 ∈ m2.*1 → lt k1 k2 = true.
Proof.
  induction m1 as [|[k v] m1 IH]; simpl.
  - split; [|naive_solver]. intros. split; [constructor|]. split; [done|].
    by intros ?? ?%elem_of_nil.
  - rewrite !map_sorted_cons, IH. setoid_rewrite fmap_app.
    setoid_rewrite elem_of_app. setoid_rewrite elem_of_cons. naive_solver.
Qed.
End Facts.

(** Two maps with the same keys whose values are related node by node. *)
Definition map_related {V W} (R : Z → V → W → Prop) (m : list (Z * V)) (a : list (Z * W)) : Prop :=
  Forall2 (λ x y, x.1 = y.1 ∧ R x.1 x.2 y.2) m a.

Section Related.
Context {V W : Type} (R : Z → V → W → Prop).
Implicit Types (m : list (Z * V)) (a : list (Z * W)).

Lemma map_related_keys m a : map_related R m a → m.*1 = a.*1.
Proof. induction 1 as [|[] [] ?? [? _]]; simpl in *; by f_equal. Qed.

Lemma map_related_split k m1 v m2 a :
  map_related R (m1 ++ (k, v) :: m2) a →
  ∃ a1 w a2, a = a1 ++ (k, w) :: a2 ∧ map_related R m1 a1 ∧ R k v w ∧ map_related R m2 a2.
Proof.
  unfold map_related. intros (a1 & a' & H1 & H2 & ->)%Forall2_app_inv_l.
  inversion H2 as [|? [k' w] ? a2 [Hk HR] ?]; simpl in *; subst. eauto 8.
Qed.

Lemma map_related_find k m a v :
  map_related R m a → map_find k m = Some v → ∃ w, map_find k a = Some w ∧ R k v w.
Proof.
  intros Hr (m1 & m2 & -> & Hk)%map_find_split.
  destruct (map_related_split _ _ _ _ _ Hr) as (a1 & w & a2 & -> & H1 & HR & H2).
  exists w. split; [|done]. apply map_find_here. by rewrite <- (map_related_keys _ _ H1).
Qed.

Lemma map_related_sorted lt m a : map_related R m a → map_sorted lt m ↔ map_sorted lt a.
Proof. intros H. unfold map_sorted. by rewrite (map_related_keys _ _ H). Qed.
End Related.
