(* ===== verification/OrderPool.v ===== *)
(** * OrderPool: orderbook/order_pool.hpp and order_pool.cpp

    Fixed-capacity slab of [Order] slots with an intrusive free list: the
    first bytes of a free slot hold the index of the next free slot. *)
From S2P Require Import Prelude Core.

(** What the memory of one slot holds.  Reading a slot as the other kind is
    undefined behaviour. *)
Inductive Slot :=
| FreeSlot (next : nat)
| OrderSlot (o : Order).

Record OrderPool := mkPool {
  storage_ : list Slot;
  capacity_ : nat;
  free_list_head_ : nat;
  free_count_ : Z }.

(** [OrderPool::OrderPool]: chain 0 -> 1 -> ... -> capacity (the sentinel). *)
Definition OrderPool_new (capacity : nat) : OrderPool :=
  mkPool (map (λ i, FreeSlot (S i)) (seq 0 capacity)) capacity 0 (Z.of_nat capacity).

(** [next_free(index)], read. *)
Definition next_free (p : OrderPool) (index : nat) : outcome nat :=
  match storage_ p !! index with
  | Some (FreeSlot n) => Ok n
  | _ => Undefined
  end.

(** A write of a whole slot: [next_free(index) = n], or [*slot = data]. *)
Definition write_slot (index : nat) (s : Slot) (mem : list Slot) : outcome (list Slot) :=
  match mem !! index with Some _ => Ok (<[index := s]> mem) | None => Undefined end.

Definition acquire (p : OrderPool) : outcome (option OrderPtr * OrderPool) :=
  if decide (free_list_head_ p = capacity_ p) then Ok (None, p)
  else
    let slot := free_list_head_ p in
    n ← next_free p slot;
    Ok (Some slot,
        mkPool (storage_ p) (capacity_ p) n (u64_sub (free_count_ p) 1)).

Definition release (order : OrderPtr) (p : OrderPool) : outcome OrderPool :=
  mem ← write_slot order (FreeSlot (free_list_head_ p)) (storage_ p);
  Ok (mkPool mem (capacity_ p) order (u64_add (free_count_ p) 1)).

Definition available (p : OrderPool) : Z := free_count_ p.

Definition set_storage (mem : list Slot) (p : OrderPool) : OrderPool :=
  mkPool mem (capacity_ p) (free_list_head_ p) (free_count_ p).

(** Dereferencing an [Order*]. *)
Definition load (mem : list Slot) (order : OrderPtr) : outcome Order :=
  match mem !! order with Some (OrderSlot o) => Ok o | _ => Undefined end.

(** A read-modify-write through an [Order*]. *)
Definition modify (f : Order → Order) (order : OrderPtr) (mem : list Slot) : outcome (list Slot) :=
  o ← load mem order; write_slot order (OrderSlot (f o)) mem.

(** ** The invariant: the free list is a stack of the slots not handed out *)

Fixpoint free_chain (mem : list Slot) (cap head : nat) (free : list nat) : Prop :=
  match free with
  | [] => head = cap
  | x :: rest => head = x ∧ ∃ n, mem !! x = Some (FreeSlot n) ∧ free_chain mem cap n rest
  end.

(** [free] are the free slots, in pop order; [live] are the slots acquired
    and not yet released. *)
Record pool_rep (p : OrderPool) (free live : list nat) : Prop := {
  pr_chain : free_chain (storage_ p) (capacity_ p) (free_list_head_ p) free;
  pr_length : length (storage_ p) = capacity_ p;
  pr_count : free_count_ p = Z.of_nat (length free);
  pr_size : in_u64 (Z.of_nat (capacity_ p));
  pr_perm : free ++ live ≡ₚ seq 0 (capacity_ p) }.

Section PoolFacts.
Implicit Types (p : OrderPool) (mem : list Slot) (free live : list nat).

Lemma free_chain_frame mem cap head free i s :
  i ∉ free → free_chain mem cap head free → free_chain (<[i := s]> mem) cap head free.
Proof.
  revert head. induction free as [|x free IH]; intros head; simpl; [done|].
  rewrite not_elem_of_cons. intros [Hx Hi] (-> & n & Hn & Hc). split; [done|].
  exists n. rewrite list_lookup_insert_ne by done. auto.
Qed.

Lemma pool_rep_nodup p free live : pool_rep p free live → NoDup (free ++ live).
Proof. intros H. rewrite (pr_perm _ _ _ H). apply NoDup_seq. Qed.

Lemma pool_rep_live p free live i :
  pool_rep p free live → i ∈ live → (i ∉ free) ∧ (i < length (storage_ p))%nat.
Proof.
  intros H Hi. pose proof (pool_rep_nodup _ _ _ H) as Hd.
  apply NoDup_app in Hd as (_ & Hd & _). split; [naive_solver|].
  rewrite (pr_length _ _ _ H). apply elem_of_seq with (j := 0%nat).
  rewrite <- (pr_perm _ _ _ H), elem_of_app. by right.
Qed.

Lemma pool_rep_free p free live i :
  pool_rep p free live → i ∈ free → (i < capacity_ p)%nat.
Proof.
  intros H Hi. apply elem_of_seq with (j := 0%nat).
  rewrite <- (pr_perm _ _ _ H), elem_of_app. by left.
Qed.

Lemma pool_rep_length p free live :
  pool_rep p free live → (length free + length live = capacity_ p)%nat.
Proof.
  intros H. pose proof (Permutation_length (pr_perm _ _ _ H)) as E.
  rewrite length_app, length_seq in E. done.
Qed.

Lemma free_chain_agree mem mem' cap head free :
  (∀ i, i ∈ free → mem' !! i = mem !! i) →
  free_chain mem cap head free → free_chain mem' cap head free.
Proof.
  revert head. induction free as [|x free IH]; intros head Ha; simpl; [done|].
  intros (-> & n & Hn & Hc). split; [done|]. exists n.
  rewrite Ha by constructor. split; [done|]. apply IH; [|done].
  intros i Hi. apply Ha. by constructor.
Qed.

(** Writes to slots that are handed out do not disturb the free list. *)
Lemma pool_rep_agree p free live mem' :
  pool_rep p free live → (∀ i, i ∈ free → mem' !! i = storage_ p !! i) →
  length mem' = length (storage_ p) → pool_rep (set_storage mem' p) free live.
Proof.
  intros [] Ha Hl. split; simpl; try done; [|congruence]. by eapply free_chain_agree.
Qed.

#[global] Instance pool_rep_proper p free : Proper ((≡ₚ) ==> iff) (pool_rep p free).
Proof.
  intros l1 l2 E. split; intros []; split; try done; [by rewrite <- E|by rewrite E].
Qed.

(** A slot is in exactly one place. *)
Lemma pool_rep_split p free s live :
  pool_rep p free (s :: live) → (s ∉ live) ∧ ∀ i, i ∈ free → i ≠ s ∧ i ∉ live.
Proof.
  intros H%pool_rep_nodup. apply NoDup_app in H as (_ & H1 & H2).
  apply NoDup_cons in H2 as [? _]. split; [done|]. intros i Hi%H1.
  by rewrite not_elem_of_cons in Hi.
Qed.

Lemma free_chain_init cap i n :
  (i + n = cap)%nat → 
  free_chain (map (λ i, FreeSlot (S i)) (seq 0 cap)) cap i (seq i n).
Proof.
  revert i. induction n as [|n IH]; intros i E; simpl; [lia|]. split; [done|].
  exists (S i). split; [|apply IH; lia].
  apply list_lookup_fmap_Some. exists i. split; [done|].
  apply lookup_seq. lia.
Qed.

(** A fresh pool has every slot free. *)
Lemma pool_new_rep cap :
  in_u64 (Z.of_nat cap) → pool_rep (OrderPool_new cap) (seq 0 cap) [].
Proof.
  intros Hc. split; simpl; try done.
  - by apply free_chain_init.
  - by rewrite length_map, length_seq.
  - by rewrite length_seq.
  - by rewrite app_nil_r.
Qed.

(** [acquire] pops the free list, or reports exhaustion exactly when it is empty. *)
Lemma acquire_spec p free live :
  pool_rep p free live →
  match free with
  | [] => acquire p = Ok (None, p)
  | s :: free' => ∃ p', acquire p = Ok (Some s, p') ∧ pool_rep p' free' (s :: live) ∧
                        storage_ p' = storage_ p
  end.
Proof.
  intros H. pose proof H as []. unfold acquire. destruct free as [|s free']; simpl in *.
  - by rewrite decide_True.
  - destruct pr_chain0 as (Hh & n & Hn & Hc).
    assert (s < capacity_ p)%nat by (eapply pool_rep_free; [done|constructor]).
    rewrite decide_False by lia. unfold next_free. rewrite Hh, Hn. simpl.
    eexists. split; [done|]. split; [|done]. pose proof (pool_rep_length _ _ _ H).
    split; simpl; try done.
    + rewrite pr_count0, u64_sub_small; [lia| |lia]. simpl in *. u64. lia.
    + rewrite <- pr_perm0. by rewrite <- Permutation_middle.
Qed.

(** [release] pushes a live slot back. *)
Lemma release_spec p free live s :
  pool_rep p free (s :: live) →
  ∃ p', release s p = Ok p' ∧ pool_rep p' (s :: free) live ∧
        storage_ p' = <[s := FreeSlot (free_list_head_ p)]> (storage_ p).
Proof.
  intros H. pose proof (pool_rep_live _ _ _ s H ltac:(constructor)) as [Hf Hl].
  unfold release, write_slot. destruct (lookup_lt_is_Some_2 _ _ Hl) as [x Hx].
  rewrite Hx. simpl. eexists. split; [done|]. split; [|done].
  pose proof (pool_rep_length _ _ _ H). destruct H. simpl in *. split; simpl.
  - split; [done|]. eexists. rewrite list_lookup_insert_eq by done. split; [done|].
    by apply free_chain_frame.
  - by rewrite length_insert.
  - rewrite pr_count0. unfold u64_add. rewrite wrap64_small; u64; lia.
  - done.
  - rewrite <- pr_perm0. by rewrite <- Permutation_middle.
Qed.
End PoolFacts.
