(* ===== verification/PriceLevel.v ===== *)
(** * PriceLevel: orderbook/price_level.hpp and price_level.cpp

    A FIFO queue of resting orders at one price, as an intrusive doubly
    linked list threaded through the pool's slots.  The operations are the
    source's pointer updates; [level_rep] says which abstract queue a level
    represents, and the lemmas show each operation implements the queue
    operation it stands for and touches nothing outside its own nodes. *)
From S2P Require Import Prelude Core OrderPool.

Record PriceLevel := mkLevel {
  price_ : Z;
  head_ : option OrderPtr;
  tail_ : option OrderPtr;
  total_qty_ : Z }.

(** [PriceLevel::PriceLevel(price)]. *)
Definition PriceLevel_new (price : Z) : PriceLevel := mkLevel price None None 0.

(** [push_back]; [this] is the level's own address. *)
Definition push_back (this : LevelPtr) (lv : PriceLevel) (order : OrderPtr)
    (mem : list Slot) : outcome (PriceLevel * list Slot) :=
  mem ← modify (set_links (tail_ lv) None (Some this)) order mem;
  '(head, mem) ←
    match tail_ lv with
    | Some t => mem ← modify (set_next (Some order)) t mem; Ok (head_ lv, mem)
    | None => Ok (Some order, mem)
    end;
  o ← load mem order;
  Ok (mkLevel (price_ lv) head (Some order) (Quantity_add (total_qty_ lv) (o_quantity o)), mem).

Definition remove (lv : PriceLevel) (order : OrderPtr) (mem : list Slot)
    : outcome (PriceLevel * list Slot) :=
  o ← load mem order;
  '(head, mem) ←
    match o_prev o with
    | Some p => mem ← modify (set_next (o_next o)) p mem; Ok (head_ lv, mem)
    | None => Ok (o_next o, mem)
    end;
  o ← load mem order;
  '(tail, mem) ←
    match o_next o with
    | Some n => mem ← modify (set_prev (o_prev o)) n mem; Ok (tail_ lv, mem)
    | None => Ok (o_prev o, mem)
    end;
  o ← load mem order;
  let total := Quantity_sub (total_qty_ lv) (o_quantity o) in
  mem ← modify (set_links None None None) order mem;
  Ok (mkLevel (price_ lv) head tail total, mem).

Definition reduce_quantity (qty : Z) (lv : PriceLevel) : PriceLevel :=
  mkLevel (price_ lv) (head_ lv) (tail_ lv) (Quantity_sub (total_qty_ lv) qty).

Definition front (lv : PriceLevel) : option OrderPtr := head_ lv.

Definition level_empty (lv : PriceLevel) : bool := bool_decide (head_ lv = None).

Definition total_quantity (lv : PriceLevel) : Z := total_qty_ lv.

(** ** The abstract queue a level stands for *)

(** A resting order without its queue links. *)
Record Resting := mkResting {
  r_id : Z; r_side : Side; r_price : Z; r_quantity : Z; r_sequence : Z; r_owner : Z }.

Definition resting_of (o : Order) : Resting :=
  mkResting (o_id o) (o_side o) (o_price o) (o_quantity o) (o_sequence o) (o_owner o).

Definition rest_set_quantity (q : Z) (r : Resting) : Resting :=
  mkResting (r_id r) (r_side r) (r_price r) q (r_sequence r) (r_owner r).

(** A queue entry: the slot an order lives in, and the order. *)
Abbreviation Entry := (OrderPtr * Resting)%type.

Definition first_ptr (q : list Entry) (d : option OrderPtr) : option OrderPtr :=
  match q with [] => d | e :: _ => Some e.1 end.

Definition last_ptr (q : list Entry) (d : option OrderPtr) : option OrderPtr :=
  match last q with Some e => Some e.1 | None => d end.

(** A doubly linked segment: [q] lies between [prev] and [next]. *)
Fixpoint segment (mem : list Slot) (lp : LevelPtr) (prev : option OrderPtr)
    (q : list Entry) (next : option OrderPtr) : Prop :=
  match q with
  | [] => True
  | (s, r) :: q' =>
      mem !! s = Some (OrderSlot (mkOrder (r_id r) (r_side r) (r_price r) (r_quantity r)
        (r_sequence r) (r_owner r) prev (first_ptr q' next) (Some lp))) ∧
      segment mem lp (Some s) q' next
  end.

Definition queue_quantity (q : list Entry) : Z := sumZ (λ e, r_quantity e.2) q.

Record level_rep (mem : list Slot) (lp : LevelPtr) (lv : PriceLevel) (q : list Entry) : Prop := {
  lr_segment : segment mem lp None q None;
  lr_nodup : NoDup q.*1;
  lr_price : price_ lv = lp.2;
  lr_head : head_ lv = first_ptr q None;
  lr_tail : tail_ lv = last_ptr q None;
  lr_total : total_qty_ lv = wrap64 (queue_quantity q) }.

Section Segments.
Implicit Types (mem : list Slot) (lp : LevelPtr) (q : list Entry) (p n : option OrderPtr).

Lemma last_ptr_app q1 q2 d : last_ptr (q1 ++ q2) d = last_ptr q2 (last_ptr q1 d).
Proof. unfold last_ptr. rewrite last_app. by destruct (last q2). Qed.

Lemma last_ptr_cons s r q d : last_ptr ((s, r) :: q) d = last_ptr q (Some s).
Proof. apply (last_ptr_app [(s, r)]). Qed.

Lemma segment_app mem lp p q1 q2 n :
  segment mem lp p (q1 ++ q2) n ↔
  segment mem lp p q1 (first_ptr q2 n) ∧ segment mem lp (last_ptr q1 p) q2 n.
Proof.
  revert p. induction q1 as [|[s r] q1 IH]; intros p; simpl; [unfold last_ptr; simpl; tauto|].
  rewrite IH, last_ptr_cons. destruct q1 as [|[s' r'] q1]; simpl; naive_solver.
Qed.

Lemma segment_frame mem lp p q n s x :
  s ∉ q.*1 → segment mem lp p q n → segment (<[s := x]> mem) lp p q n.
Proof.
  revert p. induction q as [|[s' r'] q IH]; intros p; simpl; [done|].
  rewrite not_elem_of_cons. intros [Hs Hq] [H1 H2]. split; [|by apply IH].
  by rewrite list_lookup_insert_ne.
Qed.

(** Relinking the last node of a segment to a new successor. *)
Lemma segment_set_next mem lp p q s r n n' :
  s ∉ q.*1 → segment mem lp p (q ++ [(s, r)]) n →
  ∃ mem', modify (set_next n') s mem = Ok mem' ∧ segment mem' lp p (q ++ [(s, r)]) n' ∧
    (∀ i, i ≠ s → mem' !! i = mem !! i) ∧ length mem' = length mem.
Proof.
  intros Hs [H1 [H2 _]]%segment_app. unfold modify, load. simpl in H2. rewrite H2. simpl.
  unfold write_slot. rewrite H2. eexists. split; [done|].
  pose proof (lookup_lt_Some _ _ _ H2) as Hl. split; [|split].
  - apply segment_app. split; [by apply segment_frame|]. simpl.
    by rewrite list_lookup_insert_eq.
  - intros i Hi. by rewrite list_lookup_insert_ne.
  - apply length_insert.
Qed.

(** Relinking the first node of a segment to a new predecessor. *)
Lemma segment_set_prev mem lp p p' q s r n :
  s ∉ q.*1 → segment mem lp p ((s, r) :: q) n →
  ∃ mem', modify (set_prev p') s mem = Ok mem' ∧ segment mem' lp p' ((s, r) :: q) n ∧
    (∀ i, i ≠ s → mem' !! i = mem !! i) ∧ length mem' = length mem.
Proof.
  intros Hs [H1 H2]. unfold modify, load. rewrite H1. simpl. unfold write_slot. rewrite H1.
  eexists. split; [done|]. pose proof (lookup_lt_Some _ _ _ H1) as Hl. split; [|split].
  - simpl. rewrite list_lookup_insert_eq by done. split; [done|]. by apply segment_frame.
  - intros i Hi. by rewrite list_lookup_insert_ne.
  - apply length_insert.
Qed.

(** Only the queue's own slots matter. *)
Lemma segment_agree mem mem' lp p q n :
  (∀ i, i ∈ q.*1 → mem' !! i = mem !! i) → segment mem lp p q n → segment mem' lp p q n.
Proof.
  revert p. induction q as [|[s r] q IH]; intros p Ha; simpl; [done|].
  intros [H1 H2]. split; [rewrite Ha; [done|]|].
  - simpl. constructor.
  - apply IH; [|done]. intros i Hi. apply Ha. simpl. by constructor.
Qed.

Lemma level_rep_agree mem mem' lp lv q :
  (∀ i, i ∈ q.*1 → mem' !! i = mem !! i) → level_rep mem lp lv q → level_rep mem' lp lv q.
Proof. intros Ha []. split; try done. by eapply segment_agree. Qed.

(** What [remove] does on the predecessor side, whether or not there is one. *)
Lemma relink_prev mem lp q h n n' :
  NoDup q.*1 → segment mem lp None q n →
  ∃ mem', match last_ptr q None with
          | Some p => mem ← modify (set_next n') p mem; Ok (h, mem)
          | None => Ok (n', mem) end
          = Ok (match last_ptr q None with Some _ => h | None => n' end, mem') ∧
    segment mem' lp None q n' ∧ (∀ i, i ∉ q.*1 → mem' !! i = mem !! i) ∧
    length mem' = length mem.
Proof.
  destruct q as [|[s r] q _] using rev_ind; intros Hd Hs; [by exists mem|].
  rewrite last_ptr_app. simpl. rewrite fmap_app in Hd. apply NoDup_app in Hd as (_ & Hd & _).
  assert (s ∉ q.*1) as Hn by (intros ?; eapply Hd; [done|]; simpl; constructor).
  destruct (segment_set_next _ _ _ _ _ _ _ n' Hn Hs) as (mem' & E & ? & Ha & ?).
  exists mem'. rewrite E. split; [done|]. split; [done|]. split; [|done].
  intros i Hi. apply Ha. intros ->. apply Hi. rewrite fmap_app. set_solver.
Qed.

(** And on the successor side. *)
Lemma relink_next mem lp q t p p' :
  NoDup q.*1 → segment mem lp p q None →
  ∃ mem', match first_ptr q None with
          | Some n => mem ← modify (set_prev p') n mem; Ok (t, mem)
          | None => Ok (p', mem) end
          = Ok (match first_ptr q None with Some _ => t | None => p' end, mem') ∧
    segment mem' lp p' q None ∧ (∀ i, i ∉ q.*1 → mem' !! i = mem !! i) ∧
    length mem' = length mem.
Proof.
  destruct q as [|[s r] q]; intros Hd Hs; [by exists mem|].
  simpl in Hd. apply NoDup_cons in Hd as [Hn _].
  destruct (segment_set_prev _ _ _ p' _ _ _ _ Hn Hs) as (mem' & E & ? & Ha & ?).
  exists mem'. simpl. rewrite E. split; [done|]. split; [done|]. split; [|done].
  intros i Hi. apply Ha. intros ->. apply Hi. simpl. constructor.
Qed.

Lemma load_lookup s o mem : mem !! s = Some (OrderSlot o) → load mem s = Ok o.
Proof. intros H. unfold load. by rewrite H. Qed.

Lemma modify_lookup f s o mem :
  mem !! s = Some (OrderSlot o) → modify f s mem = Ok (<[s := OrderSlot (f o)]> mem).
Proof. intros H. unfold modify, load, write_slot. by rewrite H. Qed.
End Segments.

(** The order as it is left once unlinked. *)
Definition unlinked (r : Resting) : Order :=
  mkOrder (r_id r) (r_side r) (r_price r) (r_quantity r) (r_sequence r) (r_owner r)
          None None None.

Section LevelOps.
Implicit Types (mem : list Slot) (lp : LevelPtr) (lv : PriceLevel) (q : list Entry).

Lemma level_new_rep mem lp : level_rep mem lp (PriceLevel_new lp.2) [].
Proof. split; simpl; try done. constructor. Qed.

Lemma level_empty_spec mem lp lv q : level_rep mem lp lv q → level_empty lv = true ↔ q = [].
Proof.
  intros []. unfold level_empty. rewrite lr_head0, bool_decide_eq_true.
  by destruct q as [|[]].
Qed.

(** [push_back] appends to the queue. *)
Lemma push_back_spec mem lp lv q s o :
  level_rep mem lp lv q → s ∉ q.*1 → mem !! s = Some (OrderSlot o) →
  ∃ lv' mem', push_back lp lv s mem = Ok (lv', mem') ∧
    level_rep mem' lp lv' (q ++ [(s, resting_of o)]) ∧
    (∀ i, i ∉ s :: q.*1 → mem' !! i = mem !! i) ∧ length mem' = length mem.
Proof.
  intros [Hseg Hnd Hpr Hhd Htl Htot] Hs Ho. pose proof (lookup_lt_Some _ _ _ Ho) as Hl.
  unfold push_back. rewrite (modify_lookup _ _ _ _ Ho). simpl.
  set (o1 := set_links _ _ _ o). set (mem1 := <[s := OrderSlot o1]> mem).
  assert (segment mem1 lp None q None) as Hseg1 by by apply segment_frame.
  destruct (relink_prev mem1 lp q (head_ lv) None (Some s) Hnd Hseg1) as (mem2 & E2 & Hseg2 & Ha2 & Hl2).
  assert (mem2 !! s = Some (OrderSlot o1)) as Hs2.
  { rewrite Ha2 by done. by apply list_lookup_insert_eq. }
  rewrite Htl, E2. simpl. rewrite (load_lookup _ _ _ Hs2). simpl. do 2 eexists. split; [done|].
  split; [|split].
  - split; simpl.
    + apply segment_app. split; [done|]. simpl. split; [|done].
      rewrite Hs2. unfold o1. rewrite Htl. by destruct o.
    + rewrite fmap_app. apply NoDup_app. split; [done|]. split; [|apply NoDup_singleton].
      intros x Hx ->%list_elem_of_singleton. done.
    + done.
    + rewrite Hhd. destruct q as [|[s0 r0] q]; [done|]. rewrite last_ptr_cons. simpl.
      unfold last_ptr. by destruct (last q).
    + by rewrite last_ptr_app.
    + rewrite Htot. unfold Quantity_add, u64_add, queue_quantity.
      rewrite wrap64_add_l, sumZ_app. simpl. f_equal. lia.
  - intros i. rewrite not_elem_of_cons. intros [? ?]. rewrite Ha2 by done. unfold mem1.
    by rewrite list_lookup_insert_ne.
  - rewrite Hl2. unfold mem1. apply length_insert.
Qed.

(** [remove] takes one order out of the queue, wherever it stands. *)
Lemma remove_spec mem lp lv q1 s r q2 :
  level_rep mem lp lv (q1 ++ (s, r) :: q2) →
  ∃ lv' mem', remove lv s mem = Ok (lv', mem') ∧ level_rep mem' lp lv' (q1 ++ q2) ∧
    mem' !! s = Some (OrderSlot (unlinked r)) ∧
    (∀ i, i ∉ (q1 ++ (s, r) :: q2).*1 → mem' !! i = mem !! i) ∧ length mem' = length mem.
Proof.
  intros [Hseg Hnd Hpr Hhd Htl Htot]. apply segment_app in Hseg as [Hs1 [Hs Hs2]].
  simpl in Hs, Hs1. pose proof (lookup_lt_Some _ _ _ Hs) as Hl.
  rewrite fmap_app, fmap_cons in Hnd. simpl in Hnd.
  pose proof Hnd as Hnd'. rewrite <- Permutation_middle in Hnd'.
  apply NoDup_cons in Hnd' as [Hns Hnd'].
  apply NoDup_app in Hnd' as (Hd1 & Hd12 & Hd2). rewrite not_elem_of_app in Hns. destruct Hns.
  unfold remove. rewrite (load_lookup _ _ _ Hs). simpl.
  destruct (relink_prev mem lp q1 (head_ lv) (Some s) (first_ptr q2 None) Hd1 Hs1)
    as (mem1 & -> & Hseg1 & Ha1 & Hl1). simpl.
  rewrite <- Ha1 in Hs by done. rewrite (load_lookup _ _ _ Hs). simpl.
  assert (segment mem1 lp (Some s) q2 None) as Hs2'.
  { eapply segment_agree; [|done]. intros i Hi. apply Ha1. naive_solver. }
  destruct (relink_next mem1 lp q2 (tail_ lv) (Some s) (last_ptr q1 None) Hd2 Hs2')
    as (mem2 & -> & Hseg2 & Ha2 & Hl2). simpl.
  rewrite <- Ha2 in Hs by done. rewrite (load_lookup _ _ _ Hs). simpl.
  rewrite (modify_lookup _ _ _ _ Hs). simpl.
  do 2 eexists. split; [done|]. split; [|split; [|split]].
  - split; simpl.
    + apply segment_app. split; (apply segment_frame; [done|]).
      * eapply segment_agree; [|done]. intros i Hi. apply Ha2. naive_solver.
      * done.
    + rewrite fmap_app. by apply NoDup_app.
    + done.
    + rewrite Hhd. destruct q1 as [|[s0 r0] q1]; [done|]. rewrite last_ptr_cons.
      unfold last_ptr. by destruct (last q1).
    + rewrite Htl. destruct q2 as [|[s0 r0] q2]; simpl; [by rewrite app_nil_r|].
      rewrite !last_ptr_app, !last_ptr_cons. done.
    + rewrite Htot. unfold Quantity_sub, u64_sub, queue_quantity.
      rewrite wrap64_sub_l, !sumZ_app. simpl. f_equal. lia.
  - rewrite list_lookup_insert_eq by lia. done.
  - intros i. rewrite fmap_app, fmap_cons. simpl. rewrite not_elem_of_app, not_elem_of_cons.
    intros (? & ? & ?). rewrite list_lookup_insert_ne by done. by rewrite Ha2, Ha1.
  - rewrite length_insert. congruence.
Qed.

(** Decrementing the front order's quantity, and the level's aggregate with it. *)
Lemma fill_front_spec mem lp lv s r q qty :
  level_rep mem lp lv ((s, r) :: q) →
  ∃ mem', modify (λ o, set_quantity (Quantity_sub (o_quantity o) qty) o) s mem = Ok mem' ∧
    level_rep mem' lp (reduce_quantity qty lv)
      ((s, rest_set_quantity (Quantity_sub (r_quantity r) qty) r) :: q) ∧
    (∀ i, i ≠ s → mem' !! i = mem !! i) ∧ length mem' = length mem.
Proof.
  intros [Hseg Hnd Hpr Hhd Htl Htot]. destruct Hseg as [Hs Hseg]. simpl in Hnd.
  apply NoDup_cons in Hnd as [Hn Hnd]. pose proof (lookup_lt_Some _ _ _ Hs).
  erewrite modify_lookup by done. eexists. split; [done|]. split; [|split].
  - split; simpl; try done.
    + rewrite list_lookup_insert_eq by done. split; [done|]. by apply segment_frame.
    + by apply NoDup_cons.
    + rewrite Htl, !last_ptr_cons. done.
    + rewrite Htot. unfold Quantity_sub, u64_sub, queue_quantity. simpl.
      rewrite wrap64_sub_l. unfold wrap64. rewrite Zplus_mod_idemp_l. f_equal. lia.
  - intros i Hi. by rewrite list_lookup_insert_ne.
  - apply length_insert.
Qed.

Lemma level_rep_load mem lp lv q1 s r q2 :
  level_rep mem lp lv (q1 ++ (s, r) :: q2) →
  ∃ o, mem !! s = Some (OrderSlot o) ∧ resting_of o = r ∧ o_level o = Some lp.
Proof.
  intros []. apply segment_app in lr_segment0 as [_ [H _]]. eexists. split; [exact H|].
  by destruct r.
Qed.
End LevelOps.
