(* ===== verification/OrderBook.v ===== *)
(** * OrderBook: orderbook/order_book.hpp and order_book.cpp

    The two price trees, the pool and the non-owning OrderId index, with the
    book's structural operations.  [book_rep] relates a book to its abstract
    content: for each side, the list of resting orders in priority order
    (best price first, then arrival order). *)
From S2P Require Import Prelude Core StdMap OrderPool PriceLevel.

Record OrderBook := mkBook {
  pool_ : OrderPool;
  bids_ : list (Z * PriceLevel);
  asks_ : list (Z * PriceLevel);
  orders_ : gmap Z OrderPtr;
  order_count_ : Z }.

(** [BidTree] is ordered by [std::greater], [AskTree] by [std::less]. *)
Definition tree_lt (s : Side) : Z → Z → bool :=
  match s with Buy => Z.gtb | Sell => Z.ltb end.

Definition tree (s : Side) (b : OrderBook) : list (Z * PriceLevel) :=
  match s with Buy => bids_ b | Sell => asks_ b end.

Definition set_tree (s : Side) (t : list (Z * PriceLevel)) (b : OrderBook) : OrderBook :=
  match s with
  | Buy => mkBook (pool_ b) t (asks_ b) (orders_ b) (order_count_ b)
  | Sell => mkBook (pool_ b) (bids_ b) t (orders_ b) (order_count_ b)
  end.

Definition set_mem (mem : list Slot) (b : OrderBook) : OrderBook :=
  mkBook (set_storage mem (pool_ b)) (bids_ b) (asks_ b) (orders_ b) (order_count_ b).

Definition mem_of (b : OrderBook) : list Slot := storage_ (pool_ b).

Definition OrderBook_new (pool_capacity : nat) : OrderBook :=
  mkBook (OrderPool_new pool_capacity) [] [] ∅ 0.

(** Dereferencing a [PriceLevel*]: undefined when the node has been erased. *)
Definition deref_level (lp : LevelPtr) (b : OrderBook) : outcome PriceLevel :=
  deref (map_find lp.2 (tree lp.1 b)).

Definition store_level (lp : LevelPtr) (lv : PriceLevel) (b : OrderBook) : OrderBook :=
  set_tree lp.1 (map_update lp.2 lv (tree lp.1 b)) b.

(** [orders_.emplace(id, slot)]: does nothing when the key is present. *)
Definition index_emplace (id : Z) (slot : OrderPtr) (m : gmap Z OrderPtr) : gmap Z OrderPtr :=
  match m !! id with Some _ => m | None => <[id := slot]> m end.

Definition add_order (order_data : Order) (b : OrderBook) : outcome (option OrderPtr * OrderBook) :=
  '(slot, pool) ← acquire (pool_ b);
  match slot with
  | None => Ok (None, mkBook pool (bids_ b) (asks_ b) (orders_ b) (order_count_ b))
  | Some slot =>
      mem ← write_slot slot (OrderSlot order_data) (storage_ pool);
      o ← load mem slot;
      let price := o_price o in
      let side := o_side o in
      let id := o_id o in
      let index := index_emplace id slot (orders_ b) in
      let t := map_try_emplace (tree_lt side) price (PriceLevel_new price) (tree side b) in
      lv ← deref (map_find price t);
      '(lv, mem) ← push_back (side, price) lv slot mem;
      let b' := mkBook (set_storage mem pool) (bids_ b) (asks_ b) index
                       (u64_add (order_count_ b) 1) in
      Ok (Some slot, set_tree side (map_update price lv t) b')
  end.

Definition remove_order (order : OrderPtr) (b : OrderBook) : outcome OrderBook :=
  o ← load (mem_of b) order;
  level ← deref (o_level o);
  let price := o_price o in
  let side := o_side o in
  lv ← deref_level level b;
  '(lv, mem) ← remove lv order (mem_of b);
  let b := store_level level lv (set_mem mem b) in
  let b := if level_empty lv then set_tree side (map_erase price (tree side b)) b else b in
  o ← load mem order;
  let index := delete (o_id o) (orders_ b) in
  pool ← release order (pool_ b);
  Ok (mkBook pool (bids_ b) (asks_ b) index (u64_sub (order_count_ b) 1)).

Definition find_order (id : Z) (b : OrderBook) : option OrderPtr := orders_ b !! id.

(** [best_bid()] and [best_ask()]: the address of the first tree node. *)
Definition best_level (s : Side) (b : OrderBook) : option LevelPtr :=
  match map_begin (tree s b) with Some (k, _) => Some (s, k) | None => None end.

Definition best_bid (b : OrderBook) : option LevelPtr := best_level Buy b.

Definition best_ask (b : OrderBook) : option LevelPtr := best_level Sell b.

Definition order_count (b : OrderBook) : Z := order_count_ b.

Definition pool_available (b : OrderBook) : Z := available (pool_ b).

(** ** The abstract book *)

Record ABook := mkABook { ab_bids : list Entry; ab_asks : list Entry }.

Definition ab_side (s : Side) (A : ABook) : list Entry :=
  match s with Buy => ab_bids A | Sell => ab_asks A end.

Definition ab_set (s : Side) (l : list Entry) (A : ABook) : ABook :=
  match s with Buy => mkABook l (ab_asks A) | Sell => mkABook (ab_bids A) l end.

Definition ab_entries (A : ABook) : list Entry := ab_bids A ++ ab_asks A.

(** Price-time priority: a new order goes after every order at its price or a
    better one, and before the first strictly worse one. *)
Fixpoint priority_insert (s : Side) (e : Entry) (l : list Entry) : list Entry :=
  match l with
  | [] => [e]
  | x :: l' => if tree_lt s (r_price e.2) (r_price x.2) then e :: l
               else x :: priority_insert s e l'
  end.

(** No entry is followed by one at a strictly better price. *)
Definition priority_sorted (s : Side) (l : list Entry) : Prop :=
  StronglySorted (λ x y, tree_lt s (r_price y.2) (r_price x.2) = false) l.

(** A tree node whose key is [k] and the queue of orders it holds. *)
Definition level_ok (mem : list Slot) (s : Side) (k : Z) (lv : PriceLevel) (q : list Entry) : Prop :=
  level_rep mem (s, k) lv q ∧ q ≠ [] ∧ Forall (λ e, r_price e.2 = k ∧ r_side e.2 = s) q.

Definition side_rep (mem : list Slot) (s : Side) (t : list (Z * PriceLevel)) (l : list Entry) : Prop :=
  ∃ a, map_related (level_ok mem s) t a ∧ map_sorted (tree_lt s) a ∧ l = concat a.*2.

Record book_rep (b : OrderBook) (A : ABook) : Prop := {
  br_pool : ∃ free, pool_rep (pool_ b) free (ab_entries A).*1;
  br_side s : side_rep (mem_of b) s (tree s b) (ab_side s A);
  br_index id slot : orders_ b !! id = Some slot →
    ∃ r, (slot, r) ∈ ab_entries A ∧ r_id r = id;
  br_count : order_count_ b = Z.of_nat (length (ab_entries A)) }.

#[global] Instance tree_lt_order s : StrictOrderB (tree_lt s).
Proof. destruct s; apply _. Qed.

Section Abstract.
Implicit Types (A : ABook) (l : list Entry) (s : Side).

Lemma ab_side_set s s' l A : ab_side s (ab_set s' l A) = if decide (s = s') then l else ab_side s A.
Proof. by destruct s, s'. Qed.

Lemma ab_side_set_eq s l A : ab_side s (ab_set s l A) = l.
Proof. by destruct s. Qed.

Lemma ab_side_set_opp s l A : ab_side (opposite s) (ab_set s l A) = ab_side (opposite s) A.
Proof. by destruct s. Qed.

Lemma ab_set_set s l l' A : ab_set s l (ab_set s l' A) = ab_set s l A.
Proof. by destruct s. Qed.

Lemma ab_set_id s A : ab_set s (ab_side s A) A = A.
Proof. by destruct s, A. Qed.

Lemma ab_entries_perm s A : ab_entries A ≡ₚ ab_side s A ++ ab_side (opposite s) A.
Proof. destruct s; unfold ab_entries; simpl; [done|apply Permutation_app_comm]. Qed.

Lemma ab_entries_elem e A : e ∈ ab_entries A ↔ ∃ s, e ∈ ab_side s A.
Proof.
  unfold ab_entries. rewrite elem_of_app. split.
  - intros [?|?]; [by exists Buy|by exists Sell].
  - intros [[] ?]; auto.
Qed.

Lemma priority_insert_split s e l1 l2 :
  (∀ x, x ∈ l1 → tree_lt s (r_price e.2) (r_price x.2) = false) →
  (∀ x, x ∈ l2 → tree_lt s (r_price e.2) (r_price x.2) = true) →
  priority_insert s e (l1 ++ l2) = l1 ++ e :: l2.
Proof.
  intros H1 H2. induction l1 as [|x l1 IH]; simpl.
  - destruct l2 as [|y l2]; simpl; [done|]. by rewrite H2 by constructor.
  - rewrite H1 by constructor. f_equal. apply IH. intros y Hy. apply H1. by constructor.
Qed.

Lemma priority_insert_perm s e l : priority_insert s e l ≡ₚ e :: l.
Proof.
  induction l as [|x l IH]; simpl; [done|]. destruct (tree_lt _ _ _); [done|].
  rewrite IH. constructor.
Qed.
End Abstract.

(** ** One side of the book *)

Section SideFacts.
Implicit Types (mem : list Slot) (s : Side) (t : list (Z * PriceLevel)) (l q : list Entry)
  (a : list (Z * list Entry)).

Lemma concat_split (a : list (Z * list Entry)) l1 e l2 :
  concat a.*2 = l1 ++ e :: l2 →
  ∃ a1 k q1 q2 a2, a = a1 ++ (k, q1 ++ e :: q2) :: a2 ∧
    l1 = concat a1.*2 ++ q1 ∧ l2 = q2 ++ concat a2.*2.
Proof.
  revert l1. induction a as [|[k q] a IH]; intros l1; csimpl; [by destruct l1|].
  intros E. apply app_eq_app in E as (m & [[-> E]|[-> E]]).
  - destruct m as [|x m]; csimpl in E.
    + destruct (IH [] (eq_sym E)) as (a1 & k' & q1 & q2 & a2 & -> & E1 & ->).
      exists ((k, l1 ++ []) :: a1), k', q1, q2, a2. csimpl. split; [done|]. split; [|done].
      by rewrite <- app_assoc, <- E1, !app_nil_r.
    + simplify_eq. exists [], k, l1, m, a. done.
  - destruct (IH _ E) as (a1 & k' & q1 & q2 & a2 & -> & -> & ->).
    exists ((k, q) :: a1), k', q1, q2, a2. csimpl. by rewrite app_assoc.
Qed.

Lemma level_ok_agree mem mem' s k lv q :
  (∀ i, i ∈ q.*1 → mem' !! i = mem !! i) → level_ok mem s k lv q → level_ok mem' s k lv q.
Proof. intros Ha (? & ? & ?). split; [|done]. by eapply level_rep_agree. Qed.

Lemma levels_agree mem mem' s t a :
  (∀ i, i ∈ (concat a.*2).*1 → mem' !! i = mem !! i) →
  map_related (level_ok mem s) t a → map_related (level_ok mem' s) t a.
Proof.
  intros Ha H. induction H as [|[k lv] [k' q] t a [Hk Hl] _ IH]; [constructor|].
  simpl in *. subst. rewrite fmap_app in Ha. constructor.
  - split; [done|]. eapply level_ok_agree; [|done]. intros i Hi. apply Ha. set_solver.
  - apply IH. intros i Hi. apply Ha. set_solver.
Qed.

Lemma side_rep_agree mem mem' s t l :
  (∀ i, i ∈ l.*1 → mem' !! i = mem !! i) → side_rep mem s t l → side_rep mem' s t l.
Proof.
  intros Ha (a & Hr & Hs & ->). exists a. split; [|done]. by eapply levels_agree.
Qed.

(** The level an entry sits in. *)
Lemma side_rep_split mem s t l1 e l2 :
  side_rep mem s t (l1 ++ e :: l2) →
  ∃ t1 lv t2 a1 q1 q2 a2, let k := r_price e.2 in
    t = t1 ++ (k, lv) :: t2 ∧ (k ∉ t1.*1) ∧ map_sorted (tree_lt s) (a1 ++ (k, q1 ++ e :: q2) :: a2) ∧
    map_related (level_ok mem s) t1 a1 ∧ level_ok mem s k lv (q1 ++ e :: q2) ∧
    map_related (level_ok mem s) t2 a2 ∧
    l1 = concat a1.*2 ++ q1 ∧ l2 = q2 ++ concat a2.*2 ∧ r_side e.2 = s.
Proof.
  intros (a & Hr & Hs & E). symmetry in E.
  apply concat_split in E as (a1 & k & q1 & q2 & a2 & -> & -> & ->).
  apply Forall2_app_inv_r in Hr as (t1 & t' & H1 & H2 & ->).
  inversion H2 as [|[k' lv] ? t2 ? [Hk Hl] H3]; simpl in *; subst.
  pose proof Hl as (_ & _ & Hf). rewrite Forall_app, Forall_cons in Hf.
  destruct Hf as (_ & [<- ?] & _).
  exists t1, lv, t2, a1, q1, q2, a2. split; [done|]. split; [|done].
  rewrite (map_related_keys _ _ _ H1). intros Hin.
  apply (map_sorted_app (tree_lt s)) in Hs as (_ & _ & Hlt).
  specialize (Hlt (r_price e.2) (r_price e.2) Hin). rewrite ltb_irrefl in Hlt.
  discriminate Hlt. simpl. constructor.
Qed.

Lemma concat_fst_elem (i : nat) (a1 a2 : list (Z * list Entry)) k q :
  i ∈ (concat (a1 ++ (k, q) :: a2).*2).*1 ↔
  i ∈ (concat a1.*2).*1 ∨ i ∈ q.*1 ∨ i ∈ (concat a2.*2).*1.
Proof. rewrite fmap_app, concat_app. simpl. rewrite !fmap_app. set_solver. Qed.

(** Rebuilding a side after the level at [k] changed in place. *)
Lemma side_rebuild mem mem' s t1 t2 a1 a2 k lv' q q' :
  map_sorted (tree_lt s) (a1 ++ (k, q) :: a2) →
  map_related (level_ok mem s) t1 a1 → map_related (level_ok mem s) t2 a2 →
  (∀ i, i ∈ (concat a1.*2).*1 ∨ i ∈ (concat a2.*2).*1 → mem' !! i = mem !! i) →
  level_ok mem' s k lv' q' →
  side_rep mem' s (t1 ++ (k, lv') :: t2) (concat a1.*2 ++ q' ++ concat a2.*2).
Proof.
  intros Hs H1 H2 Ha Hl. exists (a1 ++ (k, q') :: a2). split; [|split].
  - apply Forall2_app; [|constructor; [done|]].
    + eapply levels_agree; [|done]. auto.
    + eapply levels_agree; [|done]. auto.
  - unfold map_sorted in *. rewrite fmap_app, fmap_cons in *. done.
  - by rewrite fmap_app, concat_app.
Qed.

(** ... and after the level at [k] was erased. *)
Lemma side_rebuild_erase mem mem' s t1 t2 a1 a2 k q :
  map_sorted (tree_lt s) (a1 ++ (k, q) :: a2) →
  map_related (level_ok mem s) t1 a1 → map_related (level_ok mem s) t2 a2 →
  (∀ i, i ∈ (concat a1.*2).*1 ∨ i ∈ (concat a2.*2).*1 → mem' !! i = mem !! i) →
  side_rep mem' s (t1 ++ t2) (concat a1.*2 ++ concat a2.*2).
Proof.
  intros Hs H1 H2 Ha. exists (a1 ++ a2). split; [|split].
  - apply Forall2_app; (eapply levels_agree; [|done]); auto.
  - apply (map_sorted_app (tree_lt s)) in Hs as (S1 & S2 & Hlt).
    apply (map_sorted_cons (tree_lt s)) in S2 as [S2 _].
    apply (map_sorted_app (tree_lt s)). split_and!; try done. intros k1 k2 ??.
    apply Hlt; [done|]. simpl. by constructor.
  - by rewrite fmap_app, concat_app.
Qed.

(** Slots of one queue and of the queues around it are disjoint. *)
Lemma nodup_around l1 q l2 (i : nat) :
  NoDup (l1 ++ q ++ l2 : list Entry).*1 → i ∈ l1.*1 ∨ i ∈ l2.*1 → i ∉ q.*1.
Proof.
  rewrite !fmap_app, !NoDup_app. setoid_rewrite elem_of_app.
  intros (_ & H1 & _ & H2 & _) [?|?] ?; naive_solver.
Qed.

Lemma side_remove mem s t l1 slot r l2 :
  side_rep mem s t (l1 ++ (slot, r) :: l2) → NoDup (l1 ++ (slot, r) :: l2).*1 →
  let k := r_price r in
  ∃ lv o lv' mem', map_find k t = Some lv ∧ mem !! slot = Some (OrderSlot o) ∧
    resting_of o = r ∧ o_level o = Some (s, k) ∧ r_side r = s ∧
    remove lv slot mem = Ok (lv', mem') ∧
    mem' !! slot = Some (OrderSlot (unlinked r)) ∧
    side_rep mem' s (if level_empty lv' then map_erase k (map_update k lv' t)
                     else map_update k lv' t) (l1 ++ l2) ∧
    (∀ i, i ∉ (l1 ++ (slot, r) :: l2).*1 → mem' !! i = mem !! i) ∧ length mem' = length mem.
Proof.
  intros Hrep Hnd k. apply side_rep_split in Hrep
    as (t1 & lv & t2 & a1 & q1 & q2 & a2 & -> & Hk & Hs & H1 & Hl & H2 & -> & -> & Hside).
  simpl in *. destruct Hl as (Hl & _ & Hf).
  destruct (level_rep_load _ _ _ _ _ _ _ Hl) as (o & Ho & Hr & Hlev).
  destruct (remove_spec _ _ _ _ _ _ _ Hl) as (lv' & mem' & E & Hl' & Hslot & Ha & Hlen).
  exists lv, o, lv', mem'. split; [by apply map_find_here|].
  split; [done|]. split; [done|]. split; [done|]. split; [done|]. split; [done|].
  split; [done|].
  assert (∀ i, i ∈ (concat a1.*2).*1 ∨ i ∈ (concat a2.*2).*1 → mem' !! i = mem !! i) as Hout.
  { intros i Hi. apply Ha. eapply nodup_around; [|done].
    revert Hnd. by rewrite <- !app_assoc. }
  split; [|split; [|done]].
  - rewrite map_update_split by done.
    assert (level_empty lv' = true ↔ q1 ++ q2 = []) as He by (by eapply level_empty_spec).
    rewrite <- app_assoc, (app_assoc q1). destruct (level_empty lv').
    + rewrite map_erase_split by done. rewrite (proj1 He eq_refl). simpl.
      by eapply side_rebuild_erase.
    + eapply side_rebuild; [done..|]. split; [done|]. split; [intros E'; by apply He in E'|].
      rewrite Forall_app, Forall_cons in Hf. apply Forall_app. naive_solver.
  - intros i Hi. apply Ha. revert Hi. rewrite !fmap_app, !fmap_cons, !fmap_app. set_solver.
Qed.

Lemma levels_entry mem s t a x :
  map_related (level_ok mem s) t a → x ∈ concat a.*2 → r_price x.2 ∈ a.*1 ∧ r_side x.2 = s.
Proof.
  induction 1 as [|[k lv] [k' q] t a [Hk (_ & _ & Hf)] _ IH]; simpl in *; subst.
  - by intros ?%elem_of_nil.
  - rewrite elem_of_app, elem_of_cons. rewrite Forall_forall in Hf.
    intros [Hx|Hx]; [|naive_solver]. destruct (Hf x Hx). naive_solver.
Qed.

Lemma tree_lt_asym s (x y : Z) : tree_lt s x y = true → tree_lt s y x = false.
Proof.
  intros H. destruct (tree_lt s y x) eqn:E; [|done].
  pose proof (ltb_trans _ _ _ H E) as C. by rewrite ltb_irrefl in C.
Qed.

(** Concatenating the levels of a tree lists the side best price first. *)
Lemma side_rep_sorted mem s t l :
  side_rep mem s t l → priority_sorted s l ∧ (∀ x, x ∈ l → r_side x.2 = s).
Proof.
  intros (a & Hr & Hs & ->). split; [|intros x Hx; by eapply levels_entry].
  revert Hs. induction Hr as [|[k lv] [k' q] t a [Hk (_ & _ & Hf)] Hr IH]; [constructor|].
  simpl in *. subst k'. intros [Hs Hlt]%(map_sorted_cons (tree_lt s)). rewrite Forall_forall in Hf.
  apply StronglySorted_app_2; [|clear IH; induction q as [|y q IHq]; constructor|by apply IH].
  - intros x y Hx Hy. destruct (Hf x Hx) as [-> _]. apply tree_lt_asym, Hlt. by eapply levels_entry.
  - apply IHq. intros x Hx. apply Hf. by constructor.
  - apply Forall_forall. intros x Hx. destruct (Hf x) as [-> _]; [by constructor|].
    destruct (Hf y) as [-> _]; [by constructor|]. apply ltb_irrefl.
Qed.

(** The best level and the oldest order in it. *)
Lemma side_front mem s t e l :
  side_rep mem s t (e :: l) →
  ∃ lv t2 q2 a2, let k := r_price e.2 in
    t = (k, lv) :: t2 ∧ level_ok mem s k lv (e :: q2) ∧ map_related (level_ok mem s) t2 a2 ∧
    l = q2 ++ concat a2.*2 ∧ map_sorted (tree_lt s) ((k, e :: q2) :: a2) ∧ r_side e.2 = s.
Proof.
  intros H. apply (side_rep_split _ _ _ []) in H
    as (t1 & lv & t2 & a1 & q1 & q2 & a2 & -> & Hk & Hs & H1 & Hl & H2 & E & -> & Hside).
  assert (a1 = []) as ->.
  { inversion H1 as [|? [k q] ? ? [_ (_ & Hq & _)]]; subst; [done|].
    destruct q; [done|]. by simpl in E. }
  inversion H1; subst. simpl in E. subst. by exists lv, t2, q2, a2.
Qed.

Lemma side_nil mem s t : side_rep mem s t [] ↔ t = [].
Proof.
  split.
  - intros (a & Hr & _ & E). inversion Hr as [|? [k q] ? ? [_ (_ & Hq & _)]]; subst; [done|].
    destruct q; [done|]. by simpl in E.
  - intros ->. exists []. repeat constructor.
Qed.

Lemma side_add_present mem s t l slot o lv :
  side_rep mem s t l → NoDup l.*1 → slot ∉ l.*1 →
  mem !! slot = Some (OrderSlot o) → o_side o = s → map_find (o_price o) t = Some lv →
  ∃ lv' mem', push_back (s, o_price o) lv slot mem = Ok (lv', mem') ∧
    side_rep mem' s (map_update (o_price o) lv' t) (priority_insert s (slot, resting_of o) l) ∧
    (∀ i, i ∉ slot :: l.*1 → mem' !! i = mem !! i) ∧ length mem' = length mem.
Proof.
  intros (a & Hr & Hs & ->) Hnd Hslot Ho Hside (t1 & t2 & -> & Hk)%map_find_split.
  apply map_related_split in Hr as (a1 & q & a2 & -> & H1 & (Hl & Hne & Hf) & H2).
  setoid_rewrite concat_fst_elem in Hslot. rewrite fmap_app, concat_app in *. csimpl in *.
  assert (slot ∉ q.*1) as Hq by naive_solver.
  destruct (push_back_spec _ _ _ _ _ _ Hl Hq Ho) as (lv' & mem' & E & Hl' & Ha & Hlen).
  exists lv', mem'. split; [done|]. rewrite map_update_split by done.
  rewrite (app_assoc _ q), priority_insert_split; simpl.
  - split; [|split; [|done]].
    + rewrite <- app_assoc.
      replace (q ++ (slot, resting_of o) :: concat a2.*2)
        with ((q ++ [(slot, resting_of o)]) ++ concat a2.*2) by by rewrite <- app_assoc.
      eapply side_rebuild; [exact Hs|done..| |].
      * intros i Hi. apply Ha. rewrite not_elem_of_cons. split; [naive_solver|].
        by eapply nodup_around.
      * split; [done|]. split; [by destruct q|]. apply Forall_app. by repeat constructor.
    + intros i. rewrite !fmap_app, !not_elem_of_cons, !not_elem_of_app. intros Hi.
      apply Ha. rewrite not_elem_of_cons. naive_solver.
  - intros x [Hx|Hx]%elem_of_app.
    + apply tree_lt_asym. apply (map_sorted_app (tree_lt s)) in Hs as (_ & _ & Hlt).
      apply Hlt; [by eapply levels_entry|]. simpl. constructor.
    + rewrite Forall_forall in Hf. destruct (Hf x Hx) as [-> _]. apply ltb_irrefl.
  - intros x Hx. apply (map_sorted_app (tree_lt s)) in Hs as (_ & Hs2 & _).
    apply (map_sorted_cons (tree_lt s)) in Hs2 as [_ Hlt]. apply Hlt. by eapply levels_entry.
Qed.

Lemma side_add_absent mem s t l slot o :
  side_rep mem s t l → slot ∉ l.*1 →
  mem !! slot = Some (OrderSlot o) → o_side o = s → map_find (o_price o) t = None →
  let t' := map_try_emplace (tree_lt s) (o_price o) (PriceLevel_new (o_price o)) t in
  map_find (o_price o) t' = Some (PriceLevel_new (o_price o)) ∧
  ∃ lv' mem', push_back (s, o_price o) (PriceLevel_new (o_price o)) slot mem = Ok (lv', mem') ∧
    side_rep mem' s (map_update (o_price o) lv' t') (priority_insert s (slot, resting_of o) l) ∧
    (∀ i, i ∉ slot :: l.*1 → mem' !! i = mem !! i) ∧ length mem' = length mem.
Proof.
  intros (a & Hr & Hs & ->) Hslot Ho Hside Hf t'.
  pose proof (proj2 (map_related_sorted _ (tree_lt s) _ _ Hr) Hs) as Hst.
  destruct (map_emplace_split (tree_lt s) _ _ Hst Hf) as (t1 & t2 & -> & He & Hk1 & Hk2).
  apply Forall2_app_inv_l in Hr as (a1 & a2 & H1 & H2 & ->).
  assert (o_price o ∉ t1.*1) as Hn.
  { intros Hin%Hk1. by rewrite ltb_irrefl in Hin. }
  unfold t'. rewrite He. split; [by apply map_find_here|].
  destruct (push_back_spec _ (s, o_price o) _ _ _ _ (level_new_rep mem (s, o_price o))
    ltac:(apply not_elem_of_nil) Ho) as (lv' & mem' & E & Hl' & Ha & Hlen).
  simpl in E. exists lv', mem'. split; [done|]. rewrite map_update_split by done.
  rewrite fmap_app, concat_app in *. rewrite fmap_app in Hslot.
  assert (map_sorted (tree_lt s) (a1 ++ (o_price o, []) :: a2)) as Hs'.
  { rewrite (map_related_keys _ _ _ H1) in Hk1. rewrite (map_related_keys _ _ _ H2) in Hk2.
    apply (map_sorted_app (tree_lt s)) in Hs as (S1 & S2 & Hlt).
    apply (map_sorted_app (tree_lt s)). split_and!; [done| |].
    - by apply (map_sorted_cons (tree_lt s)).
    - intros k1 k2 Hin. simpl. rewrite elem_of_cons. intros [->|?]; auto. }
  rewrite priority_insert_split; simpl.
  - split; [|split; [|done]].
    + eapply (side_rebuild mem mem' s t1 t2 a1 a2 _ lv' [] [(slot, resting_of o)]); try done.
      * intros i Hi. apply Ha. rewrite not_elem_of_cons. split; [set_solver|apply not_elem_of_nil].
      * split; [done|]. split; [done|]. by repeat constructor.
    + intros i. rewrite !not_elem_of_cons. intros [? _]. apply Ha.
      rewrite not_elem_of_cons. split; [done|apply not_elem_of_nil].
  - intros x Hx. apply tree_lt_asym, Hk1. rewrite (map_related_keys _ _ _ H1).
    by eapply levels_entry.
  - intros x Hx. apply Hk2. rewrite (map_related_keys _ _ _ H2). by eapply levels_entry.
Qed.

(** [push_back] on the (possibly new) level at the order's price. *)
Lemma side_add mem s t l slot o :
  side_rep mem s t l → NoDup l.*1 → slot ∉ l.*1 →
  mem !! slot = Some (OrderSlot o) → o_side o = s →
  let t' := map_try_emplace (tree_lt s) (o_price o) (PriceLevel_new (o_price o)) t in
  ∃ lv lv' mem', map_find (o_price o) t' = Some lv ∧
    push_back (s, o_price o) lv slot mem = Ok (lv', mem') ∧
    side_rep mem' s (map_update (o_price o) lv' t') (priority_insert s (slot, resting_of o) l) ∧
    (∀ i, i ∉ slot :: l.*1 → mem' !! i = mem !! i) ∧ length mem' = length mem.
Proof.
  intros Hrep Hnd Hslot Ho Hside t'. destruct (map_find (o_price o) t) as [lv|] eqn:Hf.
  - exists lv. unfold t'. pose proof Hrep as (a & Hr & Hs & _).
    assert (map_sorted (tree_lt s) t) as Hst by by apply (map_related_sorted _ _ _ _ Hr).
    rewrite (map_emplace_present (tree_lt s) _ _ lv) by done.
    destruct (side_add_present _ _ _ _ _ _ _ Hrep Hnd Hslot Ho Hside Hf) as (lv' & mem' & H).
    by exists lv', mem'.
  - destruct (side_add_absent _ _ _ _ _ _ Hrep Hslot Ho Hside Hf) as (Hf' & lv' & mem' & H).
    by exists (PriceLevel_new (o_price o)), lv', mem'.
Qed.

(** A partial or full fill of the front order of the best level. *)
Lemma side_fill_front mem s t slot r l qty :
  side_rep mem s t ((slot, r) :: l) → NoDup ((slot, r) :: l).*1 →
  ∃ lv mem', map_find (r_price r) t = Some lv ∧
    modify (λ o, set_quantity (Quantity_sub (o_quantity o) qty) o) slot mem = Ok mem' ∧
    side_rep mem' s (map_update (r_price r) (reduce_quantity qty lv) t)
      ((slot, rest_set_quantity (Quantity_sub (r_quantity r) qty) r) :: l) ∧
    (∀ i, i ≠ slot → mem' !! i = mem !! i) ∧ length mem' = length mem.
Proof.
  intros Hrep Hnd. apply side_front in Hrep as (lv & t2 & q2 & a2 & -> & (Hl & _ & Hf) & H2 & -> & Hs & Hside).
  simpl in *. destruct (fill_front_spec _ _ _ _ _ _ qty Hl) as (mem' & E & Hl' & Ha & Hlen).
  exists lv, mem'. rewrite Z.eqb_refl. split; [done|]. split; [done|]. split; [|done].
  eapply (side_rebuild mem mem' s [] t2 [] a2 (r_price r) _ _ (_ :: q2)); try done.
  - constructor.
  - intros i [?%elem_of_nil|Hi]; [done|]. apply Ha. intros ->.
    apply NoDup_cons in Hnd as [Hn _]. apply Hn. rewrite fmap_app. set_solver.
  - split; [done|]. split; [done|]. apply Forall_cons in Hf as [Hr Hf]. by constructor.
Qed.
End SideFacts.

(** ** The whole book *)

Section BookFacts.
Implicit Types (b : OrderBook) (A : ABook) (s : Side) (l : list Entry).

Lemma tree_set_tree s s' t b :
  tree s (set_tree s' t b) = if decide (s = s') then t else tree s b.
Proof. by destruct s, s'. Qed.

Lemma pool_set_tree s t b : pool_ (set_tree s t b) = pool_ b.
Proof. by destruct s. Qed.

Lemma orders_set_tree s t b : orders_ (set_tree s t b) = orders_ b.
Proof. by destruct s. Qed.

Lemma count_set_tree s t b : order_count_ (set_tree s t b) = order_count_ b.
Proof. by destruct s. Qed.

Lemma tree_set_mem s mem b : tree s (set_mem mem b) = tree s b.
Proof. by destruct s. Qed.

Lemma opposite_ne s : opposite s ≠ s.
Proof. by destruct s. Qed.

Lemma book_nodup b A : book_rep b A → NoDup (ab_entries A).*1.
Proof.
  intros [[free Hp] _ _ _]. pose proof (pool_rep_nodup _ _ _ Hp) as H.
  by apply NoDup_app in H as (_ & _ & H).
Qed.

Lemma book_side_nodup b A s : book_rep b A → NoDup (ab_side s A).*1.
Proof.
  intros H%book_nodup. rewrite (ab_entries_perm s A), fmap_app in H.
  by apply NoDup_app in H as (H & _).
Qed.

Lemma book_side_disjoint b A s i :
  book_rep b A → i ∈ (ab_side s A).*1 → i ∈ (ab_side (opposite s) A).*1 → False.
Proof.
  intros H%book_nodup. rewrite (ab_entries_perm s A), fmap_app in H.
  apply NoDup_app in H as (_ & H & _). naive_solver.
Qed.

(** Free slots are counted exactly. *)
Lemma book_available b A :
  book_rep b A →
  pool_available b = Z.of_nat (capacity_ (pool_ b)) - Z.of_nat (length (ab_entries A)).
Proof.
  intros [[free Hp] _ _ _]. pose proof (pool_rep_length _ _ _ Hp) as E.
  rewrite length_fmap in E. unfold pool_available, available. rewrite (pr_count _ _ _ Hp). lia.
Qed.

Lemma book_capacity b A :
  book_rep b A → Z.of_nat (length (ab_entries A)) <= Z.of_nat (capacity_ (pool_ b)) < 2 ^ 64.
Proof.
  intros [[free Hp] _ _ _]. pose proof (pool_rep_length _ _ _ Hp) as E.
  rewrite length_fmap in E. pose proof (pr_size _ _ _ Hp). u64. lia.
Qed.

(** A change confined to one side of the book. *)
Lemma book_rep_update b b' A s l' free :
  book_rep b A →
  pool_rep (pool_ b') free (l' ++ ab_side (opposite s) A).*1 →
  side_rep (mem_of b') s (tree s b') l' →
  tree (opposite s) b' = tree (opposite s) b →
  (∀ i, i ∈ (ab_side (opposite s) A).*1 → mem_of b' !! i = mem_of b !! i) →
  (∀ id slot, orders_ b' !! id = Some slot →
     ∃ r, (slot, r) ∈ ab_entries (ab_set s l' A) ∧ r_id r = id) →
  order_count_ b' = Z.of_nat (length (l' ++ ab_side (opposite s) A)) →
  book_rep b' (ab_set s l' A).
Proof.
  intros H Hp Hs Ht Ha Hi Hc.
  pose proof (ab_entries_perm s (ab_set s l' A)) as Hperm.
  rewrite ab_side_set_eq, ab_side_set_opp in Hperm. split.
  - exists free. by rewrite Hperm.
  - intros s'. rewrite ab_side_set. case_decide as E; [by subst|].
    assert (s' = opposite s) as -> by by destruct s, s'.
    rewrite Ht. eapply side_rep_agree; [exact Ha|]. apply H.
  - done.
  - by rewrite Hc, Hperm.
Qed.

Lemma book_new_rep cap : in_u64 (Z.of_nat cap) → book_rep (OrderBook_new cap) (mkABook [] []).
Proof.
  intros Hc. split; simpl.
  - eexists. by apply pool_new_rep.
  - intros []; by apply side_nil.
  - intros id slot. by rewrite lookup_empty.
  - done.
Qed.

(** [add_order] on an exhausted pool changes nothing and reports it. *)
Lemma add_order_full b A o :
  book_rep b A → pool_available b = 0 → add_order o b = Ok (None, b).
Proof.
  intros [[free Hp] _ _ _] H0. unfold pool_available, available in H0.
  rewrite (pr_count _ _ _ Hp) in H0. destruct free; [|simpl in H0; lia].
  unfold add_order. rewrite (acquire_spec _ _ _ Hp). simpl. by destruct b.
Qed.

(** The slot [add_order] takes from the pool, with the order written into it. *)
Lemma add_order_slot b A o :
  book_rep b A → 0 < pool_available b →
  ∃ slot free p mem, acquire (pool_ b) = Ok (Some slot, p) ∧
    write_slot slot (OrderSlot o) (storage_ p) = Ok mem ∧
    mem !! slot = Some (OrderSlot o) ∧ (∀ i, i ≠ slot → mem !! i = mem_of b !! i) ∧
    pool_rep (set_storage mem p) free (slot :: (ab_entries A).*1) ∧
    capacity_ p = capacity_ (pool_ b).
Proof.
  intros [[free Hp] _ _ _] Ha. unfold pool_available, available in Ha.
  rewrite (pr_count _ _ _ Hp) in Ha. destruct free as [|slot free]; [simpl in Ha; lia|].
  destruct (acquire_spec _ _ _ Hp) as (p & E & Hp' & Hst).
  destruct (pool_rep_live _ _ _ slot Hp' ltac:(constructor)) as [Hf Hlt].
  destruct (lookup_lt_is_Some_2 _ _ Hlt) as [x Hx].
  exists slot, free, p, (<[slot := OrderSlot o]> (storage_ p)). split; [done|].
  unfold write_slot. rewrite Hx. split; [done|]. split; [by apply list_lookup_insert_eq|].
  split; [intros i Hi; unfold mem_of; by rewrite list_lookup_insert_ne, Hst|]. split.
  - apply pool_rep_agree; [done| |apply length_insert]. intros i Hi.
    rewrite list_lookup_insert_ne; [done|]. by intros ->.
  - unfold acquire in E. case_decide; [done|]. inv_ok. by simplify_eq.
Qed.

Lemma ab_side_fst_elem i s A : i ∈ (ab_side s A).*1 → i ∈ (ab_entries A).*1.
Proof.
  rewrite !list_elem_of_fmap. intros (x & -> & Hx). exists x. split; [done|].
  apply ab_entries_elem. by exists s.
Qed.

(** The index stays sound when an entry is added, even for an id it already has. *)
Lemma index_emplace_sound (m : gmap Z OrderPtr) A s e l' :
  (∀ id slot, m !! id = Some slot → ∃ r, (slot, r) ∈ ab_entries A ∧ r_id r = id) →
  l' ≡ₚ e :: ab_side s A →
  ∀ id slot, index_emplace (r_id e.2) e.1 m !! id = Some slot →
    ∃ r, (slot, r) ∈ ab_entries (ab_set s l' A) ∧ r_id r = id.
Proof.
  intros Hm Hl id slot Hi.
  assert (∀ x, x = e ∨ x ∈ ab_entries A → x ∈ ab_entries (ab_set s l' A)) as Hsub.
  { intros x. rewrite !(ab_entries_perm s), ab_side_set_eq, ab_side_set_opp, Hl. set_solver. }
  assert (m !! id = Some slot ∨ (slot = e.1 ∧ id = r_id e.2)) as [Hi'|[-> ->]].
  { unfold index_emplace in Hi. destruct (m !! r_id e.2); [by left|].
    rewrite lookup_insert in Hi. case_decide; simplify_eq; auto. }
  - destruct (Hm _ _ Hi') as (r & Hin & Hr). eauto.
  - exists e.2. split; [|done]. apply Hsub. left. by destruct e.
Qed.

(** [add_order] inserts the order in price-time priority. *)
Lemma add_order_spec b A o :
  book_rep b A → 0 < pool_available b →
  ∃ slot b', add_order o b = Ok (Some slot, b') ∧ (slot ∉ (ab_entries A).*1) ∧
    book_rep b' (ab_set (o_side o)
      (priority_insert (o_side o) (slot, resting_of o) (ab_side (o_side o) A)) A) ∧
    orders_ b' = index_emplace (o_id o) slot (orders_ b) ∧
    capacity_ (pool_ b') = capacity_ (pool_ b).
Proof.
  intros H Ha. set (s := o_side o).
  destruct (add_order_slot _ _ o H Ha) as (slot & free & p & mem & E & Ew & Hm & Hag & Hp & Hcap).
  pose proof (pool_rep_split _ _ _ _ Hp) as [Hn Hfree].
  assert (side_rep mem s (tree s b) (ab_side s A)) as Hside.
  { eapply side_rep_agree; [|apply H]. intros i Hi. apply Hag. intros ->.
    by apply Hn, ab_side_fst_elem with s. }
  destruct (side_add _ s _ _ slot o Hside (book_side_nodup _ _ s H)) as
    (lv & lv' & mem2 & Hf & Epb & Hs2 & Hag2 & Hlen2); [|done..|].
  { intros Hi. by apply Hn, ab_side_fst_elem with s. }
  exists slot. unfold add_order. rewrite E. simpl. rewrite Ew. simpl.
  rewrite (load_lookup _ _ _ Hm). simpl. fold s. rewrite Hf. simpl. rewrite Epb. simpl.
  eexists. split; [done|]. split; [done|]. rewrite orders_set_tree, pool_set_tree.
  split; [|done]. eapply (book_rep_update b _ A s _ free); try done.
  - rewrite pool_set_tree. simpl. rewrite priority_insert_perm. simpl.
    rewrite <- ab_entries_perm.
    apply (pool_rep_agree _ _ _ mem2) in Hp; [done| |done].
    intros i Hi. simpl. apply Hag2. rewrite not_elem_of_cons.
    destruct (Hfree i Hi) as [? Hni]. split; [done|]. intros ?.
    by apply Hni, ab_side_fst_elem with s.
  - unfold mem_of. rewrite pool_set_tree. simpl. by rewrite tree_set_tree, decide_True.
  - rewrite tree_set_tree, decide_False by apply opposite_ne. by destruct s.
  - intros i Hi. unfold mem_of at 1. rewrite pool_set_tree. simpl.
    assert (i ≠ slot) by (intros ->; by apply Hn, ab_side_fst_elem with (opposite s)).
    rewrite Hag2, Hag; [done..|]. rewrite not_elem_of_cons. split; [done|].
    intros Hi'. by eapply (book_side_disjoint b A s).
  - rewrite orders_set_tree. simpl.
    apply (index_emplace_sound _ _ _ (slot, resting_of o)); [apply H|apply priority_insert_perm].
  - rewrite count_set_tree. simpl. rewrite priority_insert_perm. simpl.
    rewrite <- ab_entries_perm, (br_count _ _ H). unfold u64_add.
    pose proof (pool_rep_length _ _ _ Hp) as EL. simpl in EL. rewrite length_fmap in EL.
    pose proof (pr_size _ _ _ Hp) as Hsz. simpl in Hsz. rewrite wrap64_small; u64; lia.
Qed.

(** ... and when an entry leaves and its id is erased. *)
Lemma index_delete_sound (m : gmap Z OrderPtr) A s l1 slot r l2 :
  (∀ id slot, m !! id = Some slot → ∃ r, (slot, r) ∈ ab_entries A ∧ r_id r = id) →
  ab_side s A = l1 ++ (slot, r) :: l2 →
  ∀ id slot', delete (r_id r) m !! id = Some slot' →
    ∃ r', (slot', r') ∈ ab_entries (ab_set s (l1 ++ l2) A) ∧ r_id r' = id.
Proof.
  intros Hm Hl id slot' [Hne Hi]%lookup_delete_Some.
  destruct (Hm _ _ Hi) as (r' & Hin & Hr'). exists r'. split; [|done].
  rewrite (ab_entries_perm s), ab_side_set_eq, ab_side_set_opp.
  rewrite (ab_entries_perm s), Hl in Hin. revert Hin.
  rewrite !elem_of_app, elem_of_cons. intros [[?|[?|?]]|?]; simplify_eq; auto.
Qed.

(** The tree work of [remove_order]: unlink, and erase the level if it emptied. *)
Lemma remove_order_tree b A s l1 slot r l2 :
  book_rep b A → ab_side s A = l1 ++ (slot, r) :: l2 →
  ∃ o lv lv' mem', load (mem_of b) slot = Ok o ∧ resting_of o = r ∧
    o_level o = Some (s, r_price r) ∧ r_side r = s ∧ deref_level (s, r_price r) b = Ok lv ∧
    remove lv slot (mem_of b) = Ok (lv', mem') ∧
    load mem' slot = Ok (unlinked r) ∧
    let b1 := store_level (s, r_price r) lv' (set_mem mem' b) in
    let b2 := if level_empty lv' then set_tree s (map_erase (r_price r) (tree s b1)) b1 else b1 in
    side_rep mem' s (tree s b2) (l1 ++ l2) ∧ tree (opposite s) b2 = tree (opposite s) b ∧
    pool_ b2 = set_storage mem' (pool_ b) ∧ orders_ b2 = orders_ b ∧
    order_count_ b2 = order_count_ b ∧
    (∀ i, i ∉ (ab_side s A).*1 → mem' !! i = mem_of b !! i) ∧ length mem' = length (mem_of b).
Proof.
  intros H E. pose proof (br_side _ _ H s) as Hside. rewrite E in Hside.
  pose proof (book_side_nodup _ _ s H) as Hnd. rewrite E in Hnd.
  destruct (side_remove _ _ _ _ _ _ _ Hside Hnd)
    as (lv & o & lv' & mem' & Hf & Ho & Hr & Hlev & Hs & Er & Hslot & Hrep & Hag & Hlen).
  exists o, lv, lv', mem'. split; [by apply load_lookup|]. split; [done|]. split; [done|].
  split; [done|]. split; [unfold deref_level; simpl; by rewrite Hf|]. split; [done|].
  split; [by apply load_lookup|]. simpl. unfold store_level. simpl. rewrite tree_set_mem.
  set (b1 := set_tree s _ (set_mem mem' b)).
  assert (tree s b1 = map_update (r_price r) lv' (tree s b)) as Ht1.
  { unfold b1. by rewrite tree_set_tree, decide_True. }
  assert (tree (opposite s) b1 = tree (opposite s) b) as Ht2.
  { unfold b1. rewrite tree_set_tree, decide_False by apply opposite_ne. apply tree_set_mem. }
  rewrite Ht1. rewrite E. destruct (level_empty lv').
  - rewrite !tree_set_tree, decide_True, decide_False, pool_set_tree, orders_set_tree,
      count_set_tree by (done || apply opposite_ne).
    unfold b1. rewrite pool_set_tree, orders_set_tree, count_set_tree. done.
  - rewrite Ht1. unfold b1. rewrite pool_set_tree, orders_set_tree, count_set_tree. done.
Qed.

(** [remove_order] takes exactly that order out and returns its slot. *)
Lemma remove_order_spec b A s l1 slot r l2 :
  book_rep b A → ab_side s A = l1 ++ (slot, r) :: l2 →
  ∃ b', remove_order slot b = Ok b' ∧ book_rep b' (ab_set s (l1 ++ l2) A) ∧
    orders_ b' = delete (r_id r) (orders_ b) ∧ capacity_ (pool_ b') = capacity_ (pool_ b).
Proof.
  intros H E.
  destruct (remove_order_tree _ _ _ _ _ _ _ H E) as (o & lv & lv' & mem' & Eo & Hr & Hlev & Hs
    & El & Er & Eu & Hrep & Hopp & Hpool & Hord & Hcnt & Hag & Hlen).
  unfold remove_order. rewrite Eo. simpl. rewrite Hlev. simpl. rewrite El. simpl. rewrite Er.
  simpl. replace (o_side o) with s by (subst r; by rewrite <- Hs).
  replace (o_price o) with (r_price r) by by subst r.
  set (b1 := store_level _ _ _) in *. set (b2 := if level_empty lv' then _ else _) in *.
  rewrite Eu. simpl. destruct (br_pool _ _ H) as [free Hp].
  assert (pool_rep (pool_ b2) free (slot :: (l1 ++ l2 ++ ab_side (opposite s) A).*1)) as Hp2.
  { rewrite Hpool, (ab_entries_perm s), E in *. apply (pool_rep_agree _ _ _ mem') in Hp; [|
      |done].
    - revert Hp. rewrite <- app_assoc. simpl. rewrite <- Permutation_middle. done.
    - intros i Hi. apply Hag. intros Hi'. pose proof (pool_rep_nodup _ _ _ Hp) as Hd.
      apply NoDup_app in Hd as (_ & Hd & _). apply (Hd i Hi). rewrite fmap_app, elem_of_app.
      by left. }
  destruct (release_spec _ _ _ _ Hp2) as (p & Ep & Hp3 & Hst). rewrite Ep. simpl.
  eexists. split; [done|]. rewrite Hord. split; [|split; [done|]].
  - destruct (pool_rep_split _ _ _ _ Hp2) as [Hn _].
    eapply (book_rep_update b _ A s _ (slot :: free)); try done.
    + by rewrite <- app_assoc.
    + unfold mem_of. simpl. replace (tree s _) with (tree s b2) by by destruct s.
      rewrite Hst, Hpool. simpl. eapply side_rep_agree; [|done]. intros i Hi.
      rewrite list_lookup_insert_ne; [done|]. intros ->. apply Hn.
      revert Hi. rewrite !fmap_app. set_solver.
    + intros i Hi. unfold mem_of. simpl. rewrite Hst, Hpool. simpl.
      rewrite list_lookup_insert_ne.
      * apply Hag. intros ?. by eapply (book_side_disjoint b A s).
      * intros ->. apply Hn. revert Hi. rewrite !fmap_app. set_solver.
    + simpl. eapply index_delete_sound; [apply H|done].
    + simpl. rewrite Hcnt, (br_count _ _ H), (ab_entries_perm s), E.
      pose proof (book_capacity _ _ H). rewrite (ab_entries_perm s), E in *.
      rewrite !length_app in *. simpl in *. rewrite u64_sub_small; u64; lia.
  - simpl. unfold release in Ep. inv_ok. subst p. simpl. by rewrite Hpool.
Qed.

(** The best level is the price of the first entry. *)
Lemma best_level_spec b A s :
  book_rep b A →
  best_level s b = match ab_side s A with [] => None | e :: _ => Some (s, r_price e.2) end.
Proof.
  intros H. pose proof (br_side _ _ H s) as Hs. unfold best_level.
  destruct (ab_side s A) as [|e l].
  - apply side_nil in Hs. by rewrite Hs.
  - by apply side_front in Hs as (lv & t2 & q2 & a2 & -> & _).
Qed.

(** Through the best level's address: its price, and the oldest order in it. *)
Lemma best_front_spec b A s slot r l :
  book_rep b A → ab_side s A = (slot, r) :: l →
  ∃ lv o, deref_level (s, r_price r) b = Ok lv ∧ front lv = Some slot ∧ level_empty lv = false ∧
    price_ lv = r_price r ∧ load (mem_of b) slot = Ok o ∧ resting_of o = r ∧ r_side r = s.
Proof.
  intros H E. pose proof (br_side _ _ H s) as Hs. rewrite E in Hs.
  apply side_front in Hs as (lv & t2 & q2 & a2 & Ht & (Hl & _ & _) & _ & _ & _ & Hside).
  destruct (level_rep_load _ _ _ [] _ _ _ Hl) as (o & Ho & Hr & _).
  exists lv, o. unfold deref_level. simpl in *. rewrite Ht. simpl. rewrite Z.eqb_refl.
  destruct Hl. unfold front, level_empty. rewrite lr_head. simpl.
  split; [done|]. split; [done|]. split; [done|]. split; [done|].
  split; [by apply load_lookup|]. done.
Qed.

(** A level with no order left is gone from the tree: its address dangles. *)
Lemma level_dangling b A s k :
  book_rep b A → (∀ e, e ∈ ab_side s A → r_price e.2 ≠ k) → deref_level (s, k) b = Undefined.
Proof.
  intros H Hk. unfold deref_level. simpl. destruct (map_find k (tree s b)) as [lv|] eqn:Ef; [|done].
  exfalso. destruct (br_side _ _ H s) as (a & Hr & _ & El).
  destruct (map_related_find _ _ _ _ _ Hr Ef) as (q & Hq & (_ & Hne & Hf)).
  destruct q as [|e q]; [done|]. apply Forall_cons in Hf as [[Hp _] _].
  apply (Hk e); [|done]. rewrite El. apply map_find_elem in Hq.
  apply list_elem_of_In, in_concat. exists (e :: q). split; [|by left].
  apply list_elem_of_In, list_elem_of_fmap. by exists (k, e :: q).
Qed.

(** A fill against the front order of the best level. *)
Lemma fill_front_book b A s slot r l qty :
  book_rep b A → ab_side s A = (slot, r) :: l →
  ∃ mem' lv, modify (λ o, set_quantity (Quantity_sub (o_quantity o) qty) o) slot (mem_of b) = Ok mem' ∧
    deref_level (s, r_price r) (set_mem mem' b) = Ok lv ∧
    book_rep (store_level (s, r_price r) (reduce_quantity qty lv) (set_mem mem' b))
      (ab_set s ((slot, rest_set_quantity (Quantity_sub (r_quantity r) qty) r) :: l) A).
Proof.
  intros H E. pose proof (br_side _ _ H s) as Hs. pose proof (book_side_nodup _ _ s H) as Hnd.
  rewrite E in Hs, Hnd.
  destruct (side_fill_front _ _ _ _ _ _ qty Hs Hnd) as (lv & mem' & Hf & Em & Hrep & Hag & Hlen).
  exists mem', lv. split; [done|]. unfold deref_level, store_level. simpl.
  rewrite tree_set_mem, Hf. split; [done|]. destruct (br_pool _ _ H) as [free Hp].
  assert (∀ i, i ∈ (ab_side (opposite s) A).*1 → i ≠ slot) as Hne.
  { intros i Hi ->. eapply (book_side_disjoint b A s); [done| |done]. rewrite E. set_solver. }
  eapply (book_rep_update b _ A s _ free); try done.
  - rewrite pool_set_tree. simpl. rewrite (ab_entries_perm s), E in Hp. simpl in *.
    apply pool_rep_agree; [done| |done]. intros i Hi. apply Hag.
    by apply (pool_rep_split _ _ _ _ Hp).
  - unfold mem_of. rewrite pool_set_tree. simpl. rewrite tree_set_tree, decide_True; done.
  - rewrite tree_set_tree, decide_False by apply opposite_ne. apply tree_set_mem.
  - intros i Hi. unfold mem_of. rewrite pool_set_tree. simpl. by apply Hag, Hne.
  - intros id slot'. rewrite orders_set_tree. simpl. intros Hi.
    destruct (br_index _ _ H _ _ Hi) as (r' & Hin & Hid).
    rewrite (ab_entries_perm s), E in Hin.
    assert (∀ x, x ∈ ((slot, rest_set_quantity (Quantity_sub (r_quantity r) qty) r) :: l)
      ++ ab_side (opposite s) A → x ∈ ab_entries (ab_set s
        ((slot, rest_set_quantity (Quantity_sub (r_quantity r) qty) r) :: l) A)) as Hsub.
    { intros x. by rewrite (ab_entries_perm s), ab_side_set_eq, ab_side_set_opp. }
    revert Hin. simpl. rewrite elem_of_cons. intros [?|Hin]; simplify_eq.
    + eexists. split; [apply Hsub; simpl; by constructor|]. done.
    + exists r'. split; [|done]. apply Hsub. simpl. by constructor.
  - rewrite count_set_tree. simpl. by rewrite (br_count _ _ H), (ab_entries_perm s), E.
Qed.
End BookFacts.

(** ** The abstract book, computed

    Following the links of every level gives the one abstract book a book
    represents: what it holds is a function of its memory. *)

Fixpoint walk (fuel : nat) (mem : list Slot) (p : option OrderPtr) : list Entry :=
  match fuel, p with
  | S fuel, Some slot =>
      match mem !! slot with
      | Some (OrderSlot o) => (slot, resting_of o) :: walk fuel mem (o_next o)
      | _ => []
      end
  | _, _ => []
  end.

Definition level_queue (b : OrderBook) (node : Z * PriceLevel) : list Entry :=
  walk (capacity_ (pool_ b)) (mem_of b) (head_ node.2).

Definition book_of (b : OrderBook) : ABook :=
  mkABook (concat (level_queue b <$> bids_ b)) (concat (level_queue b <$> asks_ b)).

Section Computed.
Implicit Types (b : OrderBook) (A : ABook) (q : list Entry).

Lemma walk_segment fuel mem lp p q :
  segment mem lp p q None → (length q <= fuel)%nat → walk fuel mem (first_ptr q None) = q.
Proof.
  revert p q. induction fuel as [|fuel IH]; intros p [|[slot r] q] Hs Hl; simpl in *; try done; [lia|].
  destruct Hs as [-> Hs]. simpl. rewrite (IH _ _ Hs) by lia. by destruct r.
Qed.

Lemma side_queues b s l :
  side_rep (mem_of b) s (tree s b) l → (length l <= capacity_ (pool_ b))%nat →
  concat (level_queue b <$> tree s b) = l.
Proof.
  intros (a & Hr & _ & ->). revert Hr. generalize (tree s b). intros t Hr.
  induction Hr as [|x y t a [_ ([Hseg _ _ Hh _ _] & _)] _ IH]; [done|].
  rewrite !fmap_cons. cbn [concat]. rewrite length_app. intros Hl. rewrite IH by lia. f_equal.
  unfold level_queue. rewrite Hh. by eapply walk_segment; [|lia].
Qed.

Lemma book_of_rep b A : book_rep b A → book_of b = A.
Proof.
  intros Hb. pose proof (book_capacity _ _ Hb) as [Hc _]. unfold ab_entries in Hc. rewrite length_app in Hc.
  pose proof (side_queues b Buy _ (br_side _ _ Hb Buy)) as H1.
  pose proof (side_queues b Sell _ (br_side _ _ Hb Sell)) as H2. simpl in H1, H2.
  unfold book_of. rewrite H1, H2 by lia. by destruct A.
Qed.
End Computed.
