(* ===== verification/MatchingEngine.v ===== *)
(** * MatchingEngine: engine/matching_engine.hpp and matching_engine.cpp

    The engine's state and operations, over any [EventSink].

    One read in the source goes through a pointer to a tree node that may
    have been erased: the guard [!level->empty()] of the inner matching loop
    is evaluated again after [remove_order] has emptied, and so destroyed,
    the level.  The C++ standard gives that read no meaning; what it yields
    depends on the allocator.  It is the parameter [freed_empty] of the
    model: [Undefined] is the standard's verdict, [Ok true] is what a freed
    node whose bytes are still intact yields (its [head_] was set to
    [nullptr] just before). *)
From S2P Require Import Prelude Core StdMap OrderPool PriceLevel OrderBook.

(** ** State *)

(** Per-client resting prices: price -> how many of the client's orders rest
    there; both maps ascending, counts [uint32_t]. *)
Record ClientRestingPrices := mkCrp { crp_bids : list (Z * Z); crp_asks : list (Z * Z) }.

Definition crp_side (s : Side) (c : ClientRestingPrices) : list (Z * Z) :=
  match s with Buy => crp_bids c | Sell => crp_asks c end.

Definition crp_set (s : Side) (m : list (Z * Z)) (c : ClientRestingPrices) : ClientRestingPrices :=
  match s with Buy => mkCrp m (crp_asks c) | Sell => mkCrp (crp_bids c) m end.

Record MatchingEngine (Sk : Type) := mkEngine {
  book_ : OrderBook;
  last_accepted_id_ : gmap Z Z;
  client_resting_ : gmap Z ClientRestingPrices;
  next_sequence_ : Z;
  next_trade_sequence_ : Z;
  sink_ : Sk;
  stp_ : StpConfig }.
Arguments mkEngine {Sk} _ _ _ _ _ _ _.
Arguments book_ {Sk} _.
Arguments last_accepted_id_ {Sk} _.
Arguments client_resting_ {Sk} _.
Arguments next_sequence_ {Sk} _.
Arguments next_trade_sequence_ {Sk} _.
Arguments sink_ {Sk} _.
Arguments stp_ {Sk} _.

Definition MatchingEngine_new {Sk} (sink : Sk) (pool_capacity : nat) (stp : StpConfig)
    : MatchingEngine Sk :=
  mkEngine (OrderBook_new pool_capacity) ∅ ∅ 0 0 sink stp.

(** Member assignments. *)
Definition set_book {Sk} (b : OrderBook) (e : MatchingEngine Sk) : MatchingEngine Sk :=
  mkEngine b (last_accepted_id_ e) (client_resting_ e) (next_sequence_ e)
           (next_trade_sequence_ e) (sink_ e) (stp_ e).

Definition set_watermark {Sk} (owner id : Z) (e : MatchingEngine Sk) : MatchingEngine Sk :=
  mkEngine (book_ e) (<[owner := id]> (last_accepted_id_ e)) (client_resting_ e)
           (next_sequence_ e) (next_trade_sequence_ e) (sink_ e) (stp_ e).

Definition set_client_resting {Sk} (m : gmap Z ClientRestingPrices) (e : MatchingEngine Sk)
    : MatchingEngine Sk :=
  mkEngine (book_ e) (last_accepted_id_ e) m (next_sequence_ e)
           (next_trade_sequence_ e) (sink_ e) (stp_ e).

Definition incr_sequence {Sk} (e : MatchingEngine Sk) : MatchingEngine Sk :=
  mkEngine (book_ e) (last_accepted_id_ e) (client_resting_ e)
           (Sequence_incr (next_sequence_ e)) (next_trade_sequence_ e) (sink_ e) (stp_ e).

Definition incr_trade_sequence {Sk} (e : MatchingEngine Sk) : MatchingEngine Sk :=
  mkEngine (book_ e) (last_accepted_id_ e) (client_resting_ e) (next_sequence_ e)
           (TradeSequence_incr (next_trade_sequence_ e)) (sink_ e) (stp_ e).

(** A call on [sink_]. *)
Definition emit {Sk} `{EventSink Sk} (ev : Event) (e : MatchingEngine Sk) : MatchingEngine Sk :=
  mkEngine (book_ e) (last_accepted_id_ e) (client_resting_ e) (next_sequence_ e)
           (next_trade_sequence_ e) (deliver (sink_ e) ev) (stp_ e).

(** ** The self-trade-prevention index *)

(** [++side_map[price]]. *)
Definition count_incr (price : Z) (m : list (Z * Z)) : list (Z * Z) :=
  let m := map_try_emplace Z.ltb price 0 m in
  match map_find price m with
  | Some c => map_update price (wrap32 (c + 1)) m
  | None => m
  end.

Definition crp_rest (owner : Z) (s : Side) (price : Z) (m : gmap Z ClientRestingPrices)
    : gmap Z ClientRestingPrices :=
  let crp := default (mkCrp [] []) (m !! owner) in
  <[owner := crp_set s (count_incr price (crp_side s crp)) crp]> m.

Definition crp_unrest (owner : Z) (s : Side) (price : Z) (m : gmap Z ClientRestingPrices)
    : gmap Z ClientRestingPrices :=
  match m !! owner with
  | None => m
  | Some crp =>
      match map_find price (crp_side s crp) with
      | None => m
      | Some c =>
          let c := wrap32 (c - 1) in
          let side_map := map_update price c (crp_side s crp) in
          let side_map := if Z.eqb c 0 then map_erase price side_map else side_map in
          let crp := crp_set s side_map crp in
          match crp_bids crp, crp_asks crp with
          | [], [] => delete owner m
          | _, _ => <[owner := crp]> m
          end
      end
  end.

Definition index_rest {Sk} (resting : Order) (e : MatchingEngine Sk) : MatchingEngine Sk :=
  if stp_enabled (stp_ e) then
    set_client_resting
      (crp_rest (o_owner resting) (o_side resting) (o_price resting) (client_resting_ e)) e
  else e.

Definition index_unrest {Sk} (resting : Order) (e : MatchingEngine Sk) : MatchingEngine Sk :=
  if stp_enabled (stp_ e) then
    set_client_resting
      (crp_unrest (o_owner resting) (o_side resting) (o_price resting) (client_resting_ e)) e
  else e.

Definition would_self_cross {Sk} (incoming_side : Side) (incoming_owner : Z)
    (limit_price : option Z) (e : MatchingEngine Sk) : bool :=
  match client_resting_ e !! incoming_owner with
  | None => false
  | Some crp =>
      match incoming_side with
      | Buy =>
          match map_begin (crp_asks crp) with
          | None => false
          | Some (lowest_own_ask, _) =>
              match limit_price with None => true | Some p => Z.leb lowest_own_ask p end
          end
      | Sell =>
          match map_rbegin (crp_bids crp) with
          | None => false
          | Some (highest_own_bid, _) =>
              match limit_price with None => true | Some p => Z.leb p highest_own_bid end
          end
      end
  end.

(** ** Matching *)

(** The crossing test of the outer loop: [true] is a [break]. *)
Definition limit_stops (incoming_side : Side) (limit_price : option Z) (level_price : Z) : bool :=
  match limit_price with
  | None => false
  | Some p =>
      match incoming_side with
      | Buy => Z.ltb p level_price
      | Sell => Z.gtb p level_price
      end
  end.

Definition make_trade (incoming_side : Side) (incoming_id : Z) (seq : Z) (resting_id price : Z)
    (fill_qty : Z) (fully_consumed : bool) : Trade :=
  mkTrade seq
    (match incoming_side with Buy => incoming_id | Sell => resting_id end)
    (match incoming_side with Sell => incoming_id | Buy => resting_id end)
    price fill_qty fully_consumed.

Section Matching.
Context {Sk : Type} `{EventSink Sk}.
Variable freed_empty : outcome bool.

(** [level->empty()] in the inner loop's guard. *)
Definition level_is_empty (level : LevelPtr) (b : OrderBook) : outcome bool :=
  match deref_level level b with
  | Ok lv => Ok (level_empty lv)
  | _ => freed_empty
  end.

(** CancelResting: pull the resting order from the book instead of trading. *)
Definition cancel_resting (resting : OrderPtr) (ro : Order) (e : MatchingEngine Sk)
    : outcome (MatchingEngine Sk) :=
  let e := index_unrest ro e in
  b ← remove_order resting (book_ e);
  Ok (emit (EvCancelled (mkCancelled (o_id ro) (o_quantity ro) (o_side ro) (o_price ro)))
           (set_book b e)).

(** One fill against [resting], the front order of [level]. *)
Definition fill_resting (incoming_side : Side) (incoming_id : Z) (level : LevelPtr)
    (resting : OrderPtr) (ro : Order) (remaining : Z) (trades : list Trade)
    (e : MatchingEngine Sk) : outcome (Z * list Trade * MatchingEngine Sk) :=
  let fill_qty := if Z.ltb remaining (o_quantity ro) then remaining else o_quantity ro in
  let fully_consumed := Z.eqb fill_qty (o_quantity ro) in
  let trade := make_trade incoming_side incoming_id (next_trade_sequence_ e) (o_id ro)
                 (o_price ro) fill_qty fully_consumed in
  let e := emit (EvTrade trade) (incr_trade_sequence e) in
  let remaining := Quantity_sub remaining fill_qty in
  mem ← modify (λ o, set_quantity (Quantity_sub (o_quantity o) fill_qty) o)
               resting (mem_of (book_ e));
  let b := set_mem mem (book_ e) in
  lv ← deref_level level b;
  let b := store_level level (reduce_quantity fill_qty lv) b in
  let e := set_book b e in
  e ← (if fully_consumed then
         ro ← load (mem_of b) resting;
         let e := index_unrest ro e in
         b ← remove_order resting (book_ e);
         Ok (set_book b e)
       else Ok e);
  Ok (remaining, trades ++ [trade], e).

(** The inner loop: match against the orders of one level in FIFO order. *)
Fixpoint match_level (fuel : nat) (incoming_side : Side) (incoming_id incoming_owner : Z)
    (stp_cancel_resting : bool) (level : LevelPtr) (remaining : Z) (trades : list Trade)
    (e : MatchingEngine Sk) : outcome (Z * list Trade * MatchingEngine Sk) :=
  match fuel with
  | O => NoFuel
  | S fuel =>
      if negb (Z.ltb 0 remaining) then Ok (remaining, trades, e)
      else
        stop ← level_is_empty level (book_ e);
        if (stop : bool) then Ok (remaining, trades, e)
        else
          lv ← deref_level level (book_ e);
          resting ← deref (front lv);
          ro ← load (mem_of (book_ e)) resting;
          if stp_cancel_resting && Z.eqb (o_owner ro) incoming_owner then
            e ← cancel_resting resting ro e;
            Ok (remaining, trades, e)
          else
            '(remaining, trades, e) ←
              fill_resting incoming_side incoming_id level resting ro remaining trades e;
            match_level fuel incoming_side incoming_id incoming_owner stp_cancel_resting
              level remaining trades e
  end.

(** The outer loop: best opposite level, crossing test, inner loop. *)
Fixpoint match_levels (fuel inner_fuel : nat) (incoming_side : Side)
    (incoming_id incoming_owner : Z) (stp_cancel_resting : bool) (limit_price : option Z)
    (remaining : Z) (trades : list Trade) (e : MatchingEngine Sk)
    : outcome (Z * list Trade * MatchingEngine Sk) :=
  match fuel with
  | O => NoFuel
  | S fuel =>
      if negb (Z.ltb 0 remaining) then Ok (remaining, trades, e)
      else
        match (match incoming_side with Buy => best_ask (book_ e) | Sell => best_bid (book_ e) end) with
        | None => Ok (remaining, trades, e)
        | Some level =>
            lv ← deref_level level (book_ e);
            if limit_stops incoming_side limit_price (price_ lv) then Ok (remaining, trades, e)
            else
              '(remaining, trades, e) ←
                match_level inner_fuel incoming_side incoming_id incoming_owner
                  stp_cancel_resting level remaining trades e;
              match_levels fuel inner_fuel incoming_side incoming_id incoming_owner
                stp_cancel_resting limit_price remaining trades e
        end
  end.

(** Every iteration of either loop but the last takes an order off the book,
    so one more than the pool's capacity is enough for both. *)
Definition loop_budget (b : OrderBook) : nat := S (capacity_ (pool_ b)).

Definition match_against_book (incoming_side : Side) (incoming_id incoming_owner : Z)
    (remaining : Z) (limit_price : option Z) (e : MatchingEngine Sk)
    : outcome (Z * list Trade * MatchingEngine Sk) :=
  let stp_cancel_resting :=
    stp_enabled (stp_ e) && bool_decide (stp_policy (stp_ e) = CancelResting) in
  match_levels (loop_budget (book_ e)) (loop_budget (book_ e)) incoming_side incoming_id
    incoming_owner stp_cancel_resting limit_price remaining [] e.

(** ** The input port *)

Definition reject (r : EngineResult) (id : Z) (e : MatchingEngine Sk)
    : outcome (EngineResponse * MatchingEngine Sk) :=
  Ok (mkResponse r [] 0 id, e).

(** Per-client monotonic ids: at or below the client's watermark is a duplicate. *)
Definition is_duplicate (owner id : Z) (e : MatchingEngine Sk) : bool :=
  match last_accepted_id_ e !! owner with Some w => Z.leb id w | None => false end.

Definition stp_rejects (side : Side) (owner : Z) (limit : option Z) (e : MatchingEngine Sk) : bool :=
  stp_enabled (stp_ e) && bool_decide (stp_policy (stp_ e) = RejectIncoming) &&
  would_self_cross side owner limit e.

Definition submit_limit (order : LimitOrder) (e : MatchingEngine Sk)
    : outcome (EngineResponse * MatchingEngine Sk) :=
  let id := lo_id order in
  if Z.eqb (lo_quantity order) 0 then reject InvalidQuantity id e
  else if Z.leb (lo_price order) 0 then reject InvalidPrice id e
  else if is_duplicate (lo_owner order) id e then reject DuplicateOrderId id e
  else if stp_rejects (lo_side order) (lo_owner order) (Some (lo_price order)) e
  then reject SelfTradePrevented id e
  else if Z.eqb (pool_available (book_ e)) 0 then reject PoolExhausted id e
  else
    let e := set_watermark (lo_owner order) id e in
    let e := emit (EvAccepted (mkAccepted id (lo_side order) (lo_quantity order)
                                          (lo_price order))) e in
    '(remaining, trades, e) ←
      match_against_book (lo_side order) id (lo_owner order) (lo_quantity order)
        (Some (lo_price order)) e;
    e ← (if Z.ltb 0 remaining then
           let order_data := mkOrder id (lo_side order) (lo_price order) remaining
                               (next_sequence_ e) (lo_owner order) None None None in
           let e := incr_sequence e in
           '(_, b) ← add_order order_data (book_ e);
           Ok (index_rest order_data (set_book b e))
         else Ok e);
    Ok (mkResponse Accepted trades remaining id, e).

Definition submit_market (order : MarketOrder) (e : MatchingEngine Sk)
    : outcome (EngineResponse * MatchingEngine Sk) :=
  let id := mo_id order in
  if Z.eqb (mo_quantity order) 0 then reject InvalidQuantity id e
  else if is_duplicate (mo_owner order) id e then reject DuplicateOrderId id e
  else if stp_rejects (mo_side order) (mo_owner order) None e
  then reject SelfTradePrevented id e
  else
    let e := set_watermark (mo_owner order) id e in
    let e := emit (EvAccepted (mkAccepted id (mo_side order) (mo_quantity order) 0)) e in
    '(remaining, trades, e) ←
      match_against_book (mo_side order) id (mo_owner order) (mo_quantity order) None e;
    Ok (mkResponse Accepted trades remaining id, e).

Definition submit (order : NewOrder) (e : MatchingEngine Sk)
    : outcome (EngineResponse * MatchingEngine Sk) :=
  match order with NLimit o => submit_limit o e | NMarket o => submit_market o e end.

Definition cancel (id : Z) (e : MatchingEngine Sk) : outcome (EngineResponse * MatchingEngine Sk) :=
  match find_order id (book_ e) with
  | None => Ok (mkResponse UnknownOrderId [] 0 id, e)
  | Some order =>
      o ← load (mem_of (book_ e)) order;
      let remaining := o_quantity o in
      let side := o_side o in
      let price := o_price o in
      let e := index_unrest o e in
      b ← remove_order order (book_ e);
      let e := emit (EvCancelled (mkCancelled id remaining side price)) (set_book b e) in
      Ok (mkResponse Accepted [] remaining id, e)
  end.

Definition tracked_client_count (e : MatchingEngine Sk) : nat := size (last_accepted_id_ e).
End Matching.

(** Every way out of [submit] without acceptance. *)
Lemma submit_not_accepted {Sk} `{EventSink Sk} freed_empty o (e e' : MatchingEngine Sk) r :
  submit freed_empty o e = Ok (r, e') →
  order_id r = new_order_id o ∧ (status r ≠ Accepted → e' = e ∧ trades r = [] ∧ remaining_qty r = 0).
Proof.
  destruct o as [o|o]; simpl; unfold submit_limit, submit_market, reject; intros E;
    repeat (match goal with H : (if ?b then _ else _) = Ok _ |- _ =>
              destruct b; [inv_ok; by simplify_eq|] end);
    inv_ok; repeat (match goal with p : (_ * _)%type |- _ => destruct p end);
    inv_ok; simplify_eq; simpl in *; done.
Qed.
