(* ===== verification/ClientIndex.v ===== *)
(** * ClientIndex: the per-client resting-price index is exact

    [client_resting_] of engine/matching_engine.hpp counts, for each client,
    side and price, the client's resting orders there.  [crp_rep] states
    that it counts exactly the orders of a list; resting and unresting an
    order keep it so, and the O(1) self-cross test on it decides the same
    as a scan of the opposite side. *)
From S2P Require Import Prelude Core StdMap PriceLevel OrderBook MatchingEngine.

(** What the index knows of an order. *)
Definition rests_at (owner : Z) (s : Side) (price : Z) (x : Entry) : Prop :=
  r_owner x.2 = owner ∧ r_side x.2 = s ∧ r_price x.2 = price.

#[global] Instance rests_at_dec owner s price x : Decision (rests_at owner s price x).
Proof. unfold rests_at. apply _. Defined.

Definition rest_count (owner : Z) (s : Side) (price : Z) (L : list Entry) : nat :=
  length (filter (rests_at owner s price) L).

(** The index entry of a client, side and price. *)
Definition crp_lookup (owner : Z) (s : Side) (price : Z) (m : gmap Z ClientRestingPrices)
    : option Z :=
  match m !! owner with Some c => map_find price (crp_side s c) | None => None end.

Definition crp_entry (n : nat) : option Z :=
  match n with O => None | S _ => Some (Z.of_nat n) end.

Record crp_rep (m : gmap Z ClientRestingPrices) (L : list Entry) : Prop := {
  cr_sorted owner c s : m !! owner = Some c → map_sorted Z.ltb (crp_side s c);
  cr_active owner c : m !! owner = Some c → crp_bids c ≠ [] ∨ crp_asks c ≠ [];
  cr_count owner s price : crp_lookup owner s price m = crp_entry (rest_count owner s price L) }.

(** The scan that the index replaces: some order of [incoming_owner] on the
    opposite side is at a price the incoming order crosses. *)
Definition scan_self_cross (incoming_side : Side) (incoming_owner : Z) (limit : option Z)
    (l : list Entry) : bool :=
  existsb (λ x, Z.eqb (r_owner x.2) incoming_owner &&
                negb (limit_stops incoming_side limit (r_price x.2))) l.

Section Counts.
Implicit Types (L : list Entry) (x : Entry) (s : Side).

Lemma rest_count_cons owner s price x L :
  rest_count owner s price (x :: L) =
  ((if decide (rests_at owner s price x) then 1 else 0) + rest_count owner s price L)%nat.
Proof. unfold rest_count. rewrite filter_cons. by case_decide. Qed.

#[global] Instance rest_count_proper owner s price : Proper ((≡ₚ) ==> (=)) (rest_count owner s price).
Proof. intros L L' HL. unfold rest_count. by rewrite HL. Qed.

Lemma rest_count_le owner s price L : (rest_count owner s price L <= length L)%nat.
Proof. apply length_filter. Qed.

Lemma rest_count_pos owner s price L :
  (0 < rest_count owner s price L)%nat ↔ ∃ x, x ∈ L ∧ rests_at owner s price x.
Proof.
  unfold rest_count. split.
  - intros Hn. destruct (filter _ L) as [|x l] eqn:E; [simpl in Hn; lia|].
    exists x. assert (x ∈ filter (rests_at owner s price) L) as [? ?]%list_elem_of_filter
      by (rewrite E; constructor). done.
  - intros (x & Hx & Hr). assert (x ∈ filter (rests_at owner s price) L) as Hin
      by (by apply list_elem_of_filter). destruct (filter _ L); [by apply elem_of_nil in Hin|simpl; lia].
Qed.

Lemma crp_entry_succ n : crp_entry (S n) = Some (Z.of_nat n + 1).
Proof. simpl. f_equal. lia. Qed.
End Counts.

#[global] Instance crp_rep_proper m : Proper ((≡ₚ) ==> iff) (crp_rep m).
Proof.
  intros L L' HL. split; intros []; split; auto; intros; rewrite cr_count0; by rewrite HL.
Qed.

Section Index.
Implicit Types (m : gmap Z ClientRestingPrices) (L : list Entry) (x : Entry) (s : Side).

Lemma crp_side_set s s' l c : crp_side s (crp_set s' l c) = if decide (s = s') then l else crp_side s c.
Proof. by destruct s, s'. Qed.

Lemma crp_rep_empty : crp_rep ∅ [].
Proof. split; [done..|]. intros. done. Qed.

Lemma count_incr_find price p (m : list (Z * Z)) :
  map_sorted Z.ltb m →
  map_find p (count_incr price m) =
  if Z.eqb p price then Some (wrap32 (default 0 (map_find price m) + 1)) else map_find p m.
Proof.
  intros Hs. unfold count_incr. rewrite (map_find_emplace Z.ltb) by done. rewrite Z.eqb_refl.
  rewrite map_find_update, !(map_find_emplace Z.ltb) by done. rewrite Z.eqb_refl.
  by destruct (Z.eqb p price).
Qed.

Lemma count_incr_sorted price (m : list (Z * Z)) :
  map_sorted Z.ltb m → map_sorted Z.ltb (count_incr price m) ∧ count_incr price m ≠ [].
Proof.
  intros Hs. split.
  - unfold count_incr. destruct (map_find _ _); [apply map_update_sorted|]; by apply (map_emplace_sorted Z.ltb).
  - intros E. pose proof (count_incr_find price price m Hs) as Hf.
    rewrite E, Z.eqb_refl in Hf. done.
Qed.

(** Resting an order increments exactly its entry. *)
Lemma crp_rest_spec m L x :
  crp_rep m L → Z.of_nat (length L) < 4294967295 →
  crp_rep (crp_rest (r_owner x.2) (r_side x.2) (r_price x.2) m) (x :: L).
Proof.
  intros [Hs Ha Hc] Hlen. set (c := default (mkCrp [] []) (m !! r_owner x.2)).
  assert (map_sorted Z.ltb (crp_side (r_side x.2) c)) as Hsc.
  { unfold c. destruct (m !! r_owner x.2) eqn:E; [by eapply Hs|]. destruct (r_side x.2); constructor. }
  assert (∀ s p, map_find p (crp_side s c) = crp_lookup (r_owner x.2) s p m) as Hlk.
  { intros s p. unfold crp_lookup, c. destruct (m !! r_owner x.2); [done|]. by destruct s. }
  pose proof (count_incr_sorted (r_price x.2) _ Hsc) as [Hs1 Hne].
  unfold crp_rest. fold c. split.
  - intros o c' s. rewrite lookup_insert. case_decide; [|apply Hs]. intros [= <-].
    rewrite crp_side_set. case_decide; [by subst|].
    unfold c. destruct (m !! r_owner x.2) eqn:E; [by eapply Hs|]. destruct s; constructor.
  - intros o c'. rewrite lookup_insert. case_decide; [|apply Ha]. intros [= <-].
    destruct (r_side x.2); simpl; auto.
  - intros o s p. rewrite rest_count_cons. unfold crp_lookup. rewrite lookup_insert.
    case_decide as Ho; [|rewrite decide_False by (unfold rests_at; naive_solver); apply Hc].
    subst o. rewrite crp_side_set. case_decide as Hsd; [|
      rewrite decide_False by (unfold rests_at; naive_solver); by rewrite Hlk, Hc].
    subst s. rewrite count_incr_find by done. destruct (Z.eqb_spec p (r_price x.2)) as [->|];
      [|rewrite decide_False by (unfold rests_at; naive_solver); by rewrite Hlk, Hc].
    rewrite decide_True by done. rewrite Hlk, Hc. rewrite crp_entry_succ. f_equal.
    pose proof (rest_count_le (r_owner x.2) (r_side x.2) (r_price x.2) L).
    rewrite wrap32_small; destruct (rest_count _ _ _ L); simpl; u64; lia.
Qed.

(** The client's entry after one of its orders left. *)
Definition unrest_side (price : Z) (sm : list (Z * Z)) : list (Z * Z) :=
  match map_find price sm with
  | None => sm
  | Some c =>
      let c := wrap32 (c - 1) in
      let sm := map_update price c sm in
      if Z.eqb c 0 then map_erase price sm else sm
  end.

Lemma unrest_side_find price p n sm :
  map_sorted Z.ltb sm → map_find price sm = Some (Z.of_nat (S n)) → Z.of_nat n < 4294967295 →
  map_sorted Z.ltb (unrest_side price sm) ∧
  map_find p (unrest_side price sm) = if Z.eqb p price then crp_entry n else map_find p sm.
Proof.
  intros Hs Hf Hn. unfold unrest_side. rewrite Hf.
  replace (wrap32 (Z.of_nat (S n) - 1)) with (Z.of_nat n) by (rewrite wrap32_small; u64; lia).
  pose proof (map_update_sorted Z.ltb price (Z.of_nat n) sm Hs) as Hs'.
  simpl. destruct (Z.eqb_spec (Z.of_nat n) 0) as [E|E].
  - split; [by apply (map_erase_sorted Z.ltb)|].
    rewrite (map_find_erase Z.ltb), map_find_update by done.
    destruct (Z.eqb p price); [|done]. by replace n with 0%nat by lia.
  - split; [done|]. rewrite map_find_update, Hf. destruct (Z.eqb p price); [|done].
    destruct n; [lia|done].
Qed.

(** Writing a client's entry back, dropping a client with nothing left. *)
Definition crp_store (owner : Z) (c : ClientRestingPrices) (m : gmap Z ClientRestingPrices)
    : gmap Z ClientRestingPrices :=
  match crp_bids c, crp_asks c with [], [] => delete owner m | _, _ => <[owner := c]> m end.

Lemma crp_store_cases owner c m :
  (crp_bids c = [] ∧ crp_asks c = [] ∧ crp_store owner c m = delete owner m) ∨
  ((crp_bids c ≠ [] ∨ crp_asks c ≠ []) ∧ crp_store owner c m = <[owner := c]> m).
Proof. unfold crp_store. destruct (crp_bids c), (crp_asks c); auto. Qed.

Lemma crp_store_lookup owner c m o s p :
  crp_lookup o s p (crp_store owner c m) =
  if decide (o = owner) then map_find p (crp_side s c) else crp_lookup o s p m.
Proof.
  unfold crp_lookup. destruct (crp_store_cases owner c m) as [(Eb & Ea & ->)|[_ ->]].
  - rewrite lookup_delete. case_decide; subst.
    + rewrite decide_True by done. destruct s; simpl; by rewrite ?Eb, ?Ea.
    + by rewrite decide_False by naive_solver.
  - rewrite lookup_insert. case_decide; case_decide; naive_solver.
Qed.

Lemma crp_store_rep owner c m L :
  (∀ o c s, m !! o = Some c → map_sorted Z.ltb (crp_side s c)) →
  (∀ o c, m !! o = Some c → crp_bids c ≠ [] ∨ crp_asks c ≠ []) →
  (∀ s, map_sorted Z.ltb (crp_side s c)) →
  (∀ s p, map_find p (crp_side s c) = crp_entry (rest_count owner s p L)) →
  (∀ o s p, o ≠ owner → crp_lookup o s p m = crp_entry (rest_count o s p L)) →
  crp_rep (crp_store owner c m) L.
Proof.
  intros Hs Ha Hsc Hf Ho. split.
  - intros o c1 s. destruct (crp_store_cases owner c m) as [(_ & _ & ->)|[_ ->]].
    + intros [_ ?]%lookup_delete_Some. by eapply Hs.
    + rewrite lookup_insert. case_decide; [intros [= <-]; apply Hsc|apply Hs].
  - intros o c1. destruct (crp_store_cases owner c m) as [(_ & _ & ->)|[Hne ->]].
    + intros [_ ?]%lookup_delete_Some. by eapply Ha.
    + rewrite lookup_insert. case_decide; [by intros [= <-]|apply Ha].
  - intros o s p. rewrite crp_store_lookup. case_decide; [subst; apply Hf|by apply Ho].
Qed.

(** Unresting an order decrements exactly its entry, and drops a client
    with nothing left. *)
Lemma crp_unrest_spec m L x :
  crp_rep m (x :: L) → Z.of_nat (length L) < 4294967295 →
  crp_rep (crp_unrest (r_owner x.2) (r_side x.2) (r_price x.2) m) L.
Proof.
  intros [Hs Ha Hc] Hlen. pose proof (Hc (r_owner x.2) (r_side x.2) (r_price x.2)) as Hx.
  rewrite rest_count_cons, decide_True in Hx by done.
  set (n := rest_count _ _ _ L) in Hx. simpl in Hx.
  assert (Z.of_nat n < 4294967295) as Hn.
  { pose proof (rest_count_le (r_owner x.2) (r_side x.2) (r_price x.2) L). unfold n. lia. }
  unfold crp_lookup in Hx. destruct (m !! r_owner x.2) as [c|] eqn:Em; [|done].
  pose proof (λ p, unrest_side_find (r_price x.2) p n _ (Hs _ _ (r_side x.2) Em) Hx Hn) as Hu.
  assert (crp_unrest (r_owner x.2) (r_side x.2) (r_price x.2) m =
    crp_store (r_owner x.2)
      (crp_set (r_side x.2) (unrest_side (r_price x.2) (crp_side (r_side x.2) c)) c) m) as ->.
  { unfold crp_unrest, unrest_side. by rewrite Em, Hx. }
  apply crp_store_rep; try done.
  - intros s. rewrite crp_side_set. case_decide; [subst; apply (Hu 0)|by eapply Hs].
  - intros s p. rewrite crp_side_set. specialize (Hc (r_owner x.2) s p).
    unfold crp_lookup in Hc. rewrite Em, rest_count_cons in Hc.
    destruct (decide (s = r_side x.2)) as [->|];
      [rewrite (proj2 (Hu p)); destruct (Z.eqb_spec p (r_price x.2)) as [->|]; [done|]|];
      rewrite Hc, decide_False by (unfold rests_at; naive_solver); done.
  - intros o s p Ho. rewrite Hc, rest_count_cons, decide_False; [done|]. unfold rests_at. naive_solver.
Qed.
End Index.

(** ** The O(1) self-cross test *)

Section SelfCross.
Implicit Types (l : list Entry) (sm : list (Z * Z)).

(** The extreme own price decides for all of them. *)
Definition extreme_crosses (side : Side) (limit : option Z) sm : bool :=
  match (match side with Buy => map_begin sm | Sell => map_rbegin sm end) with
  | None => false
  | Some (p, _) => negb (limit_stops side limit p)
  end.

Lemma extreme_crosses_any side limit sm :
  map_sorted Z.ltb sm →
  extreme_crosses side limit sm = existsb (λ k, negb (limit_stops side limit k)) sm.*1.
Proof.
  intros Hs. apply eq_iff_eq_true. rewrite existsb_exists. setoid_rewrite <- list_elem_of_In.
  unfold extreme_crosses. split.
  - destruct (match side with Buy => map_begin sm | Sell => _ end) as [[p c]|] eqn:E; [|done].
    intros Hp. exists p. split; [|done]. apply list_elem_of_fmap. exists (p, c). split; [done|].
    destruct side; [destruct sm; simplify_eq/=; constructor|by apply last_Some_elem_of].
  - intros (k & (x & -> & Hk)%list_elem_of_fmap & Hc). destruct side.
    + destruct sm as [|[p c] sm]; [by apply elem_of_nil in Hk|]. simpl.
      apply (map_sorted_cons Z.ltb) in Hs as [_ Hlt]. apply elem_of_cons in Hk as [->|Hk]; [done|].
      specialize (Hlt x.1 ltac:(apply list_elem_of_fmap; eauto)).
      destruct limit; [|done]. simpl in *. zb; simpl in *; try done; lia.
    + destruct sm as [|[p c] sm _] using rev_ind; [by apply elem_of_nil in Hk|].
      unfold map_rbegin. rewrite last_snoc.
      apply (map_sorted_app Z.ltb) in Hs as (_ & _ & Hlt).
      apply elem_of_app in Hk as [Hk|Hk]; [|apply list_elem_of_singleton in Hk; by subst].
      specialize (Hlt x.1 p ltac:(apply list_elem_of_fmap; eauto) ltac:(constructor)).
      destruct limit; [|done]. simpl in *. rewrite !Z.gtb_ltb in *. zb; simpl in *; try done; lia.
Qed.

(** The index test equals the scan of the opposite side. *)
Lemma would_self_cross_scan {Sk} (e : MatchingEngine Sk) A side owner limit :
  crp_rep (client_resting_ e) (ab_entries A) →
  (∀ s x, x ∈ ab_side s A → r_side x.2 = s) →
  would_self_cross side owner limit e =
  scan_self_cross side owner limit (ab_side (opposite side) A).
Proof.
  intros [Hs _ Hc] Hside.
  assert (would_self_cross side owner limit e =
    match client_resting_ e !! owner with None => false
    | Some c => extreme_crosses side limit (crp_side (opposite side) c) end) as ->.
  { unfold would_self_cross, extreme_crosses. destruct (client_resting_ e !! owner); [|done].
    destruct side; simpl; destruct limit; simpl;
      repeat match goal with |- context [match ?m with Some _ => _ | None => _ end] => destruct m as [[]|] end;
      try done; rewrite ?Z.gtb_ltb; zb; simpl; done || lia. }
  assert (∀ p, crp_lookup owner (opposite side) p (client_resting_ e) ≠ None ↔
    ∃ x, x ∈ ab_side (opposite side) A ∧ r_owner x.2 = owner ∧ r_price x.2 = p) as Hkey.
  { intros p. rewrite Hc. transitivity (0 < rest_count owner (opposite side) p (ab_entries A))%nat.
    - destruct (rest_count _ _ _ _); simpl; split; [done|lia|lia|done].
    - rewrite rest_count_pos. split.
      + intros (x & [s Hx]%ab_entries_elem & Ho & Hsd & Hp). exists x. rewrite (Hside _ _ Hx) in Hsd.
        by subst s.
      + intros (x & Hx & Ho & Hp). exists x. split; [apply ab_entries_elem; eauto|].
        split_and!; [done|by apply Hside|done]. }
  apply eq_iff_eq_true. unfold scan_self_cross. rewrite existsb_exists. setoid_rewrite <- list_elem_of_In.
  unfold crp_lookup in Hkey. destruct (client_resting_ e !! owner) as [c|] eqn:Em.
  - rewrite extreme_crosses_any by by eapply Hs. rewrite existsb_exists. setoid_rewrite <- list_elem_of_In.
    assert (∀ p, p ∈ (crp_side (opposite side) c).*1 ↔ map_find p (crp_side (opposite side) c) ≠ None)
      as Hin. { intros p. rewrite map_find_None. split; [auto|apply dec_stable]. }
    setoid_rewrite Hin. setoid_rewrite Hkey. setoid_rewrite andb_true_iff. setoid_rewrite Z.eqb_eq.
    naive_solver.
  - split; [done|]. intros (x & Hx & [Ho _]%andb_true_iff). apply Z.eqb_eq in Ho.
    exfalso. apply (proj2 (Hkey (r_price x.2))); eauto.
Qed.
End SelfCross.
