(* ===== verification/MatchingSpec.v ===== *)
(** * MatchingSpec: price-time priority matching, as a specification

    The contract of the matching loop, on the abstract book: walk the
    opposite side in priority order; stop when nothing remains, at the first
    price that does not cross, or at the end; pull (CancelResting) or fill
    each order met on the way.  No levels, no pointers, no pool. *)
From S2P Require Import Prelude Core PriceLevel OrderBook MatchingEngine.

(** The incoming order, as matching sees it. *)
Record Incoming := mkIncoming {
  in_side : Side; in_id : Z; in_owner : Z; in_limit : option Z;
  in_cancel : bool  (** the STP policy pulls same-owner resting orders *) }.

Record Fills := mkFills {
  f_remaining : Z;
  f_trades : list Trade;
  f_events : list Event;
  f_removed : list Entry;  (** resting orders taken off the book, in order *)
  f_tseq : Z }.

Definition fills_start (quantity tseq : Z) : Fills := mkFills quantity [] [] [] tseq.

(** A same-owner resting order is pulled. *)
Definition pull (x : Entry) (σ : Fills) : Fills :=
  mkFills (f_remaining σ) (f_trades σ)
    (f_events σ ++ [EvCancelled (mkCancelled (r_id x.2) (r_quantity x.2) (r_side x.2) (r_price x.2))])
    (f_removed σ ++ [x]) (f_tseq σ).

(** A trade of [q] against [x], which leaves the book when [full]. *)
Definition trade_with (c : Incoming) (x : Entry) (q : Z) (full : bool) (σ : Fills) : Fills :=
  let t := make_trade (in_side c) (in_id c) (f_tseq σ) (r_id x.2) (r_price x.2) q full in
  mkFills (f_remaining σ - q) (f_trades σ ++ [t]) (f_events σ ++ [EvTrade t])
    (if full then f_removed σ ++ [x] else f_removed σ) (TradeSequence_incr (f_tseq σ)).

Definition is_own (c : Incoming) (x : Entry) : bool :=
  in_cancel c && Z.eqb (r_owner x.2) (in_owner c).

Fixpoint fill_queue (c : Incoming) (l : list Entry) (σ : Fills) : Fills * list Entry :=
  match l with
  | [] => (σ, [])
  | x :: l' =>
      if Z.leb (f_remaining σ) 0 then (σ, l)
      else if limit_stops (in_side c) (in_limit c) (r_price x.2) then (σ, l)
      else if is_own c x then fill_queue c l' (pull x σ)
      else if Z.ltb (f_remaining σ) (r_quantity x.2)
      then (trade_with c x (f_remaining σ) false σ,
            (x.1, rest_set_quantity (r_quantity x.2 - f_remaining σ) x.2) :: l')
      else fill_queue c l' (trade_with c x (r_quantity x.2) true σ)
  end.

(** Matching [l] takes the last order at a price and still has quantity left:
    the one place where the code's inner loop goes on to test a level it has
    just erased. *)
Definition price_changes (k : Z) (l : list Entry) : bool :=
  match l with [] => true | x :: _ => negb (Z.eqb (r_price x.2) k) end.

Fixpoint sweeps (c : Incoming) (l : list Entry) (remaining : Z) : bool :=
  match l with
  | [] => false
  | x :: l' =>
      if Z.leb remaining 0 then false
      else if limit_stops (in_side c) (in_limit c) (r_price x.2) then false
      else if is_own c x then sweeps c l' remaining
      else if Z.ltb remaining (r_quantity x.2) then false
      else
        let remaining := remaining - r_quantity x.2 in
        (Z.ltb 0 remaining && price_changes (r_price x.2) l') || sweeps c l' remaining
  end.

(** Quantities a resting order can have. *)
Definition good_quantity (x : Entry) : Prop := 0 < r_quantity x.2 < 18446744073709551616.

(** ** Facts about the specification *)

Section SpecFacts.
Implicit Types (c : Incoming) (l : list Entry) (σ : Fills) (x : Entry).

Definition trade_quantity (ts : list Trade) : Z := sumZ t_quantity ts.

Lemma trade_quantity_snoc ts t : trade_quantity (ts ++ [t]) = trade_quantity ts + t_quantity t.
Proof. unfold trade_quantity. rewrite sumZ_app. simpl. lia. Qed.

(** Nothing is created or lost: what was filled plus what remains is constant. *)
Lemma fill_queue_conserves c l σ :
  let '(σ', _) := fill_queue c l σ in
  trade_quantity (f_trades σ') + f_remaining σ' = trade_quantity (f_trades σ) + f_remaining σ.
Proof.
  revert σ. induction l as [|x l IH]; intros σ; simpl; [done|].
  destruct (Z.leb _ _); [done|]. destruct (limit_stops _ _ _); [done|].
  destruct (is_own c x); [apply (IH (pull x σ))|].
  destruct (Z.ltb _ _); simpl.
  - rewrite trade_quantity_snoc. simpl. lia.
  - specialize (IH (trade_with c x (r_quantity x.2) true σ)).
    destruct (fill_queue _ _ _). simpl in *. rewrite trade_quantity_snoc in IH. simpl in IH. lia.
Qed.

Lemma fill_queue_remaining c l σ :
  0 <= f_remaining σ → Forall good_quantity l →
  let '(σ', l') := fill_queue c l σ in
  0 <= f_remaining σ' <= f_remaining σ ∧ Forall good_quantity l'.
Proof.
  revert σ. induction l as [|x l IH]; intros σ Hr Hl; simpl; [auto with lia|].
  pose proof Hl as [Hx Hl']%Forall_cons.
  destruct (Z.leb_spec (f_remaining σ) 0); [split; [lia|done]|].
  destruct (limit_stops _ _ _); [split; [lia|done]|].
  destruct (is_own c x); [by apply (IH (pull x σ))|].
  destruct (Z.ltb_spec (f_remaining σ) (r_quantity x.2)); simpl.
  - split; [lia|]. constructor; [|done]. unfold good_quantity in *. simpl. lia.
  - specialize (IH (trade_with c x (r_quantity x.2) true σ)).
    destruct (fill_queue _ _ _). simpl in IH. destruct IH as [? ?]; [lia|done|]. unfold good_quantity in Hx. split; [lia|done].
Qed.

(** Trades happen only at prices that cross the limit, at the resting order's price. *)
Lemma fill_queue_prices c l σ :
  let '(σ', _) := fill_queue c l σ in
  ∃ ts, f_trades σ' = f_trades σ ++ ts ∧
    Forall (λ t, limit_stops (in_side c) (in_limit c) (t_price t) = false ∧
                 ∃ x, x ∈ l ∧ t_price t = r_price x.2 ∧ is_own c x = false ∧
                      t_quantity t <= r_quantity x.2 ∧
                      (match in_side c with Buy => sell_order_id t | Sell => buy_order_id t end = r_id x.2) ∧
                      (match in_side c with Buy => buy_order_id t | Sell => sell_order_id t end = in_id c)) ts.
Proof.
  revert σ. induction l as [|x l IH]; intros σ; simpl; [exists []; by rewrite app_nil_r|].
  destruct (Z.leb _ _); [exists []; by rewrite app_nil_r|].
  destruct (limit_stops _ _ _) eqn:Es; [exists []; by rewrite app_nil_r|].
  destruct (is_own c x) eqn:Eo; [|destruct (Z.ltb_spec (f_remaining σ) (r_quantity x.2))].
  - specialize (IH (pull x σ)). destruct (fill_queue _ _ _) as [σ' l'].
    destruct IH as (ts & -> & Hf). exists ts. split; [done|].
    eapply Forall_impl; [done|]. naive_solver set_solver.
  - simpl. eexists. split; [done|]. constructor; [|constructor]. simpl. split; [done|].
    exists x. destruct (in_side c); (split; [set_solver|]); split_and!; try done; lia.
  - specialize (IH (trade_with c x (r_quantity x.2) true σ)).
    destruct (fill_queue _ _ _) as [σ' l']. simpl in IH. destruct IH as (ts & -> & Hf).
    rewrite <- app_assoc. eexists. split; [done|]. constructor; simpl.
    + split; [done|]. exists x. destruct (in_side c); (split; [set_solver|]); split_and!; try done; lia.
    + eapply Forall_impl; [done|]. naive_solver set_solver.
Qed.

(** With quantity left over, nothing on the other side still crosses. *)
Lemma fill_queue_exhausts c l σ :
  Forall good_quantity l →
  let '(σ', l') := fill_queue c l σ in
  0 < f_remaining σ' →
  match l' with [] => True | x :: _ => limit_stops (in_side c) (in_limit c) (r_price x.2) = true end.
Proof.
  revert σ. induction l as [|x l IH]; intros σ Hl; simpl; [done|].
  apply Forall_cons in Hl as [Hx Hl].
  destruct (Z.leb_spec (f_remaining σ) 0); [intros; lia|].
  destruct (limit_stops _ _ _) eqn:Es; [done|].
  destruct (is_own c x); [by apply IH|].
  destruct (Z.ltb _ _); simpl; [intros; lia|]. by apply IH.
Qed.

(** What survives is a suffix of the queue, its head possibly reduced; the
    removed orders are the prefix before it. *)
Lemma fill_queue_shape c l σ :
  let '(σ', l') := fill_queue c l σ in
  ∃ gone, f_removed σ' = f_removed σ ++ gone ∧
    (l = gone ++ l' ∨
     ∃ x q l2, l = gone ++ x :: l2 ∧ l' = (x.1, rest_set_quantity q x.2) :: l2 ∧
               0 < q < r_quantity x.2 ∧ f_remaining σ' = 0).
Proof.
  revert σ. induction l as [|x l IH]; intros σ; simpl.
  { exists []. rewrite app_nil_r. auto. }
  destruct (Z.leb_spec (f_remaining σ) 0); [exists []; rewrite app_nil_r; auto|].
  destruct (limit_stops _ _ _); [exists []; rewrite app_nil_r; auto|].
  assert (∀ σ0, f_removed σ0 = f_removed σ ++ [x] →
    let '(σ', l') := fill_queue c l σ0 in
    ∃ gone, f_removed σ' = f_removed σ ++ gone ∧
      (x :: l = gone ++ l' ∨ ∃ y q l2, x :: l = gone ++ y :: l2 ∧
         l' = (y.1, rest_set_quantity q y.2) :: l2 ∧ 0 < q < r_quantity y.2 ∧ f_remaining σ' = 0)) as Hstep.
  { intros σ0 E0. specialize (IH σ0). destruct (fill_queue c l σ0) as [σ' l'].
    destruct IH as (gone & E & Hg). exists (x :: gone). rewrite E, E0, <- app_assoc.
    split; [done|]. destruct Hg as [->|(y & q & l2 & -> & ? & ?)]; [by left|].
    right. by exists y, q, l2. }
  destruct (is_own c x); [by apply Hstep|].
  destruct (Z.ltb_spec (f_remaining σ) (r_quantity x.2)); simpl; [|by apply Hstep].
  exists []. rewrite app_nil_r. split; [done|]. right.
  exists x, (r_quantity x.2 - f_remaining σ), l. split_and!; [done|done|lia|lia|lia].
Qed.

(** Trades and trade events agree, and sequence numbers run on. *)
Lemma fill_queue_events c l σ :
  event_trades (f_events σ) = f_trades σ →
  let '(σ', _) := fill_queue c l σ in event_trades (f_events σ') = f_trades σ'.
Proof.
  revert σ. induction l as [|x l IH]; intros σ E; simpl; [done|].
  destruct (Z.leb _ _); [done|]. destruct (limit_stops _ _ _); [done|].
  unfold event_trades in *.
  destruct (is_own c x); [apply IH; simpl; rewrite omap_app, E; simpl; apply app_nil_r|].
  destruct (Z.ltb _ _); simpl; [|apply IH; simpl]; by rewrite omap_app, E.
Qed.

(** Trade sequence numbers are consecutive, modulo 2^64. *)
Definition consecutive (first : Z) (ts : list Trade) (next : Z) : Prop :=
  (∀ i t, ts !! i = Some t → trade_sequence t = wrap64 (first + Z.of_nat i)) ∧
  next = wrap64 (first + Z.of_nat (length ts)).

Lemma consecutive_snoc first ts next t :
  consecutive first ts next → trade_sequence t = next →
  consecutive first (ts ++ [t]) (TradeSequence_incr next).
Proof.
  intros [Hi ->] Ht. split.
  - intros i t' Hl. apply lookup_snoc_Some in Hl as [[_ ?]|[-> ->]]; [eauto|done].
  - unfold TradeSequence_incr, u64_add. rewrite wrap64_add_l, length_app. simpl. f_equal. lia.
Qed.

Lemma fill_queue_sequence c l σ first :
  consecutive first (f_trades σ) (f_tseq σ) →
  let '(σ', _) := fill_queue c l σ in consecutive first (f_trades σ') (f_tseq σ').
Proof.
  revert σ. induction l as [|x l IH]; intros σ Hc; simpl; [done|].
  destruct (Z.leb _ _); [done|]. destruct (limit_stops _ _ _); [done|].
  destruct (is_own c x); [by apply IH|].
  destruct (Z.ltb _ _); simpl; [|apply IH; simpl]; by apply consecutive_snoc.
Qed.

(** Every trade is for a positive quantity. *)
Lemma fill_queue_positive c l σ :
  Forall good_quantity l → Forall (λ t, 0 < t_quantity t) (f_trades σ) →
  let '(σ', _) := fill_queue c l σ in Forall (λ t, 0 < t_quantity t) (f_trades σ').
Proof.
  revert σ. induction l as [|x l IH]; intros σ Hl Hc; simpl; [done|].
  apply Forall_cons in Hl as [Hx Hl]. unfold good_quantity in Hx.
  destruct (Z.leb_spec (f_remaining σ) 0); [done|]. destruct (limit_stops _ _ _); [done|].
  destruct (is_own c x); [by apply IH|].
  destruct (Z.ltb _ _); simpl; [|apply IH; simpl; [done|]];
    (apply Forall_app; split; [done|]; constructor; [simpl; lia|done]).
Qed.

(** An order that takes nothing, or takes part of the first order only,
    sweeps nothing. *)
Lemma sweeps_done c l remaining : remaining <= 0 → sweeps c l remaining = false.
Proof. intros. destruct l; simpl; [done|]. by rewrite (proj2 (Z.leb_le _ _)). Qed.

(** Orders within the first order's quantity, at or inside it, sweep nothing. *)
Lemma sweeps_within c x l remaining :
  remaining <= r_quantity x.2 → is_own c x = false → sweeps c (x :: l) remaining = false.
Proof.
  intros Hr Ho. simpl. rewrite Ho. destruct (Z.leb _ _); [done|]. destruct (limit_stops _ _ _); [done|].
  destruct (Z.ltb_spec remaining (r_quantity x.2)); [done|].
  by rewrite sweeps_done, (proj2 (Z.ltb_ge _ _)) by lia.
Qed.
End SpecFacts.
