(* ===== verification/MatchingRefine.v ===== *)
(** * MatchingRefine: the matching loop implements the specification

    [loop_rep] relates an engine inside the loop to a state of
    [MatchingSpec.fill_queue]; each loop body is one specification step and
    the two loops together run the specification to its end. *)
From S2P Require Import Prelude Core StdMap OrderPool PriceLevel OrderBook MatchingEngine.
From S2P Require Import MatchingSpec.

(** What the engine's two side indexes are after orders left the book. *)
Definition index_without (removed : list Entry) (m : gmap Z OrderPtr) : gmap Z OrderPtr :=
  foldl (λ m x, delete (r_id x.2) m) m removed.

Definition clients_without (removed : list Entry) (m : gmap Z ClientRestingPrices)
    : gmap Z ClientRestingPrices :=
  foldl (λ m x, crp_unrest (r_owner x.2) (r_side x.2) (r_price x.2) m) m removed.

(** Engine [e] has run matching for [c] from [e0] (whose book is [A0]) up to
    the specification state [σ] with [l] left on the opposite side. *)
Record loop_rep {Sk} `{EventSink Sk} (c : Incoming) (e0 e : MatchingEngine Sk) (A0 : ABook)
    (σ : Fills) (l : list Entry) : Prop := {
  lp_book : book_rep (book_ e) (ab_set (opposite (in_side c)) l A0);
  lp_cap : capacity_ (pool_ (book_ e)) = capacity_ (pool_ (book_ e0));
  lp_orders : orders_ (book_ e) = index_without (f_removed σ) (orders_ (book_ e0));
  lp_clients : client_resting_ e =
    if stp_enabled (stp_ e0) then clients_without (f_removed σ) (client_resting_ e0)
    else client_resting_ e0;
  lp_sink : sink_ e = deliver_all (f_events σ) (sink_ e0);
  lp_tseq : next_trade_sequence_ e = f_tseq σ;
  lp_seq : next_sequence_ e = next_sequence_ e0;
  lp_marks : last_accepted_id_ e = last_accepted_id_ e0;
  lp_stp : stp_ e = stp_ e0 }.

Section Refine.
Context {Sk : Type} `{EventSink Sk}.
Implicit Types (e : MatchingEngine Sk) (c : Incoming) (A : ABook) (σ : Fills) (l : list Entry).

Lemma index_without_snoc l x m : index_without (l ++ [x]) m = delete (r_id x.2) (index_without l m).
Proof. unfold index_without. by rewrite foldl_app. Qed.

Lemma clients_without_snoc l x m :
  clients_without (l ++ [x]) m =
  crp_unrest (r_owner x.2) (r_side x.2) (r_price x.2) (clients_without l m).
Proof. unfold clients_without. by rewrite foldl_app. Qed.

Lemma loop_rep_start c e A tseq q :
  book_rep (book_ e) A → next_trade_sequence_ e = tseq →
  loop_rep c e e A (fills_start q tseq) (ab_side (opposite (in_side c)) A).
Proof. intros Hb <-. split; simpl; try done; [by rewrite ab_set_id|by destruct (stp_enabled _)]. Qed.

Lemma index_unrest_client (ro : Order) e :
  client_resting_ (index_unrest ro e) =
  if stp_enabled (stp_ e) then crp_unrest (o_owner ro) (o_side ro) (o_price ro) (client_resting_ e)
  else client_resting_ e.
Proof. unfold index_unrest. by destruct (stp_enabled _). Qed.

Lemma index_unrest_book (ro : Order) e : book_ (index_unrest ro e) = book_ e.
Proof. unfold index_unrest. by destruct (stp_enabled _). Qed.

Lemma index_unrest_rest (ro : Order) e :
  sink_ (index_unrest ro e) = sink_ e ∧
  next_trade_sequence_ (index_unrest ro e) = next_trade_sequence_ e ∧
  next_sequence_ (index_unrest ro e) = next_sequence_ e ∧
  last_accepted_id_ (index_unrest ro e) = last_accepted_id_ e ∧
  stp_ (index_unrest ro e) = stp_ e.
Proof. unfold index_unrest. by destruct (stp_enabled _). Qed.

(** Taking the front order of the opposite side off the book and its indexes. *)
Lemma drop_front c e0 e A0 σ slot r l ro :
  loop_rep c e0 e A0 σ ((slot, r) :: l) → resting_of ro = r →
  ∃ b, remove_order slot (book_ (index_unrest ro e)) = Ok b ∧
    let e' := set_book b (index_unrest ro e) in
    loop_rep c e0 e' A0
      (mkFills (f_remaining σ) (f_trades σ) (f_events σ) (f_removed σ ++ [(slot, r)]) (f_tseq σ)) l.
Proof.
  intros [] Hr. destruct (index_unrest_rest ro e) as (Es & Et & Eq & Em & Ep).
  rewrite index_unrest_book.
  destruct (remove_order_spec _ _ (opposite (in_side c)) [] slot r l lp_book0)
    as (b & E & Hb & Ho & Hc); [by rewrite ab_side_set_eq|].
  rewrite ab_set_set in Hb. exists b. split; [done|].
  split; simpl; try done; try congruence.
  - by rewrite Ho, lp_orders0, index_without_snoc.
  - rewrite index_unrest_client, lp_clients0, lp_stp0. destruct (stp_enabled _); [|done].
    rewrite clients_without_snoc. simpl. by subst r.
Qed.

(** The CancelResting branch is one [pull]. *)
Lemma cancel_resting_refines c e0 e A0 σ slot r l ro :
  loop_rep c e0 e A0 σ ((slot, r) :: l) → resting_of ro = r →
  ∃ e', cancel_resting slot ro e = Ok e' ∧ loop_rep c e0 e' A0 (pull (slot, r) σ) l.
Proof.
  intros Hl Hr. destruct (drop_front _ _ _ _ _ _ _ _ _ Hl Hr) as (b & E & Hl').
  unfold cancel_resting. rewrite E. simpl. eexists. split; [done|].
  destruct Hl'. split; simpl in *; try done.
  rewrite lp_sink0, deliver_all_app. subst r. done.
Qed.

(** A fill is one [trade_with], full or partial. *)
Lemma fill_resting_refines c e0 e A0 σ slot r l ro :
  loop_rep c e0 e A0 σ ((slot, r) :: l) →
  load (mem_of (book_ e)) slot = Ok ro → resting_of ro = r →
  0 < f_remaining σ < 18446744073709551616 → good_quantity (slot, r) →
  let full := Z.leb (r_quantity r) (f_remaining σ) in
  let q := if full then r_quantity r else f_remaining σ in
  let σ' := trade_with c (slot, r) q full σ in
  ∃ e', fill_resting (in_side c) (in_id c) (opposite (in_side c), r_price r) slot ro
          (f_remaining σ) (f_trades σ) e = Ok (f_remaining σ', f_trades σ', e') ∧
    loop_rep c e0 e' A0 σ'
      (if full then l else (slot, rest_set_quantity (r_quantity r - f_remaining σ) r) :: l).
Proof.
  intros Hl Hro Hr Hrem Hq full q σ'. unfold good_quantity in Hq. simpl in Hq.
  set (s := opposite (in_side c)).
  assert (o_quantity ro = r_quantity r ∧ o_price ro = r_price r ∧ o_id ro = r_id r) as (Eq & Ep & Ei)
    by by subst r.
  assert ((if Z.ltb (f_remaining σ) (o_quantity ro) then f_remaining σ else o_quantity ro) = q) as Efill.
  { unfold q, full. rewrite Eq. zb; lia. }
  assert (Z.eqb q (o_quantity ro) = full) as Efull.
  { unfold q, full. rewrite Eq. zb; try lia; done. }
  assert (0 <= q <= f_remaining σ ∧ q <= r_quantity r) as Hqr by (unfold q, full; zb; lia).
  unfold fill_resting. rewrite Efill, Efull.
  set (e1 := emit _ (incr_trade_sequence e)).
  assert (book_ e1 = book_ e) as Eb by done. rewrite !Eb.
  pose proof (lp_book _ _ _ _ _ _ Hl) as Hb. fold s in Hb.
  destruct (fill_front_book _ _ s slot r l q Hb) as (mem & lv & Em & Elv & Hb2);
    [by rewrite ab_side_set_eq|].
  rewrite Em. simpl. rewrite Elv. simpl. rewrite ab_set_set in Hb2.
  set (b2 := store_level _ _ _) in *.
  unfold Quantity_sub in *. rewrite !u64_sub_small in Hb2 by (unfold in_u64; lia).
  rewrite u64_sub_small by (unfold in_u64; lia).
  (* the engine after the quantity updates, before any removal *)
  assert (loop_rep c e0 (set_book b2 e1) A0
    (mkFills (f_remaining σ - q) (f_trades σ') (f_events σ') (f_removed σ) (f_tseq σ'))
    ((slot, rest_set_quantity (r_quantity r - q) r) :: l)) as Hl2.
  { destruct Hl. split; simpl; try done.
    - rewrite <- lp_cap0. unfold b2, store_level. by rewrite pool_set_tree.
    - rewrite <- lp_orders0. unfold b2, store_level. by rewrite orders_set_tree.
    - rewrite deliver_all_app, <- lp_sink0, lp_tseq0, Ei, Ep. done.
    - by rewrite lp_tseq0. }
  assert (f_trades σ ++ [make_trade (in_side c) (in_id c) (next_trade_sequence_ e) (o_id ro)
    (o_price ro) q full] = f_trades σ') as Etr.
  { unfold σ'. simpl. by rewrite (lp_tseq _ _ _ _ _ _ Hl), Ei, Ep. }
  rewrite Etr. unfold σ' in *. destruct full eqn:Ef.
  - destruct (best_front_spec _ _ s slot (rest_set_quantity (r_quantity r - q) r) l
      (lp_book _ _ _ _ _ _ Hl2)) as
      (_ & ro2 & _ & _ & _ & _ & El2 & Er2 & _); [by rewrite ab_side_set_eq|].
    simpl in El2. rewrite El2. simpl.
    destruct (drop_front _ _ _ _ _ _ _ _ ro2 Hl2 Er2) as (b3 & E3 & Hl3).
    rewrite E3. simpl. eexists. split; [done|].
    destruct Hl3. split; simpl in *; try done.
    + rewrite lp_orders0, !index_without_snoc. done.
    + rewrite lp_clients0. destruct (stp_enabled _); [|done]. by rewrite !clients_without_snoc.
  - simpl. eexists. split; [done|]. replace q with (f_remaining σ) in Hl2 at 2 by done.
    destruct Hl2. split; simpl in *; done.
Qed.

Lemma loop_rep_sorted c e0 e A0 σ l :
  loop_rep c e0 e A0 σ l → priority_sorted (opposite (in_side c)) l.
Proof.
  intros Hl. pose proof (br_side _ _ (lp_book _ _ _ _ _ _ Hl) (opposite (in_side c))) as Hs.
  rewrite ab_side_set_eq in Hs. by apply (side_rep_sorted _ _ _ _ Hs).
Qed.

(** Past its last order a level's address dangles. *)
Lemma level_left c e0 e A0 σ l k :
  loop_rep c e0 e A0 σ l →
  (∀ x, x ∈ l → tree_lt (opposite (in_side c)) (r_price x.2) k = false) →
  match l with [] => True | x :: _ => r_price x.2 ≠ k end →
  deref_level (opposite (in_side c), k) (book_ e) = Undefined.
Proof.
  intros Hl Hk Hx. eapply level_dangling; [apply Hl|]. rewrite ab_side_set_eq.
  pose proof (loop_rep_sorted _ _ _ _ _ _ Hl) as Hs. intros y Hy E.
  destruct l as [|x l]; [by apply elem_of_nil in Hy|].
  apply elem_of_cons in Hy as [->|Hy]; [done|].
  apply StronglySorted_inv in Hs as [_ Hs]. rewrite Forall_forall in Hs.
  specialize (Hs y Hy). specialize (Hk x ltac:(by constructor)). rewrite E in Hs.
  destruct (in_side c); unfold tree_lt, opposite in *; zb; try done; lia.
Qed.

Lemma fill_queue_done c l σ : f_remaining σ <= 0 → fill_queue c l σ = (σ, l).
Proof. intros. destruct l; simpl; [done|]. by rewrite (proj2 (Z.leb_le _ _)). Qed.

(** One specification step taken by a loop body, on a non-empty queue. *)
Lemma fill_queue_fill c x l σ :
  0 < f_remaining σ → limit_stops (in_side c) (in_limit c) (r_price x.2) = false →
  is_own c x = false → good_quantity x →
  let full := Z.leb (r_quantity x.2) (f_remaining σ) in
  let q := if full then r_quantity x.2 else f_remaining σ in
  fill_queue c (x :: l) σ =
  fill_queue c (if full then l else (x.1, rest_set_quantity (r_quantity x.2 - f_remaining σ) x.2) :: l)
    (trade_with c x q full σ).
Proof.
  intros Hr Hs Ho Hq full q. unfold good_quantity in Hq. simpl. rewrite Hs, Ho.
  rewrite (proj2 (Z.leb_gt _ _)) by lia. unfold full, q.
  destruct (Z.ltb_spec (f_remaining σ) (r_quantity x.2)), (Z.leb_spec (r_quantity x.2) (f_remaining σ));
    try lia; [|done].
  simpl. rewrite Z.sub_diag. done.
Qed.

(** The inner loop runs the specification over the orders of one level. *)
Lemma match_level_refines fuel c e0 e A0 σ l k :
  loop_rep c e0 e A0 σ l → Forall good_quantity l → 0 <= f_remaining σ < 18446744073709551616 →
  (length l < fuel)%nat → limit_stops (in_side c) (in_limit c) k = false →
  (∀ x, x ∈ l → tree_lt (opposite (in_side c)) (r_price x.2) k = false) →
  ∃ σ' l' e',
    match_level (Ok true) fuel (in_side c) (in_id c) (in_owner c) (in_cancel c)
      (opposite (in_side c), k) (f_remaining σ) (f_trades σ) e = Ok (f_remaining σ', f_trades σ', e') ∧
    loop_rep c e0 e' A0 σ' l' ∧ Forall good_quantity l' ∧
    0 <= f_remaining σ' < 18446744073709551616 ∧
    fill_queue c l σ = fill_queue c l' σ' ∧ (length l' <= length l)%nat ∧
    (∀ x, head l = Some x → r_price x.2 = k → 0 < f_remaining σ →
      f_remaining σ' = 0 ∨ (length l' < length l)%nat) ∧
    ((0 < f_remaining σ → price_changes k l = false) →
      let strict := match_level Undefined fuel (in_side c) (in_id c) (in_owner c) (in_cancel c)
        (opposite (in_side c), k) (f_remaining σ) (f_trades σ) e in
      (sweeps c l (f_remaining σ) = true ∧ strict = Undefined) ∨
      (sweeps c l (f_remaining σ) = sweeps c l' (f_remaining σ') ∧
       strict = Ok (f_remaining σ', f_trades σ', e'))).
Proof.
  revert e σ l. induction fuel as [|fuel IH]; intros e σ l Hl Hq Hr Hf Hk Hlev; [lia|].
  simpl. destruct (Z.ltb_spec 0 (f_remaining σ)) as [Hpos|]; simpl.
  2: { exists σ, l, e. split_and!; try done; try lia. intros _. by right. }
  unfold level_is_empty.
  assert (match l with [] => True | x :: _ => r_price x.2 ≠ k end ∨
    ∃ slot r l2, l = (slot, r) :: l2 ∧ r_price r = k) as [Hgone|(slot & r & l2 & -> & <-)].
  { destruct l as [|[slot r] l2]; [by left|]. destruct (decide (r_price r = k)); [|by left].
    right. by exists slot, r, l2. }
  { rewrite (level_left _ _ _ _ _ _ _ Hl Hlev Hgone). simpl. exists σ, l, e.
    split_and!; try done; try lia; [intros x Hx E; by destruct l; simplify_eq/=|].
    intros Hc. specialize (Hc Hpos). destruct l as [|x l]; [done|]. simpl in Hc.
    by destruct (Z.eqb_spec (r_price x.2) k). }
  rename l2 into l. remember (fill_queue c ((slot, r) :: l) σ) as FQ eqn:EFQ.
  remember (sweeps c ((slot, r) :: l) (f_remaining σ)) as SW eqn:ESW. simpl in ESW.
  rewrite (proj2 (Z.leb_gt _ _)), Hk in ESW by lia.
  pose proof Hq as [Hqr Hq']%Forall_cons.
  destruct (best_front_spec _ _ (opposite (in_side c)) slot r l (lp_book _ _ _ _ _ _ Hl))
    as (lv & ro & El & Efr & Ee & _ & Ero & Hro & _); [by rewrite ab_side_set_eq|].
  rewrite El, Ee. simpl. rewrite Efr. simpl. rewrite Ero. simpl.
  assert (in_cancel c && Z.eqb (o_owner ro) (in_owner c) = is_own c (slot, r)) as Eown
    by (by subst r).
  rewrite Eown. destruct (is_own c (slot, r)) eqn:Eo.
  - destruct (cancel_resting_refines _ _ _ _ _ _ _ _ _ Hl Hro) as (e' & Ec & Hl').
    rewrite Ec. simpl. exists (pull (slot, r) σ), l, e'. simpl.
    simpl in EFQ. rewrite Eo, Hk, (proj2 (Z.leb_gt _ _)) in EFQ by lia.
    split_and!; try done; try lia. intros _. right. by rewrite ESW.
  - destruct (fill_resting_refines _ _ _ _ _ _ _ _ _ Hl Ero Hro ltac:(lia) Hqr) as (e' & Ec & Hl').
    rewrite Ec. simpl. pose proof (fill_queue_fill c (slot, r) l σ Hpos Hk Eo Hqr) as Estep.
    cbv zeta in Estep. simpl r_quantity in Estep. simpl fst in Estep. simpl snd in Estep.
    rewrite Estep in EFQ. subst FQ. clear Estep. unfold good_quantity in Hqr. simpl in Hqr.
    destruct (Z.leb_spec (r_quantity r) (f_remaining σ)) as [Hfull|Hpart]; simpl in *.
    + destruct (IH e' _ l Hl') as (σ' & l' & e2 & E2 & Hl2 & Hq2 & Hr2 & Hfq & Hlen & _ & Hst);
        [done|simpl; lia|lia|done|intros x Hx; apply Hlev; by constructor|].
      exists σ', l', e2. simpl in E2. split_and!; try done; try lia. intros _.
      simpl in Hst. rewrite (proj2 (Z.ltb_ge _ _)) in ESW by lia. rewrite ESW. destruct (Z.ltb_spec 0 (f_remaining σ - r_quantity r)) as [Hmore|].
      2: { apply Hst. lia. }
      destruct (price_changes (r_price r) l) eqn:Epc; simpl; [|by apply Hst].
      left. split; [done|]. destruct fuel as [|fuel']; [lia|]. simpl.
      rewrite (proj2 (Z.ltb_lt _ _)) by lia. simpl. unfold level_is_empty.
      rewrite (level_left _ _ _ _ _ _ (r_price r) Hl'); [done|..].
      * intros x Hx. apply Hlev. by constructor.
      * destruct l as [|x l]; [done|]. simpl in Epc. by destruct (Z.eqb_spec (r_price x.2) (r_price r)).
    + exists (trade_with c (slot, r) (f_remaining σ) false σ),
        ((slot, rest_set_quantity (r_quantity r - f_remaining σ) r) :: l), e'. simpl in *.
      destruct fuel; [lia|]. simpl. rewrite Z.sub_diag. simpl.
      split_and!; try done; try lia; [constructor; [|done]; unfold good_quantity; simpl; lia|].
      intros _. right. by rewrite ESW, (proj2 (Z.ltb_lt _ _)) by lia.
Qed.

(** The outer loop runs it over the levels, best first. *)
Lemma match_levels_refines fuel inner c e0 e A0 σ l :
  loop_rep c e0 e A0 σ l → Forall good_quantity l → 0 <= f_remaining σ < 18446744073709551616 →
  (length l < fuel)%nat → (length l < inner)%nat →
  ∃ e', let '(σ', l') := fill_queue c l σ in
    match_levels (Ok true) fuel inner (in_side c) (in_id c) (in_owner c) (in_cancel c) (in_limit c)
      (f_remaining σ) (f_trades σ) e = Ok (f_remaining σ', f_trades σ', e') ∧
    loop_rep c e0 e' A0 σ' l' ∧
    match_levels Undefined fuel inner (in_side c) (in_id c) (in_owner c) (in_cancel c) (in_limit c)
      (f_remaining σ) (f_trades σ) e =
      if sweeps c l (f_remaining σ) then Undefined else Ok (f_remaining σ', f_trades σ', e').
Proof.
  revert e σ l. induction fuel as [|fuel IH]; intros e σ l Hl Hq Hr Hf Hi; [lia|].
  destruct (fill_queue c l σ) as [σf lf] eqn:EFQ. simpl. destruct (Z.ltb_spec 0 (f_remaining σ)) as [Hpos|]; simpl.
  2: { exists e. rewrite fill_queue_done in EFQ by lia. rewrite sweeps_done by lia. by simplify_eq. }
  assert (match in_side c with Buy => best_ask (book_ e) | Sell => best_bid (book_ e) end
    = best_level (opposite (in_side c)) (book_ e)) as -> by (by destruct (in_side c)).
  rewrite (best_level_spec _ _ _ (lp_book _ _ _ _ _ _ Hl)), ab_side_set_eq.
  destruct l as [|[slot r] l]; [simplify_eq/=; by exists e|].
  remember (sweeps c ((slot, r) :: l) (f_remaining σ)) as SW eqn:ESW. simpl r_price.
  destruct (best_front_spec _ _ (opposite (in_side c)) slot r l (lp_book _ _ _ _ _ _ Hl))
    as (lv & ro & El & _ & _ & Epr & _); [by rewrite ab_side_set_eq|].
  rewrite El. simpl. rewrite Epr. destruct (limit_stops _ _ (r_price r)) eqn:Es.
  { exists e. simpl in EFQ, ESW. rewrite Es, (proj2 (Z.leb_gt _ _)) in EFQ, ESW by lia.
    by simplify_eq. }
  destruct (match_level_refines inner c e0 e A0 σ ((slot, r) :: l) (r_price r) Hl Hq Hr Hi Es)
    as (σ' & l' & e' & E & Hl' & Hq' & Hr' & Hfq & Hlen & Hprog & Hst).
  { pose proof (loop_rep_sorted _ _ _ _ _ _ Hl) as [_ Hs]%StronglySorted_inv.
    rewrite Forall_forall in Hs. intros x [->|Hx]%elem_of_cons; [apply ltb_irrefl|by apply Hs]. }
  rewrite E. cbn [mbind outcome_bind].
  specialize (Hprog _ eq_refl eq_refl Hpos). simpl in Hf, Hi, Hlen.
  specialize (Hst ltac:(intros _; simpl; by rewrite Z.eqb_refl)). cbv zeta in Hst.
  assert (∃ ef, match_levels (Ok true) fuel inner (in_side c) (in_id c) (in_owner c) (in_cancel c)
      (in_limit c) (f_remaining σ') (f_trades σ') e' = Ok (f_remaining σf, f_trades σf, ef) ∧
    loop_rep c e0 ef A0 σf lf ∧
    match_levels Undefined fuel inner (in_side c) (in_id c) (in_owner c) (in_cancel c) (in_limit c)
      (f_remaining σ') (f_trades σ') e' =
      if sweeps c l' (f_remaining σ') then Undefined else Ok (f_remaining σf, f_trades σf, ef))
    as (ef & Ee & Hlf & Hsf).
  { rewrite Hfq in EFQ. destruct Hprog as [E0|Hless].
    - rewrite fill_queue_done in EFQ by lia. simplify_eq. exists e'. destruct fuel; [lia|].
      rewrite sweeps_done by lia. simpl. by rewrite E0.
    - simpl in Hless. destruct (IH e' σ' l') as [ef Hef]; try done; try lia.
      rewrite EFQ in Hef. by exists ef. }
  exists ef. split; [done|]. split; [done|].
  rewrite ESW. destruct Hst as [[-> ->]|[-> ->]]; [done|]. by cbn [mbind outcome_bind].
Qed.

(** [match_against_book] computes the specification, within its budget. *)
Lemma match_against_book_refines c e A q :
  book_rep (book_ e) A → (∀ x, x ∈ ab_entries A → good_quantity x) →
  0 <= q < 18446744073709551616 →
  in_cancel c = stp_enabled (stp_ e) && bool_decide (stp_policy (stp_ e) = CancelResting) →
  ∃ e', let '(σ, l) := fill_queue c (ab_side (opposite (in_side c)) A)
                         (fills_start q (next_trade_sequence_ e)) in
    match_against_book (Ok true) (in_side c) (in_id c) (in_owner c) q (in_limit c) e =
      Ok (f_remaining σ, f_trades σ, e') ∧
    loop_rep c e e' A σ l ∧
    match_against_book Undefined (in_side c) (in_id c) (in_owner c) q (in_limit c) e =
      if sweeps c (ab_side (opposite (in_side c)) A) q then Undefined
      else Ok (f_remaining σ, f_trades σ, e').
Proof.
  intros Hb Hq Hr Hc. unfold match_against_book. rewrite <- Hc.
  assert (length (ab_side (opposite (in_side c)) A) < loop_budget (book_ e))%nat as Hlen.
  { unfold loop_budget. pose proof (book_capacity _ _ Hb) as Hcap.
    rewrite (ab_entries_perm (opposite (in_side c))), length_app in Hcap. lia. }
  apply (match_levels_refines _ _ _ e); try done; [by apply loop_rep_start|].
  apply Forall_forall. intros x Hx. apply Hq, ab_entries_elem. eauto.
Qed.
End Refine.
