(* ===== verification/EngineInvariant.v ===== *)
(** * EngineInvariant: what holds of every engine between two commands

    [engine_inv e A]: the engine's book represents the abstract book [A];
    quantities and prices are positive; the book is not crossed; ids are
    below their owner's watermark and unique per owner; orders at one price
    are in arrival order; the per-client index counts exactly the resting
    orders.  The lemmas here carry the invariant over the two things a
    command does to the abstract book: it shrinks, and one order is added. *)
From S2P Require Import Prelude Core StdMap OrderPool PriceLevel OrderBook MatchingEngine.
From S2P Require Import ClientIndex MatchingSpec MatchingRefine.

(** A resting order up to its remaining quantity. *)
Definition ident (x : Entry) : Entry := (x.1, rest_set_quantity 0 x.2).

(** [A'] holds some of the orders of [A], in the same order, at any quantity. *)
Definition shrinks (A' A : ABook) : Prop :=
  ∀ s, sublist (ident <$> ab_side s A') (ident <$> ab_side s A).

(** Time priority inside a price. *)
Definition earlier (x y : Entry) : Prop :=
  r_price x.2 = r_price y.2 → r_sequence x.2 < r_sequence y.2.

Record orders_inv (marks : gmap Z Z) (next : Z) (A : ABook) : Prop := {
  oi_price x : x ∈ ab_entries A → 0 < r_price x.2;
  oi_uncrossed x y : x ∈ ab_bids A → y ∈ ab_asks A → r_price x.2 < r_price y.2;
  oi_marks x : x ∈ ab_entries A → ∃ w, marks !! r_owner x.2 = Some w ∧ r_id x.2 <= w;
  oi_ids : NoDup ((λ x, (r_owner x.2, r_id x.2)) <$> ab_entries A);
  oi_fifo s : StronglySorted earlier (ab_side s A);
  oi_next x : x ∈ ab_entries A → r_sequence x.2 < next }.

Definition client_inv {Sk} (e : MatchingEngine Sk) (A : ABook) : Prop :=
  if stp_enabled (stp_ e) then crp_rep (client_resting_ e) (ab_entries A)
  else client_resting_ e = ∅.

Record engine_inv {Sk} (e : MatchingEngine Sk) (A : ABook) : Prop := {
  ei_book : book_rep (book_ e) A;
  ei_quantity x : x ∈ ab_entries A → good_quantity x;
  ei_orders : orders_inv (last_accepted_id_ e) (next_sequence_ e) A;
  ei_clients : client_inv e A;
  ei_sequence : 0 <= next_sequence_ e;
  ei_capacity : Z.of_nat (capacity_ (pool_ (book_ e))) < 4294967296 }.

Section Shrink.
Implicit Types (A : ABook) (x y : Entry) (l : list Entry).

Lemma shrinks_elem A' A x : shrinks A' A → x ∈ ab_entries A' → ∃ y, y ∈ ab_entries A ∧ ident y = ident x.
Proof.
  intros Hs [s Hx]%ab_entries_elem. specialize (Hs s).
  assert (ident x ∈ ident <$> ab_side s A) as (y & E & Hy)%list_elem_of_fmap.
  { eapply sublist_submseteq, elem_of_submseteq in Hs; [done|]. by apply list_elem_of_fmap_2. }
  exists y. split; [|done]. apply ab_entries_elem. eauto.
Qed.

Lemma shrinks_side A' A s x :
  shrinks A' A → x ∈ ab_side s A' → ∃ y, y ∈ ab_side s A ∧ ident y = ident x.
Proof.
  intros Hs Hx. specialize (Hs s).
  assert (ident x ∈ ident <$> ab_side s A) as (y & E & Hy)%list_elem_of_fmap; [|eauto].
  eapply sublist_submseteq, elem_of_submseteq in Hs; [done|]. by apply list_elem_of_fmap_2.
Qed.

Lemma ident_fields x y :
  ident x = ident y →
  r_price x.2 = r_price y.2 ∧ r_owner x.2 = r_owner y.2 ∧ r_id x.2 = r_id y.2 ∧
  r_side x.2 = r_side y.2 ∧ r_sequence x.2 = r_sequence y.2.
Proof. unfold ident, rest_set_quantity. intros E. by simplify_eq. Qed.

Lemma ident_fmap_ids l :
  (λ x, (r_owner x.2, r_id x.2)) <$> (ident <$> l) = (λ x, (r_owner x.2, r_id x.2)) <$> l.
Proof. rewrite <- list_fmap_compose. done. Qed.

Lemma earlier_ident l : StronglySorted earlier (ident <$> l) ↔ StronglySorted earlier l.
Proof.
  induction l as [|x l IH]; simpl; [split; constructor|].
  rewrite !StronglySorted_cons, IH, Forall_fmap. done.
Qed.

Lemma sorted_sublist {B} (R : relation B) (l' l : list B) :
  sublist l' l → StronglySorted R l → StronglySorted R l'.
Proof.
  induction 1 as [|x l' l Hs IH|x l' l Hs IH]; [done| |].
  - rewrite !StronglySorted_cons. intros [Hf Hl]. split; [|auto].
    rewrite Forall_forall in *. intros y Hy. apply Hf.
    by eapply elem_of_submseteq, sublist_submseteq.
  - rewrite StronglySorted_cons. naive_solver.
Qed.

(** Everything [orders_inv] says survives a shrinking book. *)
Lemma orders_inv_shrinks marks next A A' :
  shrinks A' A → orders_inv marks next A → orders_inv marks next A'.
Proof.
  intros Hs [Hp Hu Hm Hi Hf Hn]. split.
  - intros x Hx. destruct (shrinks_elem _ _ _ Hs Hx) as (y & Hy & E%ident_fields).
    destruct E as (<- & _). by apply Hp.
  - intros x y Hx Hy. destruct (shrinks_side _ _ Buy _ Hs Hx) as (x' & Hx' & [E _]%ident_fields).
    destruct (shrinks_side _ _ Sell _ Hs Hy) as (y' & Hy' & [E' _]%ident_fields).
    rewrite <- E, <- E'. by apply Hu.
  - intros x Hx. destruct (shrinks_elem _ _ _ Hs Hx) as (y & Hy & E%ident_fields).
    destruct E as (_ & <- & <- & _). by apply Hm.
  - rewrite <- ident_fmap_ids in Hi |- *. eapply sublist_NoDup; [exact Hi|].
    apply fmap_sublist. unfold ab_entries. rewrite !fmap_app.
    apply sublist_app; [apply (Hs Buy)|apply (Hs Sell)].
  - intros s. rewrite <- earlier_ident. eapply sorted_sublist; [apply Hs|]. by rewrite earlier_ident.
  - intros x Hx. destruct (shrinks_elem _ _ _ Hs Hx) as (y & Hy & E%ident_fields).
    destruct E as (_ & _ & _ & _ & <-). by apply Hn.
Qed.

Lemma shrinks_set s l' A :
  sublist (ident <$> l') (ident <$> ab_side s A) → shrinks (ab_set s l' A) A.
Proof. intros Hl s'. by destruct s, s'. Qed.

(** What matching leaves is a shrunk book. *)
Lemma fill_queue_ident c l σ :
  let '(σ', l') := fill_queue c l σ in
  ∃ gone, f_removed σ' = f_removed σ ++ gone ∧ ident <$> l = (ident <$> gone) ++ (ident <$> l').
Proof.
  pose proof (fill_queue_shape c l σ) as Hs. destruct (fill_queue c l σ) as [σ' l'].
  destruct Hs as (gone & Er & [->|(x & q & l2 & -> & -> & _)]); exists gone; split; try done;
    by rewrite fmap_app.
Qed.
End Shrink.

(** ** The client index under the same changes *)

Section Clients.
Implicit Types (L : list Entry) (m : gmap Z ClientRestingPrices).

Lemma crp_rep_ident m L : crp_rep m (ident <$> L) ↔ crp_rep m L.
Proof.
  assert (∀ o s p, rest_count o s p (ident <$> L) = rest_count o s p L) as Hc.
  { intros o s p. induction L as [|x L IH]; [done|].
    rewrite fmap_cons, !rest_count_cons, IH. done. }
  split; intros [? ? Hcnt]; split; auto; intros; rewrite Hcnt; by rewrite Hc.
Qed.

Lemma clients_without_spec m gone L :
  crp_rep m (gone ++ L) → Z.of_nat (length (gone ++ L)) < 4294967296 →
  crp_rep (clients_without gone m) L.
Proof.
  revert m. induction gone as [|x gone IH]; intros m Hm Hl; [done|]. simpl in *.
  apply IH; [|lia]. apply (crp_unrest_spec m _ x); [done|lia].
Qed.
End Clients.

(** ** The invariant after matching *)

Section Engine.
Context {Sk : Type} `{EventSink Sk}.
Implicit Types (e : MatchingEngine Sk) (A : ABook).

(** Which STP policy the matching loop itself applies. *)
Definition stp_pulls e : bool :=
  stp_enabled (stp_ e) && bool_decide (stp_policy (stp_ e) = CancelResting).

(** The order a command carries, as the loop sees it. *)
Definition incoming_of (o : NewOrder) e : Incoming :=
  mkIncoming (new_order_side o) (new_order_id o) (new_order_owner o) (new_order_limit o) (stp_pulls e).

Lemma client_inv_without e0 e A A' gone :
  client_inv e0 A → stp_ e = stp_ e0 →
  client_resting_ e = (if stp_enabled (stp_ e0) then clients_without gone (client_resting_ e0)
                       else client_resting_ e0) →
  (ident <$> ab_entries A) ≡ₚ (ident <$> (gone ++ ab_entries A')) →
  Z.of_nat (length (ab_entries A)) < 4294967296 → client_inv e A'.
Proof.
  unfold client_inv. intros Hc Es Ec Hp Hl. rewrite Es, Ec. destruct (stp_enabled _); [|done].
  apply clients_without_spec.
  - apply crp_rep_ident. rewrite <- Hp. by apply crp_rep_ident.
  - apply Permutation_length in Hp. rewrite !length_fmap in Hp. by rewrite <- Hp.
Qed.

(** Matching keeps the invariant. *)
Lemma match_inv c e A q :
  engine_inv e A → 0 <= q < 18446744073709551616 → in_cancel c = stp_pulls e →
  ∃ e', let '(σ, l) := fill_queue c (ab_side (opposite (in_side c)) A)
                         (fills_start q (next_trade_sequence_ e)) in
    match_against_book (Ok true) (in_side c) (in_id c) (in_owner c) q (in_limit c) e =
      Ok (f_remaining σ, f_trades σ, e') ∧
    loop_rep c e e' A σ l ∧ engine_inv e' (ab_set (opposite (in_side c)) l A) ∧
    match_against_book Undefined (in_side c) (in_id c) (in_owner c) q (in_limit c) e =
      if sweeps c (ab_side (opposite (in_side c)) A) q then Undefined
      else Ok (f_remaining σ, f_trades σ, e').
Proof.
  intros [Hb Hq Ho Hc Hsq Hcap] Hr Ec. set (s := opposite (in_side c)).
  destruct (match_against_book_refines c e A q Hb Hq Hr Ec) as [e' He'].
  fold s in He'. exists e'.
  pose proof (fill_queue_remaining c (ab_side s A) (fills_start q (next_trade_sequence_ e))) as Hrem.
  pose proof (fill_queue_ident c (ab_side s A) (fills_start q (next_trade_sequence_ e))) as Hid.
  destruct (fill_queue _ _ _) as [σ l]. destruct He' as (E & Hl & Hst). destruct Hid as (gone & Er & Eid).
  simpl in Er, Hrem. destruct Hrem as [_ Hgq]; [lia|apply Forall_forall; intros x Hx; apply Hq,
    ab_entries_elem; eauto|]. rewrite Forall_forall in Hgq.
  split; [done|]. split; [done|]. split; [|done]. pose proof Hl as []. split.
  - done.
  - intros x. rewrite (ab_entries_perm s), ab_side_set_eq, ab_side_set_opp, elem_of_app.
    intros [?|?]; [by apply Hgq|]. apply Hq, ab_entries_elem. eauto.
  - rewrite lp_marks, lp_seq. eapply orders_inv_shrinks; [|done].
    apply shrinks_set. rewrite Eid. by apply sublist_inserts_l.
  - eapply (client_inv_without e _ A _ gone); try done; [by rewrite <- Er| |].
    + rewrite (ab_entries_perm s A), fmap_app, Eid, <- fmap_app, <- fmap_app.
      rewrite (ab_entries_perm s (ab_set s l A)), ab_side_set_eq, ab_side_set_opp.
      by rewrite <- app_assoc.
    + pose proof (book_capacity _ _ Hb). lia.
  - by rewrite lp_seq.
  - by rewrite lp_cap.
Qed.

(** Only fields the invariant does not read changed. *)
Lemma emit_inv e A ev : engine_inv e A → engine_inv (emit ev e) A.
Proof. intros []. by split. Qed.

(** Advancing a client's watermark past everything it has resting. *)
Lemma watermark_inv e A owner id :
  engine_inv e A → is_duplicate owner id e = false → engine_inv (set_watermark owner id e) A.
Proof.
  intros [Hb Hq [? ? Hm ? ? ?] Hc Hsq Hcap] Hd. split; try done. split; try done.
  intros x Hx. simpl. destruct (Hm x Hx) as (w & Ew & Hw).
  rewrite lookup_insert. case_decide as Eo; [|eauto]. exists id. split; [done|].
  unfold is_duplicate in Hd. rewrite Eo, Ew in Hd. apply Z.leb_gt in Hd. lia.
Qed.

(** A new order joins its price behind everything already there. *)
Lemma priority_insert_fifo s x l :
  priority_sorted s l → StronglySorted earlier l → (∀ y, y ∈ l → r_sequence y.2 < r_sequence x.2) →
  StronglySorted earlier (priority_insert s x l).
Proof.
  induction l as [|y l IH]; intros Hp Hf Hx; simpl; [repeat constructor|].
  apply StronglySorted_cons in Hp as [Hpy Hp]. pose proof Hf as [Hfy Hf']%StronglySorted_cons.
  rewrite Forall_forall in Hpy, Hfy. destruct (tree_lt s (r_price x.2) (r_price y.2)) eqn:El.
  - apply StronglySorted_cons. split; [|done]. apply Forall_forall. intros z Hz Ep.
    exfalso. apply elem_of_cons in Hz as [->|Hz]; rewrite Ep in El; [by rewrite ltb_irrefl in El|].
    rewrite (Hpy z Hz) in El. done.
  - apply StronglySorted_cons. split; [|apply IH; try done; intros z Hz; apply Hx; by constructor].
    apply Forall_forall. intros z. rewrite priority_insert_perm, elem_of_cons. intros [->|Hz]; [|auto].
    intros _. apply Hx. constructor.
Qed.

(** [orders_inv] with an order that does not cross added. *)
Lemma orders_inv_insert marks A s x :
  orders_inv marks (r_sequence x.2) A → priority_sorted s (ab_side s A) →
  0 < r_price x.2 → r_side x.2 = s →
  (∀ y, y ∈ ab_side (opposite s) A → limit_stops s (Some (r_price x.2)) (r_price y.2) = true) →
  marks !! r_owner x.2 = Some (r_id x.2) →
  (∀ y, y ∈ ab_entries A → r_owner y.2 = r_owner x.2 → r_id y.2 < r_id x.2) →
  orders_inv marks (r_sequence x.2 + 1) (ab_set s (priority_insert s x (ab_side s A)) A).
Proof.
  intros [Hp Hu Hm Hi Hf Hn] Hs Hpx Hsx Hc Hmx Hid.
  assert (ab_entries (ab_set s (priority_insert s x (ab_side s A)) A) ≡ₚ x :: ab_entries A) as Hperm.
  { rewrite (ab_entries_perm s), ab_side_set_eq, ab_side_set_opp, priority_insert_perm. simpl.
    by rewrite <- ab_entries_perm. }
  split.
  - intros y. rewrite Hperm, elem_of_cons. intros [->|?]; auto.
  - intros y z Hy Hz. destruct s; simpl in *.
    + rewrite priority_insert_perm, elem_of_cons in Hy. destruct Hy as [->|Hy]; [|auto].
      specialize (Hc z Hz). lia.
    + rewrite priority_insert_perm, elem_of_cons in Hz. destruct Hz as [->|Hz]; [|auto].
      specialize (Hc y Hy). rewrite Z.gtb_ltb in Hc. lia.
  - intros y. rewrite Hperm, elem_of_cons. intros [->|?]; [|auto]. exists (r_id x.2). auto with lia.
  - rewrite Hperm, fmap_cons. constructor; [|done]. intros (y & E & Hy)%list_elem_of_fmap.
    simplify_eq. specialize (Hid y Hy). lia.
  - intros s'. destruct (decide (s' = s)) as [->|Hne].
    + rewrite ab_side_set_eq. apply priority_insert_fifo; try done. intros y Hy. apply Hn.
      apply ab_entries_elem. eauto.
    + assert (s' = opposite s) as -> by (by destruct s, s'). by rewrite ab_side_set_opp.
  - intros y. rewrite Hperm, elem_of_cons. intros [->|Hy]; [lia|]. specialize (Hn y Hy). lia.
Qed.

Lemma index_rest_fields (o : Order) e :
  book_ (index_rest o e) = book_ e ∧ last_accepted_id_ (index_rest o e) = last_accepted_id_ e ∧
  next_sequence_ (index_rest o e) = next_sequence_ e ∧ sink_ (index_rest o e) = sink_ e ∧
  next_trade_sequence_ (index_rest o e) = next_trade_sequence_ e ∧ stp_ (index_rest o e) = stp_ e.
Proof. unfold index_rest. by destruct (stp_enabled _). Qed.

Lemma client_inv_rest (o : Order) e e' A A' slot :
  client_inv e A → client_resting_ e' = client_resting_ e → stp_ e' = stp_ e →
  ab_entries A' ≡ₚ (slot, resting_of o) :: ab_entries A →
  Z.of_nat (length (ab_entries A)) < 4294967295 → client_inv (index_rest o e') A'.
Proof.
  unfold client_inv, index_rest. intros Hc Ec Es Hp Hl. rewrite Es.
  destruct (stp_enabled (stp_ e)) eqn:En; simpl; rewrite ?Es, ?En, ?Ec; [|done].
  rewrite Hp. apply (crp_rest_spec _ _ (slot, resting_of o)); done.
Qed.

(** Resting the remainder of a limit order. *)
Lemma rest_inv (o : Order) e A :
  engine_inv e A → 0 < pool_available (book_ e) →
  0 < o_price o → 0 < o_quantity o < 18446744073709551616 →
  o_sequence o = next_sequence_ e → next_sequence_ e < 18446744073709551615 →
  (∀ y, y ∈ ab_side (opposite (o_side o)) A → limit_stops (o_side o) (Some (o_price o)) (r_price y.2) = true) →
  last_accepted_id_ e !! o_owner o = Some (o_id o) →
  (∀ y, y ∈ ab_entries A → r_owner y.2 = o_owner o → r_id y.2 < o_id o) →
  ∃ slot b', add_order o (book_ e) = Ok (Some slot, b') ∧ (slot ∉ (ab_entries A).*1) ∧
    orders_ b' = index_emplace (o_id o) slot (orders_ (book_ e)) ∧
    engine_inv (index_rest o (set_book b' (incr_sequence e)))
      (ab_set (o_side o) (priority_insert (o_side o) (slot, resting_of o) (ab_side (o_side o) A)) A).
Proof.
  intros [Hb Hq Ho Hc Hsq Hcap] Ha Hp Hqo Hseq Hmax Hcross Hm Hid.
  destruct (add_order_spec _ _ o Hb Ha) as (slot & b' & E & Hn & Hb' & Hidx & Hcap').
  exists slot, b'. split; [done|]. split; [done|]. split; [done|].
  set (x := (slot, resting_of o)). set (A' := ab_set _ _ _) in *.
  destruct (index_rest_fields o (set_book b' (incr_sequence e))) as (E1 & E2 & E3 & _ & _ & E6).
  assert (ab_entries A' ≡ₚ x :: ab_entries A) as Hperm.
  { unfold A'. rewrite (ab_entries_perm (o_side o)), ab_side_set_eq, ab_side_set_opp,
      priority_insert_perm. simpl. by rewrite <- ab_entries_perm. }
  pose proof (book_available _ _ Hb) as Hav. split.
  - by rewrite E1.
  - intros y. rewrite Hperm, elem_of_cons. intros [->|?]; [done|auto].
  - rewrite E2, E3. simpl. unfold Sequence_incr, u64_add. rewrite wrap64_small by (u64; lia).
    rewrite <- Hseq in Ho |- *. apply (orders_inv_insert _ _ _ x); try done.
    by destruct (side_rep_sorted _ _ _ _ (br_side _ _ Hb (o_side o))).
  - eapply (client_inv_rest _ e); try done. lia.
  - rewrite E3. simpl. unfold Sequence_incr, u64_add. rewrite wrap64_small; u64; lia.
  - rewrite E1. simpl. by rewrite Hcap'.
Qed.
End Engine.
