(* ===== verification/EngineRefine.v ===== *)
(** * EngineRefine: submit and cancel implement their contracts

    The contract of the input port on the abstract book: which check rejects
    an order and with which status; what an accepted order trades, leaves
    and announces; what a cancel removes.  [submit_spec] and [cancel_spec]
    show the engine's code meets it, never out of budget, and re-establishes
    [engine_inv], where an erased level reads as empty; [submit_strict] says
    on exactly which orders the standard's reading is undefined instead. *)
From S2P Require Import Prelude Core StdMap OrderPool PriceLevel OrderBook MatchingEngine.
From S2P Require Import ClientIndex MatchingSpec MatchingRefine EngineInvariant.

Section Contract.
Context {Sk : Type} `{EventSink Sk}.
Implicit Types (e : MatchingEngine Sk) (A : ABook) (o : NewOrder).

(** The checks of [submit], in the order the code makes them, with a scan of
    the opposite side in place of the index and a count in place of the free
    list. *)
Definition rejection o e A : option EngineResult :=
  if Z.eqb (new_order_quantity o) 0 then Some InvalidQuantity
  else if (match new_order_limit o with Some p => Z.leb p 0 | None => false end)
  then Some InvalidPrice
  else if is_duplicate (new_order_owner o) (new_order_id o) e then Some DuplicateOrderId
  else if stp_enabled (stp_ e) && bool_decide (stp_policy (stp_ e) = RejectIncoming) &&
          scan_self_cross (new_order_side o) (new_order_owner o) (new_order_limit o)
            (ab_side (opposite (new_order_side o)) A)
  then Some SelfTradePrevented
  else if (match o with NLimit _ => true | NMarket _ => false end) &&
          Nat.eqb (length (ab_entries A)) (capacity_ (pool_ (book_ e)))
  then Some PoolExhausted
  else None.

(** What an accepted order does to the opposite side. *)
Definition matched o e A : Fills * list Entry :=
  fill_queue (incoming_of o e) (ab_side (opposite (new_order_side o)) A)
    (fills_start (new_order_quantity o) (next_trade_sequence_ e)).

Definition accepted_event o : Event :=
  EvAccepted (mkAccepted (new_order_id o) (new_order_side o) (new_order_quantity o)
                         (default 0 (new_order_limit o))).

(** The remainder of a limit order rests in price-time priority and is
    indexed under its id, unless the id is taken; nothing else rests. *)
Definition rests o (seq : Z) (σ : Fills) A1 A' (index1 index' : gmap Z OrderPtr) : Prop :=
  match o with
  | NLimit lo =>
      if Z.ltb 0 (f_remaining σ) then
        ∃ slot, (slot ∉ (ab_entries A1).*1) ∧
          A' = ab_set (lo_side lo)
                 (priority_insert (lo_side lo)
                    (slot, mkResting (lo_id lo) (lo_side lo) (lo_price lo) (f_remaining σ) seq (lo_owner lo))
                    (ab_side (lo_side lo) A1)) A1 ∧
          index' = index_emplace (lo_id lo) slot index1
      else A' = A1 ∧ index' = index1
  | NMarket _ => A' = A1 ∧ index' = index1
  end.

(** Accepting [o] takes [e] with book [A] to [e'] with book [A']. *)
Record accepts o e A (σ : Fills) (l : list Entry) e' A' : Prop := {
  ac_inv : engine_inv e' A';
  ac_book : rests o (next_sequence_ e) σ (ab_set (opposite (new_order_side o)) l A) A'
              (index_without (f_removed σ) (orders_ (book_ e))) (orders_ (book_ e'));
  ac_sink : sink_ e' = deliver_all (accepted_event o :: f_events σ) (sink_ e);
  ac_marks : last_accepted_id_ e' = <[new_order_owner o := new_order_id o]> (last_accepted_id_ e);
  ac_tseq : next_trade_sequence_ e' = f_tseq σ;
  ac_seq : next_sequence_ e <= next_sequence_ e' <= next_sequence_ e + 1;
  ac_stp : stp_ e' = stp_ e;
  ac_cap : capacity_ (pool_ (book_ e')) = capacity_ (pool_ (book_ e)) }.

Lemma engine_sides e A s x : engine_inv e A → x ∈ ab_side s A → r_side x.2 = s.
Proof. intros Hi. apply (side_rep_sorted _ _ _ _ (br_side _ _ (ei_book _ _ Hi) s)). Qed.

Lemma engine_sorted e A s : engine_inv e A → priority_sorted s (ab_side s A).
Proof. intros Hi. apply (side_rep_sorted _ _ _ _ (br_side _ _ (ei_book _ _ Hi) s)). Qed.

(** The index-based STP check is the scan. *)
Lemma stp_rejects_scan e A side owner limit :
  engine_inv e A →
  stp_rejects side owner limit e =
  stp_enabled (stp_ e) && bool_decide (stp_policy (stp_ e) = RejectIncoming) &&
  scan_self_cross side owner limit (ab_side (opposite side) A).
Proof.
  intros Hi. unfold stp_rejects. pose proof (ei_clients _ _ Hi) as Hc. unfold client_inv in Hc.
  destruct (stp_enabled (stp_ e)); [|done]. destruct (bool_decide _); [|done]. simpl.
  apply would_self_cross_scan; [done|]. intros. by eapply engine_sides.
Qed.

Lemma pool_full e A :
  engine_inv e A →
  Z.eqb (pool_available (book_ e)) 0 = Nat.eqb (length (ab_entries A)) (capacity_ (pool_ (book_ e))).
Proof.
  intros Hi. rewrite (book_available _ _ (ei_book _ _ Hi)).
  destruct (Z.eqb_spec (Z.of_nat (capacity_ (pool_ (book_ e))) - Z.of_nat (length (ab_entries A))) 0),
    (Nat.eqb_spec (length (ab_entries A)) (capacity_ (pool_ (book_ e)))); done || lia.
Qed.

(** A rejected order changes nothing. *)
Lemma submit_rejects freed_empty o e A r :
  engine_inv e A → rejection o e A = Some r →
  submit freed_empty o e = Ok (mkResponse r [] 0 (new_order_id o), e).
Proof.
  intros Hi. unfold rejection. rewrite <- stp_rejects_scan by done.
  destruct o as [o|o]; simpl; unfold submit_limit, submit_market, reject;
    rewrite <- ?(pool_full _ _ Hi);
    repeat (match goal with |- context [if ?b then _ else _] => destruct b end); naive_solver.
Qed.

(** If the head of a sorted side does not cross, nothing behind it does. *)
Lemma stops_behind side limit (x y : Entry) :
  tree_lt (opposite side) (r_price y.2) (r_price x.2) = false →
  limit_stops side limit (r_price x.2) = true → limit_stops side limit (r_price y.2) = true.
Proof. destruct limit; [|done]. destruct side; simpl; rewrite ?Z.gtb_ltb; zb; try done; lia. Qed.

(** After matching with quantity left, the opposite side does not cross. *)
Lemma matched_uncrossed o e A :
  engine_inv e A → let '(σ, l) := matched o e A in
  0 < f_remaining σ → ∀ y, y ∈ l →
  limit_stops (new_order_side o) (new_order_limit o) (r_price y.2) = true.
Proof.
  intros Hi. unfold matched. set (s := opposite _).
  assert (Forall good_quantity (ab_side s A)) as Hq.
  { apply Forall_forall. intros x Hx. apply (ei_quantity _ _ Hi), ab_entries_elem. eauto. }
  pose proof (fill_queue_exhausts (incoming_of o e) _
    (fills_start (new_order_quantity o) (next_trade_sequence_ e)) Hq) as Hex.
  pose proof (fill_queue_ident (incoming_of o e) (ab_side s A)
    (fills_start (new_order_quantity o) (next_trade_sequence_ e))) as Hid.
  destruct (fill_queue _ _ _) as [σ l]. intros Hr y Hy. specialize (Hex Hr).
  destruct Hid as (gone & _ & Eid). destruct l as [|x l]; [by apply elem_of_nil in Hy|].
  apply elem_of_cons in Hy as [->|Hy]; [done|]. eapply stops_behind; [|done].
  pose proof (engine_sorted _ _ s Hi) as Hs.
  assert (priority_sorted s (ident <$> ab_side s A)) as Hs'.
  { revert Hs. unfold priority_sorted. generalize (ab_side s A).
    induction l0 as [|z l0 IH]; simpl; [constructor|]. rewrite !StronglySorted_cons, Forall_fmap. naive_solver. }
  rewrite Eid in Hs'. apply StronglySorted_app_1_r in Hs'. simpl in Hs'.
  apply StronglySorted_cons in Hs' as [Hf _]. rewrite Forall_fmap, Forall_forall in Hf. by apply (Hf y).
Qed.

(** Watermark, announcement and matching: the common part of an acceptance. *)
Definition announced o e : MatchingEngine Sk :=
  emit (accepted_event o) (set_watermark (new_order_owner o) (new_order_id o) e).

Lemma announced_match o e A :
  engine_inv e A → wf_new_order o → is_duplicate (new_order_owner o) (new_order_id o) e = false →
  ∃ e', let '(σ, l) := matched o e A in
    let A1 := ab_set (opposite (new_order_side o)) l A in
    match_against_book (Ok true) (new_order_side o) (new_order_id o) (new_order_owner o)
      (new_order_quantity o) (new_order_limit o) (announced o e) = Ok (f_remaining σ, f_trades σ, e') ∧
    loop_rep (incoming_of o e) (announced o e) e' A σ l ∧ engine_inv e' A1 ∧
    0 <= f_remaining σ < 18446744073709551616 ∧
    shrinks A1 A ∧ (length (ab_entries A1) <= length (ab_entries A))%nat ∧
    match_against_book Undefined (new_order_side o) (new_order_id o) (new_order_owner o)
      (new_order_quantity o) (new_order_limit o) (announced o e) =
      if sweeps (incoming_of o e) (ab_side (opposite (new_order_side o)) A) (new_order_quantity o)
      then Undefined else Ok (f_remaining σ, f_trades σ, e').
Proof.
  intros Hi (_ & _ & Hq & _) Hd. u64.
  assert (engine_inv (announced o e) A) as Hi1 by by apply emit_inv, watermark_inv.
  destruct (match_inv (incoming_of o e) (announced o e) A (new_order_quantity o) Hi1 Hq eq_refl) as [e' He'].
  exists e'. unfold matched. simpl in He'. set (s := opposite (new_order_side o)) in *.
  pose proof (fill_queue_ident (incoming_of o e) (ab_side s A)
    (fills_start (new_order_quantity o) (next_trade_sequence_ e))) as Hid.
  pose proof (fill_queue_remaining (incoming_of o e) (ab_side s A)
    (fills_start (new_order_quantity o) (next_trade_sequence_ e))) as Hrem.
  destruct (fill_queue _ _ _) as [σ l]. destruct He' as (E & Hl & Hi' & Hst), Hid as (gone & _ & Eid).
  simpl in Hrem. destruct Hrem as [Hrem _]; [lia|apply Forall_forall; intros x Hx;
    apply (ei_quantity _ _ Hi), ab_entries_elem; eauto|].
  split_and!; try done; try lia.
  - apply shrinks_set. rewrite Eid. by apply sublist_inserts_l.
  - apply (f_equal length) in Eid. rewrite length_app, !length_fmap in Eid.
    rewrite !(ab_entries_perm s), ab_side_set_eq, ab_side_set_opp, !length_app. lia.
Qed.

(** Ids the client used before are below the new one. *)
Lemma fresh_id o e A x :
  engine_inv e A → is_duplicate (new_order_owner o) (new_order_id o) e = false →
  x ∈ ab_entries A → r_owner x.2 = new_order_owner o → r_id x.2 < new_order_id o.
Proof.
  intros Hi Hd Hx Ho. destruct (oi_marks _ _ _ (ei_orders _ _ Hi) x Hx) as (w & Ew & Hw).
  unfold is_duplicate in Hd. rewrite <- Ho, Ew in Hd. apply Z.leb_gt in Hd. lia.
Qed.

Lemma submit_market_accepts (o : MarketOrder) e A :
  engine_inv e A → wf_new_order (NMarket o) → rejection (NMarket o) e A = None →
  let '(σ, l) := matched (NMarket o) e A in
  ∃ e', submit_market (Ok true) o e = Ok (mkResponse Accepted (f_trades σ) (f_remaining σ) (mo_id o), e') ∧
    accepts (NMarket o) e A σ l e' (ab_set (opposite (mo_side o)) l A).
Proof.
  intros Hi Hwf Hr. unfold rejection in Hr. simpl in Hr.
  destruct (Z.eqb (mo_quantity o) 0) eqn:Eq; [done|].
  destruct (is_duplicate (mo_owner o) (mo_id o) e) eqn:Ed; [done|].
  rewrite <- (stp_rejects_scan _ _ _ _ None Hi) in Hr. destruct (stp_rejects _ _ _ e) eqn:Es; [done|].
  destruct (announced_match (NMarket o) e A Hi Hwf Ed) as [e' He'].
  unfold submit_market. rewrite Eq, Ed, Es. destruct (matched _ e A) as [σ l].
  destruct He' as (E & Hl & Hi' & _). simpl in E. unfold announced, accepted_event in E. simpl in E.
  rewrite E. simpl. exists e'. split; [done|]. destruct Hl. split; try done; simpl in *.
  - by rewrite lp_seq; simpl; lia.
Qed.

(** The order [submit_limit] writes into the book for an unfilled remainder. *)
Definition remainder (o : LimitOrder) (qty : Z) (seq : Z) : Order :=
  mkOrder (lo_id o) (lo_side o) (lo_price o) qty seq (lo_owner o) None None None.

Lemma remainder_rests (o : LimitOrder) e A σ l e1 :
  let A1 := ab_set (opposite (lo_side o)) l A in
  let od := remainder o (f_remaining σ) (next_sequence_ e1) in
  engine_inv e A → is_duplicate (lo_owner o) (lo_id o) e = false → 0 < lo_price o →
  next_sequence_ e < 18446744073709551615 →
  (length (ab_entries A1) < capacity_ (pool_ (book_ e)))%nat → shrinks A1 A →
  loop_rep (incoming_of (NLimit o) e) (announced (NLimit o) e) e1 A σ l → engine_inv e1 A1 →
  0 < f_remaining σ < 18446744073709551616 →
  (∀ y, y ∈ l → limit_stops (lo_side o) (Some (lo_price o)) (r_price y.2) = true) →
  ∃ slot b' A', add_order od (book_ e1) = Ok (Some slot, b') ∧
    accepts (NLimit o) e A σ l (index_rest od (set_book b' (incr_sequence e1))) A'.
Proof.
  intros A1 od Hi Hd Hp Hmax Hroom Hsh [] Hi1 Hrem Hun. simpl in *.
  assert (0 < pool_available (book_ e1)) as Hav.
  { rewrite (book_available _ _ (ei_book _ _ Hi1)), lp_cap. simpl. unfold A1 in *. lia. }
  destruct (rest_inv od e1 A1 Hi1) as (slot & b' & Eadd & Hslot & Hor & Hi2); simpl; try done; try lia.
  { unfold A1. rewrite ab_side_set_eq. done. }
  { rewrite lp_marks. simpl. by rewrite lookup_insert_eq. }
  { intros y Hy Ho. destruct (shrinks_elem _ _ _ Hsh Hy) as (x & Hx & (_ & Eo & Ei & _)%ident_fields).
    rewrite <- Ei. apply (fresh_id (NLimit o) e A x); try done. simpl. congruence. }
  eexists _, _, _. split; [done|].
  destruct (index_rest_fields od (set_book b' (incr_sequence e1))) as (X1 & X2 & X3 & X4 & X5 & X6).
  split; [exact Hi2|..].
  - simpl. rewrite (proj2 (Z.ltb_lt _ _)) by lia. exists slot. split; [done|].
    rewrite X1. simpl. rewrite Hor, lp_orders. unfold od, resting_of. simpl. by rewrite lp_seq.
  - rewrite X4. simpl. by rewrite lp_sink.
  - rewrite X2. simpl. by rewrite lp_marks.
  - rewrite X5. simpl. by rewrite lp_tseq.
  - rewrite X3. simpl. pose proof (ei_sequence _ _ Hi). unfold Sequence_incr, u64_add.
    rewrite lp_seq, wrap64_small; simpl; u64; lia.
  - by rewrite X6.
  - rewrite X1. simpl.
    destruct (add_order_spec _ _ od (ei_book _ _ Hi1) Hav) as (s2 & b2 & E2 & _ & _ & _ & Ec2).
    rewrite Eadd in E2. simplify_eq. by rewrite Ec2, lp_cap.
Qed.

Lemma submit_limit_accepts (o : LimitOrder) e A :
  engine_inv e A → wf_new_order (NLimit o) → rejection (NLimit o) e A = None →
  next_sequence_ e < 18446744073709551615 →
  let '(σ, l) := matched (NLimit o) e A in
  ∃ e' A', submit_limit (Ok true) o e = Ok (mkResponse Accepted (f_trades σ) (f_remaining σ) (lo_id o), e') ∧
    accepts (NLimit o) e A σ l e' A'.
Proof.
  intros Hi Hwf Hr Hmax. unfold rejection in Hr. simpl in Hr.
  destruct (Z.eqb (lo_quantity o) 0) eqn:Eq; [done|].
  destruct (Z.leb_spec (lo_price o) 0) as [|Hp]; [done|].
  destruct (is_duplicate (lo_owner o) (lo_id o) e) eqn:Ed; [done|].
  rewrite <- (stp_rejects_scan _ _ _ _ _ Hi) in Hr. destruct (stp_rejects _ _ _ e) eqn:Es; [done|].
  destruct (Nat.eqb_spec (length (ab_entries A)) (capacity_ (pool_ (book_ e)))) as [|Hfull]; [done|].
  pose proof (book_available _ _ (ei_book _ _ Hi)) as Hav.
  pose proof (book_capacity _ _ (ei_book _ _ Hi)) as Hcap.
  pose proof (matched_uncrossed (NLimit o) e A Hi) as Hun.
  destruct (announced_match (NLimit o) e A Hi Hwf Ed) as [e1 He1].
  unfold submit_limit. rewrite Eq, (proj2 (Z.leb_gt _ _)), Ed, Es, (proj2 (Z.eqb_neq _ _)) by lia.
  destruct (matched _ e A) as [σ l]. destruct He1 as (E & Hl & Hi1 & Hrem & Hsh & Hlen & _).
  simpl in E. unfold announced, accepted_event in E. simpl in E. rewrite E. simpl.
  simpl in *. destruct (Z.ltb_spec 0 (f_remaining σ)) as [Hpos|Hdone].
  - destruct (remainder_rests o e A σ l e1 Hi Ed Hp Hmax ltac:(lia) Hsh Hl Hi1 ltac:(lia) (Hun Hpos))
      as (slot & b' & A' & Eadd & Hacc).
    change (book_ (incr_sequence e1)) with (book_ e1). unfold remainder in Eadd. rewrite Eadd. simpl.
    eexists _, A'. split; [done|exact Hacc].
  - destruct Hl. eexists _, _. split; [done|]. split; [exact Hi1|..]; try done; simpl.
    + by rewrite (proj2 (Z.ltb_ge _ _)), lp_orders by lia.
    + rewrite lp_seq. simpl. lia.
Qed.

(** [submit] meets its contract on every branch. *)
Lemma submit_spec o e A :
  engine_inv e A → wf_new_order o → next_sequence_ e < 18446744073709551615 →
  match rejection o e A with
  | Some r => submit (Ok true) o e = Ok (mkResponse r [] 0 (new_order_id o), e)
  | None =>
      let '(σ, l) := matched o e A in
      ∃ e' A', submit (Ok true) o e =
                 Ok (mkResponse Accepted (f_trades σ) (f_remaining σ) (new_order_id o), e') ∧
               accepts o e A σ l e' A'
  end.
Proof.
  intros Hi Hwf Hmax. destruct (rejection o e A) eqn:Er; [by eapply submit_rejects|].
  destruct o as [o|o]; [by apply submit_limit_accepts|].
  pose proof (submit_market_accepts o e A Hi Hwf Er) as Hm. destruct (matched _ e A) as [σ l].
  destruct Hm as (e' & E & Hacc). eauto.
Qed.

(** ** The strict reading of an erased level *)

(** The code accepts [o] and goes on to read a level it erased. *)
Definition reads_erased o e : bool :=
  let A := book_of (book_ e) in
  match rejection o e A with
  | Some _ => false
  | None => sweeps (incoming_of o e) (ab_side (opposite (new_order_side o)) A) (new_order_quantity o)
  end.

(** The two readings differ only there. *)
Lemma submit_strict o e A :
  engine_inv e A → wf_new_order o →
  submit Undefined o e = if reads_erased o e then Undefined else submit (Ok true) o e.
Proof.
  intros Hi Hwf. unfold reads_erased. rewrite (book_of_rep _ _ (ei_book _ _ Hi)). destruct (rejection o e A) eqn:Er.
  { by rewrite !(submit_rejects _ o e A _ Hi Er). }
  assert (is_duplicate (new_order_owner o) (new_order_id o) e = false) as Ed.
  { unfold rejection in Er. by destruct (Z.eqb _ 0), (match new_order_limit o with
      Some p => Z.leb p 0 | None => false end), (is_duplicate _ _ e). }
  destruct (announced_match o e A Hi Hwf Ed) as [e' He'].
  destruct (matched o e A) as [σ l]. destruct He' as (E & _ & _ & _ & _ & _ & Hst).
  destruct o as [o|o]; simpl in *; unfold submit_limit, submit_market, rejection, announced,
    accepted_event in *; simpl in *; rewrite <- (stp_rejects_scan _ _ _ _ _ Hi) in Er;
    [rewrite <- (pool_full _ _ Hi) in Er|]; rewrite Ed in Er |- *;
    repeat (match goal with H : (if ?b then _ else _) = None |- _ => destruct b; [done|] end);
    rewrite E, Hst; by destruct (sweeps _ _ _).
Qed.

(** ** Cancel *)

(** The invariant after one order is taken off. *)
Lemma remove_inv e A s l1 slot r l2 (ro : Order) :
  engine_inv e A → ab_side s A = l1 ++ (slot, r) :: l2 → resting_of ro = r →
  ∃ b, remove_order slot (book_ (index_unrest ro e)) = Ok b ∧
    orders_ b = delete (r_id r) (orders_ (book_ e)) ∧
    capacity_ (pool_ b) = capacity_ (pool_ (book_ e)) ∧
    engine_inv (set_book b (index_unrest ro e)) (ab_set s (l1 ++ l2) A).
Proof.
  intros [Hb Hq Ho Hc Hsq Hcap] El Er. destruct (index_unrest_rest ro e) as (X1 & X2 & X3 & X4 & X5).
  rewrite index_unrest_book.
  destruct (remove_order_spec _ _ _ _ _ _ _ Hb El) as (b & E & Hb' & Hor & Hcp).
  exists b. split; [done|]. split; [done|]. split; [done|].
  assert (ab_entries A ≡ₚ (slot, r) :: ab_entries (ab_set s (l1 ++ l2) A)) as Hperm.
  { rewrite !(ab_entries_perm s), ab_side_set_eq, ab_side_set_opp, El.
    rewrite <- !app_assoc. symmetry. apply Permutation_middle. }
  split; simpl; try done.
  - intros x Hx. apply Hq. rewrite Hperm. by constructor.
  - rewrite X4, X3. eapply orders_inv_shrinks; [|done]. apply shrinks_set. rewrite El, !fmap_app.
    apply sublist_app; [done|]. by apply sublist_cons.
  - eapply (client_inv_without e _ A _ [(slot, r)]); try done.
    + simpl. rewrite index_unrest_client. destruct (stp_enabled _); [|done]. simpl. by subst r.
    + by rewrite Hperm.
    + pose proof (book_capacity _ _ Hb). lia.
  - by rewrite X3.
  - by rewrite Hcp.
Qed.

(** [cancel] meets its contract: the indexed order leaves, or nothing happens. *)
Lemma cancel_spec id e A :
  engine_inv e A →
  match orders_ (book_ e) !! id with
  | None => cancel id e = Ok (mkResponse UnknownOrderId [] 0 id, e)
  | Some slot =>
      ∃ s l1 r l2 e', ab_side s A = l1 ++ (slot, r) :: l2 ∧ r_id r = id ∧
        cancel id e = Ok (mkResponse Accepted [] (r_quantity r) id, e') ∧
        engine_inv e' (ab_set s (l1 ++ l2) A) ∧
        orders_ (book_ e') = delete id (orders_ (book_ e)) ∧
        sink_ e' = deliver (sink_ e) (EvCancelled (mkCancelled id (r_quantity r) (r_side r) (r_price r))) ∧
        last_accepted_id_ e' = last_accepted_id_ e ∧ next_sequence_ e' = next_sequence_ e ∧
        next_trade_sequence_ e' = next_trade_sequence_ e ∧ stp_ e' = stp_ e ∧
        capacity_ (pool_ (book_ e')) = capacity_ (pool_ (book_ e))
  end.
Proof.
  intros Hi. unfold cancel, find_order. destruct (orders_ (book_ e) !! id) as [slot|] eqn:Ei; [|done].
  destruct (br_index _ _ (ei_book _ _ Hi) _ _ Ei) as (r & [s Hr]%ab_entries_elem & Hid).
  apply list_elem_of_split in Hr as (l1 & l2 & El).
  destruct (remove_order_tree _ _ _ _ _ _ _ (ei_book _ _ Hi) El) as (ro & _ & _ & _ & Eo & Er & _).
  destruct (remove_inv _ _ _ _ _ _ _ ro Hi El Er) as (b & E & Hor & Hcp & Hi').
  exists s, l1, r, l2. rewrite Eo. simpl. rewrite E. simpl. eexists. split; [done|]. split; [done|].
  destruct (index_unrest_rest ro e) as (X1 & X2 & X3 & X4 & X5).
  split; [by subst r|]. split; [by apply emit_inv|]. simpl.
  rewrite X1, X2, X3, X4, X5, Hor, Hid. subst r. by rewrite Hcp.
Qed.
End Contract.
