(* ===== verification/EngineTheorems.v ===== *)
(** * EngineTheorems: what the matching engine guarantees

    Engines reached from a fresh one by any sequence of commands, and the
    properties of every command on them.  The matching loop reads a level it
    has erased (see MatchingEngine).  [Undefined] is the C++ standard's
    answer to that read, [Ok true] the answer with which the most runs go
    on; [call_reads] says exactly which commands make the read, and
    [call_strict] that the two readings differ on no other.  A guarantee
    about what a command did is stated for the lenient reading, which
    includes every run of the strict one; a guarantee that a command returns
    is stated for the strict one. *)
From S2P Require Import Prelude Core StdMap OrderPool PriceLevel OrderBook MatchingEngine.
From S2P Require Import ClientIndex MatchingSpec MatchingRefine EngineInvariant EngineRefine.

(** A call on the input port. *)
Definition engine_call {Sk} `{EventSink Sk} (freed_empty : outcome bool) (c : EngineCommand)
    (e : MatchingEngine Sk) : outcome (EngineResponse * MatchingEngine Sk) :=
  match c with
  | CLimit o => submit freed_empty (NLimit o) e
  | CMarket o => submit freed_empty (NMarket o) e
  | CCancel c => cancel (cr_id c) e
  end.

(** The command makes the code read a level it has erased. *)
Definition call_reads {Sk} `{EventSink Sk} (c : EngineCommand) (e : MatchingEngine Sk) : bool :=
  match c with
  | CLimit o => reads_erased (NLimit o) e
  | CMarket o => reads_erased (NMarket o) e
  | CCancel _ => false
  end.

Definition wf_command (c : EngineCommand) : Prop :=
  match c with
  | CLimit o => wf_new_order (NLimit o)
  | CMarket o => wf_new_order (NMarket o)
  | CCancel c => in_u64 (cr_id c)
  end.

(** Engines some sequence of [n] calls leads to. *)
Inductive reachable {Sk} `{EventSink Sk} (sink : Sk) (capacity : nat) (stp : StpConfig)
    : nat → MatchingEngine Sk → Prop :=
| reach_new : reachable sink capacity stp 0 (MatchingEngine_new sink capacity stp)
| reach_call n e c r e' :
    reachable sink capacity stp n e → wf_command c → engine_call (Ok true) c e = Ok (r, e') →
    reachable sink capacity stp (S n) e'.

Section Call.
Context {Sk : Type} `{EventSink Sk}.
Implicit Types (e : MatchingEngine Sk) (A : ABook).

(** One call from an engine with the invariant. *)
Lemma call_inv e A c :
  engine_inv e A → wf_command c → next_sequence_ e < 18446744073709551615 →
  ∃ r e' A', engine_call (Ok true) c e = Ok (r, e') ∧ engine_inv e' A' ∧
    next_sequence_ e <= next_sequence_ e' <= next_sequence_ e + 1 ∧
    stp_ e' = stp_ e ∧ capacity_ (pool_ (book_ e')) = capacity_ (pool_ (book_ e)).
Proof.
  intros Hi Hwf Hmax.
  assert (∀ o, wf_new_order o → ∃ r e' A', submit (Ok true) o e = Ok (r, e') ∧ engine_inv e' A' ∧
    next_sequence_ e <= next_sequence_ e' <= next_sequence_ e + 1 ∧
    stp_ e' = stp_ e ∧ capacity_ (pool_ (book_ e')) = capacity_ (pool_ (book_ e))) as Hsub.
  { intros o Ho. pose proof (submit_spec o e A Hi Ho Hmax) as Hs.
    destruct (rejection o e A); [eexists _, e, A; split; [done|]; split_and!; done || lia|].
    destruct (matched o e A) as [σ l]. destruct Hs as (e' & A' & E & []). eexists _, e', A'. done. }
  destruct c as [o|o|[id]]; [by apply (Hsub (NLimit o))|by apply (Hsub (NMarket o))|]. simpl.
  pose proof (cancel_spec id e A Hi) as Hc. destruct (orders_ (book_ e) !! id).
  - destruct Hc as (s & l1 & r & l2 & e' & _ & _ & E & Hi' & _ & _ & _ & Eq & _ & Es & Ec).
    eexists _, e', _. split; [done|]. split; [done|]. rewrite Eq. split; [lia|done].
  - eexists _, e, A. split; [done|]. split_and!; done || lia.
Qed.

(** The readings of an erased level agree on every other command. *)
Lemma call_strict e A c :
  engine_inv e A → wf_command c →
  engine_call Undefined c e = if call_reads c e then Undefined else engine_call (Ok true) c e.
Proof.
  intros Hi Hwf. destruct c as [o|o|o]; [apply (submit_strict (NLimit o) e A Hi Hwf)
    |apply (submit_strict (NMarket o) e A Hi Hwf)|done].
Qed.
End Call.

Section Reachable.
Context {Sk : Type} `{EventSink Sk} (sink : Sk) (capacity : nat) (stp : StpConfig).
Hypothesis capacity_small : Z.of_nat capacity < 4294967296.
Implicit Types (e : MatchingEngine Sk) (A : ABook) (o : NewOrder).

Lemma new_inv : engine_inv (MatchingEngine_new sink capacity stp) (mkABook [] []).
Proof.
  split.
  - apply book_new_rep. u64. lia.
  - intros x Hx. by apply elem_of_nil in Hx.
  - split; try (intros x; intros; set_solver); [constructor|intros []; constructor].
  - unfold client_inv. simpl. destruct (stp_enabled stp); [apply crp_rep_empty|done].
  - done.
  - done.
Qed.

Lemma reachable_invariant n e :
  reachable sink capacity stp n e → Z.of_nat n < 18446744073709551615 →
  ∃ A, engine_inv e A ∧ next_sequence_ e <= Z.of_nat n ∧ stp_ e = stp ∧
    capacity_ (pool_ (book_ e)) = capacity.
Proof.
  induction 1 as [|n e c r e' Hr IH Hwf E]; intros Hn.
  - exists (mkABook [] []). split; [apply new_inv|]. split_and!; done.
  - destruct IH as (A & Hi & Hseq & Hst & Hcp); [lia|].
    destruct (call_inv e A c Hi Hwf) as (r2 & e2 & A2 & E2 & Hi2 & Hs2 & Hst2 & Hcp2); [lia|].
    rewrite E in E2. simplify_eq. exists A2. split_and!; [done|lia|congruence|congruence].
Qed.
End Reachable.

(** ** Properties of reachable engines *)

Section Guarantees.
Context {Sk : Type} `{EventSink Sk}.
Implicit Types (e : MatchingEngine Sk) (A : ABook) (o : NewOrder).

(** The engines the properties speak about: reached from a fresh engine of
    a capacity the [uint32_t] counters can count, before the [uint64_t]
    arrival counter wraps. *)
Definition live (sink : Sk) (capacity : nat) (stp : StpConfig) e : Prop :=
  ∃ n, reachable sink capacity stp n e ∧ Z.of_nat capacity < 4294967296 ∧
       Z.of_nat n < 18446744073709551615.

Lemma live_inv sink capacity stp e :
  live sink capacity stp e →
  ∃ A, engine_inv e A ∧ next_sequence_ e < 18446744073709551615 ∧ stp_ e = stp ∧
    capacity_ (pool_ (book_ e)) = capacity.
Proof.
  intros (n & Hr & Hc & Hn). destruct (reachable_invariant _ _ _ Hc _ _ Hr Hn) as (A & Hi & Hs & ? & ?).
  exists A. split_and!; try done. lia.
Qed.

(** The accepted case of [submit], opened. *)
Lemma submit_accepted o e A r e' :
  engine_inv e A → next_sequence_ e < 18446744073709551615 → wf_new_order o →
  submit (Ok true) o e = Ok (r, e') → status r = Accepted →
  rejection o e A = None ∧ ∃ A', let '(σ, l) := matched o e A in
    r = mkResponse Accepted (f_trades σ) (f_remaining σ) (new_order_id o) ∧ accepts o e A σ l e' A'.
Proof.
  intros Hi Hs Hwf E Hst. pose proof (submit_spec o e A Hi Hwf Hs) as Hsp.
  destruct (rejection o e A) as [rr|] eqn:Er.
  - exfalso. rewrite Hsp in E. simplify_eq. simpl in Hst. subst rr. unfold rejection in Er.
    repeat (match goal with H : context [if ?b then _ else _] |- _ => destruct b end); done.
  - split; [done|]. destruct (matched o e A) as [σ l]. destruct Hsp as (e2 & A' & E2 & Ha).
    exists A'. rewrite E in E2. by simplify_eq.
Qed.

Lemma matched_good o e A :
  engine_inv e A → Forall good_quantity (ab_side (opposite (new_order_side o)) A).
Proof.
  intros Hi. apply Forall_forall. intros x Hx. apply (ei_quantity _ _ Hi), ab_entries_elem. eauto.
Qed.

(** C1. Refinement: on every live engine, [submit] is the price-time priority
    specification.  The engine's trees, lists, pool and counters represent the
    abstract book [book_of] computes from them.  The order is rejected with
    exactly the first failing check of the contract and without any effect;
    or it is matched against the opposite side as [fill_queue] says, its
    remainder rests in priority order, the events are delivered in order and
    the invariant holds again.  Under the C++ standard's reading of an erased
    level ([Undefined]) this is so for every order but those that [sweeps]
    describes, which take the last order at a price with quantity left: the
    call is undefined on exactly these. *)
Theorem submit_refines_priority_spec sink capacity stp e o :
  live sink capacity stp e → wf_new_order o →
  let A := book_of (book_ e) in
  engine_inv e A ∧
  match rejection o e A with
  | Some r => ∀ freed_empty, submit freed_empty o e = Ok (mkResponse r [] 0 (new_order_id o), e)
  | None =>
      let '(σ, l) := matched o e A in
      let r := mkResponse Accepted (f_trades σ) (f_remaining σ) (new_order_id o) in
      ∃ e' A', accepts o e A σ l e' A' ∧
        submit Undefined o e =
          (if sweeps (incoming_of o e) (ab_side (opposite (new_order_side o)) A) (new_order_quantity o)
           then Undefined else Ok (r, e')) ∧
        submit (Ok true) o e = Ok (r, e')
  end.
Proof.
  intros (A & Hi & Hs & _)%live_inv Hwf. cbv zeta.
  pose proof (submit_strict o e A Hi Hwf) as Hst. unfold reads_erased in Hst.
  rewrite (book_of_rep _ _ (ei_book _ _ Hi)) in *. split; [done|].
  pose proof (submit_spec o e A Hi Hwf Hs) as Hsp. destruct (rejection o e A) eqn:Er.
  - intros f. by eapply submit_rejects.
  - destruct (matched o e A) as [σ l]. destruct Hsp as (e' & A' & E & Ha). exists e', A'.
    by rewrite Hst, E.
Qed.

(** C2. Termination and memory safety: under the C++ standard's reading of an
    erased level, every well-formed command on a live engine returns a
    response and an engine with the invariant, except an accepted order that
    takes the last order at a price with quantity left ([call_reads], computed
    from the engine), on which the code is undefined.  No other command has a
    null, dangling or type-confused access, and none, under either reading,
    exhausts its loop budget. *)
Theorem commands_return sink capacity stp e c :
  live sink capacity stp e → wf_command c →
  ∃ r e' A', engine_inv e' A' ∧
    engine_call Undefined c e = (if call_reads c e then Undefined else Ok (r, e')) ∧
    engine_call (Ok true) c e = Ok (r, e').
Proof.
  intros (A & Hi & Hs & _)%live_inv Hwf.
  destruct (call_inv e A c Hi Hwf Hs) as (r & e' & A' & E & Hi' & _).
  exists r, e', A'. by rewrite (call_strict e A c Hi Hwf), E.
Qed.

(** C5. Invariant: the book of a live engine is never crossed or locked. *)
Theorem book_never_crossed sink capacity stp e b a :
  live sink capacity stp e → best_bid (book_ e) = Some b → best_ask (book_ e) = Some a →
  b.2 < a.2.
Proof.
  intros (A & Hi & _)%live_inv. unfold best_bid, best_ask.
  rewrite !(best_level_spec _ A) by apply Hi. simpl.
  pose proof (oi_uncrossed _ _ _ (ei_orders _ _ Hi)) as Hu.
  destruct (ab_bids A) as [|x ?], (ab_asks A) as [|y ?]; try done. intros. simplify_eq. simpl.
  apply Hu; constructor.
Qed.

(** C6. Conservation: what an accepted order traded plus what it has left is
    what it asked for. *)
Theorem submit_conserves_quantity sink capacity stp e o r e' :
  live sink capacity stp e → wf_new_order o →
  submit (Ok true) o e = Ok (r, e') → status r = Accepted →
  trade_quantity (trades r) + remaining_qty r = new_order_quantity o ∧
  0 <= remaining_qty r ∧ Forall (λ t, 0 < t_quantity t) (trades r).
Proof.
  intros (A & Hi & Hs & _)%live_inv Hwf E Hst.
  destruct (submit_accepted _ _ _ _ _ Hi Hs Hwf E Hst) as (_ & A' & Ha). revert Ha. unfold matched.
  set (σ0 := fills_start _ _). pose proof (matched_good o e A Hi) as Hg.
  pose proof (fill_queue_conserves (incoming_of o e) (ab_side (opposite (new_order_side o)) A) σ0) as Hc.
  pose proof (fill_queue_positive (incoming_of o e) _ σ0 Hg ltac:(constructor)) as Hp.
  pose proof (λ H0, fill_queue_remaining (incoming_of o e) _ σ0 H0 Hg) as Hr.
  destruct (fill_queue _ _ σ0) as [σ l]. destruct Hwf as (_ & _ & Hq & _). u64.
  destruct Hr as [Hr _]; [simpl; lia|]. intros [-> _].
  unfold σ0, trade_quantity in *. simpl in *. split; [lia|]. split; [lia|done].
Qed.

Lemma submit_trades_accepted o e A r e' t :
  engine_inv e A → next_sequence_ e < 18446744073709551615 → wf_new_order o →
  submit (Ok true) o e = Ok (r, e') → t ∈ trades r → status r = Accepted.
Proof.
  intros Hi Hs Hwf E Ht. pose proof (submit_spec o e A Hi Hwf Hs) as Hsp. destruct (rejection _ e A).
  - rewrite E in Hsp. simplify_eq. by apply elem_of_nil in Ht.
  - destruct (matched _ e A). destruct Hsp as (? & ? & E2 & _). rewrite E in E2. by simplify_eq.
Qed.

(** Every trade is with an order that rested on the other side at a price
    that crosses, and that STP allows. *)
Lemma submit_counterparty o e A r e' t :
  engine_inv e A → next_sequence_ e < 18446744073709551615 → wf_new_order o →
  submit (Ok true) o e = Ok (r, e') → t ∈ trades r →
  ∃ x, x ∈ ab_side (opposite (new_order_side o)) A ∧ t_price t = r_price x.2 ∧
    t_quantity t <= r_quantity x.2 ∧
    limit_stops (new_order_side o) (new_order_limit o) (r_price x.2) = false ∧
    match new_order_side o with Buy => sell_order_id t | Sell => buy_order_id t end = r_id x.2 ∧
    match new_order_side o with Buy => buy_order_id t | Sell => sell_order_id t end = new_order_id o ∧
    (stp_enabled (stp_ e) = true → r_owner x.2 ≠ new_order_owner o).
Proof.
  intros Hi Hs Hwf E Ht. pose proof (submit_trades_accepted _ _ _ _ _ _ Hi Hs Hwf E Ht) as Hst.
  destruct (submit_accepted _ _ _ _ _ Hi Hs Hwf E Hst) as (Hrej & A' & Ha). revert Ha. unfold matched.
  pose proof (fill_queue_prices (incoming_of o e) (ab_side (opposite (new_order_side o)) A)
    (fills_start (new_order_quantity o) (next_trade_sequence_ e))) as Hp.
  destruct (fill_queue _ _ _) as [σ l]. destruct Hp as (ts & Ets & Hf). simpl in Ets.
  intros [-> _]. simpl in Ht. rewrite Ets, Forall_forall in *.
  destruct (Hf t Ht) as [Hl (x & Hx & Hpr & Hown & Hq & Hid1 & Hid2)]. exists x. rewrite Hpr in Hl.
  split_and!; try done. intros Hen Heq. unfold is_own in Hown. simpl in Hown. rewrite Heq, Z.eqb_refl in Hown.
  unfold stp_pulls in Hown. rewrite Hen in Hown. simpl in Hown. rewrite andb_true_r in Hown.
  apply bool_decide_eq_false in Hown. unfold rejection in Hrej.
  repeat (match goal with H : (if ?b then _ else _) = None |- _ => destruct b eqn:?; try discriminate H end).
  rewrite Hen, bool_decide_true in Heqb2 by (by destruct (stp_policy (stp_ e))). simpl in Heqb2.
  apply not_true_iff_false in Heqb2. apply Heqb2. unfold scan_self_cross. apply existsb_exists.
  exists x. split; [by apply list_elem_of_In|]. simpl in Hl. by rewrite Heq, Z.eqb_refl, Hl.
Qed.

(** C7. Price protection: an accepted limit order trades only at its limit or
    better, always at the resting order's price. *)
Theorem trades_respect_limit sink capacity stp e lo r e' t :
  live sink capacity stp e → wf_new_order (NLimit lo) →
  submit (Ok true) (NLimit lo) e = Ok (r, e') → t ∈ trades r →
  match lo_side lo with Buy => t_price t <= lo_price lo | Sell => lo_price lo <= t_price t end.
Proof.
  intros (A & Hi & Hs & _)%live_inv Hwf E Ht.
  destruct (submit_counterparty _ _ _ _ _ _ Hi Hs Hwf E Ht) as (x & _ & -> & _ & Hl & _).
  simpl in Hl. destruct (lo_side lo); simpl in Hl; rewrite ?Z.gtb_ltb in Hl; lia.
Qed.

(** C8. Self-trade prevention: with STP enabled, under either policy, no trade
    of a submit is against a resting order of the same owner. *)
Theorem no_self_trade sink capacity stp e o r e' t :
  live sink capacity stp e → wf_new_order o → stp_enabled stp = true →
  submit (Ok true) o e = Ok (r, e') → t ∈ trades r →
  ∃ A x, engine_inv e A ∧ x ∈ ab_side (opposite (new_order_side o)) A ∧
    r_id x.2 = match new_order_side o with Buy => sell_order_id t | Sell => buy_order_id t end ∧
    r_price x.2 = t_price t ∧ r_owner x.2 ≠ new_order_owner o.
Proof.
  intros (A & Hi & Hs & Hst & _)%live_inv Hwf Hen E Ht. exists A.
  destruct (submit_counterparty _ _ _ _ _ _ Hi Hs Hwf E Ht) as (x & Hx & Hp & _ & _ & Hid & _ & Ho).
  exists x. rewrite Hst in Ho. split_and!; auto.
Qed.

(** C9. Price-time priority is an invariant of the book: each side lists the
    best price first, and orders at one price by strictly increasing arrival
    sequence. *)
Theorem book_in_priority_order sink capacity stp e :
  live sink capacity stp e →
  ∃ A, book_rep (book_ e) A ∧
    ∀ s, priority_sorted s (ab_side s A) ∧ StronglySorted earlier (ab_side s A).
Proof.
  intros (A & Hi & _)%live_inv. exists A. split; [apply Hi|]. intros s.
  split; [by apply (engine_sorted e)|]. apply (oi_fifo _ _ _ (ei_orders _ _ Hi)).
Qed.

(** C11. Equivalence: the constant-time self-cross test on the per-client index
    answers exactly as a scan of the opposite side of the book. *)
Theorem self_cross_index_is_scan sink capacity stp e side owner limit :
  live sink capacity stp e → stp_enabled stp = true →
  ∃ A, book_rep (book_ e) A ∧
    would_self_cross side owner limit e = scan_self_cross side owner limit (ab_side (opposite side) A).
Proof.
  intros (A & Hi & _ & Hst & _)%live_inv Hen. exists A. split; [apply Hi|].
  apply would_self_cross_scan; [|intros; by eapply engine_sides].
  pose proof (ei_clients _ _ Hi) as Hc. unfold client_inv in Hc. by rewrite Hst, Hen in Hc.
Qed.

(** A rejected submit has no effect at all: same engine (book, watermarks,
    indexes, counters, sink), no trades.  No invariant is needed. *)
Theorem rejected_submit_no_effect freed_empty o e r e' :
  submit freed_empty o e = Ok (r, e') → status r ≠ Accepted →
  e' = e ∧ trades r = [] ∧ remaining_qty r = 0 ∧ order_id r = new_order_id o.
Proof.
  intros [Hid Hr]%submit_not_accepted Hst. destruct (Hr Hst) as (? & ? & ?). done.
Qed.

(** A market order never rests: afterwards the book holds only orders it
    held before, each at most as large, and no more of them. *)
Theorem market_never_rests sink capacity stp e mo r e' :
  live sink capacity stp e → wf_new_order (NMarket mo) →
  submit (Ok true) (NMarket mo) e = Ok (r, e') →
  ∃ A A', engine_inv e A ∧ engine_inv e' A' ∧ shrinks A' A ∧
    order_count (book_ e') <= order_count (book_ e).
Proof.
  intros (A & Hi & Hs & _)%live_inv Hwf E. exists A.
  pose proof (submit_spec (NMarket mo) e A Hi Hwf Hs) as Hsp. destruct (rejection _ e A).
  - rewrite E in Hsp. simplify_eq. exists A. split_and!; try done. intros ?; done.
  - unfold matched in Hsp. simpl in Hsp.
    pose proof (fill_queue_ident (incoming_of (NMarket mo) e) (ab_side (opposite (mo_side mo)) A)
      (fills_start (mo_quantity mo) (next_trade_sequence_ e))) as Hid.
    destruct (fill_queue _ _ _) as [σ l]. destruct Hsp as (e2 & A' & E2 & []). simpl in E. rewrite E in E2. simplify_eq.
    destruct Hid as (gone & _ & Eid). destruct ac_book as [-> _]. exists (ab_set (opposite (mo_side mo)) l A).
    split_and!; try done; [apply shrinks_set; rewrite Eid; by apply sublist_inserts_l|].
    unfold order_count. rewrite (br_count _ _ (ei_book _ _ ac_inv)), (br_count _ _ (ei_book _ _ Hi)).
    apply (f_equal length) in Eid. rewrite length_app, !length_fmap in Eid.
    rewrite !(ab_entries_perm (opposite (mo_side mo))), ab_side_set_eq, ab_side_set_opp, !length_app.
    simpl in *. lia.
Qed.
End Guarantees.
