(* ===== verification/CancelTheorems.v ===== *)
(** * CancelTheorems: the OrderId index and cancel

    order_book.hpp requires of [add_order] that the id is not already in the
    book.  Under that precondition the index finds every resting order and
    cancel removes exactly the order asked for; the last section shows what
    the engine does without it. *)
From S2P Require Import Prelude Core StdMap OrderPool PriceLevel OrderBook MatchingEngine.
From S2P Require Import ClientIndex MatchingSpec MatchingRefine EngineInvariant EngineRefine EngineTheorems.

(** Every resting order is indexed under its id. *)
Definition index_complete {Sk} (e : MatchingEngine Sk) (A : ABook) : Prop :=
  ∀ x, x ∈ ab_entries A → find_order (r_id x.2) (book_ e) = Some x.1.

(** The precondition of [add_order], as a test on the command. *)
Definition id_unused {Sk} (c : EngineCommand) (e : MatchingEngine Sk) : Prop :=
  match c with
  | CLimit o => find_order (lo_id o) (book_ e) = None
  | CMarket _ | CCancel _ => True
  end.

(** Calls that respect it. *)
Inductive reachable_unique {Sk} `{EventSink Sk} (sink : Sk) (capacity : nat) (stp : StpConfig)
    : nat → MatchingEngine Sk → Prop :=
| unique_new : reachable_unique sink capacity stp 0 (MatchingEngine_new sink capacity stp)
| unique_call n e c r e' :
    reachable_unique sink capacity stp n e → wf_command c → id_unused c e →
    engine_call (Ok true) c e = Ok (r, e') →
    reachable_unique sink capacity stp (S n) e'.

Section Index.
Context {Sk : Type} `{EventSink Sk}.
Implicit Types (e : MatchingEngine Sk) (A : ABook) (o : NewOrder).

Lemma index_without_lookup gone (m : gmap Z OrderPtr) id :
  (∀ x, x ∈ gone → r_id x.2 ≠ id) → index_without gone m !! id = m !! id.
Proof.
  revert m. induction gone as [|x gone IH]; intros m Hx; [done|].
  change (index_without (x :: gone) m) with (index_without gone (delete (r_id x.2) m)).
  rewrite IH by (intros; apply Hx; by constructor).
  apply lookup_delete_ne. apply Hx. constructor.
Qed.

Lemma index_without_none gone (m : gmap Z OrderPtr) id :
  m !! id = None → index_without gone m !! id = None.
Proof.
  revert m. induction gone as [|x gone IH]; intros m Hx; [done|]. simpl. apply IH.
  rewrite lookup_delete. by case_decide.
Qed.

(** Removing entries together with their ids keeps the index complete. *)
Lemma index_complete_without e A A' gone :
  book_rep (book_ e) A → index_complete e A →
  (ident <$> ab_entries A) ≡ₚ (ident <$> (gone ++ ab_entries A')) →
  ∀ y, y ∈ ab_entries A' → index_without gone (orders_ (book_ e)) !! r_id y.2 = Some y.1.
Proof.
  intros Hb Hc Hp y Hy.
  assert (∀ z, z ∈ gone ++ ab_entries A' → find_order (r_id z.2) (book_ e) = Some z.1) as Hz.
  { intros z Hz. assert (ident z ∈ ident <$> ab_entries A) as (x & E & Hx)%list_elem_of_fmap.
    { rewrite Hp. by apply list_elem_of_fmap_2. }
    apply Hc in Hx. unfold ident, rest_set_quantity in E. simplify_eq. congruence. }
  rewrite index_without_lookup; [apply Hz; set_solver|]. intros x Hx Eid.
  assert (x.1 = y.1) as Es.
  { pose proof (Hz x ltac:(set_solver)) as E1. pose proof (Hz y ltac:(set_solver)) as E2.
    rewrite Eid in E1. rewrite E1 in E2. by simplify_eq. }
  pose proof (book_nodup _ _ Hb) as Hnd.
  assert ((ab_entries A).*1 = (ident <$> ab_entries A).*1) as Ef by by rewrite <- list_fmap_compose.
  rewrite Ef, Hp, <- list_fmap_compose, fmap_app in Hnd. apply NoDup_app in Hnd as (_ & Hd & _).
  apply (Hd x.1); [by apply (list_elem_of_fmap_2 (fst ∘ ident))|].
  rewrite Es. by apply (list_elem_of_fmap_2 (fst ∘ ident)).
Qed.

Lemma accepts_complete o e A σ l e' A' :
  engine_inv e A → index_complete e A →
  match o with NLimit lo => find_order (lo_id lo) (book_ e) = None | NMarket _ => True end →
  matched o e A = (σ, l) → accepts o e A σ l e' A' → index_complete e' A'.
Proof.
  intros Hi Hc Hu Em Ha. set (s := opposite (new_order_side o)) in *.
  set (A1 := ab_set s l A).
  assert ((ident <$> ab_entries A) ≡ₚ (ident <$> (f_removed σ ++ ab_entries A1))) as Hp.
  { pose proof (fill_queue_ident (incoming_of o e) (ab_side s A)
      (fills_start (new_order_quantity o) (next_trade_sequence_ e))) as Hid.
    fold s in Em. unfold matched in Em. fold s in Em. rewrite Em in Hid. simpl in Hid.
    destruct Hid as (gone & -> & Eid). unfold A1.
    rewrite (ab_entries_perm s A), fmap_app, Eid, <- !fmap_app.
    rewrite (ab_entries_perm s (ab_set s l A)), ab_side_set_eq, ab_side_set_opp. by rewrite <- app_assoc. }
  pose proof (index_complete_without e A A1 (f_removed σ) (ei_book _ _ Hi) Hc Hp) as H1.
  pose proof (ac_book _ _ _ _ _ _ _ Ha) as Hr. fold s A1 in Hr. unfold rests in Hr.
  assert (A' = A1 ∧ orders_ (book_ e') = index_without (f_removed σ) (orders_ (book_ e)) →
          index_complete e' A') as Hsame.
  { intros [-> Eo] y Hy. unfold find_order. rewrite Eo. by apply H1. }
  destruct o as [lo|mo]; [|auto]. destruct (Z.ltb _ _); [|auto].
  destruct Hr as (slot & _ & -> & Eo). intros y. unfold find_order. rewrite Eo.
  rewrite (ab_entries_perm (lo_side lo)), ab_side_set_eq, ab_side_set_opp, priority_insert_perm. simpl.
  rewrite <- ab_entries_perm, elem_of_cons. unfold index_emplace.
  rewrite (index_without_none _ _ (lo_id lo) Hu). intros [->|Hy]; simpl; [by rewrite lookup_insert_eq|].
  rewrite lookup_insert_ne; [by apply H1|]. intros E. apply H1 in Hy.
  rewrite <- E, (index_without_none _ _ (lo_id lo) Hu) in Hy. done.
Qed.

(** What cancel does, with the order it finds identified by its slot. *)
Lemma cancel_complete id e A :
  engine_inv e A → index_complete e A →
  ∀ r e', cancel id e = Ok (r, e') → ∃ A', engine_inv e' A' ∧ index_complete e' A'.
Proof.
  intros Hi Hc r e' E. pose proof (cancel_spec id e A Hi) as Hs.
  destruct (orders_ (book_ e) !! id) as [slot|] eqn:Eo.
  - destruct Hs as (s & l1 & x & l2 & e2 & El & Hid & E2 & Hi2 & Eor & _). rewrite E in E2. simplify_eq.
    exists (ab_set s (l1 ++ l2) A). split; [done|]. intros y Hy. unfold find_order. rewrite Eor.
    apply (index_complete_without e A (ab_set s (l1 ++ l2) A) [(slot, x)]); try done; [apply Hi|].
    rewrite !(ab_entries_perm s), ab_side_set_eq, ab_side_set_opp, El. simpl. rewrite <- !app_assoc. simpl.
    by rewrite <- Permutation_middle.
  - rewrite E in Hs. simplify_eq. eauto.
Qed.

Lemma call_complete e A c r e' :
  engine_inv e A → index_complete e A → wf_command c → id_unused c e →
  next_sequence_ e < 18446744073709551615 → engine_call (Ok true) c e = Ok (r, e') →
  ∃ A', engine_inv e' A' ∧ index_complete e' A'.
Proof.
  intros Hi Hc Hwf Hu Hs E.
  assert (∀ o, wf_new_order o → submit (Ok true) o e = Ok (r, e') →
    match o with NLimit lo => find_order (lo_id lo) (book_ e) = None | NMarket _ => True end →
    ∃ A', engine_inv e' A' ∧ index_complete e' A') as Hsub.
  { intros o Ho Es Huo. pose proof (submit_spec o e A Hi Ho Hs) as Hsp.
    destruct (rejection o e A); [rewrite Es in Hsp; simplify_eq; eauto|].
    destruct (matched o e A) as [σ l] eqn:Em. destruct Hsp as (e2 & A2 & E2 & Ha).
    rewrite Es in E2. simplify_eq. exists A2. split; [apply Ha|]. by eapply accepts_complete. }
  destruct c as [o|o|[id]].
  - by apply (Hsub (NLimit o)).
  - by apply (Hsub (NMarket o)).
  - by eapply cancel_complete.
Qed.

Lemma unique_reachable sink capacity stp n e :
  reachable_unique sink capacity stp n e → reachable sink capacity stp n e.
Proof. induction 1; [constructor|by econstructor]. Qed.

Lemma unique_complete sink capacity stp n e :
  Z.of_nat capacity < 4294967296 → Z.of_nat n < 18446744073709551615 →
  reachable_unique sink capacity stp n e → ∃ A, engine_inv e A ∧ index_complete e A.
Proof.
  intros Hc Hn Hr. induction Hr as [|n e c r e' Hr IH Hwf Hu E].
  - exists (mkABook [] []). split; [by apply new_inv|]. intros x Hx. by apply elem_of_nil in Hx.
  - destruct IH as (A & Hi & Hco); [lia|].
    destruct (reachable_invariant _ _ _ Hc _ _ (unique_reachable _ _ _ _ _ Hr)) as (A0 & _ & Hsq & _); [lia|].
    eapply call_complete; try done. lia.
Qed.

(** C10. Cancel is correct while ids are unique among resting orders: every
    resting order is found by its id; cancelling that id reports its
    remaining quantity, announces it, and removes it and nothing else. *)
Theorem cancel_removes_the_order sink capacity stp n e :
  reachable_unique sink capacity stp n e →
  Z.of_nat capacity < 4294967296 → Z.of_nat n < 18446744073709551615 →
  ∃ A, engine_inv e A ∧ ∀ slot r, (slot, r) ∈ ab_entries A →
    ∃ l1 l2 e', ab_side (r_side r) A = l1 ++ (slot, r) :: l2 ∧
      cancel (r_id r) e = Ok (mkResponse Accepted [] (r_quantity r) (r_id r), e') ∧
      engine_inv e' (ab_set (r_side r) (l1 ++ l2) A) ∧
      sink_ e' = deliver (sink_ e)
        (EvCancelled (mkCancelled (r_id r) (r_quantity r) (r_side r) (r_price r))) ∧
      find_order (r_id r) (book_ e') = None.
Proof.
  intros Hr Hc Hn. destruct (unique_complete _ _ _ _ _ Hc Hn Hr) as (A & Hi & Hco).
  exists A. split; [done|]. intros slot r Hin. pose proof (Hco _ Hin) as Hf. unfold find_order in Hf.
  simpl in Hf. pose proof (cancel_spec (r_id r) e A Hi) as Hs. rewrite Hf in Hs.
  destruct Hs as (s & l1 & r' & l2 & e' & El & Hid & E & Hi' & Eo & Es & _).
  assert (r' = r) as ->.
  { assert ((slot, r') ∈ ab_entries A) as Hin' by (apply ab_entries_elem; exists s; rewrite El; set_solver).
    pose proof (book_nodup _ _ (ei_book _ _ Hi)) as Hnd.
    apply list_elem_of_lookup in Hin as [i Hin], Hin' as [j Hin'].
    assert (i = j) as ->; [|congruence].
    eapply (NoDup_lookup _ i j slot Hnd); rewrite list_lookup_fmap; by rewrite ?Hin, ?Hin'. }
  assert (r_side r = s) as Hsd.
  { apply (engine_sides e A s (slot, r) Hi). rewrite El. set_solver. }
  rewrite Hsd. exists l1, l2, e'. split_and!; try done.
  - rewrite Es, Hsd. done.
  - unfold find_order. by rewrite Eo, lookup_delete_eq.
Qed.

Lemma split_unique (l1 l2 k1 k2 : list Entry) slot r r' :
  NoDup (l1 ++ (slot, r) :: l2).*1 → l1 ++ (slot, r) :: l2 = k1 ++ (slot, r') :: k2 →
  l1 = k1 ∧ r = r' ∧ l2 = k2.
Proof.
  revert k1. induction l1 as [|x l1 IH]; intros [|y k1]; simpl.
  - intros _ ?. by simplify_eq.
  - intros [Hn _]%NoDup_cons E. simplify_eq. destruct Hn. simpl.
    rewrite fmap_app, elem_of_app. right. by left.
  - intros [Hn _]%NoDup_cons E. simplify_eq. destruct Hn. simpl.
    rewrite fmap_app, elem_of_app. right. by left.
  - intros [_ Hn]%NoDup_cons E. simplify_eq. destruct (IH k1) as (-> & -> & ->); done.
Qed.

Lemma priority_insert_around s x l : ∃ l1 l2, l = l1 ++ l2 ∧ priority_insert s x l = l1 ++ x :: l2.
Proof.
  induction l as [|y l IH]; simpl; [by exists [], []|].
  destruct (tree_lt _ _ _); [by exists [], (y :: l)|].
  destruct IH as (l1 & l2 & -> & ->). by exists (y :: l1), l2.
Qed.

(** Round trip: a limit order that was accepted with quantity left over
    can be cancelled at once; the cancel reports exactly the remainder the
    submit reported, and leaves the book matching had left before the
    remainder rested. *)
Theorem submit_then_cancel sink capacity stp n e lo r e' :
  reachable_unique sink capacity stp n e →
  Z.of_nat capacity < 4294967296 → Z.of_nat n < 18446744073709551615 →
  wf_new_order (NLimit lo) → find_order (lo_id lo) (book_ e) = None →
  submit (Ok true) (NLimit lo) e = Ok (r, e') → status r = Accepted → 0 < remaining_qty r →
  ∃ A e'', engine_inv e A ∧
    cancel (lo_id lo) e' = Ok (mkResponse Accepted [] (remaining_qty r) (lo_id lo), e'') ∧
    engine_inv e'' (ab_set (opposite (lo_side lo)) (matched (NLimit lo) e A).2 A).
Proof.
  intros Hr Hc Hn Hwf Hu E Hst Hrem. destruct (unique_complete _ _ _ _ _ Hc Hn Hr) as (A & Hi & Hco).
  destruct (reachable_invariant _ _ _ Hc _ _ (unique_reachable _ _ _ _ _ Hr) Hn) as (_ & _ & Hsq & _).
  destruct (submit_accepted _ _ _ _ _ Hi ltac:(lia) Hwf E Hst) as (_ & A' & Ha). exists A.
  destruct (matched (NLimit lo) e A) as [σ l] eqn:Em. destruct Ha as [-> Ha]. simpl in *.
  pose proof (accepts_complete (NLimit lo) _ _ _ _ _ _ Hi Hco Hu Em Ha) as Hco'. destruct Ha.
  simpl in ac_book. rewrite (proj2 (Z.ltb_lt _ _)) in ac_book by lia.
  destruct ac_book as (slot & _ & -> & _). set (x := mkResting _ _ _ _ _ _) in *.
  set (A1 := ab_set (opposite (lo_side lo)) l A) in *.
  destruct (priority_insert_around (lo_side lo) (slot, x) (ab_side (lo_side lo) A1)) as (l1 & l2 & El & Ei).
  assert ((slot, x) ∈ ab_entries (ab_set (lo_side lo) (l1 ++ (slot, x) :: l2) A1)) as Hin.
  { apply ab_entries_elem. exists (lo_side lo). rewrite ab_side_set_eq. set_solver. }
  rewrite Ei in *. pose proof (Hco' _ Hin) as Hf. unfold find_order in Hf. simpl in Hf.
  pose proof (cancel_spec (lo_id lo) e' _ ac_inv) as Hcs. rewrite Hf in Hcs.
  destruct Hcs as (s & k1 & y & k2 & e'' & Ek & Hid & Ec & Hi2 & _).
  assert (s = lo_side lo) as ->.
  { destruct (decide (s = lo_side lo)) as [|Hne]; [done|exfalso].
    assert (s = opposite (lo_side lo)) as -> by (by destruct s, (lo_side lo)).
    pose proof (book_nodup _ _ (ei_book _ _ ac_inv)) as Hnd.
    rewrite (ab_entries_perm (lo_side lo)), fmap_app, NoDup_app in Hnd. destruct Hnd as (_ & Hd & _).
    apply (Hd slot); [rewrite ab_side_set_eq|rewrite Ek]; set_solver. }
  pose proof (book_side_nodup _ _ (lo_side lo) (ei_book _ _ ac_inv)) as Hnd.
  rewrite ab_side_set_eq in Ek, Hnd. destruct (split_unique _ _ _ _ _ _ _ Hnd Ek) as (<- & <- & <-).
  exists e''. split; [done|]. split; [done|]. rewrite ab_set_set, <- El, ab_set_id in Hi2. done.
Qed.
End Index.

(** ** Ids shared by two clients

    The watermark check is per client, so two clients may rest orders with
    one id: the second [add_order] breaks its precondition. *)

Definition shared_id_run : outcome (list EngineResponse * MatchingEngine (list Event)) :=
  let e := MatchingEngine_new [] 8 StpConfig_default in
  '(r1, e) ← submit (Ok true) (NLimit (mkLimit 7 Buy 100 5 1)) e;
  '(r2, e) ← submit (Ok true) (NLimit (mkLimit 7 Buy 90 6 2)) e;
  '(r3, e) ← cancel 7 e;
  '(r4, e) ← cancel 7 e;
  Ok ([r1; r2; r3; r4], e).

(** Both orders are accepted; the first cancel of id 7 removes client 1's
    order whoever sent it, the second reports an unknown id, and client 2's
    order is still in the book: it can no longer be cancelled. *)
Theorem shared_id_order_uncancellable :
  ∃ e, shared_id_run = Ok ([mkResponse Accepted [] 5 7; mkResponse Accepted [] 6 7;
                            mkResponse Accepted [] 5 7; mkResponse UnknownOrderId [] 0 7], e) ∧
    order_count (book_ e) = 1 ∧ best_bid (book_ e) = Some (Buy, 90) ∧ find_order 7 (book_ e) = None.
Proof. eexists. split; [vm_compute; reflexivity|]. vm_compute. done. Qed.
