(* ===== verification/EventTheorems.v ===== *)
(** * EventTheorems: the output port

    What a sink hears, and that the engine never depends on which sink it
    has: running with any sink is running with a recording one and then
    delivering the recording. *)
From S2P Require Import Prelude Core StdMap OrderPool PriceLevel OrderBook MatchingEngine.
From S2P Require Import ClientIndex MatchingSpec MatchingRefine EngineInvariant EngineRefine EngineTheorems.

(** The same engine wired to another sink. *)
Definition with_sink {S1 S2} (s : S2) (e : MatchingEngine S1) : MatchingEngine S2 :=
  mkEngine (book_ e) (last_accepted_id_ e) (client_resting_ e) (next_sequence_ e)
           (next_trade_sequence_ e) s (stp_ e).

(** Two outcomes that agree on how they end, with related results. *)
Definition outcome_rel {X Y} (P : X → Y → Prop) (m : outcome X) (m' : outcome Y) : Prop :=
  match m, m' with
  | Ok a, Ok b => P a b
  | Undefined, Undefined | NoFuel, NoFuel => True
  | _, _ => False
  end.

Lemma outcome_rel_bind {X Y X' Y'} (P : X → Y → Prop) (Q : X' → Y' → Prop) m m' f g :
  outcome_rel P m m' → (∀ a b, P a b → outcome_rel Q (f a) (g b)) →
  outcome_rel Q (m ≫= f) (m' ≫= g).
Proof. destruct m, m'; simpl; auto; done. Qed.

Lemma outcome_rel_refl {X} (m : outcome X) : outcome_rel eq m m.
Proof. by destruct m. Qed.

Lemma outcome_rel_same {X X' Y'} (Q : X' → Y' → Prop) (m : outcome X) f g :
  (∀ a, outcome_rel Q (f a) (g a)) → outcome_rel Q (m ≫= f) (m ≫= g).
Proof. intros Hf. eapply outcome_rel_bind; [apply outcome_rel_refl|]. intros a b ->. apply Hf. Qed.

Section Independence.
Context {Sk : Type} `{EventSink Sk} (s0 : Sk) (freed_empty : outcome bool).
Implicit Types (e : MatchingEngine Sk) (er : MatchingEngine (list Event)).

(** [e] is [er] with everything [er] recorded delivered to [s0]. *)
Definition heard e er : Prop := e = with_sink (deliver_all (sink_ er) s0) er.

Definition heard_by {X} (a : X * MatchingEngine Sk) (b : X * MatchingEngine (list Event)) : Prop :=
  a.1 = b.1 ∧ heard a.2 b.2.

Lemma heard_emit e er ev : heard e er → heard (emit ev e) (emit ev er).
Proof.
  intros ->. unfold heard, emit, with_sink. simpl. f_equal.
  replace (deliver (sink_ er) ev) with (sink_ er ++ [ev]) by by destruct ev.
  by rewrite deliver_all_app.
Qed.

Lemma heard_book e er b : heard e er → heard (set_book b e) (set_book b er).
Proof. by intros ->. Qed.

Lemma heard_index_unrest e er ro : heard e er → heard (index_unrest ro e) (index_unrest ro er).
Proof. intros ->. unfold index_unrest. simpl. by destruct (stp_enabled _). Qed.

Lemma heard_index_rest e er ro : heard e er → heard (index_rest ro e) (index_rest ro er).
Proof. intros ->. unfold index_rest. simpl. by destruct (stp_enabled _). Qed.

Lemma heard_fields e er :
  heard e er → book_ e = book_ er ∧ next_trade_sequence_ e = next_trade_sequence_ er ∧
  next_sequence_ e = next_sequence_ er ∧ stp_ e = stp_ er ∧
  last_accepted_id_ e = last_accepted_id_ er ∧ client_resting_ e = client_resting_ er.
Proof. by intros ->. Qed.

Lemma heard_cancel_resting e er p ro :
  heard e er → outcome_rel heard (cancel_resting p ro e) (cancel_resting p ro er).
Proof.
  intros Hh. unfold cancel_resting. pose proof (heard_index_unrest _ _ ro Hh) as Hu.
  rewrite (proj1 (heard_fields _ _ Hu)). apply outcome_rel_same. intros b.
  by apply heard_emit, heard_book.
Qed.

Lemma heard_fill_resting e er side id level p ro remaining ts :
  heard e er →
  outcome_rel heard_by (fill_resting side id level p ro remaining ts e)
    (fill_resting side id level p ro remaining ts er).
Proof.
  intros Hh. unfold fill_resting. destruct (heard_fields _ _ Hh) as (Eb & Et & _).
  rewrite !Et. set (q := if Z.ltb _ _ then _ else _). set (t := make_trade _ _ _ _ _ _ _).
  assert (heard (emit (EvTrade t) (incr_trade_sequence e)) (emit (EvTrade t) (incr_trade_sequence er)))
    as H1 by (apply heard_emit; by rewrite Hh).
  set (e1 := emit _ _) in *. set (er1 := emit (EvTrade t) (incr_trade_sequence er)) in *.
  rewrite (proj1 (heard_fields _ _ H1)). apply outcome_rel_same. intros mem.
  apply outcome_rel_same. intros lv. eapply (outcome_rel_bind heard); [|by split].
  destruct (Z.eqb _ _); [|by apply heard_book].
  apply outcome_rel_same. intros ro2. pose proof (heard_index_unrest _ _ ro2 (heard_book _ _
    (store_level level (reduce_quantity q lv) (set_mem mem (book_ er1))) H1)) as Hu.
  rewrite (proj1 (heard_fields _ _ Hu)). apply outcome_rel_same. intros b. by apply heard_book.
Qed.

Lemma heard_match_level fuel side id owner stp_c level remaining ts e er :
  heard e er →
  outcome_rel heard_by (match_level freed_empty fuel side id owner stp_c level remaining ts e)
    (match_level freed_empty fuel side id owner stp_c level remaining ts er).
Proof.
  revert remaining ts e er. induction fuel as [|fuel IH]; intros remaining ts e er Hh; [done|]. simpl.
  destruct (negb _); [done|]. rewrite !(proj1 (heard_fields _ _ Hh)).
  apply outcome_rel_same. intros []; [done|]. apply outcome_rel_same. intros lv.
  apply outcome_rel_same. intros p. apply outcome_rel_same. intros ro. destruct (_ && _).
  - eapply outcome_rel_bind; [by apply heard_cancel_resting|]. by split.
  - eapply outcome_rel_bind; [by apply heard_fill_resting|].
    intros [[r1 t1] e1] [[r2 t2] e2] [? ?]. simpl in *. simplify_eq. by apply IH.
Qed.

Lemma heard_match_levels fuel inner side id owner stp_c limit remaining ts e er :
  heard e er →
  outcome_rel heard_by (match_levels freed_empty fuel inner side id owner stp_c limit remaining ts e)
    (match_levels freed_empty fuel inner side id owner stp_c limit remaining ts er).
Proof.
  revert remaining ts e er. induction fuel as [|fuel IH]; intros remaining ts e er Hh; [done|]. simpl.
  destruct (negb _); [done|]. rewrite !(proj1 (heard_fields _ _ Hh)).
  destruct (match side with Buy => _ | Sell => _ end) as [level|]; [|done].
  apply outcome_rel_same. intros lv. destruct (limit_stops _ _ _); [done|].
  eapply outcome_rel_bind; [by apply heard_match_level|].
  intros [[r1 t1] e1] [[r2 t2] e2] [? ?]. simpl in *. simplify_eq. by apply IH.
Qed.

Lemma heard_match side id owner remaining limit e er :
  heard e er →
  outcome_rel heard_by (match_against_book freed_empty side id owner remaining limit e)
    (match_against_book freed_empty side id owner remaining limit er).
Proof.
  intros Hh. unfold match_against_book. destruct (heard_fields _ _ Hh) as (-> & _ & _ & -> & _).
  by apply heard_match_levels.
Qed.

Lemma heard_announce e er owner id ev :
  heard e er → heard (emit ev (set_watermark owner id e)) (emit ev (set_watermark owner id er)).
Proof. intros Hh. apply heard_emit. by rewrite Hh. Qed.

Lemma heard_submit o e er :
  heard e er → outcome_rel heard_by (submit freed_empty o e) (submit freed_empty o er).
Proof.
  intros Hh. destruct (heard_fields _ _ Hh) as (Eb & Et & Es & Ep & Em & Ec).
  assert (∀ r id, outcome_rel heard_by (reject r id e) (reject r id er)) as Hrej by (intros; by split).
  destruct o as [o|o]; cbn [submit]; unfold submit_limit, submit_market, is_duplicate, stp_rejects,
    would_self_cross; rewrite ?Eb, ?Ep, ?Em, ?Ec.
  - repeat (match goal with |- outcome_rel _ (if ?b then _ else _) (if ?b then _ else _) =>
              destruct b; [apply Hrej|] end).
    eapply outcome_rel_bind; [by apply heard_match, heard_announce|].
    intros [[r1 t1] e1] [[r2 t2] e2] [? Hh2]. simpl in *. simplify_eq.
    eapply (outcome_rel_bind heard); [|by split]. destruct (Z.ltb _ _); [|done].
    destruct (heard_fields _ _ Hh2) as (Eb2 & _ & Es2 & _). rewrite Eb2, Es2.
    apply outcome_rel_same. intros [? b]. apply heard_index_rest, heard_book. by rewrite Hh2.
  - repeat (match goal with |- outcome_rel _ (if ?b then _ else _) (if ?b then _ else _) =>
              destruct b; [apply Hrej|] end).
    eapply outcome_rel_bind; [by apply heard_match, heard_announce|].
    intros [[r1 t1] e1] [[r2 t2] e2] [? Hh2]. simpl in *. by simplify_eq.
Qed.

Lemma heard_cancel id e er :
  heard e er → outcome_rel heard_by (cancel id e) (cancel id er).
Proof.
  intros Hh. unfold cancel. rewrite (proj1 (heard_fields _ _ Hh)).
  destruct (find_order _ _); [|done]. apply outcome_rel_same. intros ro.
  pose proof (heard_index_unrest _ _ ro Hh) as Hu. rewrite (proj1 (heard_fields _ _ Hu)).
  apply outcome_rel_same. intros b. split; [done|]. by apply heard_emit, heard_book.
Qed.
End Independence.

(** The engine never depends on its sink: a command on an engine wired
    to any sink ends the same way, with the same response and the same
    state, as on that engine wired to a recording sink, and the sink has
    been called with exactly the recorded events in order.  Holds for every
    state and every answer to the freed-level read. *)
Theorem engine_independent_of_sink {Sk} `{EventSink Sk} (s0 : Sk) freed_empty c
    (e : MatchingEngine Sk) :
  sink_ e = s0 →
  outcome_rel (λ a b, a.1 = b.1 ∧ a.2 = with_sink (deliver_all (sink_ b.2) s0) b.2)
    (engine_call freed_empty c e) (engine_call freed_empty c (with_sink [] e)).
Proof.
  intros Hs. assert (heard s0 e (with_sink [] e)) as Hh by (destruct e; simpl in *; by subst).
  destruct c as [o|o|[id]].
  - by apply (heard_submit s0 freed_empty (NLimit o)).
  - by apply (heard_submit s0 freed_empty (NMarket o)).
  - by apply heard_cancel.
Qed.

(** What an accepted order announces: the acceptance first, then, among
    the events of matching, exactly the trades of the response in order; the
    trades carry consecutive sequence numbers, continued by the next submit. *)
Theorem submit_announces {Sk} `{EventSink Sk} (sink : Sk) capacity stp (e : MatchingEngine Sk) o r e' :
  live sink capacity stp e → wf_new_order o →
  submit (Ok true) o e = Ok (r, e') → status r = Accepted →
  (∃ events, sink_ e' = deliver_all (accepted_event o :: events) (sink_ e) ∧
             event_trades events = trades r) ∧
  (in_u64 (next_trade_sequence_ e) →
   consecutive (next_trade_sequence_ e) (trades r) (next_trade_sequence_ e')).
Proof.
  intros (A & Hi & Hs & _)%live_inv Hwf E Hst.
  destruct (submit_accepted _ _ _ _ _ Hi Hs Hwf E Hst) as (_ & A' & Ha). revert Ha. unfold matched.
  set (l0 := ab_side _ A). set (σ0 := fills_start _ _).
  pose proof (fill_queue_events (incoming_of o e) l0 σ0 eq_refl) as He.
  pose proof (fill_queue_sequence (incoming_of o e) l0 σ0 (next_trade_sequence_ e)) as Hq.
  destruct (fill_queue _ _ σ0) as [σ l]. intros [-> []]. simpl in *. split; [eauto|].
  intros Hr. rewrite ac_tseq. apply Hq. split; [done|]. simpl. rewrite Z.add_0_r. by rewrite wrap64_small.
Qed.

(** ** The read of an erased level *)

Section Erased.
Context {Sk : Type} `{EventSink Sk}.
Implicit Types (e : MatchingEngine Sk) (A : ABook) (o : NewOrder).

(** Two iterations of the inner loop: the fill that empties the level, and
    the guard after it. *)
Lemma match_level_swept fuel c e0 e A σ slot r l :
  loop_rep c e0 e A σ ((slot, r) :: l) → good_quantity (slot, r) →
  r_quantity r < f_remaining σ < 18446744073709551616 → is_own c (slot, r) = false →
  (∀ y, y ∈ l → r_price y.2 ≠ r_price r) →
  match_level Undefined (S (S fuel)) (in_side c) (in_id c) (in_owner c) (in_cancel c)
    (opposite (in_side c), r_price r) (f_remaining σ) (f_trades σ) e = Undefined.
Proof.
  intros Hl Hq Hr Hown Hone. pose proof Hq as Hq'. unfold good_quantity in Hq'. simpl in Hq'.
  destruct (best_front_spec _ _ (opposite (in_side c)) slot r l (lp_book _ _ _ _ _ _ Hl))
    as (lv & ro & El & Efr & Ee & _ & Ero & Hro & _); [by rewrite ab_side_set_eq|].
  destruct (fill_resting_refines _ _ _ _ _ _ _ _ _ Hl Ero Hro ltac:(lia) Hq) as (e' & Ef & Hl').
  rewrite (proj2 (Z.leb_le _ _)) in Ef, Hl' by lia.
  pose proof (loop_rep_sorted _ _ _ _ _ _ Hl) as [Hs _]%StronglySorted_cons.
  assert (level_is_empty Undefined (opposite (in_side c), r_price r) (book_ e) = Ok false) as Hle
    by (unfold level_is_empty; rewrite El; simpl; by rewrite Ee).
  cbn [match_level]. rewrite (proj2 (Z.ltb_lt _ _)) by lia. cbn [negb].
  rewrite Hle. cbn [mbind outcome_bind]. rewrite El. cbn [mbind outcome_bind]. rewrite Efr. cbn [deref mbind outcome_bind].
  rewrite Ero. cbn [mbind outcome_bind].
  replace (in_cancel c && Z.eqb (o_owner ro) (in_owner c)) with false by (rewrite <- Hown; by subst r).
  rewrite Ef. cbn [mbind outcome_bind]. simpl f_remaining.
  rewrite (proj2 (Z.ltb_lt _ _)) by lia. cbn [negb]. unfold level_is_empty.
  erewrite level_left; [done|exact Hl'| |].
  - intros y Hy. rewrite Forall_forall in Hs. by apply Hs.
  - destruct l as [|y l]; [done|]. apply Hone. constructor.
Qed.

(** C39. Sweeping a level reads freed memory: whenever the best opposite level
    holds one order, the incoming order may trade with it and is larger than
    it, the guard of the inner loop reads the level [remove_order] has just
    destroyed.  With that read undefined, as in the C++ standard, the
    submit has undefined behaviour. *)
Theorem sweep_reads_erased_level e A o x l :
  engine_inv e A → wf_new_order o →
  rejection o e A = None → ab_side (opposite (new_order_side o)) A = x :: l →
  (∀ y, y ∈ l → r_price y.2 ≠ r_price x.2) →
  limit_stops (new_order_side o) (new_order_limit o) (r_price x.2) = false →
  r_owner x.2 ≠ new_order_owner o → r_quantity x.2 < new_order_quantity o →
  submit Undefined o e = Undefined.
Proof.
  intros Hi (_ & _ & Hq & _) Hrej Ex Hone Hcross Hown Hlt. destruct x as [slot r]. simpl in *.
  pose proof (book_capacity _ _ (ei_book _ _ Hi)) as Hcap.
  rewrite (ab_entries_perm (opposite (new_order_side o))), Ex, length_app in Hcap. simpl in Hcap.
  assert (good_quantity (slot, r)) as Hg.
  { apply (ei_quantity _ _ Hi), ab_entries_elem. exists (opposite (new_order_side o)). rewrite Ex. constructor. }
  set (c := incoming_of o e). set (σ := fills_start (new_order_quantity o) (next_trade_sequence_ e)).
  assert (loop_rep c (announced o e) (announced o e) A σ ((slot, r) :: l)) as Hl.
  { rewrite <- Ex. apply (loop_rep_start c); [apply Hi|done]. }
  destruct (capacity_ (pool_ (book_ e))) as [|k] eqn:Ek; [lia|].
  assert (match_against_book Undefined (new_order_side o) (new_order_id o) (new_order_owner o)
    (new_order_quantity o) (new_order_limit o) (announced o e) = Undefined) as Hm.
  { unfold match_against_book, loop_budget. simpl book_. rewrite Ek.
    destruct (best_front_spec _ _ (opposite (in_side c)) slot r l (lp_book _ _ _ _ _ _ Hl))
      as (lv & _ & El & _ & _ & Epr & _); [by rewrite ab_side_set_eq|].
    pose proof (match_level_swept k c _ _ A σ slot r l Hl Hg) as Hsw. u64.
    unfold good_quantity in Hg. simpl in Hg.
    cbn [match_levels]. rewrite (proj2 (Z.ltb_lt _ _)) by lia. cbn [negb].
    assert (match new_order_side o with Buy => best_ask (book_ (announced o e))
      | Sell => best_bid (book_ (announced o e)) end =
      best_level (opposite (in_side c)) (book_ (announced o e))) as ->
      by (simpl; by destruct (new_order_side o)).
    rewrite (best_level_spec _ _ _ (lp_book _ _ _ _ _ _ Hl)), ab_side_set_eq. simpl r_price.
    rewrite El. cbn [mbind outcome_bind]. rewrite Epr, Hcross.
    match goal with |- mbind _ ?m = _ => assert (m = Undefined) as -> end; [|done].
    apply Hsw; [simpl; lia| |done]. unfold is_own. simpl.
    rewrite (proj2 (Z.eqb_neq _ _)) by done. apply andb_false_r. }
  unfold rejection in Hrej. rewrite <- (stp_rejects_scan e A) in Hrej by done.
  rewrite <- (pool_full e A Hi) in Hrej. unfold announced in Hm.
  destruct o as [o|o]; simpl in *; unfold submit_limit, submit_market;
    repeat (match goal with H : (if ?b then _ else _) = None |- _ => destruct b; [discriminate H|] end);
    unfold accepted_event in Hm; simpl in Hm; by rewrite Hm.
Qed.
End Erased.
