(* ===== verification/EngineWitness.v ===== *)
(** * EngineWitness: the engine's properties at concrete inputs

    A small exchange session, run by evaluation, and each property of the
    engine applied to it. *)
From S2P Require Import Prelude Core StdMap OrderPool PriceLevel OrderBook MatchingEngine.
From S2P Require Import ClientIndex MatchingSpec MatchingRefine EngineInvariant EngineRefine EngineTheorems CancelTheorems.
From S2P Require Import EventTheorems.

(** Running a list of commands, keeping the engine. *)
Fixpoint run_calls {Sk} `{EventSink Sk} (cs : list EngineCommand) (e : MatchingEngine Sk)
    : outcome (MatchingEngine Sk) :=
  match cs with
  | [] => Ok e
  | c :: cs => '(_, e) ← engine_call (Ok true) c e; run_calls cs e
  end.

(** Whether each call respects the precondition of [add_order]. *)
Fixpoint ids_unused {Sk} `{EventSink Sk} (cs : list EngineCommand) (e : MatchingEngine Sk) : Prop :=
  match cs with
  | [] => True
  | c :: cs =>
      id_unused c e ∧
      match engine_call (Ok true) c e with Ok (_, e) => ids_unused cs e | _ => False end
  end.

Lemma run_reachable {Sk} `{EventSink Sk} (sink : Sk) capacity stp n cs e e' :
  reachable sink capacity stp n e → Forall wf_command cs → run_calls cs e = Ok e' →
  reachable sink capacity stp (length cs + n) e'.
Proof.
  revert n e. induction cs as [|c cs IH]; intros n e Hr Hwf E; simpl in *; [by simplify_eq|].
  apply Forall_cons in Hwf as [Hc Hwf]. inv_ok. destruct a as [r e1]. 
  replace (S (length cs + n)) with (length cs + S n)%nat by lia. eapply IH; try done. by econstructor.
Qed.

Lemma run_unique {Sk} `{EventSink Sk} (sink : Sk) capacity stp n cs e e' :
  reachable_unique sink capacity stp n e → Forall wf_command cs → ids_unused cs e →
  run_calls cs e = Ok e' → reachable_unique sink capacity stp (length cs + n) e'.
Proof.
  revert n e. induction cs as [|c cs IH]; intros n e Hr Hwf Hu E;
    cbn [run_calls ids_unused length] in *; [by simplify_eq|].
  apply Forall_cons in Hwf as [Hc Hwf]. destruct Hu as [Hu1 Hu].
  destruct (engine_call (Ok true) c e) as [[r e1]| |] eqn:Ec; [|done..].
  replace (S (length cs) + n)%nat with (length cs + S n)%nat by lia.
  eapply IH; try done. by econstructor.
Qed.

(** Two asks at 100 and one at 102 of client 1, a bid at 95 of client 2. *)
Definition demo_stp : StpConfig := mkStpConfig true RejectIncoming.

Definition demo_calls : list EngineCommand :=
  [CLimit (mkLimit 1 Sell 100 5 1); CLimit (mkLimit 2 Sell 100 7 1);
   CLimit (mkLimit 3 Sell 102 4 1); CLimit (mkLimit 4 Buy 95 10 2)].

Definition demo_start : MatchingEngine (list Event) := MatchingEngine_new [] 8 demo_stp.

Definition demo : MatchingEngine (list Event) :=
  match run_calls demo_calls demo_start with Ok e => e | _ => demo_start end.

(** Client 3 buys nine up to 101: takes order 1 and four of order 2. *)
Definition demo_buy : LimitOrder := mkLimit 9 Buy 101 9 3.

Definition demo_market : MarketOrder := mkMarket 9 Buy 9 3.

(** Client 3 sells twelve down to 95: takes the bid, rests two. *)
Definition demo_sell : LimitOrder := mkLimit 9 Sell 95 12 3.

Lemma demo_run : run_calls demo_calls demo_start = Ok demo.
Proof. vm_compute. reflexivity. Qed.

Lemma demo_wf : Forall wf_command demo_calls.
Proof. repeat constructor; simpl; u64; lia. Qed.

Lemma demo_unique : reachable_unique [] 8 demo_stp 4 demo.
Proof.
  apply (run_unique [] 8 demo_stp 0 demo_calls demo_start demo);
    [constructor|apply demo_wf| |apply demo_run]. vm_compute. tauto.
Qed.

Lemma demo_live : live [] 8 demo_stp demo.
Proof. exists 4%nat. split; [apply unique_reachable, demo_unique|]. lia. Qed.

Lemma demo_buy_wf : wf_new_order (NLimit demo_buy).
Proof. unfold wf_new_order. simpl. u64. lia. Qed.

Lemma demo_market_wf : wf_new_order (NMarket demo_market).
Proof. unfold wf_new_order. simpl. u64. lia. Qed.

Lemma demo_sell_wf : wf_new_order (NLimit demo_sell).
Proof. unfold wf_new_order. simpl. u64. lia. Qed.

(** The engines and responses these orders lead to. *)
Definition after (o : NewOrder) : EngineResponse * MatchingEngine (list Event) :=
  match submit (Ok true) o demo with Ok x => x | _ => (mkResponse InternalError [] 0 0, demo) end.

Lemma after_buy : submit (Ok true) (NLimit demo_buy) demo =
  Ok ((after (NLimit demo_buy)).1, (after (NLimit demo_buy)).2).
Proof. vm_compute. reflexivity. Qed.

Lemma after_market : submit (Ok true) (NMarket demo_market) demo =
  Ok ((after (NMarket demo_market)).1, (after (NMarket demo_market)).2).
Proof. vm_compute. reflexivity. Qed.

Lemma after_sell : submit (Ok true) (NLimit demo_sell) demo =
  Ok ((after (NLimit demo_sell)).1, (after (NLimit demo_sell)).2).
Proof. vm_compute. reflexivity. Qed.

Definition demo_trade : Trade := mkTrade 0 9 1 100 5 true.

Lemma demo_trade_in : demo_trade ∈ trades (after (NLimit demo_buy)).1.
Proof. vm_compute. constructor. Qed.

(** ** Witnesses *)

Lemma submit_refines_priority_spec_witness :
  ∃ e' A', accepts (NLimit demo_buy) demo (book_of (book_ demo))
      (matched (NLimit demo_buy) demo (book_of (book_ demo))).1
      (matched (NLimit demo_buy) demo (book_of (book_ demo))).2 e' A' ∧
    submit Undefined (NLimit demo_buy) demo = Ok (mkResponse Accepted [mkTrade 0 9 1 100 5 true; mkTrade 1 9 2 100 4 false] 0 9, e').
Proof.
  pose proof (submit_refines_priority_spec [] 8 demo_stp demo (NLimit demo_buy) demo_live demo_buy_wf) as [_ H].
  assert (rejection (NLimit demo_buy) demo (book_of (book_ demo)) = None) as Er by (vm_compute; reflexivity).
  rewrite Er in H. destruct (matched (NLimit demo_buy) demo (book_of (book_ demo))) as [σ l] eqn:Em.
  destruct H as (e' & A' & Ha & Hs & _). exists e', A'. split; [exact Ha|]. rewrite Hs.
  vm_compute in Em. injection Em as <- <-. vm_compute. reflexivity.
Defined.

Lemma commands_return_witness :
  ∃ r e' A', engine_inv e' A' ∧ engine_call Undefined (CLimit demo_buy) demo = Ok (r, e') ∧
    call_reads (CMarket (mkMarket 9 Buy 13 3)) demo = true.
Proof.
  destruct (commands_return [] 8 demo_stp demo (CLimit demo_buy) demo_live demo_buy_wf)
    as (r & e' & A' & Hi & Hs & _).
  exists r, e', A'. split; [exact Hi|]. split; [rewrite Hs|]; vm_compute; reflexivity.
Defined.

Lemma book_never_crossed_witness :
  best_bid (book_ demo) = Some (Buy, 95) ∧ best_ask (book_ demo) = Some (Sell, 100) ∧ 95 < 100.
Proof.
  assert (best_bid (book_ demo) = Some (Buy, 95)) as Hb by (vm_compute; reflexivity).
  assert (best_ask (book_ demo) = Some (Sell, 100)) as Ha by (vm_compute; reflexivity).
  split; [exact Hb|]. split; [exact Ha|].
  exact (book_never_crossed [] 8 demo_stp demo (Buy, 95) (Sell, 100) demo_live Hb Ha).
Defined.

Lemma submit_conserves_quantity_witness :
  trade_quantity (trades (after (NLimit demo_buy)).1) + remaining_qty (after (NLimit demo_buy)).1 = 9 ∧
  length (trades (after (NLimit demo_buy)).1) = 2%nat.
Proof.
  split; [|vm_compute; reflexivity].
  apply (submit_conserves_quantity [] 8 demo_stp demo (NLimit demo_buy) _ (after (NLimit demo_buy)).2
    demo_live demo_buy_wf after_buy).
  vm_compute. reflexivity.
Defined.

Lemma trades_respect_limit_witness : demo_trade ∈ trades (after (NLimit demo_buy)).1 ∧ 100 <= 101.
Proof.
  split; [apply demo_trade_in|].
  exact (trades_respect_limit [] 8 demo_stp demo demo_buy _ _ demo_trade demo_live demo_buy_wf
    after_buy demo_trade_in).
Defined.

Lemma no_self_trade_witness :
  ∃ A x, engine_inv demo A ∧ x ∈ ab_side Sell A ∧ r_id x.2 = 1 ∧ r_price x.2 = 100 ∧ r_owner x.2 ≠ 3.
Proof.
  exact (no_self_trade [] 8 demo_stp demo (NLimit demo_buy) _ _ demo_trade demo_live demo_buy_wf
    eq_refl after_buy demo_trade_in).
Defined.

Lemma book_in_priority_order_witness :
  ∃ A, book_rep (book_ demo) A ∧
    ∀ s, priority_sorted s (ab_side s A) ∧ StronglySorted earlier (ab_side s A).
Proof. exact (book_in_priority_order [] 8 demo_stp demo demo_live). Defined.

Lemma self_cross_index_is_scan_witness :
  would_self_cross Buy 1 (Some 101) demo = true ∧
  ∃ A, book_rep (book_ demo) A ∧
    would_self_cross Buy 1 (Some 101) demo = scan_self_cross Buy 1 (Some 101) (ab_side Sell A).
Proof.
  split; [vm_compute; reflexivity|].
  exact (self_cross_index_is_scan [] 8 demo_stp demo Buy 1 (Some 101) demo_live eq_refl).
Defined.

(** Client 1 buying at 100 would meet its own ask. *)
Definition demo_selfcross : NewOrder := NLimit (mkLimit 5 Buy 100 1 1).

Lemma rejected_submit_no_effect_witness :
  submit (Ok true) demo_selfcross demo = Ok (mkResponse SelfTradePrevented [] 0 5, demo) ∧
  order_id (mkResponse SelfTradePrevented [] 0 5) = new_order_id demo_selfcross.
Proof.
  assert (submit (Ok true) demo_selfcross demo = Ok (mkResponse SelfTradePrevented [] 0 5, demo)) as E
    by (vm_compute; reflexivity).
  split; [exact E|]. apply (rejected_submit_no_effect _ _ _ _ _ E). discriminate.
Defined.

Lemma market_never_rests_witness :
  ∃ A A', engine_inv demo A ∧ engine_inv (after (NMarket demo_market)).2 A' ∧ shrinks A' A ∧
    order_count (book_ (after (NMarket demo_market)).2) <= order_count (book_ demo).
Proof.
  exact (market_never_rests [] 8 demo_stp demo demo_market (after (NMarket demo_market)).1
    (after (NMarket demo_market)).2 demo_live demo_market_wf after_market).
Defined.

Lemma cancel_removes_the_order_witness : ∃ A, engine_inv demo A ∧ ∀ slot r, (slot, r) ∈ ab_entries A →
  find_order (r_id r) (book_ demo) ≠ None.
Proof.
  destruct (cancel_removes_the_order [] 8 demo_stp 4 demo demo_unique ltac:(lia) ltac:(lia)) as (A & Hi & Hc).
  exists A. split; [exact Hi|]. intros slot r Hin Hf.
  destruct (Hc slot r Hin) as (l1 & l2 & e' & _ & E & _). unfold cancel in E. rewrite Hf in E. discriminate E.
Defined.

Lemma submit_then_cancel_witness :
  remaining_qty (after (NLimit demo_sell)).1 = 2 ∧
  ∃ e'', cancel 9 (after (NLimit demo_sell)).2 = Ok (mkResponse Accepted [] 2 9, e'').
Proof.
  assert (remaining_qty (after (NLimit demo_sell)).1 = 2) as Hr by (vm_compute; reflexivity).
  split; [exact Hr|].
  destruct (submit_then_cancel [] 8 demo_stp 4 demo demo_sell (after (NLimit demo_sell)).1
    (after (NLimit demo_sell)).2 demo_unique ltac:(lia) ltac:(lia) demo_sell_wf
    ltac:(vm_compute; reflexivity) after_sell ltac:(vm_compute; reflexivity) ltac:(rewrite Hr; lia))
    as (A & e'' & _ & E & _).
  exists e''. rewrite Hr in E. exact E.
Defined.

Lemma engine_independent_of_sink_witness :
  outcome_rel (λ a b, a.1 = b.1 ∧ a.2 = with_sink (deliver_all (sink_ b.2) tt) b.2)
    (engine_call Undefined (CLimit demo_buy) (with_sink tt demo))
    (engine_call Undefined (CLimit demo_buy) (with_sink [] (with_sink tt demo))).
Proof. exact (engine_independent_of_sink tt Undefined (CLimit demo_buy) (with_sink tt demo) eq_refl). Defined.

Lemma submit_announces_witness :
  consecutive 0 (trades (after (NLimit demo_buy)).1) 2.
Proof.
  exact (proj2 (submit_announces [] 8 demo_stp demo (NLimit demo_buy) (after (NLimit demo_buy)).1
    (after (NLimit demo_buy)).2 demo_live demo_buy_wf after_buy ltac:(vm_compute; reflexivity))
    ltac:(vm_compute; split; congruence)).
Defined.

(** One ask of five at 100 in an otherwise empty book; a market order for nine. *)
Definition one_ask_start : MatchingEngine (list Event) := MatchingEngine_new [] 8 StpConfig_default.

Definition one_ask : MatchingEngine (list Event) :=
  match submit (Ok true) (NLimit (mkLimit 1 Sell 100 5 1)) one_ask_start with
  | Ok (_, e) => e | _ => one_ask_start end.

Lemma one_ask_inv : ∃ slot, engine_inv one_ask (mkABook [] [(slot, mkResting 1 Sell 100 5 0 1)]).
Proof.
  pose proof (submit_spec (NLimit (mkLimit 1 Sell 100 5 1)) one_ask_start (mkABook [] [])
    (new_inv [] 8 StpConfig_default ltac:(lia)) ltac:(unfold wf_new_order; simpl; u64; lia) ltac:(simpl; lia))
    as Hs. simpl rejection in Hs. simpl matched in Hs. cbv beta iota in Hs.
  destruct Hs as (e' & A' & E & Ha).
  assert (e' = one_ask) as -> by (unfold one_ask; by rewrite E).
  destruct (ac_book _ _ _ _ _ _ _ Ha) as (slot & _ & EA & _). exists slot.
  pose proof (ac_inv _ _ _ _ _ _ _ Ha) as Hi. by rewrite EA in Hi.
Qed.

Lemma sweep_reads_erased_level_witness :
  submit Undefined (NMarket (mkMarket 2 Buy 9 2)) one_ask = Undefined.
Proof.
  destruct one_ask_inv as [slot Hi].
  apply (sweep_reads_erased_level one_ask _ (NMarket (mkMarket 2 Buy 9 2))
           (slot, mkResting 1 Sell 100 5 0 1) [] Hi).
  - unfold wf_new_order. simpl. u64. lia.
  - vm_compute. reflexivity.
  - reflexivity.
  - intros y Hy. inversion Hy.
  - reflexivity.
  - simpl. lia.
  - simpl. lia.
Defined.
