(* ===== verification/EngineApi.v ===== *)
(** * EngineApi: the input port, interfaces/engine_api.hpp

    [EngineAPI] is the C++ abstract class as a type class over the state of
    an implementation.  [LawfulEngine] is what adapters and decorators rely
    on: a submit that is not accepted has had no effect, carries no trades
    and names the order; every response names the order it is about.  The matching engine is a lawful instance. *)
From S2P Require Import Prelude Core StdMap OrderPool PriceLevel OrderBook MatchingEngine.

Class EngineAPI (E : Type) := {
  api_submit : NewOrder → E → outcome (EngineResponse * E);
  api_cancel : Z → E → outcome (EngineResponse * E);
  api_book : E → OrderBook }.

Class LawfulEngine (E : Type) `{EngineAPI E} : Prop := {
  law_rejected o e r e' :
    api_submit o e = Ok (r, e') → status r ≠ Accepted →
    e' = e ∧ trades r = [] ∧ order_id r = new_order_id o;
  law_order_id o e r e' : api_submit o e = Ok (r, e') → order_id r = new_order_id o;
  law_cancel_id id e r e' : api_cancel id e = Ok (r, e') → order_id r = id }.

(** [MatchingEngine : public EngineAPI], for one answer to the freed-level read. *)
#[global] Instance matching_engine_api {Sk} `{EventSink Sk} (freed_empty : outcome bool)
    : EngineAPI (MatchingEngine Sk) := {
  api_submit := submit freed_empty;
  api_cancel := cancel;
  api_book := book_ }.

#[global] Instance matching_engine_lawful {Sk} `{EventSink Sk} freed_empty :
  @LawfulEngine (MatchingEngine Sk) (matching_engine_api freed_empty).
Proof.
  split.
  - intros o e r e' [Hid Hr]%submit_not_accepted Hs. destruct (Hr Hs) as (? & ? & _). done.
  - by intros o e r e' [Hid _]%submit_not_accepted.
  - intros id e r e'. simpl. unfold cancel. destruct (find_order id (book_ e)); intros; inv_ok; by simplify_eq.
Qed.
