(* ===== verification/Doubles.v ===== *)
(** * Doubles: bounds on binary64 rounding

    What the code needs of [double] arithmetic on integers: how far rounding a
    positive number can move it, so that products of a price or a count with a
    fraction stay finite and in range.  The numbers are those of SpecFloat,
    and a positive finite one is [m * 2^e]. *)
From Corelib Require Import SpecFloat.
From S2P Require Import Prelude.

#[local] Abbreviation prec := 53.
#[local] Abbreviation emax := 1024.
#[local] Abbreviation fexp := (SpecFloat.fexp prec emax).

(** ** Digits and shifts *)

Lemma digits2_bounds p : 2 ^ (Zpos (digits2_pos p) - 1) <= Zpos p < 2 ^ Zpos (digits2_pos p).
Proof.
  induction p as [p IH|p IH|]; cbn [digits2_pos]; [| |simpl; lia]; rewrite Pos2Z.inj_succ.
  - replace (Z.succ (Zpos (digits2_pos p)) - 1) with (Z.succ (Zpos (digits2_pos p) - 1)) by lia.
    rewrite !Z.pow_succ_r by lia. lia.
  - replace (Z.succ (Zpos (digits2_pos p)) - 1) with (Z.succ (Zpos (digits2_pos p) - 1)) by lia.
    rewrite !Z.pow_succ_r by lia. lia.
Qed.

(** A positive below [2^n] has at most [n] digits. *)
Lemma digits2_le m n : 0 < m → 0 <= n → m < 2 ^ n → Zdigits2 m <= n.
Proof.
  intros Hm Hn Hlt. destruct m as [|p|]; [lia| |lia]. simpl. pose proof (digits2_bounds p) as [Hl _].
  destruct (Z.le_gt_cases (Zpos (digits2_pos p)) n) as [|Hgt]; [done|].
  assert (2 ^ n <= 2 ^ (Zpos (digits2_pos p) - 1)) by (apply Z.pow_le_mono_r; lia). lia.
Qed.

Lemma digits2_lt m : 0 < m → m < 2 ^ Zdigits2 m.
Proof. intros Hm. destruct m as [|p|]; [lia| |lia]. simpl. apply digits2_bounds. Qed.

Lemma digits2_pos_ge m : 0 < m → 2 ^ (Zdigits2 m - 1) <= m.
Proof. intros Hm. destruct m as [|p|]; [lia| |lia]. simpl. apply digits2_bounds. Qed.

Lemma shr_1_half mrs : 0 <= shr_m mrs → shr_m (shr_1 mrs) = shr_m mrs / 2.
Proof.
  destruct mrs as [[|[p|p|]|] r s]; simpl; intros; try done; try lia.
  - apply Z.div_unique with 1; lia.
  - apply Z.div_unique with 0; lia.
Qed.

Lemma iter_shr_div p mrs : 0 <= shr_m mrs → shr_m (SpecFloat.iter_pos shr_1 p mrs) = shr_m mrs / 2 ^ Zpos p.
Proof.
  revert mrs. induction p as [p IH|p IH|]; intros mrs Hm; cbn [SpecFloat.iter_pos].
  - assert (Hs : 0 <= shr_m (shr_1 mrs)) by (rewrite shr_1_half by done; apply Z.div_pos; lia).
    rewrite IH by (rewrite IH by done; apply Z.div_pos; lia).
    rewrite IH, shr_1_half, !Z.div_div by (done || lia). f_equal.
    rewrite Pos2Z.inj_xI, Z.pow_add_r, Z.pow_twice_r by lia. lia.
  - rewrite IH by (rewrite IH by done; apply Z.div_pos; lia).
    rewrite IH, Z.div_div by (done || lia). f_equal. rewrite <- Z.pow_twice_r. done.
  - apply shr_1_half. done.
Qed.

(** ** One shift of a significand to the exponent the format keeps *)

(** The exponent a significand of value [m * 2^e] is kept at. *)
#[local] Abbreviation kept m e := (Z.max e (fexp (Zdigits2 m + e))).

Lemma shr_fexp_spec m e l mrs e' :
  0 <= m → shr_fexp prec emax m e l = (mrs, e') →
  e' = kept m e ∧ shr_m mrs = m / 2 ^ (e' - e).
Proof.
  intros Hm. unfold shr_fexp, shr.
  assert (Hl : shr_m (shr_record_of_loc m l) = m) by (destruct l as [|[]]; done).
  destruct (fexp (Zdigits2 m + e) - e) as [|p|p] eqn:Ef; intros [= <- <-].
  - split; [lia|]. rewrite Hl, Z.sub_diag, Z.div_1_r. done.
  - split; [lia|]. rewrite iter_shr_div, Hl by (rewrite Hl; done). do 2 f_equal. lia.
  - split; [lia|]. rewrite Hl, Z.sub_diag, Z.div_1_r. done.
Qed.

Lemma round_nearest_even_cases m l : round_nearest_even m l = m ∨ round_nearest_even m l = m + 1.
Proof. destruct l as [|[]]; simpl; [auto| |auto|auto]. destruct (Z.even m); auto. Qed.

Lemma kept_bound m e n : 0 <= m → e <= n → m < 2 ^ (n - e) → -1074 <= n - 53 → kept m e <= Z.max e (n - 53).
Proof.
  intros Hm He Hlt Hn. unfold SpecFloat.fexp, emin.
  destruct (Z.eq_dec m 0) as [->|]; [simpl; lia|].
  assert (Zdigits2 m <= n - e) by (apply digits2_le; lia). lia.
Qed.

(** Dividing by the power of two that is dropped keeps a bound. *)
Lemma div_pow_lt m e e1 n : e <= e1 <= n → m < 2 ^ (n - e) → m / 2 ^ (e1 - e) < 2 ^ (n - e1).
Proof.
  intros He Hm. apply Z.div_lt_upper_bound; [lia|]. rewrite <- Z.pow_add_r by lia.
  replace (e1 - e + (n - e1)) with (n - e) by lia. done.
Qed.

(** Rounding a number that truncates to [m * 2^e], below [2^n], gives zero or a finite number
    whose value exceeds the truncated one by at most a unit in the last place. *)
Lemma binary_round_aux_spec s m e n l :
  0 <= m → e <= n → e <= 971 → -1021 <= n <= 1023 → m < 2 ^ (n - e) →
  (binary_round_aux prec emax s m e l = S754_zero s ∧ m / 2 ^ (kept m e - e) = 0) ∨
  ∃ m' e', binary_round_aux prec emax s m e l = S754_finite s m' e' ∧
    kept m e <= e' <= Z.max e (n - 52) ∧
    Zpos m' * 2 ^ (e' - kept m e) <= m / 2 ^ (kept m e - e) + 1.
Proof.
  intros Hm He He2 Hn Hlt. unfold binary_round_aux.
  destruct (shr_fexp _ _ m e l) as [mrs1 e1] eqn:E1. apply shr_fexp_spec in E1 as [He1 Hq]; [|lia].
  assert (Hk : kept m e <= Z.max e (n - 53)) by (apply kept_bound; lia). rewrite <- He1 in *.
  assert (Hq0 : 0 <= m / 2 ^ (e1 - e)) by (apply Z.div_pos; lia).
  assert (Hqn : m / 2 ^ (e1 - e) < 2 ^ (n - e1)) by (apply div_pow_lt; lia).
  destruct (shr_fexp _ _ (round_nearest_even _ _) e1 loc_Exact) as [mrs2 e2] eqn:E2.
  set (r := round_nearest_even _ _) in E2.
  assert (Hr : m / 2 ^ (e1 - e) <= r <= m / 2 ^ (e1 - e) + 1).
  { unfold r. rewrite Hq. destruct (round_nearest_even_cases (m / 2 ^ (e1 - e)) (loc_of_shr_record mrs1)); lia. }
  clearbody r. apply shr_fexp_spec in E2 as [He2' Hm2]; [|lia].
  assert (Hk2 : kept r e1 <= Z.max e1 (n + 1 - 53)).
  { apply kept_bound; [lia..| |lia]. replace (n + 1 - e1) with (Z.succ (n - e1)) by lia.
    rewrite Z.pow_succ_r by lia. lia. }
  rewrite <- He2' in Hk2. rewrite Hm2.
  assert (Hle : 2 ^ (e2 - e1) * (r / 2 ^ (e2 - e1)) <= r) by (apply Z.mul_div_le; lia).
  assert (Hr0 : 0 <= r / 2 ^ (e2 - e1)) by (apply Z.div_pos; lia).
  destruct (r / 2 ^ (e2 - e1)) as [|m'|] eqn:Er; [left|right|lia].
  { split; [done|]. apply Z.div_small_iff in Er; [|lia]. destruct (Z.eq_dec r 0); [lia|].
    assert (2 ^ (e2 - e1) <= r); [|lia]. etrans; [|by apply digits2_pos_ge; lia]. apply Z.pow_le_mono_r; [lia|].
    assert (0 < Zdigits2 r) by (destruct r; [lia|done|lia]). revert He2' He1. unfold SpecFloat.fexp, emin. lia. }
  rewrite Zle_imp_le_bool by lia. exists m', e2. split_and!; [done|lia..].
Qed.

(** Two ways of reading the bound: strictly below a power of two it reaches at
    most that power, and at most a power of two it stays below half as much more. *)
Lemma scaled_le m e k b c : k <= e <= b → 0 < c → Zpos m * 2 ^ (e - k) <= c * 2 ^ (b - k) → Zpos m <= c * 2 ^ (b - e).
Proof.
  intros Hk Hc Hle. apply Z.mul_le_mono_pos_r with (2 ^ (e - k)); [lia|].
  rewrite <- Z.mul_assoc, <- Z.pow_add_r by lia. replace (b - e + (e - k)) with (b - k) by lia. done.
Qed.

Lemma round_below s m e n l :
  0 <= m → e <= n → e <= 971 → -1021 <= n <= 1023 → m < 2 ^ (n - e) →
  binary_round_aux prec emax s m e l = S754_zero s ∨
  ∃ m' e', binary_round_aux prec emax s m e l = S754_finite s m' e' ∧
    e' <= Z.max e (n - 52) ∧ Zpos m' <= 2 ^ (n - e').
Proof.
  intros Hm He He2 Hn Hlt.
  destruct (binary_round_aux_spec s m e n l) as [[? _]|(m'&e'&?&?&Hb)]; [done..|by left|]. right.
  exists m', e'. split_and!; [done|lia|]. rewrite <- (Z.mul_1_l (2 ^ _)).
  apply scaled_le with (kept m e); [lia..|].
  assert (m / 2 ^ (kept m e - e) < 2 ^ (n - kept m e)) by (apply div_pow_lt; lia). lia.
Qed.

Lemma round_at_most s m e n :
  0 < m → e < n → e <= 971 → -1020 <= n <= 1022 → m <= 2 ^ (n - e) →
  binary_round_aux prec emax s m e loc_Exact = S754_zero s ∨
  ∃ m' e', binary_round_aux prec emax s m e loc_Exact = S754_finite s m' e' ∧
    e' <= Z.max e (n - 51) ∧ Zpos m' <= 3 * 2 ^ (n - 1 - e').
Proof.
  intros Hm He He2 Hn Hle.
  assert (Hlt : m < 2 ^ (n + 1 - e)).
  { replace (n + 1 - e) with (Z.succ (n - e)) by lia. rewrite Z.pow_succ_r by lia. lia. }
  assert (Hk : kept m e <= Z.max e (n + 1 - 53)) by (apply kept_bound; lia).
  destruct (binary_round_aux_spec s m e (n + 1) loc_Exact) as [[? _]|(m'&e'&?&?&Hb)]; [lia..|by left|]. right.
  exists m', e'. split_and!; [done|lia|]. apply scaled_le with (kept m e); [lia..|].
  assert (m / 2 ^ (kept m e - e) <= 2 ^ (n - kept m e)).
  { apply Z.div_le_upper_bound; [lia|]. rewrite <- Z.pow_add_r by lia.
    replace (kept m e - e + (n - kept m e)) with (n - e) by lia. done. }
  replace (n - kept m e) with (Z.succ (n - 1 - kept m e)) in * by lia. rewrite Z.pow_succ_r in * by lia. lia.
Qed.

(** Converting a positive integer below [2^n]. *)
Lemma iter_xO m d : Zpos (Pos.iter xO m d) = Zpos m * 2 ^ Zpos d.
Proof.
  induction d as [|d IH] using Pos.peano_ind; [simpl; lia|].
  rewrite Pos.iter_succ, Pos2Z.inj_xO, IH, Pos2Z.inj_succ, Z.pow_succ_r by lia. lia.
Qed.

Lemma shl_align_spec m e x m' e' :
  shl_align m e x = (m', e') → e' = Z.min e x ∧ Zpos m' = Zpos m * 2 ^ (e - e').
Proof.
  unfold shl_align. destruct (x - e) as [|p|p] eqn:Ef; intros [= <- <-].
  - split; [lia|]. rewrite Z.sub_diag. lia.
  - split; [lia|]. rewrite Z.sub_diag. lia.
  - split; [lia|]. rewrite iter_xO. do 2 f_equal. lia.
Qed.

Lemma of_int_below z n :
  0 < z → 0 <= n <= 971 → z < 2 ^ n →
  binary_normalize prec emax z 0 false = S754_zero false ∨
  ∃ m e, binary_normalize prec emax z 0 false = S754_finite false m e ∧ e <= Z.max 0 (n - 52) ∧ Zpos m <= 2 ^ (n - e).
Proof.
  intros Hz Hn Hlt. destruct z as [|p|]; [lia| |lia]. simpl. unfold binary_round.
  destruct (shl_align p 0 _) as [m e] eqn:E. apply shl_align_spec in E as [He Hm].
  destruct (round_below false (Zpos m) e n loc_Exact) as [?|(m'&e'&?&?&?)]; [lia..| |by left|].
  - rewrite Hm.
    replace (n - e) with (n + (0 - e)) by lia. rewrite Z.pow_add_r by lia.
    apply Z.mul_lt_mono_pos_r; lia.
  - right. exists m', e'. split_and!; [done|lia|done].
Qed.

(** ** Integers of at most 53 bits are exact *)

Lemma digits2_exact m n : 0 < n → 2 ^ (n - 1) <= m < 2 ^ n → Zdigits2 m = n.
Proof.
  intros Hn Hm. assert (0 < m) by lia. pose proof (digits2_le m n ltac:(lia) ltac:(lia) ltac:(lia)).
  pose proof (digits2_lt m ltac:(lia)). destruct (Z.le_gt_cases n (Zdigits2 m)); [lia|].
  assert (2 ^ Zdigits2 m <= 2 ^ (n - 1)) by (apply Z.pow_le_mono_r; lia). lia.
Qed.

(** A significand of exactly 53 bits needs no rounding. *)
Lemma round_exact s m e : 2 ^ 52 <= Zpos m < 2 ^ 53 → -1074 <= e <= 971 →
  binary_round_aux prec emax s (Zpos m) e loc_Exact = S754_finite s m e.
Proof.
  intros Hm He. assert (Hd : Zdigits2 (Zpos m) = 53) by (by apply digits2_exact).
  assert (Hs : shr_fexp prec emax (Zpos m) e loc_Exact = (shr_record_of_loc (Zpos m) loc_Exact, e)).
  { unfold shr_fexp, shr. rewrite Hd. assert (fexp (53 + e) - e = 0) as -> by (unfold SpecFloat.fexp, emin; lia). done. }
  unfold binary_round_aux. rewrite Hs. cbn [shr_record_of_loc shr_m loc_of_shr_record round_nearest_even].
  rewrite Hs. cbn [shr_record_of_loc shr_m]. by rewrite Zle_imp_le_bool by lia.
Qed.

Lemma of_int_exact z :
  0 < z < 2 ^ 53 →
  ∃ m e, binary_normalize prec emax z 0 false = S754_finite false m e ∧ -52 <= e <= 0 ∧
    2 ^ 52 <= Zpos m < 2 ^ 53 ∧ Zpos m = z * 2 ^ (- e).
Proof.
  intros Hz. destruct z as [|p|]; [lia| |lia]. cbn [binary_normalize]. unfold binary_round.
  destruct (shl_align p 0 _) as [m e] eqn:E. apply shl_align_spec in E as [He Hm].
  pose proof (digits2_le (Zpos p) 53 ltac:(lia) ltac:(lia) ltac:(lia)) as Hd.
  pose proof (digits2_lt (Zpos p) ltac:(lia)) as Hlt. pose proof (digits2_pos_ge (Zpos p) ltac:(lia)) as Hge.
  cbn [Zdigits2] in Hd, Hlt, Hge. set (d := Zpos (digits2_pos p)) in *. assert (0 < d) by done.
  assert (e = d - 53) as -> by (unfold SpecFloat.fexp, emin in He; lia). rewrite Z.sub_0_l in Hm.
  assert (2 ^ 52 <= Zpos m < 2 ^ 53) as Hb.
  { assert (2 ^ 52 = 2 ^ (d - 1) * 2 ^ (- (d - 53))) as -> by (rewrite <- Z.pow_add_r by lia; f_equal; lia).
    assert (2 ^ 53 = 2 ^ d * 2 ^ (- (d - 53))) as -> by (rewrite <- Z.pow_add_r by lia; f_equal; lia).
    rewrite Hm. split; [apply Z.mul_le_mono_nonneg_r; lia|apply Z.mul_lt_mono_pos_r; lia]. }
  exists m, (d - 53). rewrite round_exact by lia. split_and!; [done|lia..|done].
Qed.

(** ** Numbers between zero and a power of two *)

Definition below (n : Z) (x : spec_float) : Prop :=
  match x with
  | S754_zero _ => True
  | S754_finite false m e => e <= n ∧ Zpos m <= 2 ^ (n - e)
  | _ => False
  end.

Lemma below_mono n k x : n <= k → below n x → below k x.
Proof.
  intros Hk. destruct x as [| | |[] m e]; try done. intros [He Hm]. split; [lia|]. etrans; [exact Hm|]. apply Z.pow_le_mono_r; lia.
Qed.

Lemma round_is_below m e n l :
  0 <= m → e <= n → e <= 971 → -1021 <= n <= 1023 → m < 2 ^ (n - e) → below n (binary_round_aux prec emax false m e l).
Proof.
  intros Hm He He2 Hn Hlt. destruct (round_below false m e n l) as [->|(m' & e' & -> & He' & Hm')]; try done.
  split; [lia|done].
Qed.

(** An integer, or a sum of two significands, at an exponent that is not too small. *)
Lemma normalize_below z e n :
  0 <= z → e <= n → e <= 971 → -1021 <= n <= 1023 → z < 2 ^ (n - e) → below n (binary_normalize prec emax z e false).
Proof.
  intros Hz He He2 Hn Hlt. destruct z as [|p|]; [done| |lia]. cbn [binary_normalize]. unfold binary_round.
  destruct (shl_align p e _) as [m e'] eqn:E. apply shl_align_spec in E as [He' Hm].
  apply round_is_below; try lia. rewrite Hm. replace (n - e') with (n - e + (e - e')) by lia.
  rewrite Z.pow_add_r by lia. apply Z.mul_lt_mono_pos_r; lia.
Qed.

Lemma add_below x y n : 0 <= n <= 900 → below n x → below n y → below (n + 2) (SFadd prec emax x y).
Proof.
  intros Hn Hx Hy.
  destruct x as [sx| | |[] mx ex], y as [sy| | |[] my ey]; try done; cbn [SFadd].
  - by destruct sx, sy.
  - by apply (below_mono n); [lia|].
  - by apply (below_mono n); [lia|].
  - destruct Hx as [Hex Hmx], Hy as [Hey Hmy].
    destruct (shl_align mx ex _) as [m1 e1] eqn:E1. apply shl_align_spec in E1 as [He1 Hm1].
    destruct (shl_align my ey _) as [m2 e2] eqn:E2. apply shl_align_spec in E2 as [He2 Hm2].
    cbn [fst cond_Zopp]. set (ez := Z.min ex ey) in *. assert (e1 = ez ∧ e2 = ez) as [-> ->] by lia.
    assert (Zpos m1 <= 2 ^ (n - ez)) as Hb1.
    { rewrite Hm1. replace (n - ez) with (n - ex + (ex - ez)) by lia. rewrite Z.pow_add_r by lia.
      apply Z.mul_le_mono_nonneg_r; lia. }
    assert (Zpos m2 <= 2 ^ (n - ez)) as Hb2.
    { rewrite Hm2. replace (n - ez) with (n - ey + (ey - ez)) by lia. rewrite Z.pow_add_r by lia.
      apply Z.mul_le_mono_nonneg_r; lia. }
    assert (2 ^ (n + 2 - ez) = 4 * 2 ^ (n - ez)) as Hp by (rewrite <- (Z.pow_add_r 2 2) by lia; f_equal; lia).
    apply normalize_below; lia.
Qed.

(** Dividing by a number that is at least one. *)
Lemma div_below x my ey n :
  0 <= n <= 900 → below n x → ey <= 0 → 2 ^ (- ey) <= Zpos my → below (n + 1) (SFdiv prec emax x (S754_finite false my ey)).
Proof.
  intros Hn Hx Hey Hmy. destruct x as [sx| | |[] mx ex]; try done. destruct Hx as [Hex Hmx]. cbn [SFdiv xorb].
  unfold SFdiv_core_binary. set (e' := Z.min _ _).
  assert (e' <= n ∧ e' <= ex - ey) as [Hen Hes].
  { unfold e'. split; [|lia]. etrans; [apply Z.le_min_l|]. unfold SpecFloat.fexp, emin.
    assert (Zdigits2 (Zpos mx) <= n + 1 - ex).
    { apply digits2_le; [lia..|]. replace (n + 1 - ex) with (Z.succ (n - ex)) by lia. rewrite Z.pow_succ_r by lia. lia. }
    assert (- ey < Zdigits2 (Zpos my)); [|lia]. apply (Z.pow_lt_mono_r_iff 2); [lia|done|].
    pose proof (digits2_lt (Zpos my)). lia. }
  clearbody e'. assert (∃ mz, (match ex - ey - e' with Z0 => Zpos mx | Zpos _ => Z.shiftl (Zpos mx) (ex - ey - e') | Zneg _ => 0 end) = mz ∧
    mz = Zpos mx * 2 ^ (ex - ey - e')) as (mz & -> & Hmz).
  { eexists. split; [reflexivity|]. destruct (ex - ey - e') eqn:E; [simpl; lia| |lia]. rewrite Z.shiftl_mul_pow2 by lia. done. }
  pose proof (Z_div_mod_eq_full mz (Zpos my)) as Hdm. pose proof (Z.mod_pos_bound mz (Zpos my) ltac:(lia)) as Hmod.
  unfold Z.div, Z.modulo in Hdm, Hmod. destruct (Z.div_eucl mz (Zpos my)) as [q r].
  assert (0 < 2 ^ (ex - ey - e')) by (apply Z.pow_pos_nonneg; lia).
  assert (q <= 2 ^ (n - e')) as Hq.
  { apply Z.mul_le_mono_pos_r with (2 ^ (- ey)); [lia|]. rewrite <- Z.pow_add_r by lia.
    replace (n - e' + - ey) with (n - ex + (ex - ey - e')) by lia. rewrite Z.pow_add_r by lia.
    assert (0 <= q) by nia. nia. }
  apply round_is_below; [nia|lia..|]. replace (n + 1 - e') with (Z.succ (n - e')) by lia. rewrite Z.pow_succ_r by lia. lia.
Qed.
