(* ===== verification/RiskEngine.v ===== *)
(** * RiskEngine: risk/risk_config.hpp, risk_engine.hpp and risk_engine.cpp

    The pre-trade decorator over any [EngineAPI].  The band percentage is an
    IEEE binary64, multiplied with the reference in binary64 and rounded by
    [llround]; prices are [int64_t], whose overflow is undefined. *)
From Corelib Require Import SpecFloat.
From S2P Require Import Prelude Core OrderBook MatchingEngine EngineApi.

(** ** The doubles the code uses *)

(** [static_cast<double>(z)]: round to nearest, ties to even. *)
Definition double_of_int (z : Z) : spec_float := binary_normalize 53 1024 z 0 false.

Definition double_mul (x y : spec_float) : spec_float := SFmul 53 1024 x y.

(** [x <= 0.0]; false on NaN. *)
Definition double_le_zero (x : spec_float) : bool := SFleb x (S754_zero false).

(** [std::llround]: nearest integer, halves away from zero.  The result is
    unspecified for NaN, infinities and values out of range ([None]). *)
Definition round_half_away (m e : Z) : Z :=
  if Z.leb 0 e then m * 2 ^ e else (m + 2 ^ (- e - 1)) / 2 ^ (- e).

Definition llround (x : spec_float) : option Z :=
  match x with
  | S754_zero _ => Some 0
  | S754_infinity _ | S754_nan => None
  | S754_finite s m e =>
      let n := round_half_away (Zpos m) e in
      let n := if s then - n else n in
      if Z.leb (-9223372036854775808) n && Z.ltb n 9223372036854775808 then Some n else None
  end.

(** [int64_t] subtraction and [std::abs(int64_t)]: overflow is undefined. *)
Definition i64_sub (a b : Z) : outcome Z :=
  let d := a - b in
  if Z.leb (-9223372036854775808) d && Z.ltb d 9223372036854775808 then Ok d else Undefined.

Definition i64_abs (a : Z) : outcome Z :=
  if Z.eqb a (-9223372036854775808) then Undefined else Ok (Z.abs a).

(** ** risk_config.hpp *)

Record RiskConfig := mkRiskConfig {
  price_band_pct : spec_float;
  initial_reference_price : Z;
  max_order_qty : Z;
  tick_size : Z;
  rc_stp_enabled : bool;
  rc_stp_policy : StpPolicy }.

(** 0.10 as a binary64. *)
Definition pct_10 : spec_float := S754_finite false 7205759403792794 (-56).

Definition RiskConfig_default : RiskConfig :=
  mkRiskConfig pct_10 0 1000000 1 false RejectIncoming.

Definition RiskConfig_stp (c : RiskConfig) : StpConfig :=
  mkStpConfig (rc_stp_enabled c) (rc_stp_policy c).

(** ** risk_engine.hpp *)

Record RiskEngine (E : Type) := mkRisk {
  inner_ : E;
  config_ : RiskConfig;
  reference_price_ : Z }.
Arguments mkRisk {E} _ _ _.
Arguments inner_ {E} _.
Arguments config_ {E} _.
Arguments reference_price_ {E} _.

Definition RiskEngine_new {E} (inner : E) (config : RiskConfig) : RiskEngine E :=
  mkRisk inner config (initial_reference_price config).

Section Checks.
Variables (config : RiskConfig) (reference : Z).

Definition check_fat_finger (qty : Z) : EngineResult :=
  if Z.ltb (max_order_qty config) qty then QuantityTooLarge else Accepted.

Definition check_tick_size (price : Z) : EngineResult :=
  if Z.leb (tick_size config) 0 then Accepted
  else if negb (Z.eqb (Z.rem price (tick_size config)) 0) then TickSizeMisaligned
  else Accepted.

Definition check_price_band (price : Z) : outcome EngineResult :=
  if double_le_zero (price_band_pct config) || Z.leb reference 0 then Ok Accepted
  else
    let allowance_f := double_mul (double_of_int reference) (price_band_pct config) in
    allowance ← deref (llround allowance_f);
    d ← i64_sub price reference;
    deviation ← i64_abs d;
    Ok (if Z.ltb allowance deviation then PriceOutOfBand else Accepted).

Definition run_checks (qty : Z) (price : option Z) : outcome EngineResult :=
  let r := check_fat_finger qty in
  if negb (bool_decide (r = Accepted)) then Ok r
  else
    match price with
    | None => Ok Accepted
    | Some price =>
        let r := check_tick_size price in
        if negb (bool_decide (r = Accepted)) then Ok r
        else
          r ← check_price_band price;
          if negb (bool_decide (r = Accepted)) then Ok r else Ok Accepted
    end.
End Checks.

Definition update_reference_from {E} (response : EngineResponse) (e : RiskEngine E) : RiskEngine E :=
  match last (trades response) with
  | Some t => mkRisk (inner_ e) (config_ e) (t_price t)
  | None => e
  end.

Section Decorator.
Context {E : Type} `{EngineAPI E}.

Definition risk_submit (order : NewOrder) (e : RiskEngine E) : outcome (EngineResponse * RiskEngine E) :=
  check ← run_checks (config_ e) (reference_price_ e) (new_order_quantity order) (new_order_limit order);
  if negb (bool_decide (check = Accepted)) then Ok (mkResponse check [] 0 (new_order_id order), e)
  else
    '(response, inner) ← api_submit order (inner_ e);
    let e := mkRisk inner (config_ e) (reference_price_ e) in
    Ok (response, update_reference_from response e).

Definition risk_cancel (id : Z) (e : RiskEngine E) : outcome (EngineResponse * RiskEngine E) :=
  '(response, inner) ← api_cancel id (inner_ e);
  Ok (response, mkRisk inner (config_ e) (reference_price_ e)).

#[global] Instance risk_engine_api : EngineAPI (RiskEngine E) := {
  api_submit := risk_submit;
  api_cancel := risk_cancel;
  api_book e := api_book (inner_ e) }.
End Decorator.

(** ** What the checks mean *)

(** The tick allowance of the band: the percentage of the reference, in
    binary64, rounded to an integer. *)
Definition band_allowance (config : RiskConfig) (reference : Z) : option Z :=
  llround (double_mul (double_of_int reference) (price_band_pct config)).

Definition band_active (config : RiskConfig) (reference : Z) : Prop :=
  double_le_zero (price_band_pct config) = false ∧ 0 < reference.

(** The limits an order must be within to reach the inner engine. *)
Record within_limits (config : RiskConfig) (reference : Z) (o : NewOrder) : Prop := {
  wl_quantity : new_order_quantity o <= max_order_qty config;
  wl_tick p : new_order_limit o = Some p → 0 < tick_size config → (tick_size config | p);
  wl_band p : new_order_limit o = Some p → band_active config reference →
    ∃ a, band_allowance config reference = Some a ∧ Z.abs (p - reference) <= a ∧
         -9223372036854775808 < p - reference < 9223372036854775808 }.

Section RiskFacts.
Implicit Types (config : RiskConfig) (reference price : Z) (o : NewOrder).

Lemma check_fat_finger_ok config qty :
  check_fat_finger config qty = Accepted ↔ qty <= max_order_qty config.
Proof. unfold check_fat_finger. zb; split; done || lia. Qed.

Lemma check_tick_size_ok config price :
  check_tick_size config price = Accepted ↔ (0 < tick_size config → (tick_size config | price)).
Proof.
  unfold check_tick_size. destruct (Z.leb_spec (tick_size config) 0); [split; done || lia|].
  rewrite <- Z.rem_divide by lia. destruct (Z.eqb_spec (Z.rem price (tick_size config)) 0); simpl;
    split; auto; done || naive_solver lia.
Qed.

(** Where the band check is defined, it compares the distance with the allowance. *)
Lemma check_price_band_spec config reference price a :
  band_active config reference → band_allowance config reference = Some a →
  -9223372036854775808 < price - reference < 9223372036854775808 →
  check_price_band config reference price =
  Ok (if Z.leb (Z.abs (price - reference)) a then Accepted else PriceOutOfBand).
Proof.
  intros [Hp Hr] Ha Hd. unfold check_price_band. rewrite Hp, (proj2 (Z.leb_gt _ _)) by done. simpl.
  unfold band_allowance in Ha. rewrite Ha. simpl. unfold i64_sub.
  rewrite (proj2 (Z.leb_le _ _)), (proj2 (Z.ltb_lt _ _)) by lia. simpl. unfold i64_abs.
  rewrite (proj2 (Z.eqb_neq _ _)) by lia. simpl. zb; done || lia.
Qed.

Lemma check_price_band_inactive config reference price :
  ¬ band_active config reference → check_price_band config reference price = Ok Accepted.
Proof.
  intros Hb. unfold check_price_band, band_active in *.
  destruct (double_le_zero _); [done|]. destruct (Z.leb_spec reference 0); [done|]. naive_solver lia.
Qed.

(** ... and if it accepts, it was defined. *)
Lemma check_price_band_accepts config reference price :
  check_price_band config reference price = Ok Accepted ↔
  (band_active config reference →
   ∃ a, band_allowance config reference = Some a ∧ Z.abs (price - reference) <= a ∧
        -9223372036854775808 < price - reference < 9223372036854775808).
Proof.
  split.
  - intros E [Hp Hr]. unfold check_price_band in E. rewrite Hp, (proj2 (Z.leb_gt _ _)) in E by done.
    simpl in E. unfold band_allowance. inv_ok. exists z. unfold i64_sub, i64_abs in *.
    repeat match goal with
    | H : (if ?b then _ else _) = _ |- _ => destruct b eqn:?; try discriminate
    end; inv_ok; subst. split; [done|]. rewrite andb_true_iff in *. lia.
  - intros Hb. destruct (double_le_zero (price_band_pct config)) eqn:Ed;
      [|destruct (Z.leb_spec reference 0)];
      try (apply check_price_band_inactive; unfold band_active; rewrite ?Ed; naive_solver lia).
    destruct Hb as (a & Ha & Hd & Hr); [done|]. rewrite (check_price_band_spec _ _ _ a); try done.
    by rewrite (proj2 (Z.leb_le _ _)).
Qed.

Lemma run_checks_accepts config reference o :
  run_checks config reference (new_order_quantity o) (new_order_limit o) = Ok Accepted ↔
  within_limits config reference o.
Proof.
  transitivity (check_fat_finger config (new_order_quantity o) = Accepted ∧
    ∀ p, new_order_limit o = Some p →
      check_tick_size config p = Accepted ∧ check_price_band config reference p = Ok Accepted).
  - unfold run_checks. destruct (check_fat_finger _ _) eqn:Ef; simpl; try (split; [done|naive_solver]; fail).
    destruct (new_order_limit o) as [p|]; [|split; [naive_solver|done]].
    destruct (check_tick_size _ _) eqn:Et; simpl;
      try (split; [done|intros [_ Hp]; destruct (Hp p eq_refl); congruence]; fail).
    destruct (check_price_band config reference p) as [r| |] eqn:Eb; simpl;
      try (split; [done|intros [_ Hp]; destruct (Hp p eq_refl); congruence]; fail).
    destruct r; simpl;
      (split; [intros Hx; first [discriminate Hx|split; [done|intros p' [= <-]; by split]]
              |intros [_ Hp]; destruct (Hp p eq_refl) as [_ Hx]; congruence]).
  - rewrite check_fat_finger_ok. split.
    + intros [Hq Hp]. split; [done|..]; intros p Ep; destruct (Hp p Ep) as [Ht Hb].
      * by apply check_tick_size_ok.
      * by apply check_price_band_accepts.
    + intros [Hq Ht Hb]. split; [done|]. intros p Ep.
      split; [apply check_tick_size_ok; eauto|apply check_price_band_accepts; eauto].
Qed.
End RiskFacts.
