(* ===== verification/RiskTheorems.v ===== *)
(** * RiskTheorems: the decorator's guarantees, over any lawful engine *)
From Corelib Require Import SpecFloat.
From S2P Require Import Prelude Core OrderBook MatchingEngine EngineApi RiskEngine.

(** The statuses only the risk layer produces. *)
Definition risk_status (r : EngineResult) : Prop :=
  r = QuantityTooLarge ∨ r = TickSizeMisaligned ∨ r = PriceOutOfBand.

Section Decorated.
Context {E : Type} `{LawfulEngine E}.
Implicit Types (e : RiskEngine E) (o : NewOrder).

Lemma run_checks_status config reference qty price r :
  run_checks config reference qty price = Ok r → r ≠ Accepted → risk_status r.
Proof.
  unfold run_checks, risk_status, check_fat_finger. destruct (Z.ltb _ _); simpl;
    [intros; simplify_eq; auto|].
  destruct price as [p|]; [|intros; simplify_eq; done]. unfold check_tick_size.
  assert ((r0 ← check_price_band config reference p;
    if negb (bool_decide (r0 = Accepted)) then Ok r0 else Ok Accepted) = Ok r → r ≠ Accepted →
    r = QuantityTooLarge ∨ r = TickSizeMisaligned ∨ r = PriceOutOfBand) as Hband.
  { intros Eb Hr. destruct (check_price_band config reference p) as [r0| |] eqn:Ec; simpl in Eb; [|done..].
    unfold check_price_band in Ec. destruct (_ || _); [inv_ok; subst; simpl in *; by simplify_eq|].
    inv_ok; subst. destruct (Z.ltb _ _); simpl in Eb; simplify_eq; auto. }
  destruct (Z.leb (tick_size config) 0); simpl; [exact Hband|].
  destruct (negb (Z.eqb (Z.rem p (tick_size config)) 0)); simpl; [intros; simplify_eq; auto|exact Hband].
Qed.

Lemma run_checks_fuel config reference qty price : run_checks config reference qty price ≠ NoFuel.
Proof.
  assert (∀ p, check_price_band config reference p ≠ NoFuel) as Hb.
  { intros p. unfold check_price_band. destruct (_ || _); [done|]. destruct (llround _); [|done]. simpl.
    unfold i64_sub, i64_abs. destruct (_ && _); [|done]. simpl. by destruct (Z.eqb _ _). }
  unfold run_checks. destruct (negb _); [done|]. destruct price as [p|]; [|done]. cbv zeta. destruct (negb _); [done|].
  specialize (Hb p). destruct (check_price_band config reference p) as [r| |]; [|done..]. by destruct r.
Qed.

Lemma risk_forwards o e :
  within_limits (config_ e) (reference_price_ e) o →
  risk_submit o e =
    '(response, inner) ← api_submit o (inner_ e);
    Ok (response, mkRisk inner (config_ e)
                    (default (reference_price_ e) (t_price <$> last (trades response)))).
Proof.
  intros Hw%run_checks_accepts. unfold risk_submit. rewrite Hw. simpl.
  destruct (api_submit o (inner_ e)) as [[r i]| |]; simpl; [|done..].
  unfold update_reference_from. by destruct (last (trades r)).
Qed.

Lemma risk_blocks o e r e' :
  ¬ within_limits (config_ e) (reference_price_ e) o → risk_submit o e = Ok (r, e') →
  ∃ s, r = mkResponse s [] 0 (new_order_id o) ∧ risk_status s ∧ e' = e.
Proof.
  intros Hw E'. unfold risk_submit in E'.
  destruct (run_checks _ _ _ _) as [c| |] eqn:Ec; simpl in E'; [|done..].
  destruct (decide (c = Accepted)) as [->|Hc].
  - by apply run_checks_accepts in Ec.
  - rewrite bool_decide_false in E' by done. simpl in E'. simplify_eq. exists c.
    split; [done|]. split; [|done]. by eapply run_checks_status.
Qed.

(** The decorator is itself a lawful engine, so decorators stack. *)
#[global] Instance risk_engine_lawful : LawfulEngine (RiskEngine E).
Proof.
  assert (∀ o e r e', risk_submit o e = Ok (r, e') →
    (status r ≠ Accepted → e' = e ∧ trades r = []) ∧ order_id r = new_order_id o) as Hall.
  { intros o e r e' E'. unfold risk_submit in E'.
    destruct (run_checks _ _ _ _) as [c| |] eqn:Ec; simpl in E'; [|done..].
    destruct (bool_decide (c = Accepted)); simpl in E'; [|by simplify_eq].
    destruct (api_submit o (inner_ e)) as [[r1 i]| |] eqn:Ea; simpl in E'; [|done..]. simplify_eq.
    split; [|by eapply law_order_id]. intros Hs. destruct (law_rejected _ _ _ _ Ea Hs) as (-> & Et & _).
    unfold update_reference_from. rewrite Et. simpl. by destruct e. }
  split.
  - intros o e r e' [Hr Hid]%Hall Hs. destruct (Hr Hs). done.
  - by intros o e r e' [Hr Hid]%Hall.
  - intros id e r e'. simpl. unfold risk_cancel. intros E'.
    destruct (api_cancel id (inner_ e)) as [[r1 i]| |] eqn:Ea; simpl in E'; [|done..]. simplify_eq.
    by eapply law_cancel_id.
Qed.

(** The outcome of an order whose checks gave [c]. *)
Lemma risk_refuses o e c :
  run_checks (config_ e) (reference_price_ e) (new_order_quantity o) (new_order_limit o) = Ok c → c ≠ Accepted →
  risk_submit o e = Ok (mkResponse c [] 0 (new_order_id o), e).
Proof. intros Ec Hc. unfold risk_submit. rewrite Ec. simpl. by rewrite bool_decide_false. Qed.

(** The band's arithmetic leaves its machine types: the rounded allowance does
    not fit, or the distance to the reference or its magnitude does not. *)
Definition band_overflows (config : RiskConfig) (reference price : Z) : Prop :=
  band_allowance config reference = None ∨ ¬ -9223372036854775808 < price - reference < 9223372036854775808.

Lemma check_price_band_overflows config reference price :
  band_active config reference → band_overflows config reference price →
  check_price_band config reference price = Undefined.
Proof.
  intros [Hp Hr] Ho. unfold check_price_band. rewrite Hp, (proj2 (Z.leb_gt _ _)) by done. simpl.
  unfold band_overflows, band_allowance in Ho. destruct (llround _) as [a|] eqn:Ea; [|done]. simpl.
  destruct Ho as [|Ho]; [done|]. unfold i64_sub.
  destruct (Z.leb_spec (-9223372036854775808) (price - reference)),
    (Z.ltb_spec (price - reference) 9223372036854775808); simpl; try done; try lia.
  unfold i64_abs. by rewrite (proj2 (Z.eqb_eq _ _)) by lia.
Qed.

(** The checks before the band pass. *)
Lemma run_checks_band config reference qty price :
  qty <= max_order_qty config → (0 < tick_size config → (tick_size config | price)) →
  run_checks config reference qty (Some price) = check_price_band config reference price.
Proof.
  intros Hq%check_fat_finger_ok Ht. rewrite <- check_tick_size_ok in Ht. unfold run_checks. rewrite Hq. simpl. rewrite Ht. simpl.
  destruct (check_price_band config reference price) as [r| |]; [|done..]. by destruct r.
Qed.

(** C18. The decorator on every branch.  Within the limits (quantity at most
    the ceiling; a limit price on the tick and within the band) it forwards
    to the wrapped engine, returns its response unchanged and moves the band
    reference to the price of the last trade, if any.  Outside them the first
    failing check decides: a quantity over the ceiling, then a price off the
    tick, then a price further from the reference than the band allows is
    refused with its own status, the order's id and no trades, and neither
    the wrapped engine nor the reference changes; but where an active band's
    arithmetic overflows, the call is undefined.  There is no other case. *)
Theorem risk_submit_branches o e :
  let refused s := Ok (mkResponse s [] 0 (new_order_id o), e) in
  let config := config_ e in
  let reference := reference_price_ e in
  (within_limits config reference o →
   risk_submit o e =
     '(response, inner) ← api_submit o (inner_ e);
     Ok (response, mkRisk inner config (default reference (t_price <$> last (trades response))))) ∧
  (max_order_qty config < new_order_quantity o → risk_submit o e = refused QuantityTooLarge) ∧
  (∀ p, new_order_quantity o <= max_order_qty config → new_order_limit o = Some p →
    (0 < tick_size config → ¬ (tick_size config | p) → risk_submit o e = refused TickSizeMisaligned) ∧
    ((0 < tick_size config → (tick_size config | p)) → band_active config reference →
      (band_overflows config reference p → risk_submit o e = Undefined) ∧
      (∀ a, band_allowance config reference = Some a → ¬ band_overflows config reference p →
        a < Z.abs (p - reference) → risk_submit o e = refused PriceOutOfBand))) ∧
  (¬ within_limits config reference o →
   risk_submit o e = Undefined ∨ ∃ s, risk_status s ∧ risk_submit o e = refused s).
Proof.
  cbv zeta. split; [apply risk_forwards|]. split; [|split].
  - intros Hq. apply risk_refuses; [|done]. unfold run_checks, check_fat_finger. by rewrite (proj2 (Z.ltb_lt _ _)).
  - intros p Hq Ep. split; [|intros Ht Hb; split].
    + intros Ht Hd. apply risk_refuses; [|done]. unfold run_checks. rewrite (proj2 (check_fat_finger_ok _ _) Hq), Ep. simpl.
      unfold check_tick_size. rewrite (proj2 (Z.leb_gt _ _)) by done. rewrite <- Z.rem_divide in Hd by lia.
      by rewrite (proj2 (Z.eqb_neq _ _)).
    + intros Ho. unfold risk_submit. rewrite Ep, run_checks_band by done. by rewrite check_price_band_overflows.
    + intros a Ha Ho Hlt. apply risk_refuses; [|done]. rewrite Ep, run_checks_band by done.
      assert (-9223372036854775808 < p - reference_price_ e < 9223372036854775808) as Hr.
      { destruct (decide (-9223372036854775808 < p - reference_price_ e < 9223372036854775808)); [done|].
        destruct Ho. by right. }
      rewrite (check_price_band_spec _ _ _ a) by done. by rewrite (proj2 (Z.leb_gt _ _)).
  - intros Hw. unfold risk_submit. destruct (run_checks _ _ _ _) as [c| |] eqn:Ec; simpl; [|by left|].
    + right. destruct (decide (c = Accepted)) as [->|Hc]; [by apply run_checks_accepts in Ec|].
      exists c. rewrite bool_decide_false by done. split; [by eapply run_checks_status|done].
    + by apply run_checks_fuel in Ec.
Qed.

(** With every rule switched off the decorator is the wrapped engine: same
    outcomes, responses and inner states. *)
Theorem risk_disabled_transparent o e :
  tick_size (config_ e) <= 0 → double_le_zero (price_band_pct (config_ e)) = true →
  new_order_quantity o <= max_order_qty (config_ e) →
  ('(r, e') ← risk_submit o e; Ok (r, inner_ e')) = api_submit o (inner_ e).
Proof.
  intros Ht Hp Hq. rewrite risk_forwards.
  - destruct (api_submit o (inner_ e)) as [[r i]| |]; done.
  - split; [done|lia|]. intros p _ [Hb _]. congruence.
Qed.

(** The band check overflows: for an order far enough below the reference
    the subtraction [price - reference] leaves [int64_t], which is undefined
    behaviour, before the engine's own check could reject the price. *)
Theorem price_band_overflows o e p :
  new_order_limit o = Some p → p - reference_price_ e < -9223372036854775808 →
  check_fat_finger (config_ e) (new_order_quantity o) = Accepted →
  check_tick_size (config_ e) p = Accepted →
  band_active (config_ e) (reference_price_ e) →
  risk_submit o e = Undefined.
Proof.
  intros Ep Hlow Hf%check_fat_finger_ok Ht Hb. rewrite check_tick_size_ok in Ht. unfold risk_submit.
  rewrite Ep, run_checks_band by done. rewrite check_price_band_overflows; [done..|]. right. lia.
Qed.
End Decorated.

(** The default band, on a reference of 10000 ticks: exactly the prices from
    9000 to 11000 are accepted, both edges included, with the multiplication
    and rounding done in binary64 as in the code. *)
Theorem default_band_edges price :
  -9223372036854765808 < price < 9223372036854775808 →
  check_price_band RiskConfig_default 10000 price =
  Ok (if Z.leb 9000 price && Z.leb price 11000 then Accepted else PriceOutOfBand).
Proof.
  intros Hp. rewrite (check_price_band_spec _ _ _ 1000).
  - f_equal. destruct (Z.leb_spec (Z.abs (price - 10000)) 1000), (Z.leb_spec 9000 price),
      (Z.leb_spec price 11000); simpl; done || lia.
  - split; [reflexivity|lia].
  - vm_compute. reflexivity.
  - lia.
Qed.

(** ** Witnesses: a risk layer over a fresh matching engine *)

Definition risk_demo : RiskEngine (MatchingEngine (list Event)) :=
  RiskEngine_new (MatchingEngine_new [] 8 StpConfig_default)
    (mkRiskConfig pct_10 10000 100 5 false RejectIncoming).

#[local] Instance demo_api : EngineAPI (MatchingEngine (list Event)) := matching_engine_api Undefined.

#[local] Instance demo_lawful : LawfulEngine (MatchingEngine (list Event)) :=
  matching_engine_lawful Undefined.

Lemma risk_submit_branches_witness :
  (∃ e', risk_submit (NLimit (mkLimit 1 Buy 9500 100 1)) risk_demo = Ok (mkResponse Accepted [] 100 1, e')) ∧
  risk_submit (NLimit (mkLimit 1 Buy 9501 100 1)) risk_demo = Ok (mkResponse TickSizeMisaligned [] 0 1, risk_demo) ∧
  risk_submit (NLimit (mkLimit 1 Buy 11005 100 1)) risk_demo = Ok (mkResponse PriceOutOfBand [] 0 1, risk_demo).
Proof.
  destruct (risk_submit_branches (NLimit (mkLimit 1 Buy 9500 100 1)) risk_demo) as (Hin & _).
  destruct (risk_submit_branches (NLimit (mkLimit 1 Buy 9501 100 1)) risk_demo) as (_ & _ & Htick & _).
  destruct (risk_submit_branches (NLimit (mkLimit 1 Buy 11005 100 1)) risk_demo) as (_ & _ & Hband & _).
  assert (band_active (config_ risk_demo) (reference_price_ risk_demo)) as Hact.
  { split; [vm_compute; reflexivity|simpl; lia]. }
  split; [|split].
  - rewrite Hin.
    + eexists. vm_compute. reflexivity.
    + split; [simpl; lia|intros p [= <-] _; by exists 1900|intros p [= <-] _].
      exists 1000. split; [vm_compute; reflexivity|]. simpl. lia.
  - apply (proj1 (Htick 9501 ltac:(simpl; lia) eq_refl) ltac:(simpl; lia)). simpl. intros [k Hk]. lia.
  - apply (proj2 (proj2 (Hband 11005 ltac:(simpl; lia) eq_refl) ltac:(intros _; by exists 2201) Hact) 1000).
    + vm_compute. reflexivity.
    + intros [Hx|Hx]; [vm_compute in Hx; discriminate|simpl in Hx; lia].
    + simpl. lia.
Defined.

Definition risk_off : RiskEngine (MatchingEngine (list Event)) :=
  RiskEngine_new (MatchingEngine_new [] 8 StpConfig_default)
    (mkRiskConfig (S754_zero false) 0 18446744073709551615 0 false RejectIncoming).

Lemma risk_disabled_transparent_witness :
  ('(r, e') ← risk_submit (NMarket (mkMarket 1 Buy 5 1)) risk_off; Ok (r, inner_ e')) =
  api_submit (NMarket (mkMarket 1 Buy 5 1)) (inner_ risk_off).
Proof.
  apply (risk_disabled_transparent (NMarket (mkMarket 1 Buy 5 1)) risk_off);
    [simpl; lia|vm_compute; reflexivity|simpl; lia].
Defined.

Lemma price_band_overflows_witness :
  risk_submit (NLimit (mkLimit 1 Sell (-9223372036854775805) 1 1)) risk_demo = Undefined.
Proof.
  apply (price_band_overflows (NLimit (mkLimit 1 Sell (-9223372036854775805) 1 1)) risk_demo
           (-9223372036854775805)); try (vm_compute; reflexivity).
  split; [vm_compute; reflexivity|simpl; lia].
Defined.

Lemma default_band_edges_witness :
  check_price_band RiskConfig_default 10000 9000 = Ok Accepted ∧
  check_price_band RiskConfig_default 10000 11001 = Ok PriceOutOfBand.
Proof. split; [rewrite (default_band_edges 9000) by lia|rewrite (default_band_edges 11001) by lia]; reflexivity. Defined.
