(* ===== verification/RiskTotal.v ===== *)
(** * RiskTotal: the band check is defined on every order with a sane price

    The band's arithmetic converts the reference to binary64, multiplies it
    with the percentage and rounds the product back to [int64_t]; then it
    subtracts two [int64_t].  For percentages up to one half, references
    that fit [int64_t] and prices that are not negative none of that can
    leave its range, so the checks always return. *)
From Corelib Require Import SpecFloat.
From S2P Require Import Prelude Core OrderBook MatchingEngine EngineApi Doubles RiskEngine RiskTheorems.

(** A percentage that is a positive binary64 of at most one half. *)
Definition band_pct_ok (pct : spec_float) : Prop :=
  ∃ m e, pct = S754_finite false m e ∧ e < 0 ∧ Zpos m <= 2 ^ (-1 - e).

Lemma band_pct_10 : band_pct_ok pct_10.
Proof. exists 7205759403792794%positive, (-56). split_and!; [done|lia|]. vm_compute. discriminate. Qed.

(** The product of a 63-bit integer and such a percentage is at most three quarters of [2^62]. *)
Lemma double_mul_bound reference pct :
  0 < reference < 9223372036854775808 → band_pct_ok pct →
  (∃ s, double_mul (double_of_int reference) pct = S754_zero s) ∨
  ∃ m e, double_mul (double_of_int reference) pct = S754_finite false m e ∧ e <= 62 ∧ Zpos m <= 3 * 2 ^ (61 - e).
Proof.
  intros Hr (mp & ep & -> & Hep & Hmp). unfold double_mul, double_of_int.
  destruct (of_int_below reference 63) as [->|(m & e & -> & He & Hm)]; [lia..| |]; [left; by eexists|].
  simpl. destruct (round_at_most false (Zpos (m * mp)) (e + ep) 62) as [Hz|(m'&e'&Hf&?&?)]; [lia..| | |].
  - rewrite Pos2Z.inj_mul. replace (62 - (e + ep)) with ((63 - e) + (-1 - ep)) by lia.
    rewrite Z.pow_add_r by lia. apply Z.mul_le_mono_nonneg; lia.
  - left. by exists false.
  - right. exists m', e'. split_and!; [exact Hf|lia|done].
Qed.

Lemma round_half_away_bound m e : 0 < m → e <= 61 → m <= 3 * 2 ^ (61 - e) → 0 <= round_half_away m e <= 3 * 2 ^ 61.
Proof.
  intros Hm He Hle. unfold round_half_away. destruct (Z.leb_spec 0 e).
  - assert (Hs : 2 ^ 61 = 2 ^ (61 - e) * 2 ^ e) by (rewrite <- Z.pow_add_r by lia; f_equal; lia).
    rewrite Hs, Z.mul_assoc. split; [lia|]. apply Z.mul_le_mono_nonneg_r; lia.
  - assert (Hd : 2 ^ (- e) = 2 * 2 ^ (- e - 1)) by (rewrite <- Z.pow_succ_r by lia; f_equal; lia).
    assert (Hb : m <= 3 * 2 ^ 61 * 2 ^ (- e)).
    { rewrite <- Z.mul_assoc, <- Z.pow_add_r by lia. replace (61 + - e) with (61 - e) by lia. done. }
    assert (0 < 2 ^ (- e - 1)) by lia. split; [apply Z.div_pos; lia|].
    apply Z.lt_succ_r. apply Z.div_lt_upper_bound; lia.
Qed.

Lemma band_allowance_defined config reference :
  0 < reference < 9223372036854775808 → band_pct_ok (price_band_pct config) →
  ∃ a, band_allowance config reference = Some a ∧ 0 <= a <= 3 * 2 ^ 61.
Proof.
  intros Hr Hp. unfold band_allowance.
  destruct (double_mul_bound reference _ Hr Hp) as [[s ->]|(m & e & -> & He & Hm)]; simpl; [by exists 0|].
  destruct (Z.eq_dec e 62) as [->|]; [simpl in Hm; lia|].
  assert (Hb : 0 <= round_half_away (Zpos m) e <= 3 * 2 ^ 61) by (apply round_half_away_bound; lia).
  exists (round_half_away (Zpos m) e). rewrite (proj2 (Z.leb_le _ _)), (proj2 (Z.ltb_lt _ _)) by lia. done.
Qed.

(** A limit price the wire formats' users send: not negative, and an [int64_t]. *)
Definition sane_limit (o : NewOrder) : Prop :=
  ∀ p, new_order_limit o = Some p → 0 <= p < 9223372036854775808.

Lemma check_price_band_defined config reference p :
  band_pct_ok (price_band_pct config) → reference < 9223372036854775808 → 0 <= p < 9223372036854775808 →
  ∃ r, check_price_band config reference p = Ok r.
Proof.
  intros Hp Hr Hlim. destruct (Z.le_gt_cases reference 0).
  { exists Accepted. apply check_price_band_inactive. intros [_ ?]. lia. }
  destruct (band_allowance_defined config reference) as (a & Ha & _); [lia|done|].
  eexists. apply check_price_band_spec; [|exact Ha|lia]. split; [|lia].
  destruct Hp as (m & e & -> & _). done.
Qed.

Lemma run_checks_defined config reference o :
  band_pct_ok (price_band_pct config) → reference < 9223372036854775808 → sane_limit o →
  ∃ r, run_checks config reference (new_order_quantity o) (new_order_limit o) = Ok r.
Proof.
  intros Hp Hr Hlim. unfold run_checks. case_match; [by eexists|].
  destruct (new_order_limit o) as [p|] eqn:Ep; [|by eexists]. simpl. case_match; [by eexists|].
  destruct (check_price_band_defined config reference p) as [r ->]; [done..|by apply Hlim|]. simpl.
  case_match; by eexists.
Qed.

(** C19. Bounds: the band's arithmetic stays in range.  For a percentage of at most one half, any reference and
    any non-negative limit that fit [int64_t]: around a positive reference the product in binary64 is finite and
    rounds to an [int64_t] of at most three quarters of its maximum, and neither the distance to the reference
    nor its magnitude overflows; a reference that is not positive switches the band off, whatever the price.  So
    the checks return, and accept exactly the orders within the limits. *)
Theorem band_arithmetic_in_range config reference o :
  band_pct_ok (price_band_pct config) → in_i64 reference → sane_limit o →
  (0 < reference → ∃ a, band_allowance config reference = Some a ∧ 0 <= a <= 6917529027641081856 ∧
    ∀ p, new_order_limit o = Some p → in_i64 (p - reference) ∧ in_i64 (Z.abs (p - reference)) ∧
      check_price_band config reference p =
        Ok (if Z.leb (Z.abs (p - reference)) a then Accepted else PriceOutOfBand)) ∧
  (reference <= 0 → ∀ p, check_price_band config reference p = Ok Accepted) ∧
  ∃ r, run_checks config reference (new_order_quantity o) (new_order_limit o) = Ok r ∧
    (r = Accepted ↔ within_limits config reference o).
Proof.
  intros Hp Hr Hs. unfold in_i64 in Hr. split; [|split].
  - intros Hpos. destruct (band_allowance_defined config reference ltac:(lia) Hp) as (a & Ha & Hb).
    exists a. split_and!; [done|lia..|]. intros p Ep. specialize (Hs p Ep). unfold in_i64.
    split; [lia|]. split; [lia|]. apply check_price_band_spec; [|done|lia].
    split; [|done]. destruct Hp as (m & e & -> & _). done.
  - intros Hle p. apply check_price_band_inactive. intros [_ ?]. lia.
  - destruct (run_checks_defined config reference o Hp ltac:(lia) Hs) as [r Er]. exists r. split; [done|].
    rewrite <- run_checks_accepts, Er. split; [by intros ->|by intros [= ->]].
Qed.

(** Witness: the default band around the largest reference, and switched off by a negative one. *)
Lemma band_arithmetic_in_range_witness :
  (∃ a, band_allowance RiskConfig_default 9223372036854775807 = Some a ∧ a <= 6917529027641081856 ∧
    check_price_band RiskConfig_default 9223372036854775807 0 = Ok PriceOutOfBand) ∧
  check_price_band RiskConfig_default (-1) 0 = Ok Accepted.
Proof.
  assert (sane_limit (NLimit (mkLimit 1 Buy 0 5 1))) as Hs by (intros p [= <-]; lia). split.
  - destruct (band_arithmetic_in_range RiskConfig_default 9223372036854775807 (NLimit (mkLimit 1 Buy 0 5 1)) band_pct_10
      ltac:(unfold in_i64; lia) Hs) as ((a & Ha & Hb & Hc) & _); [lia|].
    exists a. split; [exact Ha|]. split; [lia|]. destruct (Hc 0 eq_refl) as (_ & _ & ->).
    vm_compute in Ha. injection Ha as <-. reflexivity.
  - destruct (band_arithmetic_in_range RiskConfig_default (-1) (NLimit (mkLimit 1 Buy 0 5 1)) band_pct_10
      ltac:(unfold in_i64; lia) Hs) as (_ & Hoff & _). by apply Hoff.
Defined.
