(* ===== verification/SpscRing.v ===== *)
(** * SpscRing: lockfree_queue/spsc_ring_buffer.hpp

    The single-producer single-consumer ring.  [try_push] and [try_pop] are
    the two member functions run without interference; [ring_step] is one
    thread's next shared-memory access, so that a run interleaves a producer
    and a consumer at every load, slot access and store.  Indices are
    [size_t], the capacity is a power of two, a slot is selected by masking. *)
From S2P Require Import Prelude.

Record Ring (T : Type) := mkRing { rb_head : Z; rb_tail : Z; rb_slots : list T }.
Arguments mkRing {T} _ _ _.
Arguments rb_head {T} _.
Arguments rb_tail {T} _.
Arguments rb_slots {T} _.

Section Ring.
Context {T : Type}.
Variable capacity : Z.

Definition mask : Z := u64_sub capacity 1.

Definition slot_of (index : Z) : nat := Z.to_nat (Z.land index mask).

(** A default-constructed ring; [dflt] is the value-initialised element. *)
Definition Ring_new (dflt : T) : Ring T := mkRing 0 0 (replicate (Z.to_nat capacity) dflt).

Definition write_item (index : Z) (item : T) (r : Ring T) : Ring T :=
  mkRing (rb_head r) (rb_tail r) (<[slot_of index := item]> (rb_slots r)).

Definition store_tail (tail : Z) (r : Ring T) : Ring T := mkRing (rb_head r) tail (rb_slots r).

Definition store_head (head : Z) (r : Ring T) : Ring T := mkRing head (rb_tail r) (rb_slots r).

Definition ring_full (tail head : Z) : bool := Z.leb capacity (u64_sub tail head).

Definition ring_empty (head tail : Z) : bool := Z.leb tail head.

Definition try_push (item : T) (r : Ring T) : bool * Ring T :=
  let tail := rb_tail r in
  let head := rb_head r in
  if ring_full tail head then (false, r)
  else (true, store_tail (u64_add tail 1) (write_item tail item r)).

(** [None] is [false] with [out] untouched. *)
Definition try_pop (r : Ring T) : outcome (option T * Ring T) :=
  let head := rb_head r in
  let tail := rb_tail r in
  if ring_empty head tail then Ok (None, r)
  else
    out ← deref (rb_slots r !! slot_of head);
    Ok (Some out, store_head (u64_add head 1) r).

Definition ring_size (r : Ring T) : Z := u64_sub (rb_tail r) (rb_head r).

(** ** Two threads *)

(** Where the producer is inside [try_push], with its local variables. *)
Inductive producer :=
| PIdle
| PTail (item : T) (tail : Z)
| PBoth (item : T) (tail head : Z)
| PWrote (item : T) (tail : Z).

Inductive consumer :=
| CIdle
| CHead (head : Z)
| CBoth (head tail : Z)
| CRead (head : Z) (out : T).

(** The shared ring, both threads, and what has been pushed and popped so
    far in the order of the publishing stores. *)
Record RingRun := mkRun {
  rr_ring : Ring T; rr_prod : producer; rr_cons : consumer;
  rr_pushed : list T; rr_popped : list T }.

Inductive ring_step : RingRun → RingRun → Prop :=
| step_load_tail r c ps qs item :
    ring_step (mkRun r PIdle c ps qs) (mkRun r (PTail item (rb_tail r)) c ps qs)
| step_load_head r c ps qs item tail :
    ring_step (mkRun r (PTail item tail) c ps qs) (mkRun r (PBoth item tail (rb_head r)) c ps qs)
| step_push_full r c ps qs item tail head :
    ring_full tail head = true →
    ring_step (mkRun r (PBoth item tail head) c ps qs) (mkRun r PIdle c ps qs)
| step_write r c ps qs item tail head :
    ring_full tail head = false →
    ring_step (mkRun r (PBoth item tail head) c ps qs)
              (mkRun (write_item tail item r) (PWrote item tail) c ps qs)
| step_store_tail r c ps qs item tail :
    ring_step (mkRun r (PWrote item tail) c ps qs)
              (mkRun (store_tail (u64_add tail 1) r) PIdle c (ps ++ [item]) qs)
| step_pop_head r p ps qs :
    ring_step (mkRun r p CIdle ps qs) (mkRun r p (CHead (rb_head r)) ps qs)
| step_pop_tail r p ps qs head :
    ring_step (mkRun r p (CHead head) ps qs) (mkRun r p (CBoth head (rb_tail r)) ps qs)
| step_pop_empty r p ps qs head tail :
    ring_empty head tail = true →
    ring_step (mkRun r p (CBoth head tail) ps qs) (mkRun r p CIdle ps qs)
| step_read r p ps qs head tail out :
    ring_empty head tail = false → rb_slots r !! slot_of head = Some out →
    ring_step (mkRun r p (CBoth head tail) ps qs) (mkRun r p (CRead head out) ps qs)
| step_store_head r p ps qs head out :
    ring_step (mkRun r p (CRead head out) ps qs)
              (mkRun (store_head (u64_add head 1) r) p CIdle ps (qs ++ [out])).

Definition run_start (dflt : T) : RingRun := mkRun (Ring_new dflt) PIdle CIdle [] [].

Inductive ring_reachable (dflt : T) : RingRun → Prop :=
| rr_start : ring_reachable dflt (run_start dflt)
| rr_step s s' : ring_reachable dflt s → ring_step s s' → ring_reachable dflt s'.
End Ring.
Arguments RingRun T : clear implicits.
Arguments producer T : clear implicits.
Arguments consumer T : clear implicits.

(** ** Invariant *)

Section Invariant.
Context {T : Type}.
Variables (capacity : Z) (k : Z).
Hypothesis capacity_pow2 : capacity = 2 ^ k.
Hypothesis capacity_bits : 0 <= k < 63.

Lemma capacity_bounds : 0 < capacity < 9223372036854775808.
Proof.
  subst capacity. split; [apply Z.pow_pos_nonneg; lia|].
  change 9223372036854775808 with (2 ^ 63). apply Z.pow_lt_mono_r; lia.
Qed.

(** Masking selects the index modulo the capacity. *)
Lemma slot_of_mod i : 0 <= i → slot_of capacity i = Z.to_nat (i mod capacity).
Proof.
  intros Hi. unfold slot_of, mask. pose proof capacity_bounds. rewrite u64_sub_small by (u64; lia).
  subst capacity. f_equal. rewrite <- (Z.land_ones i k) by lia. f_equal.
  rewrite Z.ones_equiv. lia.
Qed.

Lemma slot_of_lt i : 0 <= i → (slot_of capacity i < Z.to_nat capacity)%nat.
Proof.
  intros Hi. rewrite slot_of_mod by done. pose proof capacity_bounds.
  pose proof (Z.mod_pos_bound i capacity ltac:(lia)). lia.
Qed.

(** Two indices less than a lap apart use different slots. *)
Lemma slot_of_inj i j : 0 <= i → i < j < i + capacity → slot_of capacity i ≠ slot_of capacity j.
Proof.
  intros Hi Hj E. rewrite !slot_of_mod in E by lia. pose proof capacity_bounds as Hc.
  pose proof (Z.mod_pos_bound i capacity ltac:(lia)). pose proof (Z.mod_pos_bound j capacity ltac:(lia)).
  assert (i mod capacity = j mod capacity) as Em by lia.
  pose proof (Z.div_mod i capacity ltac:(lia)). pose proof (Z.div_mod j capacity ltac:(lia)).
  assert (j - i = capacity * (j / capacity - i / capacity)) as Ed by lia.
  assert (0 < j / capacity - i / capacity < 1) by nia. lia.
Qed.

(** The queue's indices count pushes and pops; the slots from head to tail
    hold the items not yet popped. *)
Record run_inv (s : RingRun T) : Prop := {
  ri_tail : rb_tail (rr_ring s) = Z.of_nat (length (rr_pushed s));
  ri_head : rb_head (rr_ring s) = Z.of_nat (length (rr_popped s));
  ri_size : (length (rr_popped s) <= length (rr_pushed s))%nat;
  ri_room : Z.of_nat (length (rr_pushed s)) <= Z.of_nat (length (rr_popped s)) + capacity;
  ri_slots : length (rb_slots (rr_ring s)) = Z.to_nat capacity;
  ri_live i : (length (rr_popped s) <= i < length (rr_pushed s))%nat →
    rb_slots (rr_ring s) !! slot_of capacity (Z.of_nat i) = rr_pushed s !! i;
  ri_fifo : rr_popped s `prefix_of` rr_pushed s;
  ri_prod : match rr_prod s with
    | PIdle => True
    | PTail _ t => t = rb_tail (rr_ring s)
    | PBoth _ t h => t = rb_tail (rr_ring s) ∧ 0 <= h <= rb_head (rr_ring s)
    | PWrote item t => t = rb_tail (rr_ring s) ∧ t < rb_head (rr_ring s) + capacity ∧
        rb_slots (rr_ring s) !! slot_of capacity t = Some item
    end;
  ri_cons : match rr_cons s with
    | CIdle => True
    | CHead h => h = rb_head (rr_ring s)
    | CBoth h t => h = rb_head (rr_ring s) ∧ t <= rb_tail (rr_ring s)
    | CRead h out => h = rb_head (rr_ring s) ∧ rr_pushed s !! length (rr_popped s) = Some out
    end }.

Lemma run_start_inv dflt : run_inv (run_start capacity dflt).
Proof.
  pose proof capacity_bounds. split; simpl; try done; try lia.
  apply length_replicate.
Qed.

(** The producer's slot is not one the consumer may still read. *)
Lemma write_keeps_live s i item :
  run_inv s → rb_tail (rr_ring s) < rb_head (rr_ring s) + capacity →
  (length (rr_popped s) <= i < length (rr_pushed s))%nat →
  <[slot_of capacity (rb_tail (rr_ring s)) := item]> (rb_slots (rr_ring s)) !! slot_of capacity (Z.of_nat i)
  = rr_pushed s !! i.
Proof.
  intros [] Hroom Hi. rewrite list_lookup_insert_ne; [by apply ri_live0|].
  apply not_eq_sym, slot_of_inj; lia.
Qed.

Lemma ring_full_spec tail head :
  0 <= head <= tail → tail < 18446744073709551616 →
  ring_full capacity tail head = Z.leb (head + capacity) tail.
Proof.
  clear capacity_pow2 capacity_bits. intros Hh Ht. unfold ring_full. rewrite u64_sub_small by (u64; lia).
  destruct (Z.leb_spec capacity (tail - head)), (Z.leb_spec (head + capacity) tail); done || lia.
Qed.

(** Producer steps. *)
Lemma store_tail_inv r c ps qs item tail :
  run_inv (mkRun r (PWrote item tail) c ps qs) → Z.of_nat (length ps) < 18446744073709551615 →
  run_inv (mkRun (store_tail (u64_add tail 1) r) PIdle c (ps ++ [item]) qs).
Proof.
  intros [] Hn. simpl in *. destruct ri_prod0 as (-> & Hroom & Hslot).
  split; simpl; rewrite ?length_app; simpl; try done; try lia.
  - unfold u64_add. rewrite wrap64_small; u64; lia.
  - intros i Hi. destruct (decide (i = length ps)) as [->|Hne].
    + rewrite <- ri_tail0, Hslot. by rewrite lookup_app_r, Nat.sub_diag.
    + rewrite ri_live0, lookup_app_l by lia. done.
  - by apply prefix_app_r.
  - destruct c; try done.
    + destruct ri_cons0. split; [done|]. unfold u64_add. rewrite wrap64_small; u64; lia.
    + destruct ri_cons0 as [? Hl]. split; [done|]. rewrite lookup_app_l; [done|].
      by apply lookup_lt_Some in Hl.
Qed.

Lemma write_inv r c ps qs item tail head :
  run_inv (mkRun r (PBoth item tail head) c ps qs) → Z.of_nat (length ps) < 18446744073709551616 →
  ring_full capacity tail head = false →
  run_inv (mkRun (write_item capacity tail item r) (PWrote item tail) c ps qs).
Proof.
  intros Hi Hn Hf. pose proof Hi as []. simpl in *. destruct ri_prod0 as (-> & Hh).
  rewrite ring_full_spec in Hf by lia. apply Z.leb_gt in Hf.
  split; simpl; try done; try lia.
  - by rewrite length_insert.
  - intros i Hlt. apply (write_keeps_live _ i item Hi); simpl; [lia|done].
  - split; [done|]. split; [lia|]. apply list_lookup_insert_eq. rewrite ri_slots0. apply slot_of_lt. lia.
Qed.

(** Consumer steps. *)
Lemma read_inv r p ps qs head tail out :
  run_inv (mkRun r p (CBoth head tail) ps qs) → ring_empty head tail = false →
  rb_slots r !! slot_of capacity head = Some out → run_inv (mkRun r p (CRead head out) ps qs).
Proof.
  intros [] He Ho. simpl in *. destruct ri_cons0 as (-> & Ht).
  unfold ring_empty in He. apply Z.leb_gt in He. split; simpl; try done.
  split; [done|]. rewrite <- ri_live0, <- ri_head0 by lia. done.
Qed.

Lemma store_head_inv r p ps qs head out :
  run_inv (mkRun r p (CRead head out) ps qs) → Z.of_nat (length ps) < 18446744073709551616 →
  run_inv (mkRun (store_head (u64_add head 1) r) p CIdle ps (qs ++ [out])).
Proof.
  intros [] Hn. simpl in *. destruct ri_cons0 as (-> & Hl). pose proof (lookup_lt_Some _ _ _ Hl) as Hlt.
  assert (u64_add (rb_head r) 1 = rb_head r + 1) as Eh by (unfold u64_add; rewrite wrap64_small; u64; lia).
  split; simpl; rewrite ?length_app; simpl; try done; try lia.
  - intros i Hi. apply ri_live0. lia.
  - destruct ri_fifo0 as [rest ->]. rewrite lookup_app_r, Nat.sub_diag in Hl by lia.
    destruct rest as [|x rest]; [done|]. simpl in Hl. simplify_eq. exists rest. by rewrite <- app_assoc.
  - destruct p; simpl in *; try done; rewrite Eh; intuition lia.
Qed.

Lemma ring_step_inv s s' :
  ring_step capacity s s' → run_inv s → Z.of_nat (length (rr_pushed s')) < 18446744073709551616 →
  run_inv s'.
Proof.
  intros Hs Hi Hn. destruct Hs; simpl in Hn.
  - destruct Hi. split; simpl in *; done.
  - destruct Hi. split; simpl in *; try done. split; [done|lia].
  - destruct Hi. split; simpl in *; done.
  - by eapply write_inv.
  - rewrite length_app in Hn. simpl in Hn. apply store_tail_inv; [done|lia].
  - destruct Hi. split; simpl in *; done.
  - destruct Hi. split; simpl in *; done.
  - destruct Hi. split; simpl in *; done.
  - by eapply read_inv.
  - by apply store_head_inv.
Qed.

Lemma ring_step_pushed (s s' : RingRun T) :
  ring_step capacity s s' → (length (rr_pushed s) <= length (rr_pushed s'))%nat.
Proof. destruct 1; simpl; rewrite ?length_app; lia. Qed.

Lemma ring_reachable_inv dflt s :
  ring_reachable capacity dflt s → Z.of_nat (length (rr_pushed s)) < 18446744073709551616 → run_inv s.
Proof.
  induction 1 as [|s s' Hr IH Hs]; intros Hn; [apply run_start_inv|].
  eapply ring_step_inv; try done. apply IH. apply ring_step_pushed in Hs. lia.
Qed.
End Invariant.

(** ** Properties *)

Section Properties.
Context {T : Type}.
Implicit Types (r : Ring T) (s : RingRun T).

(** FIFO under any interleaving: before 2^64 pushes, what the consumer has
    popped is a prefix of what the producer has pushed, in order, without
    loss, duplication or reordering; the indices count both; at most
    [capacity] items are in flight. *)
Theorem ring_fifo capacity k (dflt : T) s :
  capacity = 2 ^ k → 0 <= k < 63 → ring_reachable capacity dflt s →
  Z.of_nat (length (rr_pushed s)) < 18446744073709551616 →
  rr_popped s `prefix_of` rr_pushed s ∧
  ring_size (rr_ring s) = Z.of_nat (length (rr_pushed s)) - Z.of_nat (length (rr_popped s)) ∧
  ring_size (rr_ring s) <= capacity.
Proof.
  intros Hc Hk Hr Hn. destruct (ring_reachable_inv _ _ Hc Hk _ _ Hr Hn). split; [done|].
  unfold ring_size. rewrite ri_tail0, ri_head0, u64_sub_small; u64; lia.
Qed.

(** No data race: when the producer is about to write its slot and the
    consumer is about to read one, the slots differ, so the two plain
    accesses never meet; and the consumer's read finds the next item in
    order, initialised by the producer. *)
Theorem ring_race_free capacity k (dflt : T) s item tail head h t :
  capacity = 2 ^ k → 0 <= k < 63 → ring_reachable capacity dflt s →
  Z.of_nat (length (rr_pushed s)) < 18446744073709551616 →
  rr_prod s = PBoth item tail head → ring_full capacity tail head = false →
  rr_cons s = CBoth h t → ring_empty h t = false →
  slot_of capacity tail ≠ slot_of capacity h ∧
  rb_slots (rr_ring s) !! slot_of capacity h = rr_pushed s !! length (rr_popped s) ∧
  is_Some (rr_pushed s !! length (rr_popped s)).
Proof.
  intros Hc Hk Hr Hn Ep Hf Ec He. destruct (ring_reachable_inv _ _ Hc Hk _ _ Hr Hn).
  rewrite Ep in ri_prod0. rewrite Ec in ri_cons0. destruct ri_prod0 as [-> Hh], ri_cons0 as [-> Ht].
  rewrite (ring_full_spec capacity) in Hf by lia. apply Z.leb_gt in Hf. apply Z.leb_gt in He.
  split; [apply not_eq_sym, (slot_of_inj _ _ Hc Hk); lia|]. split; [rewrite ri_head0; apply ri_live0; lia|].
  apply lookup_lt_is_Some. lia.
Qed.

(** The member functions without interference are a bounded queue: push
    fails exactly when [capacity] items are queued, otherwise appends; pop
    fails exactly when none is, otherwise returns the oldest. *)
Theorem ring_is_bounded_queue capacity k (dflt : T) r ps qs item :
  capacity = 2 ^ k → 0 <= k < 63 →
  ring_reachable capacity dflt (mkRun r PIdle CIdle ps qs) →
  Z.of_nat (length ps) < 18446744073709551615 →
  (if Z.leb capacity (Z.of_nat (length ps - length qs)) then try_push capacity item r = (false, r)
   else ∃ r', try_push capacity item r = (true, r') ∧
              ring_reachable capacity dflt (mkRun r' PIdle CIdle (ps ++ [item]) qs)) ∧
  match ps !! length qs with
  | None => try_pop capacity r = Ok (None, r)
  | Some out => ∃ r', try_pop capacity r = Ok (Some out, r') ∧
                      ring_reachable capacity dflt (mkRun r' PIdle CIdle ps (qs ++ [out]))
  end.
Proof.
  intros Hc Hk Hr Hn. pose proof (ring_reachable_inv _ _ Hc Hk _ _ Hr) as Hi. simpl in Hi.
  destruct Hi; [lia|]. simpl in *. split.
  - unfold try_push. pose proof (ring_full_spec capacity (rb_tail r) (rb_head r)) as Hf.
    rewrite Hf by lia. destruct (Z.leb_spec capacity (Z.of_nat (length ps - length qs))),
      (Z.leb_spec (rb_head r + capacity) (rb_tail r)); try lia; [done|].
    eexists. split; [done|].
    eapply rr_step; [eapply rr_step; [eapply rr_step; [eapply rr_step; [exact Hr|]|]|]|].
    + apply (step_load_tail _ _ _ _ _ item).
    + apply step_load_head.
    + apply step_write, Hf; lia.
    + apply step_store_tail.
  - unfold try_pop, ring_empty. destruct (ps !! length qs) as [out|] eqn:El.
    + pose proof (lookup_lt_Some _ _ _ El). rewrite (proj2 (Z.leb_gt _ _)) by lia.
      assert (rb_slots r !! slot_of capacity (rb_head r) = Some out) as Hs
        by (rewrite ri_head0, ri_live0 by lia; done).
      rewrite Hs. simpl. eexists. split; [done|].
      eapply rr_step; [eapply rr_step; [eapply rr_step; [eapply rr_step; [exact Hr|]|]|]|].
      * apply step_pop_head.
      * apply step_pop_tail.
      * apply (step_read _ _ _ _ _ _ _ out); [|done]. unfold ring_empty. apply Z.leb_gt. lia.
      * apply step_store_head.
    + apply lookup_ge_None in El. by rewrite (proj2 (Z.leb_le _ _)) by lia.
Qed.

(** After 2^64 - 1 pushes and pops the empty ring's next push makes the tail
    wrap to zero; pushes go on succeeding, but [head >= tail] then reads as
    empty: [try_pop] reports an empty queue, again and again, while the
    pushed item is there. *)
Theorem ring_pop_fails_after_wrap capacity k r item :
  capacity = 2 ^ k → 0 <= k < 63 →
  rb_head r = 18446744073709551615 → rb_tail r = 18446744073709551615 →
  ∃ r', try_push capacity item r = (true, r') ∧ ring_size r' = 1 ∧ try_pop capacity r' = Ok (None, r').
Proof.
  intros Hc Hk Hh Ht. pose proof (capacity_bounds _ _ Hc Hk) as Hb. unfold try_push. rewrite Hh, Ht.
  assert (ring_full capacity 18446744073709551615 18446744073709551615 = false) as ->.
  { unfold ring_full. change (u64_sub _ _) with 0. apply Z.leb_gt. lia. }
  eexists. split; [done|]. unfold ring_size, try_pop, ring_empty. simpl. rewrite Hh. done.
Qed.
End Properties.

(** ** Witnesses: a ring of four slots *)

(** One item pushed; then the producer about to write a second and the
    consumer about to read the first. *)
Definition ring_after_push : Ring Z := (try_push 4 7 (Ring_new 4 0)).2.

Lemma after_push_reachable :
  ring_reachable 4 0 (mkRun ring_after_push PIdle CIdle [7] []).
Proof.
  eapply rr_step; [eapply rr_step; [eapply rr_step; [eapply rr_step; [apply rr_start|]|]|]|].
  - apply (step_load_tail _ _ _ _ _ 7).
  - apply step_load_head.
  - apply step_write. reflexivity.
  - exact (step_store_tail 4 _ CIdle [] [] 7 0).
Qed.

Lemma both_inside_reachable :
  ring_reachable 4 0 (mkRun ring_after_push (PBoth 8 1 0) (CBoth 0 1) [7] []).
Proof.
  eapply rr_step; [eapply rr_step; [eapply rr_step; [eapply rr_step; [apply after_push_reachable|]|]|]|].
  - exact (step_load_tail 4 ring_after_push CIdle [7] [] 8).
  - exact (step_pop_head 4 ring_after_push _ [7] []).
  - exact (step_load_head 4 ring_after_push _ [7] [] 8 1).
  - exact (step_pop_tail 4 ring_after_push _ [7] [] 0).
Qed.

Lemma ring_fifo_witness : ring_size ring_after_push = 1 ∧ [] `prefix_of` [7].
Proof.
  destruct (ring_fifo 4 2 0 (mkRun ring_after_push PIdle CIdle [7] []) eq_refl ltac:(lia)
    after_push_reachable ltac:(simpl; lia)) as (Hp & Hs & _).
  split; [exact Hs|exact Hp].
Defined.

Lemma ring_race_free_witness : slot_of 4 1 ≠ slot_of 4 0.
Proof.
  apply (ring_race_free 4 2 0 (mkRun ring_after_push (PBoth 8 1 0) (CBoth 0 1) [7] []) 8 1 0 0 1
    eq_refl ltac:(lia) both_inside_reachable ltac:(simpl; lia)); reflexivity.
Defined.

Lemma ring_is_bounded_queue_witness :
  ∃ r', try_pop 4 ring_after_push = Ok (Some 7, r') ∧
        ring_reachable 4 0 (mkRun r' PIdle CIdle [7] [7]).
Proof.
  exact (proj2 (ring_is_bounded_queue 4 2 0 ring_after_push [7] [] 9 eq_refl ltac:(lia)
    after_push_reachable ltac:(simpl; lia))).
Defined.

Lemma ring_pop_fails_after_wrap_witness :
  ∃ r', try_push 4 5 (mkRing 18446744073709551615 18446744073709551615 [0; 0; 0; 0]) = (true, r') ∧
        ring_size r' = 1 ∧ try_pop 4 r' = Ok (None, r').
Proof.
  exact (ring_pop_fails_after_wrap 4 2 (mkRing 18446744073709551615 18446744073709551615 [0; 0; 0; 0]) 5
    eq_refl ltac:(lia) eq_refl eq_refl).
Defined.
