(* ===== verification/Bytes.v ===== *)
(** * Bytes: machine integers in memory, and adapters/binary_protocol/ByteOrder.hpp

    A byte is a [Z] from 0 to 255.  [std::memcpy] of an integer copies its
    object representation, little or big endian depending on the host; the
    codec's byte-order functions are written for either, so the host's
    endianness is a parameter.  Spans are byte lists; an access outside one
    is undefined. *)
From S2P Require Import Prelude.

Definition is_byte (b : Z) : Prop := 0 <= b < 256.

(** ** Object representations *)

Fixpoint le_bytes (n : nat) (v : Z) : list Z :=
  match n with O => [] | S n => v mod 256 :: le_bytes n (v / 256) end.

Fixpoint of_le (bs : list Z) : Z :=
  match bs with [] => 0 | b :: bs => b + 256 * of_le bs end.

Definition be_bytes (n : nat) (v : Z) : list Z := rev (le_bytes n v).

Definition of_be (bs : list Z) : Z := of_le (rev bs).

(** ** ByteOrder.hpp on a host *)

Section Host.
Variable host_little : bool.

(** The bytes [memcpy] copies for an [n]-byte integer, and back. *)
Definition host_bytes (n : nat) (v : Z) : list Z :=
  if host_little then le_bytes n v else be_bytes n v.

Definition of_host (bs : list Z) : Z := if host_little then of_le bs else of_be bs.

(** [htobe64] and [be64toh] (one function: a swap or nothing). *)
Definition htobe64 (v : Z) : Z := if host_little then of_le (be_bytes 8 v) else v.

Definition to_network_u64 (v : Z) : Z := htobe64 v.

Definition from_network_u64 (v : Z) : Z := htobe64 v.

(** The signed overloads go through the unsigned bit pattern. *)
Definition to_network_i64 (v : Z) : Z := to_i64 (htobe64 (wrap64 v)).

Definition from_network_i64 (v : Z) : Z := to_i64 (htobe64 (wrap64 v)).

(** ** [detail::write_field] and [detail::read_field] *)

Definition write_field (out : list Z) (offset : nat) (bytes : list Z) : outcome (list Z * nat) :=
  if Nat.leb (offset + length bytes) (length out)
  then Ok (take offset out ++ bytes ++ drop (offset + length bytes) out, (offset + length bytes)%nat)
  else Undefined.

Definition read_field (n : nat) (bs : list Z) (offset : nat) : outcome (Z * nat) :=
  if Nat.leb (offset + n) (length bs)
  then Ok (of_host (take n (drop offset bs)), (offset + n)%nat)
  else Undefined.

(** Typed fields. *)
Definition write_u8 (v : Z) (st : list Z * nat) : outcome (list Z * nat) :=
  write_field st.1 st.2 (host_bytes 1 v).

Definition write_u64 (v : Z) (st : list Z * nat) : outcome (list Z * nat) :=
  write_field st.1 st.2 (host_bytes 8 (to_network_u64 v)).

Definition write_i64 (v : Z) (st : list Z * nat) : outcome (list Z * nat) :=
  write_field st.1 st.2 (host_bytes 8 (to_network_i64 v)).

Definition read_u8 (bs : list Z) (offset : nat) : outcome (Z * nat) := read_field 1 bs offset.

Definition read_u64 (bs : list Z) (offset : nat) : outcome (Z * nat) :=
  '(v, offset) ← read_field 8 bs offset; Ok (from_network_u64 v, offset).

Definition read_i64 (bs : list Z) (offset : nat) : outcome (Z * nat) :=
  '(v, offset) ← read_field 8 bs offset; Ok (from_network_i64 (to_i64 v), offset).
End Host.

(** ** Facts *)

Lemma length_le_bytes n v : length (le_bytes n v) = n.
Proof. revert v. induction n as [|n IH]; intros v; simpl; [done|]. by rewrite IH. Qed.

Lemma length_be_bytes n v : length (be_bytes n v) = n.
Proof. unfold be_bytes. by rewrite length_rev, length_le_bytes. Qed.

Lemma le_bytes_range n v : Forall is_byte (le_bytes n v).
Proof.
  revert v. induction n as [|n IH]; intros v; simpl; constructor; auto.
  unfold is_byte. apply Z.mod_pos_bound. lia.
Qed.

Lemma be_bytes_range n v : Forall is_byte (be_bytes n v).
Proof. unfold be_bytes. apply Forall_rev, le_bytes_range. Qed.

Lemma of_le_bytes n v : of_le (le_bytes n v) = v mod 256 ^ Z.of_nat n.
Proof.
  revert v. induction n as [|n IH]; intros v; simpl; [by rewrite Z.mod_1_r|].
  rewrite IH, Nat2Z.inj_succ, Z.pow_succ_r by lia.
  rewrite Z.rem_mul_r by (try apply Z.pow_nonzero; lia). lia.
Qed.

Lemma of_le_range bs : Forall is_byte bs → 0 <= of_le bs < 256 ^ Z.of_nat (length bs).
Proof.
  induction 1 as [|b bs Hb _ IH]; [simpl; lia|]. cbn [of_le length].
  rewrite Nat2Z.inj_succ, Z.pow_succ_r by lia. unfold is_byte in Hb. lia.
Qed.

Lemma le_bytes_of_le bs : Forall is_byte bs → le_bytes (length bs) (of_le bs) = bs.
Proof.
  induction 1 as [|b bs Hb _ IH]; simpl; [done|]. unfold is_byte in Hb.
  rewrite (Z.mul_comm 256), Z_mod_plus_full, Z.mod_small by lia.
  f_equal. rewrite <- (Z.div_unique (b + of_le bs * 256) 256 (of_le bs) b) by lia. apply IH.
Qed.

Lemma le_bytes_mod n v : le_bytes n (v mod 256 ^ Z.of_nat n) = le_bytes n v.
Proof.
  rewrite <- of_le_bytes. rewrite <- (length_le_bytes n v) at 1. apply le_bytes_of_le, le_bytes_range.
Qed.

Lemma wrap64_pow v : wrap64 v = v mod 256 ^ Z.of_nat 8.
Proof. done. Qed.

Lemma wrap64_to_i64 v : in_u64 v → wrap64 (to_i64 v) = v.
Proof.
  unfold to_i64. u64. intros Hv. destruct (Z.ltb_spec v 9223372036854775808).
  - by apply Z.mod_small.
  - replace (v - 18446744073709551616) with (v + (-1) * 18446744073709551616) by lia.
    rewrite Z_mod_plus_full. by apply Z.mod_small.
Qed.

Lemma to_i64_wrap64 v : in_i64 v → to_i64 (wrap64 v) = v.
Proof.
  unfold to_i64. u64. intros Hv. destruct (Z.ltb_spec v 0).
  - assert (v mod 18446744073709551616 = v + 18446744073709551616) as ->.
    { symmetry. apply (Z.mod_unique_pos _ _ (-1)); lia. }
    destruct (Z.ltb_spec (v + 18446744073709551616) 9223372036854775808); lia.
  - rewrite Z.mod_small by lia. destruct (Z.ltb_spec v 9223372036854775808); lia.
Qed.

Lemma to_i64_range v : in_u64 v → in_i64 (to_i64 v).
Proof. unfold to_i64. u64. intros. destruct (Z.ltb_spec v 9223372036854775808); lia. Qed.

Lemma le_bytes_wrap v : le_bytes 8 (wrap64 v) = le_bytes 8 v.
Proof. rewrite wrap64_pow. apply le_bytes_mod. Qed.

Section HostFacts.
Variable host_little : bool.

Lemma htobe64_range v : in_u64 v → in_u64 (htobe64 host_little v).
Proof.
  unfold htobe64. destruct host_little; [|done]. intros _.
  pose proof (of_le_range (be_bytes 8 v) (be_bytes_range 8 v)) as Hr.
  rewrite length_be_bytes in Hr. u64. change (256 ^ Z.of_nat 8) with 18446744073709551616 in Hr. lia.
Qed.

(** Whatever the host, an integer goes out in network byte order. *)
Lemma host_bytes_network v : host_bytes host_little 8 (htobe64 host_little v) = be_bytes 8 v.
Proof.
  unfold host_bytes, htobe64. destruct host_little; [|done].
  rewrite <- (length_be_bytes 8 v) at 1. apply le_bytes_of_le, be_bytes_range.
Qed.

Lemma wire_u64 v : host_bytes host_little 8 (to_network_u64 host_little v) = be_bytes 8 v.
Proof. apply host_bytes_network. Qed.

Lemma wire_i64 v : host_bytes host_little 8 (to_network_i64 host_little v) = be_bytes 8 v.
Proof.
  unfold to_network_i64.
  assert (∀ u, host_bytes host_little 8 (wrap64 u) = host_bytes host_little 8 u) as Hw.
  { intros u. unfold host_bytes, be_bytes. by rewrite le_bytes_wrap. }
  rewrite <- Hw, wrap64_to_i64 by (apply htobe64_range, wrap64_range).
  rewrite host_bytes_network. unfold be_bytes. by rewrite le_bytes_wrap.
Qed.

(** ... and comes back from it. *)
Lemma unwire_u64 bs :
  length bs = 8%nat → Forall is_byte bs → from_network_u64 host_little (of_host host_little bs) = of_be bs.
Proof.
  intros Hl Hb. unfold from_network_u64, htobe64, of_host. destruct host_little; [|done].
  unfold of_be, be_bytes. rewrite <- Hl at 1. by rewrite le_bytes_of_le.
Qed.

Lemma of_host_range bs : length bs = 8%nat → Forall is_byte bs → in_u64 (of_host host_little bs).
Proof.
  intros Hl Hb. unfold of_host, of_be. change 18446744073709551616 with (256 ^ Z.of_nat 8). unfold in_u64.
  change 18446744073709551616 with (256 ^ Z.of_nat 8). rewrite <- Hl. destruct host_little; [by apply of_le_range|].
  rewrite <- length_rev. by apply of_le_range, Forall_rev.
Qed.

Lemma unwire_i64 bs :
  length bs = 8%nat → Forall is_byte bs →
  from_network_i64 host_little (to_i64 (of_host host_little bs)) = to_i64 (of_be bs).
Proof.
  intros Hl Hb. unfold from_network_i64. rewrite wrap64_to_i64 by by apply of_host_range.
  f_equal. by apply unwire_u64.
Qed.

Lemma of_be_bytes v : of_be (be_bytes 8 v) = wrap64 v.
Proof. unfold of_be, be_bytes. rewrite rev_involutive, of_le_bytes. done. Qed.

Lemma be_bytes_of_be bs : length bs = 8%nat → Forall is_byte bs → be_bytes 8 (of_be bs) = bs.
Proof.
  intros Hl Hb. unfold be_bytes, of_be. replace 8%nat with (length (rev bs)) by by rewrite length_rev.
  rewrite le_bytes_of_le by by apply Forall_rev. apply rev_involutive.
Qed.

Lemma of_be_range bs : length bs = 8%nat → Forall is_byte bs → in_u64 (of_be bs).
Proof.
  intros Hl Hb. unfold of_be, in_u64. change 18446744073709551616 with (256 ^ Z.of_nat 8).
  rewrite <- Hl, <- length_rev. by apply of_le_range, Forall_rev.
Qed.

(** Writing right after what is already written. *)
Lemma write_field_at pre rest bytes :
  (length bytes <= length rest)%nat →
  write_field (pre ++ rest) (length pre) bytes =
  Ok ((pre ++ bytes) ++ drop (length bytes) rest, length (pre ++ bytes)).
Proof.
  intros Hl. unfold write_field. rewrite !length_app.
  rewrite (proj2 (Nat.leb_le _ _)) by lia. rewrite take_app_length, drop_app_ge by lia.
  rewrite <- app_assoc. do 4 f_equal. f_equal. lia.
Qed.

(** Reading what starts at the offset. *)
Lemma read_field_at n pre bytes rest :
  length bytes = n →
  read_field host_little n (pre ++ bytes ++ rest) (length pre) =
  Ok (of_host host_little bytes, length (pre ++ bytes)).
Proof.
  intros <-. unfold read_field. rewrite !length_app, (proj2 (Nat.leb_le _ _)) by lia.
  by rewrite drop_app_length, take_app_length.
Qed.
End HostFacts.
