(* ===== verification/ByteOrder.v ===== *)
(** * ByteOrder: the other overloads of adapters/binary_protocol/ByteOrder.hpp

    The 16- and 32-bit conversions and the template for the strong-typed
    wrappers.  One swap of [n] bytes underlies them all: whatever the host,
    the value it makes has the big-endian bytes in memory, and doing it again
    gives the value back. *)
From S2P Require Import Prelude Bytes.

Section Host.
Variable host_little : bool.

(** [htons], [htonl], [htobe64] and their inverses: a swap, or nothing. *)
Definition host_swap (n : nat) (v : Z) : Z := if host_little then of_le (be_bytes n v) else v.

Definition to_network_u16 (v : Z) : Z := host_swap 2 v.

Definition from_network_u16 (v : Z) : Z := host_swap 2 v.

Definition to_network_u32 (v : Z) : Z := host_swap 4 v.

Definition from_network_u32 (v : Z) : Z := host_swap 4 v.

(** [int32_t] by its bit pattern. *)
Definition to_i32 (v : Z) : Z := if Z.ltb v 2147483648 then v else v - 4294967296.

Definition in_i32 (v : Z) : Prop := -2147483648 <= v < 2147483648.

Definition to_network_i32 (v : Z) : Z := to_i32 (host_swap 4 (wrap32 v)).

Definition from_network_i32 (v : Z) : Z := to_i32 (host_swap 4 (wrap32 v)).

(** The template: extract the member, convert it with the overload of its
    type, rewrap. *)
Class Wrapper (T : Type) := {
  wrapped_value : T → Z;
  rewrap : Z → T;
  underlying_to_network : Z → Z;
  underlying_from_network : Z → Z }.

Definition to_network_wrapped {T} `{Wrapper T} (wrapped : T) : T := rewrap (underlying_to_network (wrapped_value wrapped)).

Definition from_network_wrapped {T} `{Wrapper T} (wrapped : T) : T :=
  rewrap (underlying_from_network (wrapped_value wrapped)).

(** The wrappers of core/Types.hpp by their member: [uint64_t] (OrderId,
    ClientId, Quantity, the sequences), [int64_t] (Price), [uint32_t]
    (SymbolId). *)
Record U64Wrapper := mkU64 { u64_value : Z }.

Record I64Wrapper := mkI64 { i64_value : Z }.

Record U32Wrapper := mkU32 { u32_value : Z }.

#[global] Instance u64_wrapper : Wrapper U64Wrapper := {
  wrapped_value := u64_value; rewrap := mkU64;
  underlying_to_network := to_network_u64 host_little; underlying_from_network := from_network_u64 host_little }.

#[global] Instance i64_wrapper : Wrapper I64Wrapper := {
  wrapped_value := i64_value; rewrap := mkI64;
  underlying_to_network := to_network_i64 host_little; underlying_from_network := from_network_i64 host_little }.

#[global] Instance u32_wrapper : Wrapper U32Wrapper := {
  wrapped_value := u32_value; rewrap := mkU32;
  underlying_to_network := to_network_u32; underlying_from_network := from_network_u32 }.

(** ** Facts *)

Lemma of_le_be_range n v : 0 <= of_le (be_bytes n v) < 256 ^ Z.of_nat n.
Proof. pose proof (of_le_range (be_bytes n v) (be_bytes_range n v)) as H. by rewrite length_be_bytes in H. Qed.

Lemma be_bytes_of_le_be n v : be_bytes n (of_le (be_bytes n v)) = le_bytes n v.
Proof.
  unfold be_bytes at 1. rewrite <- (length_be_bytes n v) at 1. rewrite le_bytes_of_le by apply be_bytes_range.
  unfold be_bytes. by rewrite rev_involutive.
Qed.

Lemma host_swap_bytes n v : host_bytes host_little n (host_swap n v) = be_bytes n v.
Proof.
  unfold host_bytes, host_swap. destruct host_little; [|done].
  rewrite <- (length_be_bytes n v) at 1. apply le_bytes_of_le, be_bytes_range.
Qed.

Lemma host_swap_range n v : 0 <= v < 256 ^ Z.of_nat n → 0 <= host_swap n v < 256 ^ Z.of_nat n.
Proof. unfold host_swap. destruct host_little; [|done]. intros _. apply of_le_be_range. Qed.

Lemma host_swap_involutive n v : 0 <= v < 256 ^ Z.of_nat n → host_swap n (host_swap n v) = v.
Proof.
  intros Hv. unfold host_swap. destruct host_little; [|done].
  rewrite be_bytes_of_le_be, of_le_bytes. by apply Z.mod_small.
Qed.

Lemma wrap32_to_i32 v : 0 <= v < 4294967296 → wrap32 (to_i32 v) = v.
Proof.
  intros Hv. unfold wrap32, to_i32. destruct (Z.ltb_spec v 2147483648); [by apply Z.mod_small|].
  replace (v - 4294967296) with (v + (-1) * 4294967296) by lia. rewrite Z_mod_plus_full. by apply Z.mod_small.
Qed.

Lemma to_i32_wrap32 v : in_i32 v → to_i32 (wrap32 v) = v.
Proof.
  intros Hv. unfold in_i32, wrap32, to_i32 in *. destruct (Z.le_gt_cases 0 v).
  - rewrite Z.mod_small by lia. by rewrite (proj2 (Z.ltb_lt _ _)) by lia.
  - replace (v mod 4294967296) with (v + 4294967296).
    + rewrite (proj2 (Z.ltb_ge _ _)) by lia. lia.
    + replace v with (v + 4294967296 + (-1) * 4294967296) at 2 by lia. rewrite Z_mod_plus_full. symmetry. apply Z.mod_small. lia.
Qed.

(** Round trip and wire form of every overload: the conversions undo each
    other, and the converted value's bytes in memory are the big-endian ones
    on a host of either endianness. *)
Theorem network_order_roundtrip :
  (∀ v, 0 <= v < 65536 → from_network_u16 (to_network_u16 v) = v ∧
     host_bytes host_little 2 (to_network_u16 v) = be_bytes 2 v) ∧
  (∀ v, 0 <= v < 4294967296 → from_network_u32 (to_network_u32 v) = v ∧
     host_bytes host_little 4 (to_network_u32 v) = be_bytes 4 v) ∧
  (∀ v, in_i32 v → from_network_i32 (to_network_i32 v) = v) ∧
  (∀ w : U64Wrapper, in_u64 (u64_value w) → from_network_wrapped (to_network_wrapped w) = w) ∧
  (∀ w : I64Wrapper, in_i64 (i64_value w) → from_network_wrapped (to_network_wrapped w) = w) ∧
  (∀ w : U32Wrapper, in_u32 (u32_value w) → from_network_wrapped (to_network_wrapped w) = w).
Proof.
  split_and!.
  - intros v Hv. split; [by apply host_swap_involutive|apply host_swap_bytes].
  - intros v Hv. split; [by apply host_swap_involutive|apply host_swap_bytes].
  - intros v Hv. unfold from_network_i32, to_network_i32.
    assert (0 <= wrap32 v < 4294967296) as Hw by (apply Z.mod_pos_bound; lia).
    rewrite wrap32_to_i32, host_swap_involutive by (done || by apply (host_swap_range 4)). by apply to_i32_wrap32.
  - intros [v] Hv. unfold from_network_wrapped, to_network_wrapped. simpl in *. f_equal. by apply (host_swap_involutive 8).
  - intros [v] Hv. unfold from_network_wrapped, to_network_wrapped. simpl in *. unfold from_network_i64, to_network_i64.
    rewrite wrap64_to_i64 by apply htobe64_range, wrap64_range. f_equal. etrans; [|by apply to_i64_wrap64].
    f_equal. apply (host_swap_involutive 8), wrap64_range.
  - intros [v] Hv. unfold from_network_wrapped, to_network_wrapped. simpl in *. f_equal. by apply (host_swap_involutive 4).
Qed.
End Host.
