(* ===== verification/BinaryCodec.v ===== *)
(** * BinaryCodec: adapters/binary_protocol/Message.hpp and BinaryCodec.{hpp,cpp}

    The six fixed-size messages, their field-by-field encoders into a caller
    buffer and the decoder.  [wire] is the documented layout, against which
    both are proved. *)
From S2P Require Import Prelude Bytes.

(** ** Message.hpp *)

(** [MessageType], a [uint8_t] enumeration. *)
Definition kLimitOrderAdd : Z := 1.

Definition kMarketOrderAdd : Z := 2.

Definition kCancel : Z := 3.

Definition kAck : Z := 4.

Definition kReject : Z := 5.

Definition kTradeNotification : Z := 6.

Record LimitOrderAddMsg := mkLimitOrderAdd {
  la_type : Z; la_side : Z; la_client_id : Z; la_order_id : Z; la_price : Z; la_quantity : Z }.

Record MarketOrderAddMsg := mkMarketOrderAdd {
  ma_type : Z; ma_side : Z; ma_client_id : Z; ma_order_id : Z; ma_quantity : Z }.

Record CancelMsg := mkCancelMsg {
  cm_type : Z; cm_padding : Z; cm_client_id : Z; cm_order_id : Z }.

Record AckMsg := mkAck { ak_type : Z; ak_padding : Z; ak_order_id : Z; ak_remaining_qty : Z }.

Record RejectMsg := mkReject { rj_type : Z; rj_reason_code : Z; rj_order_id : Z }.

Record TradeNotificationMsg := mkTradeNotification {
  tn_type : Z; tn_padding : Z; tn_buy_order_id : Z; tn_sell_order_id : Z;
  tn_price : Z; tn_quantity : Z; tn_trade_sequence : Z }.

Inductive AnyMessage :=
| MLimit (m : LimitOrderAddMsg) | MMarket (m : MarketOrderAddMsg) | MCancel (m : CancelMsg)
| MAck (m : AckMsg) | MReject (m : RejectMsg) | MTrade (m : TradeNotificationMsg).

(** ** BinaryCodec.hpp *)

Definition kLimitOrderAddWireSize : nat := 34.

Definition kMarketOrderAddWireSize : nat := 26.

Definition kCancelWireSize : nat := 18.

Definition kAckWireSize : nat := 18.

Definition kRejectWireSize : nat := 10.

Definition kTradeNotificationWireSize : nat := 42.

Definition kMaxMessageWireSize : nat := kTradeNotificationWireSize.

Section Codec.
Variable host_little : bool.
Abbreviation w8 := (write_u8 host_little).
Abbreviation w64 := (write_u64 host_little).
Abbreviation wi64 := (write_i64 host_little).
Abbreviation r8 := (read_u8 host_little).
Abbreviation r64 := (read_u64 host_little).
Abbreviation ri64 := (read_i64 host_little).

(** ** BinaryCodec.cpp: encode.  The buffer and the bytes written. *)

Definition encode_limit (m : LimitOrderAddMsg) (out : list Z) : outcome (list Z * nat) :=
  st ← w8 (la_type m) (out, 0%nat);
  st ← w8 (la_side m) st;
  st ← w64 (la_client_id m) st;
  st ← w64 (la_order_id m) st;
  st ← wi64 (la_price m) st;
  w64 (la_quantity m) st.

Definition encode_market (m : MarketOrderAddMsg) (out : list Z) : outcome (list Z * nat) :=
  st ← w8 (ma_type m) (out, 0%nat);
  st ← w8 (ma_side m) st;
  st ← w64 (ma_client_id m) st;
  st ← w64 (ma_order_id m) st;
  w64 (ma_quantity m) st.

Definition encode_cancel (m : CancelMsg) (out : list Z) : outcome (list Z * nat) :=
  st ← w8 (cm_type m) (out, 0%nat);
  st ← w8 (cm_padding m) st;
  st ← w64 (cm_client_id m) st;
  w64 (cm_order_id m) st.

Definition encode_ack (m : AckMsg) (out : list Z) : outcome (list Z * nat) :=
  st ← w8 (ak_type m) (out, 0%nat);
  st ← w8 (ak_padding m) st;
  st ← w64 (ak_order_id m) st;
  w64 (ak_remaining_qty m) st.

Definition encode_reject (m : RejectMsg) (out : list Z) : outcome (list Z * nat) :=
  st ← w8 (rj_type m) (out, 0%nat);
  st ← w8 (rj_reason_code m) st;
  w64 (rj_order_id m) st.

Definition encode_trade (m : TradeNotificationMsg) (out : list Z) : outcome (list Z * nat) :=
  st ← w8 (tn_type m) (out, 0%nat);
  st ← w8 (tn_padding m) st;
  st ← w64 (tn_buy_order_id m) st;
  st ← w64 (tn_sell_order_id m) st;
  st ← wi64 (tn_price m) st;
  st ← w64 (tn_quantity m) st;
  w64 (tn_trade_sequence m) st.

Definition encode (m : AnyMessage) (out : list Z) : outcome (list Z * nat) :=
  match m with
  | MLimit m => encode_limit m out
  | MMarket m => encode_market m out
  | MCancel m => encode_cancel m out
  | MAck m => encode_ack m out
  | MReject m => encode_reject m out
  | MTrade m => encode_trade m out
  end.

(** ** BinaryCodec.cpp: decode, one definition per case of the switch. *)

Definition decode_limit (bs : list Z) : outcome (option AnyMessage) :=
  if Nat.ltb (length bs) kLimitOrderAddWireSize then Ok None
  else
    '(_, offset) ← r8 bs 0;
    '(side, offset) ← r8 bs offset;
    '(client_id, offset) ← r64 bs offset;
    '(order_id, offset) ← r64 bs offset;
    '(price, offset) ← ri64 bs offset;
    '(quantity, offset) ← r64 bs offset;
    Ok (Some (MLimit (mkLimitOrderAdd kLimitOrderAdd side client_id order_id price quantity))).

Definition decode_market (bs : list Z) : outcome (option AnyMessage) :=
  if Nat.ltb (length bs) kMarketOrderAddWireSize then Ok None
  else
    '(_, offset) ← r8 bs 0;
    '(side, offset) ← r8 bs offset;
    '(client_id, offset) ← r64 bs offset;
    '(order_id, offset) ← r64 bs offset;
    '(quantity, offset) ← r64 bs offset;
    Ok (Some (MMarket (mkMarketOrderAdd kMarketOrderAdd side client_id order_id quantity))).

Definition decode_cancel (bs : list Z) : outcome (option AnyMessage) :=
  if Nat.ltb (length bs) kCancelWireSize then Ok None
  else
    '(_, offset) ← r8 bs 0;
    '(padding, offset) ← r8 bs offset;
    '(client_id, offset) ← r64 bs offset;
    '(order_id, offset) ← r64 bs offset;
    Ok (Some (MCancel (mkCancelMsg kCancel padding client_id order_id))).

Definition decode_ack (bs : list Z) : outcome (option AnyMessage) :=
  if Nat.ltb (length bs) kAckWireSize then Ok None
  else
    '(_, offset) ← r8 bs 0;
    '(padding, offset) ← r8 bs offset;
    '(order_id, offset) ← r64 bs offset;
    '(remaining_qty, offset) ← r64 bs offset;
    Ok (Some (MAck (mkAck kAck padding order_id remaining_qty))).

Definition decode_reject (bs : list Z) : outcome (option AnyMessage) :=
  if Nat.ltb (length bs) kRejectWireSize then Ok None
  else
    '(_, offset) ← r8 bs 0;
    '(reason_code, offset) ← r8 bs offset;
    '(order_id, offset) ← r64 bs offset;
    Ok (Some (MReject (mkReject kReject reason_code order_id))).

Definition decode_trade (bs : list Z) : outcome (option AnyMessage) :=
  if Nat.ltb (length bs) kTradeNotificationWireSize then Ok None
  else
    '(_, offset) ← r8 bs 0;
    '(padding, offset) ← r8 bs offset;
    '(buy_id, offset) ← r64 bs offset;
    '(sell_id, offset) ← r64 bs offset;
    '(price, offset) ← ri64 bs offset;
    '(quantity, offset) ← r64 bs offset;
    '(trade_sequence, offset) ← r64 bs offset;
    Ok (Some (MTrade (mkTradeNotification kTradeNotification padding buy_id sell_id price
                        quantity trade_sequence))).

Definition decode (bs : list Z) : outcome (option AnyMessage) :=
  match bs with
  | [] => Ok None
  | type_byte :: _ =>
      if Z.eqb type_byte kLimitOrderAdd then decode_limit bs
      else if Z.eqb type_byte kMarketOrderAdd then decode_market bs
      else if Z.eqb type_byte kCancel then decode_cancel bs
      else if Z.eqb type_byte kAck then decode_ack bs
      else if Z.eqb type_byte kReject then decode_reject bs
      else if Z.eqb type_byte kTradeNotification then decode_trade bs
      else Ok None
  end.
End Codec.

(** ** The documented wire layout *)

Definition wire (m : AnyMessage) : list Z :=
  match m with
  | MLimit m => [la_type m; la_side m] ++ be_bytes 8 (la_client_id m) ++ be_bytes 8 (la_order_id m)
                  ++ be_bytes 8 (la_price m) ++ be_bytes 8 (la_quantity m)
  | MMarket m => [ma_type m; ma_side m] ++ be_bytes 8 (ma_client_id m) ++ be_bytes 8 (ma_order_id m)
                  ++ be_bytes 8 (ma_quantity m)
  | MCancel m => [cm_type m; cm_padding m] ++ be_bytes 8 (cm_client_id m) ++ be_bytes 8 (cm_order_id m)
  | MAck m => [ak_type m; ak_padding m] ++ be_bytes 8 (ak_order_id m) ++ be_bytes 8 (ak_remaining_qty m)
  | MReject m => [rj_type m; rj_reason_code m] ++ be_bytes 8 (rj_order_id m)
  | MTrade m => [tn_type m; tn_padding m] ++ be_bytes 8 (tn_buy_order_id m)
                  ++ be_bytes 8 (tn_sell_order_id m) ++ be_bytes 8 (tn_price m)
                  ++ be_bytes 8 (tn_quantity m) ++ be_bytes 8 (tn_trade_sequence m)
  end.

Definition wire_size (m : AnyMessage) : nat :=
  match m with
  | MLimit _ => kLimitOrderAddWireSize | MMarket _ => kMarketOrderAddWireSize
  | MCancel _ => kCancelWireSize | MAck _ => kAckWireSize | MReject _ => kRejectWireSize
  | MTrade _ => kTradeNotificationWireSize
  end.

(** The size the first byte announces. *)
Definition announced_size (type_byte : Z) : option nat :=
  if Z.eqb type_byte kLimitOrderAdd then Some kLimitOrderAddWireSize
  else if Z.eqb type_byte kMarketOrderAdd then Some kMarketOrderAddWireSize
  else if Z.eqb type_byte kCancel then Some kCancelWireSize
  else if Z.eqb type_byte kAck then Some kAckWireSize
  else if Z.eqb type_byte kReject then Some kRejectWireSize
  else if Z.eqb type_byte kTradeNotification then Some kTradeNotificationWireSize
  else None.

(** Field values are values of their types, and the type byte is the struct's. *)
Definition wf_message (m : AnyMessage) : Prop :=
  match m with
  | MLimit m => la_type m = kLimitOrderAdd ∧ is_byte (la_side m) ∧ in_u64 (la_client_id m) ∧
      in_u64 (la_order_id m) ∧ in_i64 (la_price m) ∧ in_u64 (la_quantity m)
  | MMarket m => ma_type m = kMarketOrderAdd ∧ is_byte (ma_side m) ∧ in_u64 (ma_client_id m) ∧
      in_u64 (ma_order_id m) ∧ in_u64 (ma_quantity m)
  | MCancel m => cm_type m = kCancel ∧ is_byte (cm_padding m) ∧ in_u64 (cm_client_id m) ∧
      in_u64 (cm_order_id m)
  | MAck m => ak_type m = kAck ∧ is_byte (ak_padding m) ∧ in_u64 (ak_order_id m) ∧
      in_u64 (ak_remaining_qty m)
  | MReject m => rj_type m = kReject ∧ is_byte (rj_reason_code m) ∧ in_u64 (rj_order_id m)
  | MTrade m => tn_type m = kTradeNotification ∧ is_byte (tn_padding m) ∧ in_u64 (tn_buy_order_id m) ∧
      in_u64 (tn_sell_order_id m) ∧ in_i64 (tn_price m) ∧ in_u64 (tn_quantity m) ∧
      in_u64 (tn_trade_sequence m)
  end.

(** The fields of a message, read off a byte string. *)
Definition byte_at (k : nat) (bs : list Z) : Z := of_le (take 1 (drop k bs)).

Definition field_at (k : nat) (bs : list Z) : Z := of_be (take 8 (drop k bs)).

Definition fields (t : Z) (bs : list Z) : AnyMessage :=
  if Z.eqb t kLimitOrderAdd then
    MLimit (mkLimitOrderAdd kLimitOrderAdd (byte_at 1 bs) (field_at 2 bs) (field_at 10 bs)
              (to_i64 (field_at 18 bs)) (field_at 26 bs))
  else if Z.eqb t kMarketOrderAdd then
    MMarket (mkMarketOrderAdd kMarketOrderAdd (byte_at 1 bs) (field_at 2 bs) (field_at 10 bs) (field_at 18 bs))
  else if Z.eqb t kCancel then
    MCancel (mkCancelMsg kCancel (byte_at 1 bs) (field_at 2 bs) (field_at 10 bs))
  else if Z.eqb t kAck then MAck (mkAck kAck (byte_at 1 bs) (field_at 2 bs) (field_at 10 bs))
  else if Z.eqb t kReject then MReject (mkReject kReject (byte_at 1 bs) (field_at 2 bs))
  else MTrade (mkTradeNotification kTradeNotification (byte_at 1 bs) (field_at 2 bs) (field_at 10 bs)
                 (to_i64 (field_at 18 bs)) (field_at 26 bs) (field_at 34 bs)).

(** What [decode] means: the announced type is known and long enough. *)
Definition decoded (bs : list Z) : option AnyMessage :=
  match bs with
  | [] => None
  | t :: _ =>
      match announced_size t with
      | None => None
      | Some n => if Nat.ltb (length bs) n then None else Some (fields t bs)
      end
  end.

Section CodecFacts.
Variable hl : bool.

Lemma write_u8_at pre rest v :
  is_byte v → (1 <= length rest)%nat →
  write_u8 hl v (pre ++ rest, length pre) = Ok ((pre ++ [v]) ++ drop 1 rest, length (pre ++ [v])).
Proof.
  intros Hv Hl. unfold write_u8. simpl.
  replace (host_bytes hl 1 v) with [v]; [by rewrite write_field_at by (simpl; lia)|].
  unfold host_bytes, be_bytes, is_byte in *. destruct hl; simpl; by rewrite Z.mod_small by lia.
Qed.

Lemma write_u64_at pre rest v :
  (8 <= length rest)%nat →
  write_u64 hl v (pre ++ rest, length pre) =
  Ok ((pre ++ be_bytes 8 v) ++ drop 8 rest, length (pre ++ be_bytes 8 v)).
Proof. intros Hl. unfold write_u64. simpl fst. simpl snd. rewrite wire_u64. by rewrite write_field_at, length_be_bytes by (rewrite length_be_bytes; lia). Qed.

Lemma write_i64_at pre rest v :
  (8 <= length rest)%nat →
  write_i64 hl v (pre ++ rest, length pre) =
  Ok ((pre ++ be_bytes 8 v) ++ drop 8 rest, length (pre ++ be_bytes 8 v)).
Proof. intros Hl. unfold write_i64. simpl fst. simpl snd. rewrite wire_i64. by rewrite write_field_at, length_be_bytes by (rewrite length_be_bytes; lia). Qed.

(** One chain of writes, symbolically. *)
Ltac side_byte :=
  solve [ unfold is_byte, kLimitOrderAdd, kMarketOrderAdd, kCancel, kAck, kReject, kTradeNotification in *; lia
        | rewrite ?length_drop; lia ].

Ltac write_chain :=
  repeat first
    [ rewrite write_u8_at by side_byte
    | rewrite write_u64_at by side_byte
    | rewrite write_i64_at by side_byte
    | progress cbn [mbind outcome_bind] ].

Ltac open_messages :=
  repeat match goal with
  | m : AnyMessage |- _ => destruct m
  | m : LimitOrderAddMsg |- _ => destruct m
  | m : MarketOrderAddMsg |- _ => destruct m
  | m : CancelMsg |- _ => destruct m
  | m : AckMsg |- _ => destruct m
  | m : RejectMsg |- _ => destruct m
  | m : TradeNotificationMsg |- _ => destruct m
  end.

Lemma length_wire m : length (wire m) = wire_size m.
Proof. destruct m; simpl; rewrite ?length_app, ?length_be_bytes; done. Qed.

(** The encoders produce the documented layout and touch nothing behind it. *)
Lemma encode_spec m out :
  wf_message m → (wire_size m <= length out)%nat →
  encode hl m out = Ok (wire m ++ drop (wire_size m) out, wire_size m).
Proof.
  intros Hm Hl.
  open_messages; simpl in Hm, Hl; destruct_and!; subst;
    unfold kLimitOrderAddWireSize, kMarketOrderAddWireSize, kCancelWireSize, kAckWireSize,
      kRejectWireSize, kTradeNotificationWireSize in Hl;
    cbn [encode];
    unfold encode_limit, encode_market, encode_cancel, encode_ack, encode_reject, encode_trade;
    cbn [la_type la_side la_client_id la_order_id la_price la_quantity ma_type ma_side ma_client_id
      ma_order_id ma_quantity cm_type cm_padding cm_client_id cm_order_id ak_type ak_padding ak_order_id
      ak_remaining_qty rj_type rj_reason_code rj_order_id tn_type tn_padding tn_buy_order_id
      tn_sell_order_id tn_price tn_quantity tn_trade_sequence];
    change (out, 0%nat) with ([] ++ out, length (@nil Z));
    write_chain; rewrite !drop_drop, !length_app, !length_be_bytes;
    simpl; rewrite <- ?app_assoc; done.
Qed.

Lemma read_u8_spec bs k :
  (k + 1 <= length bs)%nat → read_u8 hl bs k = Ok (byte_at k bs, (k + 1)%nat).
Proof.
  intros Hl. unfold read_u8, read_field. rewrite (proj2 (Nat.leb_le _ _)) by lia.
  unfold byte_at, of_host, of_be. destruct hl; [done|].
  destruct (drop k bs) as [|b rest]; [done|]. destruct rest; done.
Qed.

Lemma slice_bytes bs k n : Forall is_byte bs → Forall is_byte (take n (drop k bs)).
Proof. intros. by apply Forall_take, Forall_drop. Qed.

Lemma length_slice (bs : list Z) k n : (k + n <= length bs)%nat → length (take n (drop k bs)) = n.
Proof. intros. rewrite length_take, length_drop. lia. Qed.

Lemma read_u64_spec bs k :
  Forall is_byte bs → (k + 8 <= length bs)%nat → read_u64 hl bs k = Ok (field_at k bs, (k + 8)%nat).
Proof.
  intros Hb Hl. unfold read_u64, read_field. rewrite (proj2 (Nat.leb_le _ _)) by lia. cbn [mbind outcome_bind].
  by rewrite unwire_u64 by (by apply slice_bytes || by apply length_slice).
Qed.

Lemma read_i64_spec bs k :
  Forall is_byte bs → (k + 8 <= length bs)%nat → read_i64 hl bs k = Ok (to_i64 (field_at k bs), (k + 8)%nat).
Proof.
  intros Hb Hl. unfold read_i64, read_field. rewrite (proj2 (Nat.leb_le _ _)) by lia. cbn [mbind outcome_bind].
  by rewrite unwire_i64 by (by apply slice_bytes || by apply length_slice).
Qed.

Ltac read_chain :=
  repeat first
    [ rewrite read_u8_spec by lia
    | rewrite read_u64_spec by (done || lia)
    | rewrite read_i64_spec by (done || lia)
    | progress cbn [mbind outcome_bind] ].

(** The decoder reads exactly the documented fields, and only inside the buffer. *)
Lemma decode_spec bs : Forall is_byte bs → decode hl bs = Ok (decoded bs).
Proof.
  intros Hb. destruct bs as [|t rest]; [done|]. unfold decode, decoded, announced_size, fields.
  set (bs := t :: rest) in *.
  repeat (match goal with |- context [if Z.eqb ?x ?y then _ else _] => destruct (Z.eqb x y) end);
    try done;
    unfold decode_limit, decode_market, decode_cancel, decode_ack, decode_reject, decode_trade,
      kLimitOrderAddWireSize, kMarketOrderAddWireSize, kCancelWireSize, kAckWireSize, kRejectWireSize,
      kTradeNotificationWireSize;
    (match goal with |- context [Nat.ltb ?x ?y] => destruct (Nat.ltb_spec x y) end; [done|]);
    read_chain; done.
Qed.

Lemma decoded_long t bs n :
  announced_size t = Some n → (n <= length (t :: bs))%nat → decoded (t :: bs) = Some (fields t (t :: bs)).
Proof. intros Ha Hl. unfold decoded. rewrite Ha. by rewrite (proj2 (Nat.ltb_ge _ _)). Qed.

Lemma announced_type m : wf_message m → ∃ t rest, wire m = t :: rest ∧ announced_size t = Some (wire_size m).
Proof. intros Hm. open_messages; simpl in Hm; destruct_and!; subst; simpl; eexists _, _; done. Qed.

(** Decoding an encoded message gives it back, whatever follows it. *)
Lemma decoded_wire m rest : wf_message m → decoded (wire m ++ rest) = Some m.
Proof.
  assert (∀ v, in_u64 v → of_be (be_bytes 8 v) = v) as Hu
    by (intros; by rewrite of_be_bytes, wrap64_small).
  assert (∀ v, in_i64 v → to_i64 (of_be (be_bytes 8 v)) = v) as Hi
    by (intros; by rewrite of_be_bytes, to_i64_wrap64).
  intros Hm. destruct (announced_type m Hm) as (t & tl & Ew & Ea).
  assert (decoded (wire m ++ rest) = Some (fields t (wire m ++ rest))) as ->.
  { pose proof (length_wire m) as Hl. rewrite Ew in *. apply (decoded_long _ _ _ Ea).
    rewrite <- Hl. simpl. rewrite length_app. lia. }
  assert (head (wire m) = Some t) as Ht by by rewrite Ew. clear Ew Ea.
  open_messages; simpl in Hm, Ht; destruct_and!; subst; simplify_eq; unfold fields;
    cbn [Z.eqb Pos.eqb kLimitOrderAdd kMarketOrderAdd kCancel kAck kReject kTradeNotification];
    do 3 f_equal;
    first [ (etrans; [|by apply Hu]; reflexivity) | (etrans; [|by apply Hi]; reflexivity)
          | (unfold byte_at; simpl; lia) ].
Qed.

Lemma be_bytes_to_i64 v : in_u64 v → be_bytes 8 (to_i64 v) = be_bytes 8 v.
Proof. intros Hv. unfold be_bytes. rewrite <- (le_bytes_wrap (to_i64 v)). by rewrite wrap64_to_i64. Qed.

(** Encoding a decoded message gives back the bytes it was read from. *)
Lemma wire_decoded bs m :
  Forall is_byte bs → decoded bs = Some m → wf_message m ∧ wire m = take (wire_size m) bs.
Proof.
  intros Hb Hd. destruct bs as [|t [|b rest]]; [done| |].
  { unfold decoded, announced_size in Hd.
    repeat (match goal with H : context [Z.eqb ?x ?y] |- _ => destruct (Z.eqb x y) end); done. }
  set (bs := t :: b :: rest) in *.
  assert (is_byte b) as Hbb by (unfold bs in Hb; by apply Forall_cons in Hb as [_ [? _]%Forall_cons]).
  assert (∀ k, (k + 8 <= length bs)%nat → in_u64 (field_at k bs)) as Hf.
  { intros k Hk. apply of_be_range; [by apply length_slice|by apply slice_bytes]. }
  assert (∀ k, (k + 8 <= length bs)%nat → be_bytes 8 (field_at k bs) = take 8 (drop k bs)) as Hw.
  { intros k Hk. apply be_bytes_of_be; [by apply length_slice|by apply slice_bytes]. }
  assert (byte_at 1 bs = b) as Hbyte by (unfold byte_at, bs; simpl; lia).
  change (decoded bs) with (match announced_size t with None => None
    | Some n => if Nat.ltb (length bs) n then None else Some (fields t bs) end) in Hd.
  unfold announced_size, fields in Hd. rewrite !Hbyte in Hd.
  unfold kLimitOrderAddWireSize, kMarketOrderAddWireSize, kCancelWireSize, kAckWireSize, kRejectWireSize,
    kTradeNotificationWireSize in Hd.
  repeat (match goal with H : context [Z.eqb ?x ?y] |- _ => destruct (Z.eqb_spec x y) as [Et|] end);
    cbn [Nat.ltb] in Hd; try discriminate Hd;
    (match type of Hd with context [Nat.ltb ?x ?y] => destruct (Nat.ltb_spec x y); [discriminate Hd|] end);
    simplify_eq; cbn [wire wire_size wf_message la_type la_side la_client_id la_order_id la_price la_quantity
      ma_type ma_side ma_client_id ma_order_id ma_quantity cm_type cm_padding cm_client_id cm_order_id
      ak_type ak_padding ak_order_id ak_remaining_qty rj_type rj_reason_code rj_order_id tn_type tn_padding
      tn_buy_order_id tn_sell_order_id tn_price tn_quantity tn_trade_sequence].
  all: (split; [split_and!; auto using to_i64_range with lia|]).
  all: rewrite ?be_bytes_to_i64 by (apply Hf; lia); rewrite !Hw by lia.
  all: match goal with |- ([?x; ?y] ++ _) = _ => change [x; y] with (take 2 bs) end.
  all: rewrite ?app_assoc, !take_take_drop; done.
Qed.
End CodecFacts.
