(* ===== verification/Text.v ===== *)
(** * Text: std::string, std::to_string and std::from_chars

    A [std::string] or [std::string_view] is the list of its bytes.  [str]
    turns a literal into bytes; [to_string] is the decimal printer;
    [from_chars] the decimal reader the protocol parsers use. *)
From Stdlib Require Import String Ascii.
From S2P Require Import Prelude.

Definition ch (a : ascii) : Z := Z.of_N (N_of_ascii a).

Fixpoint str (s : string) : list Z :=
  match s with EmptyString => [] | String a s => ch a :: str s end.

(** ** [std::to_string] *)

Fixpoint digits_fuel (fuel : nat) (v : Z) (acc : list Z) : list Z :=
  match fuel with
  | O => acc
  | S fuel =>
      let acc := (48 + v mod 10) :: acc in
      if Z.eqb (v / 10) 0 then acc else digits_fuel fuel (v / 10) acc
  end.

(** Twenty digits are enough for any 64-bit value. *)
Definition to_string_u64 (v : Z) : list Z := digits_fuel 20 v [].

Definition to_string_i64 (v : Z) : list Z :=
  if Z.ltb v 0 then 45 :: to_string_u64 (- v) else to_string_u64 v.

(** ** [std::from_chars], base ten *)

Definition is_digit (c : Z) : bool := Z.leb 48 c && Z.leb c 57.

(** The longest prefix of digits, and what follows. *)
Fixpoint span_digits (s : list Z) : list Z * list Z :=
  match s with
  | [] => ([], [])
  | c :: s' => if is_digit c then (let '(d, r) := span_digits s' in (c :: d, r)) else ([], s)
  end.

Definition dec_value (ds : list Z) : Z := foldl (λ acc c, 10 * acc + (c - 48)) 0 ds.

(** Value and remaining input; [None] is an error code (no digits, or out of range). *)
Definition from_chars_u64 (s : list Z) : option (Z * list Z) :=
  let '(ds, rest) := span_digits s in
  match ds with
  | [] => None
  | _ => if Z.ltb (dec_value ds) 18446744073709551616 then Some (dec_value ds, rest) else None
  end.

(** An optional leading minus sign. *)
Definition split_minus (s : list Z) : bool * list Z :=
  match s with
  | c :: s' => if Z.eqb c 45 then (true, s') else (false, s)
  | [] => (false, s)
  end.

Definition from_chars_i64 (s : list Z) : option (Z * list Z) :=
  let '(neg, s) := split_minus s in
  let '(ds, rest) := span_digits s in
  match ds with
  | [] => None
  | _ =>
      let v := if (neg : bool) then - dec_value ds else dec_value ds in
      if Z.leb (-9223372036854775808) v && Z.ltb v 9223372036854775808 then Some (v, rest) else None
  end.

(** ** The [std::atoi] family *)

Fixpoint skip_isspace (s : list Z) : list Z :=
  match s with
  | c :: s' => if Z.eqb c 32 || (Z.leb 9 c && Z.leb c 13) then skip_isspace s' else s
  | [] => []
  end.

(** White space, a sign, digits; no digits is 0.  The range is the caller's. *)
Definition ato_value (s : list Z) : Z :=
  let s := skip_isspace s in
  let '(neg, s) := match s with
    | c :: s' => if Z.eqb c 45 then (true, s') else if Z.eqb c 43 then (false, s') else (false, s)
    | [] => (false, [])
    end in
  let v := dec_value (span_digits s).1 in
  if (neg : bool) then - v else v.

Definition starts_with (prefix s : list Z) : bool := bool_decide (take (length prefix) s = prefix).

(** ** Facts *)

Definition all_digits (s : list Z) : Prop := Forall (λ c, is_digit c = true) s.

Lemma dec_value_snoc_cons ds acc : foldl (λ acc c, 10 * acc + (c - 48)) acc ds =
  acc * 10 ^ Z.of_nat (length ds) + dec_value ds.
Proof.
  unfold dec_value. revert acc. induction ds as [|c ds IH]; intros acc; [simpl; lia|].
  cbn [foldl length]. rewrite (IH (10 * acc + (c - 48))), (IH (10 * 0 + (c - 48))).
  rewrite Nat2Z.inj_succ, Z.pow_succ_r by lia. lia.
Qed.

Lemma dec_value_cons c ds : dec_value (c :: ds) = (c - 48) * 10 ^ Z.of_nat (length ds) + dec_value ds.
Proof. unfold dec_value at 1. cbn [foldl]. rewrite dec_value_snoc_cons. lia. Qed.

Lemma digit_char d : 0 <= d < 10 → is_digit (48 + d) = true.
Proof. intros. unfold is_digit. apply andb_true_iff. lia. Qed.

(** The printer's output, as a value in front of the accumulator. *)
Lemma digits_fuel_spec fuel v acc :
  0 <= v < 10 ^ Z.of_nat fuel → (0 < fuel)%nat → all_digits acc →
  all_digits (digits_fuel fuel v acc) ∧ digits_fuel fuel v acc ≠ [] ∧
  dec_value (digits_fuel fuel v acc) = v * 10 ^ Z.of_nat (length acc) + dec_value acc.
Proof.
  revert v acc. induction fuel as [|fuel IH]; intros v acc Hv Hf Ha; [lia|].
  rewrite Nat2Z.inj_succ, Z.pow_succ_r in Hv by lia. cbn [digits_fuel].
  pose proof (Z.mod_pos_bound v 10 ltac:(lia)) as Hm. pose proof (Z.div_mod v 10 ltac:(lia)) as Hd.
  assert (all_digits ((48 + v mod 10) :: acc)) as Ha' by (constructor; [by apply digit_char|done]).
  destruct (Z.eqb_spec (v / 10) 0) as [E|E].
  - split; [done|]. split; [done|]. rewrite dec_value_cons. rewrite E in Hd.
    replace (48 + v mod 10 - 48) with v by lia. done.
  - assert (0 < v / 10) by (pose proof (Z.div_pos v 10); lia).
    destruct (IH (v / 10) ((48 + v mod 10) :: acc)) as (H1 & H2 & H3); [|destruct fuel; [simpl in Hv; lia|lia]|done|].
    { split; [lia|]. apply Z.div_lt_upper_bound; lia. }
    split; [done|]. split; [done|]. rewrite H3, dec_value_cons. cbn [length].
    rewrite Nat2Z.inj_succ, Z.pow_succ_r by lia. rewrite Hd at 3. lia.
Qed.

Lemma digits_length fuel v acc : (length (digits_fuel fuel v acc) <= fuel + length acc)%nat.
Proof.
  revert v acc. induction fuel as [|fuel IH]; intros v acc; cbn [digits_fuel]; [lia|].
  case_match; [simpl; lia|]. etrans; [apply IH|]. simpl. lia.
Qed.

Lemma to_string_u64_spec v :
  in_u64 v → all_digits (to_string_u64 v) ∧ to_string_u64 v ≠ [] ∧ dec_value (to_string_u64 v) = v.
Proof.
  intros Hv. unfold to_string_u64. u64.
  destruct (digits_fuel_spec 20 v []) as (H1 & H2 & H3);
    [change (10 ^ Z.of_nat 20) with 100000000000000000000; lia|lia|constructor|].
  split; [done|]. split; [done|]. rewrite H3. unfold dec_value. simpl. lia.
Qed.

Lemma span_digits_app ds rest :
  all_digits ds → match rest with c :: _ => is_digit c = false | [] => True end →
  span_digits (ds ++ rest) = (ds, rest).
Proof.
  intros Hd Hr. induction Hd as [|c ds Hc _ IH]; simpl.
  - destruct rest; simpl; [done|]. by rewrite Hr.
  - by rewrite Hc, IH.
Qed.

(** Reading back what was printed. *)
Lemma from_chars_u64_print v rest :
  in_u64 v → match rest with c :: _ => is_digit c = false | [] => True end →
  from_chars_u64 (to_string_u64 v ++ rest) = Some (v, rest).
Proof.
  intros Hv Hr. destruct (to_string_u64_spec v Hv) as (Hd & Hne & He).
  unfold from_chars_u64. rewrite span_digits_app, He by done.
  destruct (to_string_u64 v) eqn:Ed; [done|]. u64. by rewrite (proj2 (Z.ltb_lt _ _)) by lia.
Qed.

Lemma from_chars_i64_print v rest :
  in_i64 v → match rest with c :: _ => is_digit c = false | [] => True end →
  from_chars_i64 (to_string_i64 v ++ rest) = Some (v, rest).
Proof.
  intros Hv Hr. unfold to_string_i64, from_chars_i64. u64. destruct (Z.ltb_spec v 0).
  - destruct (to_string_u64_spec (- v)) as (Hd & Hne & He); [u64; lia|].
    cbn [app split_minus Z.eqb Pos.eqb]. rewrite span_digits_app, He by done.
    destruct (to_string_u64 (- v)); [done|]. rewrite Z.opp_involutive.
    by rewrite (proj2 (Z.leb_le _ _)), (proj2 (Z.ltb_lt _ _)) by lia.
  - destruct (to_string_u64_spec v) as (Hd & Hne & He); [u64; lia|].
    assert (∃ c s, to_string_u64 v = c :: s ∧ c ≠ 45) as (c & s & Es & Hc).
    { destruct (to_string_u64 v) as [|c s]; [done|]. exists c, s. split; [done|].
      apply Forall_cons in Hd as [Hc _]. unfold is_digit in Hc. apply andb_true_iff in Hc. lia. }
    assert (split_minus (to_string_u64 v ++ rest) = (false, to_string_u64 v ++ rest)) as ->.
    { rewrite Es. simpl. by rewrite (proj2 (Z.eqb_neq _ _)). }
    rewrite span_digits_app, He by done. rewrite Es.
    by rewrite (proj2 (Z.leb_le _ _)), (proj2 (Z.ltb_lt _ _)) by lia.
Qed.
