(* ===== verification/TextProtocol.v ===== *)
(** * TextProtocol: adapters/text_protocol/ (parser and renderer)

    The line grammar shared by the CLI and the TCP gateway, and the response
    renderer.  [ParseResult] is also what the binary gateway produces. *)
From Stdlib Require Import String.
From S2P Require Import Prelude Core Text.

Inductive ParseResult :=
| PLimit (o : LimitOrder) | PMarket (o : MarketOrder) | PCancel (c : CancelRequest)
| PError (message : list Z).

(** ** text_protocol_parser.cpp *)

Definition is_space (c : Z) : bool :=
  Z.eqb c 32 || Z.eqb c 9 || Z.eqb c 13 || Z.eqb c 10.

Fixpoint skip_spaces (s : list Z) : list Z :=
  match s with [] => [] | c :: s' => if is_space c then skip_spaces s' else s end.

Fixpoint span_token (s : list Z) : list Z * list Z :=
  match s with
  | [] => ([], [])
  | c :: s' => if is_space c then ([], s) else (let '(t, r) := span_token s' in (c :: t, r))
  end.

Fixpoint tokenize_fuel (fuel : nat) (line : list Z) : list (list Z) :=
  match fuel with
  | O => []
  | S fuel =>
      match skip_spaces line with
      | [] => []
      | rest => let '(token, rest) := span_token rest in token :: tokenize_fuel fuel rest
      end
  end.

(** Each token consumes a character, so the length of the line is enough. *)
Definition tokenize (line : list Z) : list (list Z) := tokenize_fuel (length line) line.

Definition parse_side (s : list Z) : option Side :=
  if decide (s = str "BUY") then Some Buy
  else if decide (s = str "SELL") then Some Sell
  else None.

Definition parse_uint64 (s : list Z) : option Z :=
  match s with
  | [] => None
  | _ => match from_chars_u64 s with Some (v, []) => Some v | _ => None end
  end.

Definition parse_int64 (s : list Z) : option Z :=
  match s with
  | [] => None
  | _ => match from_chars_i64 s with Some (v, []) => Some v | _ => None end
  end.

Definition parse_cancel (tokens : list (list Z)) : ParseResult :=
  match tokens with
  | [_; id] =>
      match parse_uint64 id with
      | None => PError (str "Invalid order ID: " ++ id)
      | Some id => PCancel (mkCancel id)
      end
  | _ => PError (str "Usage: CANCEL <id>")
  end.

(** [ClientId] is default-constructed: the gateway sets the owner later. *)
Definition parse_add (tokens : list (list Z)) : ParseResult :=
  match tokens with
  | [_; id; side; price; qty] =>
      match parse_uint64 id with
      | None => PError (str "Invalid order ID: " ++ id)
      | Some id =>
          match parse_side side with
          | None => PError (str "Invalid side (expected BUY or SELL): " ++ side)
          | Some side =>
              match parse_int64 price with
              | None => PError (str "Invalid price: " ++ price)
              | Some price =>
                  match parse_uint64 qty with
                  | None => PError (str "Invalid quantity: " ++ qty)
                  | Some qty => PLimit (mkLimit id side price qty 0)
                  end
              end
          end
      end
  | _ => PError (str "Usage: ADD <id> <BUY|SELL> <price> <qty>")
  end.

Definition parse_market (tokens : list (list Z)) : ParseResult :=
  match tokens with
  | [_; id; side; qty] =>
      match parse_uint64 id with
      | None => PError (str "Invalid order ID: " ++ id)
      | Some id =>
          match parse_side side with
          | None => PError (str "Invalid side (expected BUY or SELL): " ++ side)
          | Some side =>
              match parse_uint64 qty with
              | None => PError (str "Invalid quantity: " ++ qty)
              | Some qty => PMarket (mkMarket id side qty 0)
              end
          end
      end
  | _ => PError (str "Usage: MARKET <id> <BUY|SELL> <qty>")
  end.

Definition parse (line : list Z) : ParseResult :=
  let tokens := tokenize line in
  match tokens with
  | [] => PError (str "Empty command")
  | cmd :: _ =>
      if decide (cmd = str "CANCEL") then parse_cancel tokens
      else if decide (cmd = str "ADD") then parse_add tokens
      else if decide (cmd = str "MARKET") then parse_market tokens
      else PError (str "Unknown command: " ++ cmd)
  end.

(** ** text_protocol_renderer.cpp *)

Definition id_tag (response : EngineResponse) : list Z :=
  str " id=" ++ to_string_u64 (order_id response).

Definition result_to_string (result : EngineResult) : list Z :=
  match result with
  | Accepted => str "Accepted"
  | DuplicateOrderId => str "DuplicateOrderId"
  | UnknownOrderId => str "UnknownOrderId"
  | InvalidQuantity => str "InvalidQuantity"
  | InvalidPrice => str "InvalidPrice"
  | PoolExhausted => str "PoolExhausted"
  | SelfTradePrevented => str "SelfTradePrevented"
  | PriceOutOfBand => str "PriceOutOfBand"
  | QuantityTooLarge => str "QuantityTooLarge"
  | TickSizeMisaligned => str "TickSizeMisaligned"
  | InternalError => str "InternalError"
  end.

Definition render_fill (trade : Trade) : list Z :=
  str " FILL " ++ to_string_u64 (t_quantity trade) ++ str "@" ++ to_string_i64 (t_price trade).

Definition render (response : EngineResponse) : list Z :=
  if negb (bool_decide (status response = Accepted)) then
    str "REJECTED" ++ id_tag response ++ str ": " ++ result_to_string (status response) ++ [10]
  else
    str "ACCEPTED" ++ id_tag response ++ str ":" ++
    (match trades response with
     | [] => str " no fills, remaining_qty=" ++ to_string_u64 (remaining_qty response)
     | _ =>
         concat (map render_fill (trades response)) ++
         (if Z.ltb 0 (remaining_qty response)
          then str " | remaining_qty=" ++ to_string_u64 (remaining_qty response)
          else str " | FULLY FILLED")
     end) ++ [10].

Definition render_error (message : list Z) : list Z := str "ERROR: " ++ message ++ [10].

(** ** The grammar, as a printer *)

Definition print_side (s : Side) : list Z := match s with Buy => str "BUY" | Sell => str "SELL" end.

(** Tokens separated by one space. *)
Fixpoint join (ts : list (list Z)) : list Z :=
  match ts with [] => [] | [t] => t | t :: ts => t ++ 32 :: join ts end.

Definition print_command (c : EngineCommand) : list Z :=
  join (match c with
        | CLimit o => [str "ADD"; to_string_u64 (lo_id o); print_side (lo_side o);
                       to_string_i64 (lo_price o); to_string_u64 (lo_quantity o)]
        | CMarket o => [str "MARKET"; to_string_u64 (mo_id o); print_side (mo_side o);
                        to_string_u64 (mo_quantity o)]
        | CCancel c => [str "CANCEL"; to_string_u64 (cr_id c)]
        end).

(** What the parser returns for it: the owner is not on the line. *)
Definition without_owner (c : EngineCommand) : ParseResult :=
  match c with
  | CLimit o => PLimit (mkLimit (lo_id o) (lo_side o) (lo_price o) (lo_quantity o) 0)
  | CMarket o => PMarket (mkMarket (mo_id o) (mo_side o) (mo_quantity o) 0)
  | CCancel c => PCancel c
  end.

Definition wf_command_fields (c : EngineCommand) : Prop :=
  match c with
  | CLimit o => wf_new_order (NLimit o)
  | CMarket o => wf_new_order (NMarket o)
  | CCancel c => in_u64 (cr_id c)
  end.

(** ** Facts *)

Definition token (t : list Z) : Prop := t ≠ [] ∧ Forall (λ c, is_space c = false) t.

Section TextFacts.
Implicit Types (s t line : list Z).

Lemma span_token_app t s :
  Forall (λ c, is_space c = false) t → match s with c :: _ => is_space c = true | [] => True end →
  span_token (t ++ s) = (t, s).
Proof.
  intros Ht Hs. induction Ht as [|c t Hc _ IH]; simpl.
  - destruct s; simpl; [done|]. by rewrite Hs.
  - by rewrite Hc, IH.
Qed.

Lemma skip_spaces_token t s : token t → skip_spaces (t ++ s) = t ++ s.
Proof. intros [Hne Ht]. destruct t as [|c t]; [done|]. simpl. apply Forall_cons in Ht as [-> _]. done. Qed.

Lemma tokenize_fuel_join fuel ts :
  Forall token ts → (length (join ts) <= fuel)%nat → tokenize_fuel fuel (join ts) = ts.
Proof.
  intros Ht. revert fuel. induction Ht as [|t ts Ht Hts IH]; intros fuel Hf; [by destruct fuel|].
  pose proof Ht as [Hne Hns].
  assert (∃ rest, join (t :: ts) = t ++ rest ∧ match rest with c :: _ => is_space c = true | [] => True end ∧
    (ts = [] ∧ rest = [] ∨ rest = 32 :: join ts)) as (rest & E & Hr & Hcase).
  { destruct ts as [|t' ts]; [exists []; rewrite app_nil_r; auto|]. eexists. split; [done|]. auto. }
  assert (0 < length t)%nat by (destruct t; [done|simpl; lia]).
  rewrite E in *. rewrite length_app in Hf. destruct fuel as [|fuel]; [lia|]. cbn [tokenize_fuel].
  rewrite skip_spaces_token by done. destruct (t ++ rest) as [|c0 s0] eqn:Et; [destruct t; done|].
  rewrite <- Et, span_token_app by done. f_equal.
  destruct Hcase as [[-> ->]| -> ]; [by destruct fuel|]. simpl in Hf.
  assert (tokenize_fuel fuel (32 :: join ts) = tokenize_fuel fuel (join ts)) as ->; [by destruct fuel|].
  apply IH. lia.
Qed.

Lemma tokenize_join ts : Forall token ts → tokenize (join ts) = ts.
Proof. intros. by apply tokenize_fuel_join. Qed.

Lemma digits_token s : all_digits s → s ≠ [] → token s.
Proof.
  intros Hd Hne. split; [done|]. eapply Forall_impl; [done|]. intros c Hc.
  unfold is_digit in Hc. apply andb_true_iff in Hc. unfold is_space.
  apply orb_false_iff. rewrite !orb_false_iff, !Z.eqb_neq. lia.
Qed.

Lemma u64_token v : in_u64 v → token (to_string_u64 v).
Proof. intros Hv. destruct (to_string_u64_spec v Hv) as (? & ? & _). by apply digits_token. Qed.

Lemma i64_token v : in_i64 v → token (to_string_i64 v).
Proof.
  intros Hv. unfold to_string_i64. destruct (Z.ltb_spec v 0); [|apply u64_token; u64; lia].
  destruct (u64_token (- v)) as [? Hns]; [u64; lia|]. split; [done|]. by constructor.
Qed.

Lemma parse_uint64_print v : in_u64 v → parse_uint64 (to_string_u64 v) = Some v.
Proof.
  intros Hv. unfold parse_uint64. pose proof (from_chars_u64_print v [] Hv I) as E.
  rewrite app_nil_r in E. rewrite E. destruct (u64_token v Hv) as [Hne _]. by destruct (to_string_u64 v).
Qed.

Lemma parse_int64_print v : in_i64 v → parse_int64 (to_string_i64 v) = Some v.
Proof.
  intros Hv. unfold parse_int64. pose proof (from_chars_i64_print v [] Hv I) as E.
  rewrite app_nil_r in E. rewrite E. destruct (i64_token v Hv) as [Hne _]. by destruct (to_string_i64 v).
Qed.

Lemma parse_side_print (s : Side) : parse_side (print_side s) = Some s.
Proof. by destruct s. Qed.

Lemma side_token (s : Side) : token (print_side s).
Proof. destruct s; (split; [done|repeat constructor]). Qed.

Lemma from_chars_u64_range s v rest : from_chars_u64 s = Some (v, rest) → 0 <= v → in_u64 v.
Proof.
  unfold from_chars_u64. destruct (span_digits s) as [[|d ds] r]; [done|].
  destruct (Z.ltb_spec (dec_value (d :: ds)) 18446744073709551616); [|done]. intros. simplify_eq. u64. lia.
Qed.

Lemma span_digits_digits s : all_digits (span_digits s).1.
Proof.
  induction s as [|c s IH]; simpl; [constructor|]. destruct (is_digit c) eqn:Ec; [|constructor].
  destruct (span_digits s). by constructor.
Qed.

Lemma dec_value_nonneg ds : all_digits ds → 0 <= dec_value ds.
Proof.
  induction 1 as [|c ds Hc _ IH]; [done|]. rewrite dec_value_cons. unfold is_digit in Hc.
  apply andb_true_iff in Hc. pose proof (Z.pow_nonneg 10 (Z.of_nat (length ds))). nia.
Qed.

Lemma parse_uint64_range s v : parse_uint64 s = Some v → in_u64 v.
Proof.
  unfold parse_uint64. destruct s as [|c s]; [done|].
  destruct (from_chars_u64 (c :: s)) as [[v' [|]]|] eqn:E; try done. intros [= <-].
  eapply from_chars_u64_range; [done|]. unfold from_chars_u64 in E.
  pose proof (span_digits_digits (c :: s)) as Hd. destruct (span_digits (c :: s)) as [[|d ds] r]; [done|].
  destruct (Z.ltb _ _); [|done]. simplify_eq. by apply dec_value_nonneg.
Qed.

Lemma parse_int64_range s v : parse_int64 s = Some v → in_i64 v.
Proof.
  unfold parse_int64. destruct s as [|c s]; [done|].
  destruct (from_chars_i64 (c :: s)) as [[v' [|]]|] eqn:E; try done. intros [= <-].
  unfold from_chars_i64 in E. destruct (split_minus (c :: s)) as [neg s1].
  destruct (span_digits s1) as [[|d ds] r]; [done|].
  destruct (_ && _) eqn:Eb; [|done]. simplify_eq. apply andb_true_iff in Eb. u64. lia.
Qed.

(** A printed command is a list of tokens, at least two. *)
Lemma print_command_tokens c :
  wf_command_fields c →
  ∃ t u ts, print_command c = join (t :: u :: ts) ∧ Forall token (t :: u :: ts) ∧
    t :: u :: ts = match c with
      | CLimit o => [str "ADD"; to_string_u64 (lo_id o); print_side (lo_side o);
                     to_string_i64 (lo_price o); to_string_u64 (lo_quantity o)]
      | CMarket o => [str "MARKET"; to_string_u64 (mo_id o); print_side (mo_side o); to_string_u64 (mo_quantity o)]
      | CCancel c => [str "CANCEL"; to_string_u64 (cr_id c)]
      end.
Proof.
  assert (token (str "ADD") ∧ token (str "MARKET") ∧ token (str "CANCEL")) as (Ha & Hm & Hc)
    by (split_and!; (split; [done|repeat constructor])).
  intros Hwf. unfold print_command.
  destruct c as [o|o|[id]]; simpl in Hwf; unfold wf_new_order in Hwf; simpl in Hwf;
    eexists _, _, _; (split; [reflexivity|]); (split; [|reflexivity]);
    rewrite !Forall_cons, Forall_nil; split_and!; try done; naive_solver auto using u64_token, i64_token, side_token.
Qed.

(** Round trip: every command printed in the documented grammar parses
    back to that command, with every field over its whole 64-bit range,
    negative prices included. *)
Lemma parse_print_roundtrip c :
  wf_command_fields c → parse (print_command c) = without_owner c.
Proof.
  intros Hwf. destruct (print_command_tokens c Hwf) as (t & u & ts & E & Ht & Hs). unfold parse. rewrite E, tokenize_join by done.
  destruct c as [o|o|[id]]; simpl in Hwf, Hs; unfold wf_new_order in Hwf; simpl in Hwf; simplify_eq;
    simpl; by rewrite ?parse_uint64_print, ?parse_side_print, ?parse_int64_print, ?parse_uint64_print by naive_solver.
Qed.

(** What the parser accepts is in range. *)
Lemma parse_range line :
  match parse line with
  | PLimit o => wf_new_order (NLimit o) ∧ lo_owner o = 0
  | PMarket o => wf_new_order (NMarket o) ∧ mo_owner o = 0
  | PCancel c => in_u64 (cr_id c)
  | PError m => m ≠ []
  end.
Proof.
  unfold parse. destruct (tokenize line) as [|cmd ts]; [done|].
  unfold parse_cancel, parse_add, parse_market.
  repeat (case_match; simplify_eq; try done);
    repeat match goal with
    | H : parse_uint64 _ = Some _ |- _ => apply parse_uint64_range in H
    | H : parse_int64 _ = Some _ |- _ => apply parse_int64_range in H
    end; unfold wf_new_order; simpl; try done; (split; [split_and!; try done; u64; lia|done]).
Qed.

(** Every rendered response carries the id of the order it answers at a
    fixed place, so a client with several orders in flight can match it. *)
Theorem render_carries_order_id r :
  in_u64 (order_id r) →
  ∃ rest, from_chars_u64 (drop 12 (render r)) = Some (order_id r, rest) ∧
    take 8 (render r) = (if bool_decide (status r = Accepted) then str "ACCEPTED" else str "REJECTED").
Proof.
  intros Hid. unfold render, id_tag. destruct (bool_decide _); simpl; rewrite <- ?app_assoc.
  - eexists. split; [apply from_chars_u64_print; done|done].
  - eexists. split; [apply from_chars_u64_print; done|done].
Qed.
End TextFacts.

(** ** Witnesses *)

Lemma render_carries_order_id_witness :
  ∃ rest, from_chars_u64 (drop 12 (render (mkResponse PriceOutOfBand [] 0 42))) = Some (42, rest).
Proof.
  destruct (render_carries_order_id (mkResponse PriceOutOfBand [] 0 42)) as (rest & E & _);
    [simpl; u64; lia|]. exists rest. exact E.
Defined.
