(* ===== verification/GatewayCodec.v ===== *)
(** * GatewayCodec: adapters/binary_protocol/GatewayCodec.{hpp,cpp} and adapters/tcp/framing.hpp

    Requests from binary payloads, responses as binary payloads, and the
    length-prefixed frames that carry either protocol over TCP. *)
From Stdlib Require Import String.
From S2P Require Import Prelude Core Bytes BinaryCodec Text TextProtocol.

Section Gateway.
Variable host_little : bool.

Definition side_of_byte (b : Z) : Side := if Z.eqb b 0 then Buy else Sell.

Definition parse_binary (payload : list Z) : outcome ParseResult :=
  decoded ← decode host_little payload;
  Ok (match decoded with
      | None => PError (str "binary decode failed: invalid or truncated message")
      | Some (MLimit m) =>
          PLimit (mkLimit (la_order_id m) (side_of_byte (la_side m)) (la_price m) (la_quantity m) 0)
      | Some (MMarket m) =>
          PMarket (mkMarket (ma_order_id m) (side_of_byte (ma_side m)) (ma_quantity m) 0)
      | Some (MCancel m) => PCancel (mkCancel (cm_order_id m))
      | Some _ =>
          PError (str "binary decode failed: received server-to-client message type in request")
      end).

Definition engine_result_to_reason_code (result : EngineResult) : Z :=
  match result with
  | DuplicateOrderId => 1
  | UnknownOrderId => 2
  | InvalidQuantity => 3
  | InvalidPrice => 4
  | PoolExhausted => 5
  | SelfTradePrevented => 6
  | PriceOutOfBand => 7
  | QuantityTooLarge => 8
  | TickSizeMisaligned => 9
  | InternalError => 10
  | Accepted => 0
  end.

(** A zeroed stack buffer, of which the written prefix is returned. *)
Definition encode_to_string (m : AnyMessage) : outcome (list Z) :=
  '(buf, written) ← encode host_little m (replicate kMaxMessageWireSize 0);
  Ok (take written buf).

Definition notification_of (trade : Trade) : TradeNotificationMsg :=
  mkTradeNotification kTradeNotification 0 (buy_order_id trade) (sell_order_id trade)
    (t_price trade) (t_quantity trade) (trade_sequence trade).

Fixpoint render_trades (ts : list Trade) : outcome (list Z) :=
  match ts with
  | [] => Ok []
  | trade :: ts =>
      bytes ← encode_to_string (MTrade (notification_of trade));
      rest ← render_trades ts;
      Ok (bytes ++ rest)
  end.

Definition render_binary (response : EngineResponse) : outcome (list Z) :=
  if negb (bool_decide (status response = Accepted)) then
    encode_to_string (MReject (mkReject kReject (engine_result_to_reason_code (status response))
                                        (order_id response)))
  else
    ack ← encode_to_string (MAck (mkAck kAck 0 (order_id response) (remaining_qty response)));
    rest ← render_trades (trades response);
    Ok (ack ++ rest).

Definition render_binary_error (message : list Z) : outcome (list Z) :=
  encode_to_string (MReject (mkReject kReject 6 0)).
End Gateway.

(** ** framing.hpp *)

Definition frame_message (payload : list Z) : list Z :=
  let len := wrap32 (Z.of_nat (length payload)) in
  [Z.land (Z.shiftr len 24) 255; Z.land (Z.shiftr len 16) 255; Z.land (Z.shiftr len 8) 255;
   Z.land len 255] ++ take (Z.to_nat len) payload.

(** ** What a response looks like on the wire *)

Definition response_messages (r : EngineResponse) : list AnyMessage :=
  if bool_decide (status r = Accepted)
  then MAck (mkAck kAck 0 (order_id r) (remaining_qty r)) ::
       ((λ t, MTrade (notification_of t)) <$> trades r)
  else [MReject (mkReject kReject (engine_result_to_reason_code (status r)) (order_id r))].

(** A client reading consecutive messages off a payload. *)
Fixpoint read_messages (fuel : nat) (hl : bool) (bs : list Z) : outcome (option (list AnyMessage)) :=
  match bs, fuel with
  | [], _ => Ok (Some [])
  | _, O => NoFuel
  | _, S fuel =>
      m ← decode hl bs;
      match m with
      | None => Ok None
      | Some m =>
          rest ← read_messages fuel hl (drop (wire_size m) bs);
          Ok (match rest with Some ms => Some (m :: ms) | None => None end)
      end
  end.

Definition wf_trade (t : Trade) : Prop :=
  in_u64 (trade_sequence t) ∧ in_u64 (buy_order_id t) ∧ in_u64 (sell_order_id t) ∧
  in_i64 (t_price t) ∧ in_u64 (t_quantity t).

Definition wf_response (r : EngineResponse) : Prop :=
  in_u64 (order_id r) ∧ in_u64 (remaining_qty r) ∧ Forall wf_trade (trades r).

Section GatewayFacts.
Variable hl : bool.

Lemma encode_to_string_wire m : wf_message m → encode_to_string hl m = Ok (wire m).
Proof.
  intros Hm. unfold encode_to_string. rewrite encode_spec; [|done|destruct m; simpl; compute; lia].
  cbn [mbind outcome_bind]. by rewrite <- length_wire, take_app_length.
Qed.

Lemma notification_wf t : wf_trade t → wf_message (MTrade (notification_of t)).
Proof. intros (? & ? & ? & ? & ?). simpl. unfold is_byte. split_and!; done || lia. Qed.

Lemma render_trades_wire ts :
  Forall wf_trade ts → render_trades hl ts = Ok (concat ((λ t, wire (MTrade (notification_of t))) <$> ts)).
Proof.
  induction 1 as [|t ts Ht _ IH]; [done|]. cbn [render_trades].
  rewrite encode_to_string_wire by by apply notification_wf. cbn [mbind outcome_bind]. by rewrite IH.
Qed.

Lemma response_messages_wf r : wf_response r → Forall wf_message (response_messages r).
Proof.
  intros (Hid & Hq & Ht). unfold response_messages. destruct (bool_decide _).
  - constructor; [simpl; unfold is_byte; split_and!; done || lia|].
    apply Forall_fmap. eapply Forall_impl; [exact Ht|]. intros t. apply notification_wf.
  - constructor; [|constructor]. simpl. unfold is_byte. destruct (status r); simpl; split_and!; done || lia.
Qed.

Lemma render_binary_wire r :
  wf_response r → render_binary hl r = Ok (concat (wire <$> response_messages r)).
Proof.
  intros Hr. pose proof (response_messages_wf r Hr) as Hm. destruct Hr as (_ & _ & Ht).
  unfold render_binary, response_messages in *. destruct (bool_decide _); cbn [negb].
  - apply Forall_cons in Hm as [Ha _]. rewrite encode_to_string_wire by done. cbn [mbind outcome_bind].
    rewrite render_trades_wire by done. cbn [mbind outcome_bind].
    cbn [fmap list_fmap concat]. do 3 f_equal. apply (list_fmap_compose (λ t, MTrade (notification_of t)) wire).
  - apply Forall_cons in Hm as [Ha _]. rewrite encode_to_string_wire by done.
    cbn [fmap list_fmap concat]. by rewrite app_nil_r.
Qed.

Lemma wire_bytes m : wf_message m → Forall is_byte (wire m).
Proof.
  intros Hm. destruct m as [m|m|m|m|m|m]; cbn [wire wf_message] in *; destruct m; simpl in Hm;
    destruct_and!; subst; rewrite !Forall_app, !Forall_cons, Forall_nil; simpl;
    split_and!; try apply be_bytes_range; done.
Qed.

Lemma read_messages_wire fuel ms :
  Forall wf_message ms → (length (concat (wire <$> ms)) <= fuel)%nat →
  read_messages fuel hl (concat (wire <$> ms)) = Ok (Some ms).
Proof.
  intros Hm. revert fuel. induction Hm as [|m ms Hm Hms IH]; intros fuel Hf; [by destruct fuel|].
  cbn [fmap list_fmap concat] in *. change (concat (list_fmap _ _ wire ms)) with (concat (wire <$> ms)) in *.
  rewrite length_app, length_wire in Hf.
  assert (0 < wire_size m)%nat by (destruct m; compute; lia).
  assert (wire m ≠ []) as Hne by (intros E; pose proof (length_wire m) as El; rewrite E in El; simpl in El; lia).
  destruct fuel as [|fuel]; [lia|].
  assert (read_messages (S fuel) hl (wire m ++ concat (wire <$> ms)) =
    m' ← decode hl (wire m ++ concat (wire <$> ms));
    match m' with None => Ok None | Some m' =>
      rest ← read_messages fuel hl (drop (wire_size m') (wire m ++ concat (wire <$> ms)));
      Ok (match rest with Some ms => Some (m' :: ms) | None => None end) end) as ->.
  { destruct (wire m ++ concat (wire <$> ms)) eqn:E; [|done]. by destruct (wire m). }
  assert (Forall is_byte (wire m ++ concat (wire <$> ms))) as Hb.
  { apply Forall_app; split; [by apply wire_bytes|]. apply Forall_concat, Forall_fmap.
    eapply Forall_impl; [exact Hms|]. apply wire_bytes. }
  rewrite decode_spec, decoded_wire by done.
  cbn [mbind outcome_bind]. rewrite <- length_wire, drop_app_length, IH by lia. done.
Qed.

Lemma length_notifications ts :
  length (concat (wire <$> ((λ t, MTrade (notification_of t)) <$> ts))) =
  (kTradeNotificationWireSize * length ts)%nat.
Proof.
  induction ts as [|t ts IH]; [done|]. rewrite !fmap_cons. cbn [concat].
  rewrite length_app, length_wire, IH. cbn [wire_size length]. unfold kTradeNotificationWireSize. lia.
Qed.

Lemma length_response r :
  length (concat (wire <$> response_messages r)) =
  (if bool_decide (status r = Accepted)
   then kAckWireSize + kTradeNotificationWireSize * length (trades r)
   else kRejectWireSize)%nat.
Proof.
  unfold response_messages. destruct (bool_decide _); rewrite fmap_cons; cbn [concat];
    rewrite length_app, length_wire; [by rewrite length_notifications|done].
Qed.
End GatewayFacts.
