(* ===== verification/CodecTheorems.v ===== *)
(** * CodecTheorems: what the binary protocol guarantees *)
From Stdlib Require Import String.
From S2P Require Import Prelude Core Bytes BinaryCodec Text TextProtocol GatewayCodec.

Section Properties.
Implicit Types (m : AnyMessage) (bs rest out : list Z).

(** C20. Round trip on any pair of hosts: a message encoded on one host, whatever
    its endianness, into a buffer of at least its wire size, occupies exactly
    that many bytes, leaves the rest of the buffer alone, and is decoded on
    any other host to the same message, whatever bytes follow it. *)
Theorem encode_decode_roundtrip encoder_little decoder_little m out rest :
  wf_message m → Forall is_byte rest → (wire_size m <= length out)%nat →
  ∃ out', encode encoder_little m out = Ok (out', wire_size m) ∧
    drop (wire_size m) out' = drop (wire_size m) out ∧
    decode decoder_little (take (wire_size m) out' ++ rest) = Ok (Some m).
Proof.
  intros Hm Hr Hl. eexists. split; [by apply encode_spec|].
  rewrite <- !length_wire, drop_app_length, take_app_length. split; [done|].
  rewrite decode_spec, decoded_wire by (try apply Forall_app; auto using wire_bytes). done.
Qed.

(** C28. Decoding is total and stays inside the buffer: on any bytes it returns,
    with nothing exactly when the buffer is empty, its first byte is no
    message type, or it is shorter than that type's wire size; trailing
    bytes are ignored. *)
Theorem decode_total host_little bs :
  Forall is_byte bs →
  ∃ r, decode host_little bs = Ok r ∧
    (r = None ↔ match bs with
                | [] => True
                | t :: _ => match announced_size t with None => True | Some n => (length bs < n)%nat end
                end).
Proof.
  intros Hb. eexists. split; [by apply decode_spec|]. unfold decoded. destruct bs as [|t bs]; [done|].
  destruct (announced_size t) as [n|]; [|done].
  destruct (Nat.ltb_spec (length (t :: bs)) n); split; done || lia.
Qed.

(** Decoding loses nothing: a decoded message is well-formed, and encoding
    it again, on any host, reproduces the bytes it was decoded from. *)
Theorem decode_encode_roundtrip decoder_little encoder_little bs m :
  Forall is_byte bs → decode decoder_little bs = Ok (Some m) →
  wf_message m ∧
  encode encoder_little m (replicate kMaxMessageWireSize 0) =
    Ok (take (wire_size m) bs ++ drop (wire_size m) (replicate kMaxMessageWireSize 0), wire_size m).
Proof.
  intros Hb Hd. rewrite decode_spec in Hd by done. inv_ok.
  destruct (wire_decoded _ _ Hb Hd) as [Hm Hw]. split; [done|].
  rewrite <- Hw. apply encode_spec; [done|]. destruct m; compute; lia.
Qed.

(** A response on the wire: an acceptance is one acknowledgement with the
    order id and remainder followed by one notification per trade, a
    rejection is one reject with the id and the reason; a client reading the
    payload message by message gets exactly these. *)
Theorem render_binary_readable server_little client_little r :
  wf_response r →
  ∃ bs, render_binary server_little r = Ok bs ∧
    read_messages (length bs) client_little bs = Ok (Some (response_messages r)) ∧
    length bs = (if bool_decide (status r = Accepted)
                 then kAckWireSize + kTradeNotificationWireSize * length (trades r)
                 else kRejectWireSize)%nat.
Proof.
  intros Hr. exists (concat (wire <$> response_messages r)).
  split; [by apply render_binary_wire|]. split; [|apply length_response].
  apply read_messages_wire; [by apply response_messages_wf|done].
Qed.

(** A response outgrows the frame limit: an accepted order with 98 or more
    trades renders to a payload longer than the 4096 bytes both ends of the
    TCP protocol allow, although the framing function relies on every
    response being below that. *)
Theorem response_exceeds_frame_limit host_little r :
  wf_response r → status r = Accepted → (98 <= length (trades r))%nat →
  ∃ bs, render_binary host_little r = Ok bs ∧ (4096 < length bs)%nat.
Proof.
  intros Hr Hs Hn. eexists. split; [by apply render_binary_wire|].
  rewrite length_response, bool_decide_true by done.
  unfold kAckWireSize, kTradeNotificationWireSize. lia.
Qed.

(** Requests: a client order encoded on any host is parsed by the gateway to
    that order, for every side, id, price and quantity; truncated or unknown
    payloads and server-to-client messages are parse errors, never commands. *)
Theorem parse_binary_requests client_little server_little m :
  wf_message m →
  parse_binary server_little (wire m) =
  Ok (match m with
      | MLimit l => PLimit (mkLimit (la_order_id l) (side_of_byte (la_side l)) (la_price l) (la_quantity l) 0)
      | MMarket l => PMarket (mkMarket (ma_order_id l) (side_of_byte (ma_side l)) (ma_quantity l) 0)
      | MCancel c => PCancel (mkCancel (cm_order_id c))
      | _ => PError (str "binary decode failed: received server-to-client message type in request")
      end) ∧
  encode_to_string client_little m = Ok (wire m) ∧
  ∀ n, (n < wire_size m)%nat → ∃ e, parse_binary server_little (take n (wire m)) = Ok (PError e).
Proof.
  intros Hm. split; [|split; [by apply encode_to_string_wire|]].
  - unfold parse_binary. pose proof (decoded_wire m [] Hm) as Hd. rewrite app_nil_r in Hd.
    rewrite decode_spec, Hd by by apply wire_bytes. by destruct m.
  - intros n Hn. unfold parse_binary.
    rewrite decode_spec by by apply Forall_take, wire_bytes. cbn [mbind outcome_bind].
    assert (decoded (take n (wire m)) = None) as ->; [|eauto].
    destruct (announced_type m Hm) as (t & rest & Ew & Ea). pose proof (length_wire m) as Hl.
    rewrite Ew in *. destruct n; [done|]. unfold decoded. cbn [take]. rewrite Ea.
    destruct (Nat.ltb_spec (length (t :: take n rest)) (wire_size m)) as [|Hge]; [done|].
    cbn [length] in Hge, Hl. rewrite length_take in Hge. lia.
Qed.
End Properties.

(** ** Witnesses *)

Definition demo_add : AnyMessage := MLimit (mkLimitOrderAdd kLimitOrderAdd 1 7 42 (-100) 5).

Lemma demo_add_wf : wf_message demo_add.
Proof. unfold wf_message, demo_add. simpl. unfold is_byte. u64. lia. Qed.

Lemma encode_decode_roundtrip_witness :
  ∃ out', encode true demo_add (replicate 40 9) = Ok (out', 34%nat) ∧
    decode false (take 34 out' ++ [255]) = Ok (Some demo_add).
Proof.
  destruct (encode_decode_roundtrip true false demo_add (replicate 40 9) [255] demo_add_wf)
    as (out' & E & _ & D).
  - repeat constructor; compute; congruence.
  - vm_compute. lia.
  - exists out'. split; [exact E|exact D].
Defined.

Lemma decode_total_witness : ∃ r, decode true [1; 2; 3] = Ok r ∧ r = None.
Proof.
  destruct (decode_total true [1; 2; 3]) as (r & E & Hr).
  - repeat constructor; compute; congruence.
  - exists r. split; [exact E|]. apply Hr. vm_compute. lia.
Defined.

Lemma decode_encode_roundtrip_witness : wf_message (MReject (mkReject 5 3 258)).
Proof.
  apply (decode_encode_roundtrip true false [5; 3; 0; 0; 0; 0; 0; 0; 1; 2] (MReject (mkReject 5 3 258))).
  - repeat constructor; compute; congruence.
  - vm_compute. reflexivity.
Defined.

(** An acceptance with [n] equal trades. *)
Definition demo_response (n : nat) : EngineResponse :=
  mkResponse Accepted (replicate n (mkTrade 1 2 3 100 5 false)) 4 9.

Lemma demo_response_wf n : wf_response (demo_response n).
Proof.
  split; [simpl; u64; lia|]. split; [simpl; u64; lia|]. apply Forall_replicate.
  unfold wf_trade. simpl. u64. lia.
Qed.

Lemma render_binary_readable_witness :
  ∃ bs, render_binary true (demo_response 2) = Ok bs ∧ length bs = 102%nat.
Proof.
  destruct (render_binary_readable true false (demo_response 2) (demo_response_wf 2)) as (bs & E & _ & Hl).
  exists bs. split; [exact E|]. rewrite Hl. reflexivity.
Defined.

Lemma response_exceeds_frame_limit_witness :
  ∃ bs, render_binary true (demo_response 98) = Ok bs ∧ (4096 < length bs)%nat.
Proof.
  apply (response_exceeds_frame_limit true (demo_response 98) (demo_response_wf 98)); [reflexivity|].
  vm_compute. lia.
Defined.

Lemma parse_binary_requests_witness :
  parse_binary false (wire demo_add) = Ok (PLimit (mkLimit 42 Sell (-100) 5 0)).
Proof. exact (proj1 (parse_binary_requests true false demo_add demo_add_wf)). Defined.
