(* ===== verification/TcpServer.v ===== *)
(** * TcpServer: adapters/tcp/tcp_server.{hpp,cpp}

    Connection state, the framing loop, the write path and the backlog bound
    of the epoll server.  The kernel's answers to [accept4], [read] and [send]
    are inputs, one list element per call; a list that runs out leaves the
    loop unfinished ([NoFuel]).  A [Connection&] is a reference into
    [connections_]: using it after the entry was erased is undefined.  The
    frame handler is a parameter that may call back into the server, with a
    state [W] of its own. *)
From S2P Require Import Prelude Core GatewayCodec.

Definition kMaxFrameSize : Z := 4096.

Definition kDefaultMaxWriteBufferBytes : Z := 1048576.

Record Connection := mkConn {
  c_fd : Z; c_id : Z; read_buffer : list Z; write_buffer : list Z }.

(** What the kernel answers. *)
Inductive ReadResult := RData (bytes : list Z) | REof | RAgain | RIntr | RError.

Inductive SendResult := SSent (n : nat) | SAgain | SIntr | SError.

Inductive AcceptResult :=
| AFd (fd : Z) (nodelay_ok epoll_ok : bool) | AAgain | AIntr | AError.

Record TcpServer := mkServer {
  connections_ : gmap Z Connection;
  client_to_fd_ : gmap Z Z;
  next_client_id_ : Z;
  max_write_buffer_bytes_ : Z;
  (** kernel side: fds with EPOLLOUT armed, answers to the coming sends, and
      the bytes the kernel has taken from each client's stream *)
  armed_ : gset Z;
  sends_ : list SendResult;
  delivered_ : gmap Z (list Z) }.

Definition TcpServer_new (max_write_buffer_bytes : Z) : TcpServer :=
  mkServer ∅ ∅ 1 max_write_buffer_bytes ∅ [] ∅.

Definition set_connections (m : gmap Z Connection) (sv : TcpServer) : TcpServer :=
  mkServer m (client_to_fd_ sv) (next_client_id_ sv) (max_write_buffer_bytes_ sv)
           (armed_ sv) (sends_ sv) (delivered_ sv).

Definition set_conn (fd : Z) (c : Connection) (sv : TcpServer) : TcpServer :=
  set_connections (<[fd := c]> (connections_ sv)) sv.

Definition set_armed (s : gset Z) (sv : TcpServer) : TcpServer :=
  mkServer (connections_ sv) (client_to_fd_ sv) (next_client_id_ sv) (max_write_buffer_bytes_ sv)
           s (sends_ sv) (delivered_ sv).

Definition set_sends (l : list SendResult) (sv : TcpServer) : TcpServer :=
  mkServer (connections_ sv) (client_to_fd_ sv) (next_client_id_ sv) (max_write_buffer_bytes_ sv)
           (armed_ sv) l (delivered_ sv).

Definition deliver_bytes (id : Z) (bytes : list Z) (sv : TcpServer) : TcpServer :=
  mkServer (connections_ sv) (client_to_fd_ sv) (next_client_id_ sv) (max_write_buffer_bytes_ sv)
           (armed_ sv) (sends_ sv) (<[id := default [] (delivered_ sv !! id) ++ bytes]> (delivered_ sv)).

(** ** Connections *)

Definition arm_epollout (fd : Z) (sv : TcpServer) : TcpServer := set_armed ({[fd]} ∪ armed_ sv) sv.

Definition disarm_epollout (fd : Z) (sv : TcpServer) : TcpServer := set_armed (armed_ sv ∖ {[fd]}) sv.

Definition close_connection (fd : Z) (sv : TcpServer) : TcpServer :=
  let sv := disarm_epollout fd sv in
  match connections_ sv !! fd with
  | None => sv
  | Some conn =>
      mkServer (delete fd (connections_ sv)) (delete (c_id conn) (client_to_fd_ sv))
               (next_client_id_ sv) (max_write_buffer_bytes_ sv) (armed_ sv) (sends_ sv) (delivered_ sv)
  end.

(** [emplace]: keeps an existing entry. *)
Definition emplace {V} (k : Z) (v : V) (m : gmap Z V) : gmap Z V :=
  match m !! k with Some _ => m | None => <[k := v]> m end.

Fixpoint handle_accept (answers : list AcceptResult) (sv : TcpServer) : outcome TcpServer :=
  match answers with
  | [] => NoFuel
  | AAgain :: _ => Ok sv
  | AIntr :: answers => handle_accept answers sv
  | AError :: _ => Ok sv
  | AFd client_fd nodelay_ok epoll_ok :: answers =>
      if negb nodelay_ok then handle_accept answers sv
      else
        let client_id := next_client_id_ sv in
        let conn := mkConn client_fd client_id [] [] in
        let sv := mkServer (emplace client_fd conn (connections_ sv))
                    (emplace client_id client_fd (client_to_fd_ sv)) (u64_add client_id 1)
                    (max_write_buffer_bytes_ sv) (armed_ sv) (sends_ sv) (delivered_ sv) in
        if (epoll_ok : bool) then handle_accept answers sv
        else
          handle_accept answers
            (mkServer (delete client_fd (connections_ sv)) (delete client_id (client_to_fd_ sv))
               (next_client_id_ sv) (max_write_buffer_bytes_ sv) (armed_ sv) (sends_ sv) (delivered_ sv))
  end.

(** ** Writing *)

(** The answers still to come bound the number of sends. *)
Fixpoint flush_loop (fuel : nat) (fd : Z) (sv : TcpServer) : outcome TcpServer :=
  match fuel with
  | O => NoFuel
  | S fuel =>
      conn ← deref (connections_ sv !! fd);
      match write_buffer conn with
      | [] => Ok (disarm_epollout (c_fd conn) sv)
      | _ =>
          match sends_ sv with
          | [] => NoFuel
          | SSent n :: rest =>
              let sent := take n (write_buffer conn) in
              let conn' := mkConn (c_fd conn) (c_id conn) (read_buffer conn) (drop n (write_buffer conn)) in
              flush_loop fuel fd (deliver_bytes (c_id conn) sent (set_conn fd conn' (set_sends rest sv)))
          | SAgain :: rest => Ok (arm_epollout (c_fd conn) (set_sends rest sv))
          | SIntr :: rest => flush_loop fuel fd (set_sends rest sv)
          | SError :: rest => Ok (close_connection (c_fd conn) (set_sends rest sv))
          end
      end
  end.

Definition flush_write_buffer (fd : Z) (sv : TcpServer) : outcome TcpServer :=
  flush_loop (S (length (sends_ sv))) fd sv.

Definition handle_write (fd : Z) (sv : TcpServer) : outcome TcpServer :=
  match connections_ sv !! fd with
  | None => Ok sv
  | Some _ => flush_write_buffer fd sv
  end.

Definition send_to_client (client_id : Z) (data : list Z) (sv : TcpServer) : outcome TcpServer :=
  match client_to_fd_ sv !! client_id with
  | None => Ok sv
  | Some fd =>
      match connections_ sv !! fd with
      | None => Ok sv
      | Some conn =>
          let conn := mkConn (c_fd conn) (c_id conn) (read_buffer conn) (write_buffer conn ++ data) in
          let sv := set_conn fd conn sv in
          if negb (Z.eqb (max_write_buffer_bytes_ sv) 0) &&
             Z.ltb (max_write_buffer_bytes_ sv) (Z.of_nat (length (write_buffer conn)))
          then Ok (close_connection fd sv)
          else flush_write_buffer fd sv
      end
  end.

(** ** Reading *)

(** The big-endian length prefix. *)
Definition payload_len (buf : list Z) : outcome Z :=
  match buf with
  | p0 :: p1 :: p2 :: p3 :: _ =>
      Ok (Z.lor (Z.lor (Z.lor (Z.shiftl p0 24) (Z.shiftl p1 16)) (Z.shiftl p2 8)) p3)
  | _ => Undefined
  end.

(** An event of [epoll_wait], with the answers the kernel gives while it is
    handled: the listener, the eventfd, EPOLLHUP or EPOLLERR on a client, or
    a client that is readable (with what the reads return) and/or writable. *)
Inductive IoEvent :=
| EvListener (answers : list AcceptResult)
| EvEventfd
| EvHangup (fd : Z)
| EvReady (fd : Z) (readable : option (list ReadResult)) (writable : bool).

(** After [shutdown:], every connection is closed and both tables cleared. *)
Definition shutdown_connections (sv : TcpServer) : TcpServer :=
  mkServer ∅ ∅ (next_client_id_ sv) (max_write_buffer_bytes_ sv) (armed_ sv) (sends_ sv) (delivered_ sv).

(** ** The callbacks *)

Section Callbacks.
Context {W X : Type}.

Abbreviation FrameHandler := (Z → list Z → TcpServer * W → outcome (TcpServer * W)).
Abbreviation ResponseDrainHandler := (TcpServer * X → outcome (TcpServer * X)).

(** The two [std::function] members, empty until they are set. *)
Record Callbacks := mkCallbacks {
  cb_frame : option FrameHandler; cb_drain : option ResponseDrainHandler }.

Definition Callbacks_new : Callbacks := mkCallbacks None None.

Definition set_frame_handler (handler : FrameHandler) (c : Callbacks) : Callbacks :=
  mkCallbacks (Some handler) (cb_drain c).

Definition set_response_drain_handler (handler : ResponseDrainHandler) (c : Callbacks) : Callbacks :=
  mkCallbacks (cb_frame c) (Some handler).

(** [if (frame_handler_) frame_handler_(client_id, payload)]: without one the
    frame is discarded. *)
Definition call_frame_handler (c : Callbacks) (client_id : Z) (payload : list Z) (s : TcpServer * W)
    : outcome (TcpServer * W) :=
  match cb_frame c with Some h => h client_id payload s | None => Ok s end.
End Callbacks.
Arguments Callbacks : clear implicits.

(** [frame_handler_] below is [call_frame_handler] of the object's callbacks. *)
Section Reading.
Context {W : Type}.
Variable frame_handler_ : Z → list Z → TcpServer * W → outcome (TcpServer * W).

Definition process_frame (client_id : Z) (payload : list Z) (s : TcpServer * W) : outcome (TcpServer * W) :=
  frame_handler_ client_id payload s.

(** [conn.read_buffer.erase(0, n)]. *)
Definition erase_read (fd : Z) (n : nat) (sv : TcpServer) : outcome TcpServer :=
  conn ← deref (connections_ sv !! fd);
  Ok (set_conn fd (mkConn (c_fd conn) (c_id conn) (drop n (read_buffer conn)) (write_buffer conn)) sv).

(** Every round but the last consumes at least the four prefix bytes. *)
Fixpoint frame_loop (fuel : nat) (fd : Z) (s : TcpServer * W) : outcome (TcpServer * W) :=
  match fuel with
  | O => NoFuel
  | S fuel =>
      conn ← deref (connections_ s.1 !! fd);
      if Nat.ltb (length (read_buffer conn)) 4 then Ok s
      else
        len ← payload_len (read_buffer conn);
        if Z.ltb kMaxFrameSize len then Ok (close_connection fd s.1, s.2)
        else if Z.ltb (Z.of_nat (length (read_buffer conn))) (4 + len) then Ok s
        else
          let payload := take (Z.to_nat len) (drop 4 (read_buffer conn)) in
          s ← process_frame (c_id conn) payload s;
          sv ← erase_read fd (4 + Z.to_nat len) s.1;
          frame_loop fuel fd (sv, s.2)
  end.

(** The read loop: [inl] the connection was closed, [inr] drained. *)
Fixpoint read_loop (answers : list ReadResult) (fd : Z) (sv : TcpServer) : outcome (TcpServer + TcpServer) :=
  match answers with
  | [] => NoFuel
  | RData bytes :: answers =>
      conn ← deref (connections_ sv !! fd);
      read_loop answers fd
        (set_conn fd (mkConn (c_fd conn) (c_id conn) (read_buffer conn ++ bytes) (write_buffer conn)) sv)
  | REof :: _ | RError :: _ => Ok (inl (close_connection fd sv))
  | RAgain :: _ => Ok (inr sv)
  | RIntr :: answers => read_loop answers fd sv
  end.

Definition handle_read (answers : list ReadResult) (fd : Z) (s : TcpServer * W) : outcome (TcpServer * W) :=
  match connections_ s.1 !! fd with
  | None => Ok s
  | Some _ =>
      r ← read_loop answers fd s.1;
      match r with
      | inl sv => Ok (sv, s.2)
      | inr sv =>
          conn ← deref (connections_ sv !! fd);
          frame_loop (S (length (read_buffer conn))) fd (sv, s.2)
      end
  end.

(** ** The event loop *)

(** [response_drain_handler_]; the eventfd has been read. *)
Variable response_drain_handler_ : option (TcpServer * W → outcome (TcpServer * W)).

Definition handle_eventfd (s : TcpServer * W) : outcome (TcpServer * W) :=
  match response_drain_handler_ with Some h => h s | None => Ok s end.

(** The body of the loop over the events of one [epoll_wait]. *)
Definition handle_event (ev : IoEvent) (s : TcpServer * W) : outcome (TcpServer * W) :=
  match ev with
  | EvListener answers => sv ← handle_accept answers s.1; Ok (sv, s.2)
  | EvEventfd => handle_eventfd s
  | EvHangup fd => Ok (close_connection fd s.1, s.2)
  | EvReady fd readable writable =>
      s ← (match readable with Some answers => handle_read answers fd s | None => Ok s end);
      if (writable : bool) then sv ← handle_write fd s.1; Ok (sv, s.2) else Ok s
  end.

(** The loop itself; [shutdown] is the flag as read after the eventfd. *)
Fixpoint run_events (shutdown : bool) (events : list IoEvent) (s : TcpServer * W)
    : outcome (TcpServer * W) :=
  match events with
  | [] => Ok s
  | ev :: events =>
      s ← handle_event ev s;
      match ev, shutdown with
      | EvEventfd, true => Ok (shutdown_connections s.1, s.2)
      | _, _ => run_events shutdown events s
      end
  end.
End Reading.

(** ** Framing facts *)

Lemma payload_len_header len rest :
  0 <= len < 4294967296 →
  payload_len ([Z.land (Z.shiftr len 24) 255; Z.land (Z.shiftr len 16) 255; Z.land (Z.shiftr len 8) 255;
                Z.land len 255] ++ rest) = Ok len.
Proof.
  intros Hl. simpl. f_equal. apply Z.bits_inj'. intros n Hn.
  change 255 with (Z.ones 8).
  assert (∀ i, 32 <= i → Z.testbit len i = false) as Hhigh.
  { intros i Hi. destruct (decide (len = 0)) as [->|]; [apply Z.testbit_0_l|].
    apply Z.bits_above_log2; [lia|]. apply Z.log2_lt_pow2; [lia|].
    apply Z.lt_le_trans with (2 ^ 32); [lia|]. apply Z.pow_le_mono_r; lia. }
  rewrite !Z.lor_spec, !Z.shiftl_spec by lia.
  assert (∀ i j, Z.testbit (Z.land (Z.shiftr len i) (Z.ones 8)) j =
    (if decide (0 <= j < 8) then Z.testbit len (j + i) else false)) as Hb.
  { intros i j. destruct (decide (0 <= j)) as [Hj|Hj].
    - rewrite Z.land_spec, Z.shiftr_spec, Z.testbit_ones_nonneg by lia.
      destruct (Z.ltb_spec j 8).
      + rewrite decide_True by lia. apply andb_true_r.
      + rewrite decide_False by lia. apply andb_false_r.
    - rewrite Z.testbit_neg_r by lia. by rewrite decide_False by lia. }
  pose proof (Hb 0 n) as H0. rewrite Z.shiftr_0_r, Z.add_0_r in H0. rewrite H0, !Hb.
  repeat case_decide; try lia; rewrite ?orb_false_r, ?orb_false_l; try (f_equal; lia).
  symmetry. apply Hhigh. lia.
Qed.

Lemma frame_message_small payload :
  Z.of_nat (length payload) < 4294967296 →
  ∃ h, frame_message payload = h ++ payload ∧ length h = 4%nat ∧
    ∀ rest, payload_len (h ++ rest) = Ok (Z.of_nat (length payload)).
Proof.
  intros Hl. unfold frame_message. rewrite wrap32_small by (u64; lia). eexists. split.
  - rewrite Nat2Z.id, firstn_all. reflexivity.
  - split; [done|]. intros rest. apply payload_len_header. lia.
Qed.
