(* ===== verification/TcpTheorems.v ===== *)
(** * TcpTheorems: framing, connection tables and backlog of the TCP server *)
From S2P Require Import Prelude Core GatewayCodec TcpServer.

(** A handler that only records what it is given. *)
Definition record_frame (id : Z) (payload : list Z) (s : TcpServer * list (Z * list Z))
    : outcome (TcpServer * list (Z * list Z)) :=
  Ok (s.1, s.2 ++ [(id, payload)]).

Definition frames (ps : list (list Z)) : list Z := concat (frame_message <$> ps).

(** What is left is not a whole frame yet, and does not announce too long a one. *)
Definition incomplete (buf : list Z) : Prop :=
  (length buf < 4)%nat ∨
  ∃ len, payload_len buf = Ok len ∧ len <= kMaxFrameSize ∧ Z.of_nat (length buf) < 4 + len.

Definition small (p : list Z) : Prop := Z.of_nat (length p) <= kMaxFrameSize.

(** The tables point at each other. *)
Record server_inv (sv : TcpServer) : Prop := {
  si_conn fd c : connections_ sv !! fd = Some c → c_fd c = fd ∧ client_to_fd_ sv !! c_id c = Some fd;
  si_client id fd : client_to_fd_ sv !! id = Some fd →
    ∃ c, connections_ sv !! fd = Some c ∧ c_id c = id;
  si_ids id fd : client_to_fd_ sv !! id = Some fd → id < next_client_id_ sv;
  si_next : 0 <= next_client_id_ sv }.

(** Everything queued for a client so far, sent or not. *)
Definition stream (id : Z) (sv : TcpServer) : list Z :=
  default [] (delivered_ sv !! id) ++
  match client_to_fd_ sv !! id with
  | Some fd => match connections_ sv !! fd with Some c => write_buffer c | None => [] end
  | None => []
  end.

Section Tables.
Implicit Types (sv : TcpServer) (fd id : Z) (c : Connection).

Lemma set_conn_id fd c sv : connections_ sv !! fd = Some c → set_conn fd c sv = sv.
Proof. intros E. destruct sv. unfold set_conn, set_connections. simpl in *. by rewrite insert_id. Qed.

Lemma set_conn_set fd c c' sv : set_conn fd c (set_conn fd c' sv) = set_conn fd c sv.
Proof. unfold set_conn, set_connections. simpl. by rewrite insert_insert_eq. Qed.

Lemma set_conn_lookup fd c sv : connections_ (set_conn fd c sv) !! fd = Some c.
Proof. apply lookup_insert_eq. Qed.

(** ** Framing *)

(** Frames one after the other. *)
Fixpoint absorb {W} (f : list Z → W → outcome W) (ps : list (list Z)) (w : W) : outcome W :=
  match ps with [] => Ok w | p :: ps => w ← f p w; absorb f ps w end.

(** A handler that, for client [id], leaves the server alone where [f] is defined. *)
Definition absorbs {W} (h : Z → list Z → TcpServer * W → outcome (TcpServer * W)) (f : list Z → W → outcome W) id : Prop :=
  ∀ sv p w w', f p w = Ok w' → h id p (sv, w) = Ok (sv, w').

(** The framing loop hands over the complete frames, in order, and keeps the rest. *)
Lemma frame_loop_frames {W} h (f : list Z → W → outcome W) fuel fd sv c w w' ps partial :
  connections_ sv !! fd = Some c → absorbs h f (c_id c) → read_buffer c = frames ps ++ partial →
  Forall small ps → incomplete partial → (length ps < fuel)%nat → absorb f ps w = Ok w' →
  frame_loop h fuel fd (sv, w) =
  Ok (set_conn fd (mkConn (c_fd c) (c_id c) partial (write_buffer c)) sv, w').
Proof.
  intros Hc Hh Hb Hs Hi. revert sv c w fuel Hc Hh Hb.
  induction Hs as [|p ps Hp _ IH]; intros sv c w fuel Hc Hh Hb Hf Hw; (destruct fuel as [|fuel]; [lia|]);
    cbn [frame_loop fst snd absorb] in Hw |- *; rewrite Hc; cbn [deref mbind outcome_bind].
  - simpl in Hb. rewrite Hb. injection Hw as <-.
    assert (set_conn fd (mkConn (c_fd c) (c_id c) partial (write_buffer c)) sv = sv) as ->.
    { apply set_conn_id. rewrite Hc. destruct c. simpl in *. by subst. }
    destruct (Nat.ltb_spec (length partial) 4) as [|Hlen]; [done|].
    destruct Hi as [|(len & El & Hmax & Hshort)]; [lia|]. rewrite El. cbn [mbind outcome_bind].
    by rewrite (proj2 (Z.ltb_ge _ _)), (proj2 (Z.ltb_lt _ _)) by lia.
  - unfold small, kMaxFrameSize in Hp.
    destruct (f p w) as [w1| |] eqn:Ew; [|done..]. cbn [mbind outcome_bind] in Hw.
    destruct (frame_message_small p) as (h' & Eh & Hh' & Hlen); [lia|].
    assert (read_buffer c = h' ++ p ++ frames ps ++ partial) as Hb'.
    { rewrite Hb. unfold frames. cbn [fmap list_fmap concat]. by rewrite Eh, <- !app_assoc. }
    rewrite Hb'. rewrite (proj2 (Nat.ltb_ge _ _)) by (rewrite length_app; lia).
    rewrite Hlen. cbn [mbind outcome_bind]. unfold kMaxFrameSize.
    rewrite (proj2 (Z.ltb_ge _ _)), (proj2 (Z.ltb_ge _ _)) by (rewrite ?length_app; lia).
    rewrite Nat2Z.id, (drop_app_length' h'), take_app_length by done. unfold process_frame.
    rewrite (Hh sv p w w1 Ew). cbn [mbind outcome_bind fst snd]. unfold erase_read. rewrite Hc.
    cbn [deref mbind outcome_bind]. rewrite Hb'.
    replace (drop (4 + length p) (h' ++ p ++ frames ps ++ partial)) with (frames ps ++ partial)
      by (rewrite app_assoc, drop_app_length'; [done|rewrite length_app; lia]).
    cbn [length] in Hf. erewrite IH; [|apply set_conn_lookup|done|done|lia|done].
    simpl. by rewrite set_conn_set.
Qed.

Lemma read_loop_data chunks fd sv c :
  connections_ sv !! fd = Some c →
  read_loop ((RData <$> chunks) ++ [RAgain]) fd sv =
  Ok (inr (set_conn fd (mkConn (c_fd c) (c_id c) (read_buffer c ++ concat chunks) (write_buffer c)) sv)).
Proof.
  revert sv c. induction chunks as [|ch chunks IH]; intros sv c Hc; simpl.
  - rewrite app_nil_r. do 2 f_equal. symmetry. apply set_conn_id. rewrite Hc. by destruct c.
  - rewrite Hc. cbn [deref mbind outcome_bind]. erewrite IH by apply set_conn_lookup.
    rewrite set_conn_set. simpl. by rewrite <- app_assoc.
Qed.

Lemma length_frames ps : (length ps <= length (frames ps))%nat.
Proof.
  unfold frames. induction ps as [|p ps IH]; [simpl; lia|]. rewrite fmap_cons. cbn [concat length].
  rewrite length_app. unfold frame_message at 1. rewrite length_app. cbn [length]. lia.
Qed.

(** A readable event, however the kernel splits the bytes. *)
Lemma handle_read_frames {W} h (f : list Z → W → outcome W) fd sv c w w' chunks ps partial :
  connections_ sv !! fd = Some c → absorbs h f (c_id c) →
  read_buffer c ++ concat chunks = frames ps ++ partial → Forall small ps → incomplete partial →
  absorb f ps w = Ok w' →
  handle_read h ((RData <$> chunks) ++ [RAgain]) fd (sv, w) =
  Ok (set_conn fd (mkConn (c_fd c) (c_id c) partial (write_buffer c)) sv, w').
Proof.
  intros Hc Hh Hb Hs Hi Hw. unfold handle_read. cbn [fst snd]. rewrite Hc, (read_loop_data _ _ _ c Hc).
  cbn [mbind outcome_bind]. rewrite set_conn_lookup. cbn [deref mbind outcome_bind read_buffer].
  erewrite (frame_loop_frames h f); [|apply set_conn_lookup|done|done|done|done| |done].
  - by rewrite set_conn_set.
  - cbn [read_buffer]. rewrite Hb, length_app. pose proof (length_frames ps). lia.
Qed.

Lemma absorb_record id ps w :
  absorb (λ p w, Ok (w ++ [(id : Z, p : list Z)])) ps w = Ok (w ++ ((id,.) <$> ps)).
Proof.
  revert w. induction ps as [|p ps IH]; intros w; cbn [absorb]; [by rewrite app_nil_r|].
  cbn [mbind outcome_bind]. rewrite IH. by rewrite fmap_cons, <- app_assoc.
Qed.

(** ** Writing *)

Lemma disarm_stream fd sv id : stream id (disarm_epollout fd sv) = stream id sv.
Proof. done. Qed.

(** Closing removes one connection and its client entry. *)
Lemma close_inv fd sv : server_inv sv → server_inv (close_connection fd sv).
Proof.
  intros [Hc Hi Hn H0]. unfold close_connection. simpl. destruct (connections_ sv !! fd) as [c|] eqn:E; [|done].
  destruct (Hc _ _ E) as [_ Hid]. split; simpl.
  - intros fd' c' [Hne E']%lookup_delete_Some. destruct (Hc _ _ E') as [? Hid']. split; [done|].
    apply lookup_delete_Some. split; [|done]. intros Eid. rewrite Eid in Hid. congruence.
  - intros id fd' [Hne E']%lookup_delete_Some. destruct (Hi _ _ E') as (c' & Ec' & Hid').
    exists c'. split; [|done]. apply lookup_delete_Some. split; [|done]. intros ->.
    rewrite E in Ec'. simplify_eq.
  - intros id fd' [_ E']%lookup_delete_Some. eauto.
  - done.
Qed.

(** Replacing a connection by one with the same identity. *)
Lemma set_conn_inv fd c c' sv :
  server_inv sv → connections_ sv !! fd = Some c → c_fd c' = c_fd c → c_id c' = c_id c →
  server_inv (set_conn fd c' sv).
Proof.
  intros [Hc Hi Hn H0] E Ef Eid. destruct (Hc _ _ E) as [Hfd Hcl]. split; simpl.
  - intros fd2 c2. rewrite lookup_insert. case_decide; [|apply Hc]. intros [= <-].
    split; congruence.
  - intros id fd2 E2. destruct (Hi _ _ E2) as (c2 & Ec2 & Hid2). rewrite lookup_insert.
    case_decide; [|eauto]. subst. exists c'. split; [done|]. rewrite E in Ec2. simplify_eq. congruence.
  - apply Hn.
  - done.
Qed.

Lemma sends_inv l sv : server_inv sv → server_inv (set_sends l sv).
Proof. intros []. by split. Qed.

Lemma armed_inv s sv : server_inv sv → server_inv (set_armed s sv).
Proof. intros []. by split. Qed.

Lemma deliver_inv id bs sv : server_inv sv → server_inv (deliver_bytes id bs sv).
Proof. intros []. by split. Qed.

(** The streams after a connection's buffer and the delivered bytes changed. *)
Lemma sent_stream fd c n sv id :
  server_inv sv → connections_ sv !! fd = Some c →
  stream id (deliver_bytes (c_id c) (take n (write_buffer c))
    (set_conn fd (mkConn (c_fd c) (c_id c) (read_buffer c) (drop n (write_buffer c))) sv)) = stream id sv.
Proof.
  intros [Hc Hi _ _] E. unfold stream. simpl. destruct (Hc _ _ E) as [_ Hcl]. rewrite lookup_insert.
  case_decide as Ed.
  - subst id. rewrite Hcl, lookup_insert_eq, E. simpl. by rewrite <- app_assoc, take_drop.
  - destruct (client_to_fd_ sv !! id) as [fd'|] eqn:Ei; [|done]. rewrite lookup_insert. case_decide; [|done].
    subst fd'. destruct (Hi _ _ Ei) as (c2 & E2 & <-). rewrite E in E2. by simplify_eq.
Qed.

(** What flushing does: the connection is dropped, or what was sent has left
    the buffer and nothing else changed. *)
Definition flushed fd c sv sv' : Prop :=
  server_inv sv' ∧ max_write_buffer_bytes_ sv' = max_write_buffer_bytes_ sv ∧
  (connections_ sv' = delete fd (connections_ sv) ∨
   ∃ wb, connections_ sv' = <[fd := mkConn (c_fd c) (c_id c) (read_buffer c) wb]> (connections_ sv) ∧
     (length wb <= length (write_buffer c))%nat ∧ (∀ id, stream id sv' = stream id sv) ∧
     (wb = [] ∨ fd ∈ armed_ sv')).

Lemma flush_loop_spec fuel fd sv c sv' :
  server_inv sv → connections_ sv !! fd = Some c →
  flush_loop fuel fd sv = Ok sv' → flushed fd c sv sv'.
Proof.
  revert sv c. induction fuel as [|fuel IH]; intros sv c Hi Hc E; [done|].
  cbn [flush_loop] in E. rewrite Hc in E. cbn [deref mbind outcome_bind] in E.
  destruct (si_conn _ Hi _ _ Hc) as [Hfd Hcl].
  assert (connections_ sv = <[fd := mkConn (c_fd c) (c_id c) (read_buffer c) (write_buffer c)]> (connections_ sv)) as Hid
    by (rewrite insert_id; [done|]; rewrite Hc; by destruct c).
  destruct (write_buffer c) as [|b wb] eqn:Ew.
  { simplify_eq. split; [by apply armed_inv|]. split; [done|]. right. exists []. rewrite Ew. auto. }
  destruct (sends_ sv) as [|[n| | |] rest] eqn:Es; [done|..].
  - rewrite <- Ew in E. set (sv1 := set_sends rest sv) in E.
    assert (server_inv sv1) as Hi1 by by apply sends_inv.
    set (c' := mkConn (c_fd c) (c_id c) (read_buffer c) (drop n (write_buffer c))) in *.
    assert (server_inv (set_conn fd c' sv1)) as Hi2 by by apply (set_conn_inv fd c).
    apply IH with (c := c') in E; [|by apply deliver_inv|apply lookup_insert_eq].
    destruct E as (Hi' & Em & Hcase). split; [done|]. split; [done|].
    destruct Hcase as [Ec|(wb' & Ec & Hl & Hst & Har)]; simpl in Ec.
    + left. by rewrite Ec, delete_insert_eq.
    + right. exists wb'. rewrite Ec, insert_insert_eq. split; [done|].
      split; [unfold c' in Hl; simpl in Hl; rewrite length_drop in Hl; simpl in *; rewrite Ew in *; simpl in *; lia|].
      split; [|done]. intros id. rewrite Hst. by apply (sent_stream fd c n sv1 id Hi1).
  - simplify_eq. split; [by apply armed_inv, sends_inv|]. split; [done|]. right. exists (b :: wb).
    split; [done|]. rewrite Ew. split; [done|]. split; [done|]. right. simpl. set_solver.
  - apply IH with (c := c) in E; [|by apply sends_inv|done]. by rewrite <- Ew in *.
  - simplify_eq. split; [by apply close_inv, sends_inv|]. unfold close_connection. simpl. rewrite Hc. auto.
Qed.

(** Every connection's unsent backlog is within the bound. *)
Definition backlog_bounded sv : Prop :=
  max_write_buffer_bytes_ sv ≠ 0 →
  ∀ fd c, connections_ sv !! fd = Some c →
    Z.of_nat (length (write_buffer c)) <= max_write_buffer_bytes_ sv.

Lemma flushed_backlog fd c sv sv' :
  flushed fd c sv sv' → connections_ sv !! fd = Some c → backlog_bounded sv → backlog_bounded sv'.
Proof.
  intros (_ & Em & Hcase) Hc Hb Hne fd' c' E'. rewrite Em in *. specialize (Hb Hne).
  destruct Hcase as [Ec|(wb & Ec & Hl & _)]; rewrite Ec in E'.
  - apply lookup_delete_Some in E' as [_ ?]. eauto.
  - rewrite lookup_insert in E'. case_decide; [|eauto]. simplify_eq. simpl. specialize (Hb _ _ Hc). lia.
Qed.

Lemma closed_backlog fd sv sv' :
  backlog_bounded sv → connections_ sv' = delete fd (connections_ sv) →
  max_write_buffer_bytes_ sv' = max_write_buffer_bytes_ sv → backlog_bounded sv'.
Proof.
  intros Hb Ec Em Hne fd' c' E'. rewrite Em in *. rewrite Ec in E'.
  apply lookup_delete_Some in E' as [_ ?]. by eapply Hb.
Qed.

Lemma grown_backlog fd c sv wb :
  backlog_bounded sv →
  (max_write_buffer_bytes_ sv ≠ 0 → Z.of_nat (length wb) <= max_write_buffer_bytes_ sv) →
  backlog_bounded (set_conn fd (mkConn (c_fd c) (c_id c) (read_buffer c) wb) sv).
Proof.
  intros Hb Hok Hne fd' c' E'. simpl in *. rewrite lookup_insert in E'.
  case_decide; [simplify_eq; simpl; auto|]. by eapply Hb.
Qed.

Lemma send_cases id data sv sv' :
  server_inv sv → send_to_client id data sv = Ok sv' →
  (client_to_fd_ sv !! id = None ∧ sv' = sv) ∨
  ∃ fd c, client_to_fd_ sv !! id = Some fd ∧ connections_ sv !! fd = Some c ∧
    let c1 := mkConn (c_fd c) (c_id c) (read_buffer c) (write_buffer c ++ data) in
    let sv1 := set_conn fd c1 sv in
    server_inv sv1 ∧ connections_ sv1 !! fd = Some c1 ∧
    ((max_write_buffer_bytes_ sv ≠ 0 ∧
      max_write_buffer_bytes_ sv < Z.of_nat (length (write_buffer c ++ data)) ∧
      sv' = close_connection fd sv1) ∨
     ((max_write_buffer_bytes_ sv ≠ 0 → Z.of_nat (length (write_buffer c ++ data)) <= max_write_buffer_bytes_ sv) ∧
      flushed fd c1 sv1 sv')).
Proof.
  intros Hi E. unfold send_to_client in E. destruct (client_to_fd_ sv !! id) as [fd|] eqn:Ei; [|left; by simplify_eq].
  destruct (si_client _ Hi _ _ Ei) as (c & Ec & _). rewrite Ec in E. right. exists fd, c.
  split; [done|]. split; [done|]. intros c1 sv1.
  assert (server_inv sv1) as Hi1 by by apply (set_conn_inv fd c).
  split; [done|]. split; [apply lookup_insert_eq|]. fold c1 in E. fold sv1 in E. simpl in E.
  destruct (Z.eqb_spec (max_write_buffer_bytes_ sv) 0) as [E0|E0]; simpl in E.
  - right. split; [done|]. unfold flush_write_buffer in E.
    eapply flush_loop_spec; [exact Hi1|apply lookup_insert_eq|exact E].
  - destruct (Z.ltb_spec (max_write_buffer_bytes_ sv) (Z.of_nat (length (write_buffer c ++ data)))) as [Hover|Hok].
    + left. by simplify_eq.
    + right. split; [done|]. unfold flush_write_buffer in E.
      eapply flush_loop_spec; [exact Hi1|apply lookup_insert_eq|exact E].
Qed.

Lemma send_inv id data sv sv' :
  server_inv sv → send_to_client id data sv = Ok sv' → server_inv sv'.
Proof.
  intros Hi E. destruct (send_cases _ _ _ _ Hi E) as [[_ ->]|(fd & c & _ & _ & Hi1 & _ & [(_ & _ & ->)|[_ Hf]])];
    [done|by apply close_inv|apply Hf].
Qed.

(** The kernel hands out a descriptor that is not in use. *)
Fixpoint fresh_fds (answers : list AcceptResult) (used : gset Z) : Prop :=
  match answers with
  | AFd fd true true :: rest => (fd ∉ used) ∧ fresh_fds rest ({[fd]} ∪ used)
  | AFd fd true false :: rest => (fd ∉ used) ∧ fresh_fds rest used
  | AFd _ false _ :: rest | AIntr :: rest => fresh_fds rest used
  | _ => True
  end.

Lemma accept_one_inv fd sv :
  server_inv sv → connections_ sv !! fd = None → next_client_id_ sv < 18446744073709551615 →
  server_inv (mkServer (emplace fd (mkConn fd (next_client_id_ sv) [] []) (connections_ sv))
    (emplace (next_client_id_ sv) fd (client_to_fd_ sv)) (u64_add (next_client_id_ sv) 1)
    (max_write_buffer_bytes_ sv) (armed_ sv) (sends_ sv) (delivered_ sv)).
Proof.
  intros [Hc Hi Hn H0] Ef Hmax. unfold emplace. rewrite Ef.
  assert (client_to_fd_ sv !! next_client_id_ sv = None) as En.
  { destruct (client_to_fd_ sv !! next_client_id_ sv) eqn:E; [|done]. apply Hn in E. lia. }
  rewrite En. split; simpl.
  - intros fd' c'. rewrite lookup_insert. case_decide; [intros [= <-]; simpl; subst; rewrite lookup_insert_eq; done|].
    intros E'. destruct (Hc _ _ E') as [? Hid]. split; [done|]. rewrite lookup_insert_ne; [done|].
    intros E. rewrite <- E in Hid. congruence.
  - intros id fd'. rewrite lookup_insert. case_decide; [intros [= <-]; subst;
      exists (mkConn fd (next_client_id_ sv) [] []); by rewrite lookup_insert_eq|]. intros E'. destruct (Hi _ _ E') as (c' & Ec' & ?). exists c'. split; [|done].
    rewrite lookup_insert_ne; [done|]. congruence.
  - intros id fd'. rewrite lookup_insert. unfold u64_add. rewrite wrap64_small by (u64; lia).
    case_decide; [intros; lia|]. intros E%Hn. lia.
  - unfold u64_add. rewrite wrap64_small by (u64; lia). lia.
Qed.

Lemma handle_accept_inv answers sv sv' :
  server_inv sv → fresh_fds answers (dom (connections_ sv)) →
  next_client_id_ sv + Z.of_nat (length answers) < 18446744073709551616 →
  handle_accept answers sv = Ok sv' → server_inv sv'.
Proof.
  revert sv. induction answers as [|a answers IH]; intros sv Hi Hf Hmax E; [done|].
  pose proof (si_next _ Hi) as H0.
  cbn [length] in Hmax.
  destruct a as [fd [] []| | |]; cbn [handle_accept negb] in E; cbn [fresh_fds] in Hf; [| | | |by simplify_eq| |by simplify_eq].
  - destruct Hf as [Hfd%not_elem_of_dom Hf]. pose proof (accept_one_inv fd sv Hi Hfd ltac:(lia)) as Hi1.
    eapply IH; [exact Hi1|..|exact E]; simpl; unfold u64_add; rewrite ?wrap64_small by (u64; lia); try lia.
    unfold emplace. rewrite Hfd, dom_insert_L. done.
  - destruct Hf as [Hfd%not_elem_of_dom Hf]. pose proof (accept_one_inv fd sv Hi Hfd ltac:(lia)) as Hi1.
    pose proof (close_inv fd _ Hi1) as Hi2. unfold close_connection in Hi2. simpl in Hi2.
    assert (emplace fd (mkConn fd (next_client_id_ sv) [] []) (connections_ sv) !! fd =
            Some (mkConn fd (next_client_id_ sv) [] [])) as Ee
      by (unfold emplace; rewrite Hfd; apply lookup_insert_eq).
    rewrite Ee in Hi2. simpl in Hi2. simpl in E.
    eapply IH; [|..|exact E]; simpl; unfold u64_add; rewrite ?wrap64_small by (u64; lia); try lia.
    + destruct Hi2 as [Ha Hb Hc Hd]. simpl in *. unfold u64_add in Hc, Hd.
      rewrite wrap64_small in Hc, Hd by (u64; lia). by split.
    + unfold emplace. rewrite Hfd, delete_insert_id by done. done.
  - eapply IH; [..|exact E]; auto; lia.
  - eapply IH; [..|exact E]; auto; lia.
  - eapply IH; [..|exact E]; auto; lia.
Qed.

Lemma set_conn_stream fd c c' data sv id :
  server_inv sv → connections_ sv !! fd = Some c → c_id c' = c_id c →
  write_buffer c' = write_buffer c ++ data →
  stream id (set_conn fd c' sv) = stream id sv ++ (if decide (id = c_id c) then data else []).
Proof.
  intros [Hc Hi _ _] E Eid Ew. unfold stream. simpl. destruct (Hc _ _ E) as [_ Hcl].
  case_decide as Ed.
  - subst id. rewrite Hcl, lookup_insert_eq, E, Ew. by rewrite app_assoc.
  - rewrite app_nil_r. destruct (client_to_fd_ sv !! id) as [fd'|] eqn:Ei; [|done].
    rewrite lookup_insert. case_decide; [|done]. subst fd'. destruct (Hi _ _ Ei) as (c2 & E2 & <-).
    rewrite E in E2. by simplify_eq.
Qed.

(** A kernel that eventually answers EAGAIN ends the flush loop. *)
Lemma flush_loop_returns fuel fd sv :
  SAgain ∈ sends_ sv → (length (sends_ sv) < fuel)%nat →
  is_Some (connections_ sv !! fd) → ∃ sv', flush_loop fuel fd sv = Ok sv'.
Proof.
  revert sv. induction fuel as [|fuel IH]; intros sv Ha Hf [c Hc]; [lia|]. cbn [flush_loop]. rewrite Hc.
  cbn [deref mbind outcome_bind]. destruct (write_buffer c) as [|b wb]; [eauto|].
  destruct (sends_ sv) as [|[n| | |] rest] eqn:Es; [by apply not_elem_of_nil in Ha|..]; [|eauto| |eauto];
    (apply elem_of_cons in Ha as [Ha|Ha]; [done|]); cbn [length] in Hf.
  - apply IH; simpl; [done|lia|]. rewrite lookup_insert_eq. eauto.
  - apply IH; simpl; [done|lia|eauto].
Qed.

Lemma send_returns id data sv :
  SAgain ∈ sends_ sv → ∃ sv', send_to_client id data sv = Ok sv'.
Proof.
  intros Ha. unfold send_to_client. destruct (client_to_fd_ sv !! id) as [fd|]; [|eauto].
  destruct (connections_ sv !! fd) as [c|]; [|eauto]. case_match; [eauto|].
  apply flush_loop_returns; [done|simpl; lia|]. simpl. rewrite lookup_insert_eq. eauto.
Qed.

(** A client whose connection is gone has no entry. *)
Lemma gone_client fd c sv sv' :
  server_inv sv → server_inv sv' → connections_ sv !! fd = Some c →
  connections_ sv' = delete fd (connections_ sv) → client_to_fd_ sv' !! c_id c = None.
Proof.
  intros Hi Hi' Hc Ec. destruct (client_to_fd_ sv' !! c_id c) as [fd'|] eqn:E; [|done]. exfalso.
  destruct (si_client _ Hi' _ _ E) as (c' & Ec' & Eid). rewrite Ec in Ec'.
  apply lookup_delete_Some in Ec' as [Hne Ec']. destruct (si_conn _ Hi _ _ Ec') as [_ H1].
  destruct (si_conn _ Hi _ _ Hc) as [_ H2]. congruence.
Qed.

Lemma read_loop_inv answers fd sv r :
  server_inv sv → read_loop answers fd sv = Ok r →
  match r with inl sv' | inr sv' => server_inv sv' end.
Proof.
  revert sv. induction answers as [|a answers IH]; intros sv Hi E; [done|].
  destruct a; cbn [read_loop] in E; [|simplify_eq; by try apply close_inv..|by eapply IH|simplify_eq; by apply close_inv].
  destruct (connections_ sv !! fd) as [c|] eqn:Ec; [|done]. cbn [deref mbind outcome_bind] in E.
  eapply IH; [|exact E]. by apply (set_conn_inv fd c).
Qed.

Lemma frame_loop_inv {W} (h : Z → list Z → TcpServer * W → outcome (TcpServer * W)) fuel fd s s' :
  (∀ id p t t', server_inv t.1 → h id p t = Ok t' → server_inv t'.1) →
  server_inv s.1 → frame_loop h fuel fd s = Ok s' → server_inv s'.1.
Proof.
  intros Hh. revert s. induction fuel as [|fuel IH]; intros s Hi E; [done|]. cbn [frame_loop] in E.
  destruct (connections_ s.1 !! fd) as [c|] eqn:Ec; [|done]. cbn [deref mbind outcome_bind] in E.
  case_match; [by simplify_eq|]. destruct (payload_len _) as [len| |]; [|done..]. cbn [mbind outcome_bind] in E.
  case_match; [simplify_eq; by apply close_inv|]. case_match; [by simplify_eq|]. unfold process_frame in E.
  destruct (h _ _ s) as [t| |] eqn:Eh; [|done..]. cbn [mbind outcome_bind] in E. apply Hh in Eh; [|done].
  unfold erase_read in E. destruct (connections_ t.1 !! fd) as [c'|] eqn:Ec'; [|done].
  cbn [deref mbind outcome_bind] in E. eapply IH; [|exact E]. by apply (set_conn_inv fd c').
Qed.
End Tables.

(** What the kernel guarantees about an event. *)
Definition event_ok (ev : IoEvent) (sv : TcpServer) : Prop :=
  match ev with
  | EvListener answers =>
      fresh_fds answers (dom (connections_ sv)) ∧
      next_client_id_ sv + Z.of_nat (length answers) < 18446744073709551616
  | _ => True
  end.

(** One event of the I/O loop, with the answers to the sends it makes. *)
Inductive server_step {W} (h : Z → list Z → TcpServer * W → outcome (TcpServer * W))
    (drain : option (TcpServer * W → outcome (TcpServer * W))) : TcpServer * W → TcpServer * W → Prop :=
| step_event ev sends sv w s' :
    event_ok ev sv → handle_event h drain ev (set_sends sends sv, w) = Ok s' →
    server_step h drain (sv, w) s'
| step_shutdown sv w : server_step h drain (sv, w) (shutdown_connections sv, w).

(** A handler that keeps the tables in order. *)
Definition keeps_tables {W} (f : TcpServer * W → outcome (TcpServer * W)) : Prop :=
  ∀ s s', server_inv s.1 → f s = Ok s' → server_inv s'.1.

Lemma handle_read_inv {W} (h : Z → list Z → TcpServer * W → outcome (TcpServer * W)) answers fd s s' :
  (∀ id p, keeps_tables (h id p)) → server_inv s.1 → handle_read h answers fd s = Ok s' → server_inv s'.1.
Proof.
  intros Hh Hi E. unfold handle_read in E. destruct (connections_ s.1 !! fd) as [c|]; [|by simplify_eq].
  destruct (read_loop answers fd s.1) as [r| |] eqn:Er; [|done..]. cbn [mbind outcome_bind] in E.
  apply read_loop_inv in Er; [|done]. destruct r as [sv|sv]; [by simplify_eq|].
  destruct (connections_ sv !! fd); [|done]. cbn [deref mbind outcome_bind] in E.
  apply frame_loop_inv in E; [done| |done]. intros id p t t'. apply Hh.
Qed.

Lemma handle_write_inv fd sv sv' : server_inv sv → handle_write fd sv = Ok sv' → server_inv sv'.
Proof.
  intros Hi E. unfold handle_write in E. destruct (connections_ sv !! fd) as [c|] eqn:Ec; [|by simplify_eq].
  unfold flush_write_buffer in E. apply flush_loop_spec with (c := c) in E; [apply E|done|done].
Qed.

Lemma handle_event_inv {W} (h : Z → list Z → TcpServer * W → outcome (TcpServer * W)) drain ev s s' :
  (∀ id p, keeps_tables (h id p)) → from_option keeps_tables True drain →
  server_inv s.1 → event_ok ev s.1 → handle_event h drain ev s = Ok s' → server_inv s'.1.
Proof.
  intros Hh Hd Hi Hev E. destruct ev as [answers| |fd|fd readable writable]; cbn [handle_event] in E.
  - destruct Hev as [Hf Hmax]. inv_ok. subst. simpl. by eapply handle_accept_inv.
  - unfold handle_eventfd in E. destruct drain as [d|]; [by eapply Hd|by simplify_eq].
  - simplify_eq. by apply close_inv.
  - assert (∀ t, (match readable with Some answers => handle_read h answers fd s | None => Ok s end) = Ok t →
      server_inv t.1) as Hr.
    { intros t Et. destruct readable; [by eapply handle_read_inv|by simplify_eq]. }
    inv_ok. specialize (Hr _ eq_refl). destruct writable; inv_ok; subst; [|done]. simpl.
    by eapply handle_write_inv.
Qed.

Lemma send_backlog id data sv sv' :
  server_inv sv → backlog_bounded sv → send_to_client id data sv = Ok sv' → backlog_bounded sv'.
Proof.
  intros Hi Hb E. destruct (send_cases _ _ _ _ Hi E) as [[Hn ->]|(fd & c & Ei & Ec & Hi1 & Ec1 & Hcase)]; [done|].
  destruct Hcase as [(Hne & Hover & ->)|[Hok Hf]].
  - apply (closed_backlog fd sv); [done| |]; unfold close_connection; simpl; rewrite lookup_insert_eq; [|done].
    simpl. by rewrite delete_insert_eq.
  - apply (flushed_backlog _ _ _ _ Hf Ec1). by apply (grown_backlog fd c).
Qed.

(** What sending does to the streams. *)
Lemma send_stream id data sv sv' :
  server_inv sv → send_to_client id data sv = Ok sv' →
  (client_to_fd_ sv !! id = None ∧ sv' = sv) ∨
  client_to_fd_ sv' !! id = None ∨
  ((∀ id', stream id' sv' = stream id' sv ++ (if decide (id' = id) then data else [])) ∧
   ∀ fd c, client_to_fd_ sv' !! id = Some fd → connections_ sv' !! fd = Some c →
     write_buffer c = [] ∨ fd ∈ armed_ sv').
Proof.
  intros Hi E. pose proof (send_inv _ _ _ _ Hi E) as Hi'.
  destruct (send_cases _ _ _ _ Hi E) as [[Hn ->]|(fd & c & Ei & Ec & Hi1 & Ec1 & Hcase)]; [auto|].
  destruct (si_client _ Hi _ _ Ei) as (c0 & Ec0 & Eid). assert (c0 = c) as -> by congruence.
  right. destruct Hcase as [(Hne & Hover & ->)|[Hok Hf]].
  - left. rewrite <- Eid. apply (gone_client fd c sv); [done|done|done|].
    unfold close_connection. simpl. rewrite lookup_insert_eq. simpl. by rewrite delete_insert_eq.
  - destruct Hf as (_ & _ & [Eg|(wb & Ew & _ & Hst & Har)]).
    + left. rewrite <- Eid. by apply (gone_client fd _ _ _ Hi1 Hi' Ec1).
    + right. split.
      * intros id'. rewrite Hst, (set_conn_stream fd c _ data) by done. by rewrite Eid.
      * intros fd' c' Ei' Ec'. destruct (si_client _ Hi' _ _ Ei') as (c2 & Ec2 & Eid2).
        assert (fd' = fd) as ->.
        { destruct (si_conn _ Hi' fd (mkConn (c_fd c) (c_id c) (read_buffer c) wb)) as [_ H1];
            [rewrite Ew; apply lookup_insert_eq|]. simpl in H1. congruence. }
        rewrite Ew, lookup_insert_eq in Ec'. by simplify_eq.
Qed.

(** ** Properties *)

(** C21. However the kernel splits the bytes of a connection into reads, a
    readable event hands exactly the complete frames that have arrived to the
    frame handler, each once, in order and with its own length, and keeps the
    incomplete rest for the next event. *)
Theorem frames_reassembled fd sv c w chunks ps partial :
  connections_ sv !! fd = Some c →
  read_buffer c ++ concat chunks = frames ps ++ partial →
  Forall small ps → incomplete partial →
  handle_read record_frame ((RData <$> chunks) ++ [RAgain]) fd (sv, w) =
  Ok (set_conn fd (mkConn (c_fd c) (c_id c) partial (write_buffer c)) sv, w ++ ((c_id c,.) <$> ps)).
Proof.
  intros Hc Hb Hs Hi.
  apply (handle_read_frames _ (λ p w, Ok (w ++ [(c_id c, p)])) _ _ _ _ _ _ ps); try done; [|apply absorb_record].
  intros sv' p w1 w2 E. by simplify_eq.
Qed.

(** One event, or the shutdown, with handlers that keep the tables in order. *)
Lemma tables_step_inv {W} (h : Z → list Z → TcpServer * W → outcome (TcpServer * W)) drain s s' :
  (∀ id p, keeps_tables (h id p)) → from_option keeps_tables True drain →
  server_inv s.1 → server_step h drain s s' → server_inv s'.1.
Proof.
  intros Hh Hd Hi Hst. destruct Hst as [ev sends sv v s' Hev E|sv v]; cbn [fst snd] in *.
  - eapply handle_event_inv in E; [exact E|done|done|by apply sends_inv|]. by destruct ev.
  - split; simpl; [done..|]. apply Hi.
Qed.

(** C22. Sending to a client on a server with consistent tables and bounded
    backlogs always returns once the kernel stops taking bytes; afterwards
    every backlog is within the bound, and either the client is disconnected,
    or it was unknown and nothing changed, or its stream (bytes taken by the
    kernel followed by the backlog) has grown by exactly the data, no other
    stream has changed, and a backlog that is left has EPOLLOUT armed. *)
Theorem send_extends_stream id data sv :
  server_inv sv → backlog_bounded sv → SAgain ∈ sends_ sv →
  ∃ sv', send_to_client id data sv = Ok sv' ∧ server_inv sv' ∧ backlog_bounded sv' ∧
    ((client_to_fd_ sv !! id = None ∧ sv' = sv) ∨
     client_to_fd_ sv' !! id = None ∨
     ((∀ id', stream id' sv' = stream id' sv ++ (if decide (id' = id) then data else [])) ∧
      ∀ fd c, client_to_fd_ sv' !! id = Some fd → connections_ sv' !! fd = Some c →
        write_buffer c = [] ∨ fd ∈ armed_ sv')).
Proof.
  intros Hi Hb Ha. destruct (send_returns id data sv Ha) as [sv' E]. exists sv'. split; [done|].
  split; [by eapply send_inv|]. split; [by eapply send_backlog|]. by apply send_stream.
Qed.

(** ** Witnesses *)

Definition one_client : TcpServer :=
  mkServer {[5 := mkConn 5 1 [0; 0; 0] []]} {[1 := 5]} 2 10 ∅ [SSent 2; SIntr; SAgain] ∅.

Lemma one_client_inv : server_inv one_client.
Proof.
  split; simpl.
  - intros fd c [<- <-]%lookup_singleton_Some. done.
  - intros id fd [<- <-]%lookup_singleton_Some. eexists. by rewrite lookup_singleton_eq.
  - intros id fd [<- <-]%lookup_singleton_Some. lia.
  - lia.
Qed.

Lemma frames_reassembled_witness :
  handle_read record_frame ((RData <$> [[2; 7]; [8; 0; 0; 0; 1]; [9; 0]]) ++ [RAgain]) 5 (one_client, []) =
  Ok (set_conn 5 (mkConn 5 1 [0] []) one_client, [(1, [7; 8]); (1, [9])]).
Proof.
  apply (frames_reassembled 5 one_client (mkConn 5 1 [0; 0; 0] []) [] _ [[7; 8]; [9]] [0]).
  - reflexivity.
  - reflexivity.
  - repeat constructor; unfold small, kMaxFrameSize; simpl; lia.
  - left. simpl. lia.
Defined.

Lemma send_extends_stream_witness :
  ∃ sv', send_to_client 1 [1; 2; 3; 4] one_client = Ok sv' ∧ backlog_bounded sv' ∧ stream 1 sv' = [1; 2; 3; 4] ∧ 5 ∈ armed_ sv'.
Proof.
  destruct (send_extends_stream 1 [1; 2; 3; 4] one_client) as (sv' & E & _ & Hb & _).
  - apply one_client_inv.
  - intros _ fd c Hc. unfold one_client in Hc. simpl in Hc. apply lookup_singleton_Some in Hc as [<- <-]. simpl. lia.
  - set_solver.
  - exists sv'. split; [exact E|]. split; [exact Hb|]. vm_compute in E. injection E as <-. split; [reflexivity|set_solver].
Defined.
