(* ===== verification/RingQueue.v ===== *)
(** * RingQueue: the ring as a queue, for its clients

    [ring_holds c r l]: ring [r] of capacity [c] holds the items [l], oldest
    first, and its counters have not wrapped.  Clients of the ring reason with
    the lemmas below and never look at slots. *)
From S2P Require Import Prelude SpscRing.

Record ring_holds {T} (capacity : Z) (r : Ring T) (l : list T) : Prop := {
  rh_head : 0 <= rb_head r;
  rh_tail : rb_tail r = rb_head r + Z.of_nat (length l);
  rh_max : rb_tail r < 18446744073709551616;
  rh_room : Z.of_nat (length l) <= capacity;
  rh_slots : length (rb_slots r) = Z.to_nat capacity;
  rh_live i : (i < length l)%nat →
    rb_slots r !! slot_of capacity (rb_head r + Z.of_nat i) = l !! i }.

Section Queue.
Context {T : Type}.
Variable capacity : Z.
Implicit Types (r : Ring T) (l : list T).

Lemma holds_size r l : ring_holds capacity r l → ring_size r = Z.of_nat (length l).
Proof. intros []. unfold ring_size. rewrite u64_sub_small; u64; lia. Qed.

Lemma push_full r l item :
  ring_holds capacity r l → capacity <= Z.of_nat (length l) → try_push capacity item r = (false, r).
Proof.
  intros [] Hf. unfold try_push. rewrite (ring_full_spec capacity) by lia.
  by rewrite (proj2 (Z.leb_le _ _)) by lia.
Qed.

Lemma pop_empty r : ring_holds capacity r [] → try_pop capacity r = Ok (None, r).
Proof. intros []. unfold try_pop, ring_empty. by rewrite (proj2 (Z.leb_le _ _)) by (simpl in *; lia). Qed.

Lemma pop_holds r x l :
  ring_holds capacity r (x :: l) →
  ∃ r', try_pop capacity r = Ok (Some x, r') ∧ ring_holds capacity r' l ∧ rb_tail r' = rb_tail r.
Proof.
  intros []. cbn [length] in *. unfold try_pop, ring_empty. rewrite (proj2 (Z.leb_gt _ _)) by lia.
  pose proof (rh_live0 0%nat ltac:(lia)) as H0. rewrite Z.add_0_r in H0. rewrite H0. simpl.
  eexists. split; [done|].
  assert (u64_add (rb_head r) 1 = rb_head r + 1) as Eh by (unfold u64_add; rewrite wrap64_small; u64; lia).
  split; [|done]. split; simpl; rewrite ?Eh; try lia.
  intros i Hi. replace (rb_head r + 1 + Z.of_nat i) with (rb_head r + Z.of_nat (S i)) by lia.
  rewrite rh_live0 by lia. done.
Qed.

Variable k : Z.
Hypothesis capacity_pow2 : capacity = 2 ^ k.
Hypothesis capacity_bits : 0 <= k < 63.

Lemma new_holds (dflt : T) : ring_holds capacity (Ring_new capacity dflt) [].
Proof.
  pose proof (capacity_bounds _ _ capacity_pow2 capacity_bits).
  split; simpl; try lia. apply length_replicate.
Qed.

Lemma push_holds r l item :
  ring_holds capacity r l → Z.of_nat (length l) < capacity → rb_tail r < 18446744073709551615 →
  ∃ r', try_push capacity item r = (true, r') ∧ ring_holds capacity r' (l ++ [item]) ∧
        rb_tail r' = rb_tail r + 1.
Proof.
  intros [] Hr Ht. unfold try_push. rewrite (ring_full_spec capacity) by lia.
  rewrite (proj2 (Z.leb_gt _ _)) by lia. eexists. split; [done|].
  assert (u64_add (rb_tail r) 1 = rb_tail r + 1) as Et by (unfold u64_add; rewrite wrap64_small; u64; lia).
  split; [|exact Et]. split; simpl; rewrite ?length_app, ?length_insert; simpl; rewrite ?Et; try lia.
  intros i Hi. destruct (decide (i = length l)) as [->|Hne].
  - rewrite rh_tail0, list_lookup_insert_eq.
    + by rewrite lookup_app_r, Nat.sub_diag by lia.
    + rewrite rh_slots0. apply (slot_of_lt _ _ capacity_pow2 capacity_bits). lia.
  - rewrite lookup_app_l by lia. rewrite list_lookup_insert_ne; [apply rh_live0; lia|].
    apply not_eq_sym, (slot_of_inj _ _ capacity_pow2 capacity_bits); lia.
Qed.
End Queue.
