(* ===== verification/ExchangeServer.v ===== *)
(** * ExchangeServer: apps/exchange_server/{engine_loop.hpp,main.cpp}

    Command-line parsing, the protocol slots, the body of the engine thread,
    the frame and drain handlers of the I/O thread, and the two threads
    together as a step relation: one step is one operation of one thread on
    the queues, the coalescer's flag or the eventfd.  The rings are used
    through their member functions, whose interleavings SpscRing covers. *)
From Stdlib Require Import String.
From S2P Require Import Prelude Core Text TextProtocol GatewayCodec TcpServer SpscRing.
From S2P Require Import OrderBook EngineApi.

(** ** Arguments *)

Inductive ProtocolMode := Binary | Plaintext.

(** [std::atoi]: out of [int] range is undefined. *)
Definition atoi (s : list Z) : outcome Z :=
  let v := ato_value s in
  if Z.leb (-2147483648) v && Z.ltb v 2147483648 then Ok v else Undefined.

(** The arguments after argv[0]. *)
Fixpoint parse_port (args : list (list Z)) : outcome Z :=
  match args with
  | [] => Ok 9000
  | arg :: args =>
      if starts_with (str "--protocol=") arg then parse_port args
      else
        port ← atoi arg;
        if Z.ltb 0 port && Z.leb port 65535 then Ok port else parse_port args
  end.

Fixpoint parse_protocol (args : list (list Z)) : ProtocolMode :=
  match args with
  | [] => Binary
  | arg :: args =>
      if decide (arg = str "--protocol=plaintext") then Plaintext
      else if decide (arg = str "--protocol=binary") then Binary
      else parse_protocol args
  end.

(** ** The protocol slots *)

Record Protocol := mkProtocol {
  parse_fn : list Z → outcome ParseResult;
  render_fn : EngineResponse → outcome (list Z);
  render_error_fn : list Z → outcome (list Z) }.

Definition bind_protocol (host_little : bool) (m : ProtocolMode) : Protocol :=
  match m with
  | Binary => mkProtocol (parse_binary host_little) (render_binary host_little)
                         (render_binary_error host_little)
  | Plaintext => mkProtocol (λ p, Ok (parse p)) (λ r, Ok (render r)) (λ e, Ok (render_error e))
  end.

(** ** engine_loop.hpp *)

Definition command_order_id (command : EngineCommand) : Z :=
  match command with CLimit o => lo_id o | CMarket o => mo_id o | CCancel c => cr_id c end.

(** A virtual call through [EngineAPI&] returns, or throws and leaves some
    engine state behind. *)
Inductive call E := Returned (response : EngineResponse) (e : E) | Threw (e : E).
Arguments Returned {E} _ _.
Arguments Threw {E} _.

Section Dispatch.
Context {E : Type}.
Variable submit_call : NewOrder → E → outcome (call E).
Variable cancel_call : Z → E → outcome (call E).

(** [command.owner = cmd.client]. *)
Definition stamp_owner (client : Z) (command : EngineCommand) : EngineCommand :=
  match command with
  | CLimit o => CLimit (mkLimit (lo_id o) (lo_side o) (lo_price o) (lo_quantity o) client)
  | CMarket o => CMarket (mkMarket (mo_id o) (mo_side o) (mo_quantity o) client)
  | CCancel c => CCancel c
  end.

(** The visitor of [std::visit], on the stamped command. *)
Definition visit_command (command : EngineCommand) (engine : E) : outcome (call E) :=
  match command with
  | CLimit o => submit_call (NLimit o) engine
  | CMarket o => submit_call (NMarket o) engine
  | CCancel c => cancel_call (cr_id c) engine
  end.

Definition dispatch_command (cmd : TaggedCommand) (engine : E) : outcome (EngineResponse * E) :=
  r ← visit_command (stamp_owner (tc_client cmd) (tc_command cmd)) engine;
  match r with
  | Returned response engine => Ok (response, engine)
  | Threw engine =>
      Ok (mkResponse InternalError [] 0 (command_order_id (tc_command cmd)), engine)
  end.
End Dispatch.

(** An engine behind the port that never throws. *)
Definition api_submit_call {E} `{EngineAPI E} (o : NewOrder) (e : E) : outcome (call E) :=
  '(r, e') ← api_submit o e; Ok (Returned r e').

Definition api_cancel_call {E} `{EngineAPI E} (id : Z) (e : E) : outcome (call E) :=
  '(r, e') ← api_cancel id e; Ok (Returned r e').

Record WakeupCoalescer := mkCoalescer { pending_ : bool }.

Definition note_response (w : WakeupCoalescer) : WakeupCoalescer := mkCoalescer true.

Definition should_notify_on_idle (w : WakeupCoalescer) : bool * WakeupCoalescer :=
  if negb (pending_ w) then (false, w) else (true, mkCoalescer false).

(** ** Handlers of the I/O thread *)

Definition kInbound : Z := 4096.

Definition kOutbound : Z := 65536.

Definition system_busy : list Z := str "system busy " ++ [226; 128; 148] ++ str " order not accepted".

Section Handlers.
Variable protocol : Protocol.

Definition reply_error (client_id : Z) (message : list Z) (sv : TcpServer) : outcome TcpServer :=
  err_msg ← render_error_fn protocol message;
  send_to_client client_id (frame_message err_msg) sv.

Definition parsed_command (p : ParseResult) : EngineCommand + list Z :=
  match p with
  | PLimit o => inl (CLimit o) | PMarket o => inl (CMarket o) | PCancel c => inl (CCancel c)
  | PError m => inr m
  end.

(** The lambda given to [set_frame_handler]. *)
Definition on_frame (client_id : Z) (payload : list Z) (s : TcpServer * Ring TaggedCommand)
    : outcome (TcpServer * Ring TaggedCommand) :=
  result ← parse_fn protocol payload;
  match parsed_command result with
  | inr message => sv ← reply_error client_id message s.1; Ok (sv, s.2)
  | inl command =>
      match try_push kInbound (mkTaggedCommand client_id command) s.2 with
      | (true, inbound) => Ok (s.1, inbound)
      | (false, inbound) => sv ← reply_error client_id system_busy s.1; Ok (sv, inbound)
      end
  end.

(** One round of the drain handler's [while (outbound.try_pop(resp))]. *)
Definition drain_one (s : TcpServer * Ring TaggedResponse)
    : outcome (option TaggedResponse * (TcpServer * Ring TaggedResponse)) :=
  '(popped, outbound) ← try_pop kOutbound s.2;
  match popped with
  | None => Ok (None, (s.1, outbound))
  | Some resp =>
      rendered ← render_fn protocol (tr_response resp);
      sv ← send_to_client (tr_client resp) (frame_message rendered) s.1;
      Ok (Some resp, (sv, outbound))
  end.

Fixpoint drain_loop (fuel : nat) (s : TcpServer * Ring TaggedResponse)
    : outcome (TcpServer * Ring TaggedResponse) :=
  match fuel with
  | O => NoFuel
  | S fuel =>
      '(popped, s) ← drain_one s;
      match popped with None => Ok s | Some _ => drain_loop fuel s end
  end.

(** The drain handler alone empties a queue of [ring_size] responses. *)
Definition on_drain (s : TcpServer * Ring TaggedResponse) : outcome (TcpServer * Ring TaggedResponse) :=
  drain_loop (S (Z.to_nat (ring_size s.2))) s.
End Handlers.

(** ** Both threads *)

(** Where the engine thread is in its loop body: at [inbound.try_pop], after
    it failed, holding a response to push, or after the push. *)
Inductive engine_phase := EPop | EIdle | EPush (tagged : TaggedResponse) | ENote.

(** The I/O thread waits in epoll, or is inside the drain handler. *)
Inductive io_phase := IWait | IDrain.

(** [v_done] and [v_answered] are history: the commands processed with their
    responses, and the responses handed to [send_to_client]. *)
Record Venue (E : Type) := mkVenue {
  v_inbound : Ring TaggedCommand; v_outbound : Ring TaggedResponse;
  v_engine : E; v_wakeup : WakeupCoalescer; v_phase : engine_phase;
  v_eventfd : Z; v_io : io_phase; v_server : TcpServer;
  v_done : list (TaggedCommand * TaggedResponse); v_answered : list TaggedResponse }.
Arguments mkVenue {E} _ _ _ _ _ _ _ _ _ _.
Arguments v_inbound {E} _.
Arguments v_outbound {E} _.
Arguments v_engine {E} _.
Arguments v_wakeup {E} _.
Arguments v_phase {E} _.
Arguments v_eventfd {E} _.
Arguments v_io {E} _.
Arguments v_server {E} _.
Arguments v_done {E} _.
Arguments v_answered {E} _.

(** [write(eventfd, 1)]: refused at the counter's maximum. *)
Definition eventfd_write (counter : Z) : Z :=
  if Z.ltb counter 18446744073709551614 then counter + 1 else counter.

Section Threads.
Context {E : Type}.
Variable submit_call : NewOrder → E → outcome (call E).
Variable cancel_call : Z → E → outcome (call E).
Variable protocol : Protocol.

(** The engine thread's next operation. *)
Definition engine_step (v : Venue E) : outcome (Venue E) :=
  let '(mkVenue inbound outbound engine wakeup phase efd io sv hist answered) := v in
  match phase with
  | EPop =>
      '(popped, inbound) ← try_pop kInbound inbound;
      match popped with
      | None => Ok (mkVenue inbound outbound engine wakeup EIdle efd io sv hist answered)
      | Some cmd =>
          '(resp, engine) ← dispatch_command submit_call cancel_call cmd engine;
          let tagged := mkTaggedResponse (tc_client cmd) resp in
          Ok (mkVenue inbound outbound engine wakeup (EPush tagged) efd io sv
                      (hist ++ [(cmd, tagged)]) answered)
      end
  | EIdle =>
      let '(notify, wakeup) := should_notify_on_idle wakeup in
      let efd := if (notify : bool) then eventfd_write efd else efd in
      Ok (mkVenue inbound outbound engine wakeup EPop efd io sv hist answered)
  | EPush tagged =>
      if Z.leb kOutbound (ring_size outbound) then Ok v
      else
        let '(_, outbound) := try_push kOutbound tagged outbound in
        Ok (mkVenue inbound outbound engine wakeup ENote efd io sv hist answered)
  | ENote => Ok (mkVenue inbound outbound engine (note_response wakeup) EPop efd io sv hist answered)
  end.

(** One step of either thread.  [step_socket] is any other event of the I/O
    loop: it may do anything to the server. *)
Inductive venue_step : Venue E → Venue E → Prop :=
| step_engine v v' : engine_step v = Ok v' → venue_step v v'
| step_frame inbound inbound' outbound engine wakeup phase efd sv sv' hist answered client_id payload :
    on_frame protocol client_id payload (sv, inbound) = Ok (sv', inbound') →
    venue_step (mkVenue inbound outbound engine wakeup phase efd IWait sv hist answered)
               (mkVenue inbound' outbound engine wakeup phase efd IWait sv' hist answered)
| step_wake inbound outbound engine wakeup phase efd sv hist answered :
    0 < efd →
    venue_step (mkVenue inbound outbound engine wakeup phase efd IWait sv hist answered)
               (mkVenue inbound outbound engine wakeup phase 0 IDrain sv hist answered)
| step_drain inbound outbound outbound' engine wakeup phase efd sv sv' hist answered popped :
    drain_one protocol (sv, outbound) = Ok (popped, (sv', outbound')) →
    venue_step (mkVenue inbound outbound engine wakeup phase efd IDrain sv hist answered)
               (mkVenue inbound outbound' engine wakeup phase efd
                  (match popped with None => IWait | Some _ => IDrain end) sv' hist
                  (answered ++ option_list popped))
| step_socket inbound outbound engine wakeup phase efd sv sv' hist answered :
    venue_step (mkVenue inbound outbound engine wakeup phase efd IWait sv hist answered)
               (mkVenue inbound outbound engine wakeup phase efd IWait sv' hist answered).

Definition venue_start (cmd0 : TaggedCommand) (resp0 : TaggedResponse) (engine : E) (sv : TcpServer)
    : Venue E :=
  mkVenue (Ring_new kInbound cmd0) (Ring_new kOutbound resp0) engine (mkCoalescer false) EPop 0 IWait
          sv [] [].
End Threads.
