(* ===== verification/ExchangeTheorems.v ===== *)
(** * ExchangeTheorems: the exchange server's threads

    What the frame handler guarantees a client, what dispatch guarantees the
    engine, and that no response is lost, reordered, misdirected or left
    without a wake-up between the two threads. *)
From Stdlib Require Import String.
From S2P Require Import Prelude Core Text TextProtocol GatewayCodec TcpServer SpscRing.
From S2P Require Import RingQueue OrderBook MatchingEngine EngineApi ExchangeServer TcpTheorems.
From S2P Require Import RiskEngine RiskTheorems.

Lemma kInbound_pow2 : kInbound = 2 ^ 12.
Proof. done. Qed.

Lemma kOutbound_pow2 : kOutbound = 2 ^ 16.
Proof. done. Qed.

(** The responses the engine thread has produced and not yet pushed. *)
Definition in_hand (p : engine_phase) : list TaggedResponse :=
  match p with EPush t => [t] | _ => [] end.

(** A response goes to the client that sent the command and, when the engine
    names orders in its responses, is about the command's order. *)
Definition answers_command (named : Prop) (cr : TaggedCommand * TaggedResponse) : Prop :=
  tr_client cr.2 = tc_client cr.1 ∧
  (named → order_id (tr_response cr.2) = command_order_id (tc_command cr.1)).

(** Engine calls that return a response about the order they were given. *)
Definition calls_name {E} (submit_call : NewOrder → E → outcome (call E))
    (cancel_call : Z → E → outcome (call E)) : Prop :=
  (∀ o e r e', submit_call o e = Ok (Returned r e') → order_id r = new_order_id o) ∧
  (∀ id e r e', cancel_call id e = Ok (Returned r e') → order_id r = id).

(** Invariant of the two threads after [n] steps, [ins] and [outs] queued. *)
Record venue_inv {E} (named : Prop) (n : Z) (v : Venue E) (ins : list TaggedCommand) (outs : list TaggedResponse) : Prop := {
  vi_in : ring_holds kInbound (v_inbound v) ins;
  vi_out : ring_holds kOutbound (v_outbound v) outs;
  vi_in_tail : rb_tail (v_inbound v) <= n;
  vi_out_tail : rb_tail (v_outbound v) <= n;
  vi_eventfd : 0 <= v_eventfd v;
  vi_wake : outs ≠ [] →
    0 < v_eventfd v ∨ pending_ (v_wakeup v) = true ∨ v_phase v = ENote ∨ v_io v = IDrain;
  vi_history : (v_done v).*2 = v_answered v ++ outs ++ in_hand (v_phase v);
  vi_client : Forall (answers_command named) (v_done v) }.

Section Venue.
Context {E : Type}.
Variable submit_call : NewOrder → E → outcome (call E).
Variable cancel_call : Z → E → outcome (call E).
Variable protocol : Protocol.
Implicit Types (v : Venue E).
#[local] Abbreviation named := (calls_name submit_call cancel_call).

Lemma dispatch_names cmd e r e' :
  dispatch_command submit_call cancel_call cmd e = Ok (r, e') →
  named → order_id r = command_order_id (tc_command cmd).
Proof.
  unfold dispatch_command. intros Ed [Hs Hc]. destruct cmd as [client [o|o|c]]; simpl in *; inv_ok;
    (destruct a; simplify_eq; [|done]).
  - by apply Hs in E0.
  - by apply Hs in E0.
  - by apply Hc in E0.
Qed.

Lemma start_inv cmd0 resp0 engine sv :
  venue_inv named 0 (venue_start cmd0 resp0 engine sv : Venue E) [] [].
Proof.
  split; simpl; try done.
  - apply (new_holds _ 12 kInbound_pow2). lia.
  - apply (new_holds _ 16 kOutbound_pow2). lia.
Qed.

(** What [on_frame] does to the inbound queue. *)
Lemma on_frame_queue client_id payload sv r sv' r' ins :
  ring_holds kInbound r ins → rb_tail r < 18446744073709551615 →
  on_frame protocol client_id payload (sv, r) = Ok (sv', r') →
  ∃ ins', ring_holds kInbound r' ins' ∧ rb_tail r' <= rb_tail r + 1 ∧
    (ins' = ins ∨ ∃ res cmd, parse_fn protocol payload = Ok res ∧ parsed_command res = inl cmd ∧
                             ins' = ins ++ [mkTaggedCommand client_id cmd]).
Proof.
  intros Hh Ht Ef. unfold on_frame in Ef.
  destruct (parse_fn protocol payload) as [res| |] eqn:Ep0; [|done..]. cbn [mbind outcome_bind fst snd] in Ef.
  destruct (parsed_command res) as [cmd|m] eqn:Ec; [|inv_ok; simplify_eq; exists ins; split_and!; [done|lia|by left]].
  destruct (Z.le_gt_cases kInbound (Z.of_nat (length ins))) as [Hf|Hr].
  - rewrite (push_full _ _ _ _ Hh Hf) in Ef. inv_ok. simplify_eq. exists ins. split_and!; [done|lia|by left].
  - destruct (push_holds _ 12 kInbound_pow2 ltac:(lia) _ _ (mkTaggedCommand client_id cmd) Hh Hr Ht)
      as (r1 & Ep & Hh1 & Et). rewrite Ep in Ef. simplify_eq. eexists. split_and!; [done|lia|]. right. eauto.
Qed.

Lemma engine_step_inv n v v' ins outs :
  venue_inv named n v ins outs → n < 18446744073709551615 →
  engine_step submit_call cancel_call v = Ok v' → ∃ ins' outs', venue_inv named (n + 1) v' ins' outs'.
Proof.
  intros [Hi Ho Hit Hot He Hw Hh Hc] Hn Es. destruct v as [r o e w ph efd io sv hist ans]. simpl in *.
  destruct ph as [| |t|]; simpl in Hh; rewrite ?app_nil_r in Hh.
  - destruct ins as [|cmd ins].
    + rewrite (pop_empty _ _ Hi) in Es. simpl in Es. simplify_eq. exists [], outs.
      split; simpl; rewrite ?app_nil_r; auto; try lia. naive_solver.
    + destruct (pop_holds _ _ _ _ Hi) as (r1 & Ep & Hr1 & Et). rewrite Ep in Es. simpl in Es.
      destruct (dispatch_command _ _ _ _) as [[resp e1]| |] eqn:Ed; [|done..]. simpl in Es. simplify_eq.
      exists ins, outs. split; simpl; auto; try lia.
      * naive_solver.
      * by rewrite fmap_app, Hh, <- app_assoc.
      * apply Forall_app. split; [done|]. repeat constructor. simpl. by eapply dispatch_names.
  - destruct w as [[]]; simpl in Es; simplify_eq; exists ins, outs;
      split; simpl; rewrite ?app_nil_r; auto; try lia; unfold eventfd_write; zb; try lia; naive_solver lia.
  - rewrite (holds_size _ _ _ Ho) in Es. destruct (Z.leb_spec kOutbound (Z.of_nat (length outs))).
    + simplify_eq. exists ins, outs. split; simpl; auto; lia.
    + destruct (push_holds _ 16 kOutbound_pow2 ltac:(lia) _ _ t Ho ltac:(lia) ltac:(lia))
        as (o1 & Ep & Ho1 & Et). rewrite Ep in Es. simplify_eq. exists ins, (outs ++ [t]).
      split; simpl; auto; try lia. by rewrite app_nil_r.
  - simplify_eq. exists ins, outs. split; simpl; rewrite ?app_nil_r; auto; lia.
Qed.

Lemma venue_step_inv n v v' ins outs :
  venue_inv named n v ins outs → n < 18446744073709551615 →
  venue_step submit_call cancel_call protocol v v' → ∃ ins' outs', venue_inv named (n + 1) v' ins' outs'.
Proof.
  intros Hv Hn Hs. destruct Hs as [v v' Es|r r' o e w ph efd sv sv' hist ans id p Ef|r o e w ph efd sv hist ans Hpos
    |r o o' e w ph efd sv sv' hist ans popped Ed|r o e w ph efd sv sv' hist ans]; [by eapply engine_step_inv|..];
    destruct Hv as [Hi Ho Hit Hot He Hw Hh Hc]; simpl in *.
  - destruct (on_frame_queue _ _ _ _ _ _ _ Hi ltac:(lia) Ef) as (ins' & Hi' & Ht' & _).
    exists ins', outs. split; simpl; auto; lia.
  - exists ins, outs. split; simpl; auto; lia.
  - unfold drain_one in Ed. cbn [fst snd] in Ed. destruct outs as [|t outs].
    + rewrite (pop_empty _ _ Ho) in Ed. simpl in Ed. simplify_eq. exists ins, [].
      split; simpl; rewrite ?app_nil_r; auto; try lia.
    + destruct (pop_holds _ _ _ _ Ho) as (o1 & Ep & Ho1 & Et). rewrite Ep in Ed. simpl in Ed. inv_ok.
      simplify_eq. exists ins, outs. split; simpl; auto; try lia. by rewrite Hh, <- !app_assoc.
  - exists ins, outs. split; simpl; auto; lia.
Qed.

Lemma venue_run_inv n cmd0 resp0 engine sv v :
  nsteps (venue_step submit_call cancel_call protocol) n (venue_start cmd0 resp0 engine sv) v →
  Z.of_nat n < 18446744073709551615 → ∃ ins outs, venue_inv named (Z.of_nat n) v ins outs.
Proof.
  revert v. induction n as [|n IH]; intros v Hn Hb.
  - inversion Hn; subst. exists [], []. apply start_inv.
  - apply nsteps_inv_r in Hn as (v1 & Hn & Hs). destruct (IH v1 Hn ltac:(lia)) as (ins & outs & Hv).
    replace (Z.of_nat (S n)) with (Z.of_nat n + 1) by lia. by eapply venue_step_inv; [..|exact Hs]; [done|lia].
Qed.

(** Sending to a client whose socket fails removes its connection. *)
Lemma send_failing_closes fd c c' data sv rest :
  server_inv sv → connections_ sv !! fd = Some c → c_id c' = c_id c → c_fd c' = c_fd c →
  sends_ sv = SError :: rest → data ≠ [] →
  ∃ sv', send_to_client (c_id c) data (set_conn fd c' sv) = Ok sv' ∧
         connections_ sv' !! fd = None.
Proof.
  intros Hi Hc Eid Efd Hs Hd. destruct (si_conn _ Hi _ _ Hc) as [Hfd Hcl]. unfold send_to_client. simpl.
  rewrite Hcl, lookup_insert_eq. simpl. case_match.
  - eexists. split; [done|]. unfold close_connection. simpl. rewrite !lookup_insert_eq. simpl. apply lookup_delete_eq.
  - unfold flush_write_buffer. simpl. rewrite Hs. cbn [length flush_loop]. simpl. rewrite !lookup_insert_eq. simpl.
    destruct (write_buffer c' ++ data) eqn:Ew; [by apply app_nil in Ew as [_ ?]|].
    eexists. split; [done|]. unfold close_connection. simpl. rewrite Efd, Hfd, !lookup_insert_eq. simpl.
    apply lookup_delete_eq.
Qed.

(** ** Properties of the two threads *)

(** C12. Exactly one answer per command, in order and to the right client:
    after any interleaving of the two threads, with any engine, even one that
    throws, the responses handed to the network, then those queued, then the
    one the engine thread holds, are the responses of the commands processed
    so far in processing order; each goes to the client whose command it
    answers and is about that command's order. *)
Theorem every_command_answered_once n cmd0 resp0 engine sv v :
  nsteps (venue_step submit_call cancel_call protocol) n (venue_start cmd0 resp0 engine sv) v →
  Z.of_nat n < 18446744073709551615 → named →
  ∃ outs, ring_holds kOutbound (v_outbound v) outs ∧
    (v_done v).*2 = v_answered v ++ outs ++ in_hand (v_phase v) ∧
    Forall (λ cr, tr_client cr.2 = tc_client cr.1 ∧
                  order_id (tr_response cr.2) = command_order_id (tc_command cr.1)) (v_done v).
Proof.
  intros Hr Hn Hname. destruct (venue_run_inv _ _ _ _ _ _ Hr Hn) as (ins & outs & [_ Ho _ _ _ _ Hh Hc]).
  exists outs. split; [done|]. split; [done|]. eapply Forall_impl; [exact Hc|].
  intros cr [Hcl Hid]. auto.
Qed.

(** C13. Coalescing loses no wake-up: in every interleaving, while a response
    is queued the eventfd is set, or the engine thread will set it, or the
    I/O thread is draining; and as soon as the engine thread, with nothing
    inbound, finishes its idle round, the eventfd is set for an I/O thread
    that waits. *)
Theorem no_lost_wakeup n cmd0 resp0 engine sv v :
  nsteps (venue_step submit_call cancel_call protocol) n (venue_start cmd0 resp0 engine sv) v →
  Z.of_nat n < 18446744073709551615 →
  ∃ ins outs, ring_holds kInbound (v_inbound v) ins ∧ ring_holds kOutbound (v_outbound v) outs ∧
    (outs ≠ [] →
      0 < v_eventfd v ∨ pending_ (v_wakeup v) = true ∨ v_phase v = ENote ∨ v_io v = IDrain) ∧
    (outs ≠ [] → ins = [] → v_phase v = EPop → v_io v = IWait →
      ∃ v1 v2, engine_step submit_call cancel_call v = Ok v1 ∧
        engine_step submit_call cancel_call v1 = Ok v2 ∧ 0 < v_eventfd v2 ∧ v_io v2 = IWait).
Proof.
  intros Hr Hn. destruct (venue_run_inv _ _ _ _ _ _ Hr Hn) as (ins & outs & [Hi Ho _ _ He Hw _ _]).
  exists ins, outs. split; [done|]. split; [done|]. split; [done|]. intros Hne -> Hp Hio. specialize (Hw Hne).
  destruct v as [r o e w ph efd io sv' hist ans]. simpl in *. subst ph io.
  rewrite (pop_empty _ _ Hi). simpl. destruct w as [[]]; simpl in *; do 2 eexists; (split; [done|]); simpl;
    (split; [done|]); simpl; (split; [|done]); [unfold eventfd_write; zb; lia|naive_solver].
Qed.

(** A frame is never dropped in silence: one that parses is queued behind
    everything already queued, tagged with its sender, with no effect on the
    server, while there is room, and is answered with the busy error when
    there is none; one that does not parse is answered with its error; in
    both error cases the queue is untouched. *)
Theorem frame_queued_or_answered client_id payload sv r ins res :
  ring_holds kInbound r ins → rb_tail r < 18446744073709551615 →
  parse_fn protocol payload = Ok res →
  match parsed_command res with
  | inr message =>
      on_frame protocol client_id payload (sv, r) =
      (sv' ← reply_error protocol client_id message sv; Ok (sv', r))
  | inl command =>
      if Z.ltb (Z.of_nat (length ins)) kInbound
      then ∃ r', on_frame protocol client_id payload (sv, r) = Ok (sv, r') ∧
             ring_holds kInbound r' (ins ++ [mkTaggedCommand client_id command])
      else on_frame protocol client_id payload (sv, r) =
           (sv' ← reply_error protocol client_id system_busy sv; Ok (sv', r))
  end.
Proof.
  intros Hh Ht Ep. unfold on_frame. rewrite Ep. cbn [mbind outcome_bind fst snd].
  destruct (parsed_command res) as [cmd|m]; [|done].
  destruct (Z.ltb_spec (Z.of_nat (length ins)) kInbound) as [Hlt|Hge].
  - destruct (push_holds _ 12 kInbound_pow2 ltac:(lia) _ _ (mkTaggedCommand client_id cmd) Hh Hlt Ht)
      as (r1 & E1 & Hh1 & _). rewrite E1. eauto.
  - by rewrite (push_full _ _ _ _ Hh Hge).
Qed.

(** C40. The error reply can free the connection the reader is working on: when
    a client's frame does not parse and sending the reply fails (the peer has
    reset the connection), [send_to_client] closes the connection and the
    framing loop then erases the frame from a connection that no longer
    exists: undefined behaviour, for either protocol. *)
Theorem error_reply_frees_reader fd c sv r p message err rest :
  server_inv sv → connections_ sv !! fd = Some c → read_buffer c = [] →
  sends_ sv = SError :: rest → Z.of_nat (length p) <= kMaxFrameSize →
  parse_fn protocol p = Ok (PError message) → render_error_fn protocol message = Ok err →
  handle_read (on_frame protocol) [RData (frame_message p); RAgain] fd (sv, r) = Undefined.
Proof.
  intros Hi Hc Hb Hs Hp Epar Erend. unfold handle_read. cbn [fst snd]. rewrite Hc.
  change [RData (frame_message p); RAgain] with ((RData <$> [frame_message p]) ++ [RAgain]).
  rewrite (read_loop_data _ _ _ c Hc). cbn [mbind outcome_bind]. rewrite set_conn_lookup.
  cbn [deref mbind outcome_bind read_buffer]. rewrite Hb. cbn [concat app]. rewrite app_nil_r.
  unfold kMaxFrameSize in Hp. destruct (frame_message_small p) as (h & Eh & Hh & Hlen); [lia|]. rewrite Eh.
  cbn [frame_loop fst snd]. rewrite set_conn_lookup. cbn [deref mbind outcome_bind read_buffer c_id].
  rewrite (proj2 (Nat.ltb_ge _ _)) by (rewrite length_app; lia). rewrite Hlen. cbn [mbind outcome_bind].
  unfold kMaxFrameSize. rewrite (proj2 (Z.ltb_ge _ _)), (proj2 (Z.ltb_ge _ _)) by (rewrite ?length_app; lia).
  rewrite Nat2Z.id, (drop_app_length' h), firstn_all by done. unfold process_frame, on_frame. rewrite Epar.
  cbn [mbind outcome_bind parsed_command fst snd]. unfold reply_error. rewrite Erend. cbn [mbind outcome_bind].
  destruct (si_conn _ Hi _ _ Hc) as [Hfd Hcl].
  destruct (send_failing_closes fd c (mkConn (c_fd c) (c_id c) (h ++ p) (write_buffer c)) (frame_message err) sv rest)
    as (sv' & Es & Eg); [done..|].
  rewrite Es. cbn [mbind outcome_bind fst snd]. unfold erase_read. by rewrite Eg.
Qed.
End Venue.

(** ** Witnesses *)

(** The risk engine over the matching engine, behind the text protocol. *)
#[local] Abbreviation demo_engine := (RiskEngine (MatchingEngine (list Event))).

#[local] Instance demo_api : EngineAPI (MatchingEngine (list Event)) := matching_engine_api Undefined.

#[local] Instance demo_api_lawful : LawfulEngine (MatchingEngine (list Event)) :=
  matching_engine_lawful Undefined.

Definition text : Protocol := bind_protocol true Plaintext.

Definition demo_start : Venue demo_engine :=
  venue_start (mkTaggedCommand 0 (CCancel (mkCancel 0))) (mkTaggedResponse 0 (mkResponse Accepted [] 0 0))
    risk_demo (TcpServer_new 100).

Definition ok_or {A} (d : A) (o : outcome A) : A := match o with Ok a => a | _ => d end.

Definition ok_b {A} (o : outcome A) : bool := match o with Ok _ => true | _ => false end.

Lemma ok_or_ok {A} (d : A) o : ok_b o = true → o = Ok (ok_or d o).
Proof. by destruct o. Qed.

(** A client cancels an order that is not there; the engine answers. *)
Definition demo_io : TcpServer * Ring TaggedCommand :=
  ok_or (v_server demo_start, v_inbound demo_start)
    (on_frame text 3 (str "CANCEL 7") (v_server demo_start, v_inbound demo_start)).

Definition demo_queued : Venue demo_engine :=
  mkVenue demo_io.2 (v_outbound demo_start) (v_engine demo_start) (v_wakeup demo_start) EPop 0 IWait
    demo_io.1 [] [].

Definition demo_answered : Venue demo_engine :=
  ok_or demo_queued (engine_step api_submit_call api_cancel_call demo_queued).

Lemma venue_demo_run :
  nsteps (venue_step api_submit_call api_cancel_call text) 2 demo_start demo_answered.
Proof.
  eapply nsteps_l with (y := demo_queued); [|apply nsteps_once].
  - apply (step_frame _ _ _ _ _ _ _ _ _ _ _ _ _ _ 3 (str "CANCEL 7")). rewrite <- surjective_pairing.
    apply ok_or_ok. vm_compute. reflexivity.
  - apply step_engine. unfold demo_answered. apply ok_or_ok. vm_compute. reflexivity.
Qed.

Lemma demo_names : @calls_name demo_engine api_submit_call api_cancel_call.
Proof.
  split; intros o e r e'; unfold api_submit_call, api_cancel_call; intros Ec; inv_ok; destruct a; simplify_eq.
  - exact (law_order_id _ _ _ _ E).
  - exact (law_cancel_id _ _ _ _ E).
Qed.

Lemma every_command_answered_once_witness :
  ∃ outs, ring_holds kOutbound (v_outbound demo_answered) outs ∧
    [mkTaggedResponse 3 (mkResponse UnknownOrderId [] 0 7)] = [] ++ outs ++ in_hand (v_phase demo_answered).
Proof.
  destruct (every_command_answered_once api_submit_call api_cancel_call text 2 _ _ _ _ _ venue_demo_run
    ltac:(lia) demo_names) as (outs & Ho & Hh & _).
  exists outs. split; [exact Ho|]. exact Hh.
Defined.

(** The engine thread pushes the answer and notes it. *)
Definition demo_pushed : Venue demo_engine :=
  ok_or demo_answered (engine_step api_submit_call api_cancel_call demo_answered).

Definition demo_noted : Venue demo_engine :=
  ok_or demo_pushed (engine_step api_submit_call api_cancel_call demo_pushed).

Lemma demo_noted_run :
  nsteps (venue_step api_submit_call api_cancel_call text) 4 demo_start demo_noted.
Proof.
  apply nsteps_r with (y := demo_pushed); [apply nsteps_r with (y := demo_answered); [exact venue_demo_run|]|];
    apply step_engine; [unfold demo_pushed|unfold demo_noted]; apply ok_or_ok; vm_compute; reflexivity.
Qed.

Lemma no_lost_wakeup_witness :
  ∃ v1 v2, engine_step api_submit_call api_cancel_call demo_noted = Ok v1 ∧
    engine_step api_submit_call api_cancel_call v1 = Ok v2 ∧ 0 < v_eventfd v2.
Proof.
  destruct (no_lost_wakeup api_submit_call api_cancel_call text 4 _ _ _ _ _ demo_noted_run ltac:(lia))
    as (ins & outs & Hi & Ho & _ & Hidle).
  assert (ring_size (v_inbound demo_noted) = 0) as Ei by (vm_compute; reflexivity).
  assert (ring_size (v_outbound demo_noted) = 1) as Eo by (vm_compute; reflexivity).
  rewrite (holds_size _ _ _ Hi) in Ei. rewrite (holds_size _ _ _ Ho) in Eo.
  destruct Hidle as (v1 & v2 & E1 & E2 & Hpos & _).
  - intros ->. discriminate Eo.
  - destruct ins; [reflexivity|discriminate Ei].
  - vm_compute. reflexivity.
  - vm_compute. reflexivity.
  - exists v1, v2. split; [exact E1|]. split; [exact E2|exact Hpos].
Defined.

Lemma frame_queued_or_answered_witness :
  ∃ r', on_frame text 3 (str "CANCEL 7") (TcpServer_new 100, v_inbound demo_start) = Ok (TcpServer_new 100, r') ∧
    ring_holds kInbound r' [mkTaggedCommand 3 (CCancel (mkCancel 7))].
Proof.
  exact (frame_queued_or_answered text 3 (str "CANCEL 7") (TcpServer_new 100) (v_inbound demo_start) []
    (PCancel (mkCancel 7)) (new_holds _ 12 kInbound_pow2 ltac:(lia) _) ltac:(reflexivity) ltac:(reflexivity)).
Defined.

Lemma error_reply_frees_reader_witness :
  handle_read (on_frame text) [RData (frame_message (str "HELLO")); RAgain] 5
    (mkServer {[5 := mkConn 5 1 [] []]} {[1 := 5]} 2 100 ∅ [SError] ∅, v_inbound demo_start) = Undefined.
Proof.
  eapply (error_reply_frees_reader text 5 (mkConn 5 1 [] []) _ _ _ _ _ []).
  - split; simpl; [intros ? ? [<- <-]%lookup_singleton_Some; done
      |intros ? ? [<- <-]%lookup_singleton_Some; eexists; by rewrite lookup_singleton_eq
      |intros ? ? [<- <-]%lookup_singleton_Some; lia|lia].
  - reflexivity.
  - reflexivity.
  - reflexivity.
  - vm_compute. congruence.
  - vm_compute. reflexivity.
  - reflexivity.
Defined.
