(* ===== verification/UdpFeed.v ===== *)
(** * UdpFeed: adapters/udp (messages, publisher, queued sink, book builder)

    The publisher is an [EventSink].  The send function is a parameter: its
    result for a subscriber and a message, positive when the datagram went
    out.  [sent_] is the history of messages, [outbox_] that of the datagrams
    that went out, each with its subscriber.  Messages are copied on and off the wire as the host's
    structs, so their bytes depend on the endianness of the host.  The clock
    is a parameter: its reading for the message of each sequence number. *)
From S2P Require Import Prelude Core Bytes SpscRing.

(** ** FeedMessage.hpp and TopOfBook.hpp *)

Definition kTopOfBook : Z := 1.

Definition kTrade : Z := 2.

Definition kSnapshot : Z := 3.

Record FeedHeader := mkHeader { fh_type : Z; fh_sequence : Z; fh_timestamp_ns : Z }.

Record TopOfBook := mkTop { bid_price : Z; bid_qty : Z; ask_price : Z; ask_qty : Z }.

(** The three message structs; the four price and quantity fields of two of
    them are those of a [TopOfBook]. *)
Inductive FeedMessage :=
| TopOfBookMessage (header : FeedHeader) (symbol : Z) (top : TopOfBook)
| TradeMessage (header : FeedHeader) (symbol price quantity trade_seq : Z)
| SnapshotMessage (header : FeedHeader) (symbol : Z) (top : TopOfBook) (as_of_sequence : Z).

Definition feed_header (m : FeedMessage) : FeedHeader :=
  match m with TopOfBookMessage h _ _ | TradeMessage h _ _ _ _ | SnapshotMessage h _ _ _ => h end.

Definition feed_sequence (m : FeedMessage) : Z := fh_sequence (feed_header m).

Definition feed_symbol (m : FeedMessage) : Z :=
  match m with TopOfBookMessage _ s _ | TradeMessage _ s _ _ _ | SnapshotMessage _ s _ _ => s end.

(** ** udp_feed_publisher.{hpp,cpp} *)

Record SideState := mkSide { ss_price : Z; ss_qty : Z; ss_count : Z }.

Record UdpFeedPublisher := mkPublisher {
  symbol_ : Z; subscribers_ : list Z; snapshot_interval_ : Z;
  next_feed_sequence_ : Z; messages_since_snapshot_ : Z;
  bid_ : SideState; ask_ : SideState;
  sent_ : list FeedMessage; outbox_ : list (Z * FeedMessage) }.

Definition UdpFeedPublisher_new (symbol : Z) (subscribers : list Z) (snapshot_interval : Z) : UdpFeedPublisher :=
  mkPublisher symbol subscribers snapshot_interval 1 0 (mkSide 0 0 0) (mkSide 0 0 0) [] [].

(** [now_ns] on the timespec [clock_gettime(CLOCK_MONOTONIC)] fills in. *)
Definition timespec_ns (tv_sec tv_nsec : Z) : Z :=
  u64_add (wrap64 (wrap64 tv_sec * 1000000000)) (wrap64 tv_nsec).

(** Below the 584 years that fit, the stamps of a clock that does not go back
    do not either. *)
Lemma timespec_ns_monotone s1 n1 s2 n2 :
  0 <= s1 → 0 <= n1 < 1000000000 → 0 <= n2 < 1000000000 → s2 < 18446744073 →
  s1 < s2 ∨ s1 = s2 ∧ n1 <= n2 → timespec_ns s1 n1 <= timespec_ns s2 n2.
Proof.
  intros. unfold timespec_ns, u64_add. rewrite !(wrap64_small s1), !(wrap64_small s2) by (u64; lia).
  rewrite !(wrap64_small n1), !(wrap64_small n2) by (u64; lia). rewrite !(wrap64_small (_ * _)) by (u64; lia).
  rewrite !wrap64_small by (u64; lia). lia.
Qed.

Section Publisher.
Variable now_ns : Z → Z.
Variable send_fn_ : Z → FeedMessage → Z.

Definition current_top_of_book (p : UdpFeedPublisher) : TopOfBook :=
  mkTop (ss_price (bid_ p)) (ss_qty (bid_ p)) (ss_price (ask_ p)) (ss_qty (ask_ p)).

Definition make_header (type : Z) (p : UdpFeedPublisher) : FeedHeader * UdpFeedPublisher :=
  let h := mkHeader type (next_feed_sequence_ p) (now_ns (next_feed_sequence_ p)) in
  (h, mkPublisher (symbol_ p) (subscribers_ p) (snapshot_interval_ p) (u64_add (next_feed_sequence_ p) 1)
        (messages_since_snapshot_ p) (bid_ p) (ask_ p) (sent_ p) (outbox_ p)).

(** The loop over the subscribers: whether any datagram went out, and those that did. *)
Fixpoint send_loop (subs : list Z) (m : FeedMessage) (any_sent : bool) (out : list (Z * FeedMessage))
    : bool * list (Z * FeedMessage) :=
  match subs with
  | [] => (any_sent, out)
  | sub :: subs =>
      let result := send_fn_ sub m in
      if Z.ltb 0 result then send_loop subs m true (out ++ [(sub, m)])
      else send_loop subs m any_sent out
  end.

Definition send_to_all (m : FeedMessage) (p : UdpFeedPublisher) : bool * UdpFeedPublisher :=
  let '(any_sent, out) := send_loop (subscribers_ p) m false (outbox_ p) in
  (any_sent,
   mkPublisher (symbol_ p) (subscribers_ p) (snapshot_interval_ p) (next_feed_sequence_ p)
     (messages_since_snapshot_ p) (bid_ p) (ask_ p) (sent_ p ++ [m]) out).

Definition publish_top_of_book (p : UdpFeedPublisher) : UdpFeedPublisher :=
  let '(h, p) := make_header kTopOfBook p in
  (send_to_all (TopOfBookMessage h (symbol_ p) (current_top_of_book p)) p).2.

Definition publish_snapshot (p : UdpFeedPublisher) : UdpFeedPublisher :=
  let '(h, p) := make_header kSnapshot p in
  (send_to_all (SnapshotMessage h (symbol_ p) (current_top_of_book p) (fh_sequence h)) p).2.

Definition set_messages_since (n : Z) (p : UdpFeedPublisher) : UdpFeedPublisher :=
  mkPublisher (symbol_ p) (subscribers_ p) (snapshot_interval_ p) (next_feed_sequence_ p) n (bid_ p) (ask_ p) (sent_ p) (outbox_ p).

Definition check_snapshot_trigger (p : UdpFeedPublisher) : UdpFeedPublisher :=
  let p := set_messages_since (u64_add (messages_since_snapshot_ p) 1) p in
  if Z.leb (snapshot_interval_ p) (messages_since_snapshot_ p)
  then set_messages_since 0 (publish_snapshot p)
  else p.

Definition set_side (s : Side) (st : SideState) (p : UdpFeedPublisher) : UdpFeedPublisher :=
  match s with
  | Buy => mkPublisher (symbol_ p) (subscribers_ p) (snapshot_interval_ p) (next_feed_sequence_ p)
             (messages_since_snapshot_ p) st (ask_ p) (sent_ p) (outbox_ p)
  | Sell => mkPublisher (symbol_ p) (subscribers_ p) (snapshot_interval_ p) (next_feed_sequence_ p)
              (messages_since_snapshot_ p) (bid_ p) st (sent_ p) (outbox_ p)
  end.

(** Taking [qty] off a side, one order fewer if [gone]; an empty side is zeroed. *)
Definition reduce_side (qty : Z) (gone : bool) (st : SideState) : SideState :=
  let q := if Z.leb qty (ss_qty st) then u64_sub (ss_qty st) qty else 0 in
  let c := if gone then u64_sub (ss_count st) 1 else ss_count st in
  if Z.eqb c 0 then mkSide 0 0 c else mkSide (ss_price st) q c.

Definition publish_update (p : UdpFeedPublisher) : UdpFeedPublisher :=
  check_snapshot_trigger (publish_top_of_book p).

Definition publisher_on_trade (t : Trade) (p : UdpFeedPublisher) : UdpFeedPublisher :=
  let '(h, p) := make_header kTrade p in
  let p := (send_to_all (TradeMessage h (symbol_ p) (t_price t) (t_quantity t) (trade_sequence t)) p).2 in
  let p := check_snapshot_trigger p in
  if Z.eqb (ss_price (bid_ p)) (t_price t) && Z.ltb 0 (ss_count (bid_ p))
  then publish_update (set_side Buy (reduce_side (t_quantity t) (resting_order_removed t) (bid_ p)) p)
  else if Z.eqb (ss_price (ask_ p)) (t_price t) && Z.ltb 0 (ss_count (ask_ p))
  then publish_update (set_side Sell (reduce_side (t_quantity t) (resting_order_removed t) (ask_ p)) p)
  else p.

Definition publisher_on_order_accepted (e : OrderAccepted) (p : UdpFeedPublisher) : UdpFeedPublisher :=
  if Z.eqb (oa_price e) 0 then p
  else
    match oa_side e with
    | Buy =>
        if Z.ltb 0 (ss_count (ask_ p)) && Z.leb (ss_price (ask_ p)) (oa_price e) then p
        else if Z.eqb (ss_count (bid_ p)) 0 || Z.ltb (ss_price (bid_ p)) (oa_price e)
        then publish_update (set_side Buy (mkSide (oa_price e) (oa_quantity e) 1) p)
        else if Z.eqb (oa_price e) (ss_price (bid_ p))
        then publish_update (set_side Buy (mkSide (ss_price (bid_ p))
               (Quantity_add (ss_qty (bid_ p)) (oa_quantity e)) (u64_add (ss_count (bid_ p)) 1)) p)
        else p
    | Sell =>
        if Z.ltb 0 (ss_count (bid_ p)) && Z.leb (oa_price e) (ss_price (bid_ p)) then p
        else if Z.eqb (ss_count (ask_ p)) 0 || Z.ltb (oa_price e) (ss_price (ask_ p))
        then publish_update (set_side Sell (mkSide (oa_price e) (oa_quantity e) 1) p)
        else if Z.eqb (oa_price e) (ss_price (ask_ p))
        then publish_update (set_side Sell (mkSide (ss_price (ask_ p))
               (Quantity_add (ss_qty (ask_ p)) (oa_quantity e)) (u64_add (ss_count (ask_ p)) 1)) p)
        else p
    end.

Definition publisher_on_order_cancelled (e : OrderCancelled) (p : UdpFeedPublisher) : UdpFeedPublisher :=
  if side_eqb (oc_side e) Buy && Z.eqb (oc_price e) (ss_price (bid_ p)) && Z.ltb 0 (ss_count (bid_ p))
  then publish_update (set_side Buy (reduce_side (oc_remaining_qty e) true (bid_ p)) p)
  else if side_eqb (oc_side e) Sell && Z.eqb (oc_price e) (ss_price (ask_ p)) && Z.ltb 0 (ss_count (ask_ p))
  then publish_update (set_side Sell (reduce_side (oc_remaining_qty e) true (ask_ p)) p)
  else p.

#[global] Instance publisher_sink : EventSink UdpFeedPublisher := {
  on_trade := publisher_on_trade;
  on_order_accepted := publisher_on_order_accepted;
  on_order_cancelled := publisher_on_order_cancelled }.
End Publisher.

(** ** queued_event_sink.hpp *)

Inductive FeedEventKind := KTrade | KOrderAccepted | KOrderCancelled.

(** One aggregate for the three payloads: only the member [kind] names is
    meaningful, the others keep their default values. *)
Record FeedEvent := mkFeedEvent {
  fe_kind : FeedEventKind; fe_trade : Trade; fe_accepted : OrderAccepted; fe_cancelled : OrderCancelled }.

Definition FeedEvent_default : FeedEvent :=
  mkFeedEvent KTrade (mkTrade 0 0 0 0 0 false) (mkAccepted 0 Buy 0 0) (mkCancelled 0 0 Buy 0).

Definition from_trade (t : Trade) : FeedEvent :=
  let e := FeedEvent_default in mkFeedEvent KTrade t (fe_accepted e) (fe_cancelled e).

Definition from_accepted (a : OrderAccepted) : FeedEvent :=
  let e := FeedEvent_default in mkFeedEvent KOrderAccepted (fe_trade e) a (fe_cancelled e).

Definition from_cancelled (c : OrderCancelled) : FeedEvent :=
  let e := FeedEvent_default in mkFeedEvent KOrderCancelled (fe_trade e) (fe_accepted e) c.

(** [udp::apply]: replay a dequeued event into the publisher. *)
Definition apply_feed_event {S} `{EventSink S} (target : S) (e : FeedEvent) : S :=
  match fe_kind e with
  | KTrade => on_trade (fe_trade e) target
  | KOrderAccepted => on_order_accepted (fe_accepted e) target
  | KOrderCancelled => on_order_cancelled (fe_cancelled e) target
  end.

Record QueuedEventSink := mkQueued { queue_ : Ring FeedEvent; dropped_ : Z }.

Section Queued.
Variable capacity : Z.

Definition offer (e : FeedEvent) (q : QueuedEventSink) : QueuedEventSink :=
  match try_push capacity e (queue_ q) with
  | (true, r) => mkQueued r (dropped_ q)
  | (false, r) => mkQueued r (u64_add (dropped_ q) 1)
  end.

#[global] Instance queued_sink : EventSink QueuedEventSink := {
  on_trade t := offer (from_trade t);
  on_order_accepted a := offer (from_accepted a);
  on_order_cancelled c := offer (from_cancelled c) }.

(** The drain loop on [fuel] pops. *)
Fixpoint drain_events {S} `{EventSink S} (fuel : nat) (q : QueuedEventSink) (real : S) (n : Z)
    : outcome (Z * QueuedEventSink * S) :=
  match fuel with
  | O => NoFuel
  | S fuel =>
      '(popped, r) ← try_pop capacity (queue_ q);
      let q := mkQueued r (dropped_ q) in
      match popped with
      | None => Ok (n, q, real)
      | Some e => drain_events fuel q (apply_feed_event real e) (u64_add n 1)
      end
  end.

Definition drain_once {S} `{EventSink S} (q : QueuedEventSink) (real : S) : outcome (Z * QueuedEventSink * S) :=
  drain_events (Datatypes.S (Z.to_nat (ring_size (queue_ q)))) q real 0.
End Queued.

(** ** book_builder.{hpp,cpp} *)

Record PerSymbolState := mkPerSymbol {
  book : option TopOfBook; last_sequence : Z; anchored : bool; stale : bool }.

(** The default-constructed state of [symbols_[symbol]]. *)
Definition PerSymbol_new : PerSymbolState := mkPerSymbol None 0 false false.

(** [gaps_] is what the gap logger was told: symbol, expected, received. *)
Record UdpFeedBookBuilder := mkBuilder {
  symbols_ : gmap Z PerSymbolState; gaps_ : list (Z * Z * Z) }.

Definition UdpFeedBookBuilder_new : UdpFeedBookBuilder := mkBuilder ∅ [].

Definition set_symbol (symbol : Z) (st : PerSymbolState) (b : UdpFeedBookBuilder) : UdpFeedBookBuilder :=
  mkBuilder (<[symbol := st]> (symbols_ b)) (gaps_ b).

Definition apply_snapshot (h : FeedHeader) (symbol : Z) (top : TopOfBook) (b : UdpFeedBookBuilder)
    : UdpFeedBookBuilder :=
  set_symbol symbol (mkPerSymbol (Some top) (fh_sequence h) true false) b.

Definition check_sequence (symbol incoming_sequence : Z) (b : UdpFeedBookBuilder) : UdpFeedBookBuilder :=
  let state := default PerSymbol_new (symbols_ b !! symbol) in
  let b := set_symbol symbol state b in
  let expected := u64_add (last_sequence state) 1 in
  if Z.eqb incoming_sequence expected then b
  else mkBuilder (<[symbol := mkPerSymbol (book state) (last_sequence state) (anchored state) true]> (symbols_ b))
         (gaps_ b ++ [(symbol, expected, incoming_sequence)]).

(** Writes through [state], the reference taken before [check_sequence]. *)
Definition apply_top_of_book (h : FeedHeader) (symbol : Z) (top : TopOfBook) (b : UdpFeedBookBuilder)
    : outcome UdpFeedBookBuilder :=
  match symbols_ b !! symbol with
  | None => Ok b
  | Some state =>
      if negb (anchored state) then Ok b
      else if Z.leb (fh_sequence h) (last_sequence state) then Ok b
      else
        let b := check_sequence symbol (fh_sequence h) b in
        state ← deref (symbols_ b !! symbol);
        Ok (set_symbol symbol (mkPerSymbol (Some top) (fh_sequence h) (anchored state) (stale state)) b)
  end.

Definition apply_trade (h : FeedHeader) (symbol : Z) (b : UdpFeedBookBuilder) : outcome UdpFeedBookBuilder :=
  match symbols_ b !! symbol with
  | None => Ok b
  | Some state =>
      if negb (anchored state) then Ok b
      else if Z.leb (fh_sequence h) (last_sequence state) then Ok b
      else
        let b := check_sequence symbol (fh_sequence h) b in
        state ← deref (symbols_ b !! symbol);
        Ok (set_symbol symbol (mkPerSymbol (book state) (fh_sequence h) (anchored state) (stale state)) b)
  end.

Definition apply_message (m : FeedMessage) (b : UdpFeedBookBuilder) : outcome UdpFeedBookBuilder :=
  match m with
  | SnapshotMessage h s top _ => Ok (apply_snapshot h s top b)
  | TopOfBookMessage h s top => apply_top_of_book h s top b
  | TradeMessage h s _ _ _ => apply_trade h s b
  end.

Definition top_of_book (symbol : Z) (b : UdpFeedBookBuilder) : option TopOfBook :=
  match symbols_ b !! symbol with
  | Some st => if anchored st then book st else None
  | None => None
  end.

Definition is_stale (symbol : Z) (b : UdpFeedBookBuilder) : bool :=
  match symbols_ b !! symbol with Some st => stale st | None => false end.

Definition is_anchored (symbol : Z) (b : UdpFeedBookBuilder) : bool :=
  match symbols_ b !! symbol with Some st => anchored st | None => false end.

(** ** The structs on the wire *)

Section Wire.
Variable host_little : bool.

Definition header_chunks (h : FeedHeader) : list (list Z) :=
  [host_bytes host_little 1 (fh_type h); replicate 7 0;
   host_bytes host_little 8 (fh_sequence h); host_bytes host_little 8 (fh_timestamp_ns h)].

Definition top_chunks (t : TopOfBook) : list (list Z) :=
  [host_bytes host_little 8 (wrap64 (bid_price t)); host_bytes host_little 8 (bid_qty t);
   host_bytes host_little 8 (wrap64 (ask_price t)); host_bytes host_little 8 (ask_qty t)].

Definition symbol_chunks (s : Z) : list (list Z) := [host_bytes host_little 4 s; replicate 4 0].

(** [sizeof] bytes at [&msg], the padding zeroed. *)
Definition feed_wire (m : FeedMessage) : list Z :=
  concat (match m with
  | TopOfBookMessage h s t => header_chunks h ++ symbol_chunks s ++ top_chunks t
  | TradeMessage h s p q n =>
      header_chunks h ++ symbol_chunks s ++
      [host_bytes host_little 8 (wrap64 p); host_bytes host_little 8 q; host_bytes host_little 8 n]
  | SnapshotMessage h s t n => header_chunks h ++ symbol_chunks s ++ top_chunks t ++ [host_bytes host_little 8 n]
  end).

(** A field of the struct copied from [data]. *)
Definition field_u (n off : nat) (data : list Z) : Z := of_host host_little (take n (drop off data)).

Definition field_i64 (off : nat) (data : list Z) : Z := to_i64 (field_u 8 off data).

Definition read_header (data : list Z) : FeedHeader :=
  mkHeader (field_u 1 0 data) (field_u 8 8 data) (field_u 8 16 data).

Definition read_top (data : list Z) : TopOfBook :=
  mkTop (field_i64 32 data) (field_u 8 40 data) (field_i64 48 data) (field_u 8 56 data).

(** What the switch of [on_message] makes of a datagram; [None] is ignored. *)
Definition read_feed (data : list Z) : option FeedMessage :=
  if Nat.ltb (length data) 24 then None
  else
    let header := read_header data in
    if Z.eqb (fh_type header) kSnapshot then
      if Nat.ltb (length data) 72 then None
      else Some (SnapshotMessage header (field_u 4 24 data) (read_top data) (field_u 8 64 data))
    else if Z.eqb (fh_type header) kTopOfBook then
      if Nat.ltb (length data) 64 then None
      else Some (TopOfBookMessage header (field_u 4 24 data) (read_top data))
    else if Z.eqb (fh_type header) kTrade then
      if Nat.ltb (length data) 56 then None
      else Some (TradeMessage header (field_u 4 24 data) (field_i64 32 data) (field_u 8 40 data) (field_u 8 48 data))
    else None.

Definition on_message (data : list Z) (b : UdpFeedBookBuilder) : outcome UdpFeedBookBuilder :=
  match read_feed data with Some m => apply_message m b | None => Ok b end.

Fixpoint on_messages (datagrams : list (list Z)) (b : UdpFeedBookBuilder) : outcome UdpFeedBookBuilder :=
  match datagrams with
  | [] => Ok b
  | d :: ds => b ← on_message d b; on_messages ds b
  end.
End Wire.
