(* ===== verification/FeedTheorems.v ===== *)
(** * FeedTheorems: what a subscriber can rely on

    The publisher numbers its messages without gaps and every change of its
    top of book is published; a subscriber that misses none of them mirrors
    the publisher, and one that misses some is told. *)
From S2P Require Import Prelude Core Bytes SpscRing RingQueue UdpFeed.
From S2P Require Import StdMap OrderPool PriceLevel OrderBook MatchingEngine EngineTheorems EngineWitness.

(** ** The wire *)

Definition wf_header (t : Z) (h : FeedHeader) : Prop :=
  fh_type h = t ∧ in_u64 (fh_sequence h) ∧ in_u64 (fh_timestamp_ns h).

Definition wf_top (t : TopOfBook) : Prop :=
  in_i64 (bid_price t) ∧ in_u64 (bid_qty t) ∧ in_i64 (ask_price t) ∧ in_u64 (ask_qty t).

Definition wf_feed (m : FeedMessage) : Prop :=
  in_u32 (feed_symbol m) ∧
  match m with
  | TopOfBookMessage h _ t => wf_header kTopOfBook h ∧ wf_top t
  | TradeMessage h _ p q n => wf_header kTrade h ∧ in_i64 p ∧ in_u64 q ∧ in_u64 n
  | SnapshotMessage h _ t n => wf_header kSnapshot h ∧ wf_top t ∧ in_u64 n
  end.

Section Wire.
Variable hl : bool.

Lemma length_host_bytes n v : length (host_bytes hl n v) = n.
Proof. unfold host_bytes. destruct hl; [apply length_le_bytes|apply length_be_bytes]. Qed.

Lemma of_host_bytes n v : of_host hl (host_bytes hl n v) = v mod 256 ^ Z.of_nat n.
Proof.
  unfold of_host, host_bytes, of_be, be_bytes. destruct hl; rewrite ?rev_involutive; apply of_le_bytes.
Qed.

(** The [i]-th of the chunks laid out one after the other. *)
Lemma chunk_at (cs : list (list Z)) i c off :
  cs !! i = Some c → length (concat (take i cs)) = off → take (length c) (drop off (concat cs)) = c.
Proof.
  intros Hi <-. rewrite <- (take_drop_middle _ _ _ Hi), concat_app. simpl.
  rewrite take_app_length' by (rewrite length_take; apply lookup_lt_Some in Hi; lia).
  by rewrite drop_app_length, take_app_length.
Qed.

Lemma field_chunk (cs : list (list Z)) i n off v :
  cs !! i = Some (host_bytes hl n v) → length (concat (take i cs)) = off → 0 <= v < 256 ^ Z.of_nat n →
  field_u hl n off (concat cs) = v.
Proof.
  intros Hi Ho Hv. unfold field_u. rewrite <- (length_host_bytes n v) at 1.
  rewrite (chunk_at _ _ _ _ Hi Ho), of_host_bytes. by apply Z.mod_small.
Qed.

Lemma field_chunk_i64 (cs : list (list Z)) i off v :
  cs !! i = Some (host_bytes hl 8 (wrap64 v)) → length (concat (take i cs)) = off → in_i64 v →
  field_i64 hl off (concat cs) = v.
Proof.
  intros Hi Ho Hv. unfold field_i64. rewrite (field_chunk cs i 8 off (wrap64 v) Hi Ho).
  - by apply to_i64_wrap64.
  - change (256 ^ Z.of_nat 8) with 18446744073709551616. apply wrap64_range.
Qed.

Ltac chunk i :=
  first [eapply (field_chunk _ i) | eapply (field_chunk_i64 _ i)];
  [reflexivity
  |cbn [app take concat header_chunks symbol_chunks top_chunks];
   rewrite ?length_app, ?length_host_bytes, ?length_replicate; reflexivity
  |done].

(** The fields every message starts with. *)
Lemma prefix_fields h s rest :
  let data := concat (header_chunks hl h ++ symbol_chunks hl s ++ rest) in
  in_u64 (fh_sequence h) → in_u64 (fh_timestamp_ns h) → 0 <= fh_type h < 256 → in_u32 s →
  read_header hl data = h ∧ field_u hl 4 24 data = s ∧
  length data = (32 + length (concat rest))%nat.
Proof.
  intros data Hsq Hts Hty Hs. destruct h as [ty sq ts]. subst data.
  cbn [fh_type fh_sequence fh_timestamp_ns] in *. split; [|split].
  - unfold read_header. f_equal; [chunk 0%nat|chunk 2%nat|chunk 3%nat].
  - chunk 4%nat.
  - rewrite !concat_app, !length_app.
    cbn [header_chunks symbol_chunks concat]. rewrite ?length_app, ?length_host_bytes, ?length_replicate.
    simpl. lia.
Qed.

Lemma top_fields h s t rest :
  let data := concat (header_chunks hl h ++ symbol_chunks hl s ++ top_chunks hl t ++ rest) in
  wf_top t → read_top hl data = t.
Proof.
  intros data (Hbp & Hbq & Hap & Haq). destruct t as [bp bq ap aq]. subst data.
  cbn [bid_price bid_qty ask_price ask_qty] in *. unfold read_top.
  f_equal; [chunk 6%nat|chunk 7%nat|chunk 8%nat|chunk 9%nat].
Qed.

Lemma length_top_chunks t : length (concat (top_chunks hl t)) = 32%nat.
Proof. cbn [top_chunks concat]. rewrite ?length_app, ?length_host_bytes. done. Qed.

(** A datagram is read back as the message it was made from. *)
Lemma read_feed_wire m : wf_feed m → read_feed hl (feed_wire hl m) = Some m.
Proof.
  intros [Hs Hm]. unfold read_feed, feed_wire.
  destruct m as [h s t|h s p q n|h s t n]; cbn [feed_symbol] in Hs.
  - destruct Hm as [(Ety & Hsq & Hts) Ht].
    destruct (prefix_fields h s (top_chunks hl t)) as (-> & -> & ->); [done..|rewrite Ety; done|done|].
    pose proof (top_fields h s t []) as Htop. rewrite app_nil_r in Htop.
    by rewrite length_top_chunks, Htop, Ety.
  - destruct Hm as ((Ety & Hsq & Hts) & Hp & Hq & Hn).
    destruct (prefix_fields h s [host_bytes hl 8 (wrap64 p); host_bytes hl 8 q; host_bytes hl 8 n])
      as (-> & -> & ->); [done..|rewrite Ety; done|done|].
    rewrite (field_chunk_i64 _ 6 32 p), (field_chunk _ 7 8 40 q), (field_chunk _ 8 8 48 n); try done;
      try (cbn [app take concat header_chunks symbol_chunks];
           rewrite ?length_app, ?length_host_bytes, ?length_replicate; reflexivity).
    cbn [concat]. by rewrite ?length_app, ?length_host_bytes, Ety.
  - destruct Hm as ((Ety & Hsq & Hts) & Ht & Hn).
    destruct (prefix_fields h s (top_chunks hl t ++ [host_bytes hl 8 n]))
      as (-> & -> & ->); [done..|rewrite Ety; done|done|].
    rewrite (top_fields h s t _ Ht), (field_chunk _ 10 8 64 n); try done;
      try (cbn [app take concat header_chunks symbol_chunks top_chunks];
           rewrite ?length_app, ?length_host_bytes, ?length_replicate; reflexivity).
    rewrite concat_app, length_app, length_top_chunks. cbn [concat].
    by rewrite ?length_app, ?length_host_bytes, Ety.
Qed.
End Wire.

(** ** The receiver, per symbol *)

(** What one message does to its symbol's entry. *)
Definition sym_step (o : option PerSymbolState) (m : FeedMessage) : option PerSymbolState :=
  match m, o with
  | SnapshotMessage h _ t _, _ => Some (mkPerSymbol (Some t) (fh_sequence h) true false)
  | _, None => None
  | _, Some st =>
      if negb (anchored st) || Z.leb (feed_sequence m) (last_sequence st) then Some st
      else Some (mkPerSymbol (match m with TopOfBookMessage _ _ t => Some t | _ => book st end)
                   (feed_sequence m) true
                   (if Z.eqb (feed_sequence m) (u64_add (last_sequence st) 1) then stale st else true))
  end.

Lemma check_sequence_entry s n b st :
  symbols_ b !! s = Some st →
  symbols_ (check_sequence s n b) !! s =
  Some (mkPerSymbol (book st) (last_sequence st) (anchored st)
          (if Z.eqb n (u64_add (last_sequence st) 1) then stale st else true)).
Proof.
  intros E. unfold check_sequence. rewrite E. simpl.
  destruct (Z.eqb n (u64_add (last_sequence st) 1)); simpl; rewrite lookup_insert_eq; by destruct st.
Qed.

Lemma apply_message_step m b :
  ∃ b', apply_message m b = Ok b' ∧
    symbols_ b' !! feed_symbol m = sym_step (symbols_ b !! feed_symbol m) m.
Proof.
  destruct m as [h s t|h s p q n|h s t n]; simpl.
  3:{ eexists. split; [done|]. simpl. by rewrite lookup_insert_eq. }
  all: unfold apply_top_of_book, apply_trade; destruct (symbols_ b !! s) as [st|] eqn:E; [|eauto].
  all: unfold feed_sequence; simpl; destruct (anchored st) eqn:Ea; simpl; [|eauto];
    destruct (Z.leb _ _); [eauto|];
    rewrite (check_sequence_entry _ _ _ _ E); simpl; eexists; (split; [done|]); simpl;
    by rewrite lookup_insert_eq, Ea.
Qed.

(** The receiver is defined on every run of well-formed datagrams. *)
Lemma on_messages_step hl s ms b :
  Forall (λ m, wf_feed m ∧ feed_symbol m = s) ms →
  ∃ b', on_messages hl (feed_wire hl <$> ms) b = Ok b' ∧
    symbols_ b' !! s = foldl sym_step (symbols_ b !! s) ms.
Proof.
  intros Hms. revert b. induction Hms as [|m ms [Hm Hs] _ IH]; intros b; simpl; [eauto|].
  unfold on_message at 1. rewrite read_feed_wire by done.
  destruct (apply_message_step m b) as (b1 & -> & E1). cbn [mbind outcome_bind].
  destruct (IH b1) as (b2 & E2 & E3). exists b2. split; [done|]. by rewrite E3, <- Hs, E1.
Qed.

(** ** Numbered streams *)

(** The top of book a lossless reader of [ms] knows. *)
Definition feed_top (ms : list FeedMessage) : option TopOfBook :=
  foldl (λ o m, match m with
    | TopOfBookMessage _ _ t | SnapshotMessage _ _ t _ => Some t
    | TradeMessage _ _ _ _ _ => o
    end) None ms.

Lemma feed_top_snoc ms m :
  feed_top (ms ++ [m]) =
  match m with TopOfBookMessage _ _ t | SnapshotMessage _ _ t _ => Some t | _ => feed_top ms end.
Proof. unfold feed_top. by rewrite foldl_app. Qed.

Definition is_snapshot (m : FeedMessage) : bool :=
  match m with SnapshotMessage _ _ _ _ => true | _ => false end.

Lemma Forall_sublist {A} (P : A → Prop) l k : sublist l k → Forall P k → Forall P l.
Proof. induction 1; rewrite ?Forall_cons; tauto. Qed.

Lemma sublist_full {A} (l k : list A) : sublist l k → (length k <= length l)%nat → l = k.
Proof.
  induction 1 as [|x l k Hs IH|x l k Hs IH]; simpl; intros Hl; [done|f_equal; apply IH; lia|].
  apply sublist_length in Hs. lia.
Qed.

Lemma existsb_drop {A} (f : A → bool) n l : existsb f (drop n l) = true → existsb f l = true.
Proof. rewrite <- (take_drop n l) at 2. rewrite existsb_app. intros ->. apply orb_true_r. Qed.

Lemma feed_top_snapshot ms : feed_top ms = None → existsb is_snapshot ms = true → False.
Proof.
  induction ms as [|m ms IH] using rev_ind; [done|]. rewrite feed_top_snoc, existsb_app. simpl.
  rewrite orb_false_r. destruct m; simpl; rewrite ?orb_false_r; [done|auto|done].
Qed.

(** Message [i] of the stream carries sequence number [i + 1]. *)
Definition numbered (ms : list FeedMessage) : Prop :=
  ∀ i m, ms !! i = Some m → feed_sequence m = Z.of_nat i + 1.

Lemma numbered_snoc ms m :
  numbered (ms ++ [m]) → numbered ms ∧ feed_sequence m = Z.of_nat (length ms) + 1.
Proof.
  intros Hn. split; [|apply Hn; apply list_lookup_middle; done].
  intros i m' Hi. apply Hn. rewrite lookup_app_l; [done|]. by apply lookup_lt_Some in Hi.
Qed.

(** A reader that joins after [pre] and misses nothing: nothing until the
    first snapshot, from then on the current top of book, never stale. *)
Lemma lossless_reader pre suf :
  numbered (pre ++ suf) → Z.of_nat (length (pre ++ suf)) < 18446744073709551615 →
  foldl sym_step None suf =
  if existsb is_snapshot suf
  then Some (mkPerSymbol (feed_top (pre ++ suf)) (Z.of_nat (length (pre ++ suf))) true false)
  else None.
Proof.
  induction suf as [|m suf IH] using rev_ind; [done|]. rewrite app_assoc. intros Hn Hlen.
  apply numbered_snoc in Hn as [Hn Hseq]. rewrite length_app in Hlen. simpl in Hlen.
  rewrite foldl_app, existsb_app, IH by (done || lia). rewrite feed_top_snoc.
  assert (Z.of_nat (length ((pre ++ suf) ++ [m])) = feed_sequence m) as ->
    by (rewrite (length_app (pre ++ suf)); simpl; lia).
  destruct m as [h s t|h s p q n|h s t n]; simpl; rewrite ?orb_true_r, ?orb_false_r; [..|done];
    (destruct (existsb is_snapshot suf); [|done]); unfold feed_sequence in *; simpl in *;
    rewrite (proj2 (Z.leb_gt _ _)) by lia;
    unfold u64_add; rewrite wrap64_small by (u64; lia);
    by rewrite Hseq, Z.eqb_refl.
Qed.

(** A reader of some of the messages, in order: an entry that is not marked
    stale is that of a reader who saw everything up to its last message. *)
Lemma lossy_reader sent rs :
  sublist rs sent → numbered sent → Z.of_nat (length sent) < 18446744073709551615 →
  ∀ st, foldl sym_step None rs = Some st →
    (anchored st = true ∧ feed_sequence <$> last rs = Some (last_sequence st)) ∧
    0 <= last_sequence st <= Z.of_nat (length sent) ∧
    (stale st = false → book st = feed_top (take (Z.to_nat (last_sequence st)) sent)).
Proof.
  revert rs. induction sent as [|m sent IH] using rev_ind; intros rs Hsub Hn Hlen st Hst.
  { apply sublist_nil_r in Hsub as ->. done. }
  apply numbered_snoc in Hn as [Hn Hseq]. rewrite length_app in *. simpl in Hlen.
  apply sublist_app_r in Hsub as (rs1 & rs2 & -> & H1 & H2).
  assert (∀ st, foldl sym_step None rs1 = Some st →
    (anchored st = true ∧ feed_sequence <$> last rs1 = Some (last_sequence st)) ∧
    0 <= last_sequence st <= Z.of_nat (length sent) ∧
    (stale st = false → book st = feed_top (take (Z.to_nat (last_sequence st)) (sent ++ [m])))) as Hold.
  { intros st1 E1. destruct (IH rs1 H1 Hn ltac:(lia) st1 E1) as (Ha & Hl & Hb).
    split; [done|]. split; [done|]. intros Hs. rewrite take_app_le by lia. auto. }
  apply sublist_cons_r in H2 as [->%sublist_nil_r|(rs3 & -> & ->%sublist_nil_r)].
  { rewrite app_nil_r in *. destruct (Hold st Hst) as (? & ? & ?). split; [done|]. split; [simpl; lia|done]. }
  rewrite foldl_app in Hst. simpl in Hst.
  assert (∀ b0 t, st = mkPerSymbol b0 (feed_sequence m) true t → (t = false → b0 = feed_top (sent ++ [m])) →
    (anchored st = true ∧ feed_sequence <$> last (rs1 ++ [m]) = Some (last_sequence st)) ∧
    0 <= last_sequence st <= Z.of_nat (length sent + length [m]) ∧
    (stale st = false → book st = feed_top (take (Z.to_nat (last_sequence st)) (sent ++ [m])))) as Hnew.
  { intros b0 t -> Ht. rewrite last_snoc. simpl. split; [done|]. split; [lia|]. intros E. rewrite Hseq.
    rewrite take_ge by (rewrite length_app; simpl; lia). auto. }
  destruct (foldl sym_step None rs1) as [st1|] eqn:E1.
  - destruct (Hold st1 eq_refl) as ([Ha _] & Hl & Hb).
    destruct m as [h s t|h s p q n|h s t n]; simpl in Hst; unfold feed_sequence in *; simpl in *.
    3:{ simplify_eq. by eapply Hnew; [done|]; intros _; rewrite feed_top_snoc. }
    all: rewrite Ha, (proj2 (Z.leb_gt _ _)) in Hst by lia; simpl in Hst; simplify_eq; eapply Hnew; [done|];
      rewrite feed_top_snoc.
    { done. }
    destruct (Z.eqb_spec (fh_sequence h) (u64_add (last_sequence st1) 1)) as [Eq|]; [|done]. intros Hs.
    unfold u64_add in Eq. rewrite wrap64_small in Eq by (u64; lia).
    rewrite Hb by done. rewrite take_app_le by lia. by rewrite take_ge by lia.
  - destruct m as [h s t|h s p q n|h s t n]; simpl in Hst; simplify_eq.
    eapply Hnew; [done|]. intros _. by rewrite feed_top_snoc.
Qed.

(** ** The publisher *)

Definition wf_event (e : Event) : Prop :=
  match e with
  | EvTrade t => in_i64 (t_price t) ∧ in_u64 (t_quantity t) ∧ in_u64 (trade_sequence t)
  | EvAccepted a => in_i64 (oa_price a) ∧ in_u64 (oa_quantity a)
  | EvCancelled c => in_i64 (oc_price c) ∧ in_u64 (oc_remaining_qty c)
  end.

Definition wf_side (st : SideState) : Prop := in_i64 (ss_price st) ∧ in_u64 (ss_qty st).

(** The datagrams that went out to one subscriber. *)
Definition received (sub : Z) (p : UdpFeedPublisher) : list FeedMessage :=
  (filter (λ d, d.1 = sub) (outbox_ p)).*2.

Record feed_inv (p : UdpFeedPublisher) : Prop := {
  fi_next : next_feed_sequence_ p = wrap64 (Z.of_nat (length (sent_ p)) + 1);
  fi_msgs i m : sent_ p !! i = Some m →
    feed_sequence m = wrap64 (Z.of_nat i + 1) ∧ feed_symbol m = symbol_ p ∧ wf_feed m;
  fi_symbol : in_u32 (symbol_ p);
  fi_bid : wf_side (bid_ p);
  fi_ask : wf_side (ask_ p);
  fi_subs : NoDup (subscribers_ p);
  fi_out sub : sublist (received sub p) (sent_ p) }.

(** The last published top of book is the current one. *)
Definition published (p : UdpFeedPublisher) : Prop :=
  match feed_top (sent_ p) with Some t => t = current_top_of_book p | None => True end.

(** Messages went out; the publisher's view is the same. *)
Definition kept (p p' : UdpFeedPublisher) : Prop :=
  feed_inv p' ∧ symbol_ p' = symbol_ p ∧ bid_ p' = bid_ p ∧ ask_ p' = ask_ p.

Section Publisher.
Variable now_ns : Z → Z.
Variable send_fn : Z → FeedMessage → Z.
Hypothesis clock_u64 : ∀ n, in_u64 (now_ns n).
Implicit Types (p : UdpFeedPublisher).

Lemma current_wf p : feed_inv p → wf_top (current_top_of_book p).
Proof. intros [_ _ _ [] [] _ _]. by split_and!. Qed.

Lemma header_wf ty p : feed_inv p → wf_header ty (make_header now_ns ty p).1.
Proof. intros []. split; [done|]. split; [|apply clock_u64]. simpl. rewrite fi_next0. apply wrap64_range. Qed.

Lemma send_loop_out subs m any out :
  (send_loop send_fn subs m any out).2 = out ++ ((., m) <$> filter (λ s, 0 < send_fn s m) subs).
Proof.
  revert any out. induction subs as [|s subs IH]; intros any out; simpl; [by rewrite app_nil_r|].
  rewrite filter_cons. destruct (Z.ltb_spec 0 (send_fn s m)).
  - by rewrite IH, decide_True, fmap_cons, <- app_assoc.
  - rewrite IH, decide_False by lia. done.
Qed.

(** One subscriber gets a message once or not at all. *)
Lemma one_datagram sub m subs :
  NoDup subs →
  sublist (filter (λ d, d.1 = sub) ((., m) <$> filter (λ s, 0 < send_fn s m) subs)).*2 [m].
Proof.
  induction 1 as [|s subs Hs Hnd IH]; simpl; [constructor; constructor|]. rewrite filter_cons. case_decide; [|done].
  rewrite fmap_cons, filter_cons. simpl. case_decide; [|done]. subst s. simpl. apply sublist_skip.
  assert (filter (λ d, d.1 = sub) ((., m) <$> filter (λ s, 0 < send_fn s m) subs) = []) as ->; [|done].
  apply elem_of_nil_inv. intros [s' m'] [Es Hin]%list_elem_of_filter.
  apply list_elem_of_fmap in Hin as (s2 & [= -> ->] & [_ Hin]%list_elem_of_filter). simpl in Es. by subst.
Qed.

Lemma send_to_all_eq m p :
  (send_to_all send_fn m p).2 =
  mkPublisher (symbol_ p) (subscribers_ p) (snapshot_interval_ p) (next_feed_sequence_ p)
    (messages_since_snapshot_ p) (bid_ p) (ask_ p) (sent_ p ++ [m])
    (outbox_ p ++ ((., m) <$> filter (λ s, 0 < send_fn s m) (subscribers_ p))).
Proof.
  unfold send_to_all. pose proof (send_loop_out (subscribers_ p) m false (outbox_ p)) as E.
  destruct (send_loop _ _ _ _ _) as [any out]. simpl in *. by rewrite E.
Qed.

Lemma send_kept ty p m :
  feed_inv p → feed_header m = (make_header now_ns ty p).1 → feed_symbol m = symbol_ p → wf_feed m →
  kept p (send_to_all send_fn m (make_header now_ns ty p).2).2.
Proof.
  intros [] Hh Hs Hm. rewrite send_to_all_eq. split; [|done]. split; simpl; try done.
  - rewrite length_app. simpl. rewrite fi_next0. unfold u64_add. rewrite wrap64_add_l. f_equal. lia.
  - intros i m' Hi. apply lookup_app_Some in Hi as [Hi|[Hi E]]; [by apply fi_msgs0|].
    apply list_lookup_singleton_Some in E as [Ei <-]. split; [|done].
    unfold feed_sequence. rewrite Hh. simpl. rewrite fi_next0. f_equal. lia.
  - intros sub. unfold received. simpl. rewrite filter_app, fmap_app. apply sublist_app; [apply fi_out0|].
    by apply one_datagram.
Qed.

Lemma kept_trans p1 p2 p3 : kept p1 p2 → kept p2 p3 → kept p1 p3.
Proof. intros (_ & ? & ? & ?) (? & ? & ? & ?). split; [done|]. split_and!; congruence. Qed.

Lemma kept_current p p' : kept p p' → current_top_of_book p' = current_top_of_book p.
Proof. intros (_ & _ & Eb & Ea). unfold current_top_of_book. by rewrite Eb, Ea. Qed.

Lemma publish_top_kept p :
  feed_inv p → kept p (publish_top_of_book now_ns send_fn p) ∧
    feed_top (sent_ (publish_top_of_book now_ns send_fn p)) = Some (current_top_of_book p).
Proof.
  intros Hi. unfold publish_top_of_book. cbn [make_header]. split; [|rewrite send_to_all_eq; simpl; by rewrite feed_top_snoc].
  apply (send_kept kTopOfBook p); [done..|]. split; [apply Hi|]. split; [exact (header_wf kTopOfBook p Hi)|exact (current_wf p Hi)].
Qed.

Lemma publish_snapshot_kept p :
  feed_inv p → kept p (publish_snapshot now_ns send_fn p) ∧
    feed_top (sent_ (publish_snapshot now_ns send_fn p)) = Some (current_top_of_book p).
Proof.
  intros Hi. unfold publish_snapshot. cbn [make_header]. split; [|rewrite send_to_all_eq; simpl; by rewrite feed_top_snoc].
  apply (send_kept kSnapshot p); [done..|]. split; [apply Hi|].
  pose proof (header_wf kSnapshot p Hi) as Hh. split; [done|]. split; [exact (current_wf p Hi)|]. apply Hh.
Qed.

Lemma messages_since_kept n p : feed_inv p → kept p (set_messages_since n p).
Proof. intros []. split; [by split|done]. Qed.

Lemma trigger_kept p :
  feed_inv p → published p →
  kept p (check_snapshot_trigger now_ns send_fn p) ∧ published (check_snapshot_trigger now_ns send_fn p).
Proof.
  intros Hi Hp. unfold check_snapshot_trigger. set (n := u64_add _ _).
  destruct (messages_since_kept n p Hi) as [Hi1 Hk]. case_match; [|split; [by split|exact Hp]].
  destruct (publish_snapshot_kept _ Hi1) as [Hk1 Ht].
  pose proof (messages_since_kept 0 _ (proj1 Hk1)) as Hk2. split.
  - eapply kept_trans; [split; [exact Hi1|exact Hk]|]. eapply kept_trans; eassumption.
  - unfold published. rewrite (kept_current _ _ Hk2), (kept_current _ _ Hk1).
    change (sent_ (set_messages_since 0 ?q)) with (sent_ q). by rewrite Ht.
Qed.

Lemma publish_update_kept p :
  feed_inv p → kept p (publish_update now_ns send_fn p) ∧ published (publish_update now_ns send_fn p).
Proof.
  intros Hi. destruct (publish_top_kept p Hi) as [Hk Ht]. unfold publish_update.
  destruct (trigger_kept (publish_top_of_book now_ns send_fn p)) as [Hk' Hp]; [apply Hk| |].
  - unfold published. rewrite Ht. by rewrite (kept_current _ _ Hk).
  - split; [exact (kept_trans _ _ _ Hk Hk')|done].
Qed.

Lemma set_side_inv s st p : feed_inv p → wf_side st → feed_inv (set_side s st p).
Proof. intros [] Hst. by destruct s. Qed.

(** Changing a side and publishing it. *)
Lemma side_update s st p :
  feed_inv p → wf_side st →
  feed_inv (publish_update now_ns send_fn (set_side s st p)) ∧ published (publish_update now_ns send_fn (set_side s st p)) ∧
  symbol_ (publish_update now_ns send_fn (set_side s st p)) = symbol_ p.
Proof.
  intros Hi Hst. destruct (publish_update_kept (set_side s st p)) as [(Hi' & Es & _) Hp];
    [by apply set_side_inv|]. split; [done|]. split; [done|]. rewrite Es. by destruct s.
Qed.

Lemma reduce_side_wf q gone st : wf_side st → wf_side (reduce_side q gone st).
Proof.
  intros [Hp Hq]. unfold reduce_side. destruct (Z.eqb (if gone then _ else _) 0).
  - split; simpl; u64; lia.
  - split; [done|]. simpl. case_match; [apply wrap64_range|u64; lia].
Qed.

Lemma feed_deliver_inv p e :
  feed_inv p → published p → wf_event e →
  feed_inv (@deliver _ (publisher_sink now_ns send_fn) p e) ∧ published (@deliver _ (publisher_sink now_ns send_fn) p e) ∧
  symbol_ (@deliver _ (publisher_sink now_ns send_fn) p e) = symbol_ p.
Proof.
  intros Hi Hp He. destruct e as [t|a|c]; cbn [deliver publisher_sink on_trade on_order_accepted on_order_cancelled].
  - unfold publisher_on_trade. cbn [make_header].
    match goal with |- context [send_to_all _ ?m ?q] => set (msg := m); set (p1 := q) end.
    assert (kept p (send_to_all send_fn msg p1).2) as Hk.
    { apply (send_kept kTrade p); [done..|]. split; [apply Hi|].
      split; [by apply (header_wf kTrade p)|]. destruct He as (? & ? & ?). done. }
    assert (published (send_to_all send_fn msg p1).2) as Hp1.
    { unfold published in *. rewrite (kept_current _ _ Hk), send_to_all_eq. simpl. by rewrite feed_top_snoc. }
    destruct (trigger_kept _ (proj1 Hk) Hp1) as [(Hi2 & Es2 & _) Hp2].
    cbv zeta. set (p2 := check_snapshot_trigger now_ns send_fn (send_to_all send_fn msg p1).2) in *.
    assert (symbol_ p2 = symbol_ p) as Es by (rewrite Es2; apply Hk).
    rewrite <- Es. case_match; [|case_match; [|done]]; apply side_update; auto; apply reduce_side_wf, Hi2.
  - destruct He as [Hpr Hq]. unfold publisher_on_order_accepted. case_match; [done|].
    assert (∀ x y, in_u64 (Quantity_add x y)) as Hadd by (intros; apply wrap64_range).
    destruct (oa_side a); (case_match; [done|]); (case_match; [|case_match; [|done]]);
      apply side_update; auto; (split; [try done; apply Hi|simpl; auto]).
  - unfold publisher_on_order_cancelled. case_match; [|case_match; [|done]];
      apply side_update; auto; apply reduce_side_wf, Hi.
Qed.

Lemma feed_deliver_all_inv es p :
  feed_inv p → published p → Forall wf_event es →
  feed_inv (@deliver_all _ (publisher_sink now_ns send_fn) es p) ∧ published (@deliver_all _ (publisher_sink now_ns send_fn) es p) ∧
  symbol_ (@deliver_all _ (publisher_sink now_ns send_fn) es p) = symbol_ p.
Proof.
  intros Hi Hp Hes. revert p Hi Hp. induction Hes as [|e es He _ IH]; intros p Hi Hp; [done|].
  destruct (feed_deliver_inv p e Hi Hp He) as (Hi1 & Hp1 & Es). cbn [deliver_all foldl].
  destruct (IH _ Hi1 Hp1) as (? & ? & E). split; [done|]. split; [done|]. by rewrite <- Es.
Qed.

Lemma new_feed_inv symbol subs interval :
  in_u32 symbol → NoDup subs →
  feed_inv (UdpFeedPublisher_new symbol subs interval) ∧ published (UdpFeedPublisher_new symbol subs interval).
Proof. intros Hs Hnd. split; [|done]. split; simpl; try done; split; simpl; u64; lia. Qed.

Lemma feed_inv_numbered p :
  feed_inv p → Z.of_nat (length (sent_ p)) < 18446744073709551615 → numbered (sent_ p).
Proof.
  intros [_ Hm _ _ _ _ _] Hl i m E. destruct (Hm _ _ E) as (-> & _). apply lookup_lt_Some in E.
  apply wrap64_small. u64. lia.
Qed.

Lemma feed_inv_wf p : feed_inv p → Forall (λ m, wf_feed m ∧ feed_symbol m = symbol_ p) (sent_ p).
Proof. intros [_ Hm _ _ _ _ _]. apply Forall_lookup. intros i m E. destruct (Hm _ _ E) as (_ & ? & ?). done. Qed.

(** ** Properties of the feed *)

Section Properties.
Context (hl : bool) (symbol interval : Z) (subs : list Z) (es : list Event).
Hypothesis symbol_u32 : in_u32 symbol.
Hypothesis subs_distinct : NoDup subs.
Hypothesis events_wf : Forall wf_event es.
#[local] Abbreviation pub := (@deliver_all _ (publisher_sink now_ns send_fn) es (UdpFeedPublisher_new symbol subs interval)).
Hypothesis few_messages : Z.of_nat (length (sent_ pub)) < 18446744073709551615.

Lemma pub_facts : feed_inv pub ∧ published pub ∧ symbol_ pub = symbol.
Proof. destruct (new_feed_inv symbol subs interval symbol_u32 subs_distinct). by apply feed_deliver_all_inv. Qed.

(** C30. A subscriber that joins at any point and misses nothing: until the
    first snapshot it reports nothing; after it, its top of book is the
    publisher's and it is not stale, through the bytes of the datagrams. *)
Theorem subscriber_mirrors_publisher joined :
  ∃ b, on_messages hl (feed_wire hl <$> drop joined (sent_ pub)) UdpFeedBookBuilder_new = Ok b ∧
    if existsb is_snapshot (drop joined (sent_ pub))
    then top_of_book symbol b = Some (current_top_of_book pub) ∧ is_stale symbol b = false
    else top_of_book symbol b = None ∧ is_anchored symbol b = false.
Proof.
  destruct pub_facts as (Hi & Hp & Es). pose proof (feed_inv_wf _ Hi) as Hwf. rewrite Es in Hwf.
  pose proof (feed_inv_numbered _ Hi few_messages) as Hn.
  destruct (on_messages_step hl symbol (drop joined (sent_ pub)) UdpFeedBookBuilder_new) as (b & Eb & Est);
    [by apply Forall_drop|]. exists b. split; [done|]. simpl in Est. rewrite lookup_empty in Est.
  pose proof (lossless_reader (take joined (sent_ pub)) (drop joined (sent_ pub))) as Hl.
  rewrite take_drop in Hl. rewrite Hl in Est by done. unfold top_of_book, is_stale, is_anchored. rewrite Est.
  destruct (existsb is_snapshot (drop joined (sent_ pub))) eqn:Ex; [|done]. simpl. split; [|done].
  unfold published in Hp. destruct (feed_top (sent_ pub)) as [t|] eqn:Et; [by rewrite Hp|].
  destruct (feed_top_snapshot _ Et (existsb_drop _ _ _ Ex)).
Qed.

(** C31. Loss is detected: whatever subset of the datagrams arrives, in order,
    the receiver is defined on it, and an anchored symbol that is not marked
    stale shows exactly the top of book that a subscriber who received
    everything up to the same message would show. *)
Theorem missing_messages_detected sub rs :
  sublist rs (received sub pub) →
  ∃ b, on_messages hl (feed_wire hl <$> rs) UdpFeedBookBuilder_new = Ok b ∧
    (is_anchored symbol b = true → is_stale symbol b = false →
     ∃ m, last rs = Some m ∧
       top_of_book symbol b = feed_top (take (Z.to_nat (feed_sequence m)) (sent_ pub))).
Proof.
  intros Hrs. destruct pub_facts as (Hi & Hp & Es). rewrite (fi_out _ Hi sub) in Hrs. pose proof (feed_inv_wf _ Hi) as Hwf. rewrite Es in Hwf.
  pose proof (feed_inv_numbered _ Hi few_messages) as Hn.
  destruct (on_messages_step hl symbol rs UdpFeedBookBuilder_new) as (b & Eb & Est);
    [by eapply Forall_sublist|]. exists b. split; [done|]. simpl in Est. rewrite lookup_empty in Est.
  unfold is_anchored, is_stale, top_of_book. rewrite Est. destruct (foldl sym_step None rs) as [st|] eqn:Ef; [|done].
  destruct (lossy_reader _ _ Hrs Hn few_messages _ Ef) as ([Ha Hlast] & _ & Hb). intros _ Hs. rewrite Ha.
  destruct (last rs) as [m|]; [|done]. simpl in Hlast. injection Hlast as Hlast. exists m. rewrite Hlast. auto.
Qed.
End Properties.
End Publisher.

(** ** Where the feed is wrong *)

(** A partially filled aggressor: ten offered at 100, fifteen bought at 100.
    The book's best bid is the remaining five at 100; the publisher, which
    takes a crossing order for one that never rests, shows no bid. *)
Theorem feed_misses_resting_remainder :
  ∃ e lv, @run_calls _ (publisher_sink (λ _, 0) (λ _ _, 1)) [CLimit (mkLimit 1 Sell 100 10 1); CLimit (mkLimit 1 Buy 100 15 2)]
    (MatchingEngine_new (UdpFeedPublisher_new 1 [7] 500) 8 StpConfig_default) = Ok e ∧
  best_bid (book_ e) = Some (Buy, 100) ∧ deref_level (Buy, 100) (book_ e) = Ok lv ∧ total_quantity lv = 5 ∧
  current_top_of_book (sink_ e) = mkTop 0 0 0 0.
Proof. vm_compute. do 2 eexists. split_and!; reflexivity. Qed.

(** A snapshot that arrives late replaces a newer top of book and clears the
    stale mark. *)
Theorem late_snapshot_regresses hl b symbol st h top as_of :
  symbols_ b !! symbol = Some st → anchored st = true → fh_sequence h < last_sequence st →
  wf_feed (SnapshotMessage h symbol top as_of) →
  ∃ b', on_message hl (feed_wire hl (SnapshotMessage h symbol top as_of)) b = Ok b' ∧
    top_of_book symbol b' = Some top ∧ is_stale symbol b' = false.
Proof.
  intros _ _ _ Hm. unfold on_message. rewrite read_feed_wire by done. eexists. split; [done|].
  unfold top_of_book, is_stale. simpl. by rewrite lookup_insert_eq.
Qed.

(** ** Witnesses *)

(** Two orders, a trade and a cancel, with a snapshot every third message. *)
Definition feed_events : list Event :=
  [EvAccepted (mkAccepted 1 Sell 10 100); EvAccepted (mkAccepted 2 Buy 7 95);
   EvTrade (mkTrade 1 3 1 100 4 false); EvCancelled (mkCancelled 2 7 Buy 95)].

Lemma feed_events_wf : Forall wf_event feed_events.
Proof. unfold feed_events. repeat constructor; u64; simpl; lia. Qed.

Definition feed_demo : UdpFeedPublisher :=
  @deliver_all _ (publisher_sink (λ _, 0) (λ _ _, 1)) feed_events (UdpFeedPublisher_new 1 [7] 3).

Lemma zero_clock : ∀ n : Z, in_u64 ((λ _, 0) n).
Proof. intros n. u64. lia. Qed.

Lemma subscriber_mirrors_publisher_witness :
  ∃ b, on_messages true (feed_wire true <$> drop 1 (sent_ feed_demo)) UdpFeedBookBuilder_new = Ok b ∧
    top_of_book 1 b = Some (mkTop 0 0 100 6) ∧ is_stale 1 b = false.
Proof.
  assert (in_u32 1) as H1 by (u64; lia).
  destruct (subscriber_mirrors_publisher (λ _, 0) (λ _ _, 1) zero_clock true 1 3 [7] feed_events H1 (NoDup_singleton 7) feed_events_wf
    ltac:(vm_compute; reflexivity) 1) as (b & Eb & Hb).
  exists b. split; [exact Eb|]. vm_compute in Hb. exact Hb.
Defined.

Lemma missing_messages_detected_witness :
  ∃ b, on_messages false (feed_wire false <$> drop 3 (received 7 feed_demo)) UdpFeedBookBuilder_new = Ok b ∧
    (is_anchored 1 b = true → is_stale 1 b = false →
     ∃ m, last (drop 3 (received 7 feed_demo)) = Some m ∧
       top_of_book 1 b = feed_top (take (Z.to_nat (feed_sequence m)) (sent_ feed_demo))).
Proof.
  assert (in_u32 1) as H1 by (u64; lia). unfold feed_demo.
  apply (missing_messages_detected (λ _, 0) (λ _ _, 1) zero_clock false 1 3 [7] feed_events H1 (NoDup_singleton 7)
    feed_events_wf ltac:(vm_compute; reflexivity) 7).
  apply sublist_drop.
Defined.
