(* ===== verification/FeedQueue.v ===== *)
(** * FeedQueue: the ring between the engine and the publisher

    adapters/udp/queued_event_sink.hpp at run time: any interleaving of whole
    offers and whole pops.  FeedThread has the accesses of the two threads
    one by one, the drain loop, the stop flag and the final drain. *)
From S2P Require Import Prelude Core OrderBook SpscRing RingQueue UdpFeed FeedTheorems.

(** ** The queue between the engine and the publisher *)

(** The engine thread offers an event; the feed thread pops and replays one. *)
Inductive feed_op := Offer (e : Event) | PopOne.

(** The event a queued aggregate stands for, and back. *)
Definition feed_event (e : Event) : FeedEvent :=
  match e with EvTrade t => from_trade t | EvAccepted a => from_accepted a | EvCancelled c => from_cancelled c end.

(** Through the aggregate or not, the sink sees the same call. *)
Lemma apply_feed_event_of {S} `{EventSink S} (target : S) e : apply_feed_event target (feed_event e) = deliver target e.
Proof. by destruct e. Qed.

Section Queued.
Context {S : Type} `{EventSink S}.
Variables (capacity k : Z).
Hypothesis capacity_pow2 : capacity = 2 ^ k.
Hypothesis capacity_bits : 0 <= k < 63.

Definition feed_step (op : feed_op) (s : QueuedEventSink * S) : outcome (QueuedEventSink * S) :=
  match op with
  | Offer e => Ok (@deliver _ (queued_sink capacity) s.1 e, s.2)
  | PopOne =>
      '(popped, r) ← try_pop capacity (queue_ s.1);
      Ok (mkQueued r (dropped_ s.1), match popped with Some e => apply_feed_event s.2 e | None => s.2 end)
  end.

Fixpoint feed_run (ops : list feed_op) (s : QueuedEventSink * S) : outcome (QueuedEventSink * S) :=
  match ops with [] => Ok s | op :: ops => s ← feed_step op s; feed_run ops s end.

Definition offered (ops : list feed_op) : list Event :=
  omap (λ op, match op with Offer e => Some e | PopOne => None end) ops.

Lemma drain_events_all fuel q real n pending :
  ring_holds capacity (queue_ q) (feed_event <$> pending) → (length pending < fuel)%nat →
  ∃ n' q', drain_events capacity fuel q real n = Ok (n', q', deliver_all pending real) ∧
    ring_holds capacity (queue_ q') [].
Proof.
  revert q real n pending. induction fuel as [|fuel IH]; intros q real n pending Hq Hf; [lia|].
  cbn [drain_events]. destruct pending as [|e pending].
  - rewrite (pop_empty _ _ Hq). simpl. eauto.
  - destruct (pop_holds _ _ _ _ Hq) as (r & -> & Hr & _). cbn [mbind outcome_bind].
    rewrite apply_feed_event_of. apply (IH (mkQueued r (dropped_ q)) (deliver real e) _ pending); [done|]. simpl in Hf. lia.
Qed.

(** After [n] operations: what is pending, and what was kept of what was offered. *)
Record queued_inv (real0 : S) (n : Z) (off : list Event) (s : QueuedEventSink * S)
    (pending kept : list Event) : Prop := {
  qi_ring : ring_holds capacity (queue_ s.1) (feed_event <$> pending);
  qi_tail : rb_tail (queue_ s.1) <= n;
  qi_replay : deliver_all pending s.2 = deliver_all kept real0;
  qi_kept : sublist kept off;
  qi_dropped : dropped_ s.1 = Z.of_nat (length off) - Z.of_nat (length kept);
  qi_count : Z.of_nat (length off) <= n }.

Lemma offer_inv real0 n off s pending kept e :
  queued_inv real0 n off s pending kept → n < 18446744073709551615 →
  ∃ pending' kept',
    queued_inv real0 (n + 1) (off ++ [e]) (@deliver _ (queued_sink capacity) s.1 e, s.2) pending' kept'.
Proof.
  intros [] Hn. assert (@deliver _ (queued_sink capacity) s.1 e = offer capacity (feed_event e) s.1) as -> by by destruct e.
  pose proof (sublist_length _ _ qi_kept0) as Hlen. unfold offer.
  destruct (Z.le_gt_cases capacity (Z.of_nat (length (feed_event <$> pending)))) as [Hf|Hr].
  - rewrite (push_full _ _ _ _ qi_ring0 Hf). exists pending, kept.
    split; simpl; rewrite ?length_app; simpl; try done; try lia.
    + by apply sublist_inserts_r.
    + rewrite qi_dropped0. unfold u64_add. rewrite wrap64_small by (u64; lia). lia.
  - destruct (push_holds _ _ capacity_pow2 capacity_bits _ _ (feed_event e) qi_ring0 Hr ltac:(lia)) as (r & -> & Hh & Ht).
    exists (pending ++ [e]), (kept ++ [e]). split; simpl; rewrite ?length_app; simpl; try done; try lia.
    + by rewrite fmap_app.
    + by rewrite !deliver_all_app, qi_replay0.
    + by apply sublist_app.
Qed.

Lemma feed_step_inv real0 n off s pending kept op :
  queued_inv real0 n off s pending kept → n < 18446744073709551615 →
  ∃ s' pending' kept', feed_step op s = Ok s' ∧
    queued_inv real0 (n + 1) (off ++ offered [op]) s' pending' kept'.
Proof.
  intros Hq Hn. destruct op as [e|]; simpl.
  - destruct (offer_inv _ _ _ _ _ _ e Hq Hn) as (p' & k' & Hq'). eauto 6.
  - rewrite app_nil_r. destruct Hq. destruct pending as [|e pending].
    + rewrite (pop_empty _ _ qi_ring0). simpl. do 3 eexists. split; [done|]. split; simpl; try done; lia.
    + destruct (pop_holds _ _ _ _ qi_ring0) as (r & -> & Hr & Ht). cbn [mbind outcome_bind].
      rewrite apply_feed_event_of. do 3 eexists. split; [done|]. split; simpl; try done; lia.
Qed.

Lemma feed_run_inv real0 ops n off s pending kept :
  queued_inv real0 n off s pending kept → n + Z.of_nat (length ops) < 18446744073709551616 →
  ∃ s' pending' kept', feed_run ops s = Ok s' ∧
    queued_inv real0 (n + Z.of_nat (length ops)) (off ++ offered ops) s' pending' kept'.
Proof.
  revert n off s pending kept. induction ops as [|op ops IH]; intros n off s pending kept Hq Hn.
  - exists s, pending, kept. split; [done|]. simpl. by rewrite Z.add_0_r, app_nil_r.
  - cbn [length] in Hn. destruct (feed_step_inv _ _ _ _ _ _ op Hq ltac:(lia)) as (s1 & p1 & k1 & E1 & Hq1).
    destruct (IH _ _ _ _ _ Hq1 ltac:(lia)) as (s2 & p2 & k2 & E2 & Hq2). exists s2, p2, k2.
    cbn [feed_run]. rewrite E1. cbn [mbind outcome_bind]. split; [done|].
    replace (n + Z.of_nat (length (op :: ops))) with (n + 1 + Z.of_nat (length ops)) by (cbn [length]; lia).
    replace (offered (op :: ops)) with (offered [op] ++ offered ops) by (by destruct op). by rewrite app_assoc.
Qed.

(** The queued feed is the direct feed minus what it counts as dropped:
    after any interleaving of engine events and feed-thread pops and a last
    drain, the publisher's state is that of delivering, in order, all events
    but exactly [dropped_] of them; with none dropped it is what the engine
    calling it directly would have produced. *)
Theorem queued_feed_equivalent (real0 : S) ops dflt :
  Z.of_nat (length ops) < 18446744073709551615 →
  ∃ q real kept n q',
    feed_run ops (mkQueued (Ring_new capacity dflt) 0, real0) = Ok (q, real) ∧
    drain_once capacity q real = Ok (n, q', deliver_all kept real0) ∧
    ring_holds capacity (queue_ q') [] ∧ sublist kept (offered ops) ∧
    dropped_ q = Z.of_nat (length (offered ops)) - Z.of_nat (length kept) ∧
    (dropped_ q = 0 → kept = offered ops).
Proof.
  intros Hn.
  destruct (feed_run_inv real0 ops 0 [] (mkQueued (Ring_new capacity dflt) 0, real0) [] [])
    as ([q real] & pending & kept & Er & []); [|lia|].
  { split; try done; simpl; try lia. by apply (new_holds _ _ capacity_pow2 capacity_bits). }
  cbn [fst snd] in *. unfold drain_once.
  destruct (drain_events_all (Datatypes.S (Z.to_nat (ring_size (queue_ q)))) q real 0 pending)
    as (n & q' & Ed & He); [done|rewrite (holds_size _ _ _ qi_ring0), length_fmap; lia|].
  exists q, real, kept, n, q'. rewrite Ed, qi_replay0. simpl in *. split_and!; try done.
  intros E0. rewrite E0 in qi_dropped0. apply sublist_full; [done|lia].
Qed.
End Queued.

Definition feed_schedule : list feed_op :=
  [Offer (EvAccepted (mkAccepted 1 Sell 10 100)); Offer (EvAccepted (mkAccepted 2 Buy 7 95)); PopOne;
   Offer (EvTrade (mkTrade 1 3 1 100 4 false)); Offer (EvCancelled (mkCancelled 2 7 Buy 95)); PopOne].

Lemma queued_feed_equivalent_witness :
  ∃ q real kept n q',
    feed_run 4 feed_schedule (mkQueued (Ring_new 4 FeedEvent_default) 0, [] : list Event) =
      Ok (q, real) ∧
    drain_once 4 q real = Ok (n, q', deliver_all kept ([] : list Event)) ∧ dropped_ q = 0 ∧
    kept = feed_events.
Proof.
  assert (Z.of_nat (length feed_schedule) < 18446744073709551615) as Hn by (vm_compute; reflexivity).
  destruct (queued_feed_equivalent 4 2 eq_refl ltac:(lia) ([] : list Event) feed_schedule
    FeedEvent_default Hn) as (q & real & kept & n & q' & Er & Ed & _ & _ & _ & Hall).
  exists q, real, kept, n, q'.
  assert (dropped_ q = 0) as E0.
  { change (dropped_ q) with (match Ok (q, real) with Ok s => dropped_ s.1 | _ => -1 end).
    rewrite <- Er. vm_compute. reflexivity. }
  split; [exact Er|]. split; [exact Ed|]. split; [exact E0|]. exact (Hall E0).
Defined.
