(* ===== verification/Fix.v ===== *)
(** * Fix: adapters/fix (envelope, parser, encoder, session)

    FIX 4.2 messages as bytes: tokenizing into tags, BodyLength and CheckSum,
    the mapping of 35=D and 35=F to engine commands, ExecutionReports, and the
    session that ties them to an engine behind the port.  The wall clock is a
    parameter: the text of SendingTime for each message number. *)
From Stdlib Require Import String.
From S2P Require Import Prelude Core Text OrderBook EngineApi.

(** ** FixError.hpp *)

Inductive FixErrorReason :=
| ChecksumMismatch | BodyLengthMismatch | MalformedField | EmptyMessage | InvalidClOrdIdFormat
| UnsupportedSymbol | InvalidSide | UnsupportedOrdType | MissingPrice | FixInvalidQuantity
| UnsupportedMessageType | MissingRequiredTag.

Definition fix_reason_name (r : FixErrorReason) : list Z :=
  match r with
  | ChecksumMismatch => str "ChecksumMismatch"
  | BodyLengthMismatch => str "BodyLengthMismatch"
  | MalformedField => str "MalformedField"
  | EmptyMessage => str "EmptyMessage"
  | InvalidClOrdIdFormat => str "InvalidClOrdIdFormat"
  | UnsupportedSymbol => str "UnsupportedSymbol"
  | InvalidSide => str "InvalidSide"
  | UnsupportedOrdType => str "UnsupportedOrdType"
  | MissingPrice => str "MissingPrice"
  | FixInvalidQuantity => str "InvalidQuantity"
  | UnsupportedMessageType => str "UnsupportedMessageType"
  | MissingRequiredTag => str "MissingRequiredTag"
  end.

(** Every reason has a name of its own in the logs. *)
Lemma fix_reason_name_inj r1 r2 : fix_reason_name r1 = fix_reason_name r2 → r1 = r2.
Proof. destruct r1, r2; intros E; first [reflexivity|vm_compute in E; discriminate E]. Qed.

Record FixError := mkFixError { reason : FixErrorReason; offending_tag : Z; detail : list Z }.

(** ** FixMessage.{hpp,cpp} *)

Definition kSOH : Z := 1.

Definition kBeginString : list Z := str "FIX.4.2".

(** Fields in wire order. *)
Definition TagMap : Type := list (Z * list Z).

Definition tag_add (tag : Z) (value : list Z) (map : TagMap) : TagMap := map ++ [(tag, value)].

Fixpoint tag_get (tag : Z) (map : TagMap) : option (list Z) :=
  match map with
  | [] => None
  | f :: map => if Z.eqb f.1 tag then Some f.2 else tag_get tag map
  end.

Definition tag_has (tag : Z) (map : TagMap) : bool :=
  match tag_get tag map with Some _ => true | None => false end.

(** [find(c)] and the two substrings around it. *)
Fixpoint break_at (c : Z) (s : list Z) : option (list Z * list Z) :=
  match s with
  | [] => None
  | x :: s => if Z.eqb x c then Some ([], s)
              else match break_at c s with Some (a, b) => Some (x :: a, b) | None => None end
  end.

(** [std::from_chars] into an [int]. *)
Definition from_chars_int (s : list Z) : option (Z * list Z) :=
  match from_chars_i64 s with
  | Some (v, rest) => if Z.leb (-2147483648) v && Z.ltb v 2147483648 then Some (v, rest) else None
  | None => None
  end.

Definition malformed (d : list Z) : TagMap + FixError := inr (mkFixError MalformedField (-1) d).

(** Each round consumes a field and its SOH, so [length raw] rounds are enough. *)
Fixpoint tokenize_fields (fuel : nat) (raw : list Z) (map : TagMap) : TagMap + FixError :=
  match fuel, raw with
  | _, [] => inl map
  | O, _ => inl map
  | S fuel, _ =>
      match break_at kSOH raw with
      | None => malformed (str "final field not SOH-terminated")
      | Some ([], _) => malformed (str "empty field (consecutive SOH)")
      | Some (field, rest) =>
          match break_at 61 field with
          | None | Some ([], _) => malformed (str "field missing '=' or empty tag")
          | Some (tag_sv, val_sv) =>
              match from_chars_int tag_sv with
              | Some (tag, []) => tokenize_fields fuel rest (tag_add tag val_sv map)
              | _ => malformed (str "non-numeric tag")
              end
          end
      end
  end.

Definition fix_tokenize (raw : list Z) : TagMap + FixError :=
  match raw with
  | [] => inr (mkFixError EmptyMessage (-1) (str "empty FIX message"))
  | _ => tokenize_fields (length raw) raw []
  end.

(** [unsigned] additions, then [% 256]. *)
Definition compute_checksum (bytes : list Z) : Z :=
  foldl (λ sum c, wrap32 (sum + c)) 0 bytes mod 256.

Definition has_prefix (p s : list Z) : bool := bool_decide (take (length p) s = p).

(** [find] and [rfind] of a substring, from position [i]. *)
Fixpoint find_sub (p s : list Z) (i : nat) : option nat :=
  if has_prefix p s then Some i
  else match s with [] => None | _ :: s => find_sub p s (S i) end.

Fixpoint rfind_sub (p s : list Z) (i : nat) : option nat :=
  match s with
  | [] => if has_prefix p s then Some i else None
  | _ :: s' =>
      match rfind_sub p s' (S i) with
      | Some j => Some j
      | None => if has_prefix p s then Some i else None
      end
  end.

Definition compute_body_length (full_message : list Z) : Z :=
  match find_sub (kSOH :: str "35=") full_message 0 with
  | None => 0
  | Some body_start =>
      let body_start := S body_start in
      match rfind_sub (kSOH :: str "10=") full_message 0 with
      | None => 0
      | Some cksum_pos =>
          let body_end := S cksum_pos in
          if Nat.leb body_end body_start then 0 else Z.of_nat (body_end - body_start)
      end
  end.

(** A declared number: [-1] when [from_chars] fails; what follows it is not looked at. *)
Definition declared (r : option (Z * list Z)) : Z := match r with Some (v, _) => v | None => -1 end.

Definition missing_tag (tag : Z) (d : list Z) : FixError := mkFixError MissingRequiredTag tag d.

Definition parse_validated (raw : list Z) : TagMap + FixError :=
  match fix_tokenize raw with
  | inr e => inr e
  | inl map =>
      match rfind_sub (kSOH :: str "10=") raw 0, tag_get 10 map with
      | Some cksum_pos, Some cksum_field =>
          let computed := compute_checksum (take (S cksum_pos) raw) in
          let declared_cksum := declared (from_chars_int cksum_field) in
          if negb (Z.eqb declared_cksum computed) then
            inr (mkFixError ChecksumMismatch 10
              (str "declared=" ++ to_string_i64 declared_cksum ++ str " computed=" ++ to_string_u64 computed))
          else
            match tag_get 9 map with
            | None => inr (missing_tag 9 (str "missing BodyLength (tag 9)"))
            | Some bl_field =>
                let declared_bl := declared (from_chars_i64 bl_field) in
                let computed_bl := compute_body_length raw in
                if Z.ltb declared_bl 0 || negb (Z.eqb declared_bl computed_bl) then
                  inr (mkFixError BodyLengthMismatch 9
                    (str "declared=" ++ to_string_i64 declared_bl ++ str " computed=" ++ to_string_u64 computed_bl))
                else inl map
            end
      | _, _ => inr (missing_tag 10 (str "missing CheckSum (tag 10)"))
      end
  end.

(** ** FixParser.{hpp,cpp} *)

Definition kSupportedSymbol : list Z := str "MINI".

Inductive ParsedMessage := PMNew (o : NewOrder) | PMCancel (c : CancelRequest).

Definition parse_uint64_field (map : TagMap) (tag : Z) : option Z :=
  match tag_get tag map with
  | None | Some [] => None
  | Some v => match from_chars_u64 v with Some (parsed, []) => Some parsed | _ => None end
  end.

Definition parse_int64_field (map : TagMap) (tag : Z) : option Z :=
  match tag_get tag map with
  | None | Some [] => None
  | Some v => match from_chars_i64 v with Some (parsed, []) => Some parsed | _ => None end
  end.

(** Tag 54: absent, a side, or something else. *)
Definition side_field (map : TagMap) : Side + FixError :=
  match tag_get 54 map with
  | None => inr (missing_tag 54 (str "missing Side (tag 54)"))
  | Some s =>
      if decide (s = str "1") then inl Buy
      else if decide (s = str "2") then inl Sell
      else inr (mkFixError InvalidSide 54 (str "Side (tag 54) must be 1 (Buy) or 2 (Sell)"))
  end.

Definition parse_new_order_single (map : TagMap) (owner : Z) : ParsedMessage + FixError :=
  match parse_uint64_field map 11 with
  | None => inr (mkFixError InvalidClOrdIdFormat 11 (str "ClOrdID (tag 11) must be a numeric uint64"))
  | Some id_val =>
  match tag_get 55 map with
  | None => inr (missing_tag 55 (str "missing Symbol (tag 55)"))
  | Some sym =>
  if negb (bool_decide (sym = kSupportedSymbol)) then
    inr (mkFixError UnsupportedSymbol 55 (str "symbol not supported (single-symbol exchange)"))
  else
  match side_field map with
  | inr e => inr e
  | inl side =>
  match parse_uint64_field map 38 with
  | None | Some 0 => inr (mkFixError FixInvalidQuantity 38 (str "OrderQty (tag 38) must be a positive integer"))
  | Some qty_val =>
  match tag_get 40 map with
  | None => inr (missing_tag 40 (str "missing OrdType (tag 40)"))
  | Some ordtype =>
      if decide (ordtype = str "2") then
        match parse_int64_field map 44 with
        | None => inr (mkFixError MissingPrice 44 (str "Limit order (OrdType=2) requires Price (tag 44)"))
        | Some price_val => inl (PMNew (NLimit (mkLimit id_val side price_val qty_val owner)))
        end
      else if decide (ordtype = str "1") then
        inl (PMNew (NMarket (mkMarket id_val side qty_val owner)))
      else inr (mkFixError UnsupportedOrdType 40 (str "OrdType (tag 40) must be 1 (Market) or 2 (Limit)"))
  end end end end end.

Definition parse_cancel_request (map : TagMap) : ParsedMessage + FixError :=
  match parse_uint64_field map 41 with
  | Some id_val => inl (PMCancel (mkCancel id_val))
  | None =>
      match parse_uint64_field map 11 with
      | Some id_val => inl (PMCancel (mkCancel id_val))
      | None =>
          if tag_has 41 map || tag_has 11 map
          then inr (mkFixError InvalidClOrdIdFormat 41 (str "OrigClOrdID/ClOrdID must be a numeric uint64"))
          else inr (missing_tag 41 (str "cancel requires OrigClOrdID (tag 41) or ClOrdID (tag 11)"))
      end
  end.

Definition fix_parse (map : TagMap) (owner : Z) : ParsedMessage + FixError :=
  match tag_get 35 map with
  | None => inr (missing_tag 35 (str "missing MsgType (tag 35)"))
  | Some msg_type =>
      if decide (msg_type = str "D") then parse_new_order_single map owner
      else if decide (msg_type = str "F") then parse_cancel_request map
      else inr (mkFixError UnsupportedMessageType 35 (str "only 35=D and 35=F are supported"))
  end.

(** ** FixEncoder.{hpp,cpp} *)

Record ExecReportContext := mkCtx {
  ctx_order_id : Z; ctx_side : Side; ctx_original_qty : Z; ctx_is_cancel : bool }.

Record FixEncoder := mkEncoder {
  sender_comp_id_ : list Z; target_comp_id_ : list Z; next_seq_num_ : Z; next_exec_id_ : Z }.

Definition FixEncoder_new (sender target : list Z) : FixEncoder := mkEncoder sender target 1 1.

Definition append_field (out : list Z) (tag : Z) (value : list Z) : list Z :=
  out ++ to_string_i64 tag ++ [61] ++ value ++ [kSOH].

Definition append_uint_field (out : list Z) (tag value : Z) : list Z :=
  append_field out tag (to_string_u64 value).

Definition total_filled (response : EngineResponse) : Z :=
  foldl (λ filled t, u64_add filled (t_quantity t)) 0 (trades response).

(** The status character: '0' New, '1' partial, '2' filled, '4' cancelled, '8' rejected. *)
Definition ord_status_for (response : EngineResponse) (original_qty : Z) (is_cancel : bool) : Z :=
  if negb (bool_decide (status response = Accepted)) then 56
  else if is_cancel then 52
  else
    let filled := total_filled response in
    if Z.eqb filled 0 then 48
    else if Z.leb original_qty filled then 50
    else 49.

(** ["%03u"] of a byte. *)
Definition three_digits (v : Z) : list Z := [48 + v / 100 mod 10; 48 + v / 10 mod 10; 48 + v mod 10].

Definition fix_frame (body : list Z) : list Z :=
  let header := append_field [] 8 kBeginString in
  let header := append_uint_field header 9 (Z.of_nat (length body)) in
  let without_checksum := header ++ body in
  let cksum := compute_checksum without_checksum in
  append_field without_checksum 10 (three_digits cksum).

(** One session: an engine, the owner it stamps, its encoder. *)
Record FixSession (E : Type) := mkSession {
  engine_ : E; client_id_ : Z; encoder_ : FixEncoder }.
Arguments mkSession {E} _ _ _.
Arguments engine_ {E} _.
Arguments client_id_ {E} _.
Arguments encoder_ {E} _.

Section Encoder.
Variable sending_time_now : Z → list Z.

Definition encode_execution_report (ctx : ExecReportContext) (response : EngineResponse) (enc : FixEncoder)
    : list Z * FixEncoder :=
  let body := append_field [] 35 (str "8") in
  let body := append_field body 49 (sender_comp_id_ enc) in
  let body := append_field body 56 (target_comp_id_ enc) in
  let body := append_uint_field body 34 (next_seq_num_ enc) in
  let body := append_field body 52 (sending_time_now (next_seq_num_ enc)) in
  let ord_status := ord_status_for response (ctx_original_qty ctx) (ctx_is_cancel ctx) in
  let body := append_uint_field body 37 (ctx_order_id ctx) in
  let body := append_uint_field body 11 (ctx_order_id ctx) in
  let body := append_uint_field body 17 (next_exec_id_ enc) in
  let body := append_field body 39 [ord_status] in
  let body := append_field body 150 [ord_status] in
  let body := append_field body 54 (match ctx_side ctx with Buy => str "1" | Sell => str "2" end) in
  let body := append_field body 55 kSupportedSymbol in
  let filled := total_filled response in
  let body := append_uint_field body 14 filled in
  let body := append_uint_field body 151 (remaining_qty response) in
  (fix_frame body,
   mkEncoder (sender_comp_id_ enc) (target_comp_id_ enc) (u64_add (next_seq_num_ enc) 1)
             (u64_add (next_exec_id_ enc) 1)).

(** ** FixSession.{hpp,cpp} *)

Definition context_from_new_order (o : NewOrder) : ExecReportContext :=
  mkCtx (new_order_id o) (new_order_side o) (new_order_quantity o) false.

Definition handle_message {E} `{EngineAPI E} (raw : list Z) (s : FixSession E)
    : outcome ((list Z + FixError) * FixSession E) :=
  match parse_validated raw with
  | inr e => Ok (inr e, s)
  | inl map =>
      match fix_parse map (client_id_ s) with
      | inr e => Ok (inr e, s)
      | inl (PMNew order) =>
          let ctx := context_from_new_order order in
          '(resp, engine) ← api_submit order (engine_ s);
          let '(out, enc) := encode_execution_report ctx resp (encoder_ s) in
          Ok (inl out, mkSession engine (client_id_ s) enc)
      | inl (PMCancel c) =>
          '(resp, engine) ← api_cancel (cr_id c) (engine_ s);
          let ctx := mkCtx (cr_id c) Buy 0 true in
          let '(out, enc) := encode_execution_report ctx resp (encoder_ s) in
          Ok (inl out, mkSession engine (client_id_ s) enc)
      end
  end.
End Encoder.
