(* ===== verification/FixTheorems.v ===== *)
(** * FixTheorems: the FIX envelope and session

    What the encoder frames, the envelope check accepts, field by field; and a
    FIX order or cancel does to the engine exactly what it says. *)
From Stdlib Require Import String.
From S2P Require Import Prelude Core Text OrderBook MatchingEngine EngineApi Fix.

(** ** Fields on the wire *)

Definition field_bytes (f : Z * list Z) : list Z := to_string_i64 f.1 ++ [61] ++ f.2 ++ [kSOH].

Definition fields_bytes (fs : TagMap) : list Z := concat (field_bytes <$> fs).

Definition no_soh (s : list Z) : Prop := kSOH ∉ s.

Definition wf_field (f : Z * list Z) : Prop := 0 < f.1 < 2147483648 ∧ no_soh f.2.

Lemma append_field_bytes fs tag v : append_field (fields_bytes fs) tag v = fields_bytes (fs ++ [(tag, v)]).
Proof. unfold fields_bytes, append_field. rewrite fmap_app, concat_app. simpl. by rewrite app_nil_r. Qed.

Lemma digits_no_soh s : all_digits s → no_soh s ∧ 61 ∉ s.
Proof.
  intros Hd. unfold all_digits in Hd. rewrite Forall_forall in Hd.
  split; intros Hin%Hd; discriminate Hin.
Qed.

Lemma to_string_no_soh v : in_u64 v → no_soh (to_string_u64 v) ∧ 61 ∉ to_string_u64 v.
Proof. intros Hv. by apply digits_no_soh, to_string_u64_spec. Qed.

Lemma tag_string t : 0 < t < 2147483648 →
  to_string_i64 t = to_string_u64 t ∧ to_string_u64 t ≠ [] ∧ in_u64 t.
Proof.
  intros Ht. assert (in_u64 t) as Hu by (u64; lia). unfold to_string_i64.
  rewrite (proj2 (Z.ltb_ge _ _)) by lia. split; [done|]. split; [by apply to_string_u64_spec|done].
Qed.

Lemma break_at_app c a b : c ∉ a → break_at c (a ++ c :: b) = Some (a, b).
Proof.
  induction a as [|x a IH]; intros Hn; simpl; [by rewrite Z.eqb_refl|].
  apply not_elem_of_cons in Hn as [Hx Hn]. rewrite (proj2 (Z.eqb_neq _ _)) by done. by rewrite IH.
Qed.

Lemma from_chars_int_tag t : 0 < t < 2147483648 → from_chars_int (to_string_u64 t) = Some (t, []).
Proof.
  intros Ht. destruct (tag_string t Ht) as (E & _ & _). unfold from_chars_int.
  rewrite <- E, <- (app_nil_r (to_string_i64 t)), from_chars_i64_print by (done || (u64; lia)).
  by rewrite (proj2 (Z.leb_le _ _)), (proj2 (Z.ltb_lt _ _)) by lia.
Qed.

Lemma tokenize_step fuel t v rest map :
  wf_field (t, v) →
  tokenize_fields (S fuel) ((to_string_u64 t ++ 61 :: v) ++ kSOH :: rest) map =
  tokenize_fields fuel rest (tag_add t v map).
Proof.
  intros [Ht Hv]. simpl in Ht, Hv.
  destruct (tag_string t Ht) as (_ & Hne & Hu). destruct (to_string_no_soh t Hu) as [Hs Heq].
  assert (kSOH ∉ to_string_u64 t ++ 61 :: v) as Hn.
  { rewrite elem_of_app, elem_of_cons. by intros [?|[?|?]]. }
  pose proof (break_at_app 61 (to_string_u64 t) v Heq) as Hb.
  pose proof (break_at_app kSOH _ rest Hn) as Ha. pose proof (from_chars_int_tag t Ht) as Hc.
  destruct (to_string_u64 t) as [|c tl]; [done|].
  cbn [tokenize_fields app] in *. rewrite Ha, Hb, Hc. done.
Qed.

(** Tokenizing the bytes of well-formed fields gives the fields. *)
Lemma tokenize_fields_bytes fs fuel map :
  Forall wf_field fs → (length fs <= fuel)%nat →
  tokenize_fields fuel (fields_bytes fs) map = inl (map ++ fs).
Proof.
  intros Hfs. revert fuel map. induction Hfs as [|[t v] fs Hf _ IH]; intros fuel map Hl.
  { rewrite app_nil_r. by destruct fuel. }
  destruct fuel as [|fuel]; cbn [length] in Hl; [lia|].
  assert (fields_bytes ((t, v) :: fs) = (to_string_u64 t ++ 61 :: v) ++ kSOH :: fields_bytes fs) as ->.
  { unfold fields_bytes. simpl. unfold field_bytes at 1. simpl.
    rewrite (proj1 (tag_string t (proj1 Hf))), <- !app_assoc. simpl. by rewrite <- app_assoc. }
  rewrite tokenize_step by done. rewrite IH by lia. unfold tag_add. by rewrite <- app_assoc.
Qed.

Lemma length_fields_bytes fs : (length fs <= length (fields_bytes fs))%nat.
Proof.
  unfold fields_bytes. induction fs as [|f fs IH]; [simpl; lia|]. rewrite fmap_cons. cbn [concat length].
  rewrite length_app. unfold field_bytes at 1. rewrite !length_app. cbn [length]. lia.
Qed.

(** ** Finding the boundaries *)

Lemma rfind_app p a s i j : rfind_sub p s (i + length a) = Some j → rfind_sub p (a ++ s) i = Some j.
Proof.
  revert i. induction a as [|x a IH]; intros i E; simpl in *; [by rewrite Nat.add_0_r in E|].
  rewrite (IH (S i)); [done|]. rewrite <- E. f_equal. lia.
Qed.

Lemma find_skip q a s i :
  kSOH ∉ a → find_sub (kSOH :: q) (a ++ s) i = find_sub (kSOH :: q) s (i + length a).
Proof.
  revert i. induction a as [|x a IH]; intros i Hn; simpl; [by rewrite Nat.add_0_r|].
  apply not_elem_of_cons in Hn as [Hx Hn]. unfold has_prefix. simpl.
  rewrite bool_decide_false by congruence. rewrite IH by done. f_equal. lia.
Qed.

(** A checksum field at the very end is the last one. *)
Lemma rfind_checksum d1 d2 d3 i :
  d1 ≠ kSOH → d2 ≠ kSOH → d3 ≠ kSOH →
  rfind_sub (kSOH :: str "10=") (kSOH :: str "10=" ++ [d1; d2; d3; kSOH]) i = Some i.
Proof.
  intros H1 H2 H3. unfold kSOH in *. simpl. unfold has_prefix. simpl.
  repeat (rewrite bool_decide_false by congruence). first [done|by rewrite bool_decide_true].
Qed.

(** ** The envelope *)

Lemma checksum_range bs : 0 <= compute_checksum bs < 256.
Proof. unfold compute_checksum. apply Z.mod_pos_bound. lia. Qed.

Lemma three_digits_read v : 0 <= v < 256 → declared (from_chars_int (three_digits v)) = v.
Proof.
  intros Hv. unfold three_digits.
  pose proof (Z.mod_pos_bound (v / 100) 10 ltac:(lia)). pose proof (Z.mod_pos_bound (v / 10) 10 ltac:(lia)).
  pose proof (Z.mod_pos_bound v 10 ltac:(lia)).
  assert (all_digits [48 + v / 100 mod 10; 48 + v / 10 mod 10; 48 + v mod 10]) as Hd
    by (repeat constructor; by apply digit_char).
  assert (dec_value [48 + v / 100 mod 10; 48 + v / 10 mod 10; 48 + v mod 10] = v) as He.
  { unfold dec_value. simpl. pose proof (Z.div_mod v 10 ltac:(lia)). pose proof (Z.div_mod (v / 10) 10 ltac:(lia)).
    assert (v / 10 / 10 = v / 100) by (rewrite Z.div_div by lia; done).
    rewrite (Z.mod_small (v / 100) 10); [lia|]. split; [apply Z.div_pos; lia|]. apply Z.div_lt_upper_bound; lia. }
  unfold from_chars_int, from_chars_i64. cbn [split_minus].
  rewrite (proj2 (Z.eqb_neq (48 + v / 100 mod 10) 45)) by lia.
  rewrite <- (app_nil_r [_; _; _]), span_digits_app, He by done. cbn [app].
  rewrite (proj2 (Z.leb_le _ _)), (proj2 (Z.ltb_lt _ _)) by lia. simpl.
  by rewrite (proj2 (Z.leb_le _ _)), (proj2 (Z.ltb_lt _ _)) by lia.
Qed.

Lemma three_digits_no_soh v : no_soh (three_digits v).
Proof.
  unfold no_soh, three_digits, kSOH. rewrite !not_elem_of_cons.
  pose proof (Z.mod_pos_bound (v / 100) 10 ltac:(lia)). pose proof (Z.mod_pos_bound (v / 10) 10 ltac:(lia)).
  pose proof (Z.mod_pos_bound v 10 ltac:(lia)). split_and!; [lia..|apply not_elem_of_nil].
Qed.

Lemma decimal_read n : 0 <= n < 9223372036854775808 → declared (from_chars_i64 (to_string_u64 n)) = n.
Proof.
  intros Hn. assert (to_string_u64 n = to_string_i64 n ++ []) as ->.
  { unfold to_string_i64. by rewrite (proj2 (Z.ltb_ge _ _)), app_nil_r by lia. }
  by rewrite from_chars_i64_print by (done || (u64; lia)).
Qed.

Lemma tag_get_app t a b :
  tag_get t (a ++ b) = match tag_get t a with Some v => Some v | None => tag_get t b end.
Proof. induction a as [|f a IH]; simpl; [done|]. by destruct (Z.eqb f.1 t). Qed.

Lemma tag_get_none t fs : Forall (λ f, f.1 ≠ t) fs → tag_get t fs = None.
Proof. induction 1 as [|f fs Hf _ IH]; simpl; [done|]. by rewrite (proj2 (Z.eqb_neq _ _)). Qed.

(** The fields a framed body has on the wire. *)
Definition framed (bf : TagMap) : TagMap :=
  let header := [(8, kBeginString); (9, to_string_u64 (Z.of_nat (length (fields_bytes bf))))] in
  header ++ bf ++ [(10, three_digits (compute_checksum (fields_bytes (header ++ bf))))].

Lemma frame_fields bf : fix_frame (fields_bytes bf) = fields_bytes (framed bf).
Proof.
  unfold fix_frame, framed, append_uint_field. change (@nil Z) with (fields_bytes []).
  rewrite !append_field_bytes. cbn [app].
  assert (∀ a b, fields_bytes (a ++ b) = fields_bytes a ++ fields_bytes b) as Happ.
  { intros. unfold fields_bytes. by rewrite fmap_app, concat_app. }
  rewrite <- Happ, append_field_bytes. done.
Qed.

(** A body whose first field is MsgType, of well-formed fields, none a CheckSum. *)
Record wf_body (bf : TagMap) : Prop := {
  wb_type : ∃ v rest, bf = (35, v) :: rest;
  wb_fields : Forall wf_field bf;
  wb_tags : Forall (λ f, f.1 ≠ 10) bf;
  wb_size : Z.of_nat (length (fields_bytes bf)) < 9223372036854775808 }.

Lemma fields_bytes_app a b : fields_bytes (a ++ b) = fields_bytes a ++ fields_bytes b.
Proof. unfold fields_bytes. by rewrite fmap_app, concat_app. Qed.

Lemma fields_bytes_cons f fs : fields_bytes (f :: fs) = field_bytes f ++ fields_bytes fs.
Proof. done. Qed.

Lemma fields_bytes_one t v : fields_bytes [(t, v)] = to_string_i64 t ++ [61] ++ v ++ [kSOH].
Proof. rewrite fields_bytes_cons. apply app_nil_r. Qed.

Lemma fields_bytes_end fs : fs ≠ [] → ∃ init, fields_bytes fs = init ++ [kSOH].
Proof.
  intros Hne. destruct (exists_last Hne) as (a & [t v] & ->). rewrite fields_bytes_app, fields_bytes_one.
  exists (fields_bytes a ++ to_string_i64 t ++ [61] ++ v). by rewrite <- !app_assoc.
Qed.

Lemma find_hit p s i : find_sub p (p ++ s) i = Some i.
Proof.
  assert (has_prefix p (p ++ s) = true) as H.
  { unfold has_prefix. rewrite take_app_length. by apply bool_decide_true. }
  destruct (p ++ s) eqn:E; cbn [find_sub]; by rewrite H.
Qed.

Definition frame_header (len : list Z) : TagMap := [(8, kBeginString); (9, len)].

Lemma frame_header_bytes len rest :
  fields_bytes (frame_header len) ++ rest = str "8=FIX.4.2" ++ kSOH :: (str "9=" ++ len) ++ kSOH :: rest.
Proof.
  unfold frame_header. rewrite fields_bytes_cons, fields_bytes_one. unfold field_bytes. cbn [fst snd].
  rewrite <- !app_assoc. reflexivity.
Qed.

Lemma frame_header_wf n :
  in_u64 n → Forall wf_field (frame_header (to_string_u64 n)) ∧ Forall (λ f, f.1 ≠ 10) (frame_header (to_string_u64 n)).
Proof.
  intros Hn. split; repeat constructor; simpl; try lia; [by vm_compute; set_solver|]. by apply to_string_no_soh.
Qed.

(** The search for MsgType stops at the end of the header. *)
Lemma find_body len v rest :
  no_soh len →
  find_sub (kSOH :: str "35=") (fields_bytes (frame_header len) ++ fields_bytes [(35, v)] ++ rest) 0 =
  Some (length (fields_bytes (frame_header len)) - 1)%nat.
Proof.
  intros Hl. rewrite frame_header_bytes.
  assert (length (fields_bytes (frame_header len)) = 13 + length len)%nat as ->.
  { pose proof (f_equal length (frame_header_bytes len [])) as E. rewrite app_nil_r in E. rewrite E.
    repeat rewrite ?length_app, ?length_cons. simpl. lia. }
  rewrite find_skip by (vm_compute; set_solver).
  assert (∀ i, find_sub (kSOH :: str "35=") (kSOH :: (str "9=" ++ len) ++ kSOH :: fields_bytes [(35, v)] ++ rest) i =
               find_sub (kSOH :: str "35=") ((str "9=" ++ len) ++ kSOH :: fields_bytes [(35, v)] ++ rest) (S i)) as ->
    by done.
  rewrite find_skip.
  - rewrite fields_bytes_one.
    change (to_string_i64 35) with (str "35"). rewrite <- !app_assoc.
    change (kSOH :: str "35" ++ [61] ++ v ++ [kSOH] ++ rest) with ((kSOH :: str "35=") ++ v ++ [kSOH] ++ rest).
    rewrite find_hit, length_app. f_equal; simpl; lia.
  - rewrite elem_of_app. intros [H|H]; [|done]. vm_compute in H. set_solver.
Qed.

(** The last checksum field is found at the SOH before it. *)
Lemma rfind_last fs v :
  fs ≠ [] →
  let before := fields_bytes fs in
  fields_bytes (fs ++ [(10, three_digits v)]) = before ++ str "10=" ++ three_digits v ++ [kSOH] ∧
  (0 < length before)%nat ∧
  rfind_sub (kSOH :: str "10=") (fields_bytes (fs ++ [(10, three_digits v)])) 0 = Some (length before - 1)%nat.
Proof.
  intros Hne before. assert (Eraw : fields_bytes (fs ++ [(10, three_digits v)]) =
    before ++ str "10=" ++ three_digits v ++ [kSOH]) by (by rewrite fields_bytes_app, fields_bytes_one).
  destruct (fields_bytes_end fs) as [init Einit]; [done|]. fold before in Einit.
  split; [done|]. split; [rewrite Einit, length_app; simpl; lia|].
  rewrite Eraw, Einit, <- app_assoc. apply rfind_app. cbn [app].
  replace (0 + length init)%nat with (length (init ++ [kSOH]) - 1)%nat by (rewrite length_app; simpl; lia).
  pose proof (three_digits_no_soh v) as Hno. unfold three_digits in *. unfold no_soh in Hno.
  rewrite !not_elem_of_cons in Hno. destruct Hno as (H1 & H2 & H3 & _). apply rfind_checksum; congruence.
Qed.

(** The two boundaries the envelope check looks for. *)
Lemma framed_boundaries bf :
  wf_body bf →
  let before := fields_bytes (frame_header (to_string_u64 (Z.of_nat (length (fields_bytes bf)))) ++ bf) in
  rfind_sub (kSOH :: str "10=") (fields_bytes (framed bf)) 0 = Some (length before - 1)%nat ∧
  take (length before) (fields_bytes (framed bf)) = before ∧ (0 < length before)%nat ∧
  compute_body_length (fields_bytes (framed bf)) = Z.of_nat (length (fields_bytes bf)).
Proof.
  intros [(v & rest & Hbf) Hf Ht Hsz] before.
  set (len := to_string_u64 (Z.of_nat (length (fields_bytes bf)))) in *.
  set (ck := compute_checksum before).
  destruct (rfind_last (frame_header len ++ bf) ck) as (Eraw & Hpos & Er); [done|].
  assert (fields_bytes (framed bf) = fields_bytes ((frame_header len ++ bf) ++ [(10, three_digits ck)])) as E
    by (unfold framed; fold len; by rewrite app_assoc).
  rewrite <- E in Eraw, Er. fold before in Eraw, Er, Hpos.
  split; [done|]. split; [by rewrite Eraw, take_app_length|]. split; [done|].
  assert (in_u64 (Z.of_nat (length (fields_bytes bf)))) as Hu by (u64; lia).
  pose proof (find_body len v (fields_bytes rest ++ str "10=" ++ three_digits ck ++ [kSOH])
                (proj1 (to_string_no_soh _ Hu))) as Ef.
  assert (before = fields_bytes (frame_header len) ++ fields_bytes bf) as Eb by apply fields_bytes_app.
  unfold compute_body_length. rewrite Er, Eraw, Eb. rewrite Hbf at 1.
  change ((35, v) :: rest) with ([(35, v)] ++ rest) at 1. rewrite fields_bytes_app, <- !app_assoc, Ef.
  destruct (fields_bytes_end bf) as [i2 Ei2]; [by rewrite Hbf|].
  assert (0 < length (fields_bytes bf))%nat by (rewrite Ei2, length_app; simpl; lia).
  assert (0 < length (fields_bytes (frame_header len)))%nat by (unfold frame_header; rewrite fields_bytes_cons; simpl; lia).
  rewrite length_app. case (Nat.leb_spec (S (length (fields_bytes (frame_header len)) + length (fields_bytes bf) - 1))
    (S (length (fields_bytes (frame_header len)) - 1))); intros; lia.
Qed.

(** What is framed is accepted, and read back field by field. *)
Lemma parse_framed bf : wf_body bf → parse_validated (fix_frame (fields_bytes bf)) = inl (framed bf).
Proof.
  intros Hwf. rewrite frame_fields. destruct (framed_boundaries bf Hwf) as (Er & Etake & Hpos & Ebl).
  destruct Hwf as [_ Hf Ht Hsz].
  assert (Forall wf_field (framed bf)) as Hwf.
  { unfold framed. rewrite !Forall_app. split_and!; [|done|].
    - apply frame_header_wf. u64; lia.
    - repeat constructor; simpl; try lia. apply three_digits_no_soh. }
  assert (fix_tokenize (fields_bytes (framed bf)) = inl (framed bf)) as Etok.
  { unfold fix_tokenize. destruct (fields_bytes (framed bf)) eqn:E; [discriminate E|]. rewrite <- E.
    apply tokenize_fields_bytes; [done|]. apply length_fields_bytes. }
  unfold parse_validated. rewrite Etok, Er, Ebl. rewrite <- Nat.sub_succ_l, Nat.sub_succ, Nat.sub_0_r, Etake by lia.
  unfold framed. rewrite tag_get_app. cbn [tag_get fst snd Z.eqb Pos.eqb app].
  rewrite tag_get_app, (tag_get_none 10) by done. cbn [tag_get fst snd Z.eqb Pos.eqb].
  rewrite three_digits_read by apply checksum_range. unfold frame_header. cbn [app]. rewrite Z.eqb_refl. cbn [negb].
  rewrite decimal_read by lia. by rewrite (proj2 (Z.ltb_ge _ _)), Z.eqb_refl by lia.
Qed.

(** ** Reading numbers back *)

Lemma u64_field_read map t v :
  in_u64 v → tag_get t map = Some (to_string_u64 v) → parse_uint64_field map t = Some v.
Proof.
  intros Hv E. unfold parse_uint64_field. rewrite E.
  pose proof (from_chars_u64_print v [] Hv I) as Hr. rewrite app_nil_r in Hr.
  destruct (to_string_u64_spec v Hv) as (Hd & Hne & _). destruct (to_string_u64 v); [done|]. by rewrite Hr.
Qed.

Lemma i64_field_read map t v :
  in_i64 v → tag_get t map = Some (to_string_i64 v) → parse_int64_field map t = Some v.
Proof.
  intros Hv E. unfold parse_int64_field. rewrite E.
  pose proof (from_chars_i64_print v [] Hv I) as Hr. rewrite app_nil_r in Hr.
  destruct (to_string_i64 v); [discriminate Hr|]. by rewrite Hr.
Qed.

(** A tag other than 8, 9 and 10 is looked up in the body. *)
Lemma tag_get_framed t bf : t ≠ 8 → t ≠ 9 → t ≠ 10 → tag_get t (framed bf) = tag_get t bf.
Proof.
  intros H8 H9 H10. unfold framed. cbn [app tag_get fst snd].
  rewrite (proj2 (Z.eqb_neq 8 t)), (proj2 (Z.eqb_neq 9 t)) by congruence.
  rewrite tag_get_app. destruct (tag_get t bf); [done|]. cbn [tag_get fst].
  by rewrite (proj2 (Z.eqb_neq 10 t)) by congruence.
Qed.

Ltac frame_tag := rewrite tag_get_framed by done; reflexivity.

(** ** Execution reports *)

Definition side_text (s : Side) : list Z := match s with Buy => str "1" | Sell => str "2" end.

(** The body of an execution report, field by field. *)
Definition report_fields (time : Z → list Z) (ctx : ExecReportContext) (r : EngineResponse) (enc : FixEncoder)
    : TagMap :=
  let st := ord_status_for r (ctx_original_qty ctx) (ctx_is_cancel ctx) in
  [(35, str "8"); (49, sender_comp_id_ enc); (56, target_comp_id_ enc);
   (34, to_string_u64 (next_seq_num_ enc)); (52, time (next_seq_num_ enc));
   (37, to_string_u64 (ctx_order_id ctx)); (11, to_string_u64 (ctx_order_id ctx));
   (17, to_string_u64 (next_exec_id_ enc)); (39, [st]); (150, [st]); (54, side_text (ctx_side ctx));
   (55, kSupportedSymbol); (14, to_string_u64 (total_filled r)); (151, to_string_u64 (remaining_qty r))].

Lemma encode_report_frames time ctx r enc :
  (encode_execution_report time ctx r enc).1 = fix_frame (fields_bytes (report_fields time ctx r enc)).
Proof.
  unfold encode_execution_report, append_uint_field. cbn [fst]. change (@nil Z) with (fields_bytes []) at 1.
  by rewrite !append_field_bytes.
Qed.

Lemma total_filled_range r : in_u64 (total_filled r).
Proof.
  unfold total_filled.
  assert (∀ ts a, in_u64 a → in_u64 (foldl (λ filled t, u64_add filled (t_quantity t)) a ts)) as H.
  { induction ts as [|t ts IH]; intros a Ha; simpl; [done|]. apply IH. apply wrap64_range. }
  apply H. u64; lia.
Qed.

Lemma ord_status_no_soh r q c : no_soh [ord_status_for r q c].
Proof. unfold ord_status_for, no_soh, kSOH. rewrite list_elem_of_singleton. repeat case_match; lia. Qed.

(** What a session's texts and counters satisfy. *)
Record wf_encoder (time : Z → list Z) (enc : FixEncoder) : Prop := {
  we_sender : no_soh (sender_comp_id_ enc);
  we_target : no_soh (target_comp_id_ enc);
  we_time : ∀ n, no_soh (time n);
  we_seq : in_u64 (next_seq_num_ enc);
  we_exec : in_u64 (next_exec_id_ enc) }.

Lemma report_fields_wf time ctx r enc :
  wf_encoder time enc → in_u64 (ctx_order_id ctx) → in_u64 (remaining_qty r) →
  Forall wf_field (report_fields time ctx r enc).
Proof.
  intros [? ? ? ? ?] Hid Hrem. pose proof (total_filled_range r) as Hf.
  pose proof (ord_status_no_soh r (ctx_original_qty ctx) (ctx_is_cancel ctx)) as Hst.
  unfold report_fields.
  repeat match goal with |- Forall _ (_ :: _) => constructor | |- Forall _ [] => constructor end;
    split; cbn [fst snd]; try lia; try done; try (by apply to_string_no_soh).
  - vm_compute; set_solver.
  - destruct (ctx_side ctx); vm_compute; set_solver.
  - vm_compute; set_solver.
Qed.

(** Every execution report the encoder produces passes the envelope check (its BodyLength and
    CheckSum are right) and reads back: the order id as OrderID and ClOrdID, the status mapped from
    the engine's result, the side, the filled and remaining quantities, and the session's message
    and execution numbers, which the report advances by one. *)
Theorem exec_report_valid time ctx r enc :
  wf_encoder time enc → in_u64 (ctx_order_id ctx) → in_u64 (remaining_qty r) →
  Z.of_nat (length (fields_bytes (report_fields time ctx r enc))) < 9223372036854775808 →
  ∃ map,
    parse_validated (encode_execution_report time ctx r enc).1 = inl map ∧
    tag_get 35 map = Some (str "8") ∧
    parse_uint64_field map 34 = Some (next_seq_num_ enc) ∧
    parse_uint64_field map 37 = Some (ctx_order_id ctx) ∧
    parse_uint64_field map 11 = Some (ctx_order_id ctx) ∧
    parse_uint64_field map 17 = Some (next_exec_id_ enc) ∧
    tag_get 39 map = Some [ord_status_for r (ctx_original_qty ctx) (ctx_is_cancel ctx)] ∧
    side_field map = inl (ctx_side ctx) ∧
    parse_uint64_field map 14 = Some (total_filled r) ∧
    parse_uint64_field map 151 = Some (remaining_qty r) ∧
    (encode_execution_report time ctx r enc).2 =
      mkEncoder (sender_comp_id_ enc) (target_comp_id_ enc) (wrap64 (next_seq_num_ enc + 1))
                (wrap64 (next_exec_id_ enc + 1)).
Proof.
  intros Henc Hid Hrem Hsz. pose proof (total_filled_range r).
  exists (framed (report_fields time ctx r enc)). rewrite encode_report_frames, parse_framed.
  2: { split; [eauto|by apply report_fields_wf| |done]. by repeat constructor. }
  destruct Henc.
  split_and!; try done; try (apply u64_field_read; [done|frame_tag]); try frame_tag.
  unfold side_field. rewrite tag_get_framed by done. cbn. by destruct (ctx_side ctx).
Qed.

(** ** Orders and cancels *)

(** The session header a counterparty sends: any fields whose tags no business field has. *)
Definition wf_header (hdr : TagMap) : Prop :=
  Forall wf_field hdr ∧ Forall (λ f, f.1 ∉ [10; 11; 35; 38; 40; 41; 44; 54; 55]) hdr.

Definition order_fields (hdr : TagMap) (o : NewOrder) : TagMap :=
  (35, str "D") :: hdr ++
  [(11, to_string_u64 (new_order_id o)); (55, kSupportedSymbol); (54, side_text (new_order_side o));
   (38, to_string_u64 (new_order_quantity o))] ++
  match o with
  | NLimit l => [(40, str "2"); (44, to_string_i64 (lo_price l))]
  | NMarket _ => [(40, str "1")]
  end.

Definition cancel_fields (hdr : TagMap) (id : Z) : TagMap :=
  (35, str "F") :: hdr ++ [(41, to_string_u64 id)].

Lemma tag_get_header t hdr bf :
  wf_header hdr → t ∈ [10; 11; 35; 38; 40; 41; 44; 54; 55] → tag_get t (hdr ++ bf) = tag_get t bf.
Proof.
  intros [_ Hh] Ht. rewrite tag_get_app, tag_get_none; [done|].
  eapply Forall_impl; [exact Hh|]. intros f Hf Heq. apply Hf. by rewrite Heq.
Qed.

Lemma tag_get_business t m hdr bf :
  wf_header hdr → t ∈ [11; 38; 40; 41; 44; 54; 55] →
  tag_get t (framed ((35, m) :: hdr ++ bf)) = tag_get t bf.
Proof.
  intros Hh Ht. assert (t ≠ 8 ∧ t ≠ 9 ∧ t ≠ 10 ∧ 35 ≠ t) as (?&?&?&?).
  { set_unfold in Ht. lia. }
  rewrite tag_get_framed by done. cbn [tag_get fst]. rewrite (proj2 (Z.eqb_neq 35 t)) by done.
  apply tag_get_header; [done|]. set_solver.
Qed.

Ltac business H := rewrite H by set_solver; reflexivity.

Lemma side_text_no_soh s : no_soh (side_text s).
Proof. destruct s; vm_compute; set_solver. Qed.

Lemma i64_no_soh v : in_i64 v → no_soh (to_string_i64 v).
Proof.
  intros Hv. unfold to_string_i64. u64. destruct (Z.ltb_spec v 0).
  - unfold no_soh. apply not_elem_of_cons. split; [done|]. apply to_string_no_soh. u64; lia.
  - apply to_string_no_soh. u64; lia.
Qed.

(** The parser reads an order's fields as the order. *)
Lemma parse_order_fields hdr o :
  wf_header hdr → wf_new_order o → new_order_quantity o ≠ 0 →
  fix_parse (framed (order_fields hdr o)) (new_order_owner o) = inl (PMNew o).
Proof.
  intros Hh (Hid & _ & Hq & Hp) Hq0. unfold order_fields in *.
  set (bf := _ ++ match o with NLimit _ => _ | NMarket _ => _ end).
  set (map := framed _).
  assert (∀ t, t ∈ [11; 38; 40; 41; 44; 54; 55] → tag_get t map = tag_get t bf) as Hget
    by (intros; by apply tag_get_business).
  assert (parse_uint64_field map 11 = Some (new_order_id o)) as E11 by (apply u64_field_read; [done|business Hget]).
  assert (parse_uint64_field map 38 = Some (new_order_quantity o)) as E38 by (apply u64_field_read; [done|business Hget]).
  assert (tag_get 55 map = Some kSupportedSymbol) as E55 by business Hget.
  assert (tag_get 54 map = Some (side_text (new_order_side o))) as E54 by business Hget.
  assert (tag_get 35 map = Some (str "D")) as E35 by (unfold map; frame_tag).
  assert (side_field map = inl (new_order_side o)) as Es.
  { unfold side_field. rewrite E54. by destruct (new_order_side o). }
  unfold fix_parse. rewrite E35. rewrite decide_True by done. unfold parse_new_order_single.
  rewrite E11, E55, Es, E38. rewrite bool_decide_true by done. cbn [negb].
  assert (tag_get 40 map = Some (match o with NLimit _ => str "2" | NMarket _ => str "1" end)) as ->
    by (rewrite Hget by set_solver; by destruct o).
  destruct (new_order_quantity o) eqn:Eq; [done| |u64; lia]; rewrite <- Eq in *.
  destruct o as [l|m]; cbn [new_order_id new_order_side new_order_quantity new_order_owner] in *.
  - rewrite decide_True by done. rewrite (i64_field_read map 44 (lo_price l)); [by destruct l|done|business Hget].
  - rewrite decide_False, decide_True by done. by destruct m.
Qed.

(** Fields after the session header, each well formed and none a CheckSum. *)
Lemma wf_body_intro m hdr bf :
  no_soh m → wf_header hdr → Forall (λ f, wf_field f ∧ f.1 ≠ 10) bf →
  Z.of_nat (length (fields_bytes ((35, m) :: hdr ++ bf))) < 9223372036854775808 →
  wf_body ((35, m) :: hdr ++ bf).
Proof.
  intros Hm [Hf Ht] Hbf Hsz. apply Forall_and in Hbf as [Hbf Hbt].
  split; [eauto| | |done]; (constructor; [by try split|apply Forall_app; split; try done]).
  eapply Forall_impl; [exact Ht|]. intros f Hn Heq. apply Hn. rewrite Heq. set_solver.
Qed.

Lemma order_fields_wf hdr o :
  wf_header hdr → wf_new_order o →
  Z.of_nat (length (fields_bytes (order_fields hdr o))) < 9223372036854775808 → wf_body (order_fields hdr o).
Proof.
  intros Hh (Hid & _ & Hq & Hp) Hsz. apply wf_body_intro; [by vm_compute; set_solver|done| |done].
  pose proof (side_text_no_soh (new_order_side o)).
  assert (Hmini : no_soh kSupportedSymbol) by (vm_compute; set_solver).
  assert (H1 : no_soh (str "1")) by (vm_compute; set_solver).
  assert (H2 : no_soh (str "2")) by (vm_compute; set_solver).
  destruct o as [l|m]; cbn [app];
    repeat match goal with |- Forall _ (_ :: _) => constructor | |- Forall _ [] => constructor end;
    (split; [split; cbn [fst snd]; [lia|]|done]);
    first [done|by apply to_string_no_soh|by apply i64_no_soh].
Qed.

Lemma cancel_fields_wf hdr id :
  wf_header hdr → in_u64 id →
  Z.of_nat (length (fields_bytes (cancel_fields hdr id))) < 9223372036854775808 → wf_body (cancel_fields hdr id).
Proof.
  intros Hh Hid Hsz. apply wf_body_intro; [by vm_compute; set_solver|done| |done].
  repeat constructor; cbn [fst snd]; try lia. by apply to_string_no_soh.
Qed.

Lemma parse_cancel_fields hdr id owner :
  wf_header hdr → in_u64 id → fix_parse (framed (cancel_fields hdr id)) owner = inl (PMCancel (mkCancel id)).
Proof.
  intros Hh Hid. unfold fix_parse.
  assert (tag_get 35 (framed (cancel_fields hdr id)) = Some (str "F")) as -> by frame_tag.
  rewrite decide_False, decide_True by done. unfold parse_cancel_request.
  rewrite (u64_field_read _ 41 id); [done|done|].
  unfold cancel_fields. rewrite tag_get_business by (done || set_solver). done.
Qed.

(** C25. A framed 35=D message with an order's fields, whatever header fields surround them, submits
    exactly that order to the engine, owned by the session's client, and a 35=F message cancels exactly
    the order it names; the session answers with the execution report of the engine's response, and
    keeps the engine's new state and the advanced message numbers. *)
Theorem fix_message_reaches_engine {E} `{EngineAPI E} time hdr o id (s : FixSession E) :
  wf_header hdr → wf_new_order o → new_order_quantity o ≠ 0 → new_order_owner o = client_id_ s → in_u64 id →
  Z.of_nat (length (fields_bytes (order_fields hdr o))) < 9223372036854775808 →
  Z.of_nat (length (fields_bytes (cancel_fields hdr id))) < 9223372036854775808 →
  handle_message time (fix_frame (fields_bytes (order_fields hdr o))) s =
    ('(r, e) ← api_submit o (engine_ s);
     let rep := encode_execution_report time
                  (mkCtx (new_order_id o) (new_order_side o) (new_order_quantity o) false) r (encoder_ s) in
     Ok (inl rep.1, mkSession e (client_id_ s) rep.2)) ∧
  handle_message time (fix_frame (fields_bytes (cancel_fields hdr id))) s =
    ('(r, e) ← api_cancel id (engine_ s);
     let rep := encode_execution_report time (mkCtx id Buy 0 true) r (encoder_ s) in
     Ok (inl rep.1, mkSession e (client_id_ s) rep.2)).
Proof.
  intros Hh Ho Hq Hown Hid Hs1 Hs2. unfold handle_message. split.
  - rewrite (parse_framed _ (order_fields_wf hdr o Hh Ho Hs1)), <- Hown, (parse_order_fields hdr o Hh Ho Hq).
    rewrite Hown. unfold context_from_new_order. destruct (api_submit o (engine_ s)) as [[r e]| |]; reflexivity.
  - rewrite (parse_framed _ (cancel_fields_wf hdr id Hh Hid Hs2)), (parse_cancel_fields hdr id _ Hh Hid).
    cbn [cr_id]. destruct (api_cancel id (engine_ s)) as [[r e]| |]; reflexivity.
Qed.

(** ** Corrupted messages *)

Lemma checksum_sum bs : compute_checksum bs = foldr Z.add 0 bs mod 256.
Proof.
  unfold compute_checksum.
  assert (∀ l a b, a mod 256 = b mod 256 →
    foldl (λ sum c, wrap32 (sum + c)) a l mod 256 = (b + foldr Z.add 0 l) mod 256) as H.
  { induction l as [|c l IH]; intros a b E; cbn [foldl foldr]; [by rewrite Z.add_0_r|].
    rewrite (IH _ (b + c)); [f_equal; lia|]. unfold wrap32.
    rewrite Z.mod_mod_divide by (by exists 16777216). rewrite Z.add_mod, E, <- Z.add_mod by done. done. }
  by rewrite (H bs 0 0).
Qed.

Lemma sum_app a b : foldr Z.add 0 (a ++ b) = foldr Z.add 0 a + foldr Z.add 0 b.
Proof. induction a; simpl; lia. Qed.

(** Changing one byte changes the checksum. *)
Lemma checksum_detects pre c c' post :
  0 <= c < 256 → 0 <= c' < 256 → c ≠ c' →
  compute_checksum (pre ++ c :: post) ≠ compute_checksum (pre ++ c' :: post).
Proof.
  intros Hc Hc' Hne E. rewrite !checksum_sum, !sum_app in E. cbn [foldr] in E.
  apply Hne. rewrite <- (Z.mod_small c 256), <- (Z.mod_small c' 256) by done.
  set (p := foldr Z.add 0 pre) in *. set (q := foldr Z.add 0 post) in *.
  replace c with (p + (c + q) - (p + q)) by lia. replace c' with (p + (c' + q) - (p + q)) by lia.
  by rewrite Zminus_mod, E, <- Zminus_mod.
Qed.

(** A message with fields [fs] and a checksum that is not theirs. *)
Lemma wrong_checksum fs v :
  fs ≠ [] → Forall wf_field fs → Forall (λ f, f.1 ≠ 10) fs → 0 <= v < 256 →
  compute_checksum (fields_bytes fs) ≠ v →
  ∃ d, parse_validated (fields_bytes (fs ++ [(10, three_digits v)])) = inr (mkFixError ChecksumMismatch 10 d).
Proof.
  intros Hne Hf Ht Hv Hck. destruct (rfind_last fs v Hne) as (Eraw & Hpos & Er).
  assert (fix_tokenize (fields_bytes (fs ++ [(10, three_digits v)])) = inl (fs ++ [(10, three_digits v)])) as Etok.
  { unfold fix_tokenize. destruct (fields_bytes (fs ++ [(10, three_digits v)])) as [|x raw] eqn:E.
    { by destruct (fields_bytes fs). }
    rewrite <- E. apply (tokenize_fields_bytes (fs ++ [(10, three_digits v)]) _ []); [|apply length_fields_bytes].
    apply Forall_app. split; [done|]. repeat constructor; simpl; try lia. apply three_digits_no_soh. }
  unfold parse_validated. rewrite Etok, Er, tag_get_app, (tag_get_none 10) by done. cbn [tag_get fst snd Z.eqb Pos.eqb].
  rewrite three_digits_read by done.
  replace (S (length (fields_bytes fs) - 1)) with (length (fields_bytes fs)) by lia.
  rewrite Eraw, take_app_length. rewrite (proj2 (Z.eqb_neq _ _)) by congruence. cbn [negb]. eauto.
Qed.

(** A byte of a body value: [c], with [pre] before it in the framed message and [post] after it. *)
Definition value_byte (bf : TagMap) (pre : list Z) (c : Z) (post : list Z) : Prop :=
  ∃ a t u w b,
    bf = a ++ (t, u ++ c :: w) :: b ∧
    pre = fields_bytes (frame_header (to_string_u64 (Z.of_nat (length (fields_bytes bf)))) ++ a) ++
          to_string_i64 t ++ [61] ++ u ∧
    fix_frame (fields_bytes bf) = pre ++ c :: post.

(** Corrupting any one byte of any field value of a framed message (to anything but the field
    separator) is caught: the session reports a checksum mismatch, and neither the engine nor the
    session's message numbers change. *)
Theorem corrupted_message_rejected {E} `{EngineAPI E} time (s : FixSession E) bf pre c c' post :
  wf_body bf → value_byte bf pre c post →
  0 <= c < 256 → 0 <= c' < 256 → c ≠ c' → c' ≠ kSOH →
  ∃ d, handle_message time (pre ++ c' :: post) s = Ok (inr (mkFixError ChecksumMismatch 10 d), s).
Proof.
  intros [Hty Hf Ht Hsz] (a & t & u & w & b & Ebf & Epre & Eraw) Hc Hc' Hne Hs.
  rewrite frame_fields in Eraw. unfold framed in Eraw.
  set (len := to_string_u64 (Z.of_nat (length (fields_bytes bf)))) in *.
  fold (frame_header len) in Eraw. set (v := compute_checksum _) in Eraw.
  set (fs' := frame_header len ++ a ++ (t, u ++ c' :: w) :: b).
  set (mid := w ++ [kSOH] ++ fields_bytes b).
  assert (Hsplit : ∀ x, fields_bytes (frame_header len ++ a ++ (t, u ++ x :: w) :: b) = pre ++ x :: mid).
  { intros x. rewrite app_assoc, fields_bytes_app, fields_bytes_cons, Epre. unfold field_bytes, mid. cbn [fst snd].
    by rewrite <- !app_assoc. }
  assert (pre ++ c' :: post = fields_bytes (fs' ++ [(10, three_digits v)])) as ->.
  { rewrite fields_bytes_app. unfold fs'. rewrite Hsplit, <- app_assoc. cbn [app]. do 2 f_equal.
    rewrite (app_assoc (frame_header len)), fields_bytes_app, Ebf, Hsplit, <- app_assoc in Eraw.
    apply app_inv_head in Eraw. by injection Eraw. }
  assert (in_u64 (Z.of_nat (length (fields_bytes bf)))) as Hu by (u64; lia).
  destruct (wrong_checksum fs' v) as [d Hd].
  - done.
  - apply Forall_app. split; [by apply frame_header_wf|]. subst bf. rewrite Forall_app, Forall_cons in *.
    destruct Hf as (? & [Hr Hv] & ?). split_and!; [done|split; [done|]|done]. cbn [snd] in *. unfold no_soh in *.
    rewrite elem_of_app, elem_of_cons in *. naive_solver.
  - apply Forall_app. split; [by apply frame_header_wf|]. subst bf. rewrite Forall_app, Forall_cons in *. done.
  - apply checksum_range.
  - unfold v, fs'. rewrite Ebf, !Hsplit. apply not_eq_sym. by apply checksum_detects.
  - exists d. unfold handle_message. by rewrite Hd.
Qed.

(** ** Witnesses *)

#[local] Instance fix_demo_api : EngineAPI (MatchingEngine (list Event)) := matching_engine_api Undefined.

Definition fix_demo_time (_ : Z) : list Z := str "20260101-00:00:00".

Definition fix_demo_session : FixSession (MatchingEngine (list Event)) :=
  mkSession (MatchingEngine_new [] 8 StpConfig_default) 7 (FixEncoder_new (str "MINI") (str "PEER")).

Definition fix_demo_order : NewOrder := NLimit (mkLimit 42 Buy 10050 5 7).

Definition fix_demo_header : TagMap := [(49, str "PEER"); (56, str "MINI"); (34, str "1")].

Lemma fix_demo_header_wf : wf_header fix_demo_header.
Proof.
  split.
  - repeat constructor; cbn [fst snd]; try lia; vm_compute; set_solver.
  - repeat constructor; cbn [fst]; set_solver.
Qed.

Lemma fix_demo_order_wf : wf_new_order fix_demo_order.
Proof. repeat split; vm_compute; congruence. Qed.

Lemma fix_demo_body_wf : wf_body (order_fields fix_demo_header fix_demo_order).
Proof. apply order_fields_wf; [apply fix_demo_header_wf|apply fix_demo_order_wf|vm_compute; reflexivity]. Qed.

Definition fix_demo_report : ExecReportContext := mkCtx 42 Sell 10 false.

Definition fix_demo_response : EngineResponse := mkResponse Accepted [mkTrade 0 1 42 10050 4 true] 6 42.

Lemma exec_report_valid_witness :
  ∃ map, parse_validated (encode_execution_report fix_demo_time fix_demo_report fix_demo_response
                            (FixEncoder_new (str "MINI") (str "PEER"))).1 = inl map ∧
         tag_get 39 map = Some (str "1") ∧ parse_uint64_field map 14 = Some 4 ∧ parse_uint64_field map 151 = Some 6.
Proof.
  destruct (exec_report_valid fix_demo_time fix_demo_report fix_demo_response (FixEncoder_new (str "MINI") (str "PEER")))
    as (map & Hm & _ & _ & _ & _ & _ & H39 & _ & H14 & H151 & _).
  - split; [vm_compute; set_solver|vm_compute; set_solver|intros n; vm_compute; set_solver|u64; simpl; lia|u64; simpl; lia].
  - u64; simpl; lia.
  - u64; simpl; lia.
  - vm_compute; reflexivity.
  - exists map. split; [exact Hm|]. split; [exact H39|]. split; [exact H14|exact H151].
Defined.

Lemma fix_message_reaches_engine_witness :
  ∃ report s', handle_message fix_demo_time
      (fix_frame (fields_bytes (order_fields fix_demo_header fix_demo_order))) fix_demo_session = Ok (inl report, s') ∧
    order_count (book_ (engine_ s')) = 1 ∧
    (∃ report2, handle_message fix_demo_time
      (fix_frame (fields_bytes (cancel_fields fix_demo_header 42))) fix_demo_session =
      Ok (inl report2, mkSession (engine_ fix_demo_session) 7 (mkEncoder (str "MINI") (str "PEER") 2 2))).
Proof.
  destruct (fix_message_reaches_engine fix_demo_time fix_demo_header fix_demo_order 42 fix_demo_session
    fix_demo_header_wf fix_demo_order_wf ltac:(discriminate) eq_refl ltac:(u64; lia) ltac:(vm_compute; reflexivity)
    ltac:(vm_compute; reflexivity)) as [H1 H2].
  rewrite H1, H2. vm_compute. eauto 10.
Defined.

Lemma corrupted_message_rejected_witness :
  let raw := fix_frame (fields_bytes (order_fields fix_demo_header fix_demo_order)) in
  ∃ d, raw !! 63%nat = Some 53 ∧
       handle_message fix_demo_time (<[63%nat := 54]> raw) fix_demo_session =
       Ok (inr (mkFixError ChecksumMismatch 10 d), fix_demo_session).
Proof.
  cbv zeta.
  set (raw := fix_frame (fields_bytes (order_fields fix_demo_header fix_demo_order))).
  destruct (corrupted_message_rejected fix_demo_time fix_demo_session
    (order_fields fix_demo_header fix_demo_order) (take 63 raw) 53 54 (drop 64 raw)) as [d Hd].
  - apply fix_demo_body_wf.
  - eexists ((35, str "D") :: fix_demo_header ++ [(11, str "42"); (55, str "MINI"); (54, str "1")]), 38, [], [],
      [(40, str "2"); (44, str "10050")].
    split; [vm_compute; reflexivity|]. split; vm_compute; reflexivity.
  - lia.
  - lia.
  - lia.
  - discriminate.
  - exists d. split; [vm_compute; reflexivity|exact Hd].
Defined.
