(* ===== verification/Strategy.v ===== *)
(** * Strategy: strategy/ and apps/strategy_runner

    The two strategies as clients of the input port, and the runner that
    drives them over the risk layer and the matching engine.  A strategy holds
    a reference to the engine; here each handler takes the engine's state and
    returns it with the strategy's.  The runner's sink is the object the
    engine announces trades to: it lives inside the engine's state, and the
    runner empties it there. *)
From Stdlib Require Import String.
From Corelib Require Import SpecFloat.
From S2P Require Import Prelude Core Text OrderBook MatchingEngine EngineApi RiskEngine.

(** ** [int64_t] arithmetic: overflow is undefined *)

Definition i64_check (z : Z) : outcome Z :=
  if Z.leb (-9223372036854775808) z && Z.ltb z 9223372036854775808 then Ok z else Undefined.

Definition i64_add (a b : Z) : outcome Z := i64_check (a + b).

Definition i64_mul (a b : Z) : outcome Z := i64_check (a * b).

Definition i64_opp (a : Z) : outcome Z := i64_check (- a).

(** ** Strategy.hpp

    The virtual handlers; [on_response] is not overridden by either strategy. *)
Class Strategy (S E : Type) := {
  on_tick : S → E → outcome (S * E);
  on_trade_seen : Trade → S → E → outcome (S * E) }.

Definition on_response {S} (response : EngineResponse) (s : S) : S := s.

(** [OrderId{id.value * 1'000'000'000ULL + 1}]. *)
Definition first_order_id (id : Z) : Z := u64_add (wrap64 (id * 1000000000)) 1.

(** ** MarketMakerStrategy.{hpp,cpp} *)

Record MarketMakerConfig := mkMakerConfig {
  reference_price : Z; spread : Z; quote_size : Z; drift_per_tick : Z }.

Record MarketMaker := mkMaker {
  mm_id : Z;
  mm_config : MarketMakerConfig;
  mm_next_order_id : Z;
  bid_id_ : Z;
  ask_id_ : Z;
  quoting_ : bool;
  current_ref_ : Z;
  drift_dir_ : Z;
  drift_accum_ : Z }.

Definition MarketMaker_new (id : Z) (config : MarketMakerConfig) : MarketMaker :=
  mkMaker id config (first_order_id id) 0 0 false (reference_price config) 1 0.

(** Member assignments. *)
Definition set_bid_id (id : Z) (s : MarketMaker) : MarketMaker :=
  mkMaker (mm_id s) (mm_config s) (mm_next_order_id s) id (ask_id_ s) (quoting_ s) (current_ref_ s)
          (drift_dir_ s) (drift_accum_ s).

Definition set_ask_id (id : Z) (s : MarketMaker) : MarketMaker :=
  mkMaker (mm_id s) (mm_config s) (mm_next_order_id s) (bid_id_ s) id (quoting_ s) (current_ref_ s)
          (drift_dir_ s) (drift_accum_ s).

Definition set_quoting (s : MarketMaker) : MarketMaker :=
  mkMaker (mm_id s) (mm_config s) (mm_next_order_id s) (bid_id_ s) (ask_id_ s) true (current_ref_ s)
          (drift_dir_ s) (drift_accum_ s).

Definition set_drift (ref dir accum : Z) (s : MarketMaker) : MarketMaker :=
  mkMaker (mm_id s) (mm_config s) (mm_next_order_id s) (bid_id_ s) (ask_id_ s) (quoting_ s) ref dir accum.

Definition maker_fresh_id (s : MarketMaker) : Z * MarketMaker :=
  (mm_next_order_id s,
   mkMaker (mm_id s) (mm_config s) (u64_add (mm_next_order_id s) 1) (bid_id_ s) (ask_id_ s) (quoting_ s)
           (current_ref_ s) (drift_dir_ s) (drift_accum_ s)).

(** The clamped step of the oscillation: the new direction and accumulated drift. *)
Definition drift_step (s : MarketMaker) : outcome (Z * Z) :=
  bound ← i64_mul (spread (mm_config s)) 4;
  step ← i64_mul (drift_dir_ s) (drift_per_tick (mm_config s));
  accum ← i64_add (drift_accum_ s) step;
  if Z.ltb bound accum then Ok (-1, bound)
  else
    low ← i64_opp bound;
    Ok (if Z.ltb accum low then (1, low) else (drift_dir_ s, accum)).

Section MarketMakerOps.
Context {E : Type} `{EngineAPI E}.

(** Pull one quote, if there is one. *)
Definition pull_quote (id : Z) (e : E) : outcome E :=
  if Z.eqb id 0 then Ok e else '(_, e) ← api_cancel id e; Ok e.

(** Post one quote; its id if it is accepted and rests. *)
Definition post_quote (side : Side) (price : Z) (s : MarketMaker) (e : E)
    : outcome (option Z * MarketMaker * E) :=
  let '(id, s) := maker_fresh_id s in
  '(resp, e) ← api_submit (NLimit (mkLimit id side price (quote_size (mm_config s)) (mm_id s))) e;
  Ok (if bool_decide (status resp = Accepted) && Z.ltb 0 (remaining_qty resp) then Some id else None, s, e).

Definition requote (s : MarketMaker) (e : E) : outcome (MarketMaker * E) :=
  e ← pull_quote (bid_id_ s) e;
  let s := set_bid_id 0 s in
  e ← pull_quote (ask_id_ s) e;
  let s := set_ask_id 0 s in
  bid_px ← i64_sub (current_ref_ s) (spread (mm_config s));
  ask_px ← i64_add (current_ref_ s) (spread (mm_config s));
  '(new_bid, s, e) ← post_quote Buy bid_px s e;
  let s := match new_bid with Some id => set_bid_id id s | None => s end in
  '(new_ask, s, e) ← post_quote Sell ask_px s e;
  Ok (match new_ask with Some id => set_ask_id id s | None => s end, e).

Definition maker_on_tick (s : MarketMaker) (e : E) : outcome (MarketMaker * E) :=
  if negb (quoting_ s) then requote (set_quoting s) e
  else if negb (Z.eqb (drift_per_tick (mm_config s)) 0) then
    '(dir, accum) ← drift_step s;
    ref ← i64_add (reference_price (mm_config s)) accum;
    requote (set_drift ref dir accum s) e
  else Ok (s, e).

Definition maker_on_trade (trade : Trade) (s : MarketMaker) (e : E) : outcome (MarketMaker * E) :=
  let our_bid_hit := negb (Z.eqb (bid_id_ s) 0) && Z.eqb (buy_order_id trade) (bid_id_ s) in
  let our_ask_hit := negb (Z.eqb (ask_id_ s) 0) && Z.eqb (sell_order_id trade) (ask_id_ s) in
  if negb our_bid_hit && negb our_ask_hit then Ok (s, e)
  else
    let s := if our_bid_hit && resting_order_removed trade then set_bid_id 0 s else s in
    let s := if our_ask_hit && resting_order_removed trade then set_ask_id 0 s else s in
    requote s e.

#[global] Instance MarketMakerStrategy : Strategy MarketMaker E := {
  on_tick := maker_on_tick; on_trade_seen := maker_on_trade }.
End MarketMakerOps.

(** ** MomentumStrategy.{hpp,cpp} *)

Record MomentumConfig := mkMomentumConfig {
  lookback_n : nat; order_size : Z; signal_threshold : Z; probe_every_ticks : Z; probe_size : Z }.

Record Momentum := mkMomentum {
  mom_id : Z;
  mom_config : MomentumConfig;
  prices_ : list Z;
  mom_next_order_id : Z;
  tick_count_ : Z;
  probe_buy_ : bool }.

Definition Momentum_new (id : Z) (config : MomentumConfig) : Momentum :=
  mkMomentum id config [] (first_order_id id) 0 true.

Definition window_size (s : Momentum) : nat := length (prices_ s).

Definition set_prices (l : list Z) (s : Momentum) : Momentum :=
  mkMomentum (mom_id s) (mom_config s) l (mom_next_order_id s) (tick_count_ s) (probe_buy_ s).

Definition set_tick_count (n : Z) (s : Momentum) : Momentum :=
  mkMomentum (mom_id s) (mom_config s) (prices_ s) (mom_next_order_id s) n (probe_buy_ s).

Definition flip_probe (s : Momentum) : Momentum :=
  mkMomentum (mom_id s) (mom_config s) (prices_ s) (mom_next_order_id s) (tick_count_ s) (negb (probe_buy_ s)).

Definition momentum_fresh_id (s : Momentum) : Z * Momentum :=
  (mom_next_order_id s,
   mkMomentum (mom_id s) (mom_config s) (prices_ s) (u64_add (mom_next_order_id s) 1) (tick_count_ s)
              (probe_buy_ s)).

(** [push_back], then [pop_front] past [lookback_n] samples. *)
Definition window_push (n : nat) (price : Z) (l : list Z) : list Z :=
  let l := l ++ [price] in
  if Nat.ltb n (length l) then drop 1 l else l.

Section MomentumOps.
Context {E : Type} `{EngineAPI E}.

(** A market order of the strategy; its response goes to [on_response]. *)
Definition fire (side : Side) (size : Z) (s : Momentum) (e : E) : outcome (Momentum * E) :=
  let '(id, s) := momentum_fresh_id s in
  '(resp, e) ← api_submit (NMarket (mkMarket id side size (mom_id s))) e;
  Ok (on_response resp s, e).

(** The signal on a full window: newest price minus oldest. *)
Definition signal (s : Momentum) : outcome (option Side) :=
  newest ← deref (last (prices_ s));
  oldest ← deref (head (prices_ s));
  delta ← i64_sub newest oldest;
  if Z.ltb (signal_threshold (mom_config s)) delta then Ok (Some Buy)
  else
    neg ← i64_opp delta;
    Ok (if Z.ltb (signal_threshold (mom_config s)) neg then Some Sell else None).

Definition momentum_on_trade (trade : Trade) (s : Momentum) (e : E) : outcome (Momentum * E) :=
  let n := lookback_n (mom_config s) in
  let s := set_prices (window_push n (t_price trade) (prices_ s)) s in
  if Nat.ltb (length (prices_ s)) n || Nat.eqb n 0 then Ok (s, e)
  else
    dir ← signal s;
    match dir with
    | Some side => fire side (order_size (mom_config s)) s e
    | None => Ok (s, e)
    end.

Definition momentum_on_tick (s : Momentum) (e : E) : outcome (Momentum * E) :=
  if Z.eqb (probe_every_ticks (mom_config s)) 0 then Ok (s, e)
  else
    let s := set_tick_count (u64_add (tick_count_ s) 1) s in
    if negb (Z.eqb (tick_count_ s mod probe_every_ticks (mom_config s)) 0) then Ok (s, e)
    else
      let side := if probe_buy_ s then Buy else Sell in
      let '(id, s) := momentum_fresh_id s in
      let s := flip_probe s in
      '(resp, e) ← api_submit (NMarket (mkMarket id side (probe_size (mom_config s)) (mom_id s))) e;
      Ok (on_response resp s, e).

#[global] Instance MomentumStrategy : Strategy Momentum E := {
  on_tick := momentum_on_tick; on_trade_seen := momentum_on_trade }.
End MomentumOps.

(** ** apps/strategy_runner/main.cpp *)

(** [DeferredTradeSink]: records the trades announced during a call. *)
Record DeferredTradeSink := mkDeferred { pending_ : list Trade }.

#[global] Instance deferred_sink : EventSink DeferredTradeSink := {
  on_trade t s := mkDeferred (pending_ s ++ [t]);
  on_order_accepted _ s := s;
  on_order_cancelled _ s := s }.

Definition sink_drain (s : DeferredTradeSink) : list Trade * DeferredTradeSink := (pending_ s, mkDeferred []).

Definition sink_empty (s : DeferredTradeSink) : bool := bool_decide (pending_ s = []).

Record RunnerConfig := mkRunner { run_market_maker : bool; run_momentum : bool; ticks : Z }.

Definition RunnerConfig_default : RunnerConfig := mkRunner true true 5000.

(** [std::atoll]: a value that does not fit is undefined. *)
Definition atoll (s : list Z) : outcome Z := i64_check (ato_value s).

Fixpoint runner_args (args : list (list Z)) (cfg : RunnerConfig) : outcome RunnerConfig :=
  match args with
  | [] => Ok cfg
  | a :: args =>
      if bool_decide (a = str "--mm-only") then runner_args args (mkRunner true false (ticks cfg))
      else if bool_decide (a = str "--momentum-only") then runner_args args (mkRunner false true (ticks cfg))
      else if starts_with (str "--ticks=") a then
        n ← atoll (drop 8 a);
        runner_args args (mkRunner (run_market_maker cfg) (run_momentum cfg) (wrap64 n))
      else runner_args args cfg
  end.

(** A [Strategy*]: one of the two objects. *)
Inductive AnyStrategy := AMaker (s : MarketMaker) | AMomentum (s : Momentum).

Section Dispatch.
Context {E : Type} `{EngineAPI E}.

Definition dispatch_tick (s : AnyStrategy) (e : E) : outcome (AnyStrategy * E) :=
  match s with
  | AMaker s => '(s, e) ← on_tick s e; Ok (AMaker s, e)
  | AMomentum s => '(s, e) ← on_tick s e; Ok (AMomentum s, e)
  end.

Definition dispatch_trade (t : Trade) (s : AnyStrategy) (e : E) : outcome (AnyStrategy * E) :=
  match s with
  | AMaker s => '(s, e) ← on_trade_seen t s e; Ok (AMaker s, e)
  | AMomentum s => '(s, e) ← on_trade_seen t s e; Ok (AMomentum s, e)
  end.

(** [for (Strategy* s : strategies)]. *)
Fixpoint each_strategy (f : AnyStrategy → E → outcome (AnyStrategy * E)) (ss : list AnyStrategy) (e : E)
    : outcome (list AnyStrategy * E) :=
  match ss with
  | [] => Ok ([], e)
  | s :: ss =>
      '(s, e) ← f s e;
      '(ss, e) ← each_strategy f ss e;
      Ok (s :: ss, e)
  end.

(** [for (const Trade& tr : trades)]. *)
Fixpoint each_trade (ts : list Trade) (ss : list AnyStrategy) (e : E) : outcome (list AnyStrategy * E) :=
  match ts with
  | [] => Ok (ss, e)
  | t :: ts =>
      '(ss, e) ← each_strategy (dispatch_trade t) ss e;
      each_trade ts ss e
  end.
End Dispatch.

(** The engine of the runner; [sink] is the object its engine announces to. *)
Abbreviation RunnerEngine := (RiskEngine (MatchingEngine DeferredTradeSink)).

Definition runner_sink (e : RunnerEngine) : DeferredTradeSink := sink_ (inner_ e).

Definition set_runner_sink (s : DeferredTradeSink) (e : RunnerEngine) : RunnerEngine :=
  let m := inner_ e in
  mkRisk (mkEngine (book_ m) (last_accepted_id_ m) (client_resting_ m) (next_sequence_ m)
                   (next_trade_sequence_ m) s (stp_ m)) (config_ e) (reference_price_ e).

Section Runner.
Variable freed_empty : outcome bool.

#[local] Instance runner_api : EngineAPI (MatchingEngine DeferredTradeSink) := matching_engine_api freed_empty.

(** [while (!sink.empty() && guard++ < 1000)]: [guard] counts down here. *)
Fixpoint settle (guard : nat) (ss : list AnyStrategy) (e : RunnerEngine) (total : Z)
    : outcome (list AnyStrategy * RunnerEngine * Z) :=
  match guard with
  | O => Ok (ss, e, total)
  | S guard =>
      if sink_empty (runner_sink e) then Ok (ss, e, total)
      else
        let '(trades, sink) := sink_drain (runner_sink e) in
        let e := set_runner_sink sink e in
        let total := u64_add total (Z.of_nat (length trades)) in
        '(ss, e) ← each_trade trades ss e;
        settle guard ss e total
  end.

Definition run_tick (ss : list AnyStrategy) (e : RunnerEngine) (total : Z)
    : outcome (list AnyStrategy * RunnerEngine * Z) :=
  '(ss, e) ← each_strategy dispatch_tick ss e;
  settle 1000 ss e total.

Fixpoint run_ticks (n : nat) (ss : list AnyStrategy) (e : RunnerEngine) (total : Z)
    : outcome (list AnyStrategy * RunnerEngine * Z) :=
  match n with
  | O => Ok (ss, e, total)
  | S n =>
      '(ss, e, total) ← run_tick ss e total;
      run_ticks n ss e total
  end.

(** 0.50 as a binary64. *)
Definition pct_50 : spec_float := S754_finite false 4503599627370496 (-53).

Definition runner_risk : RiskConfig := mkRiskConfig pct_50 10000 1000000 1 true RejectIncoming.

Definition runner_maker : MarketMaker := MarketMaker_new 1001 (mkMakerConfig 10000 5 10 2).

Definition runner_momentum : Momentum := Momentum_new 1002 (mkMomentumConfig 4 5 2 3 2).

Definition runner_engine : RunnerEngine :=
  RiskEngine_new (MatchingEngine_new (mkDeferred []) (Z.to_nat 1000000) (RiskConfig_stp runner_risk)) runner_risk.

Definition runner_strategies (cfg : RunnerConfig) : list AnyStrategy :=
  (if run_market_maker cfg then [AMaker runner_maker] else []) ++
  (if run_momentum cfg then [AMomentum runner_momentum] else []).

(** The summary line. *)
Definition runner_report (cfg : RunnerConfig) (total : Z) (e : RunnerEngine) : list Z :=
  str "strategy_runner: " ++ to_string_u64 (ticks cfg) ++ str " ticks, " ++ to_string_u64 total ++
  str " trades, final book order_count=" ++ to_string_u64 (order_count (api_book e)) ++ [10].

(** [main]: the exit code and what is printed. *)
Definition runner_main (args : list (list Z)) : outcome (Z * list Z) :=
  run_cfg ← runner_args args RunnerConfig_default;
  let strategies := runner_strategies run_cfg in
  if bool_decide (length strategies = 0)%nat then Ok (1, str "no strategies selected" ++ [10])
  else
    '(_, e, total) ← run_ticks (Z.to_nat (ticks run_cfg)) strategies runner_engine 0;
    Ok (0, runner_report run_cfg total e).
End Runner.
