(* ===== verification/StrategySession.v ===== *)
(** * StrategySession: the strategies of the runner on the real engine

    The book a session works on holds exactly the maker's tracked quotes: the
    momentum strategy only sends market orders, and the maker's own orders
    never meet.  The lemmas here run each handler on such a book. *)
From S2P Require Import Prelude Core Text StdMap OrderPool PriceLevel OrderBook MatchingEngine.
From S2P Require Import ClientIndex MatchingSpec MatchingRefine EngineInvariant EngineRefine EngineTheorems.
From S2P Require Import EngineApi RiskEngine RiskTheorems Strategy.

#[export] Instance session_api : EngineAPI (MatchingEngine DeferredTradeSink) := matching_engine_api (Ok true).

Definition session_stp : StpConfig := mkStpConfig true RejectIncoming.

(** ** The engine of a session *)

(** The runner's engine with abstract book [A]. *)
Record session_ok (e : RunnerEngine) (A : ABook) : Prop := {
  so_inv : engine_inv (inner_ e) A;
  so_stp : stp_ (inner_ e) = session_stp;
  so_cap : capacity_ (pool_ (book_ (inner_ e))) = Z.to_nat 1000000;
  so_config : config_ e = runner_risk;
  so_ref : 9975 <= reference_price_ e <= 10025 }.

(** The 50% band around any price a session can trade at contains every other one. *)
Lemma session_band ref :
  9975 <= ref <= 10025 → ∃ a, band_allowance runner_risk ref = Some a ∧ 50 <= a.
Proof.
  intros Hr. assert (forallb (λ r, match band_allowance runner_risk r with Some a => Z.leb 50 a | None => false end)
    (seqZ 9975 51) = true) as Hall by (vm_compute; reflexivity).
  rewrite forallb_forall in Hall. specialize (Hall ref).
  destruct (band_allowance runner_risk ref) as [a|].
  - exists a. split; [done|]. apply Z.leb_le, Hall, list_elem_of_In, elem_of_seqZ. lia.
  - discriminate Hall. apply list_elem_of_In, elem_of_seqZ. lia.
Qed.

Lemma session_limits e A o :
  session_ok e A → new_order_quantity o <= 1000000 →
  (∀ p, new_order_limit o = Some p → 9975 <= p <= 10025) →
  within_limits (config_ e) (reference_price_ e) o.
Proof.
  intros [_ _ _ Hc Hr] Hq Hp. rewrite Hc. split; [done|intros; apply Z.divide_1_l|].
  intros p Ep _. destruct (session_band _ Hr) as (a & Ea & Ha). specialize (Hp p Ep). exists a.
  split; [done|]. split; lia.
Qed.

(** An order the contract accepts: what the port answers and leaves. *)
Lemma session_submit e A o :
  session_ok e A → wf_new_order o → next_sequence_ (inner_ e) < 18446744073709551615 →
  new_order_quantity o <= 1000000 → (∀ p, new_order_limit o = Some p → 9975 <= p <= 10025) →
  rejection o (inner_ e) A = None →
  let '(σ, l) := matched o (inner_ e) A in
  ∃ m A', api_submit o e =
      Ok (mkResponse Accepted (f_trades σ) (f_remaining σ) (new_order_id o),
          mkRisk m (config_ e) (default (reference_price_ e) (t_price <$> last (f_trades σ)))) ∧
    accepts o (inner_ e) A σ l m A'.
Proof.
  intros Hok Hwf Hs Hq Hp Hrej. pose proof (submit_spec o _ A (so_inv _ _ Hok) Hwf Hs) as Hsp.
  rewrite Hrej in Hsp. destruct (matched o (inner_ e) A) as [σ l]. destruct Hsp as (m & A' & E & Hacc).
  exists m, A'. split; [|done]. simpl. rewrite risk_forwards by (by eapply session_limits).
  simpl. rewrite E. done.
Qed.

(** ** Quotes *)

(** Nothing but the book and the trees behind it changed. *)
Record quiet (e' e : RunnerEngine) : Prop := {
  qu_sink : runner_sink e' = runner_sink e;
  qu_marks : last_accepted_id_ (inner_ e') = last_accepted_id_ (inner_ e);
  qu_seq : next_sequence_ (inner_ e') = next_sequence_ (inner_ e);
  qu_ref : reference_price_ e' = reference_price_ e }.

#[global] Instance quiet_preorder : PreOrder quiet.
Proof. split; [by intros e|]. intros e1 e2 e3 [] []. split; congruence. Qed.

(** A client's next id is above its watermark. *)
Definition fresh (owner next : Z) (e : RunnerEngine) : Prop :=
  ∀ w, last_accepted_id_ (inner_ e) !! owner = Some w → w < next.

Definition quote (slot : OrderPtr) (id : Z) (side : Side) (price q seq : Z) : Entry :=
  (slot, mkResting id side price q seq 1001).

Definition session_index (e : RunnerEngine) : gmap Z OrderPtr := orders_ (book_ (inner_ e)).

(** No quote is out. *)
Definition unquoted (s : MarketMaker) (e : RunnerEngine) : Prop :=
  session_ok e (mkABook [] []) ∧ session_index e = ∅ ∧ bid_id_ s = 0 ∧ ask_id_ s = 0.

(** The book is the maker's bid and ask around [ref], with [qb] and [qa] left. *)
Definition quoted (s : MarketMaker) (e : RunnerEngine) (ref qb qa : Z) : Prop :=
  ∃ sb sa nb na,
    session_ok e (mkABook [quote sb (bid_id_ s) Buy (ref - 5) qb nb] [quote sa (ask_id_ s) Sell (ref + 5) qa na]) ∧
    session_index e = <[bid_id_ s := sb]> {[ask_id_ s := sa]} ∧
    bid_id_ s ≠ 0 ∧ ask_id_ s ≠ 0 ∧ bid_id_ s ≠ ask_id_ s.

(** Cancelling an indexed order takes it, and only it, off the book. *)
Lemma session_cancel e A id slot :
  session_ok e A → session_index e !! id = Some slot →
  ∃ s l1 r l2 resp e', ab_side s A = l1 ++ (slot, r) :: l2 ∧ r_id r = id ∧
    api_cancel id e = Ok (resp, e') ∧ session_ok e' (ab_set s (l1 ++ l2) A) ∧
    session_index e' = delete id (session_index e) ∧ quiet e' e.
Proof.
  intros [Hi Hst Hc Hcfg Hr] Hix. pose proof (cancel_spec id _ A Hi) as Hsp.
  unfold session_index in Hix. rewrite Hix in Hsp.
  destruct Hsp as (s & l1 & r & l2 & m & El & Hid & E & Hi' & Hor & Hsk & Hm & Hs & _ & Hst' & Hc').
  exists s, l1, r, l2. eexists _, (mkRisk m (config_ e) (reference_price_ e)).
  split; [done|]. split; [done|]. split; [simpl; unfold risk_cancel; simpl; by rewrite E|].
  split; [split; simpl; congruence|]. split; [done|]. by split.
Qed.

Lemma singleton_split {B} (x y : B) l1 l2 : [x] = l1 ++ y :: l2 → l1 = [] ∧ y = x ∧ l2 = [].
Proof. destruct l1 as [|? [|]]; simpl; intros; by simplify_eq. Qed.

(** Both quotes are pulled. *)
Lemma pull_both s e ref qb qa :
  quoted s e ref qb qa →
  ∃ e1 e2, pull_quote (bid_id_ s) e = Ok e1 ∧ pull_quote (ask_id_ s) e1 = Ok e2 ∧
    session_ok e2 (mkABook [] []) ∧ session_index e2 = ∅ ∧ quiet e2 e.
Proof.
  intros (sb & sa & nb & na & Hok & Hix & Hb & Ha & Hne).
  destruct (session_cancel _ _ (bid_id_ s) sb Hok) as (sd & l1 & r & l2 & resp & e1 & El & Hid & E1 & Hok1 & Hix1 & Hq1).
  { by rewrite Hix, lookup_insert_eq. }
  destruct sd; simpl in El; apply singleton_split in El as (-> & Hx & ->); unfold quote in Hx; simplify_eq.
  simpl in Hok1. rewrite Hix, delete_insert_id in Hix1 by (by apply lookup_singleton_ne).
  destruct (session_cancel _ _ (ask_id_ s) sa Hok1) as (sd & l1 & r & l2 & resp2 & e2 & El & _ & E2 & Hok2 & Hix2 & Hq2).
  { by rewrite Hix1, lookup_singleton_eq. }
  destruct sd; simpl in El; [by destruct l1|]. apply singleton_split in El as (-> & _ & ->). simpl in Hok2.
  exists e1, e2. unfold pull_quote. rewrite !(proj2 (Z.eqb_neq _ _)), E1 by done. cbn [mbind outcome_bind]. rewrite E2. cbn [mbind outcome_bind].
  split_and!; try done; [|by etrans]. by rewrite Hix2, Hix1, delete_singleton_eq.
Qed.

(** The engine's events other than trades do not reach the runner's sink. *)
Lemma deferred_quiet (s : DeferredTradeSink) ev :
  match ev with EvTrade _ => False | _ => True end → deliver s ev = s.
Proof. by destruct ev. Qed.

Lemma fresh_not_duplicate owner id e : fresh owner id e → is_duplicate owner id (inner_ e) = false.
Proof.
  unfold is_duplicate, fresh. intros H. destruct (last_accepted_id_ (inner_ e) !! owner) as [w|]; [|done].
  apply Z.leb_gt. by apply H.
Qed.

(** An order that crosses nothing crosses none of its owner's. *)
Lemma scan_far side owner limit l :
  Forall (λ x, limit_stops side limit (r_price x.2) = true) l → scan_self_cross side owner limit l = false.
Proof. induction 1 as [|x l Hx _ IH]; simpl; [done|]. rewrite Hx, andb_false_r. done. Qed.

(** Posting one quote on the empty book or behind the other quote. *)
Lemma post_session side price s e A :
  session_ok e A → mm_id s = 1001 → quote_size (mm_config s) = 10 → 9975 <= price <= 10025 →
  next_sequence_ (inner_ e) < 18446744073709551615 → in_u64 (mm_next_order_id s) →
  fresh 1001 (mm_next_order_id s) e → session_index e !! mm_next_order_id s = None →
  ab_side side A = [] →
  Forall (λ x, limit_stops side (Some price) (r_price x.2) = true) (ab_side (opposite side) A) →
  (length (ab_side (opposite side) A) <= 1)%nat →
  ∃ e' slot, post_quote side price s e =
      Ok (Some (mm_next_order_id s), (maker_fresh_id s).2, e') ∧
    session_ok e' (ab_set side [quote slot (mm_next_order_id s) side price 10 (next_sequence_ (inner_ e))] A) ∧
    session_index e' = <[mm_next_order_id s := slot]> (session_index e) ∧
    runner_sink e' = runner_sink e ∧ reference_price_ e' = reference_price_ e ∧
    last_accepted_id_ (inner_ e') = <[1001 := mm_next_order_id s]> (last_accepted_id_ (inner_ e)) ∧
    next_sequence_ (inner_ e') <= next_sequence_ (inner_ e) + 1.
Proof.
  intros Hok Hid Hqs Hp Hseq Hu Hfr Hix Hown Hfar Hlen.
  set (o := NLimit (mkLimit (mm_next_order_id s) side price 10 1001)).
  assert (wf_new_order o) as Hwf by (unfold o; repeat split; simpl; u64; lia).
  assert (rejection o (inner_ e) A = None) as Hrej.
  { unfold rejection. simpl. rewrite (proj2 (Z.leb_gt _ _)), fresh_not_duplicate by (done || lia).
    rewrite scan_far, andb_false_r, (so_cap _ _ Hok), (proj2 (Nat.eqb_neq _ _)); [done| |done].
    rewrite (ab_entries_perm side), length_app, Hown. simpl. lia. }
  pose proof (session_submit e A o Hok Hwf Hseq ltac:(simpl; lia) ltac:(by intros p [= <-]) Hrej) as Hs.
  assert (matched o (inner_ e) A = (fills_start 10 (next_trade_sequence_ (inner_ e)), ab_side (opposite side) A)) as Em.
  { unfold matched. simpl. destruct (ab_side (opposite side) A) as [|x l]; [done|].
    apply Forall_cons in Hfar as [Hx _]. simpl in *. by rewrite Hx. }
  rewrite Em in Hs. destruct Hs as (m & A' & E & Hacc). simpl in E.
  destruct Hacc as [Hi Hb Hsk Hm _ Hsq Hst Hcp]. simpl in Hb.
  destruct Hb as (slot & _ & HA & Hidx). rewrite ab_set_id in HA. rewrite Hown in HA. simpl in HA.
  exists (mkRisk m (config_ e) (reference_price_ e)), slot.
  split; [unfold post_quote; simpl; rewrite Hqs, Hid; fold o; rewrite E; done|].
  destruct Hok as [_ Hst0 Hcp0 Hcfg Hrf].
  split; [split; simpl; [unfold quote; by rewrite <- HA|congruence|congruence|done|done]|].
  split; [unfold session_index; simpl; rewrite Hidx; unfold index_emplace; simpl; fold (session_index e); by rewrite Hix|].
  split; [unfold runner_sink; simpl; by rewrite Hsk|]. split; [done|]. split; [done|]. simpl. lia.
Qed.

(** ** The maker's handlers *)

Definition maker_config : MarketMakerConfig := mkMakerConfig 10000 5 10 2.

(** A maker of the session: its configuration, its drift within the bounds. *)
Record maker_ok (s : MarketMaker) : Prop := {
  mo_id1001 : mm_id s = 1001;
  mo_config : mm_config s = maker_config;
  mo_ref : current_ref_ s = 10000 + drift_accum_ s;
  mo_drift : -20 <= drift_accum_ s <= 20;
  mo_dir : drift_dir_ s = 1 ∨ drift_dir_ s = -1;
  mo_next : 0 < mm_next_order_id s }.

(** The maker after a requote. *)
Definition requoted (s : MarketMaker) : MarketMaker :=
  mkMaker (mm_id s) (mm_config s) (mm_next_order_id s + 2) (mm_next_order_id s) (mm_next_order_id s + 1)
          (quoting_ s) (current_ref_ s) (drift_dir_ s) (drift_accum_ s).

(** What a requote, or any handler that only requotes, leaves alone. *)
Record after_quotes (n : Z) (e' e : RunnerEngine) : Prop := {
  aq_sink : runner_sink e' = runner_sink e;
  aq_ref : reference_price_ e' = reference_price_ e;
  aq_marks owner : owner ≠ 1001 → last_accepted_id_ (inner_ e') !! owner = last_accepted_id_ (inner_ e) !! owner;
  aq_seq : next_sequence_ (inner_ e') <= next_sequence_ (inner_ e) + n }.

Definition has_quotes (s : MarketMaker) (e : RunnerEngine) : Prop :=
  unquoted s e ∨ ∃ ref qb qa, quoted s e ref qb qa.

Lemma pull_all s e :
  has_quotes s e →
  ∃ e1 e2, pull_quote (bid_id_ s) e = Ok e1 ∧ pull_quote (ask_id_ s) e1 = Ok e2 ∧
    session_ok e2 (mkABook [] []) ∧ session_index e2 = ∅ ∧ quiet e2 e.
Proof.
  intros [(Hok & Hix & Hb & Ha)|(ref & qb & qa & Hq)]; [|by eapply pull_both].
  exists e, e. unfold pull_quote. rewrite Hb, Ha. by split_and!.
Qed.

Lemma requote_session s e :
  maker_ok s → has_quotes s e → fresh 1001 (mm_next_order_id s) e →
  mm_next_order_id s + 2 < 18446744073709551616 → next_sequence_ (inner_ e) + 2 < 18446744073709551615 →
  ∃ e', requote s e = Ok (requoted s, e') ∧ quoted (requoted s) e' (current_ref_ s) 10 10 ∧
    fresh 1001 (mm_next_order_id s + 2) e' ∧ after_quotes 2 e' e.
Proof.
  intros [Hid Hc Href Hd _ Hn] Hq Hfr Hmax Hseq.
  destruct (pull_all s e Hq) as (e1 & e2 & E1 & E2 & Hok2 & Hix2 & [Hk2 Hm2 Hs2 Hr2]).
  assert (Hi64 : ∀ d, -5 <= d <= 5 → i64_check (current_ref_ s + d) = Ok (current_ref_ s + d)).
  { intros d Hd5. unfold i64_check. by rewrite (proj2 (Z.leb_le _ _)), (proj2 (Z.ltb_lt _ _)) by lia. }
  set (s2 := set_ask_id 0 (set_bid_id 0 s)).
  destruct (post_session Buy (current_ref_ s - 5) s2 e2 (mkABook [] [])) as
    (e3 & sb & E3 & Hok3 & Hix3 & Hk3 & Hr3 & Hm3 & Hs3); simpl; try done; try lia.
  { by rewrite Hc. } { u64; lia. } { unfold fresh. rewrite Hm2. exact Hfr. } { by rewrite Hix2. }
  set (s3 := set_bid_id (mm_next_order_id s) (maker_fresh_id s2).2).
  assert (mm_next_order_id s3 = mm_next_order_id s + 1) as En3 by (simpl; apply u64_add_small; u64; lia).
  destruct (post_session Sell (current_ref_ s + 5) s3 e3
    (mkABook [quote sb (mm_next_order_id s) Buy (current_ref_ s - 5) 10 (next_sequence_ (inner_ e2))] [])) as
    (e4 & sa & E4 & Hok4 & Hix4 & Hk4 & Hr4 & Hm4 & Hs4); rewrite ?En3; try done; try lia.
  { simpl. by rewrite Hc. } { u64; lia. }
  { intros w. rewrite Hm3. simpl. rewrite lookup_insert_eq. intros [= <-]. lia. }
  { rewrite Hix3, Hix2. simpl. rewrite lookup_insert_ne by lia. done. }
  { repeat constructor. simpl. rewrite Z.gtb_ltb. apply Z.ltb_lt. lia. }
  exists e4. rewrite En3 in *.
  split.
  { unfold requote. rewrite E1. cbn [mbind outcome_bind]. change (ask_id_ (set_bid_id 0 s)) with (ask_id_ s).
    rewrite E2. cbn [mbind outcome_bind]. fold s2. unfold i64_sub, i64_add. fold (i64_check (current_ref_ s2 - spread (mm_config s2))).
    change (current_ref_ s2) with (current_ref_ s). change (mm_config s2) with (mm_config s). rewrite Hc. cbn [spread maker_config].
    rewrite <- Z.add_opp_r, !Hi64 by lia. cbn [mbind outcome_bind]. rewrite Z.add_opp_r, E3. cbn [mbind outcome_bind].
    change (mm_next_order_id s2) with (mm_next_order_id s). fold s3. rewrite E4. cbn [mbind outcome_bind].
    unfold requoted, s3, s2, set_ask_id. simpl.
    by rewrite (u64_add_small (mm_next_order_id s) 1), u64_add_small, <- Z.add_assoc by (u64; lia). }
  split.
  { exists sb, sa, (next_sequence_ (inner_ e2)), (next_sequence_ (inner_ e3)). simpl. split; [exact Hok4|].
    rewrite Hix4, Hix3, Hix2. simpl. split; [|lia]. rewrite insert_insert_ne by lia. done. }
  simpl in *. split; [intros w; rewrite Hm4, lookup_insert_eq; intros [= <-]; lia|].
  split; [congruence|congruence| |lia].
  intros owner Ho. by rewrite Hm4, Hm3, !lookup_insert_ne, Hm2 by done.
Qed.

Lemma i64_small z : -1000000 <= z <= 1000000 → i64_check z = Ok z.
Proof. intros. unfold i64_check. by rewrite (proj2 (Z.leb_le _ _)), (proj2 (Z.ltb_lt _ _)) by lia. Qed.

(** The drift oscillates within four spreads of the base. *)
Lemma drift_session s :
  maker_ok s → ∃ dir accum, drift_step s = Ok (dir, accum) ∧ -20 <= accum <= 20 ∧ (dir = 1 ∨ dir = -1).
Proof.
  intros [_ Hc _ Hd Hdir _]. unfold drift_step. rewrite Hc. unfold i64_mul, i64_add. cbn [spread drift_per_tick maker_config].
  assert (-2 <= drift_dir_ s * 2 <= 2) by (destruct Hdir as [-> | ->]; lia).
  rewrite !i64_small by lia. cbn [mbind outcome_bind]. rewrite !i64_small by lia. cbn [mbind outcome_bind].
  destruct (Z.ltb_spec (5 * 4) (drift_accum_ s + drift_dir_ s * 2)); [eexists _, _; split; [done|]; lia|].
  unfold i64_opp. rewrite i64_small by lia. cbn [mbind outcome_bind].
  destruct (Z.ltb_spec (drift_accum_ s + drift_dir_ s * 2) (- (5 * 4))); eexists _, _; (split; [done|]); [lia|].
  split; [lia|done].
Qed.

(** A maker's tick ends with fresh quotes around its reference. *)
Lemma maker_tick_session s e :
  maker_ok s → has_quotes s e → fresh 1001 (mm_next_order_id s) e →
  mm_next_order_id s + 2 < 18446744073709551616 → next_sequence_ (inner_ e) + 2 < 18446744073709551615 →
  ∃ s' e', maker_on_tick s e = Ok (s', e') ∧ maker_ok s' ∧ quoting_ s' = true ∧
    mm_next_order_id s' = mm_next_order_id s + 2 ∧ quoted s' e' (current_ref_ s') 10 10 ∧
    fresh 1001 (mm_next_order_id s') e' ∧ after_quotes 2 e' e.
Proof.
  intros Hs Hq Hfr Hmax Hseq. unfold maker_on_tick. destruct (quoting_ s) eqn:Eq; cbn [negb].
  - rewrite (mo_config _ Hs). cbn [drift_per_tick maker_config Z.eqb negb].
    destruct (drift_session s Hs) as (dir & accum & -> & Hac & Hdir). cbn [mbind outcome_bind reference_price maker_config].
    unfold i64_add. rewrite i64_small by lia. cbn [mbind outcome_bind].
    destruct (requote_session (set_drift (10000 + accum) dir accum s) e) as (e' & E & Hq' & Hf' & Ha'); try done.
    { destruct Hs. by split. }
    exists (requoted (set_drift (10000 + accum) dir accum s)), e'. rewrite E. split_and!; try done.
    destruct Hs. split; simpl; try done; lia.
  - destruct (requote_session (set_quoting s) e) as (e' & E & Hq' & Hf' & Ha'); try done.
    { destruct Hs. by split. }
    exists (requoted (set_quoting s)), e'. rewrite E. split_and!; try done.
    destruct Hs. split; simpl; try done; lia.
Qed.

(** A trade against one of the quotes, which stays on the book. *)
Definition hits (s : MarketMaker) (t : Trade) : Prop :=
  resting_order_removed t = false ∧ (buy_order_id t = bid_id_ s ∨ sell_order_id t = ask_id_ s).

(** The maker answers a hit with fresh quotes. *)
Lemma maker_trade_session s e t ref qb qa :
  maker_ok s → quoted s e ref qb qa → hits s t → fresh 1001 (mm_next_order_id s) e →
  mm_next_order_id s + 2 < 18446744073709551616 → next_sequence_ (inner_ e) + 2 < 18446744073709551615 →
  ∃ e', maker_on_trade t s e = Ok (requoted s, e') ∧ quoted (requoted s) e' (current_ref_ s) 10 10 ∧
    fresh 1001 (mm_next_order_id s + 2) e' ∧ after_quotes 2 e' e.
Proof.
  intros Hs Hq [Hr Hh] Hfr Hmax Hseq. pose proof Hq as (_ & _ & _ & _ & _ & _ & Hb & Ha & _).
  unfold maker_on_trade. rewrite Hr, !andb_false_r, !(proj2 (Z.eqb_neq _ 0)) by done. cbn [negb andb].
  replace (negb _ && negb _) with false.
  - apply requote_session; try done. right. eauto.
  - symmetry. destruct Hh as [-> | ->]; rewrite Z.eqb_refl; [done|apply andb_false_r].
Qed.

(** ** The momentum strategy's orders *)

Definition hit_price (ref : Z) (side : Side) : Z := match side with Buy => ref + 5 | Sell => ref - 5 end.

(** A market order meets the opposite quote, trades once and leaves the quote on the book. *)
Lemma market_session s e ref side size id :
  quoted s e ref 10 10 → 9980 <= ref <= 10020 → 0 < size < 10 → in_u64 id → fresh 1002 id e →
  next_sequence_ (inner_ e) + 1 < 18446744073709551615 →
  ∃ resp e' t qb qa, api_submit (NMarket (mkMarket id side size 1002)) e = Ok (resp, e') ∧
    quoted s e' ref qb qa ∧ hits s t ∧ t_price t = hit_price ref side ∧
    runner_sink e' = mkDeferred (pending_ (runner_sink e) ++ [t]) ∧
    last_accepted_id_ (inner_ e') = <[1002 := id]> (last_accepted_id_ (inner_ e)) ∧
    next_sequence_ (inner_ e') <= next_sequence_ (inner_ e) + 1.
Proof.
  intros (sb & sa & nb & na & Hok & Hix & Hne) Href Hsz Hid Hfr Hseq.
  set (o := NMarket (mkMarket id side size 1002)).
  assert (wf_new_order o) as Hwf by (unfold o; repeat split; simpl; u64; lia).
  assert (rejection o (inner_ e) (mkABook [quote sb (bid_id_ s) Buy (ref - 5) 10 nb]
                                         [quote sa (ask_id_ s) Sell (ref + 5) 10 na]) = None) as Hrej.
  { unfold rejection. simpl. rewrite (proj2 (Z.eqb_neq _ _)), fresh_not_duplicate by (done || lia).
    destruct side; simpl; by rewrite andb_false_r. }
  pose proof (session_submit e _ o Hok Hwf ltac:(lia) ltac:(simpl; lia) ltac:(done) Hrej) as Hs.
  destruct Hok as [Hi Hst Hcp Hcfg Hrf].
  assert (stp_pulls (inner_ e) = false) as Hpull by (unfold stp_pulls; by rewrite Hst).
  unfold matched in Hs. unfold incoming_of in Hs. rewrite Hpull in Hs.
  destruct side; simpl in Hs;
    rewrite (proj2 (Z.leb_gt size 0)), (proj2 (Z.ltb_lt size 10)) in Hs by lia; cbn [is_own in_cancel andb] in Hs;
    destruct Hs as (m & A' & E & [Hi' [HA' Hidx] Hsk Hm _ Hsq Hst' Hcp']); simpl in *;
    (eexists _, _, _, _, _; split; [exact E|]; split; [|split; [|split; [|split; [exact Hsk|split; [exact Hm|simpl; lia]]]]]);
    try done.
  1,3: eexists sb, sa, nb, na; split; [split; simpl; try congruence; [by rewrite HA' in Hi'|lia]|split; [etrans; [exact Hidx|exact Hix]|done]].
  all: split; [done|]; simpl; auto.
Qed.

(** ** Chains of trades

    While the maker keeps its reference, the momentum strategy only sees
    trades at the two quote prices, and its window fills with them: a chain of
    reactions ends. *)

(** What the strategy does on a window. *)
Definition reaction (w : list Z) : option Side :=
  if Nat.ltb (length w) 4 then None
  else
    let delta := default 0 (last w) - default 0 (head w) in
    if Z.ltb 2 delta then Some Buy else if Z.ltb 2 (- delta) then Some Sell else None.

(** The chain a trade at [p] starts, with the quotes around [ref], ends within [n] rounds. *)
Inductive echoes (ref : Z) : list Z → Z → nat → Prop :=
| echo_stop w p n : reaction (window_push 4 p w) = None → echoes ref w p (S n)
| echo_again w p side n :
    reaction (window_push 4 p w) = Some side →
    echoes ref (window_push 4 p w) (hit_price ref side) n → echoes ref w p (S n).

Lemma reaction_full b c d p :
  reaction [b; c; d; p] =
  if Z.ltb 2 (p - b) then Some Buy else if Z.ltb 2 (- (p - b)) then Some Sell else None.
Proof. reflexivity. Qed.

Lemma echo_cases ref a b c d p n :
  (2 < p - b → echoes ref [b; c; d; p] (ref + 5) n) →
  (2 < - (p - b) → echoes ref [b; c; d; p] (ref - 5) n) →
  echoes ref [a; b; c; d] p (S n).
Proof.
  intros H1 H2. pose proof (reaction_full b c d p) as Hr.
  destruct (Z.ltb_spec 2 (p - b)); [|destruct (Z.ltb_spec 2 (- (p - b)))].
  - eapply (echo_again _ _ _ Buy); [exact Hr|auto].
  - eapply (echo_again _ _ _ Sell); [exact Hr|auto].
  - by apply echo_stop.
Qed.

Lemma echo_ends4 ref a b c d p :
  p = ref + 5 ∨ p = ref - 5 → echoes ref [a; b; c; d] p 8.
Proof.
  intros [-> | ->]; repeat (apply echo_cases; intros ?; try (exfalso; lia)).
Qed.

Lemma echo_ends ref w p :
  (length w <= 4)%nat → p = ref + 5 ∨ p = ref - 5 → echoes ref w p 8.
Proof.
  intros Hl Hp. destruct w as [|a [|b [|c [|d [|]]]]]; cbn [length] in Hl; try lia;
    try (by apply echo_stop); [|by apply echo_ends4].
  pose proof (echo_ends4 ref 0 a b c p Hp) as He. inversion He; subst; [by apply echo_stop|by eapply echo_again].
Qed.

Definition momentum_config : MomentumConfig := mkMomentumConfig 4 5 2 3 2.

Record momentum_ok (s : Momentum) : Prop := {
  mu_id : mom_id s = 1002;
  mu_config : mom_config s = momentum_config;
  mu_window : (length (prices_ s) <= 4)%nat;
  mu_prices : Forall (λ p, 9975 <= p <= 10025) (prices_ s);
  mu_next : 0 < mom_next_order_id s }.

Lemma window_push_length n p l : (length l <= n)%nat → (length (window_push n p l) <= n)%nat.
Proof.
  intros Hl. unfold window_push. rewrite length_app. simpl.
  destruct (Nat.ltb_spec n (length l + 1)); rewrite ?length_drop, length_app; simpl; lia.
Qed.

Lemma window_push_forall (P : Z → Prop) n p l : Forall P l → P p → Forall P (window_push n p l).
Proof.
  intros Hl Hp. unfold window_push. assert (Forall P (l ++ [p])) by (apply Forall_app; auto).
  destruct (Nat.ltb _ _); [by apply Forall_drop|done].
Qed.

(** The code's signal is [reaction]. *)
Lemma signal_session s :
  momentum_ok s → ~ (length (prices_ s) < 4)%nat → signal s = Ok (reaction (prices_ s)).
Proof.
  intros [_ Hc Hw Hp _] Hl. unfold signal, reaction. rewrite Hc.
  destruct (prices_ s) as [|a [|b [|c [|d [|]]]]]; cbn [length] in *; try lia.
  rewrite !Forall_cons in Hp. simpl. change (i64_sub d a) with (i64_check (d - a)). rewrite i64_small by lia. simpl.
  destruct (Z.ltb 2 (d - a)); [done|]. unfold i64_opp. by rewrite i64_small by lia.
Qed.

(** The strategy on a trade: its window moves, and it reacts at the quotes. *)
Lemma momentum_trade_session mo s e t ref :
  momentum_ok mo → quoted s e ref 10 10 → 9980 <= ref <= 10020 → 9975 <= t_price t <= 10025 →
  fresh 1002 (mom_next_order_id mo) e → mom_next_order_id mo + 1 < 18446744073709551616 →
  next_sequence_ (inner_ e) + 1 < 18446744073709551615 → pending_ (runner_sink e) = [] →
  let w := window_push 4 (t_price t) (prices_ mo) in
  ∃ mo' e' qb qa, momentum_on_trade t mo e = Ok (mo', e') ∧ momentum_ok mo' ∧ prices_ mo' = w ∧
    quoted s e' ref qb qa ∧ fresh 1002 (mom_next_order_id mo') e' ∧
    last_accepted_id_ (inner_ e') !! 1001 = last_accepted_id_ (inner_ e) !! 1001 ∧
    mom_next_order_id mo <= mom_next_order_id mo' <= mom_next_order_id mo + 1 ∧
    next_sequence_ (inner_ e') <= next_sequence_ (inner_ e) + 1 ∧
    match reaction w with
    | None => e' = e
    | Some side => ∃ t', pending_ (runner_sink e') = [t'] ∧ hits s t' ∧ t_price t' = hit_price ref side
    end.
Proof.
  intros Hmo Hq Href Ht Hfr Hmax Hseq Hpend w. unfold momentum_on_trade. rewrite (mu_config _ Hmo).
  cbn [lookback_n momentum_config Nat.eqb]. fold w. set (mo1 := set_prices w mo).
  assert (momentum_ok mo1) as Hmo1.
  { destruct Hmo. split; try done; [by apply window_push_length|by apply window_push_forall]. }
  change (prices_ mo1) with w. rewrite orb_false_r.
  destruct (Nat.ltb_spec (length w) 4) as [Hl|Hl].
  - exists mo1, e, 10, 10. assert (reaction w = None) as -> by (unfold reaction; by rewrite (proj2 (Nat.ltb_lt _ _))).
    split_and!; try done; simpl; lia.
  - rewrite (signal_session mo1 Hmo1) by (simpl; lia). cbn [mbind outcome_bind]. change (prices_ mo1) with w.
    destruct (reaction w) as [side|]; [|exists mo1, e, 10, 10; split_and!; try done; simpl; lia].
    destruct (market_session s e ref side 5 (mom_next_order_id mo)) as
      (resp & e' & t' & qb & qa & E & Hq' & Hh & Hpr & Hsk & Hm & Hs); try done; [destruct Hmo; u64; lia|].
    exists (momentum_fresh_id mo1).2, e', qb, qa. rewrite Hpend in Hsk.
    assert (u64_add (mom_next_order_id mo) 1 = mom_next_order_id mo + 1) as Hu
      by (apply u64_add_small; destruct Hmo; u64; lia).
    split.
    { unfold fire, momentum_fresh_id. cbn [mom_id mom_config mom_next_order_id mo1 set_prices].
      rewrite (mu_config _ Hmo), (mu_id _ Hmo). cbn [order_size momentum_config]. rewrite E. done. }
    split; [destruct Hmo1; split; try done; simpl; rewrite Hu; destruct Hmo; lia|]. simpl. rewrite Hu.
    split_and!; try done; try lia.
    + intros v. rewrite Hm, lookup_insert_eq. intros [= <-]. lia.
    + by rewrite Hm, lookup_insert_ne.
    + exists t'. by rewrite Hsk.
Qed.

(** ** Settling *)

Lemma drain_session (k : DeferredTradeSink) e A : session_ok e A → session_ok (set_runner_sink k e) A.
Proof. intros [[] ? ? ? ?]. by split. Qed.

Lemma drain_quoted k s e ref qb qa : quoted s e ref qb qa → quoted s (set_runner_sink k e) ref qb qa.
Proof. intros (sb & sa & nb & na & Hok & H). exists sb, sa, nb, na. split; [by apply drain_session|done]. Qed.

(** Both strategies between two events, after at most [k] orders of each and [k] trades. *)
Record duo (s : MarketMaker) (mo : Momentum) (e : RunnerEngine) (total k : Z) : Prop := {
  du_maker : maker_ok s;
  du_momentum : momentum_ok mo;
  du_fresh1 : fresh 1001 (mm_next_order_id s) e;
  du_fresh2 : fresh 1002 (mom_next_order_id mo) e;
  du_next1 : mm_next_order_id s <= 1001000000001 + k;
  du_next2 : mom_next_order_id mo <= 1002000000001 + k;
  du_seq : next_sequence_ (inner_ e) <= k;
  du_total : 0 <= total <= k }.

(** The maker's handlers leave the other client's watermark alone. *)
Lemma after_quotes_fresh n e' e owner next :
  after_quotes n e' e → owner ≠ 1001 → fresh owner next e → fresh owner next e'.
Proof. intros [_ _ Hm _] Ho Hf w. rewrite Hm by done. apply Hf. Qed.

(** One round: the maker requotes, the momentum strategy reacts. *)
Lemma round_session s mo e t total k ref qb qa :
  duo s mo e total k → k + 1000 < 1152921504606846976 → quoted s e ref qb qa → current_ref_ s = ref →
  hits s t → t_price t = ref + 5 ∨ t_price t = ref - 5 →
  pending_ (runner_sink e) = [t] →
  let w := window_push 4 (t_price t) (prices_ mo) in
  ∃ s' mo' e' qb' qa', each_trade [t] [AMaker s; AMomentum mo] (set_runner_sink (mkDeferred []) e) =
      Ok ([AMaker s'; AMomentum mo'], e') ∧
    duo s' mo' e' (u64_add total 1) (k + 3) ∧ quoted s' e' ref qb' qa' ∧ s' = requoted s ∧ prices_ mo' = w ∧
    match reaction w with
    | None => pending_ (runner_sink e') = [] ∧ qb' = 10 ∧ qa' = 10
    | Some side => ∃ t', pending_ (runner_sink e') = [t'] ∧ hits s' t' ∧ t_price t' = hit_price ref side
    end.
Proof.
  intros [Hs Hmo Hf1 Hf2 Hn1 Hn2 Hsq Ht] Hk Hq Hcr Hh Hp Hpend w.
  pose proof (mo_ref _ Hs). pose proof (mo_drift _ Hs). pose proof (mo_next _ Hs). pose proof (mu_next _ Hmo).
  set (e0 := set_runner_sink (mkDeferred []) e).
  destruct (maker_trade_session s e0 t ref qb qa Hs (drain_quoted _ _ _ _ _ _ Hq) Hh Hf1) as
    (e1 & E1 & Hq1 & Hf1' & Ha1); [lia|simpl; lia|]. rewrite Hcr in Hq1.
  pose proof (after_quotes_fresh _ _ _ 1002 (mom_next_order_id mo) Ha1 ltac:(done) Hf2) as Hf2'.
  destruct Ha1 as [Hk1 _ _ Hs1]. simpl in Hs1.
  destruct (momentum_trade_session mo (requoted s) e1 t ref Hmo Hq1) as
    (mo' & e2 & qb2 & qa2 & E2 & Hmo' & Hw & Hq2 & Hf2'' & Hm2 & Hn' & Hs2 & Hre); try done; try lia.
  { by rewrite Hk1. }
  assert (maker_ok (requoted s)) as Hs'. { destruct Hs. split; simpl; try done; lia. }
  assert (duo (requoted s) mo' e2 (u64_add total 1) (k + 3)) as Hduo.
  { rewrite u64_add_small by (u64; lia). split; try done; simpl; try lia. intros v Hv. rewrite Hm2 in Hv. by apply Hf1'. }
  assert (each_trade [t] [AMaker s; AMomentum mo] e0 = Ok ([AMaker (requoted s); AMomentum mo'], e2)) as Ht1.
  { cbn [each_trade each_strategy dispatch_trade on_trade_seen MarketMakerStrategy MomentumStrategy].
    rewrite E1. cbn [mbind outcome_bind]. rewrite E2. done. }
  fold w in Hw, Hre. destruct (reaction w).
  - exists (requoted s), mo', e2, qb2, qa2. split_and!; done.
  - subst e2. exists (requoted s), mo', e1, 10, 10. split_and!; try done. by rewrite Hk1.
Qed.

Lemma settle_done f guard ss e total :
  pending_ (runner_sink e) = [] → settle f guard ss e total = Ok (ss, e, total).
Proof. intros Hp. destruct guard; cbn [settle]; [done|]. unfold sink_empty. by rewrite Hp, bool_decide_true. Qed.

(** A chain is settled well before the guard stops the loop. *)
Lemma settle_chain n ref w p :
  echoes ref w p n → ∀ s mo e t total k qb qa guard,
  prices_ mo = w → t_price t = p → p = ref + 5 ∨ p = ref - 5 → (n < guard)%nat →
  duo s mo e total k → k + 3 * Z.of_nat n + 1000 < 1152921504606846976 →
  quoted s e ref qb qa → current_ref_ s = ref → quoting_ s = true → hits s t → pending_ (runner_sink e) = [t] →
  ∃ s' mo' e' total', settle (Ok true) guard [AMaker s; AMomentum mo] e total =
      Ok ([AMaker s'; AMomentum mo'], e', total') ∧
    duo s' mo' e' total' (k + 3 * Z.of_nat n) ∧ quoted s' e' ref 10 10 ∧ current_ref_ s' = ref ∧
    quoting_ s' = true ∧ pending_ (runner_sink e') = [] ∧ total < total' <= total + Z.of_nat n.
Proof.
  induction 1 as [w p n Hr|w p side n Hr He IH]; intros s mo e t total k qb qa guard Hw Hp Hpr Hg Hd Hk Hq Hc Hqu Hh Hpend;
    (destruct guard as [|guard]; [lia|]); subst p;
    (destruct (round_session s mo e t total k ref qb qa Hd ltac:(lia) Hq Hc Hh Hpr Hpend) as
      (s' & mo' & e' & qb' & qa' & E & Hd' & Hq' & Es & Hw' & Hre)); rewrite Hw, Hr in Hre;
    cbn [settle]; unfold sink_empty; rewrite Hpend, bool_decide_false by done;
    unfold sink_drain; rewrite Hpend; cbn [length Z.of_nat]; change (Z.pos (Pos.of_succ_nat 0)) with 1;
    change (runner_api (Ok true)) with session_api; rewrite E; cbn [mbind outcome_bind].
  - destruct Hre as (Hp' & -> & ->). exists s', mo', e', (u64_add total 1).
    split; [by apply settle_done|].
    assert (u64_add total 1 = total + 1) as Hu by (apply u64_add_small; destruct Hd; u64; lia).
    subst s'. split_and!; try done; try lia. destruct Hd'. split; try done; lia.
  - destruct Hre as (t' & Hp' & Hh' & Ht').
    destruct (IH s' mo' e' t' (u64_add total 1) (k + 3) qb' qa' guard) as (s2 & mo2 & e2 & tot2 & E2 & Hd2 & H2 & H3 & H4 & H5 & H6);
      try done; try lia; try (by subst s'); try (by rewrite Hw', Hw).
    { destruct side; simpl; lia. }
    assert (u64_add total 1 = total + 1) as Hu by (apply u64_add_small; destruct Hd; u64; lia).
    exists s2, mo2, e2, tot2. split; [done|]. split; [|split_and!; done || lia]. by replace (k + 3 * Z.of_nat (S n)) with (k + 3 + 3 * Z.of_nat n) by lia.
Qed.

(** The strategy's tick: nothing, or a probe that hits a quote. *)
Lemma momentum_tick_session mo s e ref :
  momentum_ok mo → quoted s e ref 10 10 → 9980 <= ref <= 10020 →
  fresh 1002 (mom_next_order_id mo) e → mom_next_order_id mo + 1 < 18446744073709551616 →
  next_sequence_ (inner_ e) + 1 < 18446744073709551615 → pending_ (runner_sink e) = [] →
  ∃ mo' e' qb qa, momentum_on_tick mo e = Ok (mo', e') ∧ momentum_ok mo' ∧ quoted s e' ref qb qa ∧
    fresh 1002 (mom_next_order_id mo') e' ∧
    last_accepted_id_ (inner_ e') !! 1001 = last_accepted_id_ (inner_ e) !! 1001 ∧
    mom_next_order_id mo <= mom_next_order_id mo' <= mom_next_order_id mo + 1 ∧
    next_sequence_ (inner_ e') <= next_sequence_ (inner_ e) + 1 ∧
    (e' = e ∨ ∃ t side, pending_ (runner_sink e') = [t] ∧ hits s t ∧ t_price t = hit_price ref side).
Proof.
  intros Hmo Hq Href Hfr Hmax Hseq Hpend. unfold momentum_on_tick. rewrite (mu_config _ Hmo).
  cbn [probe_every_ticks momentum_config Z.eqb]. set (mo1 := set_tick_count _ mo).
  assert (momentum_ok mo1) as Hmo1 by (destruct Hmo; by split).
  change (mom_config mo1) with (mom_config mo). rewrite (mu_config _ Hmo). cbn [probe_every_ticks momentum_config].
  destruct (negb _); [exists mo1, e, 10, 10; split_and!; try done; simpl; (lia || by left)|].
  set (side := if probe_buy_ mo1 then Buy else Sell).
  destruct (market_session s e ref side 2 (mom_next_order_id mo)) as
    (resp & e' & t' & qb & qa & E & Hq' & Hh & Hpr & Hsk & Hm & Hs); try done; [destruct Hmo; u64; lia|].
  exists (flip_probe (momentum_fresh_id mo1).2), e', qb, qa. rewrite Hpend in Hsk.
  assert (u64_add (mom_next_order_id mo) 1 = mom_next_order_id mo + 1) as Hu
    by (apply u64_add_small; destruct Hmo; u64; lia).
  split.
  { unfold momentum_fresh_id, flip_probe. cbn [mom_id mom_config mom_next_order_id mo1 set_tick_count].
    rewrite (mu_config _ Hmo), (mu_id _ Hmo). cbn [probe_size momentum_config]. rewrite E. done. }
  split; [destruct Hmo1; split; try done; simpl; rewrite Hu; destruct Hmo; lia|]. simpl. rewrite Hu.
  split_and!; try done; try lia.
  - intros v. rewrite Hm, lookup_insert_eq. intros [= <-]. lia.
  - by rewrite Hm, lookup_insert_ne.
  - right. exists t', side. by rewrite Hsk.
Qed.

(** The state between two ticks: settled, and quoted once the first tick is over. *)
Record between_ticks (s : MarketMaker) (mo : Momentum) (e : RunnerEngine) (total k : Z) : Prop := {
  bt_duo : duo s mo e total k;
  bt_quotes : if quoting_ s then quoted s e (current_ref_ s) 10 10 else unquoted s e;
  bt_settled : pending_ (runner_sink e) = [] }.

(** One tick of both strategies settles, with at most eight trades. *)
Lemma tick_session s mo e total k :
  between_ticks s mo e total k → k + 2000 < 1152921504606846976 →
  ∃ s' mo' e' total', run_tick (Ok true) [AMaker s; AMomentum mo] e total =
      Ok ([AMaker s'; AMomentum mo'], e', total') ∧
    between_ticks s' mo' e' total' (k + 30) ∧ quoting_ s' = true ∧ total <= total' <= total + 8.
Proof.
  intros [[Hs Hmo Hf1 Hf2 Hn1 Hn2 Hsq Ht] Hq Hpend] Hk.
  destruct (maker_tick_session s e Hs) as (s1 & e1 & E1 & Hs1 & Hqu1 & Hnx1 & Hq1 & Hf1' & Ha1); try done; try lia.
  { destruct (quoting_ s); [right; eauto|by left]. }
  pose proof (after_quotes_fresh _ _ _ 1002 (mom_next_order_id mo) Ha1 ltac:(done) Hf2) as Hf2'.
  destruct Ha1 as [Hk1 _ _ Hsq1]. pose proof (mo_ref _ Hs1). pose proof (mo_drift _ Hs1).
  destruct (momentum_tick_session mo s1 e1 (current_ref_ s1) Hmo Hq1) as
    (mo2 & e2 & qb & qa & E2 & Hmo2 & Hq2 & Hf2'' & Hm2 & Hn' & Hsq2 & Hcase); try done; try lia.
  { by rewrite Hk1. }
  assert (duo s1 mo2 e2 total (k + 3)) as Hduo.
  { split; try done; try lia. intros v Hv. rewrite Hm2 in Hv. by apply Hf1'. }
  assert (each_strategy dispatch_tick [AMaker s; AMomentum mo] e = Ok ([AMaker s1; AMomentum mo2], e2)) as Et.
  { cbn [each_strategy dispatch_tick on_tick MarketMakerStrategy MomentumStrategy].
    rewrite E1. cbn [mbind outcome_bind]. rewrite E2. done. }
  unfold run_tick. change (runner_api (Ok true)) with session_api. rewrite Et. cbn [mbind outcome_bind].
  destruct Hcase as [-> | (t & side & Hp & Hh & Htp)].
  - exists s1, mo2, e1, total. split; [apply settle_done; by rewrite Hk1|].
    split; [|split; [done|lia]]. split; [destruct Hduo; split; try done; lia|by rewrite Hqu1|by rewrite Hk1].
  - destruct (settle_chain 8 (current_ref_ s1) (prices_ mo2) (hit_price (current_ref_ s1) side)) with
      (s := s1) (mo := mo2) (e := e2) (t := t) (total := total) (k := k + 3) (qb := qb) (qa := qa) (guard := 1000%nat)
      as (s3 & mo3 & e3 & tot3 & E3 & Hd3 & Hq3 & Hc3 & Hqu3 & Hp3 & Htot); try done; try lia.
    { apply echo_ends; [apply Hmo2|destruct side; simpl; lia]. }
    { destruct side; simpl; lia. }
    exists s3, mo3, e3, tot3. split; [done|]. split; [|split; [done|lia]].
    split; [destruct Hd3; split; try done; lia|by rewrite Hqu3, Hc3|done].
Qed.

Lemma ticks_session n s mo e total k :
  between_ticks s mo e total k → k + 30 * Z.of_nat n + 2000 < 1152921504606846976 →
  ∃ s' mo' e' total', run_ticks (Ok true) n [AMaker s; AMomentum mo] e total =
      Ok ([AMaker s'; AMomentum mo'], e', total') ∧
    between_ticks s' mo' e' total' (k + 30 * Z.of_nat n) ∧ quoting_ s' = quoting_ s || negb (Nat.eqb n 0) ∧
    total <= total' <= total + 8 * Z.of_nat n.
Proof.
  revert s mo e total k. induction n as [|n IH]; intros s mo e total k Hb Hk.
  { exists s, mo, e, total. split; [done|]. rewrite Z.mul_0_r, Z.add_0_r, orb_false_r. split_and!; done || lia. }
  destruct (tick_session s mo e total k Hb ltac:(lia)) as (s1 & mo1 & e1 & t1 & E1 & Hb1 & Hq1 & Ht1).
  destruct (IH s1 mo1 e1 t1 (k + 30) Hb1 ltac:(lia)) as (s2 & mo2 & e2 & t2 & E2 & Hb2 & Hq2 & Ht2).
  exists s2, mo2, e2, t2. cbn [run_ticks]. rewrite E1. cbn [mbind outcome_bind]. split; [exact E2|].
  split; [by replace (k + 30 * Z.of_nat (S n)) with (k + 30 + 30 * Z.of_nat n) by lia|].
  split; [rewrite Hq2, Hq1; by rewrite orb_true_r|lia].
Qed.
