(* ===== verification/StrategyTheorems.v ===== *)
(** * StrategyTheorems: what the strategies and the runner guarantee

    Whole sessions of the runner, and the strategies over any engine. *)
From Stdlib Require Import String.
From S2P Require Import Prelude Core Text StdMap OrderPool PriceLevel OrderBook MatchingEngine.
From S2P Require Import ClientIndex MatchingSpec EngineInvariant EngineRefine EngineTheorems.
From S2P Require Import EngineApi RiskEngine RiskTheorems Strategy StrategySession.

(** ** The start of a session *)

Lemma runner_start : session_ok runner_engine (mkABook [] []) ∧ session_index runner_engine = ∅.
Proof.
  split; [|reflexivity]. split; [apply new_inv; lia|reflexivity..|simpl; lia].
Qed.

Lemma start_fresh owner next : fresh owner next runner_engine.
Proof. intros w. simpl. by rewrite lookup_empty. Qed.

Lemma runner_maker_ok : maker_ok runner_maker.
Proof. split; simpl; try done; auto; lia. Qed.

Lemma runner_momentum_ok : momentum_ok runner_momentum.
Proof. split; simpl; try done; lia. Qed.

Lemma session_start : between_ticks runner_maker runner_momentum runner_engine 0 0.
Proof.
  destruct runner_start as [Hok Hix]. split; [|by split_and!|done].
  split; [apply runner_maker_ok|apply runner_momentum_ok|apply start_fresh|apply start_fresh|..];
    [by vm_compute|by vm_compute|simpl; lia|lia].
Qed.

(** ** One strategy alone *)

(** The maker alone: only its own two quotes, and no trade. *)
Lemma maker_ticks n s e total :
  maker_ok s → (if quoting_ s then quoted s e (current_ref_ s) 10 10 else unquoted s e) →
  fresh 1001 (mm_next_order_id s) e → pending_ (runner_sink e) = [] →
  mm_next_order_id s + 2 * Z.of_nat n < 18446744073709551616 →
  next_sequence_ (inner_ e) + 2 * Z.of_nat n < 18446744073709551615 →
  ∃ s' e', run_ticks (Ok true) n [AMaker s] e total = Ok ([AMaker s'], e', total) ∧ maker_ok s' ∧
    (if quoting_ s' then quoted s' e' (current_ref_ s') 10 10 else unquoted s' e') ∧
    quoting_ s' = quoting_ s || negb (Nat.eqb n 0).
Proof.
  revert s e. induction n as [|n IH]; intros s e Hs Hq Hf Hp Hn Hsq.
  { exists s, e. by rewrite orb_false_r. }
  destruct (maker_tick_session s e Hs) as (s1 & e1 & E1 & Hs1 & Hqu1 & Hnx1 & Hq1 & Hf1 & [Hk1 _ _ Hsq1]); try done; try lia.
  { destruct (quoting_ s); [right; eauto|by left]. }
  destruct (IH s1 e1 Hs1) as (s2 & e2 & E2 & Hs2 & Hq2 & Hqu2); rewrite ?Hqu1, ?Hk1; try done; try lia.
  assert (each_strategy dispatch_tick [AMaker s] e = Ok ([AMaker s1], e1)) as Et.
  { cbn [each_strategy dispatch_tick on_tick MarketMakerStrategy]. by rewrite E1. }
  exists s2, e2. cbn [run_ticks]. unfold run_tick. change (runner_api (Ok true)) with session_api. rewrite Et.
  cbn [mbind outcome_bind]. rewrite settle_done by (by rewrite Hk1). cbn [mbind outcome_bind]. split; [exact E2|]. split_and!; try done.
  rewrite Hqu2, Hqu1. by rewrite orb_true_r.
Qed.

(** A market order on an empty book: accepted, nothing to trade with. *)
Lemma empty_market e side size id :
  session_ok e (mkABook [] []) → 0 < size < 10 → in_u64 id → fresh 1002 id e →
  next_sequence_ (inner_ e) + 1 < 18446744073709551615 →
  ∃ resp e', api_submit (NMarket (mkMarket id side size 1002)) e = Ok (resp, e') ∧
    session_ok e' (mkABook [] []) ∧ runner_sink e' = runner_sink e ∧
    last_accepted_id_ (inner_ e') = <[1002 := id]> (last_accepted_id_ (inner_ e)) ∧
    next_sequence_ (inner_ e') <= next_sequence_ (inner_ e) + 1.
Proof.
  intros Hok Hsz Hid Hfr Hseq. set (o := NMarket (mkMarket id side size 1002)).
  assert (wf_new_order o) as Hwf by (unfold o; repeat split; simpl; u64; lia).
  assert (rejection o (inner_ e) (mkABook [] []) = None) as Hrej.
  { unfold rejection. simpl. rewrite (proj2 (Z.eqb_neq _ _)), fresh_not_duplicate by (done || lia).
    destruct side; simpl; by rewrite andb_false_r. }
  pose proof (session_submit e _ o Hok Hwf ltac:(lia) ltac:(simpl; lia) ltac:(done) Hrej) as Hs.
  destruct Hok as [Hi Hst Hcp Hcfg Hrf].
  destruct side; simpl in Hs; destruct Hs as (m & A' & E & [Hi' [HA' Hidx] Hsk Hm _ Hsq Hst' Hcp']); simpl in *;
    (eexists _, _; split; [exact E|]; split; [split; simpl; try congruence; by rewrite HA' in Hi'|]);
    (split; [unfold runner_sink; simpl; by rewrite Hsk|]; split; [done|simpl; lia]).
Qed.

Lemma momentum_ticks n mo e total :
  momentum_ok mo → session_ok e (mkABook [] []) → fresh 1002 (mom_next_order_id mo) e →
  pending_ (runner_sink e) = [] →
  mom_next_order_id mo + Z.of_nat n < 18446744073709551615 →
  next_sequence_ (inner_ e) + Z.of_nat n < 18446744073709551615 →
  ∃ mo' e', run_ticks (Ok true) n [AMomentum mo] e total = Ok ([AMomentum mo'], e', total) ∧
    session_ok e' (mkABook [] []) ∧ pending_ (runner_sink e') = [].
Proof.
  revert mo e. induction n as [|n IH]; intros mo e Hmo Hok Hf Hp Hn Hsq; [by exists mo, e|].
  pose proof (mu_next _ Hmo).
  assert (∃ mo1 e1, momentum_on_tick mo e = Ok (mo1, e1) ∧ momentum_ok mo1 ∧ session_ok e1 (mkABook [] []) ∧
    fresh 1002 (mom_next_order_id mo1) e1 ∧ runner_sink e1 = runner_sink e ∧
    mom_next_order_id mo1 <= mom_next_order_id mo + 1 ∧
    next_sequence_ (inner_ e1) <= next_sequence_ (inner_ e) + 1) as (mo1 & e1 & E1 & Hmo1 & Hok1 & Hf1 & Hk1 & Hn1 & Hs1).
  { unfold momentum_on_tick. rewrite (mu_config _ Hmo). cbn [probe_every_ticks momentum_config Z.eqb].
    set (mo1 := set_tick_count _ mo). assert (momentum_ok mo1) as Hmo1 by (destruct Hmo; by split).
    change (mom_config mo1) with (mom_config mo). rewrite (mu_config _ Hmo). cbn [probe_every_ticks momentum_config].
    destruct (negb _); [exists mo1, e; split_and!; try done; simpl; lia|].
    set (side := if probe_buy_ mo1 then Buy else Sell).
    destruct (empty_market e side 2 (mom_next_order_id mo)) as (resp & e' & E & Hok' & Hsk & Hm & Hs);
      try done; try lia; [u64; lia|].
    assert (u64_add (mom_next_order_id mo) 1 = mom_next_order_id mo + 1) as Hu by (apply u64_add_small; u64; lia).
    exists (flip_probe (momentum_fresh_id mo1).2), e'.
    split. { unfold momentum_fresh_id, flip_probe. cbn [mom_id mom_config mom_next_order_id mo1 set_tick_count].
      rewrite (mu_config _ Hmo), (mu_id _ Hmo). cbn [probe_size momentum_config]. rewrite E. done. }
    split; [destruct Hmo1; split; try done; simpl; rewrite Hu; lia|]. simpl. rewrite Hu. split_and!; try done; try lia.
    intros v. rewrite Hm, lookup_insert_eq. intros [= <-]. lia. }
  destruct (IH mo1 e1) as (mo2 & e2 & E2 & H2); try done; try lia; [by rewrite Hk1|].
  assert (each_strategy dispatch_tick [AMomentum mo] e = Ok ([AMomentum mo1], e1)) as Et.
  { cbn [each_strategy dispatch_tick on_tick MomentumStrategy]. by rewrite E1. }
  exists mo2, e2. cbn [run_ticks]. unfold run_tick. change (runner_api (Ok true)) with session_api. rewrite Et.
  cbn [mbind outcome_bind]. rewrite settle_done by (by rewrite Hk1). done.
Qed.

(** ** Whole sessions *)

(** The number of orders on a quoted or unquoted book. *)
Lemma quoted_count s e ref qb qa : quoted s e ref qb qa → order_count (book_ (inner_ e)) = 2.
Proof.
  intros (sb & sa & nb & na & Hok & _). unfold order_count.
  by rewrite (br_count _ _ (ei_book _ _ (so_inv _ _ Hok))).
Qed.

Lemma empty_count e : session_ok e (mkABook [] []) → order_count (book_ (inner_ e)) = 0.
Proof. intros Hok. unfold order_count. by rewrite (br_count _ _ (ei_book _ _ (so_inv _ _ Hok))). Qed.

(** C24. A session of both strategies never gets stuck and every tick settles: for any number of ticks
    (below 2^50) the run returns, with no trade left undelivered, at most eight trades per tick, the
    maker's reference within four spreads of its base, and, once started, a book that is exactly the
    maker's two quotes, full size, one spread below and above the reference. *)
Theorem session_settles n :
  Z.of_nat n < 1125899906842624 →
  ∃ s mo e total,
    run_ticks (Ok true) n [AMaker runner_maker; AMomentum runner_momentum] runner_engine 0 =
      Ok ([AMaker s; AMomentum mo], e, total) ∧
    pending_ (runner_sink e) = [] ∧ 0 <= total <= 8 * Z.of_nat n ∧
    -20 <= current_ref_ s - 10000 <= 20 ∧
    (n ≠ 0%nat → ∃ sb sa nb na, engine_inv (inner_ e)
       (mkABook [(sb, mkResting (bid_id_ s) Buy (current_ref_ s - 5) 10 nb 1001)]
                [(sa, mkResting (ask_id_ s) Sell (current_ref_ s + 5) 10 na 1001)])).
Proof.
  intros Hn. destruct (ticks_session n _ _ _ _ _ session_start ltac:(lia)) as (s & mo & e & total & E & Hb & Hqu & Ht).
  exists s, mo, e, total. split; [done|]. destruct Hb as [Hd Hq Hp].
  pose proof (mo_ref _ (du_maker _ _ _ _ _ Hd)). pose proof (mo_drift _ (du_maker _ _ _ _ _ Hd)).
  split; [done|]. split; [lia|]. split; [lia|]. intros Hn0.
  rewrite Hqu, (proj2 (Nat.eqb_neq _ _)) in Hq by done. simpl in Hq.
  destruct Hq as (sb & sa & nb & na & Hok & _). exists sb, sa, nb, na. apply Hok.
Qed.

Lemma runner_args_some args cfg cfg' :
  runner_args args cfg = Ok cfg' → run_market_maker cfg || run_momentum cfg = true →
  run_market_maker cfg' || run_momentum cfg' = true.
Proof.
  revert cfg. induction args as [|a args IH]; intros cfg E Hc; cbn [runner_args] in E; [by simplify_eq|].
  destruct (bool_decide (a = str "--mm-only")); [by eapply IH|].
  destruct (bool_decide (a = str "--momentum-only")); [by eapply IH|].
  destruct (starts_with _ a); [|by eapply IH].
  destruct (atoll (drop 8 a)); simpl in E; [|done..]. by eapply IH.
Qed.

(** The summary line of a session. *)
Definition summary (ticks total count : Z) : list Z :=
  str "strategy_runner: " ++ to_string_u64 ticks ++ str " ticks, " ++ to_string_u64 total ++
  str " trades, final book order_count=" ++ to_string_u64 count ++ [10].

Lemma report_summary cfg total e count :
  order_count (book_ (inner_ e)) = count → runner_report (Ok true) cfg total e = summary (ticks cfg) total count.
Proof. intros <-. reflexivity. Qed.

(** C36. The runner as a program: whatever its arguments (as long as it can read them and the number of
    ticks is below 2^50) it exits with 0 and prints the summary of the session; with either strategy
    alone the session has no trade at all, however the maker's reference drifts: the maker's new quotes
    never cross its own, so drift alone creates no order flow. *)
Theorem runner_reports args cfg :
  runner_args args RunnerConfig_default = Ok cfg → 0 <= ticks cfg < 1125899906842624 →
  ∃ total, runner_main (Ok true) args =
      Ok (0, summary (ticks cfg) total (if run_market_maker cfg && Z.ltb 0 (ticks cfg) then 2 else 0)) ∧
    0 <= total <= 8 * ticks cfg ∧
    (run_market_maker cfg && run_momentum cfg = false → total = 0).
Proof.
  intros Ea Hn. pose proof (runner_args_some _ _ _ Ea eq_refl) as Hsome.
  unfold runner_main. rewrite Ea. cbn [mbind outcome_bind]. unfold runner_strategies.
  set (n := Z.to_nat (ticks cfg)). assert (Z.of_nat n = ticks cfg) as Hnz by (unfold n; lia).
  assert (negb (Nat.eqb n 0) = Z.ltb 0 (ticks cfg)) as Hpos.
  { destruct (Nat.eqb_spec n 0), (Z.ltb_spec 0 (ticks cfg)); try done; lia. }
  destruct runner_start as [Hok Hix]. destruct (run_market_maker cfg), (run_momentum cfg); try done; cbn [app length].
  - destruct (ticks_session n _ _ _ _ _ session_start ltac:(lia)) as (s & mo & e & total & E & [Hd Hq Hp] & Hqu & Ht).
    exists total. rewrite bool_decide_false, E by done. cbn [mbind outcome_bind]. split; [|split; [lia|done]].
    simpl in Hqu. rewrite Hpos in Hqu. rewrite Hqu in Hq. do 2 f_equal. apply report_summary.
    destruct (Z.ltb 0 (ticks cfg)); [by eapply quoted_count|]. apply empty_count, Hq.
  - destruct (maker_ticks n runner_maker runner_engine 0 runner_maker_ok) as (s & e & E & Hs & Hq & Hqu);
      [by split_and!|apply start_fresh|done|..];
      [change (mm_next_order_id runner_maker) with 1001000000001; lia|simpl; lia|].
    exists 0. rewrite bool_decide_false, E by done. cbn [mbind outcome_bind]. split; [|split; [lia|done]].
    simpl in Hqu. rewrite Hpos in Hqu. rewrite Hqu in Hq. do 2 f_equal. apply report_summary.
    destruct (Z.ltb 0 (ticks cfg)); [by eapply quoted_count|]. apply empty_count, Hq.
  - destruct (momentum_ticks n runner_momentum runner_engine 0 runner_momentum_ok Hok) as (mo & e & E & Hok' & Hp);
      [apply start_fresh|done|..];
      [change (mom_next_order_id runner_momentum) with 1002000000001; lia|simpl; lia|].
    exists 0. rewrite bool_decide_false, E by done. cbn [mbind outcome_bind]. split; [|split; [lia|done]].
    do 2 f_equal. by apply report_summary, empty_count.
Qed.

(** ** The strategies over any engine *)

Section AnyEngine.
Context {E : Type} `{EngineAPI E}.

(** The tape, one trade after the other. *)
Fixpoint watch (ts : list Trade) (s : Momentum) (e : E) : outcome (Momentum * E) :=
  match ts with
  | [] => Ok (s, e)
  | t :: ts => '(s, e) ← momentum_on_trade t s e; watch ts s e
  end.

Lemma momentum_window_step t s e s' e' :
  momentum_on_trade t s e = Ok (s', e') →
  prices_ s' = window_push (lookback_n (mom_config s)) (t_price t) (prices_ s) ∧ mom_config s' = mom_config s.
Proof.
  unfold momentum_on_trade. destruct (_ || _); [by intros; simplify_eq|]. intros Ht. inv_ok.
  destruct a; [|by simplify_eq]. unfold fire in Ht. simpl in Ht.
  destruct (api_submit _ e) as [[r e1]| |]; simpl in Ht; [|done..]. by simplify_eq.
Qed.

Lemma window_push_last n p l k :
  (k <= length l)%nat → (length l - k <= n)%nat → (0 < k → length l - k = n)%nat →
  window_push n p (drop k l) = drop (length (l ++ [p]) - n) (l ++ [p]).
Proof.
  intros Hk Hn Hfull. unfold window_push. rewrite !length_app, length_drop. simpl.
  rewrite <- (drop_app_le l [p] k) by lia.
  destruct (Nat.ltb_spec n (length l - k + 1)); rewrite ?drop_drop; f_equal; lia.
Qed.

(** Equivalence: over any engine, whatever it answers, the deque of the momentum strategy is the
    last [lookback_n] trade prices of the tape, in order (all of them while there are fewer). *)
Theorem momentum_window_is_tape_suffix ts id config e s' e' :
  watch ts (Momentum_new id config) e = Ok (s', e') →
  prices_ s' = drop (length ts - lookback_n config) (t_price <$> ts).
Proof.
  set (n := lookback_n config).
  assert (∀ ts seen s e, lookback_n (mom_config s) = n → prices_ s = drop (length seen - n) seen →
    watch ts s e = Ok (s', e') →
    prices_ s' = drop (length seen + length ts - n) (seen ++ (t_price <$> ts))) as Hgen.
  { clear. intros ts. induction ts as [|t ts IH]; intros seen s e Hn Hp Hw; cbn [watch] in Hw.
    - simplify_eq. cbn [length fmap list_fmap]. by rewrite Nat.add_0_r, app_nil_r.
    - destruct (momentum_on_trade t s e) as [[s1 e1]| |] eqn:Et; cbn [mbind outcome_bind] in Hw; [|done..].
      destruct (momentum_window_step _ _ _ _ _ Et) as [Hp1 Hc1].
      rewrite (IH (seen ++ [t_price t]) s1 e1); try congruence.
      + rewrite length_app, fmap_cons, <- app_assoc. cbn [length app]. f_equal; lia.
      + rewrite Hp1, Hn, Hp. apply window_push_last; lia. }
  intros Hw. apply (Hgen ts [] (Momentum_new id config) e); [done|by destruct n|done].
Qed.
End AnyEngine.

(** The maker's oscillation stays in bounds: whatever the spread and the drift (as long as they are
    far from the limits of [int64_t]), a drift step is defined, leaves the accumulated drift within four
    spreads of the base, and turns round exactly when the step would leave that interval. *)
Theorem drift_bounded s :
  0 <= spread (mm_config s) <= 1152921504606846976 →
  -1152921504606846976 <= drift_per_tick (mm_config s) <= 1152921504606846976 →
  drift_dir_ s = 1 ∨ drift_dir_ s = -1 →
  Z.abs (drift_accum_ s) <= 4 * spread (mm_config s) →
  let bound := 4 * spread (mm_config s) in
  let next := drift_accum_ s + drift_dir_ s * drift_per_tick (mm_config s) in
  ∃ dir accum, drift_step s = Ok (dir, accum) ∧ Z.abs accum <= bound ∧ accum = Z.max (- bound) (Z.min bound next) ∧
    dir = (if Z.ltb bound next then -1 else if Z.ltb next (- bound) then 1 else drift_dir_ s).
Proof.
  intros Hsp Hd Hdir Hac bound next.
  assert (∀ z, -6917529027641081856 <= z <= 6917529027641081856 → i64_check z = Ok z) as Hi.
  { intros z Hz. unfold i64_check. by rewrite (proj2 (Z.leb_le _ _)), (proj2 (Z.ltb_lt _ _)) by lia. }
  unfold drift_step, i64_mul, i64_add, i64_opp.
  assert (-1152921504606846976 <= drift_dir_ s * drift_per_tick (mm_config s) <= 1152921504606846976)
    by (destruct Hdir as [-> | ->]; lia).
  rewrite !Hi by lia. cbn [mbind outcome_bind]. rewrite !Hi by lia. cbn [mbind outcome_bind]. fold next.
  replace (spread (mm_config s) * 4) with bound by lia.
  destruct (Z.ltb_spec bound next); [eexists _, _; split; [done|]; lia|].
  cbn [mbind outcome_bind].
  destruct (Z.ltb_spec next (- bound)); eexists _, _; (split; [done|]); lia.
Qed.

(** ** A quote the maker loses *)

(** A maker next to another client's ask of 4 at 9990, below the maker's bid. *)
Definition crowded : outcome (MarketMaker * RunnerEngine) :=
  let m := MatchingEngine_new (mkDeferred []) 8 StpConfig_default in
  let e := RiskEngine_new m runner_risk in
  '(_, e) ← api_submit (NLimit (mkLimit 7 Sell 9990 4 7)) e;
  maker_on_tick runner_maker e.

(** The maker can lose track of a resting quote: when its new bid itself takes a smaller resting ask
    whole, the trade says a resting order was removed (the other client's), the maker takes that for its
    own bid, forgets the bid's id without cancelling it, and quotes again.  Two of its bids are then on
    the book, and only the newer one will ever be pulled. *)
Theorem maker_loses_quote :
  ∃ s e s' e' t,
    crowded = Ok (s, e) ∧ pending_ (runner_sink e) = [t] ∧
    buy_order_id t = bid_id_ s ∧ sell_order_id t = 7 ∧ resting_order_removed t = true ∧
    maker_on_trade t s e = Ok (s', e') ∧
    find_order (bid_id_ s) (book_ (inner_ e')) ≠ None ∧ find_order (bid_id_ s') (book_ (inner_ e')) ≠ None ∧
    bid_id_ s' ≠ bid_id_ s ∧ ask_id_ s' ≠ bid_id_ s ∧ order_count (book_ (inner_ e')) = 3.
Proof.
  destruct crowded as [[s e]| |] eqn:Ec; [|vm_compute in Ec; discriminate Ec..].
  vm_compute in Ec. injection Ec as <- <-. eexists _, _, _, _, _.
  split; [reflexivity|]. split; [reflexivity|]. split; [reflexivity|]. split; [reflexivity|]. split; [reflexivity|].
  split; [vm_compute; reflexivity|]. vm_compute. split_and!; congruence.
Qed.

(** ** Witnesses *)

Lemma session_settles_witness :
  ∃ s mo e total,
    run_ticks (Ok true) 5000 [AMaker runner_maker; AMomentum runner_momentum] runner_engine 0 =
      Ok ([AMaker s; AMomentum mo], e, total) ∧ pending_ (runner_sink e) = [] ∧ total <= 40000.
Proof.
  destruct (session_settles 5000) as (s & mo & e & total & E & Hp & Ht & _); [lia|].
  exists s, mo, e, total. split; [exact E|]. split; [exact Hp|lia].
Defined.

Lemma runner_reports_witness :
  runner_main (Ok true) [str "--mm-only"; str "--ticks=100"] = Ok (0, summary 100 0 2).
Proof.
  destruct (runner_reports [str "--mm-only"; str "--ticks=100"] (mkRunner true false 100)) as (total & E & _ & H0);
    [vm_compute; reflexivity|simpl; lia|]. rewrite E, H0 by reflexivity. reflexivity.
Defined.

Definition tape_trade (p : Z) : Trade := mkTrade 0 1 2 p 1 false.

Lemma momentum_window_is_tape_suffix_witness :
  ∃ s' e', watch (tape_trade <$> [9995; 9996; 9997; 10000; 10005]) runner_momentum
             (RiskEngine_new (MatchingEngine_new (mkDeferred []) 8 session_stp) runner_risk) = Ok (s', e') ∧
    prices_ s' = [9996; 9997; 10000; 10005].
Proof.
  destruct (watch (tape_trade <$> [9995; 9996; 9997; 10000; 10005]) runner_momentum
             (RiskEngine_new (MatchingEngine_new (mkDeferred []) 8 session_stp) runner_risk)) as [[s' e']| |] eqn:Ew;
    [|vm_compute in Ew; discriminate Ew..].
  exists s', e'. split; [reflexivity|]. exact (momentum_window_is_tape_suffix _ _ _ _ _ _ Ew).
Defined.

Lemma drift_bounded_witness :
  ∃ dir accum, drift_step (set_drift 10019 1 19 runner_maker) = Ok (dir, accum) ∧ accum = 20 ∧ dir = -1.
Proof.
  destruct (drift_bounded (set_drift 10019 1 19 runner_maker)) as (dir & accum & E & _ & Ha & Hd);
    [simpl; lia|simpl; lia|by left|simpl; lia|]. exists dir, accum. split; [exact E|].
  split; [rewrite Ha; reflexivity|rewrite Hd; reflexivity].
Defined.
