(* ===== verification/Cli.v ===== *)
(** * Cli: apps/cli (parser, printer and main loop)

    The command-line client as a function from the bytes on standard input to
    the bytes on standard output, over any engine behind the port. *)
From Stdlib Require Import String.
From S2P Require Import Prelude Core Text TextProtocol StdMap PriceLevel OrderBook MatchingEngine EngineApi.

(** ** cli_parser.{hpp,cpp} *)

Inductive CliResult :=
| KLimit (o : LimitOrder) | KMarket (o : MarketOrder) | KCancel (c : CancelRequest)
| KPrintBook | KQuit | KError (message : list Z).

(** Blanks are spaces and tabs here, not the parser's white space. *)
Definition is_blank (c : Z) : bool := Z.eqb c 32 || Z.eqb c 9.

Fixpoint skip_blanks (s : list Z) : list Z :=
  match s with [] => [] | c :: s' => if is_blank c then skip_blanks s' else s end.

Fixpoint span_word (s : list Z) : list Z * list Z :=
  match s with
  | [] => ([], [])
  | c :: s' => if is_blank c then ([], s) else (let '(w, r) := span_word s' in (c :: w, r))
  end.

Definition first_token (line : list Z) : list Z := (span_word (skip_blanks line)).1.

Definition is_single_token (line : list Z) : bool :=
  bool_decide (skip_blanks (span_word (skip_blanks line)).2 = []).

Definition cli_parse (line : list Z) : CliResult :=
  let cmd := first_token line in
  if decide (cmd = str "QUIT") then
    if negb (is_single_token line) then KError (str "QUIT takes no arguments") else KQuit
  else if decide (cmd = str "PRINT_BOOK") then
    if negb (is_single_token line) then KError (str "PRINT_BOOK takes no arguments") else KPrintBook
  else
    match parse line with
    | PLimit o => KLimit o
    | PMarket o => KMarket o
    | PCancel c => KCancel c
    | PError m => KError m
    end.

(** ** console_printer.{hpp,cpp} *)

Definition cli_result_to_string (result : EngineResult) : list Z :=
  match result with
  | Accepted => str "ACCEPTED"
  | DuplicateOrderId => str "REJECTED: DuplicateOrderId"
  | UnknownOrderId => str "REJECTED: UnknownOrderId"
  | InvalidQuantity => str "REJECTED: InvalidQuantity"
  | InvalidPrice => str "REJECTED: InvalidPrice"
  | PoolExhausted => str "REJECTED: PoolExhausted"
  | SelfTradePrevented => str "REJECTED: SelfTradePrevented"
  | PriceOutOfBand => str "REJECTED: PriceOutOfBand"
  | QuantityTooLarge => str "REJECTED: QuantityTooLarge"
  | TickSizeMisaligned => str "REJECTED: TickSizeMisaligned"
  | InternalError => str "REJECTED: InternalError"
  end.

Definition print_fill (trade : Trade) : list Z :=
  str " FILL " ++ to_string_u64 (t_quantity trade) ++ str "@" ++ to_string_i64 (t_price trade).

Definition print_response (response : EngineResponse) : list Z :=
  if negb (bool_decide (status response = Accepted)) then cli_result_to_string (status response) ++ [10]
  else
    match trades response with
    | [] => str "ACCEPTED: no fills, remaining_qty=" ++ to_string_u64 (remaining_qty response) ++ [10]
    | _ =>
        str "ACCEPTED:" ++ concat (map print_fill (trades response)) ++
        (if Z.ltb 0 (remaining_qty response)
         then str " | remaining_qty=" ++ to_string_u64 (remaining_qty response)
         else str " | FULLY FILLED") ++ [10]
    end.

Definition print_cancel_response (response : EngineResponse) (id : Z) : list Z :=
  if bool_decide (status response = Accepted) then
    str "CANCELLED: order " ++ to_string_u64 id ++ str ", remaining_qty=" ++
    to_string_u64 (remaining_qty response) ++ [10]
  else cli_result_to_string (status response) ++ [10].

(** One line of depth. *)
Definition print_level (price qty : Z) : list Z :=
  str "  " ++ to_string_i64 price ++ str ": qty=" ++ to_string_u64 qty ++ [10].

Definition print_book (book : OrderBook) : list Z :=
  str "=== ORDER BOOK ===" ++ [10] ++ str "--- ASKS ---" ++ [10] ++
  concat (map (λ n, print_level n.1 (total_quantity n.2)) (rev (asks_ book))) ++
  str "--- BIDS ---" ++ [10] ++
  concat (map (λ n, print_level n.1 (total_quantity n.2)) (bids_ book)) ++
  str "==================" ++ [10].

Definition print_error (message : list Z) : list Z := str "ERROR: " ++ message ++ [10].

(** ** main.cpp *)

(** Repeated [std::getline]: what the newlines end, and a last line that no newline ends. *)
Fixpoint getlines (acc input : list Z) : list (list Z) :=
  match input with
  | [] => match acc with [] => [] | _ => [acc] end
  | c :: input => if Z.eqb c 10 then acc :: getlines [] input else getlines (acc ++ [c]) input
  end.

Section Main.
Context {E : Type} `{EngineAPI E}.

(** The visitor: what is printed for one parsed line, and what the engine becomes. *)
Definition cli_visit (cmd : CliResult) (api : E) : outcome (list Z * E) :=
  match cmd with
  | KLimit o => '(response, api) ← api_submit (NLimit o) api; Ok (print_response response, api)
  | KMarket o => '(response, api) ← api_submit (NMarket o) api; Ok (print_response response, api)
  | KCancel c => '(response, api) ← api_cancel (cr_id c) api; Ok (print_cancel_response response (cr_id c), api)
  | KPrintBook => Ok (print_book (api_book api), api)
  | KQuit => Ok ([], api)
  | KError message => Ok (print_error message, api)
  end.

Fixpoint cli_loop (lines : list (list Z)) (api : E) : outcome (list Z * E) :=
  match lines with
  | [] => Ok ([], api)
  | line :: lines =>
      let result := cli_parse line in
      '(out, api) ← cli_visit result api;
      match result with
      | KQuit => Ok (out, api)
      | _ => '(more, api) ← cli_loop lines api; Ok (out ++ more, api)
      end
  end.

Definition cli_main (input : list Z) (api : E) : outcome (list Z * E) := cli_loop (getlines [] input) api.
End Main.

(** [MatchingEngine engine;]: no sink, a pool of a million orders, prevention off. *)
Definition cli_engine : MatchingEngine unit := MatchingEngine_new tt (Z.to_nat 1000000) StpConfig_default.
