(* ===== verification/CliTheorems.v ===== *)
(** * CliTheorems: the command-line client

    What is typed in the documented grammar is what the engine gets, the
    answers come back in order, and the printed book is the engine's book. *)
From Stdlib Require Import String.
From S2P Require Import Prelude Core Text TextProtocol StdMap OrderPool PriceLevel OrderBook MatchingEngine.
From S2P Require Import ClientIndex MatchingSpec EngineInvariant EngineTheorems EngineWitness EngineApi Cli.

(** ** Sessions *)

(** A command as the client can type it: the owner is the default client. *)
Definition typed (c : EngineCommand) : EngineCommand :=
  match c with
  | CLimit o => CLimit (mkLimit (lo_id o) (lo_side o) (lo_price o) (lo_quantity o) 0)
  | CMarket o => CMarket (mkMarket (mo_id o) (mo_side o) (mo_quantity o) 0)
  | CCancel c => CCancel c
  end.

Section Sessions.
Context {E : Type} `{EngineAPI E}.

(** The call a command is, and the answer printed for it. *)
Definition api_call (c : EngineCommand) (e : E) : outcome (EngineResponse * E) :=
  match c with
  | CLimit o => api_submit (NLimit o) e
  | CMarket o => api_submit (NMarket o) e
  | CCancel c => api_cancel (cr_id c) e
  end.

Definition answer (c : EngineCommand) (r : EngineResponse) : list Z :=
  match c with CLimit _ | CMarket _ => print_response r | CCancel c => print_cancel_response r (cr_id c) end.

(** Commands one after the other, with what is printed for them. *)
Fixpoint dialogue (cs : list EngineCommand) (e : E) : outcome (list Z * E) :=
  match cs with
  | [] => Ok ([], e)
  | c :: cs =>
      '(r, e) ← api_call c e;
      '(more, e) ← dialogue cs e;
      Ok (answer c r ++ more, e)
  end.
End Sessions.

(** A newline ends each line. *)
Definition typed_line (c : EngineCommand) : list Z := print_command c ++ [10].

Lemma getlines_line line rest acc :
  10 ∉ line → getlines acc (line ++ 10 :: rest) = (acc ++ line) :: getlines [] rest.
Proof.
  revert acc. induction line as [|c line IH]; intros acc Hn; simpl; [by rewrite app_nil_r|].
  apply not_elem_of_cons in Hn as [Hc Hn]. rewrite (proj2 (Z.eqb_neq _ _)) by congruence.
  rewrite IH by done. by rewrite <- app_assoc.
Qed.

Lemma span_word_app w s : Forall (λ c, is_blank c = false) w → span_word (w ++ 32 :: s) = (w, 32 :: s).
Proof. induction 1 as [|c w Hc _ IH]; simpl; [done|]. by rewrite Hc, IH. Qed.

Lemma space_blank c : is_space c = false → is_blank c = false.
Proof. unfold is_space, is_blank. by destruct (Z.eqb c 32), (Z.eqb c 9). Qed.

Lemma token_blank t : token t → Forall (λ c, is_blank c = false) t.
Proof. intros [_ Hf]. eapply Forall_impl; [exact Hf|]. intros c. apply space_blank. Qed.

Lemma first_token_join t u ts : token t → first_token (join (t :: u :: ts)) = t.
Proof.
  intros Ht. pose proof (token_blank t Ht) as Hb. destruct Ht as [Hne _].
  unfold first_token. change (join (t :: u :: ts)) with (t ++ 32 :: join (u :: ts)).
  assert (skip_blanks (t ++ 32 :: join (u :: ts)) = t ++ 32 :: join (u :: ts)) as ->.
  { destruct t as [|c t]; [done|]. apply Forall_cons in Hb as [Hc _]. simpl. by rewrite Hc. }
  by rewrite span_word_app.
Qed.

Lemma token_newline t : token t → 10 ∉ t.
Proof. intros [_ Hf] Hin. rewrite Forall_forall in Hf. by specialize (Hf 10 Hin). Qed.

Lemma join_newline ts : Forall token ts → 10 ∉ join ts.
Proof.
  induction 1 as [|t ts Ht Hts IH]; simpl; [apply not_elem_of_nil|]. destruct ts; [by apply token_newline|].
  rewrite elem_of_app, elem_of_cons. intros [Hi|[Hi|Hi]]; [by apply (token_newline t)|done|done].
Qed.

Lemma cli_parse_command c :
  wf_command_fields c →
  cli_parse (print_command c) =
    match typed c with CLimit o => KLimit o | CMarket o => KMarket o | CCancel c => KCancel c end.
Proof.
  intros Hwf. destruct (print_command_tokens c Hwf) as (t & u & ts & E & Ht & Hs).
  apply Forall_cons in Ht as [Ht _]. pose proof (first_token_join t u ts Ht) as Hft. rewrite <- E in Hft.
  unfold cli_parse. rewrite Hft, parse_print_roundtrip by done.
  destruct c as [o|o|[id]]; injection Hs as -> _ _; by rewrite !decide_False by done.
Qed.

(** C32. The client as a program: when the lines typed are commands in the documented grammar, then QUIT,
    the engine behind the port receives exactly those commands, in order, as the default client, and what
    is printed is exactly their answers, in order; nothing after QUIT has any effect. *)
Theorem cli_session_runs_commands {E} `{EngineAPI E} cs rest (e : E) :
  Forall wf_command_fields cs →
  cli_main (concat (typed_line <$> cs) ++ str "QUIT" ++ [10] ++ rest) e = dialogue (typed <$> cs) e.
Proof.
  intros Hcs. unfold cli_main. revert e. induction Hcs as [|c cs Hc Hcs IH]; intros e.
  - cbn [fmap list_fmap concat app]. rewrite getlines_line by (vm_compute; set_solver). done.
  - rewrite fmap_cons. cbn [concat]. unfold typed_line at 1. rewrite <- !app_assoc. cbn [app].
    destruct (print_command_tokens c Hc) as (t & u & ts & Et & Ht & _).
    rewrite getlines_line by (rewrite Et; by apply join_newline). cbn [app cli_loop].
    rewrite cli_parse_command by done. cbn [fmap list_fmap dialogue]. fold (typed <$> cs).
    destruct c as [o|o|[id]]; cbn [typed cli_visit api_call answer cr_id];
      (destruct (api_submit _ e) as [[r e1]| |] || destruct (api_cancel _ e) as [[r e1]| |]); try done;
      cbn [mbind outcome_bind]; by rewrite IH.
Qed.

(** A line that is not a command changes nothing: it is answered with an error, the book or silence. *)
Lemma cli_other_lines {E} `{EngineAPI E} line (e : E) :
  match cli_parse line with
  | KError m => cli_visit (cli_parse line) e = Ok (print_error m, e)
  | KPrintBook => cli_visit (cli_parse line) e = Ok (print_book (api_book e), e)
  | KQuit => cli_visit (cli_parse line) e = Ok ([], e)
  | _ => True
  end.
Proof. by destruct (cli_parse line). Qed.

(** ** The printed book *)

(** The quantity resting at a price. *)
Definition depth_at (l : list Entry) (p : Z) : Z := sumZ (λ x, r_quantity x.2) (filter (λ x, r_price x.2 = p) l).

Lemma sorted_nodup {V} s (a : list (Z * V)) : map_sorted (tree_lt s) a → NoDup a.*1.
Proof.
  unfold map_sorted. induction 1 as [|k l _ IH Hk]; constructor; [|done].
  intros Hin. rewrite Forall_forall in Hk. specialize (Hk k Hin). by rewrite ltb_irrefl in Hk.
Qed.

(** Reversing a sorted list sorts it the other way. *)
Lemma sorted_rev {B} (R : relation B) l : StronglySorted R l → StronglySorted (λ a b, R b a) (rev l).
Proof.
  induction 1 as [|x l _ IH Hx]; simpl; [constructor|]. apply StronglySorted_app_2; [|done|repeat constructor].
  intros a b Ha ->%list_elem_of_singleton. rewrite Forall_forall in Hx. apply Hx.
  by apply list_elem_of_In, in_rev, list_elem_of_In.
Qed.

Lemma sorted_impl {B} (R R' : relation B) l :
  (∀ a b, R a b → R' a b) → StronglySorted R l → StronglySorted R' l.
Proof. intros HR. induction 1 as [|x l _ IH Hx]; constructor; [done|]. eapply Forall_impl; [exact Hx|auto]. Qed.

Lemma depth_levels mem s t a :
  map_related (level_ok mem s) t a → NoDup a.*1 →
  Forall2 (λ n p, n.1 = p ∧ total_quantity n.2 = wrap64 (depth_at (concat a.*2) p)) t a.*1.
Proof.
  intros Hr Hnd.
  assert (∀ l k, Forall (λ x : Entry, r_price x.2 ≠ k) l → depth_at l k = 0) as Hnone.
  { intros l k Hl. unfold depth_at. induction Hl as [|x l Hx _ IH]; [done|]. by rewrite filter_cons_False. }
  assert (∀ l k, Forall (λ x : Entry, r_price x.2 = k) l → depth_at l k = queue_quantity l) as Hall.
  { intros l k Hl. unfold depth_at, queue_quantity. induction Hl as [|x l Hx _ IH]; [done|].
    rewrite filter_cons_True by done. simpl. by rewrite IH. }
  assert (∀ l1 l2 k, depth_at (l1 ++ l2) k = depth_at l1 k + depth_at l2 k) as Happ.
  { intros. unfold depth_at. by rewrite filter_app, sumZ_app. }
  induction Hr as [|[k lv] [k' q] t a [Hk (Hl & Hq & Hf)] Hr IH]; [constructor|]. rewrite !fmap_cons in *. cbn [concat fst snd] in *. subst k'.
  apply NoDup_cons in Hnd as [Hk Hnd].
  assert (Forall (λ x : Entry, r_price x.2 = k) q) as Hqk by (eapply Forall_impl; [exact Hf|]; naive_solver).
  assert (Forall (λ x : Entry, r_price x.2 ≠ k) (concat a.*2)) as Hrest.
  { apply Forall_forall. intros x Hx <-. apply Hk. by eapply levels_entry. }
  constructor.
  - simpl. split; [done|]. unfold total_quantity. rewrite (lr_total _ _ _ _ Hl), Happ, Hall, (Hnone _ _ Hrest) by done. f_equal. lia.
  - specialize (IH Hnd). clear -IH Hqk Hk Happ Hnone. revert IH. generalize (concat a.*2) at 1 2. intros l IH.
    assert (∀ p, p ∈ a.*1 → depth_at q p = 0) as Hz.
    { intros p Hp. apply Hnone. eapply Forall_impl; [exact Hqk|]. intros x <- Heq. apply Hk. by rewrite Heq. }
    clear Hk. revert IH Hz. generalize (a.*1). intros ps0 IH. induction IH as [|n p t ps [H1 H2] _ IH2]; intros Hz; constructor.
    + split; [done|]. rewrite Happ, (Hz p) by constructor. simpl. done.
    + apply IH2. intros p' Hp'. apply Hz. by constructor.
Qed.

Lemma print_levels (t : list (Z * PriceLevel)) ps f :
  Forall2 (λ n p, n.1 = p ∧ total_quantity n.2 = f p) t ps →
  map (λ n, print_level n.1 (total_quantity n.2)) t = map (λ p, print_level p (f p)) ps.
Proof. induction 1 as [|[k lv] p t ps [H1 H2] _ IH]; simpl in *; [done|]. by rewrite H1, H2, IH. Qed.

(** PRINT_BOOK shows the book: on every live engine the text is the asks from the highest price down,
    then the bids from the highest price down, one line for each price at which an order rests, with the
    total quantity resting there (modulo 2^64). *)
Theorem print_book_shows_depth {Sk} `{EventSink Sk} sink capacity stp (e : MatchingEngine Sk) :
  live sink capacity stp e →
  ∃ A asks bids, engine_inv e A ∧
    (∀ p, p ∈ asks ↔ ∃ x, x ∈ ab_asks A ∧ r_price x.2 = p) ∧ StronglySorted (λ p q, q < p) asks ∧
    (∀ p, p ∈ bids ↔ ∃ x, x ∈ ab_bids A ∧ r_price x.2 = p) ∧ StronglySorted (λ p q, q < p) bids ∧
    print_book (book_ e) =
      str "=== ORDER BOOK ===" ++ [10] ++ str "--- ASKS ---" ++ [10] ++
      concat (map (λ p, print_level p (wrap64 (depth_at (ab_asks A) p))) asks) ++
      str "--- BIDS ---" ++ [10] ++
      concat (map (λ p, print_level p (wrap64 (depth_at (ab_bids A) p))) bids) ++
      str "==================" ++ [10].
Proof.
  intros (A & Hi & _)%live_inv. exists A.
  assert (∀ s, ∃ ps, (∀ p, p ∈ ps ↔ ∃ x, x ∈ ab_side s A ∧ r_price x.2 = p) ∧
    StronglySorted (λ a b, tree_lt s a b = true) ps ∧
    Forall2 (λ n p, n.1 = p ∧ total_quantity n.2 = wrap64 (depth_at (ab_side s A) p)) (tree s (book_ e)) ps) as Hside.
  { intros s. destruct (br_side _ _ (ei_book _ _ Hi) s) as (a & Hr & Hs & ->). exists a.*1. split; [|split; [done|]].
    - intros p. split; [|intros (x & Hx & <-); by eapply levels_entry].
      intros ([k q] & -> & Hin)%list_elem_of_fmap. simpl in *.
      apply list_elem_of_lookup in Hin as [i Hi2]. destruct (Forall2_lookup_r _ _ _ _ _ Hr Hi2) as ([k' lv] & _ & Hk & _ & Hq & Hf).
      simpl in Hk, Hq, Hf. subst k'. destruct q as [|x q]; [done|]. apply Forall_cons in Hf as [[Hp _] _]. exists x. simpl in *. split; [|done].
      apply list_elem_of_In, in_concat. exists (x :: q). split; [|by left].
      apply list_elem_of_In, list_elem_of_fmap. exists (k, x :: q). split; [done|]. by eapply list_elem_of_lookup_2.
    - apply (depth_levels _ _ _ _ Hr). by eapply sorted_nodup. }
  destruct (Hside Sell) as (pa & Ha & Hsa & Hfa). destruct (Hside Buy) as (pb & Hb & Hsb & Hfb). simpl in *.
  exists (rev pa), pb. split; [done|].
  split; [intros p; rewrite <- Ha, !list_elem_of_In; symmetry; apply in_rev|].
  split; [|split; [done|split]].
  { apply (sorted_rev (λ p q, p < q)). eapply sorted_impl; [|exact Hsa]. intros p q. apply Z.ltb_lt. }
  { eapply sorted_impl; [|exact Hsb]. intros p q. simpl. rewrite Z.gtb_ltb. apply Z.ltb_lt. }
  unfold print_book. rewrite (print_levels _ _ _ Hfb). rewrite map_rev, (print_levels _ _ _ Hfa), <- map_rev. done.
Qed.

(** ** Line ends *)

(** A line that ends in a carriage return: the grammar the client shares with the
    gateway takes it for white space, the client's own two commands do not. *)
Lemma carriage_return_quit :
  cli_parse (str "CANCEL 1" ++ [13]) = KCancel (mkCancel 1) ∧
  cli_parse (str "QUIT" ++ [13]) = KError (str "Unknown command: QUIT") ∧ cli_parse (str "QUIT ") = KQuit.
Proof. vm_compute. done. Qed.

(** ** Witnesses *)

#[local] Instance cli_demo_api : EngineAPI (MatchingEngine (list Event)) := matching_engine_api Undefined.

Definition cli_demo : list EngineCommand :=
  [CLimit (mkLimit 1 Sell 100 5 0); CMarket (mkMarket 2 Buy 2 0); CCancel (mkCancel 1); CCancel (mkCancel 9)].

Lemma cli_session_runs_commands_witness :
  ∃ e, cli_main (concat (typed_line <$> cli_demo) ++ str "QUIT" ++ [10] ++ str "CANCEL 1")
         (MatchingEngine_new [] 8 StpConfig_default) =
       Ok (str "ACCEPTED: no fills, remaining_qty=5" ++ [10] ++ str "ACCEPTED: FILL 2@100 | FULLY FILLED" ++ [10] ++
           str "CANCELLED: order 1, remaining_qty=3" ++ [10] ++ str "REJECTED: UnknownOrderId" ++ [10], e) ∧
       order_count (book_ e) = 0.
Proof.
  rewrite (cli_session_runs_commands cli_demo (str "CANCEL 1") (MatchingEngine_new [] 8 StpConfig_default));
    [|repeat constructor; simpl; u64; lia].
  eexists. split; [vm_compute; reflexivity|vm_compute; reflexivity].
Defined.

Lemma print_book_shows_depth_witness :
  ∃ A (asks bids : list Z), engine_inv demo A ∧ (100 ∈ asks ↔ ∃ x, x ∈ ab_asks A ∧ r_price x.2 = 100) ∧
    StronglySorted (λ p q, q < p) bids.
Proof.
  destruct (print_book_shows_depth [] 8 demo_stp demo demo_live) as (A & asks & bids & Hi & Ha & _ & _ & Hs & _).
  exists A, asks, bids. split; [exact Hi|]. split; [apply Ha|exact Hs].
Defined.

Lemma demo_book_text :
  print_book (book_ demo) =
    str "=== ORDER BOOK ===" ++ [10] ++ str "--- ASKS ---" ++ [10] ++ str "  102: qty=4" ++ [10] ++
    str "  100: qty=12" ++ [10] ++ str "--- BIDS ---" ++ [10] ++ str "  95: qty=10" ++ [10] ++
    str "==================" ++ [10].
Proof. vm_compute. reflexivity. Qed.
