(* ===== verification/Workload.v ===== *)
(** * Workload: tools/workload_generator

    The generator of synthetic command streams.  Its random source,
    [std::mt19937_64] with the distributions drawn from it, is a parameter: the
    standard fixes the range of each draw, not the algorithm of a distribution.
    The rest of the generator is the code's. *)
From Corelib Require Import SpecFloat.
From S2P Require Import Prelude Core RiskEngine Strategy.

Record WorkloadConfig := mkWorkload {
  wl_seed : Z;
  mid_price : Z;
  price_stddev_log : spec_float;
  quantity_min : Z;
  quantity_max : Z;
  add_limit_ratio : spec_float;
  add_market_ratio : spec_float;
  cancel_ratio : spec_float }.

(** The engine together with the state of its distributions: [seeded], then one
    draw from each distribution the code builds. *)
Class RandomSource (R : Type) := {
  seeded : Z → R;
  draw_type : R → spec_float * R;             (** uniform_real(0, 1) *)
  draw_side : R → Z * R;                      (** uniform_int(0, 1) *)
  draw_offset : spec_float → R → spec_float * R;  (** lognormal(0, sigma) *)
  draw_quantity : Z → Z → R → Z * R;          (** uniform_int(min, max) *)
  draw_index : Z → R → Z * R                  (** uniform_int(0, n) *) }.

Record WorkloadGenerator (R : Type) := mkGenerator {
  wg_config : WorkloadConfig;
  rng_ : R;
  assumed_resting_ : list Z;
  next_id_ : Z }.
Arguments mkGenerator {R} _ _ _ _.
Arguments wg_config {R} _.
Arguments rng_ {R} _.
Arguments assumed_resting_ {R} _.
Arguments next_id_ {R} _.

Section Generator.
Context {R : Type} `{RandomSource R}.
Implicit Types g : WorkloadGenerator R.

Definition WorkloadGenerator_new (config : WorkloadConfig) : WorkloadGenerator R :=
  mkGenerator config (seeded (wl_seed config)) [] 1.

Definition set_rng (r : R) g : WorkloadGenerator R :=
  mkGenerator (wg_config g) r (assumed_resting_ g) (next_id_ g).

Definition side_of_draw (d : Z) : Side := if Z.eqb d 0 then Buy else Sell.

(** [static_cast<int64_t>(std::round(x))]: undefined where the value does not fit. *)
Definition rounded_offset (x : spec_float) : outcome Z := deref (llround x).

(** The limit order of both branches that generate one. *)
Definition generate_limit g : outcome (EngineCommand * WorkloadGenerator R) :=
  let config := wg_config g in
  let '(d, r) := draw_side (rng_ g) in
  let side := side_of_draw d in
  let '(offset_raw, r) := draw_offset (price_stddev_log config) r in
  offset ← rounded_offset offset_raw;
  let offset := if Z.ltb offset 1 then 1 else offset in
  let '(sign, r) := draw_side r in
  price_val ← (if Z.eqb sign 0 then i64_add (mid_price config) offset else i64_sub (mid_price config) offset);
  let price_val := if Z.leb price_val 0 then 1 else price_val in
  let '(qty, r) := draw_quantity (quantity_min config) (quantity_max config) r in
  let id := next_id_ g in
  Ok (CLimit (mkLimit id side price_val qty 0),
      mkGenerator config r (assumed_resting_ g ++ [id]) (u64_add (next_id_ g) 1)).

Definition generate_market g : EngineCommand * WorkloadGenerator R :=
  let config := wg_config g in
  let '(d, r) := draw_side (rng_ g) in
  let side := side_of_draw d in
  let '(qty, r) := draw_quantity (quantity_min config) (quantity_max config) r in
  let id := next_id_ g in
  (CMarket (mkMarket id side qty 0), mkGenerator config r (assumed_resting_ g) (u64_add (next_id_ g) 1)).

(** [v[idx] = v.back(); v.pop_back()]: the element at [idx] and what is left. *)
Definition swap_and_pop (idx : nat) (v : list Z) : outcome (Z * list Z) :=
  x ← deref (v !! idx);
  back ← deref (last v);
  Ok (x, take (length v - 1) (<[idx := back]> v)).

Definition generate_cancel g : outcome (EngineCommand * WorkloadGenerator R) :=
  match assumed_resting_ g with
  | [] => generate_limit g
  | _ =>
      let '(idx, r) := draw_index (Z.of_nat (length (assumed_resting_ g)) - 1) (rng_ g) in
      '(cancel_id, resting) ← swap_and_pop (Z.to_nat idx) (assumed_resting_ g);
      Ok (CCancel (mkCancel cancel_id), mkGenerator (wg_config g) r resting (next_id_ g))
  end.

(** One round of the loop. *)
Definition generate_one g : outcome (EngineCommand * WorkloadGenerator R) :=
  let limit_threshold := add_limit_ratio (wg_config g) in
  let market_threshold := SFadd 53 1024 limit_threshold (add_market_ratio (wg_config g)) in
  let '(roll, r) := draw_type (rng_ g) in
  let g := set_rng r g in
  if SFltb roll limit_threshold then generate_limit g
  else if SFltb roll market_threshold then Ok (generate_market g)
  else generate_cancel g.

Fixpoint generate (count : nat) g : outcome (list EngineCommand * WorkloadGenerator R) :=
  match count with
  | O => Ok ([], g)
  | S count =>
      '(event, g) ← generate_one g;
      '(events, g) ← generate count g;
      Ok (event :: events, g)
  end.
End Generator.
