(* ===== verification/WorkloadTheorems.v ===== *)
(** * WorkloadTheorems: what a generated workload is, and that the engine takes it *)
From Corelib Require Import SpecFloat.
From S2P Require Import Prelude Core StdMap OrderPool PriceLevel OrderBook MatchingEngine.
From S2P Require Import ClientIndex MatchingSpec MatchingRefine EngineInvariant EngineRefine EngineTheorems.
From S2P Require Import RiskEngine Strategy Workload.

(** The ranges the standard gives the draws. *)
Class LawfulRandom (R : Type) `{RandomSource R} : Prop := {
  law_side r : (draw_side r).1 = 0 ∨ (draw_side r).1 = 1;
  law_quantity a b r : a <= b → a <= (draw_quantity a b r).1 <= b;
  law_index n r : 0 <= n → 0 <= (draw_index n r).1 <= n }.

(** A workload: orders are numbered from [next] on, prices are positive, quantities within the
    configured range, and a cancel names an order of [resting], the limit orders not cancelled yet. *)
Fixpoint valid_workload (config : WorkloadConfig) (next : Z) (resting : list Z) (events : list EngineCommand)
    : Prop :=
  match events with
  | [] => True
  | CLimit o :: events =>
      lo_id o = next ∧ lo_owner o = 0 ∧ 0 < lo_price o < 9223372036854775808 ∧
      quantity_min config <= lo_quantity o <= quantity_max config ∧
      valid_workload config (next + 1) (next :: resting) events
  | CMarket o :: events =>
      mo_id o = next ∧ mo_owner o = 0 ∧
      quantity_min config <= mo_quantity o <= quantity_max config ∧
      valid_workload config (next + 1) resting events
  | CCancel c :: events =>
      ∃ resting', resting ≡ₚ cr_id c :: resting' ∧ valid_workload config next resting' events
  end.

(** The order of the resting list does not matter. *)
#[global] Instance valid_workload_proper config next :
  Proper ((≡ₚ) ==> eq ==> iff) (valid_workload config next).
Proof.
  assert (∀ events next r r', r ≡ₚ r' → valid_workload config next r events → valid_workload config next r' events) as Hone.
  { clear. induction events as [|[o|o|c] events IH]; intros next r r' Hr; simpl; [done|..].
    - intros (? & ? & ? & ? & Hv). split_and!; try done; try lia. eapply IH; [|exact Hv]. by rewrite Hr.
    - intros (? & ? & ? & Hv). split_and!; try done; try lia. by eapply IH.
    - intros (r1 & Hr1 & Hv). exists r1. split; [by rewrite <- Hr|done]. }
  intros r r' Hr events ? <-. split; by apply Hone.
Qed.

Section Valid.
Context {R : Type} `{LawfulRandom R}.
Implicit Types g : WorkloadGenerator R.

(** Swap-and-pop takes exactly the chosen element out. *)
Lemma swap_and_pop_perm idx v x v' : swap_and_pop idx v = Ok (x, v') → v ≡ₚ x :: v'.
Proof.
  unfold swap_and_pop. destruct (v !! idx) as [y|] eqn:Ex; simpl; [|done].
  destruct (last v) as [back|] eqn:El; simpl; [|done]. intros [= <- <-].
  apply last_Some in El as [w ->]. rewrite length_app. cbn [length]. replace (length w + 1 - 1)%nat with (length w) by lia.
  destruct (decide (idx < length w)%nat) as [Hlt|Hge].
  - rewrite lookup_app_l in Ex by done. rewrite insert_app_l by done.
    rewrite take_app_le, take_ge by (rewrite length_insert; lia).
    rewrite insert_take_drop by done. rewrite <- (take_drop_middle w idx y Ex) at 1. solve_Permutation.
  - rewrite lookup_app_r in Ex by lia. apply list_lookup_singleton_Some in Ex as [Hi ->].
    rewrite insert_app_r_alt, take_app_length by lia. solve_Permutation.
Qed.

Lemma generate_limit_valid g ev g' events :
  quantity_min (wg_config g) <= quantity_max (wg_config g) → in_i64 (mid_price (wg_config g)) →
  next_id_ g < 18446744073709551615 → 0 <= next_id_ g →
  generate_limit g = Ok (ev, g') → wg_config g' = wg_config g ∧ next_id_ g' = next_id_ g + 1 ∧
  (valid_workload (wg_config g) (next_id_ g + 1) (assumed_resting_ g') events →
   valid_workload (wg_config g) (next_id_ g) (assumed_resting_ g) (ev :: events)).
Proof.
  intros Hq Hm Hn Hn0. unfold generate_limit. destruct (draw_side (rng_ g)) as [d r1].
  destruct (draw_offset _ r1) as [x r2]. destruct (rounded_offset x) as [off| |]; simpl; [|done..].
  destruct (draw_side r2) as [sg r3] eqn:Es.
  destruct (if Z.eqb sg 0 then _ else _) as [pv| |] eqn:Ep; simpl; [|done..].
  destruct (draw_quantity _ _ r3) as [q r4] eqn:Eq. intros [= <- <-]. simpl.
  split; [done|]. split; [apply u64_add_small; u64; lia|].
  pose proof (law_quantity _ _ r3 Hq) as Hlq. rewrite Eq in Hlq. simpl in Hlq.
  assert (in_i64 pv) as Hpv.
  { assert (∀ z p, i64_check z = Ok p → in_i64 p) as Hc.
    { unfold i64_check. intros z p. destruct (_ && _) eqn:Eb; [|done]. intros [= <-]. apply andb_true_iff in Eb. u64. lia. }
    destruct (Z.eqb sg 0); by eapply Hc. }
  intros Hv. split_and!; try done; try lia; [u64; destruct (Z.leb_spec pv 0); lia..|].
  by rewrite <- Permutation_cons_append in Hv.
Qed.

Lemma generate_one_valid g ev g' events :
  quantity_min (wg_config g) <= quantity_max (wg_config g) → in_i64 (mid_price (wg_config g)) →
  next_id_ g < 18446744073709551615 → 0 <= next_id_ g →
  generate_one g = Ok (ev, g') →
  wg_config g' = wg_config g ∧ next_id_ g <= next_id_ g' <= next_id_ g + 1 ∧
  (valid_workload (wg_config g) (next_id_ g') (assumed_resting_ g') events →
   valid_workload (wg_config g) (next_id_ g) (assumed_resting_ g) (ev :: events)).
Proof.
  intros Hq Hm Hn Hn0. unfold generate_one. destruct (draw_type (rng_ g)) as [roll r].
  assert (∀ g1, generate_limit (set_rng r g) = Ok (ev, g1) → wg_config g1 = wg_config g ∧
    next_id_ g <= next_id_ g1 <= next_id_ g + 1 ∧
    (valid_workload (wg_config g) (next_id_ g1) (assumed_resting_ g1) events →
     valid_workload (wg_config g) (next_id_ g) (assumed_resting_ g) (ev :: events))) as Hlim.
  { intros g1 E. destruct (generate_limit_valid (set_rng r g) ev g1 events Hq Hm Hn Hn0 E) as (Hc & Hnx & Hv).
    simpl in *. rewrite Hnx. split_and!; try done; lia. }
  destruct (SFltb roll _); [apply Hlim|]. destruct (SFltb roll _).
  - unfold generate_market. simpl. destruct (draw_side r) as [d r1]. destruct (draw_quantity _ _ r1) as [q r2] eqn:Eq.
    intros [= <- <-]. simpl. pose proof (law_quantity _ _ r1 Hq) as Hlq. rewrite Eq in Hlq. simpl in Hlq.
    rewrite u64_add_small by (u64; lia). split; [done|]. split; [lia|]. intros Hv. split_and!; done || lia.
  - unfold generate_cancel. simpl. destruct (assumed_resting_ g) as [|a l] eqn:Ea; [exact (Hlim g')|].
    destruct (draw_index _ r) as [idx r1]. destruct (swap_and_pop _ _) as [[x v]| |] eqn:Es; simpl; [|done..].
    intros [= <- <-]. simpl. split; [done|]. split; [lia|]. intros Hv. exists v. split; [by apply (swap_and_pop_perm _ _ _ _ Es)|done].
Qed.

Lemma generate_valid n g events g' :
  quantity_min (wg_config g) <= quantity_max (wg_config g) → in_i64 (mid_price (wg_config g)) →
  0 <= next_id_ g → next_id_ g + Z.of_nat n < 18446744073709551616 →
  generate n g = Ok (events, g') →
  length events = n ∧ valid_workload (wg_config g) (next_id_ g) (assumed_resting_ g) events.
Proof.
  revert g events. induction n as [|n IH]; intros g events Hq Hm Hn0 Hn E; cbn [generate] in E; [by simplify_eq|].
  destruct (generate_one g) as [[ev g1]| |] eqn:E1; cbn [mbind outcome_bind] in E; [|done..].
  destruct (generate n g1) as [[evs g2]| |] eqn:E2; cbn [mbind outcome_bind] in E; [|done..]. simplify_eq.
  destruct (generate_one_valid g ev g1 evs Hq Hm ltac:(lia) Hn0 E1) as (Hc & Hnx & Hv).
  destruct (IH g1 evs) as [Hl Hv1]; rewrite ?Hc; try done; try lia. rewrite Hc in Hv1.
  split; [by simpl; rewrite Hl|auto].
Qed.
End Valid.

(** Every generated workload is well formed, whatever the random source draws (within the ranges of
    its distributions): as many events as asked for; orders numbered 1, 2, 3, ...; positive prices;
    quantities in the configured range; and every cancel names a limit order generated before it, which no
    earlier cancel named. *)
Theorem workload_valid {R} `{LawfulRandom R} config n events g' :
  quantity_min config <= quantity_max config → in_i64 (mid_price config) →
  Z.of_nat n < 18446744073709551615 →
  generate n (WorkloadGenerator_new config) = Ok (events, g') →
  length events = n ∧ valid_workload config 1 [] events.
Proof. intros Hq Hm Hn E. apply (generate_valid n (WorkloadGenerator_new config) events g'); simpl; done || lia. Qed.

(** ** The engine takes the workload *)

(** The offsets the source can draw stay within [m] of the mid price, which stays in range. *)
Definition offsets_fit {R} `{RandomSource R} (config : WorkloadConfig) (m : Z) : Prop :=
  1 <= m ∧ 0 <= mid_price config ∧ mid_price config + m < 9223372036854775808 ∧
  ∀ r, ∃ z, llround (draw_offset (price_stddev_log config) r).1 = Some z ∧ z <= m.

Section Total.
Context {R : Type} `{LawfulRandom R}.
Implicit Types g : WorkloadGenerator R.

Lemma swap_and_pop_total idx v : (idx < length v)%nat → ∃ x v', swap_and_pop idx v = Ok (x, v').
Proof.
  intros Hi. unfold swap_and_pop. destruct (lookup_lt_is_Some_2 v idx Hi) as [x ->]. simpl.
  destruct (last v) as [b|] eqn:El; [by eexists _, _|]. apply last_None in El as ->. simpl in Hi. lia.
Qed.

Lemma generate_limit_total g m :
  offsets_fit (wg_config g) m → ∃ ev g', generate_limit g = Ok (ev, g') ∧ wg_config g' = wg_config g.
Proof.
  intros (Hm1 & Hm0 & Hmax & Hoff). unfold generate_limit. destruct (draw_side (rng_ g)) as [d r1].
  specialize (Hoff r1). destruct (draw_offset _ r1) as [x r2]. destruct Hoff as (z & Hz & Hzm). simpl in Hz.
  unfold rounded_offset. rewrite Hz. simpl. destruct (draw_side r2) as [sg r3].
  set (off := if Z.ltb z 1 then 1 else z). assert (1 <= off <= m) by (unfold off; zb; lia).
  assert (∀ p, -9223372036854775808 <= p < 9223372036854775808 → i64_check p = Ok p) as Hi.
  { intros p Hp. unfold i64_check. by rewrite (proj2 (Z.leb_le _ _)), (proj2 (Z.ltb_lt _ _)) by lia. }
  destruct (Z.eqb sg 0).
  - unfold i64_add. rewrite Hi by lia. simpl. destruct (draw_quantity _ _ r3). by eexists _, _.
  - change (i64_sub (mid_price (wg_config g)) off) with (i64_check (mid_price (wg_config g) - off)).
    rewrite Hi by lia. simpl. destruct (draw_quantity _ _ r3). by eexists _, _.
Qed.

Lemma generate_one_total g m :
  offsets_fit (wg_config g) m → ∃ ev g', generate_one g = Ok (ev, g') ∧ wg_config g' = wg_config g.
Proof.
  intros Hoff. unfold generate_one. destruct (draw_type (rng_ g)) as [roll r].
  pose proof (generate_limit_total (set_rng r g) m Hoff) as Hlim. simpl in Hlim.
  destruct (SFltb roll _); [done|]. destruct (SFltb roll _).
  - unfold generate_market. simpl. destruct (draw_side r) as [d r1]. destruct (draw_quantity _ _ r1). by eexists _, _.
  - unfold generate_cancel. simpl. destruct (assumed_resting_ g) as [|a l] eqn:Ea; [done|]. rewrite <- Ea in *.
    pose proof (law_index (Z.of_nat (length (assumed_resting_ g)) - 1) r) as Hl. destruct (draw_index _ r) as [idx r1].
    assert (length (assumed_resting_ g) ≠ 0)%nat by (by rewrite Ea). simpl in Hl.
    destruct (swap_and_pop_total (Z.to_nat idx) (assumed_resting_ g)) as (x & v & ->); [lia|]. by eexists _, _.
Qed.

Lemma generate_total n g m :
  offsets_fit (wg_config g) m → ∃ events g', generate n g = Ok (events, g').
Proof.
  revert g. induction n as [|n IH]; intros g Hoff; cbn [generate]; [eauto|].
  destruct (generate_one_total g m Hoff) as (ev & g1 & -> & Hc). cbn [mbind outcome_bind].
  destruct (IH g1) as (evs & g2 & ->); [by rewrite Hc|]. cbn [mbind outcome_bind]. eauto.
Qed.
End Total.

Section Accepted.
Context {Sk : Type} `{EventSink Sk}.
Implicit Types (e : MatchingEngine Sk) (A : ABook).

(** The events, one call after the other, for one reading of an erased level. *)
Fixpoint run_workload (freed_empty : outcome bool) (events : list EngineCommand) e
    : outcome (list EngineResponse * MatchingEngine Sk) :=
  match events with
  | [] => Ok ([], e)
  | c :: events =>
      '(r, e) ← engine_call freed_empty c e;
      '(rs, e) ← run_workload freed_empty events e;
      Ok (r :: rs, e)
  end.

(** Orders are accepted; a cancel finds its order or the order is gone. *)
Definition taken (c : EngineCommand) (r : EngineResponse) : Prop :=
  match c with
  | CLimit _ | CMarket _ => status r = Accepted
  | CCancel _ => status r = Accepted ∨ status r = UnknownOrderId
  end.

(** An accepted order adds at most one entry to the book. *)
Lemma accepts_size o e A σ l e' A' :
  matched o e A = (σ, l) → accepts o e A σ l e' A' → (length (ab_entries A') <= S (length (ab_entries A)))%nat.
Proof.
  intros Em [_ Hb _ _ _ _ _ _]. unfold matched in Em.
  pose proof (fill_queue_ident (incoming_of o e) (ab_side (opposite (new_order_side o)) A)
    (fills_start (new_order_quantity o) (next_trade_sequence_ e))) as Hid. rewrite Em in Hid.
  destruct Hid as (gone & _ & Eid). apply (f_equal length) in Eid. rewrite length_app, !length_fmap in Eid.
  assert (length (ab_entries (ab_set (opposite (new_order_side o)) l A)) <= length (ab_entries A))%nat as Hle.
  { rewrite !(ab_entries_perm (opposite (new_order_side o))), ab_side_set_eq, ab_side_set_opp, !length_app. lia. }
  unfold rests in Hb. destruct o as [lo|mo]; [|destruct Hb as [-> _]; lia].
  destruct (Z.ltb 0 (f_remaining σ)); [|destruct Hb as [-> _]; lia]. destruct Hb as (slot & _ & -> & _).
  rewrite (ab_entries_perm (lo_side lo)), ab_side_set_eq, ab_side_set_opp, length_app, priority_insert_perm.
  rewrite (ab_entries_perm (lo_side lo)), length_app in Hle. simpl in *. lia.
Qed.

(** An engine ready for order [next] of the default client, with room for [k] more orders. *)
Record ready (next : Z) (k : nat) e A : Prop := {
  rd_inv : engine_inv e A;
  rd_stp : stp_enabled (stp_ e) = false;
  rd_mark w : last_accepted_id_ e !! 0 = Some w → w < next;
  rd_seq : next_sequence_ e + Z.of_nat k < 18446744073709551615;
  rd_room : (length (ab_entries A) + k <= capacity_ (pool_ (book_ e)))%nat }.

Lemma order_taken next k o e A :
  ready next (S k) e A → 0 <= next < 18446744073709551615 →
  new_order_id o = next → new_order_owner o = 0 → 0 < new_order_quantity o < 18446744073709551616 →
  (∀ p, new_order_limit o = Some p → 0 < p < 9223372036854775808) →
  ∃ r e' A', submit (Ok true) o e = Ok (r, e') ∧
    submit Undefined o e = (if reads_erased o e then Undefined else Ok (r, e')) ∧
    status r = Accepted ∧ ready (next + 1) k e' A'.
Proof.
  intros [Hi Hst Hmk Hsq Hrm] Hn Hid Hown Hq Hp.
  assert (wf_new_order o) as Hwf.
  { unfold wf_new_order. rewrite Hid, Hown. split_and!; try (u64; lia).
    destruct o as [lo|mo]; [|done]. specialize (Hp _ eq_refl). u64. simpl in Hp. lia. }
  pose proof (submit_spec o e A Hi Hwf ltac:(lia)) as Hs.
  assert (rejection o e A = None) as Hrej.
  { unfold rejection. rewrite (proj2 (Z.eqb_neq _ _)) by lia.
    assert ((match new_order_limit o with Some p => Z.leb p 0 | None => false end) = false) as ->.
    { destruct (new_order_limit o) as [p|]; [|done]. apply Z.leb_gt, Hp. done. }
    unfold is_duplicate. rewrite Hown, Hid, Hst. simpl.
    rewrite (proj2 (Nat.eqb_neq (length (ab_entries A)) _)), andb_false_r by lia.
    destruct (last_accepted_id_ e !! 0) as [w|]; [|done]. by rewrite (proj2 (Z.leb_gt _ _)) by auto. }
  rewrite Hrej in Hs. destruct (matched o e A) as [σ l] eqn:Em. destruct Hs as (e' & A' & E & Hacc).
  pose proof (accepts_size _ _ _ _ _ _ _ Em Hacc) as Hsz. destruct Hacc.
  eexists _, e', A'. split; [exact E|]. split; [by rewrite (submit_strict o e A Hi Hwf), E|].
  split; [done|]. split; try done; [congruence| |lia|rewrite ac_cap; lia].
  intros w. rewrite ac_marks, Hown, Hid, lookup_insert_eq. intros [= <-]. lia.
Qed.

(** One event of a workload, under the lenient reading. *)
Lemma event_taken config c events next resting e A :
  1 <= quantity_min config → quantity_max config < 18446744073709551616 →
  valid_workload config next resting (c :: events) → ready next (S (length events)) e A →
  0 <= next → next + Z.of_nat (S (length events)) < 18446744073709551616 →
  ∃ r e' A' next' resting', engine_call (Ok true) c e = Ok (r, e') ∧ taken c r ∧
    engine_call Undefined c e = (if call_reads c e then Undefined else Ok (r, e')) ∧
    ready next' (length events) e' A' ∧ valid_workload config next' resting' events ∧ next <= next' <= next + 1.
Proof.
  intros Hmin Hmax Hv Hr Hn0 Hn. destruct c as [o|o|[id]]; cbn [valid_workload] in Hv.
  - destruct Hv as (Hid & Hown & Hp & Hq & Hv).
    destruct (order_taken next (length events) (NLimit o) e A Hr) as (r & e' & A' & E & Est & Hs & Hr'); simpl; try done; try lia.
    { intros p [= <-]. lia. }
    exists r, e', A', (next + 1). eexists. split_and!; try done; lia.
  - destruct Hv as (Hid & Hown & Hq & Hv).
    destruct (order_taken next (length events) (NMarket o) e A Hr) as (r & e' & A' & E & Est & Hs & Hr'); simpl; try done; try lia.
    exists r, e', A', (next + 1). eexists. split_and!; try done; lia.
  - destruct Hv as (resting' & _ & Hv). destruct Hr as [Hi Hst Hmk Hsq Hrm].
    pose proof (cancel_spec id e A Hi) as Hc. cbn [engine_call cr_id taken].
    destruct (orders_ (book_ e) !! id) as [slot|].
    + destruct Hc as (sd & l1 & x & l2 & e' & El & _ & E & Hi' & _ & _ & Hm & Hs & _ & Hst' & Hcp).
      eexists _, e', _, next, resting'. split; [exact E|]. split; [by left|]. split; [exact E|].
      split; [|split; [done|lia]]. split; [exact Hi'|congruence|rewrite Hm; done|lia|]. rewrite Hcp.
      rewrite (ab_entries_perm sd), ab_side_set_eq, ab_side_set_opp. rewrite (ab_entries_perm sd), El in Hrm.
      rewrite !length_app in *. simpl in Hrm. lia.
    + eexists _, e, A, next, resting'. split; [exact Hc|]. split; [by right|]. split; [exact Hc|].
      split; [|split; [done|lia]]. split; try done; lia.
Qed.

Lemma workload_runs config events next resting e A :
  1 <= quantity_min config → quantity_max config < 18446744073709551616 →
  valid_workload config next resting events → ready next (length events) e A →
  0 <= next → next + Z.of_nat (length events) < 18446744073709551616 →
  ∃ rs e', run_workload (Ok true) events e = Ok (rs, e') ∧ Forall2 taken events rs.
Proof.
  intros Hmin Hmax. revert next resting e A.
  induction events as [|c events IH]; intros next resting e A Hv Hr Hn0 Hn; cbn [run_workload length] in *.
  { exists [], e. by split. }
  destruct (event_taken config c events next resting e A Hmin Hmax Hv Hr) as
    (r & e1 & A1 & next' & resting' & E1 & Ht & _ & Hr1 & Hv1 & Hn1); [done|lia|].
  destruct (IH next' resting' e1 A1 Hv1 Hr1) as (rs & e2 & E2 & Hall); [lia..|].
  exists (r :: rs), e2. rewrite E1. cbn [mbind outcome_bind]. rewrite E2. split; [done|by constructor].
Qed.

Lemma run_stops f evs rest c e rs e' :
  run_workload f evs e = Ok (rs, e') → engine_call f c e' = Undefined → run_workload f (evs ++ c :: rest) e = Undefined.
Proof.
  revert e rs. induction evs as [|x evs IH]; intros e rs; cbn [run_workload app].
  - intros [= <- <-] Hc. by rewrite Hc.
  - destruct (engine_call f x e) as [[r e1]| |]; [|done..]. cbn [mbind outcome_bind].
    destruct (run_workload f evs e1) as [[rs1 e2]| |] eqn:E2; [|done..]. cbn [mbind outcome_bind].
    intros [= _ <-] Hc. by rewrite (IH e1 rs1).
Qed.

(** Under the strict reading the events are taken up to the first that reads an erased level. *)
Lemma workload_runs_strict config events next resting e A :
  1 <= quantity_min config → quantity_max config < 18446744073709551616 →
  valid_workload config next resting events → ready next (length events) e A →
  0 <= next → next + Z.of_nat (length events) < 18446744073709551616 →
  ∃ taken_events rest rs e', events = taken_events ++ rest ∧
    run_workload Undefined taken_events e = Ok (rs, e') ∧ Forall2 taken taken_events rs ∧
    match rest with [] => True | c :: _ => call_reads c e' = true ∧ engine_call Undefined c e' = Undefined end.
Proof.
  intros Hmin Hmax. revert next resting e A.
  induction events as [|c events IH]; intros next resting e A Hv Hr Hn0 Hn; cbn [length] in *.
  { by exists [], [], [], e. }
  destruct (event_taken config c events next resting e A Hmin Hmax Hv Hr) as
    (r & e1 & A1 & next' & resting' & _ & Ht & E1 & Hr1 & Hv1 & Hn1); [done|lia|].
  destruct (call_reads c e) eqn:Ec; [by exists [], (c :: events), [], e|].
  destruct (IH next' resting' e1 A1 Hv1 Hr1) as (done_ & rest & rs & e2 & -> & E2 & Hall & Hrest); [lia..|].
  exists (c :: done_), rest, (r :: rs), e2. cbn [run_workload]. rewrite E1. cbn [mbind outcome_bind]. rewrite E2.
  split_and!; [done..|by constructor|done].
Qed.
End Accepted.


(** ** Witnesses: a source that counts *)

Definition half : spec_float := S754_finite false 4503599627370496 (-53).

Definition quarter : spec_float := S754_finite false 4503599627370496 (-54).

#[local] Instance counting_source : RandomSource Z := {
  seeded z := z;
  draw_type r := (if Z.eqb (r mod 3) 0 then S754_zero false else half, r + 1);
  draw_side r := (r mod 2, r + 1);
  draw_offset _ r := (S754_finite false 6755399441055744 (-51), r + 1);
  draw_quantity a b r := (a + r mod (b - a + 1), r + 1);
  draw_index n r := (r mod (n + 1), r + 1) }.

#[local] Instance counting_lawful : LawfulRandom Z.
Proof.
  split; simpl.
  - intros r. pose proof (Z.mod_pos_bound r 2 ltac:(lia)). lia.
  - intros a b r Hab. pose proof (Z.mod_pos_bound r (b - a + 1) ltac:(lia)). lia.
  - intros n r Hn. pose proof (Z.mod_pos_bound r (n + 1) ltac:(lia)). lia.
Qed.

Definition demo_workload : WorkloadConfig := mkWorkload 0 100 half 1 10 quarter (S754_zero false) half.

Lemma workload_valid_witness :
  ∃ events g', generate 6 (WorkloadGenerator_new demo_workload) = Ok (events, g') ∧ length events = 6%nat ∧
    valid_workload demo_workload 1 [] events.
Proof.
  destruct (generate 6 (WorkloadGenerator_new demo_workload)) as [[events g']| |] eqn:E;
    [|vm_compute in E; discriminate E..].
  exists events, g'. split; [reflexivity|].
  apply (workload_valid demo_workload 6 events g'); [simpl; lia|simpl; u64; lia|lia|exact E].
Defined.

(** Orders for one unit each: they trade, and never have quantity left after taking an order. *)
Definition unit_workload : WorkloadConfig := mkWorkload 0 100 half 1 1 quarter (S754_zero false) half.

Lemma unit_offsets : offsets_fit unit_workload 3.
Proof. split; [lia|]. split; [simpl; lia|]. split; [simpl; lia|]. intros r. exists 3. split; [reflexivity|lia]. Qed.


Lemma demo_workload_events :
  match generate 6 (WorkloadGenerator_new demo_workload) with
  | Ok (events, _) => (λ c, match c with CLimit o => lo_id o | CMarket o => mo_id o | CCancel c => - cr_id c end) <$> events
  | _ => []
  end = [1; -1; 2; 3; -2; -3].
Proof. vm_compute. reflexivity. Qed.
