(* ===== verification/QueueBench.v ===== *)
(** * QueueBench: apps/benchmark/mutex_queue.hpp and queue_bench.cpp

    The mutex-guarded baseline the benchmark compares the ring with, the
    interface both share, and the producer and consumer of the throughput
    measurement, over either queue.  Times are not modelled. *)
From S2P Require Import Prelude SpscRing RingQueue.

(** ** MutexQueue

    Every member function holds the lock from its first to its last statement,
    so it runs without interference. *)
Record MutexQueue (T : Type) := mkMutexQueue { queue_ : list T }.
Arguments mkMutexQueue {T} _.
Arguments queue_ {T} _.

Section Mutex.
Context {T : Type}.
Variable Capacity : Z.

Definition mutex_push (item : T) (q : MutexQueue T) : bool * MutexQueue T :=
  if Z.leb Capacity (Z.of_nat (length (queue_ q))) then (false, q)
  else (true, mkMutexQueue (queue_ q ++ [item])).

Definition mutex_pop (q : MutexQueue T) : option T * MutexQueue T :=
  match queue_ q with
  | [] => (None, q)
  | out :: rest => (Some out, mkMutexQueue rest)
  end.

Definition mutex_size (q : MutexQueue T) : Z := Z.of_nat (length (queue_ q)).

Definition mutex_empty (q : MutexQueue T) : bool := bool_decide (queue_ q = []).
End Mutex.

(** ** The shared signature *)

Class PollQueue (Q T : Type) := {
  poll_push : T → Q → bool * Q;
  poll_pop : Q → outcome (option T * Q) }.

(** What a benchmark relies on: a queue of at most [cap] items in order, good for [n] more pushes. *)
Class BoundedQueue (Q T : Type) `{PollQueue Q T} (cap : Z) (holds : nat → Q → list T → Prop) : Prop := {
  bq_full n q l x : holds n q l → cap <= Z.of_nat (length l) → poll_push x q = (false, q);
  bq_push n q l x : holds (S n) q l → Z.of_nat (length l) < cap →
    ∃ q', poll_push x q = (true, q') ∧ holds n q' (l ++ [x]);
  bq_none n q : holds n q [] → poll_pop q = Ok (None, q);
  bq_some n q x l : holds n q (x :: l) → ∃ q', poll_pop q = Ok (Some x, q') ∧ holds n q' l;
  bq_room n q l : holds n q l → Z.of_nat (length l) <= cap;
  bq_weaken n q l : holds (S n) q l → holds n q l }.

Section Instances.
Context {T : Type}.
Variables (cap k : Z).

#[local] Instance ring_poll : PollQueue (Ring T) T := {
  poll_push := try_push cap; poll_pop := try_pop cap }.

#[local] Instance mutex_poll : PollQueue (MutexQueue T) T := {
  poll_push := mutex_push cap; poll_pop q := Ok (mutex_pop q) }.

Definition ring_good (n : nat) (r : Ring T) (l : list T) : Prop :=
  ring_holds cap r l ∧ rb_tail r + Z.of_nat n < 18446744073709551616.

Definition mutex_good (n : nat) (q : MutexQueue T) (l : list T) : Prop :=
  queue_ q = l ∧ Z.of_nat (length l) <= cap.

Lemma mutex_bounded : BoundedQueue (MutexQueue T) T cap mutex_good.
Proof.
  split; unfold mutex_good; simpl; unfold mutex_push, mutex_pop.
  - intros n q l x [<- _] Hf. by rewrite (proj2 (Z.leb_le _ _)).
  - intros n q l x [<- _] Hf. rewrite (proj2 (Z.leb_gt _ _)) by done. eexists. split; [done|].
    split; [done|]. rewrite length_app. simpl. lia.
  - by intros n [l] [-> _].
  - intros n [l] x l' [-> Hl]. eexists. split; [done|]. split; [done|]. simpl in Hl. lia.
  - by intros n q l [_ ?].
  - done.
Qed.

Hypothesis cap_pow2 : cap = 2 ^ k.
Hypothesis cap_bits : 0 <= k < 63.

Lemma ring_bounded : BoundedQueue (Ring T) T cap ring_good.
Proof.
  split; unfold ring_good; simpl.
  - intros n q l x [Hh _] Hf. by eapply push_full.
  - intros n q l x [Hh Ht] Hf. destruct (push_holds cap k cap_pow2 cap_bits q l x Hh) as (q' & E & Hh' & Ht'); [lia..|].
    exists q'. split; [done|]. split; [done|lia].
  - intros n q [Hh _]. by apply pop_empty.
  - intros n q x l [Hh Ht]. destruct (pop_holds cap q x l Hh) as (q' & E & Hh' & Ht'). exists q'.
    split; [done|]. split; [done|lia].
  - intros n q l [Hh _]. by eapply rh_room.
  - intros n q l [Hh Ht]. split; [done|lia].
Qed.
End Instances.

(** ** Programs that poll a queue *)

Inductive QueueOp (T : Type) := OpPush (x : T) | OpPop.
Arguments OpPush {T} _.
Arguments OpPop {T}.

(** What a call returns. *)
Inductive QueueObs (T : Type) := Pushed (ok : bool) | Popped (x : option T).
Arguments Pushed {T} _.
Arguments Popped {T} _.

Section Programs.
Context {Q T : Type} `{PollQueue Q T}.

(** A client whose next operation depends on everything it has observed. *)
Fixpoint interact (n : nat) (client : list (QueueObs T) → option (QueueOp T)) (seen : list (QueueObs T)) (q : Q)
    : outcome (list (QueueObs T)) :=
  match n with
  | O => Ok seen
  | S n =>
      match client seen with
      | None => Ok seen
      | Some (OpPush x) => let '(ok, q) := poll_push x q in interact n client (seen ++ [Pushed ok]) q
      | Some OpPop => '(x, q) ← poll_pop q; interact n client (seen ++ [Popped x]) q
      end
  end.
End Programs.

Lemma interact_same {Q1 Q2 T} `{BoundedQueue Q1 T cap holds1} `{!PollQueue Q2 T}
    {holds2} `{!BoundedQueue Q2 T cap holds2} n client seen (q1 : Q1) (q2 : Q2) l :
  holds1 n q1 l → holds2 n q2 l → interact n client seen q1 = interact n client seen q2.
Proof.
  revert seen q1 q2 l. induction n as [|n IH]; intros seen q1 q2 l Hq1 Hq2; [done|]. cbn [interact].
  destruct (client seen) as [[x|]|]; [| |done].
  - destruct (decide (cap <= Z.of_nat (length l))) as [Hf|Hf].
    + rewrite (bq_full _ _ _ x Hq1 Hf), (bq_full _ _ _ x Hq2 Hf). eapply IH; by apply bq_weaken.
    + destruct (bq_push _ _ _ x Hq1) as (q1' & -> & H1); [lia|].
      destruct (bq_push _ _ _ x Hq2) as (q2' & -> & H2); [lia|]. by eapply IH.
  - destruct l as [|x l].
    + rewrite (bq_none _ _ Hq1), (bq_none _ _ Hq2). simpl. eapply IH; by apply bq_weaken.
    + destruct (bq_some _ _ _ _ Hq1) as (q1' & -> & H1). destruct (bq_some _ _ _ _ Hq2) as (q2' & -> & H2).
      simpl. eapply IH; by apply bq_weaken.
Qed.

(** Equivalence: the lock-free ring and the mutex queue of the same capacity answer every client the
    same.  Whatever the client does next, depending on all the answers so far, for any number of calls
    below 2^64, both queues give the same answers: the benchmark compares like with like. *)
Theorem ring_and_mutex_agree {T} cap k (dflt : T) n client :
  cap = 2 ^ k → 0 <= k < 63 → Z.of_nat n < 18446744073709551616 →
  @interact (Ring T) T (ring_poll cap) n client [] (Ring_new cap dflt) =
  @interact (MutexQueue T) T (mutex_poll cap) n client [] (mkMutexQueue []).
Proof.
  intros Hc Hk Hn. pose proof (ring_bounded (T := T) cap k Hc Hk). pose proof (mutex_bounded (T := T) cap).
  apply (interact_same (cap := cap) (holds1 := ring_good cap) (holds2 := mutex_good cap) n client [] _ _ []);
    split; [by eapply new_holds|done|done|simpl; subst; lia].
Qed.

(** Pushes three times into a queue of two, then pops until it is told there is nothing. *)
Definition demo_client (seen : list (QueueObs Z)) : option (QueueOp Z) :=
  if Nat.ltb (length seen) 3 then Some (OpPush (Z.of_nat (length seen)))
  else match last seen with Some (Popped None) => None | _ => Some OpPop end.

Lemma ring_and_mutex_agree_witness :
  @interact (Ring Z) Z (ring_poll 2) 9 demo_client [] (Ring_new 2 0) =
    Ok [Pushed true; Pushed true; Pushed false; Popped (Some 0); Popped (Some 1); Popped None].
Proof.
  rewrite (ring_and_mutex_agree 2 1 0 9 demo_client); [reflexivity|reflexivity|lia|lia].
Defined.

(** ** queue_bench.cpp: the producer and the consumer of [measure_throughput] *)

Inductive BenchConsumer := Polling | CheckingDone | Draining | Finished.

Section Throughput.
Context {Q T : Type} `{PollQueue Q T}.

Record BenchRun := mkBench {
  bench_todo : list T;  (** what the producer has not pushed yet *)
  bench_queue : Q;
  producer_done : bool;
  bench_consumer : BenchConsumer;
  bench_consumed : list T }.

(** One call of a queue's member function, or one access to the flag. *)
Inductive bench_step : BenchRun → BenchRun → Prop :=
| bench_push x todo q q' d c out :
    poll_push x q = (true, q') →
    bench_step (mkBench (x :: todo) q d c out) (mkBench todo q' d c out)
| bench_spin x todo q q' d c out :
    poll_push x q = (false, q') →
    bench_step (mkBench (x :: todo) q d c out) (mkBench (x :: todo) q' d c out)
| bench_done q c out :
    bench_step (mkBench [] q false c out) (mkBench [] q true c out)
| bench_pop todo q q' d c out x :
    c = Polling ∨ c = Draining → poll_pop q = Ok (Some x, q') →
    bench_step (mkBench todo q d c out) (mkBench todo q' d c (out ++ [x]))
| bench_miss todo q q' d out :
    poll_pop q = Ok (None, q') →
    bench_step (mkBench todo q d Polling out) (mkBench todo q' d CheckingDone out)
| bench_check todo q d out :
    bench_step (mkBench todo q d CheckingDone out)
               (mkBench todo q d (if d then Draining else Polling) out)
| bench_end todo q q' d out :
    poll_pop q = Ok (None, q') →
    bench_step (mkBench todo q d Draining out) (mkBench todo q' d Finished out).

Definition bench_start (workload : list T) (q : Q) : BenchRun := mkBench workload q false Polling [].
End Throughput.
Arguments BenchRun : clear implicits.

Section ThroughputFacts.
Context {Q T : Type} `{BoundedQueue Q T cap holds}.
Hypothesis cap_pos : 0 < cap.
Implicit Types (s : BenchRun Q T).

(** Nothing is lost or reordered, and the consumer stops only after the producer. *)
Record bench_inv (workload : list T) s (l : list T) : Prop := {
  bi_queue : holds (length (bench_todo s)) (bench_queue s) l;
  bi_all : bench_consumed s ++ l ++ bench_todo s = workload;
  bi_done : producer_done s = true → bench_todo s = [];
  bi_drain : bench_consumer s = Draining ∨ bench_consumer s = Finished → producer_done s = true;
  bi_end : bench_consumer s = Finished → l = [] }.

Lemma pop_cases n q l r q' :
  holds n q l → poll_pop q = Ok (r, q') →
  match r with None => l = [] ∧ q' = q | Some x => ∃ l', l = x :: l' ∧ holds n q' l' end.
Proof.
  intros Hq E. destruct l as [|x l].
  - rewrite (bq_none _ _ Hq) in E. by simplify_eq.
  - destruct (bq_some _ _ _ _ Hq) as (q2 & E2 & H2). rewrite E in E2. simplify_eq. eauto.
Qed.

Lemma bench_step_inv workload s s' l :
  bench_inv workload s l → bench_step s s' → ∃ l', bench_inv workload s' l'.
Proof.
  intros [Hq Ha Hd Hdr He] Hst. destruct Hst; simpl in *.
  - destruct (decide (cap <= Z.of_nat (length l))) as [Hf|Hf].
    { rewrite (bq_full _ _ _ x Hq Hf) in H1. done. }
    destruct (bq_push _ _ _ x Hq) as (q2 & E2 & H2); [lia|]. rewrite H1 in E2. simplify_eq.
    exists (l ++ [x]). split; simpl; try done.
    + by rewrite <- !app_assoc.
    + intros Hdn. by specialize (Hd Hdn).
    + intros Hc. specialize (Hd (Hdr (or_intror Hc))). done.
  - destruct (decide (cap <= Z.of_nat (length l))) as [Hf|Hf].
    { rewrite (bq_full _ _ _ x Hq Hf) in H1. simplify_eq. by exists l. }
    destruct (bq_push _ _ _ x Hq) as (q2 & E2 & H2); [lia|]. rewrite H1 in E2. done.
  - exists l. by split.
  - destruct (pop_cases _ _ _ _ _ Hq H2) as (l' & -> & Hq'). exists l'. split; simpl; try done.
    + by rewrite <- app_assoc.
    + intros ->. naive_solver.
  - destruct (pop_cases _ _ _ _ _ Hq H1) as [-> ->]. exists []. split; simpl; try done; naive_solver.
  - exists l. split; simpl; try done; destruct d; naive_solver.
  - destruct (pop_cases _ _ _ _ _ Hq H1) as [-> ->]. exists []. split; simpl; try done. naive_solver.
Qed.

Lemma bench_reach_inv workload s s' l :
  bench_inv workload s l → rtc bench_step s s' → ∃ l', bench_inv workload s' l'.
Proof.
  intros Hi Hr. revert l Hi. induction Hr as [|s1 s2 s3 Hs _ IH]; intros l Hi; [eauto|].
  destruct (bench_step_inv _ _ _ _ Hi Hs) as [l' Hi']. eauto.
Qed.

(** From any state the run can finish. *)
Lemma bench_can_drain workload s l :
  bench_inv workload s l → bench_todo s = [] → ∃ s', rtc bench_step s s' ∧ bench_consumer s' = Finished.
Proof.
  intros Hi Ht. destruct s as [todo q d c out]; simpl in Ht; subst todo.
  assert (∀ l q out, bench_inv workload (mkBench [] q true Draining out) l →
    ∃ s', rtc bench_step (mkBench [] q true Draining out) s' ∧ bench_consumer s' = Finished) as Hdrain.
  { clear Hi. intros l0. induction l0 as [|x l0 IH]; intros q0 out0 [Hq Ha _ _ _]; simpl in *.
    - eexists. split; [eapply rtc_once, bench_end, (bq_none _ _ Hq)|done].
    - destruct (bq_some _ _ _ _ Hq) as (q' & E & Hq'). destruct (IH q' (out0 ++ [x])) as (s' & Hr & Hf).
      { split; simpl; try done. rewrite <- Ha. by rewrite <- app_assoc. }
      exists s'. split; [|done]. eapply rtc_l; [|exact Hr]. apply bench_pop; auto. }
  assert (bench_inv workload (mkBench [] q true c out) l) as Hi1.
  { destruct Hi as [Hq Ha _ _ He]. by split. }
  assert (∃ s', rtc bench_step (mkBench [] q true c out) s' ∧ bench_consumer s' = Finished) as (s' & Hr & Hf).
  2: { exists s'. split; [|done]. destruct d; [exact Hr|]. eapply rtc_l; [apply bench_done|exact Hr]. }
  destruct c.
  - clear Hi. revert q out Hi1. induction l as [|x l IH]; intros q out Hi1; pose proof Hi1 as [Hq Ha _ _ _]; simpl in *.
    + destruct (Hdrain [] q out) as (s' & Hr & Hf); [split; simpl; try done|]. exists s'. split; [|done].
      eapply rtc_l; [apply bench_miss, (bq_none _ _ Hq)|]. eapply rtc_l; [apply bench_check|exact Hr].
    + destruct (bq_some _ _ _ _ Hq) as (q' & E & Hq'). destruct (IH q' (out ++ [x])) as (s' & Hr & Hf).
      { split; simpl; try done. rewrite <- Ha. by rewrite <- app_assoc. }
      exists s'. split; [|done]. eapply rtc_l; [apply bench_pop; [by left|exact E]|exact Hr].
  - destruct (Hdrain l q out) as (s' & Hr & Hf); [destruct Hi1; split; simpl in *; try done|].
    exists s'. split; [|done]. eapply rtc_l; [apply bench_check|exact Hr].
  - by eapply Hdrain.
  - eexists. split; [apply rtc_refl|done].
Qed.

Lemma bench_can_finish workload s l :
  bench_inv workload s l → ∃ s', rtc bench_step s s' ∧ bench_consumer s' = Finished.
Proof.
  remember (bench_todo s) as todo eqn:Et. revert s l Et. induction todo as [|x todo IH]; intros s l Et Hi.
  { by eapply bench_can_drain. }
  destruct s as [t q d c out]; simpl in Et; subst t.
  assert (d = false ∧ (c = Polling ∨ c = CheckingDone)) as [-> Hc].
  { destruct Hi as [_ _ Hd Hdr _]. simpl in *. destruct d; [by specialize (Hd eq_refl)|]. split; [done|].
    destruct c; auto; naive_solver. }
  assert (∃ s1 l1, rtc bench_step (mkBench (x :: todo) q false c out) s1 ∧ bench_inv workload s1 l1 ∧
    bench_todo s1 = x :: todo ∧ Z.of_nat (length l1) < cap) as (s1 & l1 & Hr1 & Hi1 & Ht1 & Hl1).
  { destruct (decide (Z.of_nat (length l) < cap)) as [Hl|Hl].
    { eexists _, l. split; [apply rtc_refl|]. done. }
    destruct l as [|y l]; [simpl in Hl; lia|].
    assert (∃ q', poll_pop q = Ok (Some y, q') ∧ holds (S (length todo)) q' l) as (q' & E & Hq').
    { destruct Hi as [Hq _ _ _ _]. by apply bq_some. }
    exists (mkBench (x :: todo) q' false Polling (out ++ [y])), l. split.
    { destruct Hc as [-> | ->]; [eapply rtc_once, bench_pop; auto|].
      eapply rtc_l; [apply bench_check|]. eapply rtc_once, bench_pop; auto. }
    split; [|split; [done|]].
    - destruct Hi as [_ Ha _ _ _]. split; simpl in *; try done; [|naive_solver..]. rewrite <- Ha. by rewrite <- app_assoc.
    - destruct Hi as [Hq _ _ _ _]. pose proof (bq_room _ _ _ Hq) as Hroom. simpl in Hroom. lia. }
  destruct s1 as [t1 q1 d1 c1 out1]. simpl in Ht1. subst t1.
  destruct Hi1 as [Hq1 Ha1 Hd1 Hdr1 He1]. simpl in *.
  destruct (bq_push _ _ _ x Hq1 Hl1) as (q2 & E2 & Hq2).
  destruct (bench_step_inv workload (mkBench (x :: todo) q1 d1 c1 out1) (mkBench todo q2 d1 c1 out1) l1) as (l2 & Hi2);
    [by split|by apply bench_push|].
  destruct (IH (mkBench todo q2 d1 c1 out1) l2 eq_refl Hi2) as (s' & Hr & Hf). exists s'. split; [|done].
  etrans; [exact Hr1|]. eapply rtc_l; [by apply bench_push|exact Hr].
Qed.
End ThroughputFacts.

Lemma bench_start_inv {T} cap (Hc : 0 < cap) (workload : list T) :
  bench_inv (holds := mutex_good cap) workload (bench_start workload (mkMutexQueue [])) [].
Proof. split; simpl; try done; [split; simpl; [done|lia]|naive_solver]. Qed.

(** Liveness: [measure_throughput] over the mutex queue always can finish, and finishes with every
    command consumed.  From every state any interleaving of the two threads reaches, some continuation
    ends the consumer's loop (no deadlock, and no state in which an item is stuck), and whenever the
    consumer has left its loop, by whichever interleaving, the producer has pushed everything and the
    consumer has popped the workload, all of it, once and in order. *)
Theorem throughput_consumes_all {T} cap (workload : list T) s :
  0 < cap →
  rtc (@bench_step _ T (mutex_poll cap)) (bench_start workload (mkMutexQueue [])) s →
  (∃ s', rtc (@bench_step _ T (mutex_poll cap)) s s' ∧ bench_consumer s' = Finished) ∧
  (bench_consumer s = Finished →
     bench_consumed s = workload ∧ bench_todo s = [] ∧ queue_ (bench_queue s) = []).
Proof.
  intros Hc Hr. pose proof (mutex_bounded (T := T) cap) as HB.
  destruct (bench_reach_inv (Q := MutexQueue T) (holds := mutex_good cap) workload _ s [] (bench_start_inv cap Hc workload) Hr)
    as [l Hi].
  split; [by eapply (bench_can_finish (holds := mutex_good cap))|]. intros Hf.
  destruct Hi as [[Hq _] Ha Hd Hdr He]. rewrite (He Hf) in Ha, Hq. rewrite (Hd (Hdr (or_intror Hf))) in *.
  simpl in Ha. by rewrite app_nil_r in Ha.
Qed.

(** Two commands through a queue of one, with a push that finds it full. *)
Lemma throughput_consumes_all_witness :
  ∃ s', rtc (@bench_step _ Z (mutex_poll 1)) (mkBench [8] (mkMutexQueue [7]) false CheckingDone []) s' ∧
        bench_consumer s' = Finished.
Proof.
  refine (proj1 (throughput_consumes_all 1 [7; 8] (mkBench [8] (mkMutexQueue [7]) false CheckingDone []) _ _));
    [lia|].
  eapply rtc_l; [by eapply bench_miss|]. eapply rtc_l; [by eapply bench_push|].
  eapply rtc_once. by eapply bench_spin.
Defined.

(** ** queue_bench.cpp: the loop of [measure_push_latency]

    [push_latency_loop] is the queue's side of the loop: what every timed push
    returned, and the queue that is left. *)
Section PushLatency.
Context {Q T : Type} `{PollQueue Q T}.

Fixpoint push_latency_loop (i : nat) (workload : list T) (q : Q) : outcome (list bool * Q) :=
  match workload with
  | [] => Ok ([], q)
  | cmd :: rest =>
      let '(ok, q) := poll_push cmd q in
      q ← (if Nat.eqb (Nat.modulo i 2) 1 then '(_, q) ← poll_pop q; Ok q else Ok q);
      '(oks, q) ← push_latency_loop (S i) rest q;
      Ok (ok :: oks, q)
  end.
End PushLatency.

(** One round of the loop on the mutex queue. *)
Lemma push_latency_round {T} cap i (x : T) rest q :
  @push_latency_loop _ T (mutex_poll cap) i (x :: rest) q =
  ('(oks, q') ← @push_latency_loop _ T (mutex_poll cap) (S i) rest
      (if Nat.eqb (Nat.modulo i 2) 1 then (mutex_pop (mutex_push cap x q).2).2 else (mutex_push cap x q).2);
   Ok ((mutex_push cap x q).1 :: oks, q')).
Proof.
  cbn [push_latency_loop poll_push poll_pop mutex_poll]. destruct (mutex_push cap x q) as [ok q1]. simpl fst. simpl snd.
  destruct (Nat.eqb (Nat.modulo i 2) 1); [|done]. by destruct (mutex_pop q1).
Qed.

Lemma mutex_push_room {T} cap (x : T) l :
  mutex_push cap x (mkMutexQueue l) =
  if decide (Z.of_nat (length l) < cap) then (true, mkMutexQueue (l ++ [x])) else (false, mkMutexQueue l).
Proof. unfold mutex_push. simpl. destruct (Z.leb_spec cap (Z.of_nat (length l))); case_decide; done || lia. Qed.

Lemma mutex_pop_length {T} (l : list T) :
  length (queue_ (mutex_pop (mkMutexQueue l)).2) = Nat.pred (length l).
Proof. by destruct l. Qed.

(** Two rounds of the loop add one item, until one place is left. *)
Lemma push_latency_pair {T} cap (x y : T) rest m (l : list T) :
  Z.of_nat (length l) < cap →
  let fits := bool_decide (Z.of_nat (length l) + 1 < cap) in
  ∃ l', length l' = (if fits then S (length l) else length l) ∧
    @push_latency_loop _ T (mutex_poll cap) (m * 2) (x :: y :: rest) (mkMutexQueue l) =
    ('(oks, q) ← @push_latency_loop _ T (mutex_poll cap) (S m * 2) rest (mkMutexQueue l');
     Ok (true :: fits :: oks, q)).
Proof.
  intros Hl fits. rewrite !push_latency_round.
  rewrite (Nat.Div0.mod_mul m 2). replace (S (m * 2)) with (1 + m * 2)%nat by lia. rewrite Nat.Div0.mod_add.
  rewrite mutex_push_room, decide_True by done. cbn -[push_latency_loop mutex_push mutex_pop fits Nat.mul].
  rewrite mutex_push_room, length_app. simpl length.
  set (q2 := if decide _ then _ else _).
  assert (q2.1 = fits ∧ length (queue_ q2.2) = (if fits then S (S (length l)) else S (length l))) as [-> Hq].
  { subst q2 fits. case_decide; [rewrite bool_decide_true by lia|rewrite bool_decide_false by lia]; simpl;
      rewrite ?length_app; simpl; split; done || lia. }
  destruct q2 as [b [l2]]. simpl in Hq. exists (queue_ (mutex_pop (mkMutexQueue l2)).2).
  split; [rewrite mutex_pop_length, Hq; by destruct fits|].
  cbn [snd]. change (2 + m * 2)%nat with (S m * 2)%nat.
  replace (mkMutexQueue (queue_ (mutex_pop (mkMutexQueue l2)).2)) with (mutex_pop (mkMutexQueue l2)).2
    by (by destruct (mutex_pop (mkMutexQueue l2)).2).
  by destruct (push_latency_loop _ rest _) as [[??]| |].
Qed.

(** The loop from a queue of [l] items. *)
Lemma push_latency_from {T} cap m (workload : list T) i (l : list T) :
  length workload = (m * 2)%nat → Z.of_nat (length l) < cap →
  let r := Nat.min m (Z.to_nat (cap - 1) - length l) in
  ∃ q, @push_latency_loop _ T (mutex_poll cap) (i * 2) workload (mkMutexQueue l) =
       Ok (replicate (r * 2) true ++ concat (replicate (m - r) [true; false]), q) ∧
       length (queue_ q) = (length l + r)%nat.
Proof.
  revert workload i l. induction m as [|m IH]; intros workload i l Hw Hl r; subst r.
  { destruct workload; [|done]. eexists. split; [done|]. simpl. lia. }
  destruct workload as [|x [|y rest]]; [done|done|]. simpl in Hw.
  destruct (push_latency_pair cap x y rest i l Hl) as (l' & Hl' & ->).
  destruct (IH rest (S i) l') as (q & -> & Hq); [lia|case_bool_decide; lia|]. cbn [mbind outcome_bind].
  exists q. revert Hl' Hq. case_bool_decide as Hf; intros Hl' Hq.
  - replace (Nat.min (S m) (Z.to_nat (cap - 1) - length l)) with (S (Nat.min m (Z.to_nat (cap - 1) - length l'))) by lia.
    split; [done|lia].
  - replace (Z.to_nat (cap - 1) - length l')%nat with 0%nat by lia.
    replace (Z.to_nat (cap - 1) - length l)%nat with 0%nat by lia. rewrite !Nat.min_0_r, !Nat.sub_0_r. split; [done|lia].
Qed.

(** Functional: what [measure_push_latency] times on the mutex queue.  Popping after every other push
    keeps one item of every two, so in a run of [2 m] commands the pushes succeed until the queue holds
    [cap - 1] items, and from then on every second timed push is a rejected one: for the 100000 commands
    of the benchmark and its capacity 4096, the loop does not keep the queue from filling. *)
Theorem push_latency_hits_full {T} cap m (workload : list T) :
  0 < cap → length workload = (m * 2)%nat →
  let r := Nat.min m (Z.to_nat (cap - 1)) in
  ∃ q, @push_latency_loop _ T (mutex_poll cap) 0 workload (mkMutexQueue []) =
       Ok (replicate (r * 2) true ++ concat (replicate (m - r) [true; false]), q) ∧
       length (queue_ q) = r.
Proof.
  intros Hc Hl r. subst r.
  destruct (push_latency_from cap m workload 0 [] Hl) as (q & E & Hq); [simpl; lia|].
  exists q. simpl in E, Hq. rewrite !Nat.sub_0_r in E. rewrite Hq, !Nat.sub_0_r. split; [exact E|lia].
Qed.

(** Six pushes into a queue of two: the fourth and the sixth are rejected. *)
Lemma push_latency_hits_full_witness :
  ∃ q, @push_latency_loop _ Z (mutex_poll 2) 0 [1; 2; 3; 4; 5; 6] (mkMutexQueue []) =
       Ok ([true; true; true; false; true; false], q) ∧ length (queue_ q) = 1%nat.
Proof. exact (push_latency_hits_full 2 3 [1; 2; 3; 4; 5; 6] eq_refl eq_refl). Defined.
