(* ===== verification/JsonCodec.v ===== *)
(** * JsonCodec: adapters/binary_protocol/JsonCodec.{hpp,cpp} and tools/protocol_benchmark

    The six pairs of [to_json] and [from_json], over [nlohmann::json] as a
    parameter: class [Json] is what the code calls of it, [LawfulJson] what it
    is documented to do.  The messages and loops of the protocol benchmark,
    which measures these conversions against the binary codec. *)
From Stdlib Require Import String.
From stdpp Require Import strings countable.
From S2P Require Import Prelude Bytes BinaryCodec GatewayCodec.

(** ** The JSON library *)

(** [None] is a thrown [json::exception].  The constructors are the implicit
    conversions of the integer types; [json_object] is the initializer list
    of pairs; [json_get_w] is [get<w>()]. *)
Class Json (J : Type) := {
  json_u8 : Z → J;
  json_u64 : Z → J;
  json_i64 : Z → J;
  json_object : list (string * J) → J;
  json_at : J → string → option J;
  json_get_u8 : J → option Z;
  json_get_u64 : J → option Z;
  json_get_i64 : J → option Z;
  json_dump : J → list Z;
  json_parse : list Z → option J }.

(** Integers of the three types the messages hold. *)
Inductive json_integer {J} `{Json J} : J → Prop :=
| integer_u8 v : is_byte v → json_integer (json_u8 v)
| integer_u64 v : in_u64 v → json_integer (json_u64 v)
| integer_i64 v : in_i64 v → json_integer (json_i64 v).

(** Objects of integers survive the text up to [same]: a non-negative
    [int64_t] comes back as an unsigned number, of the same value. *)
Class LawfulJson (J : Type) `{Json J} (same : relation J) : Prop := {
  same_equivalence :: Equivalence same;
  same_at :: Proper (same ==> eq ==> option_Forall2 same) json_at;
  same_get_u8 :: Proper (same ==> eq) json_get_u8;
  same_get_u64 :: Proper (same ==> eq) json_get_u64;
  same_get_i64 :: Proper (same ==> eq) json_get_i64;
  get_u8_u8 v : is_byte v → json_get_u8 (json_u8 v) = Some v;
  get_u64_u64 v : in_u64 v → json_get_u64 (json_u64 v) = Some v;
  get_i64_i64 v : in_i64 v → json_get_i64 (json_i64 v) = Some v;
  object_at l k v : Forall json_integer l.*2 → NoDup l.*1 → (k, v) ∈ l → json_at (json_object l) k = Some v;
  object_missing l k : Forall json_integer l.*2 → k ∉ l.*1 → json_at (json_object l) k = None;
  dump_parses l : Forall json_integer l.*2 → NoDup l.*1 →
    ∃ j, json_parse (json_dump (json_object l)) = Some j ∧ same (json_object l) j }.

(** ** JsonCodec.cpp *)

Section Codec.
Context {J : Type} `{Json J}.
#[local] Open Scope string_scope.

Definition to_json_limit (msg : LimitOrderAddMsg) : J := json_object
  [("type", json_u8 (la_type msg)); ("side", json_u8 (la_side msg));
   ("client_id", json_u64 (la_client_id msg)); ("order_id", json_u64 (la_order_id msg));
   ("price", json_i64 (la_price msg)); ("quantity", json_u64 (la_quantity msg))].

Definition from_json_limit (j : J) : option LimitOrderAddMsg :=
  t ← json_at j "type" ≫= json_get_u8;
  side ← json_at j "side" ≫= json_get_u8;
  client_id ← json_at j "client_id" ≫= json_get_u64;
  order_id ← json_at j "order_id" ≫= json_get_u64;
  price ← json_at j "price" ≫= json_get_i64;
  quantity ← json_at j "quantity" ≫= json_get_u64;
  Some (mkLimitOrderAdd t side client_id order_id price quantity).

Definition to_json_market (msg : MarketOrderAddMsg) : J := json_object
  [("type", json_u8 (ma_type msg)); ("side", json_u8 (ma_side msg));
   ("client_id", json_u64 (ma_client_id msg)); ("order_id", json_u64 (ma_order_id msg));
   ("quantity", json_u64 (ma_quantity msg))].

Definition from_json_market (j : J) : option MarketOrderAddMsg :=
  t ← json_at j "type" ≫= json_get_u8;
  side ← json_at j "side" ≫= json_get_u8;
  client_id ← json_at j "client_id" ≫= json_get_u64;
  order_id ← json_at j "order_id" ≫= json_get_u64;
  quantity ← json_at j "quantity" ≫= json_get_u64;
  Some (mkMarketOrderAdd t side client_id order_id quantity).

Definition to_json_cancel (msg : CancelMsg) : J := json_object
  [("type", json_u8 (cm_type msg)); ("client_id", json_u64 (cm_client_id msg));
   ("order_id", json_u64 (cm_order_id msg))].

Definition from_json_cancel (j : J) : option CancelMsg :=
  t ← json_at j "type" ≫= json_get_u8;
  client_id ← json_at j "client_id" ≫= json_get_u64;
  order_id ← json_at j "order_id" ≫= json_get_u64;
  Some (mkCancelMsg t 0 client_id order_id).

Definition to_json_ack (msg : AckMsg) : J := json_object
  [("type", json_u8 (ak_type msg)); ("order_id", json_u64 (ak_order_id msg));
   ("remaining_qty", json_u64 (ak_remaining_qty msg))].

Definition from_json_ack (j : J) : option AckMsg :=
  t ← json_at j "type" ≫= json_get_u8;
  order_id ← json_at j "order_id" ≫= json_get_u64;
  remaining_qty ← json_at j "remaining_qty" ≫= json_get_u64;
  Some (mkAck t 0 order_id remaining_qty).

Definition to_json_reject (msg : RejectMsg) : J := json_object
  [("type", json_u8 (rj_type msg)); ("reason_code", json_u8 (rj_reason_code msg));
   ("order_id", json_u64 (rj_order_id msg))].

Definition from_json_reject (j : J) : option RejectMsg :=
  t ← json_at j "type" ≫= json_get_u8;
  reason_code ← json_at j "reason_code" ≫= json_get_u8;
  order_id ← json_at j "order_id" ≫= json_get_u64;
  Some (mkReject t reason_code order_id).

Definition to_json_trade (msg : TradeNotificationMsg) : J := json_object
  [("type", json_u8 (tn_type msg)); ("buy_order_id", json_u64 (tn_buy_order_id msg));
   ("sell_order_id", json_u64 (tn_sell_order_id msg)); ("price", json_i64 (tn_price msg));
   ("quantity", json_u64 (tn_quantity msg)); ("trade_sequence", json_u64 (tn_trade_sequence msg))].

Definition from_json_trade (j : J) : option TradeNotificationMsg :=
  t ← json_at j "type" ≫= json_get_u8;
  buy_order_id ← json_at j "buy_order_id" ≫= json_get_u64;
  sell_order_id ← json_at j "sell_order_id" ≫= json_get_u64;
  price ← json_at j "price" ≫= json_get_i64;
  quantity ← json_at j "quantity" ≫= json_get_u64;
  trade_sequence ← json_at j "trade_sequence" ≫= json_get_u64;
  Some (mkTradeNotification t 0 buy_order_id sell_order_id price quantity trade_sequence).

(** Overload resolution: the conversion is chosen by the message's C++ type. *)
Definition to_json (m : AnyMessage) : J :=
  match m with
  | MLimit m => to_json_limit m | MMarket m => to_json_market m | MCancel m => to_json_cancel m
  | MAck m => to_json_ack m | MReject m => to_json_reject m | MTrade m => to_json_trade m
  end.

Definition from_json_like (m : AnyMessage) (j : J) : option AnyMessage :=
  match m with
  | MLimit _ => MLimit <$> from_json_limit j | MMarket _ => MMarket <$> from_json_market j
  | MCancel _ => MCancel <$> from_json_cancel j | MAck _ => MAck <$> from_json_ack j
  | MReject _ => MReject <$> from_json_reject j | MTrade _ => MTrade <$> from_json_trade j
  end.
End Codec.

(** ** protocol_bench.cpp *)

Definition make_limit_order : LimitOrderAddMsg := mkLimitOrderAdd kLimitOrderAdd 0 42 1001 9950 500.

Definition make_market_order : MarketOrderAddMsg := mkMarketOrderAdd kMarketOrderAdd 1 7 2002 100.

Definition make_cancel : CancelMsg := mkCancelMsg kCancel 0 42 1001.

Definition make_ack : AckMsg := mkAck kAck 0 1001 250.

Definition make_reject : RejectMsg := mkReject kReject 1 1001.

Definition make_trade_notification : TradeNotificationMsg :=
  mkTradeNotification kTradeNotification 0 1001 2002 9950 100 42.

(** The messages the benchmark runs on. *)
Definition bench_messages : list AnyMessage :=
  [MLimit make_limit_order; MMarket make_market_order; MCancel make_cancel; MAck make_ack;
   MReject make_reject; MTrade make_trade_notification].

(** The loop of [BM_BinaryEncode_*]: [iters] rounds on one buffer; the value
    of [bytes] after the last. *)
Fixpoint binary_encode_rounds (host_little : bool) (msg : AnyMessage) (iters : nat) (buf : list Z) (bytes : nat)
    : outcome nat :=
  match iters with
  | O => Ok bytes
  | S iters =>
      '(buf, bytes) ← encode host_little msg buf;
      binary_encode_rounds host_little msg iters buf bytes
  end.

Definition BM_BinaryEncode (host_little : bool) (msg : AnyMessage) (iters : nat) : outcome nat :=
  binary_encode_rounds host_little msg iters (replicate kMaxMessageWireSize 0) 0.

Fixpoint rounds {A} (iters : nat) (body : outcome A) : outcome (list A) :=
  match iters with
  | O => Ok []
  | S iters => a ← body; rest ← rounds iters body; Ok (a :: rest)
  end.

(** [BM_BinaryDecode_*]: the results of the rounds. *)
Definition BM_BinaryDecode (host_little : bool) (msg : AnyMessage) (iters : nat) : outcome (list (option AnyMessage)) :=
  '(buf, written) ← encode host_little msg (replicate kMaxMessageWireSize 0);
  rounds iters (decode host_little (take written buf)).

Section JsonBench.
Context {J : Type} `{Json J}.

(** [BM_JsonEncode_*]: the counter "Bytes"; AllocCount has "Allocations". *)
Fixpoint BM_JsonEncode (msg : AnyMessage) (iters : nat) (bytes : nat) : nat :=
  match iters with
  | O => bytes
  | S iters => BM_JsonEncode msg iters (length (json_dump (to_json (J := J) msg)))
  end.

(** [BM_JsonDecode_*]: a round that throws ends the benchmark. *)
Fixpoint json_decode_rounds (s : list Z) (msg : AnyMessage) (iters : nat) : option (list AnyMessage) :=
  match iters with
  | O => Some []
  | S iters =>
      parsed ← json_parse s;
      decoded ← from_json_like (J := J) msg parsed;
      rest ← json_decode_rounds s msg iters;
      Some (decoded :: rest)
  end.

Definition BM_JsonDecode (msg : AnyMessage) (iters : nat) : option (list AnyMessage) :=
  json_decode_rounds (json_dump (to_json (J := J) msg)) msg iters.
End JsonBench.

(** ** Round trips *)

(** What the JSON form keeps of a message: everything but the padding byte. *)
Definition no_padding (m : AnyMessage) : AnyMessage :=
  match m with
  | MCancel m => MCancel (mkCancelMsg (cm_type m) 0 (cm_client_id m) (cm_order_id m))
  | MAck m => MAck (mkAck (ak_type m) 0 (ak_order_id m) (ak_remaining_qty m))
  | MTrade m => MTrade (mkTradeNotification (tn_type m) 0 (tn_buy_order_id m) (tn_sell_order_id m)
                          (tn_price m) (tn_quantity m) (tn_trade_sequence m))
  | m => m
  end.

Section Facts.
Context {J : Type} `{LawfulJson J same}.
Implicit Types (l : list (string * J)) (j : J).

Lemma at_object l j k v :
  Forall json_integer l.*2 → NoDup l.*1 → same (json_object l) j → (k, v) ∈ l →
  ∃ v', json_at j k = Some v' ∧ same v v'.
Proof.
  intros Hi Hn Hs Hk. pose proof (same_at _ _ Hs k k eq_refl) as Hat. rewrite (object_at l k v Hi Hn Hk) in Hat.
  inversion Hat as [? v' Hv Ev Ev'|]; subst. by exists v'.
Qed.

Lemma get_u8_field l j k v :
  Forall json_integer l.*2 → NoDup l.*1 → same (json_object l) j → (k, json_u8 v) ∈ l → is_byte v →
  json_at j k ≫= json_get_u8 = Some v.
Proof.
  intros Hi Hn Hs Hk Hv. destruct (at_object l j k _ Hi Hn Hs Hk) as (v' & -> & Hv'). simpl.
  by rewrite <- Hv', get_u8_u8.
Qed.

Lemma get_u64_field l j k v :
  Forall json_integer l.*2 → NoDup l.*1 → same (json_object l) j → (k, json_u64 v) ∈ l → in_u64 v →
  json_at j k ≫= json_get_u64 = Some v.
Proof.
  intros Hi Hn Hs Hk Hv. destruct (at_object l j k _ Hi Hn Hs Hk) as (v' & -> & Hv'). simpl.
  by rewrite <- Hv', get_u64_u64.
Qed.

Lemma get_i64_field l j k v :
  Forall json_integer l.*2 → NoDup l.*1 → same (json_object l) j → (k, json_i64 v) ∈ l → in_i64 v →
  json_at j k ≫= json_get_i64 = Some v.
Proof.
  intros Hi Hn Hs Hk Hv. destruct (at_object l j k _ Hi Hn Hs Hk) as (v' & -> & Hv'). simpl.
  by rewrite <- Hv', get_i64_i64.
Qed.

(** Reads every field of the object [l] off a value that is the same. *)
Ltac in_fields := repeat first [left; reflexivity | right].

Ltac message_byte :=
  solve [done | unfold is_byte, kLimitOrderAdd, kMarketOrderAdd, kCancel, kAck, kReject, kTradeNotification; lia].

Ltac integers :=
  simpl; repeat (apply Forall_cons; split); try (by apply Forall_nil);
  first [apply integer_u8; message_byte | apply integer_u64; done | apply integer_i64; done].

Ltac fields_of l j Hi Hn Hs :=
  repeat first
    [ erewrite (get_u8_field l j _ _ Hi Hn Hs) by (in_fields || message_byte)
    | erewrite (get_u64_field l j _ _ Hi Hn Hs) by (in_fields || done)
    | erewrite (get_i64_field l j _ _ Hi Hn Hs) by (in_fields || done)
    | progress cbn [mbind option_bind] ].

Lemma to_json_object m :
  wf_message m → ∃ l, to_json m = json_object l ∧ Forall json_integer l.*2 ∧ NoDup l.*1 ∧
    ∀ j, same (json_object l) j → from_json_like m j = Some (no_padding m).
Proof.
  intros Hm. destruct m as [m|m|m|m|m|m]; destruct m; simpl in Hm; destruct_and?; subst;
    eexists; (split; [reflexivity|]);
  match goal with |- Forall _ (?l.*2) ∧ _ =>
    assert (Forall json_integer l.*2) as Hi by integers;
    assert (NoDup l.*1) as Hn by (apply (bool_decide_eq_true_1 _); vm_compute; reflexivity);
    (split; [exact Hi|]); (split; [exact Hn|]); intros j Hs; simpl from_json_like;
    unfold from_json_limit, from_json_market, from_json_cancel, from_json_ack, from_json_reject, from_json_trade;
    fields_of l j Hi Hn Hs; reflexivity
  end.
Qed.

(** Through the text and back. *)
Lemma json_text_roundtrip m :
  wf_message m → json_parse (json_dump (to_json m)) ≫= from_json_like (J := J) m = Some (no_padding m).
Proof.
  intros Hm. destruct (to_json_object m Hm) as (l & -> & Hi & Hn & Hr).
  destruct (dump_parses l Hi Hn) as (j & -> & Hj). by apply Hr.
Qed.
End Facts.

Lemma binary_encode_rounds_spec hl m iters buf bytes :
  wf_message m → (wire_size m <= length buf)%nat →
  binary_encode_rounds hl m iters buf bytes = Ok (if decide (iters = 0%nat) then bytes else wire_size m).
Proof.
  intros Hm. revert buf bytes. induction iters as [|iters IH]; intros buf bytes Hl; [done|]. cbn [binary_encode_rounds].
  rewrite encode_spec by done. cbn [mbind outcome_bind]. rewrite IH by (rewrite length_app, length_wire; lia).
  by repeat case_decide.
Qed.

Lemma rounds_ok {A} iters (a : A) : rounds iters (Ok a) = Ok (replicate iters a).
Proof. induction iters as [|iters IH]; [done|]. cbn [rounds mbind outcome_bind]. by rewrite IH. Qed.

(** C35. Equivalence: the protocol benchmark compares codecs that do the same.  For every message whose fields
    are values of their types, any number of rounds, any host byte order, and any JSON library that keeps
    integers, every round of the binary decode loop yields the message, every round of the JSON decode loop
    (parse the dumped text, read the fields) succeeds and yields the message with its padding byte zeroed,
    and the encode loop reports the documented wire size. *)
Theorem json_agrees_with_binary {J} `{LawfulJson J same} host_little m iters :
  wf_message m →
  BM_BinaryDecode host_little m iters = Ok (replicate iters (Some m)) ∧
  BM_JsonDecode (J := J) m iters = Some (replicate iters (no_padding m)) ∧
  BM_BinaryEncode host_little m (S iters) = Ok (wire_size m).
Proof.
  intros Hm. assert (wire_size m <= length (replicate kMaxMessageWireSize 0))%nat as Hl by (destruct m; compute; lia).
  split; [|split].
  - unfold BM_BinaryDecode. rewrite encode_spec by done. cbn [mbind outcome_bind].
    rewrite take_app_le, take_ge by (rewrite length_wire; lia). rewrite decode_spec by (by apply wire_bytes).
    rewrite <- (app_nil_r (wire m)), decoded_wire by done. apply rounds_ok.
  - unfold BM_JsonDecode. pose proof (json_text_roundtrip (J := J) m Hm) as Hr.
    induction iters as [|iters IH]; [done|]. cbn [json_decode_rounds]. destruct (json_parse _) as [j|]; [|done].
    simpl in Hr |- *. rewrite Hr. simpl. by rewrite IH.
  - unfold BM_BinaryEncode. by rewrite binary_encode_rounds_spec.
Qed.

(** ** A small JSON library, for the witness: integers and flat objects, with a text of binary digits *)

Definition flat_json : Type := Z + list (string * Z).

Fixpoint digits (p : positive) : list Z :=
  match p with xH => [] | xO p => 48 :: digits p | xI p => 49 :: digits p end.

Fixpoint of_digits (s : list Z) : positive :=
  match s with [] => xH | d :: s => if Z.eqb d 48 then xO (of_digits s) else xI (of_digits s) end.

Lemma of_digits_digits p : of_digits (digits p) = p.
Proof. induction p; simpl; congruence. Qed.

Definition flat_field (kv : string * flat_json) : option (string * Z) :=
  match kv.2 with inl z => Some (kv.1, z) | inr _ => None end.

#[local] Instance flat_json_api : Json flat_json := {
  json_u8 := inl; json_u64 := inl; json_i64 := inl;
  json_object l := inr (omap flat_field l);
  json_at j k := match j with
                 | inl _ => None
                 | inr l => inl <$> list_to_map (M := gmap string Z) l !! k
                 end;
  json_get_u8 j := match j with inl z => Some (z mod 256) | inr _ => None end;
  json_get_u64 j := match j with inl z => Some (wrap64 z) | inr _ => None end;
  json_get_i64 j := match j with inl z => Some (to_i64 (wrap64 z)) | inr _ => None end;
  json_dump j := digits (countable.encode j);
  json_parse s := countable.decode (of_digits s) }.

Lemma flat_integer (j : flat_json) : json_integer j → ∃ z, j = inl z.
Proof. intros []; eauto. Qed.

Lemma flat_object (l : list (string * flat_json)) :
  Forall json_integer l.*2 → ∃ l', l = prod_map id inl <$> l' ∧ json_object l = inr l'.
Proof.
  induction l as [|[k j] l IH]; intros Hl; [by exists []|]. simpl in Hl. inversion Hl as [|?? Hj Hl']; subst.
  destruct (flat_integer j Hj) as [z ->], (IH Hl') as (l' & -> & E). exists ((k, z) :: l'). split; [done|].
  unfold json_object, flat_json_api in E |- *. injection E as E. cbn. by rewrite <- E at 2.
Qed.

Lemma flat_keys (l' : list (string * Z)) : (prod_map id (@inl Z (list (string * Z))) <$> l').*1 = l'.*1.
Proof. rewrite <- list_fmap_compose. by apply list_fmap_ext. Qed.

Lemma flat_json_lawful : LawfulJson flat_json eq.
Proof.
  split; [apply _| |intros ?? ->; done|intros ?? ->; done|intros ?? ->; done|..].
  - intros j ? <- k ? <-. destruct (json_at j k) as [v|]; [by apply Some_Forall2|by apply None_Forall2].
  - intros v Hv. simpl. by rewrite Z.mod_small.
  - intros v Hv. simpl. unfold wrap64. by rewrite Z.mod_small.
  - intros v Hv. simpl. by rewrite to_i64_wrap64.
  - intros l k v Hi Hn Hk. destruct (flat_object l Hi) as (l' & -> & ->). rewrite flat_keys in Hn.
    apply list_elem_of_fmap in Hk as ([k' z] & E & Hk). simpl in E. simplify_eq. simpl.
    by rewrite (proj1 (elem_of_list_to_map (M := gmap string) l' k' z Hn) Hk).
  - intros l k Hi Hk. destruct (flat_object l Hi) as (l' & -> & ->). rewrite flat_keys in Hk. simpl.
    by rewrite (not_elem_of_list_to_map_1 (M := gmap string) l' k Hk).
  - intros l Hi Hn. exists (json_object l). split; [|reflexivity]. unfold json_parse, json_dump, flat_json_api.
    by rewrite of_digits_digits, countable.decode_encode.
Qed.

Lemma json_agrees_with_binary_witness :
  BM_JsonDecode (J := flat_json) (MCancel (mkCancelMsg kCancel 7 42 1001)) 2 = Some [MCancel make_cancel; MCancel make_cancel].
Proof.
  pose proof flat_json_lawful.
  refine (proj1 (proj2 (json_agrees_with_binary (J := flat_json) true (MCancel (mkCancelMsg kCancel 7 42 1001)) 2 _))).
  unfold wf_message, is_byte, in_u64. simpl. lia.
Defined.

(** The benchmark's own messages are such messages, and have no padding to lose. *)
Lemma bench_messages_wf : Forall (λ m, wf_message m ∧ no_padding m = m) bench_messages.
Proof. repeat (apply Forall_cons; split); try (by apply Forall_nil); (split; [|done]); unfold wf_message, is_byte, in_u64, in_i64; simpl; lia. Qed.
