(* ===== verification/TcpLifetime.v ===== *)
(** * TcpLifetime: construction and destruction of adapters/tcp/tcp_server.cpp

    The system calls that set the listener and the epoll instance up, on every
    error path, and the destructor, over the set of descriptors the process
    has open. *)
From Stdlib Require Import String.
From S2P Require Import Prelude Text TcpServer.

(** ** The kernel's side *)

(** What a system call returns: a value, or -1 with the text of [errno]. *)
Inductive sys (A : Type) := SysOk (a : A) | SysErr (strerror : list Z).
Arguments SysOk {A} _.
Arguments SysErr {A} _.

(** The descriptors open in the process, and those registered with the epoll
    instance (edge-triggered, readable). *)
Record Os := mkOs { os_open : gset Z; os_watched : gset Z }.

Definition os_add (fd : Z) (os : Os) : Os := mkOs ({[fd]} ∪ os_open os) (os_watched os).

(** Closing a descriptor also takes it out of every epoll set. *)
Definition os_close (fd : Z) (os : Os) : Os := mkOs (os_open os ∖ {[fd]}) (os_watched os ∖ {[fd]}).

Definition os_watch (fd : Z) (os : Os) : Os := mkOs (os_open os) ({[fd]} ∪ os_watched os).

Definition os_close_all (fds : list Z) (os : Os) : Os := foldr os_close os fds.

(** The answers of the calls made by the two set-up functions. *)
Record SetupAnswers := mkAnswers {
  an_socket : sys Z; an_setsockopt : sys unit; an_bind : sys unit; an_getsockname : sys Z;
  an_listen : sys unit; an_epoll_create : sys Z; an_epoll_ctl : sys unit }.

(** ** The object *)

Record Sockets := mkSockets { port_ : Z; listener_fd_ : Z; epoll_fd_ : Z; eventfd_ : Z }.

(** The member initializers. *)
Definition Sockets_new (port : Z) : Sockets := mkSockets port (-1) (-1) (-1).

Definition set_listener (fd : Z) (s : Sockets) : Sockets := mkSockets (port_ s) fd (epoll_fd_ s) (eventfd_ s).

Definition set_epoll (fd : Z) (s : Sockets) : Sockets := mkSockets (port_ s) (listener_fd_ s) fd (eventfd_ s).

Definition set_port (p : Z) (s : Sockets) : Sockets := mkSockets p (listener_fd_ s) (epoll_fd_ s) (eventfd_ s).

(** How a member function leaves: normally, or by [throw std::runtime_error]. *)
Inductive ending := Returns | Throws (what : list Z).

Definition St : Type := ending * Sockets * Os.

(** A failed call after [socket]: close the listener and throw. *)
Definition fail_listener (what strerror : list Z) (s : Sockets) (os : Os) : St :=
  (Throws (what ++ strerror), set_listener (-1) s, os_close (listener_fd_ s) os).

Definition setup_listener (an : SetupAnswers) (s : Sockets) (os : Os) : St :=
  match an_socket an with
  | SysErr e => (Throws (str "socket() failed: " ++ e), set_listener (-1) s, os)
  | SysOk fd =>
      let s := set_listener fd s in
      let os := os_add fd os in
      match an_setsockopt an with
      | SysErr e => fail_listener (str "setsockopt(SO_REUSEADDR) failed: ") e s os
      | SysOk _ =>
      match an_bind an with
      | SysErr e => fail_listener (str "bind() failed: ") e s os
      | SysOk _ =>
      match an_getsockname an with
      | SysErr e => fail_listener (str "getsockname() failed: ") e s os
      | SysOk port =>
          let s := set_port port s in
          match an_listen an with
          | SysErr e => fail_listener (str "listen() failed: ") e s os
          | SysOk _ => (Returns, s, os)
          end
      end
      end
      end
  end.

Definition setup_epoll (an : SetupAnswers) (s : Sockets) (os : Os) : St :=
  match an_epoll_create an with
  | SysErr e => (Throws (str "epoll_create1() failed: " ++ e), set_epoll (-1) s, os)
  | SysOk fd =>
      let s := set_epoll fd s in
      let os := os_add fd os in
      match an_epoll_ctl an with
      | SysErr e => (Throws (str "epoll_ctl(listener) failed: " ++ e), set_epoll (-1) s, os_close fd os)
      | SysOk _ => (Returns, s, os_watch (listener_fd_ s) os)
      end
  end.

(** The constructor: an exception leaves it, and the destructor does not run
    for an object that was never constructed. *)
Definition TcpServer_construct (port : Z) (an : SetupAnswers) (os : Os) : St :=
  match setup_listener an (Sockets_new port) os with
  | (Returns, s, os) => setup_epoll an s os
  | thrown => thrown
  end.

Definition set_eventfd (efd : Z) (answer : sys unit) (s : Sockets) (os : Os) : St :=
  let s := mkSockets (port_ s) (listener_fd_ s) (epoll_fd_ s) efd in
  match answer with
  | SysErr e => (Throws (str "epoll_ctl(eventfd) failed: " ++ e), s, os)
  | SysOk _ => (Returns, s, os_watch efd os)
  end.

(** The destructor: the connections that are left, then the two descriptors. *)
Definition close_if_open (fd : Z) (os : Os) : Os := if Z.leb 0 fd then os_close fd os else os.

Definition TcpServer_destroy (sv : TcpServer) (s : Sockets) (os : Os) : TcpServer * Sockets * Os :=
  let os := os_close_all (map_to_list (connections_ sv)).*1 os in
  let os := close_if_open (listener_fd_ s) os in
  let os := close_if_open (epoll_fd_ s) os in
  (shutdown_connections sv, mkSockets (port_ s) (-1) (-1) (eventfd_ s), os).

(** ** Facts *)

Lemma os_close_all_open fds os : os_open (os_close_all fds os) = os_open os ∖ list_to_set fds.
Proof. induction fds as [|fd fds IH]; simpl; [set_solver|]. rewrite IH. set_solver. Qed.

(** The kernel hands out descriptors that are not open. *)
Definition fresh_answers (an : SetupAnswers) (os : Os) : Prop :=
  (∀ fd, an_socket an = SysOk fd → 0 <= fd ∧ (fd ∉ os_open os)) ∧
  (∀ fd, an_epoll_create an = SysOk fd → 0 <= fd ∧ (fd ∉ os_open os) ∧ an_socket an ≠ SysOk fd).

(** What the listener's set-up leaves behind. *)
Lemma setup_listener_descriptors an port os :
  fresh_answers an os →
  match setup_listener an (Sockets_new port) os with
  | (Returns, s, os') => ∃ p, an_socket an = SysOk (listener_fd_ s) ∧ an_getsockname an = SysOk p ∧
      s = mkSockets p (listener_fd_ s) (-1) (-1) ∧ os' = os_add (listener_fd_ s) os
  | (Throws _, s, os') => os_open os' = os_open os ∧ listener_fd_ s = -1
  end.
Proof.
  intros [Hf _]. unfold setup_listener, fail_listener. destruct (an_socket an) as [fd|e] eqn:E; [|done].
  destruct (Hf fd eq_refl) as [_ Hn].
  repeat case_match; simplify_eq/=; try (split; [set_solver|done]). eauto.
Qed.

(** Error: what a failed construction leaves open.  When any call of [setup_listener] fails, the
    constructor throws and the process has exactly the descriptors it had before; when a call of
    [setup_epoll] fails, the constructor throws too, but the listening socket stays open: the destructor of
    an object whose constructor threw does not run, and nothing else closes it.  When nothing fails the
    object holds the two descriptors it opened, the listener is watched, and [port_] is the bound port. *)
Theorem construction_descriptors an port os :
  fresh_answers an os →
  match TcpServer_construct port an os with
  | (Returns, s, os') =>
      os_open os' = {[listener_fd_ s; epoll_fd_ s]} ∪ os_open os ∧ listener_fd_ s ≠ epoll_fd_ s ∧
      listener_fd_ s ∈ os_watched os' ∧ an_getsockname an = SysOk (port_ s)
  | (Throws _, s, os') =>
      match setup_listener an (Sockets_new port) os with
      | (Throws _, _, _) => os_open os' = os_open os
      | (Returns, _, _) => ∃ fd, an_socket an = SysOk fd ∧ (fd ∉ os_open os) ∧ os_open os' = {[fd]} ∪ os_open os
      end
  end.
Proof.
  intros Hf. pose proof (setup_listener_descriptors an port os Hf) as Hl. unfold TcpServer_construct.
  destruct (setup_listener an (Sockets_new port) os) as [[[|what] s] os1]; [|by destruct Hl].
  destruct Hl as (p & Es & Ep & Eq & ->), Hf as [Hf1 Hf2]. destruct (Hf1 _ Es) as [_ Hn]. unfold setup_epoll.
  destruct (an_epoll_create an) as [fd|e]; [|by eauto].
  destruct (Hf2 fd eq_refl) as (_ & Hne & Hd). rewrite Es in Hd.
  destruct (an_epoll_ctl an) as [|e]; simpl.
  - split; [set_solver|]. split; [congruence|]. split; [set_solver|]. by rewrite Eq.
  - exists (listener_fd_ s). split; [done|]. split; [done|].
    assert (fd ≠ listener_fd_ s) by congruence. set_solver.
Qed.

(** Safety: the server gives back every descriptor it took.  A construction that returns, any set of
    connections accepted since (descriptors the kernel handed out while the object lived), and the
    destructor: the process has the descriptors it had before, whether [run] has closed the connections
    already or not. *)
Theorem lifetime_closes_all an port os s os1 sv :
  fresh_answers an os → TcpServer_construct port an os = (Returns, s, os1) →
  dom (connections_ sv) ## os_open os1 →
  let os2 := mkOs (dom (connections_ sv) ∪ os_open os1) (os_watched os1) in
  os_open (TcpServer_destroy sv s os2).2 = os_open os ∧
  connections_ (TcpServer_destroy sv s os2).1.1 = ∅ ∧
  os_open (TcpServer_destroy (shutdown_connections sv) s
             (os_close_all (map_to_list (connections_ sv)).*1 os2)).2 = os_open os.
Proof.
  intros Hf Hc Hd os2. pose proof (setup_listener_descriptors an port os Hf) as Hl. unfold TcpServer_construct in Hc.
  destruct (setup_listener an (Sockets_new port) os) as [[[|what] s1] os0]; [|done].
  destruct Hl as (p & Es & _ & Eq & ->), Hf as [Hf1 Hf2]. destruct (Hf1 _ Es) as [Hp Hn]. unfold setup_epoll in Hc.
  destruct (an_epoll_create an) as [fd|e]; [|done]. destruct (Hf2 fd eq_refl) as (Hp2 & Hne & Hx).
  destruct (an_epoll_ctl an) as [|e]; [|done]. simplify_eq. simpl in Hd.
  rewrite Es in Hx. assert (fd ≠ listener_fd_ s1) by congruence.
  assert (∀ sv' os3, os_open (TcpServer_destroy sv' (set_epoll fd s1) os3).2 =
    os_open os3 ∖ list_to_set (map_to_list (connections_ sv')).*1 ∖ {[listener_fd_ s1; fd]}) as Hdes.
  { intros sv' os3. unfold TcpServer_destroy, close_if_open. simpl.
    rewrite !(proj2 (Z.leb_le 0 _)) by done. simpl. rewrite os_close_all_open. set_solver. }
  assert (list_to_set (map_to_list (connections_ sv)).*1 = dom (connections_ sv)) as Hdom.
  { apply set_eq. intros x. rewrite elem_of_list_to_set, elem_of_dom, list_elem_of_fmap. split.
    - intros ([k v] & -> & Hk). apply elem_of_map_to_list in Hk. eauto.
    - intros [v Hv]. exists (x, v). by rewrite elem_of_map_to_list. }
  split; [|split; [done|]].
  - rewrite Hdes, Hdom. simpl. set_solver.
  - rewrite Hdes, os_close_all_open, Hdom. simpl. rewrite map_to_list_empty. set_solver.
Qed.

(** ** Witnesses *)

Definition demo_answers (epoll_ctl : sys unit) : SetupAnswers :=
  mkAnswers (SysOk 3) (SysOk ()) (SysOk ()) (SysOk 9000) (SysOk ()) (SysOk 4) epoll_ctl.

Definition demo_os : Os := mkOs {[0; 1; 2]} ∅.

Lemma demo_fresh r : fresh_answers (demo_answers r) demo_os.
Proof. split; intros fd E; simpl in E; simplify_eq; [|split; [lia|split; [|done]]]; [split; [lia|]|]; set_solver by lia. Qed.

(** The listener is watched by nobody when [epoll_ctl] fails, and stays open. *)
Lemma construction_descriptors_witness :
  ∃ fd, SysOk 3 = SysOk fd ∧ (fd ∉ os_open demo_os) ∧
    os_open (TcpServer_construct 9000 (demo_answers (SysErr (str "EPERM"))) demo_os).2 = {[fd]} ∪ os_open demo_os.
Proof.
  exact (construction_descriptors (demo_answers (SysErr (str "EPERM"))) 9000 demo_os (demo_fresh _)).
Defined.

Definition demo_sockets : Sockets * Os :=
  let '(_, s, os) := TcpServer_construct 9000 (demo_answers (SysOk ())) demo_os in (s, os).

Lemma lifetime_closes_all_witness :
  os_open (TcpServer_destroy
             (mkServer {[5 := mkConn 5 1 [] []]} {[1 := 5]} 2 100 ∅ [] ∅) demo_sockets.1
             (mkOs (dom ({[5 := mkConn 5 1 [] []]} : gmap Z Connection) ∪ os_open demo_sockets.2)
                   (os_watched demo_sockets.2))).2 = os_open demo_os.
Proof.
  refine (proj1 (lifetime_closes_all (demo_answers (SysOk ())) 9000 demo_os demo_sockets.1 demo_sockets.2
    (mkServer {[5 := mkConn 5 1 [] []]} {[1 := 5]} 2 100 ∅ [] ∅) (demo_fresh _) eq_refl _)).
  simpl. rewrite dom_singleton. set_solver by lia.
Defined.
