(* ===== verification/ExchangeHang.v ===== *)
(** * ExchangeHang: the full outbound queue of apps/exchange_server/main.cpp

    The engine thread spins on a full outbound queue, while the wake-up that
    would make the I/O thread drain it waits for the inbound queue to be found
    empty.  A run of the two threads that ends in that state, and that the
    state is final. *)
From Stdlib Require Import String.
From S2P Require Import Prelude Core Text TextProtocol TcpServer SpscRing RingQueue.
From S2P Require Import OrderBook MatchingEngine EngineApi RiskEngine RiskTheorems ExchangeServer ExchangeTheorems.

Section Hang.
Context {E : Type}.
Variable submit_call : NewOrder → E → outcome (call E).
Variable cancel_call : Z → E → outcome (call E).
Variable protocol : Protocol.
#[local] Abbreviation step := (venue_step submit_call cancel_call protocol).
Implicit Types (v : Venue E).

(** ** The state is final *)

(** The engine thread holds a response, the queue is full, nobody has
    written the eventfd, and the I/O thread is in epoll. *)
Record hung (outs : list TaggedResponse) (t : TaggedResponse) v : Prop := {
  hg_full : ring_holds kOutbound (v_outbound v) outs ∧ Z.of_nat (length outs) = kOutbound;
  hg_phase : v_phase v = EPush t;
  hg_eventfd : v_eventfd v = 0;
  hg_io : v_io v = IWait }.

Lemma hung_step outs t v v' :
  hung outs t v → step v v' →
  hung outs t v' ∧ v_done v' = v_done v ∧ v_answered v' = v_answered v ∧ v_outbound v' = v_outbound v.
Proof.
  intros [[Ho Hl] Hp He Hi] Hs. destruct Hs as [v v' Es| | | |]; simpl in *; subst; try done; try lia.
  destruct v as [inb outb e w ph efd io sv hist ans]; simpl in *; subst. cbn [engine_step] in Es.
  rewrite (holds_size _ _ _ Ho), Hl in Es. simpl in Es. by simplify_eq.
Qed.

Lemma hung_forever outs t v v' :
  hung outs t v → rtc step v v' →
  hung outs t v' ∧ v_done v' = v_done v ∧ v_answered v' = v_answered v ∧ v_outbound v' = v_outbound v.
Proof.
  intros Hh Hr. revert Hh. induction Hr as [v|v v1 v2 Hs _ IH]; intros Hh; [done|].
  destruct (hung_step _ _ _ _ Hh Hs) as (Hh1 & E1 & E2 & E3).
  destruct (IH Hh1) as (Hh2 & F1 & F2 & F3). split; [done|]. split; [congruence|]. split; congruence.
Qed.

(** ** The state is reached *)

(** One client sends the same cancel again and again; the engine answers
    that it does not know the order. *)
Variables (client_id id : Z) (payload : list Z) (engine : E) (response : EngineResponse).
Hypothesis parses : parse_fn protocol payload = Ok (PCancel (mkCancel id)).
Hypothesis answers : cancel_call id engine = Ok (Returned response engine).

Definition repeated : TaggedCommand := mkTaggedCommand client_id (CCancel (mkCancel id)).

Definition answer : TaggedResponse := mkTaggedResponse client_id response.

(** One command is waiting, [j] answers are queued, none has been delivered. *)
Record busy (j : nat) v : Prop := {
  by_in : ring_holds kInbound (v_inbound v) [repeated];
  by_in_tail : rb_tail (v_inbound v) = Z.of_nat j + 1;
  by_out : ring_holds kOutbound (v_outbound v) (replicate j answer);
  by_out_tail : rb_tail (v_outbound v) = Z.of_nat j;
  by_engine : v_engine v = engine;
  by_phase : v_phase v = EPop;
  by_eventfd : v_eventfd v = 0;
  by_io : v_io v = IWait;
  by_answered : v_answered v = [];
  by_done : length (v_done v) = j }.

(** The command arrives while at most one is waiting. *)
Lemma frame_arrives sv r l :
  ring_holds kInbound r l → (length l <= 1)%nat → rb_tail r < 18446744073709551615 →
  ∃ r', on_frame protocol client_id payload (sv, r) = Ok (sv, r') ∧
    ring_holds kInbound r' (l ++ [repeated]) ∧ rb_tail r' = rb_tail r + 1.
Proof.
  intros Hh Hl Ht. unfold on_frame. rewrite parses. cbn [mbind outcome_bind parsed_command fst snd].
  destruct (push_holds _ 12 kInbound_pow2 ltac:(lia) _ _ repeated Hh) as (r' & E' & Hr' & Et); [unfold kInbound; lia|done|].
  fold repeated. rewrite E'. eauto.
Qed.

(** The engine thread takes the next command, with another already behind it. *)
Lemma busy_pops j v :
  busy j v → Z.of_nat j < 18446744073709551613 →
  ∃ v', rtc step v v' ∧ v_phase v' = EPush answer ∧
    ring_holds kInbound (v_inbound v') [repeated] ∧ rb_tail (v_inbound v') = Z.of_nat j + 2 ∧
    v_outbound v' = v_outbound v ∧ v_engine v' = engine ∧ v_eventfd v' = 0 ∧ v_io v' = IWait ∧
    v_answered v' = [] ∧ length (v_done v') = S j.
Proof.
  intros [Hi Hit Ho Hot He Hp Hf Hio Ha Hd] Hj.
  destruct v as [inb outb e w ph efd io sv hist ans]; simpl in *; subst.
  destruct (frame_arrives sv inb _ Hi) as (r1 & Ef & Hr1 & Et1); [simpl; lia|lia|].
  destruct (pop_holds _ _ _ _ Hr1) as (r2 & Ep & Hr2 & Et2).
  eexists. split; [eapply rtc_l; [apply (step_frame _ _ _ _ _ _ _ _ _ _ _ _ _ _ client_id payload Ef)|]; apply rtc_once, step_engine|].
  { cbn [engine_step]. rewrite Ep. cbn [mbind outcome_bind]. unfold dispatch_command, visit_command, repeated.
    cbn [tc_command tc_client]. simpl. rewrite answers. simpl. reflexivity. }
  simpl. rewrite length_app. simpl. split_and!; auto; lia.
Qed.

Lemma busy_round j v :
  busy j v → Z.of_nat j < kOutbound → ∃ v', rtc step v v' ∧ busy (S j) v'.
Proof.
  intros Hb Hj. unfold kOutbound in Hj.
  destruct (busy_pops j v Hb ltac:(lia)) as (v1 & Hr & Hp & Hi & Hit & Ho & He & Hf & Hio & Ha & Hd).
  pose proof (by_out _ _ Hb) as Hout. pose proof (by_out_tail _ _ Hb) as Hot. rewrite <- Ho in Hout, Hot.
  destruct v1 as [inb outb e w ph efd io sv hist ans]; simpl in *; subst.
  destruct (push_holds _ 16 kOutbound_pow2 ltac:(lia) _ _ answer Hout) as (o1 & Eo & Ho1 & Eot);
    [rewrite length_replicate; unfold kOutbound; lia|lia|].
  eexists. split.
  - etrans; [exact Hr|]. eapply rtc_l; [apply step_engine|apply rtc_once, step_engine].
    + cbn [engine_step]. rewrite (holds_size _ _ _ Hout), length_replicate, (proj2 (Z.leb_gt _ _)) by (unfold kOutbound; lia).
      rewrite Eo. reflexivity.
    + reflexivity.
  - split; simpl; auto; try lia. by rewrite replicate_cons_app.
Qed.

Lemma busy_rounds n v : busy 0 v → Z.of_nat n <= kOutbound → ∃ v', rtc step v v' ∧ busy n v'.
Proof.
  intros Hb. induction n as [|n IH]; intros Hn; [eauto using rtc_refl|].
  destruct IH as (v1 & Hr1 & Hb1); [lia|]. destruct (busy_round n v1 Hb1) as (v2 & Hr2 & Hb2); [lia|].
  exists v2. split; [by etrans|done].
Qed.

Lemma start_busy cmd0 resp0 sv :
  ∃ v, rtc step (venue_start cmd0 resp0 engine sv) v ∧ busy 0 v.
Proof.
  assert (ring_holds kInbound (Ring_new kInbound cmd0) []) as Hi by (apply (new_holds _ 12 kInbound_pow2); lia).
  destruct (frame_arrives sv _ _ Hi) as (r1 & Ef & Hr1 & Et1); [simpl; lia|simpl; lia|].
  eexists. split; [apply rtc_once, (step_frame _ _ _ _ _ _ _ _ _ _ _ _ _ _ client_id payload Ef)|].
  split; simpl; auto. apply (new_holds _ 16 kOutbound_pow2). lia.
Qed.
End Hang.

(** C14. Safety, violated: sustained load hangs the venue.  With either protocol and any engine that answers, when a
    client's commands keep the inbound queue from ever being found empty for 65537 commands, which needs no
    more than two of them waiting at any moment, the engine thread reaches its spin on the full outbound
    queue with the coalesced wake-up still owed and the eventfd unwritten, while the I/O thread drains only
    when the eventfd fires: from that state, whatever the clients do and however the threads are scheduled,
    none of the 65537 answers is ever delivered and no further command is processed. *)
Theorem full_outbound_hangs {E} submit_call cancel_call protocol client_id id payload (engine : E) response
    cmd0 resp0 sv :
  parse_fn protocol payload = Ok (PCancel (mkCancel id)) →
  cancel_call id engine = Ok (Returned response engine) →
  ∃ v, rtc (venue_step submit_call cancel_call protocol) (venue_start cmd0 resp0 engine sv) v ∧
    ∀ v', rtc (venue_step submit_call cancel_call protocol) v v' →
      v_answered v' = [] ∧ Z.of_nat (length (v_done v')) = 65537 ∧
      v_phase v' = EPush (mkTaggedResponse client_id response) ∧ v_eventfd v' = 0 ∧ v_io v' = IWait.
Proof.
  intros Hp Hc.
  destruct (start_busy submit_call cancel_call protocol client_id id payload engine response Hp cmd0 resp0 sv)
    as (v0 & Hr0 & Hb0).
  destruct (busy_rounds submit_call cancel_call protocol _ _ _ _ _ Hp Hc (Z.to_nat kOutbound) v0 Hb0) as (v1 & Hr1 & Hb1); [unfold kOutbound; lia|].
  pose proof (by_out _ _ _ _ _ _ Hb1) as Hout.
  destruct (busy_pops submit_call cancel_call protocol _ _ _ _ _ Hp Hc _ v1 Hb1) as (v2 & Hr2 & Hph & _ & _ & Ho & _ & Hf & Hio & Ha & Hd);
    [unfold kOutbound; lia|].
  exists v2. split; [by etrans; [exact Hr0|]; etrans|]. intros v' Hr'.
  assert (hung (replicate (Z.to_nat kOutbound) (answer client_id response)) (answer client_id response) v2) as Hh.
  { split; [|done..]. rewrite Ho, length_replicate. split; [done|]. unfold kOutbound. lia. }
  destruct (hung_forever _ _ _ _ _ _ _ Hh Hr') as (Hh' & -> & -> & _). rewrite Ha, Hd.
  split; [done|]. split; [unfold kOutbound; lia|]. destruct Hh'. done.
Qed.

(** The risk engine over an empty matching engine, and "CANCEL 7" as text. *)
#[local] Instance hang_api : EngineAPI (MatchingEngine (list Event)) := matching_engine_api Undefined.

Lemma full_outbound_hangs_witness :
  ∃ v, rtc (venue_step api_submit_call api_cancel_call text) (venue_start (mkTaggedCommand 0 (CCancel (mkCancel 0)))
             (mkTaggedResponse 0 (mkResponse Accepted [] 0 0)) risk_demo (TcpServer_new 100)) v ∧
       v_answered v = [].
Proof.
  destruct (full_outbound_hangs api_submit_call api_cancel_call text 3 7 (str "CANCEL 7") risk_demo
    (mkResponse UnknownOrderId [] 0 7) (mkTaggedCommand 0 (CCancel (mkCancel 0)))
    (mkTaggedResponse 0 (mkResponse Accepted [] 0 0)) (TcpServer_new 100)) as (v & Hr & Hv).
  - vm_compute. reflexivity.
  - vm_compute. reflexivity.
  - exists v. split; [exact Hr|]. apply (Hv v). apply rtc_refl.
Defined.
