(* ===== verification/Shutdown.v ===== *)
(** * Shutdown: how apps/exchange_server/main.cpp and TcpServer::run stop

    The signal handler, the main thread from its loop condition to the joins,
    and the I/O thread's loop with its two tests of the shutdown flag, around
    the two threads of ExchangeServer.  Memory is sequentially consistent: the
    shutdown flag is stored and loaded with relaxed order, and it is the
    [write] and [read] of the eventfd between the store and the load that are
    taken to order them. *)
From S2P Require Import Prelude Core TextProtocol TcpServer SpscRing RingQueue.
From S2P Require Import ExchangeServer ExchangeTheorems.

(** Where the main thread is: at the loop condition, in the body, after the
    loop at the last notification, in [request_shutdown] before the store and
    before the write, in [io_thread.join()], past it. *)
Inductive main_phase := MTop | MBody | MNotify | MRequest | MRequestWrite | MJoin | MDone.

(** Where the I/O thread is: at its loop condition, in [epoll_wait], in the
    batch with [clients] client events to handle before, optionally, the
    eventfd and then that many more; in the drain handler; at the test after
    it; past [shutdown:]. *)
Inductive io_control :=
| IoTop | IoBlocked | IoBatch (clients : nat) (eventfd_then : option nat)
| IoDraining (after : nat) | IoCheck (after : nat) | IoExited.

Definition kMaxEvents : nat := 64.

Record Closing (E : Type) := mkClosing {
  cl_venue : Venue E; g_shutdown : bool; shutdown_requested_ : bool;
  cl_main : main_phase; cl_io : io_control }.
Arguments mkClosing {E} _ _ _ _ _.
Arguments cl_venue {E} _.
Arguments g_shutdown {E} _.
Arguments shutdown_requested_ {E} _.
Arguments cl_main {E} _.
Arguments cl_io {E} _.

Section Steps.
Context {E : Type}.
Variable submit_call : NewOrder → E → outcome (call E).
Variable cancel_call : Z → E → outcome (call E).
Variable protocol : Protocol.
Implicit Types (v : Venue E).

(** [write(g_eventfd, 1)] by any thread. *)
Definition write_eventfd v : Venue E :=
  mkVenue (v_inbound v) (v_outbound v) (v_engine v) (v_wakeup v) (v_phase v) (eventfd_write (v_eventfd v))
    (v_io v) (v_server v) (v_done v) (v_answered v).

(** The code between the loop and [request_shutdown]. *)
Definition final_notify v : Venue E :=
  let '(notify, wakeup) := should_notify_on_idle (v_wakeup v) in
  let v := mkVenue (v_inbound v) (v_outbound v) (v_engine v) wakeup (v_phase v) (v_eventfd v)
             (v_io v) (v_server v) (v_done v) (v_answered v) in
  if (notify : bool) then write_eventfd v else v.

(** After [shutdown:]. *)
Definition close_all v : Venue E :=
  mkVenue (v_inbound v) (v_outbound v) (v_engine v) (v_wakeup v) (v_phase v) (v_eventfd v)
    (v_io v) (shutdown_connections (v_server v)) (v_done v) (v_answered v).

Inductive main_step : Closing E → Closing E → Prop :=
| main_top v g rq io :
    main_step (mkClosing v g rq MTop io) (mkClosing v g rq (if g then MNotify else MBody) io)
| main_body v v' g rq io :
    engine_step submit_call cancel_call v = Ok v' →
    main_step (mkClosing v g rq MBody io)
              (mkClosing v' g rq (match v_phase v' with EPop => MTop | _ => MBody end) io)
| main_notify v g rq io :
    main_step (mkClosing v g rq MNotify io) (mkClosing (final_notify v) g rq MRequest io)
| main_request v g rq io :
    main_step (mkClosing v g rq MRequest io) (mkClosing v g true MRequestWrite io)
| main_write v g rq io :
    main_step (mkClosing v g rq MRequestWrite io) (mkClosing (write_eventfd v) g rq MJoin io)
| main_join v g rq :
    main_step (mkClosing v g rq MJoin IoExited) (mkClosing v g rq MDone IoExited).

(** Events of one [epoll_wait]. *)
Definition batch_size (clients : nat) (eventfd_then : option nat) : nat :=
  clients + match eventfd_then with Some after => S after | None => 0 end.

(** What the I/O thread does on its own: [epoll_wait] returns because the
    eventfd is readable (with whatever clients are ready too), and the loop
    runs on to the next wait or to its end. *)
Inductive io_own_step : Closing E → Closing E → Prop :=
| io_stop v g m : io_own_step (mkClosing v g true m IoTop) (mkClosing (close_all v) g true m IoExited)
| io_wait v g m : io_own_step (mkClosing v g false m IoTop) (mkClosing v g false m IoBlocked)
| io_woken v g rq m clients after :
    0 < v_eventfd v → (batch_size clients (Some after) <= kMaxEvents)%nat →
    io_own_step (mkClosing v g rq m IoBlocked) (mkClosing v g rq m (IoBatch clients (Some after)))
| io_client v v' g rq m clients eventfd_then :
    (∃ client_id payload sv' inbound',
       on_frame protocol client_id payload (v_server v, v_inbound v) = Ok (sv', inbound') ∧
       v' = mkVenue inbound' (v_outbound v) (v_engine v) (v_wakeup v) (v_phase v) (v_eventfd v)
              IWait sv' (v_done v) (v_answered v)) ∨
    (∃ sv', v' = mkVenue (v_inbound v) (v_outbound v) (v_engine v) (v_wakeup v) (v_phase v) (v_eventfd v)
              IWait sv' (v_done v) (v_answered v)) →
    io_own_step (mkClosing v g rq m (IoBatch (S clients) eventfd_then))
            (mkClosing v' g rq m (IoBatch (S clients) eventfd_then))
| io_client_done v g rq m clients eventfd_then :
    io_own_step (mkClosing v g rq m (IoBatch (S clients) eventfd_then))
            (mkClosing v g rq m (IoBatch clients eventfd_then))
| io_batch_done v g rq m : io_own_step (mkClosing v g rq m (IoBatch 0 None)) (mkClosing v g rq m IoTop)
| io_read_eventfd v g rq m after :
    io_own_step (mkClosing v g rq m (IoBatch 0 (Some after)))
            (mkClosing (mkVenue (v_inbound v) (v_outbound v) (v_engine v) (v_wakeup v) (v_phase v) 0
                          IDrain (v_server v) (v_done v) (v_answered v)) g rq m (IoDraining after))
| io_drain v g rq m after sends popped sv' outbound' :
    drain_one protocol (set_sends sends (v_server v), v_outbound v) = Ok (popped, (sv', outbound')) →
    io_own_step (mkClosing v g rq m (IoDraining after))
            (mkClosing (mkVenue (v_inbound v) outbound' (v_engine v) (v_wakeup v) (v_phase v) (v_eventfd v)
                          (match popped with None => IWait | Some _ => IDrain end) sv' (v_done v)
                          (v_answered v ++ option_list popped)) g rq m
                       (match popped with None => IoCheck after | Some _ => IoDraining after end))
| io_check_stop v g m after :
    io_own_step (mkClosing v g true m (IoCheck after)) (mkClosing (close_all v) g true m IoExited)
| io_check_on v g m after :
    io_own_step (mkClosing v g false m (IoCheck after)) (mkClosing v g false m (IoBatch after None)).

(** What only others can bring about: [epoll_wait] returns because clients are
    ready, or with [EINTR] because a signal handler ran on this thread. *)
Inductive io_env_step : Closing E → Closing E → Prop :=
| io_clients_ready v g rq m clients :
    (0 < clients <= kMaxEvents)%nat →
    io_env_step (mkClosing v g rq m IoBlocked) (mkClosing v g rq m (IoBatch clients None))
| io_interrupted v g rq m : io_env_step (mkClosing v g rq m IoBlocked) (mkClosing v g rq m IoTop).

Definition io_step (c c' : Closing E) : Prop := io_own_step c c' ∨ io_env_step c c'.

(** The signal handler: the store, and the write after it. *)
Inductive signal_step : Closing E → Closing E → Prop :=
| signal_store v g rq m io : signal_step (mkClosing v g rq m io) (mkClosing v true rq m io)
| signal_write v rq m io :
    signal_step (mkClosing v true rq m io) (mkClosing (write_eventfd v) true rq m io).

Definition closing_step (c c' : Closing E) : Prop := main_step c c' ∨ io_step c c' ∨ signal_step c c'.

(** [TcpServer::request_shutdown] as the main thread calls it, its two
    operations in one piece: the store, then the write to an eventfd that
    has been set. *)
Definition request_shutdown (eventfd : Z) (c : Closing E) : Closing E :=
  let v := if Z.leb 0 eventfd then write_eventfd (cl_venue c) else cl_venue c in
  mkClosing v (g_shutdown c) true (cl_main c) (cl_io c).

(** ... and as the two steps of the main thread that make it up. *)
Lemma request_shutdown_steps eventfd v g rq io :
  0 <= eventfd →
  let c := mkClosing v g rq MRequest io in
  let r := request_shutdown eventfd c in
  ∃ c1, main_step c c1 ∧ main_step c1 (mkClosing (cl_venue r) (g_shutdown r) (shutdown_requested_ r) MJoin (cl_io r)).
Proof.
  intros He. simpl. rewrite (proj2 (Z.leb_le 0 _)) by done. eexists. split; [apply main_request|]. apply main_write.
Qed.

(** Both threads have started, nothing has arrived. *)
Definition closing_start (cmd0 : TaggedCommand) (resp0 : TaggedResponse) (engine : E) (sv : TcpServer) : Closing E :=
  mkClosing (venue_start cmd0 resp0 engine sv) false false MTop IoTop.
End Steps.

(** Steps of the I/O thread's control that are left once [request_shutdown]
    has returned, counting a drained response as one. *)
Definition io_left {E} (c : Closing E) : Z :=
  let queued := ring_size (v_outbound (cl_venue c)) in
  match cl_io c with
  | IoExited => 0
  | IoTop | IoCheck _ => 1
  | IoDraining _ => 2 + queued
  | IoBatch n None => 2 + Z.of_nat n
  | IoBatch n (Some _) => 3 + Z.of_nat n + queued
  | IoBlocked => 4 + Z.of_nat kMaxEvents + queued
  end.
