(* ===== verification/ShutdownTheorems.v ===== *)
(** * ShutdownTheorems: the exchange server stops, and what it may leave unsent *)
From Stdlib Require Import String.
From S2P Require Import Prelude Core Text TextProtocol GatewayCodec TcpServer SpscRing RingQueue OrderBook MatchingEngine EngineApi.
From S2P Require Import RiskEngine RiskTheorems TcpTheorems ExchangeServer ExchangeTheorems ExchangeHang Shutdown.

(** The main thread has stored the request. *)
Definition requested (m : main_phase) : bool :=
  match m with MRequestWrite | MJoin | MDone => true | _ => false end.

(** The main thread waits for the I/O thread, or has. *)
Definition joining (m : main_phase) : bool := match m with MJoin | MDone => true | _ => false end.

Definition io_phase_of (io : io_control) : io_phase := match io with IoDraining _ => IDrain | _ => IWait end.

(** The I/O thread has an eventfd event in hand, or will find one. *)
Definition eventfd_due (m : main_phase) (io : io_control) : bool :=
  match io with IoBatch _ (Some _) => true | IoBlocked => joining m | _ => false end.

(** Events of the batch that are left. *)
Definition batch_left (io : io_control) : nat :=
  match io with IoBatch n e => batch_size n e | IoDraining a | IoCheck a => a | _ => 0 end.

Section Invariant.
Context {E : Type}.
Variable submit_call : NewOrder → E → outcome (call E).
Variable cancel_call : Z → E → outcome (call E).
Variable protocol : Protocol.
Implicit Types (v : Venue E) (c : Closing E).
#[local] Abbreviation named := (calls_name submit_call cancel_call).

Record closing_inv (n : Z) c (ins : list TaggedCommand) (outs : list TaggedResponse) : Prop := {
  ci_venue : venue_inv named n (cl_venue c) ins outs;
  ci_io : v_io (cl_venue c) = io_phase_of (cl_io c);
  ci_phase : cl_main c ≠ MBody → v_phase (cl_venue c) = EPop;
  ci_requested : shutdown_requested_ c = requested (cl_main c);
  ci_due : eventfd_due (cl_main c) (cl_io c) = true → 0 < v_eventfd (cl_venue c);
  ci_batch : (batch_left (cl_io c) <= kMaxEvents)%nat }.

Lemma venue_inv_mono n v ins outs : venue_inv named n v ins outs → venue_inv named (n + 1) v ins outs.
Proof. intros []. split; auto; lia. Qed.

(** Facts of a venue survive an I/O phase or a server in its place. *)
Lemma venue_inv_server n v ins outs sv :
  venue_inv named n v ins outs →
  venue_inv named n (mkVenue (v_inbound v) (v_outbound v) (v_engine v) (v_wakeup v) (v_phase v) (v_eventfd v)
    (v_io v) sv (v_done v) (v_answered v)) ins outs.
Proof. intros []. by split. Qed.

Lemma eventfd_write_pos z : 0 <= z → 0 < eventfd_write z.
Proof. intros Hz. unfold eventfd_write. zb; lia. Qed.

Lemma write_eventfd_inv n v ins outs :
  venue_inv named n v ins outs → venue_inv named n (write_eventfd v) ins outs.
Proof. intros []. pose proof (eventfd_write_pos _ vi_eventfd). split; simpl; auto; lia. Qed.

Lemma final_notify_inv n v ins outs :
  venue_inv named n v ins outs → venue_inv named n (final_notify v) ins outs.
Proof.
  intros []. pose proof (eventfd_write_pos _ vi_eventfd). unfold final_notify, write_eventfd.
  destruct v as [r o e [[]] ph efd io sv hist ans]; simpl in *; split; simpl; auto; lia.
Qed.

Lemma final_notify_keeps v :
  v_phase (final_notify v) = v_phase v ∧ v_io (final_notify v) = v_io v ∧ v_outbound (final_notify v) = v_outbound v ∧
  (0 < v_eventfd v → 0 < v_eventfd (final_notify v)).
Proof.
  unfold final_notify, write_eventfd. destruct v as [r o e [[]] ph efd io sv hist ans]; simpl; split_and!; try done.
  intros. apply eventfd_write_pos. lia.
Qed.

Lemma engine_step_keeps v v' :
  engine_step submit_call cancel_call v = Ok v' →
  v_io v' = v_io v ∧ (0 < v_eventfd v → 0 < v_eventfd v').
Proof.
  destruct v as [r o e [w] ph efd io sv hist ans]. destruct ph; cbn [engine_step]; intros Es.
  - inv_ok. destruct a as [[cmd|] r1]; inv_ok; [destruct a|]; inv_ok; by subst.
  - destruct w; simpl in Es; simplify_eq; simpl; (split; [done|]); [|done]. intros. apply eventfd_write_pos. lia.
  - case_match; [by simplify_eq|]. case_match. by simplify_eq.
  - by simplify_eq.
Qed.

Lemma main_step_inv n c c' ins outs :
  closing_inv n c ins outs → n < 18446744073709551615 → main_step submit_call cancel_call c c' →
  ∃ ins' outs', closing_inv (n + 1) c' ins' outs'.
Proof.
  intros [Hv Hio Hp Hr Hd Hb] Hn Hs. destruct Hs as [v g rq io|v v' g rq io Es|v g rq io|v g rq io|v g rq io|v g rq];
    simpl in *.
  - exists ins, outs. split; simpl; [by apply venue_inv_mono|done|intros _; by apply Hp|by destruct g| |done].
    intros Hx. apply Hd. by destruct g, io as [| |? []| | |].
  - destruct (engine_step_inv submit_call cancel_call n v v' ins outs Hv Hn Es) as (ins' & outs' & Hv').
    destruct (engine_step_keeps _ _ Es) as [Eio Ef]. exists ins', outs'. split; simpl; [done|congruence| | | |done].
    + by destruct (v_phase v').
    + by destruct (v_phase v').
    + intros Hx. apply Ef, Hd. by destruct (v_phase v'), io as [| |? []| | |].
  - destruct (final_notify_keeps v) as (Ep & Ei & _ & Ef). exists ins, outs.
    split; simpl; [by apply venue_inv_mono, final_notify_inv|congruence|intros _; rewrite Ep; by apply Hp|done| |done].
    intros Hx. apply Ef, Hd. by destruct io as [| |? []| | |].
  - exists ins, outs. split; simpl; [by apply venue_inv_mono|done|intros _; by apply Hp|done| |done].
    intros Hx. apply Hd. by destruct io as [| |? []| | |].
  - exists ins, outs. split; simpl; [by apply venue_inv_mono, write_eventfd_inv|done|intros _; by apply Hp|done| |done].
    intros _. apply eventfd_write_pos. apply Hv.
  - exists ins, outs. split; simpl; [by apply venue_inv_mono|done|intros _; by apply Hp|done|done|done].
Qed.

Lemma signal_step_inv n c c' ins outs :
  closing_inv n c ins outs → signal_step c c' → closing_inv (n + 1) c' ins outs.
Proof.
  intros [Hv Hio Hp Hr Hd Hb] Hs. destruct Hs; simpl in *.
  - split; simpl; auto using venue_inv_mono.
  - split; simpl; auto using venue_inv_mono, write_eventfd_inv.
    intros _. apply eventfd_write_pos, Hv.
Qed.

(** The I/O thread's changes to the venue are steps of ExchangeServer. *)
Lemma io_client_inv n v v' ins outs :
  venue_inv named n v ins outs → v_io v = IWait → n < 18446744073709551615 →
  (∃ client_id payload sv' inbound',
     on_frame protocol client_id payload (v_server v, v_inbound v) = Ok (sv', inbound') ∧
     v' = mkVenue inbound' (v_outbound v) (v_engine v) (v_wakeup v) (v_phase v) (v_eventfd v)
            IWait sv' (v_done v) (v_answered v)) ∨
  (∃ sv', v' = mkVenue (v_inbound v) (v_outbound v) (v_engine v) (v_wakeup v) (v_phase v) (v_eventfd v)
            IWait sv' (v_done v) (v_answered v)) →
  ∃ ins' outs', venue_inv named (n + 1) v' ins' outs'.
Proof.
  intros Hv Hw Hn Hc. eapply (venue_step_inv submit_call cancel_call protocol n v v' ins outs Hv Hn).
  destruct v as [r o e w ph efd io sv hist ans]; simpl in *; subst io.
  destruct Hc as [(id & p & sv' & r' & Ef & ->)|(sv' & ->)]; [by eapply step_frame|by eapply step_socket].
Qed.

Lemma io_read_inv n v ins outs :
  venue_inv named n v ins outs → v_io v = IWait → 0 < v_eventfd v → n < 18446744073709551615 →
  ∃ ins' outs', venue_inv named (n + 1)
    (mkVenue (v_inbound v) (v_outbound v) (v_engine v) (v_wakeup v) (v_phase v) 0 IDrain (v_server v)
       (v_done v) (v_answered v)) ins' outs'.
Proof.
  intros Hv Hw He Hn. eapply (venue_step_inv submit_call cancel_call protocol n v _ ins outs Hv Hn).
  destruct v as [r o e w ph efd io sv hist ans]; simpl in *; subst io. by apply step_wake.
Qed.

Lemma io_drain_inv n v ins outs sends popped sv' outbound' :
  venue_inv named n v ins outs → v_io v = IDrain → n < 18446744073709551615 →
  drain_one protocol (set_sends sends (v_server v), v_outbound v) = Ok (popped, (sv', outbound')) →
  ∃ ins' outs', venue_inv named (n + 1)
    (mkVenue (v_inbound v) outbound' (v_engine v) (v_wakeup v) (v_phase v) (v_eventfd v)
       (match popped with None => IWait | Some _ => IDrain end) sv' (v_done v)
       (v_answered v ++ option_list popped)) ins' outs'.
Proof.
  intros Hv Hw Hn Ed. apply (venue_inv_server n v ins outs (set_sends sends (v_server v))) in Hv.
  eapply (venue_step_inv submit_call cancel_call protocol n _ _ ins outs Hv Hn). rewrite Hw. by eapply step_drain.
Qed.

Lemma io_own_inv n c c' ins outs :
  closing_inv n c ins outs → n < 18446744073709551615 → io_own_step protocol c c' →
  ∃ ins' outs', closing_inv (n + 1) c' ins' outs'.
Proof.
  intros [Hv Hio Hp Hr Hd Hb] Hn Hs. destruct Hs; simpl in *; unfold batch_size in *.
  - exists ins, outs. split; simpl; auto; (by apply venue_inv_mono, venue_inv_server) || lia.
  - exists ins, outs. split; simpl; auto using venue_inv_mono. by destruct m.
  - exists ins, outs. split; simpl; auto using venue_inv_mono; unfold batch_size; lia.
  - destruct (io_client_inv n v v' ins outs Hv Hio Hn H) as (ins' & outs' & Hv'). exists ins', outs'.
    assert (v_phase v' = v_phase v ∧ v_eventfd v' = v_eventfd v ∧ v_io v' = IWait) as (Ep & Ee & Ei)
      by (destruct H as [(?&?&?&?&_&->)|(?&->)]; done).
    split; simpl; [done|done|rewrite Ep; done|done|rewrite Ee; done|done].
  - exists ins, outs. split; simpl; auto using venue_inv_mono; unfold batch_size; lia.
  - exists ins, outs. split; simpl; auto using venue_inv_mono; unfold batch_size; done || lia.
  - destruct (io_read_inv n v ins outs Hv Hio (Hd eq_refl) Hn) as (ins' & outs' & Hv'). exists ins', outs'.
    split; simpl; try done; lia.
  - destruct (io_drain_inv n v ins outs sends popped sv' outbound' Hv Hio Hn H) as (ins' & outs' & Hv').
    exists ins', outs'. destruct popped; split; simpl; try done; lia.
  - exists ins, outs. split; simpl; auto; (by apply venue_inv_mono, venue_inv_server) || lia.
  - exists ins, outs. split; simpl; auto using venue_inv_mono; unfold batch_size; done || lia.
Qed.

Lemma io_step_inv n c c' ins outs :
  closing_inv n c ins outs → n < 18446744073709551615 → io_step protocol c c' →
  ∃ ins' outs', closing_inv (n + 1) c' ins' outs'.
Proof.
  intros [Hv Hio Hp Hr Hd Hb] Hn [Hs|Hs].
  { by eapply io_own_inv; [by split|..]. }
  exists ins, outs. destruct Hs; (split; simpl in *; auto using venue_inv_mono; unfold batch_size; done || lia).
Qed.

Lemma closing_run_inv n cmd0 resp0 engine sv c :
  nsteps (closing_step submit_call cancel_call protocol) n (closing_start cmd0 resp0 engine sv) c →
  Z.of_nat n < 18446744073709551615 → ∃ ins outs, closing_inv (Z.of_nat n) c ins outs.
Proof.
  revert c. induction n as [|n IH]; intros c Hn Hb.
  - inversion Hn; subst. exists [], []. split; simpl; try done; [apply start_inv|lia].
  - apply nsteps_inv_r in Hn as (c1 & Hn & Hs). destruct (IH c1 Hn ltac:(lia)) as (ins & outs & Hc).
    replace (Z.of_nat (S n)) with (Z.of_nat n + 1) by lia.
    destruct Hs as [Hs|[Hs|Hs]]; [by eapply main_step_inv; [..|exact Hs]; [done|lia]|
      by eapply io_step_inv; [..|exact Hs]; [done|lia]|]. exists ins, outs. by eapply signal_step_inv.
Qed.

(** ** The I/O thread leaves *)

Lemma drain_one_size outb outs sv popped sv' outb' :
  ring_holds kOutbound outb outs → drain_one protocol (sv, outb) = Ok (popped, (sv', outb')) →
  ring_size outb' = ring_size outb - match popped with Some _ => 1 | None => 0 end.
Proof.
  intros Ho Ed. rewrite (holds_size _ _ _ Ho). unfold drain_one in Ed. cbn [fst snd] in Ed. destruct outs as [|t outs].
  - rewrite (pop_empty _ _ Ho) in Ed. simpl in Ed. simplify_eq. rewrite (holds_size _ _ _ Ho). simpl. lia.
  - destruct (pop_holds _ _ _ _ Ho) as (o1 & Ep & Ho1 & _). rewrite Ep in Ed. simpl in Ed. inv_ok. simplify_eq.
    rewrite (holds_size _ _ _ Ho1). simpl. lia.
Qed.

Hypothesis renders : ∀ r, ∃ bytes, render_fn protocol r = Ok bytes.

(** The kernel can always answer a drain round. *)
Lemma drain_one_returns outb outs sv :
  ring_holds kOutbound outb outs → ∃ popped s, drain_one protocol (set_sends [SAgain] sv, outb) = Ok (popped, s).
Proof.
  intros Ho. unfold drain_one. cbn [fst snd]. destruct outs as [|t outs].
  - rewrite (pop_empty _ _ Ho). simpl. eauto.
  - destruct (pop_holds _ _ _ _ Ho) as (o1 & Ep & _). rewrite Ep. simpl. destruct (renders (tr_response t)) as [bs ->]. simpl.
    destruct (send_returns (tr_client t) (frame_message bs) (set_sends [SAgain] sv)) as [sv' ->]; [set_solver|]. simpl. eauto.
Qed.

Lemma io_left_step n c c' ins outs :
  closing_inv n c ins outs → joining (cl_main c) = true → io_step protocol c c' →
  io_left c' <= io_left c ∧ (cl_io c' ≠ cl_io c → io_left c' < io_left c) ∧ cl_main c' = cl_main c.
Proof.
  intros [Hv Hio Hp Hr Hd Hb] Hm Hs. assert (shutdown_requested_ c = true) as Hq by (rewrite Hr; by destruct (cl_main c)).
  pose proof (holds_size _ _ _ (vi_out _ _ _ _ _ Hv)) as Hz.
  destruct Hs as [Hs|Hs]; destruct Hs; simpl in *; subst; try done; unfold io_left; simpl; rewrite ?Hz;
    try (split_and!; [lia|intros; lia|done]); try (unfold batch_size, kMaxEvents in *; split_and!; try done; lia).
  - assert (v_outbound v' = v_outbound v) as -> by (destruct H as [(?&?&?&?&_&->)|(?&->)]; done). by rewrite Hz.
  - destruct eventfd_then; split_and!; try done; lia.
  - apply (drain_one_size _ outs) in H; [|apply Hv]. destruct popped; split_and!; try done; lia.
Qed.

(** Without a signal or a client's help, the I/O thread has a step that brings it closer. *)
Lemma io_can_step n c ins outs :
  closing_inv n c ins outs → joining (cl_main c) = true →
  cl_io c = IoExited ∨ ∃ c', io_own_step protocol c c' ∧ io_left c' < io_left c.
Proof.
  intros Hc Hm. pose proof Hc as [Hv Hio Hp Hr Hd Hb]. destruct c as [v g rq m io]. simpl in *.
  assert (rq = true) as -> by (rewrite Hr; by destruct m).
  assert (∀ c', io_own_step protocol (mkClosing v g true m io) c' → cl_io c' ≠ io →
    ∃ c', io_own_step protocol (mkClosing v g true m io) c' ∧ io_left c' < io_left (mkClosing v g true m io)) as Hgo.
  { intros c' Hs Hne. exists c'. split; [done|]. eapply (io_left_step n); [done|done|by left|]. done. }
  destruct io as [| |[|k] [a|]|a|a|]; [right..|by left].
  - eapply Hgo; [apply io_stop|done].
  - eapply Hgo; [apply (io_woken _ _ _ _ _ 0 0); [by apply Hd|unfold batch_size, kMaxEvents; lia]|done].
  - eapply Hgo; [apply io_read_eventfd|done].
  - eapply Hgo; [apply io_batch_done|done].
  - eapply Hgo; [apply io_client_done|]. simpl. intros [=]. lia.
  - eapply Hgo; [apply io_client_done|]. simpl. intros [=]. lia.
  - destruct (drain_one_returns (v_outbound v) outs (v_server v)) as (popped & [sv' o'] & Ed); [apply Hv|].
    eexists. split; [by eapply io_drain|]. pose proof (drain_one_size _ _ _ _ _ _ (vi_out _ _ _ _ _ Hv) Ed) as Hsz.
    pose proof (holds_size _ _ _ (vi_out _ _ _ _ _ Hv)). unfold io_left. simpl. destruct popped; simpl; lia.
  - eapply Hgo; [apply io_check_stop|done].
Qed.
End Invariant.

(** ** Properties *)

(** C23. Liveness: a requested shutdown ends the I/O thread.  Under every interleaving of the signal handler,
    the two threads and the clients, once the main thread waits in [io_thread.join()]: the wake-up of
    [request_shutdown] is not lost, whatever wake-ups it was merged with and whoever drained before: an I/O
    thread in [epoll_wait] has the eventfd readable; the I/O thread is past its loop, or has a step of its own,
    which needs no client, no signal and no [EINTR], that brings it closer to the end; no step of any thread
    takes it further away; and whenever its control moves it comes strictly closer.  The distance counts at
    most the events of one batch and the responses queued.  Handling one client event is assumed to return,
    every response to have a rendering, and the eventfd's system calls to order the flag around them. *)
Theorem shutdown_reaches_io {E} (submit_call : NewOrder → E → outcome (call E)) cancel_call protocol n cmd0 resp0 engine sv c :
  nsteps (closing_step submit_call cancel_call protocol) n (closing_start cmd0 resp0 engine sv) c →
  Z.of_nat n < 18446744073709551615 → (∀ r, ∃ bytes, render_fn protocol r = Ok bytes) →
  cl_main c = MJoin →
  0 <= io_left c <= 4 + Z.of_nat kMaxEvents + kOutbound ∧
  (cl_io c = IoBlocked → 0 < v_eventfd (cl_venue c)) ∧
  (cl_io c = IoExited ∨ ∃ c', io_own_step protocol c c' ∧ io_left c' < io_left c) ∧
  ∀ c', closing_step submit_call cancel_call protocol c c' →
    io_left c' <= io_left c ∧ (cl_io c' ≠ cl_io c → io_left c' < io_left c).
Proof.
  intros Hr Hn Hren Hm. destruct (closing_run_inv _ _ _ _ _ _ _ _ _ Hr Hn) as (ins & outs & Hc).
  assert (joining (cl_main c) = true) as Hj by by rewrite Hm.
  pose proof (vi_out _ _ _ _ _ (ci_venue _ _ _ _ _ _ Hc)) as Ho. pose proof (holds_size _ _ _ Ho) as Hz.
  pose proof (rh_room _ _ _ Ho). split; [|split; [|split; [by eapply io_can_step|]]].
  - pose proof (ci_batch _ _ _ _ _ _ Hc) as Hb. unfold io_left. rewrite Hz.
    destruct (cl_io c) as [| |k [a|]|a|a|]; simpl in Hb; unfold batch_size in Hb; unfold kMaxEvents in *; lia.
  - intros Hb. apply (ci_due _ _ _ _ _ _ Hc). by rewrite Hm, Hb.
  - intros c' [Hs|[Hs|Hs]].
    + destruct Hs; simpl in *; done.
    + destruct (io_left_step _ _ _ _ _ _ _ _ Hc Hj Hs) as (? & ? & _). done.
    + destruct Hs; unfold io_left; simpl; split; done || lia.
Qed.

(** A command is processed and its answer queued while the I/O thread is still
    handling the event that brought the command. *)
Lemma answer_queued {E} (submit_call : NewOrder → E → outcome (call E)) cancel_call protocol client_id id payload engine response
    cmd0 resp0 sv :
  parse_fn protocol payload = Ok (PCancel (mkCancel id)) →
  cancel_call id engine = Ok (Returned response engine) →
  ∃ v, rtc (closing_step submit_call cancel_call protocol) (closing_start cmd0 resp0 engine sv)
         (mkClosing v false false MTop (IoBatch 1 None)) ∧
       ring_holds kOutbound (v_outbound v) [mkTaggedResponse client_id response] ∧ v_answered v = [] ∧
       v_wakeup v = mkCoalescer true.
Proof.
  intros Hp Hc.
  assert (ring_holds kInbound (Ring_new kInbound cmd0) []) as Hi by (apply (new_holds _ 12 kInbound_pow2); lia).
  destruct (frame_arrives protocol client_id id payload Hp sv _ _ Hi) as (r1 & Ef & Hr1 & Et1); [simpl; lia|simpl; lia|].
  destruct (pop_holds _ _ _ _ Hr1) as (r2 & Ep & Hr2 & _).
  assert (ring_holds kOutbound (Ring_new kOutbound resp0) []) as Ho by (apply (new_holds _ 16 kOutbound_pow2); lia).
  destruct (push_holds _ 16 kOutbound_pow2 ltac:(lia) _ _ (mkTaggedResponse client_id response) Ho) as (o1 & Eo & Ho1 & _);
    [unfold kOutbound; simpl; lia|simpl; lia|].
  pose proof (holds_size _ _ _ Ho) as Hz. cbn [length] in Hz. unfold closing_start, venue_start.
  generalize dependent (Ring_new kOutbound resp0). generalize dependent (Ring_new kInbound cmd0). intros.
  eexists. split; [|split; [|split]].
  - eapply rtc_l; [right; left; left; apply io_wait|].
    eapply rtc_l; [right; left; right; apply (io_clients_ready _ _ _ _ 1); unfold kMaxEvents; lia|].
    eapply rtc_l; [right; left; left; apply io_client; left; exists client_id, payload, sv, r1; split; [exact Ef|reflexivity]|].
    eapply rtc_l; [left; apply main_top|].
    eapply rtc_l; [left; apply main_body; cbn [engine_step v_inbound]|].
    { cbn -[try_pop]. rewrite Ep. cbn [mbind outcome_bind]. unfold dispatch_command, visit_command, repeated.
      cbn [tc_command tc_client]. simpl. rewrite Hc. simpl. reflexivity. }
    eapply rtc_l; [left; apply main_body; cbn [engine_step]|].
    { cbn -[ring_size try_push]. rewrite Hz. cbn -[try_push]. rewrite Eo. reflexivity. }
    eapply rtc_l; [left; apply main_body; reflexivity|]. apply rtc_refl.
  - exact Ho1.
  - reflexivity.
  - reflexivity.
Qed.

(** From there the main thread stops and asks the I/O thread to. *)
Lemma main_asks {E} (submit_call : NewOrder → E → outcome (call E)) cancel_call protocol v io :
  v_wakeup v = mkCoalescer true →
  ∃ v', rtc (closing_step submit_call cancel_call protocol) (mkClosing v false false MTop io)
          (mkClosing v' true true MJoin io) ∧
        v_outbound v' = v_outbound v ∧ v_answered v' = v_answered v.
Proof.
  intros Hw. eexists. split; [|split].
  - eapply rtc_l; [right; right; apply signal_store|]. eapply rtc_l; [left; apply main_top|].
    eapply rtc_l; [left; apply main_notify|]. eapply rtc_l; [left; apply main_request|].
    eapply rtc_l; [left; apply main_write|]. apply rtc_refl.
  - unfold final_notify. rewrite Hw. done.
  - unfold final_notify. rewrite Hw. done.
Qed.

(** Safety, violated: shutdown can drop an answer.  With either protocol and any engine, there is a run in
    which a client's command is processed, its answer is queued, the main thread sets the eventfd for it (the
    comment there: to make sure the I/O thread is woken to flush it) and joins the I/O thread, and the process
    ends with the answer still queued: the I/O thread, in the middle of a batch, tests the flag at its loop
    condition and leaves without another [epoll_wait], so without draining. *)
Theorem shutdown_drops_answer {E} (submit_call : NewOrder → E → outcome (call E)) cancel_call protocol client_id id payload engine
    response cmd0 resp0 sv :
  parse_fn protocol payload = Ok (PCancel (mkCancel id)) →
  cancel_call id engine = Ok (Returned response engine) →
  ∃ c, rtc (closing_step submit_call cancel_call protocol) (closing_start cmd0 resp0 engine sv) c ∧
    cl_main c = MDone ∧ cl_io c = IoExited ∧ v_answered (cl_venue c) = [] ∧
    ring_holds kOutbound (v_outbound (cl_venue c)) [mkTaggedResponse client_id response].
Proof.
  intros Hp Hc.
  destruct (answer_queued submit_call cancel_call protocol client_id id payload engine response cmd0 resp0 sv Hp Hc)
    as (v & Hr & Ho & Ha & Hw).
  destruct (main_asks submit_call cancel_call protocol v (IoBatch 1 None) Hw) as (v' & Hr' & Eo & Ea).
  exists (mkClosing (close_all v') true true MDone IoExited). split; [|simpl; split_and!; [reflexivity|reflexivity|by rewrite Ea|by rewrite Eo]].
  etrans; [exact Hr|]. etrans; [exact Hr'|].
  eapply rtc_l; [right; left; left; apply io_client_done|]. eapply rtc_l; [right; left; left; apply io_batch_done|].
  eapply rtc_l; [right; left; left; apply io_stop|]. apply rtc_once. left. apply main_join.
Qed.

(** ** Witnesses *)

#[local] Instance shutdown_api : EngineAPI (MatchingEngine (list Event)) := matching_engine_api Undefined.

Lemma shutdown_drops_answer_witness :
  ∃ c, rtc (closing_step api_submit_call api_cancel_call text)
         (closing_start (mkTaggedCommand 0 (CCancel (mkCancel 0))) (mkTaggedResponse 0 (mkResponse Accepted [] 0 0))
            risk_demo (TcpServer_new 100)) c ∧
    cl_main c = MDone ∧ v_answered (cl_venue c) = [].
Proof.
  destruct (shutdown_drops_answer api_submit_call api_cancel_call text 3 7 (str "CANCEL 7") risk_demo
    (mkResponse UnknownOrderId [] 0 7) (mkTaggedCommand 0 (CCancel (mkCancel 0)))
    (mkTaggedResponse 0 (mkResponse Accepted [] 0 0)) (TcpServer_new 100)) as (c & Hr & Hm & _ & Ha & _).
  - vm_compute. reflexivity.
  - vm_compute. reflexivity.
  - exists c. split; [exact Hr|]. split; [exact Hm|exact Ha].
Defined.

(** Nothing has arrived, a signal comes, the I/O thread is in [epoll_wait]. *)
Definition demo_closing : Closing (RiskEngine (MatchingEngine (list Event))) :=
  closing_start (mkTaggedCommand 0 (CCancel (mkCancel 0))) (mkTaggedResponse 0 (mkResponse Accepted [] 0 0))
    risk_demo (TcpServer_new 100).

Definition demo_joined : Closing (RiskEngine (MatchingEngine (list Event))) :=
  mkClosing (write_eventfd (final_notify (cl_venue demo_closing))) true true MJoin IoBlocked.

Lemma demo_joined_run : nsteps (closing_step api_submit_call api_cancel_call text) 6 demo_closing demo_joined.
Proof.
  eapply nsteps_l; [right; left; left; apply io_wait|]. eapply nsteps_l; [right; right; apply signal_store|].
  eapply nsteps_l; [left; apply main_top|]. eapply nsteps_l; [left; apply main_notify|].
  eapply nsteps_l; [left; apply main_request|]. apply nsteps_once. left. apply main_write.
Qed.

Lemma shutdown_reaches_io_witness :
  0 < v_eventfd (cl_venue demo_joined) ∧ ∃ c', io_own_step text demo_joined c' ∧ io_left c' < io_left demo_joined.
Proof.
  destruct (shutdown_reaches_io api_submit_call api_cancel_call text 6 _ _ _ _ _ demo_joined_run) as (_ & Hf & [Hx|Hx] & _).
  - lia.
  - intros r. eexists. reflexivity.
  - reflexivity.
  - discriminate.
  - split; [apply Hf; reflexivity|exact Hx].
Defined.
