(* ===== verification/EndToEnd.v ===== *)
(** * EndToEnd: one client's commands through the whole exchange server

    The I/O thread's readable event, the engine thread's loop and the drain
    handler, one after the other: what comes back on the client's stream. *)
From Stdlib Require Import String.
From S2P Require Import Prelude Core Text TextProtocol GatewayCodec TcpServer SpscRing RingQueue OrderBook MatchingEngine EngineApi.
From S2P Require Import RiskEngine RiskTheorems TcpTheorems ExchangeServer ExchangeTheorems.

(** ** The engine thread, run for some steps *)

Section Run.
Context {E : Type}.
Variable submit_call : NewOrder → E → outcome (call E).
Variable cancel_call : Z → E → outcome (call E).
Variable protocol : Protocol.
Implicit Types (v : Venue E).

Fixpoint engine_iter (n : nat) v : outcome (Venue E) :=
  match n with O => Ok v | S n => v ← engine_step submit_call cancel_call v; engine_iter n v end.

(** The specification: the commands of one client, one after the other. *)
Fixpoint dispatch_all (client : Z) (cmds : list EngineCommand) (engine : E) : outcome (list EngineResponse * E) :=
  match cmds with
  | [] => Ok ([], engine)
  | cmd :: cmds =>
      '(r, engine) ← dispatch_command submit_call cancel_call (mkTaggedCommand client cmd) engine;
      '(rs, engine) ← dispatch_all client cmds engine;
      Ok (r :: rs, engine)
  end.

Lemma engine_iter_app n k v : engine_iter (n + k) v = v' ← engine_iter n v; engine_iter k v'.
Proof.
  revert v. induction n as [|n IH]; intros v; [done|]. cbn [Nat.add engine_iter].
  destruct (engine_step _ _ v); simpl; [apply IH|done..].
Qed.

(** The engine thread at the top of its loop. *)
Record at_top v (ins : list TaggedCommand) (outs : list TaggedResponse) : Prop := {
  at_in : ring_holds kInbound (v_inbound v) ins;
  at_out : ring_holds kOutbound (v_outbound v) outs;
  at_phase : v_phase v = EPop }.

(** One command: pop, push, note. *)
Lemma engine_one cmd ins outs v r engine' :
  at_top v (cmd :: ins) outs → Z.of_nat (length outs) < kOutbound → rb_tail (v_outbound v) < 18446744073709551615 →
  dispatch_command submit_call cancel_call cmd (v_engine v) = Ok (r, engine') →
  ∃ v', engine_iter 3 v = Ok v' ∧ at_top v' ins (outs ++ [mkTaggedResponse (tc_client cmd) r]) ∧
    v_engine v' = engine' ∧ pending_ (v_wakeup v') = true ∧ v_eventfd v' = v_eventfd v ∧
    rb_tail (v_outbound v') = rb_tail (v_outbound v) + 1.
Proof.
  intros [Hi Ho Hp] Hl Ht Ed. destruct v as [inb outb e w ph efd io sv hist ans]; simpl in *; subst ph.
  destruct (pop_holds _ _ _ _ Hi) as (r1 & Ep & Hr1 & _).
  destruct (push_holds _ 16 kOutbound_pow2 ltac:(lia) _ _ (mkTaggedResponse (tc_client cmd) r) Ho Hl Ht)
    as (o1 & Eo & Ho1 & Eot).
  pose proof (holds_size _ _ _ Ho) as Hz. cbn [engine_iter engine_step]. rewrite Ep. cbn [mbind outcome_bind].
  rewrite Ed. cbn [mbind outcome_bind engine_step]. rewrite Hz, (proj2 (Z.leb_gt _ _)) by done. rewrite Eo.
  cbn [mbind outcome_bind engine_step]. eexists. split; [reflexivity|]. by split.
Qed.

(** All of them, then the round that finds nothing and writes the eventfd. *)
Lemma engine_all client cmds outs v rs engine' :
  at_top v (mkTaggedCommand client <$> cmds) outs → Z.of_nat (length outs + length cmds) <= kOutbound →
  rb_tail (v_outbound v) + Z.of_nat (length cmds) < 18446744073709551616 →
  dispatch_all client cmds (v_engine v) = Ok (rs, engine') →
  ∃ v', engine_iter (3 * length cmds + 2) v = Ok v' ∧ at_top v' [] (outs ++ (mkTaggedResponse client <$> rs)) ∧
    v_engine v' = engine' ∧
    v_eventfd v' = (if pending_ (v_wakeup v) || negb (bool_decide (cmds = [])) then eventfd_write (v_eventfd v) else v_eventfd v).
Proof.
  revert outs v rs. induction cmds as [|cmd cmds IH]; intros outs v rs Ha Hl Ht Ed; cbn [dispatch_all] in Ed.
  - injection Ed as <- <-. destruct Ha as [Hi Ho Hp].
    destruct v as [inb outb e [w] ph efd io sv hist ans]; simpl in *; subst ph.
    rewrite (pop_empty _ _ Hi). simpl. destruct w; simpl; (eexists; split; [reflexivity|]);
      (split; [split; simpl; by rewrite ?app_nil_r|done]).
  - destruct (dispatch_command _ _ _ (v_engine v)) as [[r e1]| |] eqn:E1; [|done..]. cbn [mbind outcome_bind] in Ed.
    destruct (dispatch_all client cmds e1) as [[rs1 e2]| |] eqn:E2; [|done..]. cbn [mbind outcome_bind] in Ed.
    injection Ed as <- <-. cbn [length] in Hl, Ht. cbn [fmap list_fmap] in Ha.
    destruct (engine_one _ _ _ _ _ _ Ha ltac:(lia) ltac:(lia) E1) as (v1 & Ei & Ha1 & He1 & Hw1 & Hf1 & Ht1).
    rewrite <- He1 in E2. destruct (IH _ v1 rs1 Ha1) as (v2 & Ei2 & Ha2 & He2 & Hf2);
      [rewrite length_app; simpl; lia|lia|done|].
    exists v2. replace (3 * length (cmd :: cmds) + 2)%nat with (3 + (3 * length cmds + 2))%nat by (cbn [length]; lia).
    rewrite engine_iter_app, Ei. cbn [mbind outcome_bind]. split; [done|]. rewrite <- app_assoc in Ha2. split; [done|].
    split; [done|]. rewrite Hf2, Hw1, Hf1. simpl. by rewrite orb_true_r.
Qed.
End Run.

(** ** The inbound side *)

Section Sides.
Variable protocol : Protocol.

(** A payload that is a command. *)
Definition parses_to (payload : list Z) (cmd : EngineCommand) : Prop :=
  ∃ res, parse_fn protocol payload = Ok res ∧ parsed_command res = inl cmd.

(** What [on_frame] does when it queues. *)
Definition queue_frame (client : Z) (payload : list Z) (r : Ring TaggedCommand) : outcome (Ring TaggedCommand) :=
  result ← parse_fn protocol payload;
  match parsed_command result with
  | inr _ => Undefined
  | inl cmd => match try_push kInbound (mkTaggedCommand client cmd) r with (true, r) => Ok r | (false, _) => Undefined end
  end.

Lemma on_frame_absorbs client : absorbs (on_frame protocol) (queue_frame client) client.
Proof.
  intros sv p w w' Eq. unfold queue_frame in Eq. unfold on_frame.
  destruct (parse_fn protocol p) as [res| |]; [|done..]. cbn [mbind outcome_bind fst snd] in Eq |- *.
  destruct (parsed_command res) as [cmd|m]; [|done]. destruct (try_push _ _ w) as [[] r]; [|done]. by simplify_eq.
Qed.

Lemma frames_queued client ps cmds r l :
  Forall2 parses_to ps cmds → ring_holds kInbound r l → Z.of_nat (length l + length cmds) <= kInbound →
  rb_tail r + Z.of_nat (length cmds) < 18446744073709551616 →
  ∃ r', absorb (queue_frame client) ps r = Ok r' ∧ ring_holds kInbound r' (l ++ (mkTaggedCommand client <$> cmds)).
Proof.
  intros Hp. revert r l. induction Hp as [|p cmd ps cmds (res & Ep & Ec) _ IH]; intros r l Hr Hl Ht; cbn [absorb length] in *.
  - exists r. by rewrite app_nil_r.
  - destruct (push_holds _ 12 kInbound_pow2 ltac:(lia) _ _ (mkTaggedCommand client cmd) Hr) as (r1 & E1 & Hr1 & Et); [lia..|].
    assert (queue_frame client p r = Ok r1) as -> by (unfold queue_frame; rewrite Ep; simpl; by rewrite Ec, E1).
    cbn [mbind outcome_bind]. destruct (IH r1 _ Hr1) as (r' & Er & Hr'); [rewrite length_app; simpl; lia|lia|].
    exists r'. split; [done|]. by rewrite fmap_cons, cons_middle, app_assoc.
Qed.

(** ** The outbound side *)

(** How often the kernel will say that it takes no more. *)
Fixpoint agains (l : list SendResult) : nat :=
  match l with [] => 0 | SAgain :: l => S (agains l) | _ :: l => agains l end.

Lemma agains_elem l : (0 < agains l)%nat → SAgain ∈ l.
Proof. induction l as [|[] l IH]; simpl; intros H; try lia; set_solver. Qed.

(** A flush uses up at most one of these answers. *)
Lemma flush_agains fuel fd sv sv' :
  flush_loop fuel fd sv = Ok sv' → (agains (sends_ sv) <= S (agains (sends_ sv')))%nat.
Proof.
  revert sv. induction fuel as [|fuel IH]; intros sv Ef; [done|]. cbn [flush_loop] in Ef.
  destruct (connections_ sv !! fd) as [c|]; [|done]. cbn [deref mbind outcome_bind] in Ef.
  destruct (write_buffer c); [by simplify_eq; simpl; lia|].
  destruct (sends_ sv) as [|[n| | |] rest] eqn:Es; [done|..].
  - apply IH in Ef. simpl in Ef |- *. lia.
  - simplify_eq. simpl. lia.
  - apply IH in Ef. simpl in Ef |- *. lia.
  - simplify_eq. unfold close_connection. simpl. case_match; simpl; lia.
Qed.

Lemma send_agains id data sv sv' :
  send_to_client id data sv = Ok sv' → (agains (sends_ sv) <= S (agains (sends_ sv')))%nat.
Proof.
  unfold send_to_client. intros Es. destruct (client_to_fd_ sv !! id) as [fd|]; [|simplify_eq; lia].
  destruct (connections_ sv !! fd) as [c|]; [|simplify_eq; lia]. case_match.
  - simplify_eq. unfold close_connection. simpl. case_match; simpl; lia.
  - apply flush_agains in Es. done.
Qed.

(** Draining sends the answers in order, or finds the client gone. *)
Lemma drain_all client rs bytes sv outb fuel :
  Forall2 (λ r bs, render_fn protocol r = Ok bs) rs bytes →
  ring_holds kOutbound outb (mkTaggedResponse client <$> rs) → server_inv sv →
  (length rs <= agains (sends_ sv))%nat → (length rs < fuel)%nat →
  ∃ sv' outb', drain_loop protocol fuel (sv, outb) = Ok (sv', outb') ∧ ring_holds kOutbound outb' [] ∧
    (client_to_fd_ sv !! client = None → client_to_fd_ sv' !! client = None) ∧
    (client_to_fd_ sv' !! client = None ∨ stream client sv' = stream client sv ++ frames bytes).
Proof.
  intros Hr. revert sv outb fuel. induction Hr as [|r bs rs bytes Er _ IH]; intros sv outb fuel Ho Hi Ha Hf;
    (destruct fuel as [|fuel]; [lia|]); cbn [drain_loop]; unfold drain_one; cbn [fst snd].
  - rewrite (pop_empty _ _ Ho). simpl. exists sv, outb. split_and!; [done..|]. right. by rewrite app_nil_r.
  - cbn [fmap list_fmap] in Ho. destruct (pop_holds _ _ _ _ Ho) as (o1 & Ep & Ho1 & _). rewrite Ep.
    cbn [mbind outcome_bind tr_response]. rewrite Er. cbn [mbind outcome_bind tr_client length] in *.
    destruct (send_returns client (frame_message bs) sv) as [sv1 Es]; [apply agains_elem; lia|].
    rewrite Es. cbn [mbind outcome_bind]. pose proof (send_agains _ _ _ _ Es) as Hag.
    destruct (IH sv1 o1 fuel Ho1 (send_inv _ _ _ _ Hi Es)) as (sv' & outb' & Ed & Ho' & Hg & Hst); [lia|lia|].
    exists sv', outb'. split; [done|]. split; [done|].
    destruct (send_stream _ _ _ _ Hi Es) as [[Hn ->]|[Hn|[Hs _]]]; [split; [done|left; by apply Hg]|split; [auto|left; by apply Hg]|].
    split; [intros Hn; apply Hg; unfold send_to_client in Es; rewrite Hn in Es; by simplify_eq|].
    destruct Hst as [?|Hst]; [by left|]. right. rewrite Hst, Hs, decide_True by done.
    unfold frames. by rewrite fmap_cons, <- app_assoc.
Qed.
End Sides.

(** End to end, for any engine: a client that pipelines commands gets their answers.  A connected client sends up to 4096
    framed commands, split into reads in any way; the readable event queues them, the engine thread runs until
    it finds nothing more and the I/O thread then drains: every step returns, the engine ends in the state of
    executing exactly those commands one after the other on behalf of that client, the eventfd has been written
    once, both queues are empty, and the client is disconnected or its stream has grown by exactly the framed
    renderings of the responses of that execution, in order. *)
Theorem pipelined_commands_answered {E} submit_call cancel_call protocol fd c sv chunks ps cmds engine engine' rs bytes
    (inbound : Ring TaggedCommand) (outbound : Ring TaggedResponse) :
  server_inv sv → connections_ sv !! fd = Some c → read_buffer c = [] →
  concat chunks = frames ps → Forall small ps → Forall2 (parses_to protocol) ps cmds →
  cmds ≠ [] → Z.of_nat (length cmds) <= kInbound →
  ring_holds kInbound inbound [] → rb_tail inbound < 18446744073709547520 →
  ring_holds kOutbound outbound [] → rb_tail outbound < 18446744073709547520 →
  dispatch_all submit_call cancel_call (c_id c) cmds engine = Ok (rs, engine') →
  Forall2 (λ r bs, render_fn protocol r = Ok bs) rs bytes →
  (length rs <= agains (sends_ sv))%nat →
  ∃ sv1 inbound1 v sv2 outbound2,
    handle_read (on_frame protocol) ((RData <$> chunks) ++ [RAgain]) fd (sv, inbound) = Ok (sv1, inbound1) ∧
    engine_iter submit_call cancel_call (3 * length cmds + 2)
      (mkVenue inbound1 outbound (engine : E) (mkCoalescer false) EPop 0 IWait sv1 [] []) = Ok v ∧
    v_engine v = engine' ∧ v_eventfd v = 1 ∧ ring_holds kInbound (v_inbound v) [] ∧
    on_drain protocol (sv1, v_outbound v) = Ok (sv2, outbound2) ∧ ring_holds kOutbound outbound2 [] ∧
    (client_to_fd_ sv2 !! c_id c = None ∨ stream (c_id c) sv2 = stream (c_id c) sv ++ frames bytes).
Proof.
  intros Hi Hc Hb Hch Hs Hp Hne Hl Hin Hint Hout Houtt Ed Hr Ha. unfold kInbound in Hl.
  destruct (frames_queued protocol (c_id c) ps cmds inbound [] Hp Hin) as (inbound1 & Eq & Hin1); [simpl; unfold kInbound; lia|lia|].
  set (sv1 := set_conn fd (mkConn (c_fd c) (c_id c) [] (write_buffer c)) sv).
  assert (sv1 = sv) as Esv by (apply set_conn_id; rewrite Hc; destruct c; simpl in *; by subst).
  set (v0 := mkVenue inbound1 outbound engine (mkCoalescer false) EPop 0 IWait sv1 [] []).
  destruct (engine_all submit_call cancel_call (c_id c) cmds [] v0 rs engine') as (v & Ev & [Hvi Hvo _] & He & Hf);
    [by split|simpl; unfold kOutbound; lia|simpl; lia|done|].
  assert (length rs < S (Z.to_nat (ring_size (v_outbound v))))%nat as Hfuel.
  { rewrite (holds_size _ _ _ Hvo), length_app, length_fmap. simpl. lia. }
  destruct (drain_all protocol (c_id c) rs bytes sv1 (v_outbound v) (S (Z.to_nat (ring_size (v_outbound v)))) Hr Hvo) as (sv2 & o2 & Edr & Ho2 & _ & Hst);
    [by rewrite Esv|by rewrite Esv|exact Hfuel|].
  exists sv1, inbound1, v, sv2, o2. split_and!; try done.
  - apply (handle_read_frames _ (queue_frame protocol (c_id c)) _ _ _ _ _ _ ps []); try done.
    + apply on_frame_absorbs.
    + by rewrite Hb, app_nil_r.
    + left. simpl. lia.
  - rewrite Hf. simpl. rewrite bool_decide_false by done. done.
  - by rewrite <- Esv.
Qed.
