(* ===== verification/VenueTotal.v ===== *)
(** * VenueTotal: which commands the composed engine answers

    The engine of the exchange server is the risk decorator over the matching
    engine, with the C++ standard's reading of an erased level.  The band's
    arithmetic is defined as long as the reference fits [int64_t], and the
    reference is the price of a resting order that traded: so the resting
    prices are part of the invariant that makes a command return.  The one
    exception is an order that passes the risk checks and makes the matching
    loop read a level it has erased: [risk_reads], [command_reads] and
    [batch_reads] compute it from the engine, and the calls are undefined on
    exactly those. *)
From Corelib Require Import SpecFloat.
From S2P Require Import Prelude Core StdMap OrderPool PriceLevel OrderBook MatchingEngine.
From S2P Require Import ClientIndex MatchingSpec MatchingRefine EngineInvariant EngineRefine EngineTheorems.
From S2P Require Import EngineApi EventTheorems RiskEngine RiskTheorems RiskTotal GatewayCodec ExchangeServer EndToEnd.

(** Commands with prices a [int64_t] holds and that are not negative. *)
Definition sane_command (c : EngineCommand) : Prop :=
  match c with CLimit o => sane_limit (NLimit o) | _ => True end.

(** Resting orders with the ids and prices of the machine types. *)
Definition entries_fit (A : ABook) : Prop :=
  ∀ x, x ∈ ab_entries A → r_price x.2 < 9223372036854775808 ∧ in_u64 (r_id x.2).

Section Prices.
Context {Sk : Type} `{EventSink Sk}.
Implicit Types (e : MatchingEngine Sk) (A : ABook) (o : NewOrder).

Lemma entries_fit_shrinks A A' : shrinks A' A → entries_fit A → entries_fit A'.
Proof.
  intros Hs Hp x Hx. destruct (shrinks_elem _ _ _ Hs Hx) as (y & Hy & E%ident_fields).
  destruct E as (<- & _ & <- & _). by apply Hp.
Qed.

Lemma entries_fit_insert s x A :
  entries_fit A → r_price x.2 < 9223372036854775808 → in_u64 (r_id x.2) →
  entries_fit (ab_set s (priority_insert s x (ab_side s A)) A).
Proof.
  intros Hp Hx Hid y. rewrite (ab_entries_perm s), ab_side_set_eq, ab_side_set_opp, priority_insert_perm. simpl.
  rewrite <- ab_entries_perm, elem_of_cons. intros [->|?]; auto.
Qed.

(** What an accepted order leaves resting. *)
Lemma accepts_fit o e A σ l e' A' :
  matched o e A = (σ, l) → accepts o e A σ l e' A' → wf_new_order o → entries_fit A → entries_fit A'.
Proof.
  intros Em Ha Hwf Hp.
  assert (Hl : entries_fit (ab_set (opposite (new_order_side o)) l A)).
  { apply entries_fit_shrinks with A; [|done]. apply shrinks_set. unfold matched in Em.
    pose proof (fill_queue_ident (incoming_of o e) (ab_side (opposite (new_order_side o)) A)
      (fills_start (new_order_quantity o) (next_trade_sequence_ e))) as Hid.
    rewrite Em in Hid. destruct Hid as (gone & _ & ->). by apply sublist_inserts_l. }
  destruct Ha as [_ Hr _ _ _ _ _ _]. unfold rests in Hr. destruct o as [lo|mo]; [|by destruct Hr as [-> _]].
  destruct (Z.ltb 0 (f_remaining σ)); [|by destruct Hr as [-> _]].
  destruct Hwf as (Hid & _ & _ & Hpr). destruct Hr as (slot & _ & -> & _).
  apply entries_fit_insert; [done| |done]. simpl. simpl in Hpr. unfold in_i64 in Hpr. lia.
Qed.

(** The trades of an accepted order fit the wire, and were made at resting prices. *)
Lemma matched_trades o e A σ l :
  matched o e A = (σ, l) → engine_inv e A → entries_fit A → wf_new_order o → in_u64 (next_trade_sequence_ e) →
  Forall (λ t, wf_trade t ∧ 0 < t_price t) (f_trades σ) ∧ in_u64 (f_tseq σ) ∧ in_u64 (f_remaining σ).
Proof.
  intros Em Hi Hp (Hid & _ & Hq & _) Hs. unfold matched in Em.
  set (c := incoming_of o e) in *. set (q := ab_side _ A) in *. set (σ0 := fills_start _ _) in *.
  assert (Hg : Forall good_quantity q) by (by apply (matched_good o e A)).
  pose proof (fill_queue_prices c q σ0) as Hpr. pose proof (fill_queue_sequence c q σ0 (next_trade_sequence_ e)) as Hsq.
  pose proof (fill_queue_positive c q σ0 Hg (Forall_nil_2 _)) as Hpos.
  pose proof (fill_queue_remaining c q σ0) as Hrem. rewrite Em in *. unfold in_u64 in *.
  destruct Hsq as [Hsq Htq].
  { split; [intros i t; simpl; by rewrite lookup_nil|]. simpl. by rewrite Z.add_0_r, wrap64_small. }
  destruct Hrem as [Hrem _]; [simpl; lia|done|]. split; [|split; [rewrite Htq; apply wrap64_range|simpl in Hrem; lia]].
  destruct Hpr as (ts & Ets & Hf). simpl in Ets. rewrite Ets in *. rewrite Forall_forall in *. intros t Ht.
  destruct (Hf t Ht) as (_ & x & Hx & Hpx & _ & Hqx & Hid1 & Hid2).
  assert (Hxe : x ∈ ab_entries A) by (apply ab_entries_elem; eauto).
  destruct (Hp x Hxe) as [Hxp Hxid]. pose proof (oi_price _ _ _ (ei_orders _ _ Hi) x Hxe) as Hx0.
  pose proof (ei_quantity _ _ Hi x Hxe) as Hxq. unfold good_quantity in Hxq.
  specialize (Hpos t Ht). simpl in Hpos. apply list_elem_of_lookup in Ht as [i Ht]. pose proof (Hsq i t Ht) as Hti.
  split; [|lia]. unfold wf_trade, in_u64, in_i64 in *. rewrite Hti. split; [apply wrap64_range|].
  destruct (in_side c); rewrite Hid1, Hid2; simpl; split_and!; lia.
Qed.
End Prices.

(** ** The decorated engine *)

(** The engine behind the risk layer: reading an erased level is undefined. *)
#[export] Instance inner_api {Sk} `{EventSink Sk} : EngineAPI (MatchingEngine Sk) := matching_engine_api Undefined.

Section Venue.
Context {Sk : Type} `{EventSink Sk}.
Implicit Types (e : RiskEngine (MatchingEngine Sk)) (A : ABook) (o : NewOrder).

Record venue_ok e A : Prop := {
  vo_engine : engine_inv (inner_ e) A;
  vo_entries : entries_fit A;
  vo_trade_sequence : in_u64 (next_trade_sequence_ (inner_ e));
  vo_reference : reference_price_ e < 9223372036854775808;
  vo_pct : band_pct_ok (price_band_pct (config_ e)) }.

(** One answered call: the response fits the wire and the invariant holds on. *)
Definition answered e (call : outcome (EngineResponse * RiskEngine (MatchingEngine Sk))) : Prop :=
  ∃ r e' A', call = Ok (r, e') ∧ wf_response r ∧ venue_ok e' A' ∧ config_ e' = config_ e ∧
    next_sequence_ (inner_ e') <= next_sequence_ (inner_ e) + 1.

(** The order passes the checks, is accepted and reads an erased level. *)
Definition risk_reads o e : bool :=
  match run_checks (config_ e) (reference_price_ e) (new_order_quantity o) (new_order_limit o) with
  | Ok Accepted => reads_erased o (inner_ e)
  | _ => false
  end.

(** The same of a command, stamped with its client as the server dispatches it. *)
Definition command_reads (tc : TaggedCommand) e : bool :=
  match stamp_owner (tc_client tc) (tc_command tc) with
  | CLimit o => risk_reads (NLimit o) e
  | CMarket o => risk_reads (NMarket o) e
  | CCancel _ => false
  end.

Lemma rejected_answered e A s id : venue_ok e A → in_u64 id → answered e (Ok (mkResponse s [] 0 id, e)).
Proof.
  intros Ho Hid. exists (mkResponse s [] 0 id), e, A. split; [done|].
  split; [split_and!; simpl; [done|unfold in_u64; lia|constructor]|]. split_and!; [done..|lia].
Qed.

Lemma risk_submit_answered o e A :
  venue_ok e A → wf_new_order o → sane_limit o → next_sequence_ (inner_ e) < 18446744073709551615 →
  if risk_reads o e then risk_submit o e = Undefined else answered e (risk_submit o e).
Proof.
  intros Ho Hwf Hs Hmax. pose proof Ho as [Hi Hp Ht Hr Hb]. pose proof Hwf as [Hid _].
  unfold risk_reads, risk_submit.
  destruct (run_checks_defined (config_ e) (reference_price_ e) o) as [c ->]; [done..|]. simpl.
  destruct c; simpl; try by eapply rejected_answered.
  pose proof (submit_spec o (inner_ e) A Hi Hwf Hmax) as Hsp. cbn [api_submit inner_api matching_engine_api].
  rewrite (submit_strict o _ A Hi Hwf). destruct (reads_erased o (inner_ e)); [done|].
  destruct (rejection o (inner_ e) A) as [rr|].
  { rewrite Hsp. simpl. destruct e. by eapply rejected_answered. }
  destruct (matched o (inner_ e) A) as [σ l] eqn:Em. destruct Hsp as (e' & A' & -> & Ha). simpl.
  destruct (matched_trades _ _ _ _ _ Em Hi Hp Hwf Ht) as (Htr & Htq & Hrem).
  pose proof (accepts_fit _ _ _ _ _ _ _ Em Ha Hwf Hp) as Hp'. destruct Ha.
  assert (Href : ∀ t, last (f_trades σ) = Some t → t_price t < 9223372036854775808).
  { intros t Hl%last_Some_elem_of. rewrite Forall_forall in Htr. destruct (Htr t Hl) as [(_ & _ & _ & Hpt & _) _].
    unfold in_i64 in Hpt. lia. }
  eexists _, _, A'. split; [reflexivity|]. split; [|].
  { split; [done|]. split; [done|]. eapply Forall_impl; [exact Htr|]. by intros t [? _]. }
  unfold update_reference_from. simpl. destruct (last (f_trades σ)) as [t|] eqn:El; simpl;
    (split; [split; simpl; rewrite ?ac_tseq; auto|split; [done|lia]]).
Qed.

Lemma risk_cancel_answered id e A :
  venue_ok e A → in_u64 id → answered e (risk_cancel id e).
Proof.
  intros Ho Hid. pose proof Ho as [Hi Hp Ht Hr Hb]. unfold risk_cancel. cbn [api_cancel inner_api matching_engine_api].
  pose proof (cancel_spec id (inner_ e) A Hi) as Hc. destruct (orders_ (book_ (inner_ e)) !! id) as [slot|].
  - destruct Hc as (s & l1 & r & l2 & e' & El & Er & -> & Hi' & _ & _ & _ & Eq & Et & _ & _). simpl.
    assert (Hx : (slot, r) ∈ ab_entries A) by (apply ab_entries_elem; exists s; rewrite El; set_solver).
    pose proof (ei_quantity _ _ Hi _ Hx) as Hq. unfold good_quantity in Hq. simpl in Hq.
    eexists _, _, _. split; [reflexivity|]. split_and!; simpl; [| |done|lia].
    + split; [done|]. split; [simpl; unfold in_u64; lia|constructor].
    + split; simpl; [exact Hi'| |by rewrite Et|done|done].
      apply entries_fit_shrinks with A; [|done]. apply shrinks_set. rewrite El, !fmap_app.
      apply sublist_app; [done|]. by apply sublist_cons.
  - rewrite Hc. simpl. destruct e. by eapply rejected_answered.
Qed.

(** A call behind the port, as [dispatch_command] sees it. *)
Lemma dispatch_api client c e :
  dispatch_command api_submit_call api_cancel_call (mkTaggedCommand client c) e =
  match stamp_owner client c with
  | CLimit o => risk_submit (NLimit o) e
  | CMarket o => risk_submit (NMarket o) e
  | CCancel k => risk_cancel (cr_id k) e
  end.
Proof.
  unfold dispatch_command, api_submit_call, api_cancel_call. cbn [tc_client tc_command].
  destruct (stamp_owner client c) as [o|o|k]; cbn [visit_command api_submit api_cancel risk_engine_api];
    unfold api_submit_call, api_cancel_call; cbn [api_submit api_cancel risk_engine_api];
    [destruct (risk_submit _ e) as [[r e']| |]..|destruct (risk_cancel _ e) as [[r e']| |]]; done.
Qed.

Lemma dispatch_answered client c e A :
  venue_ok e A → wf_command c → sane_command c → in_u64 client → next_sequence_ (inner_ e) < 18446744073709551615 →
  let call := dispatch_command api_submit_call api_cancel_call (mkTaggedCommand client c) e in
  if command_reads (mkTaggedCommand client c) e then call = Undefined else answered e call.
Proof.
  intros Ho Hwf Hs Hcl Hmax. cbv zeta. rewrite dispatch_api. unfold command_reads. cbn [tc_client tc_command].
  destruct c as [o|o|[id]]; cbn [stamp_owner].
  - apply (risk_submit_answered _ e A); try done. destruct Hwf as (? & _ & ? & ?). done.
  - apply (risk_submit_answered _ e A); try done. destruct Hwf as (? & _ & ? & ?). done.
  - by apply (risk_cancel_answered _ e A).
Qed.
End Venue.

(** ** Sequences of commands *)

Section Served.
Context {Sk : Type} `{EventSink Sk}.
Implicit Types (e : RiskEngine (MatchingEngine Sk)) (A : ABook).

(** One of the commands, executed in order, reads an erased level. *)
Fixpoint batch_reads (client : Z) (cmds : list EngineCommand) e : bool :=
  match cmds with
  | [] => false
  | c :: cmds =>
      command_reads (mkTaggedCommand client c) e ||
      match dispatch_command api_submit_call api_cancel_call (mkTaggedCommand client c) e with
      | Ok (_, e') => batch_reads client cmds e'
      | _ => false
      end
  end.

Lemma dispatch_all_answered client cmds e A :
  venue_ok e A → Forall wf_command cmds → Forall sane_command cmds → in_u64 client →
  next_sequence_ (inner_ e) + Z.of_nat (length cmds) < 18446744073709551616 →
  let all := dispatch_all api_submit_call api_cancel_call client cmds e in
  if batch_reads client cmds e then all = Undefined
  else ∃ rs e' A', all = Ok (rs, e') ∧ length rs = length cmds ∧ Forall wf_response rs ∧ venue_ok e' A'.
Proof.
  intros Ho Hwf Hs Hcl. cbv zeta. revert e A Ho. induction Hwf as [|c cmds Hc _ IH]; intros e A Ho Hn; cbn [dispatch_all batch_reads].
  - exists [], e, A. split_and!; try done.
  - apply Forall_cons in Hs as [Hsc Hs]. cbn [length] in Hn.
    pose proof (dispatch_answered client c e A Ho Hc Hsc Hcl ltac:(lia)) as Hd. cbv zeta in Hd.
    destruct (command_reads _ e); cbn [orb]; [by rewrite Hd|].
    destruct Hd as (r & e1 & A1 & E1 & Hr & Ho1 & _ & Hn1). rewrite E1. cbn [mbind outcome_bind].
    specialize (IH Hs e1 A1 Ho1 ltac:(lia)). destruct (batch_reads client cmds e1); [by rewrite IH|].
    destruct IH as (rs & e2 & A2 & E2 & Hl & Hrs & Ho2). rewrite E2. cbn [mbind outcome_bind].
    exists (r :: rs), e2, A2. split_and!; [done|simpl; lia|by constructor|done].
Qed.

(** Cancels never read an erased level. *)
Lemma cancels_read_nothing client ids e : batch_reads client ((λ id, CCancel (mkCancel id)) <$> ids) e = false.
Proof.
  revert e. induction ids as [|id ids IH]; intros e; [done|]. rewrite fmap_cons. cbn [batch_reads].
  destruct (dispatch_command _ _ _ e) as [[r e']| |]; [|done..]. rewrite IH. done.
Qed.

(** Another sink behind the same engine, as the feed thread leaves it. *)
Definition risk_with_sink (s : Sk) e : RiskEngine (MatchingEngine Sk) :=
  mkRisk (with_sink s (inner_ e)) (config_ e) (reference_price_ e).

Lemma venue_ok_sink s e A : venue_ok e A → venue_ok (risk_with_sink s e) A.
Proof. intros [[] ? ? ? ?]. by split. Qed.

(** Engines [n] commands of any clients have led to, the feed thread having
    changed the sink in between. *)
Inductive served (start : RiskEngine (MatchingEngine Sk)) : nat → RiskEngine (MatchingEngine Sk) → Prop :=
| served_start : served start 0 start
| served_command n e client c r e' :
    served start n e → wf_command c → sane_command c → in_u64 client →
    dispatch_command api_submit_call api_cancel_call (mkTaggedCommand client c) e = Ok (r, e') →
    served start (S n) e'
| served_feed n e s : served start n e → served start n (risk_with_sink s e).

Lemma served_ok start n e A0 :
  venue_ok start A0 → served start n e →
  next_sequence_ (inner_ start) + Z.of_nat n < 18446744073709551616 →
  ∃ A, venue_ok e A ∧ next_sequence_ (inner_ e) <= next_sequence_ (inner_ start) + Z.of_nat n.
Proof.
  intros H0. induction 1 as [|n e client c r e' _ IH Hwf Hs Hcl E|n e s _ IH]; intros Hn.
  - exists A0. split; [done|lia].
  - destruct IH as (A & Ho & Hle); [lia|].
    pose proof (dispatch_answered client c e A Ho Hwf Hs Hcl ltac:(lia)) as Hd. cbv zeta in Hd. rewrite E in Hd.
    destruct (command_reads _ e); [done|]. destruct Hd as (r2 & e2 & A2 & E2 & _ & Ho2 & _ & Hn2). simplify_eq. exists A2. split; [done|lia].
  - destruct IH as (A & Ho & Hle); [lia|]. exists A. split; [by apply venue_ok_sink|done].
Qed.
End Served.
