(* ===== verification/ServerMain.v ===== *)
(** * ServerMain: the composition root of apps/exchange_server/main.cpp

    [main] up to the point where its threads run, on every error path, and
    its last lines after the joins, over the descriptors the process has
    open.  In between runs the system of Shutdown, with the risk decorator
    over the matching engine over the queued sink as its engine. *)
From Stdlib Require Import String.
From S2P Require Import Prelude Core Text TextProtocol Bytes OrderBook MatchingEngine EngineApi RiskEngine.
From S2P Require Import TcpServer SpscRing ExchangeServer UdpFeed TcpLifetime Shutdown.

(** ** Signals *)

Inductive handler := SigDefault | SignalHandler.

Record Sigaction := mkSigaction { sa_handler : handler; sa_flags : Z; sa_mask : gset Z }.

Definition SIGINT : Z := 2.

Definition SIGTERM : Z := 15.

(** The process's dispositions, by signal. *)
Definition install_signal_handlers (dispositions : gmap Z Sigaction) : gmap Z Sigaction :=
  let sa := mkSigaction SignalHandler 0 ∅ in
  <[SIGTERM := sa]> (<[SIGINT := sa]> dispositions).

(** ** The feed *)

(** [static_cast<uint16_t>(std::atoi(feed_port_env))], or 9001. *)
Definition feed_port (feed_port_env : option (list Z)) : outcome Z :=
  match feed_port_env with
  | Some s => v ← atoi s; Ok (v `mod` 65536)
  | None => Ok 9001
  end.

(** [sockaddr_in], its two network-order members as bytes in memory. *)
Record SockaddrIn := mkSockaddr { sin_family : Z; sin_port : list Z; sin_addr : list Z }.

Definition AF_INET : Z := 2.

Definition INADDR_LOOPBACK : Z := 2130706433.

Definition feed_subscriber (port : Z) : SockaddrIn :=
  mkSockaddr AF_INET (be_bytes 2 port) (be_bytes 4 INADDR_LOOPBACK).

Definition kSymbol : Z := 1.

(** The template default of [QueuedEventSink]. *)
Definition kFeedCapacity : Z := 16384.

Definition server_publisher : UdpFeedPublisher := UdpFeedPublisher_new kSymbol [0] 500.

Definition server_sink : QueuedEventSink := mkQueued (Ring_new kFeedCapacity FeedEvent_default) 0.

(** ** The engine behind the risk layer *)

Definition server_risk_config : RiskConfig := mkRiskConfig pct_10 10000 1000000 1 true RejectIncoming.

Definition kServerPool : nat := Z.to_nat 1000000.

Definition server_engine : RiskEngine (MatchingEngine QueuedEventSink) :=
  RiskEngine_new (MatchingEngine_new server_sink kServerPool (RiskConfig_stp server_risk_config)) server_risk_config.

(** ** main *)

(** What the process has built when its threads run. *)
Record Server := mkMain {
  ms_protocol : ProtocolMode; g_eventfd : Z; udp_fd : Z; ms_subscriber : SockaddrIn;
  ms_publisher : UdpFeedPublisher; ms_sockets : Sockets;
  ms_callbacks : Callbacks (Ring TaggedCommand) (Ring TaggedResponse); ms_signals : gmap Z Sigaction;
  ms_threads : Closing (RiskEngine (MatchingEngine QueuedEventSink)) }.

(** [return code], before any thread is started; an exception that nothing
    catches, thrown while [feed_thread] is joinable, which ends in
    [std::terminate]; or running.  Starting a thread is taken to succeed. *)
Inductive startup := ReturnCode (code : Z) | Terminates (what : list Z) | Running (s : Server).

(** The kernel's answers to the calls of [main]. *)
Record MainAnswers := mkMainAnswers {
  ma_eventfd : sys Z; ma_udp_socket : sys Z; ma_tcp : SetupAnswers; ma_epoll_eventfd : sys unit }.

(** The two lambdas [main] gives to the server. *)
Definition server_callbacks (protocol : Protocol) : Callbacks (Ring TaggedCommand) (Ring TaggedResponse) :=
  set_response_drain_handler (on_drain protocol) (set_frame_handler (on_frame protocol) Callbacks_new).

(** [TaggedCommand{}] and [TaggedResponse{}]. *)
Definition cmd_default : TaggedCommand := mkTaggedCommand 0 (CLimit (mkLimit 0 Buy 0 0 0)).

Definition resp_default : TaggedResponse := mkTaggedResponse 0 (mkResponse Accepted [] 0 0).

Definition main_start (host_little : bool) (args : list (list Z)) (feed_port_env : option (list Z)) (an : MainAnswers)
    (dispositions : gmap Z Sigaction) (os : Os) : outcome (startup * Os) :=
  port ← parse_port args;
  let protocol := parse_protocol args in
  match ma_eventfd an with
  | SysErr _ => Ok (ReturnCode 1, os)
  | SysOk efd =>
      let os := os_add efd os in
      feed_port ← feed_port feed_port_env;
      match ma_udp_socket an with
      | SysErr _ => Ok (ReturnCode 1, os)
      | SysOk ufd =>
          let os := os_add ufd os in
          match TcpServer_construct port (ma_tcp an) os with
          | (Throws what, _, os) => Ok (Terminates what, os)
          | (Returns, sockets, os) =>
              match set_eventfd efd (ma_epoll_eventfd an) sockets os with
              | (Throws what, _, os) => Ok (Terminates what, os)
              | (Returns, sockets, os) =>
                  Ok (Running (mkMain protocol efd ufd (feed_subscriber feed_port) server_publisher sockets
                         (server_callbacks (bind_protocol host_little protocol)) (install_signal_handlers dispositions)
                         (closing_start cmd_default resp_default server_engine
                            (TcpServer_new kDefaultMaxWriteBufferBytes))), os)
              end
          end
      end
  end.

(** After [io_thread.join()] and [feed_thread.join()]: the two closes, and
    the destructor of [server] on the way out of [main]. *)
Definition main_finish (s : Server) (sv : TcpServer) (os : Os) : Z * Server * Os :=
  let os := os_close (g_eventfd s) os in
  let ufd := udp_fd s in
  let os := os_close ufd os in
  let '(_, sockets, os) := TcpServer_destroy sv (ms_sockets s) os in
  (0, mkMain (ms_protocol s) (-1) ufd (ms_subscriber s) (ms_publisher s) sockets (ms_callbacks s) (ms_signals s) (ms_threads s), os).

(** ** Descriptors over the life of the process *)

(** The kernel hands out descriptors that are not open. *)
Record fresh_main (an : MainAnswers) (os : Os) : Prop := {
  fm_eventfd efd : ma_eventfd an = SysOk efd → 0 <= efd ∧ (efd ∉ os_open os);
  fm_udp efd ufd : ma_eventfd an = SysOk efd → ma_udp_socket an = SysOk ufd →
    0 <= ufd ∧ (ufd ∉ {[efd]} ∪ os_open os) ∧ fresh_answers (ma_tcp an) (os_add ufd (os_add efd os)) }.

Lemma destroy_open sv s os :
  os_open (TcpServer_destroy sv s os).2 =
  os_open os ∖ dom (connections_ sv) ∖ (if Z.leb 0 (listener_fd_ s) then {[listener_fd_ s]} else ∅)
    ∖ (if Z.leb 0 (epoll_fd_ s) then {[epoll_fd_ s]} else ∅).
Proof.
  unfold TcpServer_destroy, close_if_open. simpl.
  assert (list_to_set (map_to_list (connections_ sv)).*1 = dom (connections_ sv)) as Hdom.
  { apply set_eq. intros x. rewrite elem_of_list_to_set, elem_of_dom, list_elem_of_fmap. split.
    - intros ([k v] & -> & Hk). apply elem_of_map_to_list in Hk. eauto.
    - intros [v Hv]. exists (x, v). by rewrite elem_of_map_to_list. }
  destruct (Z.leb 0 (listener_fd_ s)), (Z.leb 0 (epoll_fd_ s)); simpl; rewrite os_close_all_open, Hdom; set_solver.
Qed.

Lemma main_finish_open s sv os :
  (main_finish s sv os).1.1 = 0 ∧ g_eventfd (main_finish s sv os).1.2 = -1 ∧
  os_open (main_finish s sv os).2 =
    os_open (TcpServer_destroy sv (ms_sockets s) (os_close (udp_fd s) (os_close (g_eventfd s) os))).2.
Proof. unfold main_finish. by destruct (TcpServer_destroy sv (ms_sockets s) _) as [[? ?] ?]. Qed.

Lemma construct_returns an port os s os1 :
  fresh_answers an os → TcpServer_construct port an os = (Returns, s, os1) →
  0 <= listener_fd_ s ∧ 0 <= epoll_fd_ s ∧ ({[listener_fd_ s; epoll_fd_ s]} ## os_open os) ∧
  os_open os1 = {[listener_fd_ s; epoll_fd_ s]} ∪ os_open os ∧ listener_fd_ s ∈ os_watched os1.
Proof.
  intros Hf Hc. pose proof (setup_listener_descriptors an port os Hf) as Hl. unfold TcpServer_construct in Hc.
  destruct (setup_listener an (Sockets_new port) os) as [[[|what] s1] os0]; [|done].
  destruct Hl as (p & Es & _ & Eq & ->), Hf as [Hf1 Hf2]. destruct (Hf1 _ Es) as [Hp Hn]. unfold setup_epoll in Hc.
  destruct (an_epoll_create an) as [fd|e]; [|done]. destruct (Hf2 fd eq_refl) as (Hp2 & Hne & _).
  destruct (an_epoll_ctl an) as [|e]; [|done]. simplify_eq. simpl. split_and!; [done..|set_solver|set_solver|set_solver].
Qed.

Lemma construct_throws an port os what s os1 :
  fresh_answers an os → TcpServer_construct port an os = (Throws what, s, os1) → os_open os ⊆ os_open os1.
Proof.
  intros Hf Hc. pose proof (setup_listener_descriptors an port os Hf) as Hl. unfold TcpServer_construct in Hc.
  destruct (setup_listener an (Sockets_new port) os) as [[[|w] s1] os0]; [|simplify_eq; by destruct Hl as [-> _]].
  destruct Hl as (p & _ & _ & _ & ->), Hf as [_ Hf2]. unfold setup_epoll in Hc.
  destruct (an_epoll_create an) as [fd|e]; [|simplify_eq; set_solver]. destruct (Hf2 fd eq_refl) as (_ & Hne & _).
  destruct (an_epoll_ctl an) as [|e]; simplify_eq. simpl. set_solver.
Qed.

(** C37. Error and resource behaviour of the whole process.  When the eventfd or the UDP socket cannot be
    created [main] returns 1; when the TCP server cannot be set up the exception ends the process; otherwise
    it runs with the listener and the eventfd watched by epoll, the frames going to the handler of the selected
    protocol and both signals handled, and whatever
    connections are then open when the threads have been joined, the last lines of [main] return 0 with
    exactly the descriptors open that were open before it started, and the eventfd forgotten. *)
Theorem main_gives_descriptors_back host_little args env an dispositions os st os1 :
  fresh_main an os → main_start host_little args env an dispositions os = Ok (st, os1) →
  match st with
  | ReturnCode code => code = 1 ∧ (∃ m, ma_eventfd an = SysErr m ∨ ma_udp_socket an = SysErr m)
  | Terminates what =>
      ∃ efd ufd, ma_eventfd an = SysOk efd ∧ ma_udp_socket an = SysOk ufd ∧ {[efd; ufd]} ∪ os_open os ⊆ os_open os1
  | Running s =>
      {[listener_fd_ (ms_sockets s); g_eventfd s]} ⊆ os_watched os1 ∧
      call_frame_handler (ms_callbacks s) = on_frame (bind_protocol host_little (ms_protocol s)) ∧
      sa_handler <$> (ms_signals s !! SIGINT) = Some SignalHandler ∧
      sa_handler <$> (ms_signals s !! SIGTERM) = Some SignalHandler ∧
      ∀ sv, dom (connections_ sv) ## os_open os1 →
        let finished := main_finish s sv (mkOs (dom (connections_ sv) ∪ os_open os1) (os_watched os1)) in
        finished.1.1 = 0 ∧ g_eventfd finished.1.2 = -1 ∧ os_open finished.2 = os_open os
  end.
Proof.
  intros [He Hu] Hm. unfold main_start in Hm. destruct (parse_port args) as [port| |]; [|done..]. simpl in Hm.
  destruct (ma_eventfd an) as [efd|m] eqn:Ee; [|simplify_eq; naive_solver].
  destruct (He efd eq_refl) as [He0 Hen]. destruct (feed_port env) as [fp| |]; [|done..]. simpl in Hm.
  destruct (ma_udp_socket an) as [ufd|m] eqn:Eu; [|simplify_eq; naive_solver].
  destruct (Hu efd ufd eq_refl eq_refl) as (Hu0 & Hun & Hf).
  destruct (TcpServer_construct _ _ _) as [[[|what] sk] os2] eqn:Ec.
  - destruct (construct_returns _ _ _ _ _ Hf Ec) as (Hl0 & Hp0 & Hdis & Hop & Hw). unfold set_eventfd in Hm.
    destruct (ma_epoll_eventfd an) as [|m]; simplify_eq.
    + cbn [os_open os_watched os_add os_watch g_eventfd ms_sockets listener_fd_ ms_signals] in *.
      split; [set_solver|]. split; [done|]. unfold install_signal_handlers.
      rewrite lookup_insert_ne, !lookup_insert_eq by done. split; [done|]. split; [done|]. intros sv Hd.
      destruct (main_finish_open (mkMain (parse_protocol args) efd ufd (feed_subscriber fp) server_publisher
        (mkSockets (port_ sk) (listener_fd_ sk) (epoll_fd_ sk) efd)
        (server_callbacks (bind_protocol host_little (parse_protocol args))) (install_signal_handlers dispositions)
        (closing_start cmd_default resp_default server_engine (TcpServer_new kDefaultMaxWriteBufferBytes))) sv
        (mkOs (dom (connections_ sv) ∪ os_open os2) ({[efd]} ∪ os_watched os2))) as (E1 & E2 & E3).
      split; [exact E1|]. split; [exact E2|]. etrans; [exact E3|]. cbn [ms_sockets].
      rewrite destroy_open, !(proj2 (Z.leb_le 0 _)) by done. simpl. rewrite Hop in Hd |- *. set_solver.
    + exists efd, ufd. simpl in Hop. rewrite Hop. split_and!; [done..|set_solver].
  - simplify_eq. exists efd, ufd. split_and!; [done..|].
    pose proof (construct_throws _ _ _ _ _ _ Hf Ec). set_solver.
Qed.

(** ** Witness: a server on the default port with one connection left at the end *)

Definition main_answers : MainAnswers := mkMainAnswers (SysOk 5) (SysOk 6) (demo_answers (SysOk ())) (SysOk ()).

Lemma main_answers_fresh : fresh_main main_answers demo_os.
Proof.
  split; simpl.
  - intros efd [= <-]. split; [lia|]. set_solver by lia.
  - intros efd ufd [= <-] [= <-]. split; [lia|]. split; [set_solver by lia|].
    split; intros fd E; simpl in E; simplify_eq; [|split; [lia|split; [|done]]]; [split; [lia|]|]; set_solver by lia.
Qed.

Definition demo_listening : Sockets * Os :=
  let '(_, s, os) := TcpServer_construct 9000 (ma_tcp main_answers) (os_add 6 (os_add 5 demo_os)) in (s, os).

Definition demo_main : Server :=
  mkMain Binary 5 6 (feed_subscriber 9001) server_publisher (mkSockets 9000 3 4 5)
    (server_callbacks (bind_protocol true Binary)) (install_signal_handlers ∅)
    (closing_start cmd_default resp_default server_engine (TcpServer_new kDefaultMaxWriteBufferBytes)).

Definition demo_left : TcpServer := mkServer {[7 := mkConn 7 1 [] []]} {[1 := 7]} 2 100 ∅ [] ∅.

Lemma main_gives_descriptors_back_witness :
  os_open (main_finish demo_main demo_left
    (mkOs (dom (connections_ demo_left) ∪ os_open demo_listening.2) ({[5]} ∪ os_watched demo_listening.2))).2 = os_open demo_os.
Proof.
  refine (proj2 (proj2 (proj2 (proj2 (proj2 (proj2 (main_gives_descriptors_back true [] None main_answers ∅ demo_os (Running demo_main)
    (os_watch 5 demo_listening.2) main_answers_fresh eq_refl)))) demo_left _))).
  simpl. rewrite dom_singleton. set_solver by lia.
Defined.
