(* ===== verification/ServerTables.v ===== *)
(** * ServerTables: the connection tables of the exchange server

    The event loop of TcpServer with the two lambdas [main] gives it, over the
    two queues they share with the engine thread: the frame handler parses,
    queues or answers with an error, the drain handler renders and sends what
    the engine thread left.  Both send to clients, so both can close
    connections from inside an event; the tables stay consistent. *)
From Stdlib Require Import String.
From S2P Require Import Prelude Core Text TextProtocol GatewayCodec TcpServer TcpTheorems SpscRing RingQueue.
From S2P Require Import EngineApi ExchangeServer ExchangeTheorems ServerMain.

(** The two queues between the threads. *)
Abbreviation Queues := (Ring TaggedCommand * Ring TaggedResponse)%type.

Section Slots.
Variable callbacks : Callbacks (Ring TaggedCommand) (Ring TaggedResponse).

(** The callbacks as the event loop calls them: the frame handler reaches the
    inbound queue, the drain handler the outbound one. *)
Definition frame_slot (client_id : Z) (payload : list Z) (s : TcpServer * Queues) : outcome (TcpServer * Queues) :=
  '(sv, inbound) ← call_frame_handler callbacks client_id payload (s.1, s.2.1);
  Ok (sv, (inbound, s.2.2)).

Definition drain_slot : option (TcpServer * Queues → outcome (TcpServer * Queues)) :=
  match cb_drain callbacks with
  | None => None
  | Some drain => Some (λ s, '(sv, outbound) ← drain (s.1, s.2.2); Ok (sv, (s.2.1, outbound)))
  end.

(** An event of the I/O thread with whatever the kernel answers, its shutdown,
    or the engine thread at work on the queues. *)
Inductive serving : TcpServer * Queues → TcpServer * Queues → Prop :=
| serving_io s s' : server_step frame_slot drain_slot s s' → serving s s'
| serving_engine sv q q' : serving (sv, q) (sv, q').
End Slots.

Section Handlers.
Variable protocol : Protocol.

Lemma reply_error_inv client message sv sv' :
  server_inv sv → reply_error protocol client message sv = Ok sv' → server_inv sv'.
Proof.
  intros Hi E. unfold reply_error in E. destruct (render_error_fn protocol message) as [err| |]; [|done..].
  by eapply send_inv.
Qed.

Lemma on_frame_inv client payload s s' :
  server_inv s.1 → on_frame protocol client payload s = Ok s' → server_inv s'.1.
Proof.
  intros Hi E. unfold on_frame in E. destruct (parse_fn protocol payload) as [res| |]; [|done..].
  cbn [mbind outcome_bind] in E. destruct (parsed_command res) as [cmd|message].
  - destruct (try_push kInbound _ s.2) as [[] inbound]; [by simplify_eq|].
    destruct (reply_error _ _ _ s.1) as [sv| |] eqn:Er; cbn [mbind outcome_bind] in E; [|done..].
    simplify_eq. by eapply reply_error_inv.
  - destruct (reply_error _ _ _ s.1) as [sv| |] eqn:Er; cbn [mbind outcome_bind] in E; [|done..].
    simplify_eq. by eapply reply_error_inv.
Qed.

Lemma drain_one_inv s popped s' :
  server_inv s.1 → drain_one protocol s = Ok (popped, s') → server_inv s'.1.
Proof.
  intros Hi E. unfold drain_one in E. destruct (try_pop kOutbound s.2) as [[[resp|] outb]| |]; [|by simplify_eq/=|done..].
  cbn [mbind outcome_bind] in E. destruct (render_fn protocol _) as [bytes| |]; [|done..]. cbn [mbind outcome_bind] in E.
  destruct (send_to_client _ _ s.1) as [sv| |] eqn:Es; cbn [mbind outcome_bind] in E; [|done..].
  simplify_eq. by eapply send_inv.
Qed.

Lemma on_drain_inv s s' : server_inv s.1 → on_drain protocol s = Ok s' → server_inv s'.1.
Proof.
  unfold on_drain. generalize (S (Z.to_nat (ring_size s.2))). intros fuel. revert s.
  induction fuel as [|fuel IH]; intros s Hi E; cbn [drain_loop] in E; [done|].
  destruct (drain_one protocol s) as [[popped s1]| |] eqn:Ed; cbn [mbind outcome_bind] in E; [|done..].
  pose proof (drain_one_inv _ _ _ Hi Ed) as Hi1. destruct popped; [by apply (IH s1)|by simplify_eq].
Qed.

(** The server's own handlers keep the tables in order. *)
Lemma frame_slot_keeps id p : keeps_tables (frame_slot (server_callbacks protocol) id p).
Proof.
  intros s s' Hi E. unfold frame_slot in E. destruct (call_frame_handler _ _ _ _) as [[sv inb]| |] eqn:Ef; [|done..].
  cbn [mbind outcome_bind] in E. simplify_eq. exact (on_frame_inv id p (s.1, s.2.1) (sv, inb) Hi Ef).
Qed.

Lemma drain_slot_keeps : from_option keeps_tables True (drain_slot (server_callbacks protocol)).
Proof.
  intros s s' Hi E. cbn beta in E. destruct (on_drain protocol (s.1, s.2.2)) as [[sv outb]| |] eqn:Ed; [|done..].
  cbn [mbind outcome_bind] in E. simplify_eq. exact (on_drain_inv (s.1, s.2.2) (sv, outb) Hi Ed).
Qed.
End Handlers.

(** C27. In every state the exchange server can reach, in either protocol, the descriptor table and the client
    table point at each other, and every client id in use is below the next one to be handed out.  The server
    starts empty with the callbacks [main] sets; then any sequence of I/O events (accepts, readable, writable,
    hang-up, eventfd), with whatever the kernel answers to reads and sends, runs the frame and drain handlers,
    which may close connections while an event is handled; the engine thread works on the queues in between;
    and the shutdown may come.  The kernel hands out descriptors that are not open, and fewer than [2^64] ids
    are used. *)
Theorem server_tables_consistent host_little mode cap queues s :
  rtc (serving (server_callbacks (bind_protocol host_little mode))) (TcpServer_new cap, queues) s →
  server_inv s.1.
Proof.
  intros Hr. assert (server_inv (TcpServer_new cap, queues).1) as Hi by (split; simpl; [done..|lia]).
  induction Hr as [s|s s1 s2 Hst _ IH]; [done|]. apply IH. clear IH.
  destruct Hst as [s s1 Hst|sv q q']; [|done].
  eapply tables_step_inv; [..|exact Hst]; [apply frame_slot_keeps|apply drain_slot_keeps|done].
Qed.

(** ** Witness: a client connects, cancels, and is answered in part *)

Definition tables_queues : Queues := (Ring_new kInbound cmd_default, Ring_new kOutbound resp_default).

Definition tables_accepted : TcpServer * Queues :=
  ok_or (TcpServer_new 100, tables_queues)
    (handle_event (frame_slot (server_callbacks text)) (drain_slot (server_callbacks text))
       (EvListener [AFd 5 true true; AAgain]) (TcpServer_new 100, tables_queues)).

Definition tables_read : TcpServer * Queues :=
  ok_or tables_accepted
    (handle_event (frame_slot (server_callbacks text)) (drain_slot (server_callbacks text))
       (EvReady 5 (Some [RData (frame_message (str "CANCEL 7")); RAgain]) false) tables_accepted).

(** The engine thread has answered. *)
Definition tables_answered : TcpServer * Queues :=
  (set_sends [SSent 3; SAgain] tables_read.1,
   (tables_read.2.1, (try_push kOutbound (mkTaggedResponse 1 (mkResponse UnknownOrderId [] 0 7)) tables_read.2.2).2)).

Definition tables_drained : TcpServer * Queues :=
  ok_or tables_answered
    (handle_event (frame_slot (server_callbacks text)) (drain_slot (server_callbacks text)) EvEventfd tables_answered).

Lemma server_tables_consistent_witness :
  server_inv tables_drained.1 ∧ client_to_fd_ tables_drained.1 !! 1 = Some 5 ∧ armed_ tables_drained.1 = {[5]}.
Proof.
  split; [|split; vm_compute; reflexivity].
  apply (server_tables_consistent true Plaintext 100 tables_queues).
  eapply rtc_l with (y := tables_accepted).
  { apply serving_io. eapply (step_event _ _ (EvListener [AFd 5 true true; AAgain]) []).
    - simpl. split; [split; [set_solver|done]|lia].
    - apply ok_or_ok. vm_compute. reflexivity. }
  eapply rtc_l with (y := tables_read).
  { apply serving_io. rewrite (surjective_pairing tables_accepted).
    apply (step_event _ _ (EvReady 5 (Some [RData (frame_message (str "CANCEL 7")); RAgain]) false) []); [exact I|].
    apply ok_or_ok. vm_compute. reflexivity. }
  eapply rtc_l with (y := (tables_read.1, tables_answered.2)).
  { rewrite (surjective_pairing tables_read) at 1. apply serving_engine. }
  apply rtc_once. apply serving_io. apply (step_event _ _ EvEventfd [SSent 3; SAgain]); [exact I|].
  apply ok_or_ok. vm_compute. reflexivity.
Defined.
