(* ===== verification/ServerTheorems.v ===== *)
(** * ServerTheorems: the exchange server end to end

    The theorem of EndToEnd with the engine the server really runs: the risk
    decorator with the configuration of [main] over the matching engine over
    the queued sink, after any history of commands, with the C++ standard's
    reading of an erased level.  That the engine and the codecs return is
    proved, and on which commands the engine does not. *)
From Stdlib Require Import String.
From S2P Require Import Prelude Core Bytes Text TextProtocol BinaryCodec GatewayCodec TcpServer TcpTheorems SpscRing RingQueue.
From S2P Require Import OrderBook MatchingSpec MatchingEngine EngineInvariant EngineTheorems EngineApi RiskEngine RiskTotal.
From S2P Require Import ExchangeServer ExchangeTheorems EndToEnd VenueTotal UdpFeed ServerMain.

(** ** What the protocols hand to the engine *)

Lemma parses_wf host_little mode payload cmd :
  Forall is_byte payload → parses_to (bind_protocol host_little mode) payload cmd → wf_command cmd.
Proof.
  intros Hb (res & Ep & Ec). destruct mode; simpl in Ep.
  - unfold parse_binary in Ep. rewrite decode_spec in Ep by done. simpl in Ep. simplify_eq.
    destruct (decoded payload) as [m|] eqn:Ed; [|done]. destruct (wire_decoded _ _ Hb Ed) as [Hm _].
    destruct m; simpl in *; simplify_eq; unfold wf_command, wf_new_order; simpl; u64;
      destruct_and?; split_and?; done || lia.
  - simplify_eq. pose proof (parse_range payload) as Hr. destruct (parse payload); simpl in Ec; simplify_eq;
      simpl; by destruct_and?.
Qed.

Lemma renders host_little mode r :
  wf_response r → ∃ bs, render_fn (bind_protocol host_little mode) r = Ok bs.
Proof. intros Hr. destruct mode; simpl; [|by eexists]. eexists. by apply render_binary_wire. Qed.

Lemma renders_all host_little mode rs :
  Forall wf_response rs → ∃ bytes, Forall2 (λ r bs, render_fn (bind_protocol host_little mode) r = Ok bs) rs bytes.
Proof.
  induction 1 as [|r rs Hr _ [bytes IH]]; [exists []; constructor|].
  destruct (renders host_little mode r Hr) as [bs Eb]. exists (bs :: bytes). by constructor.
Qed.

(** ** The server's engine *)

#[export] Instance server_sink_api : EventSink QueuedEventSink := queued_sink kFeedCapacity.

Lemma server_pool_size : Z.of_nat kServerPool = 1000000.
Proof. unfold kServerPool. rewrite Z2Nat.id; [done|lia]. Qed.

#[local] Opaque kServerPool server_sink.

Lemma server_engine_ok : venue_ok server_engine (mkABook [] []).
Proof.
  split; cbn [server_engine RiskEngine_new inner_ config_ reference_price_].
  - apply new_inv. rewrite server_pool_size. lia.
  - intros x Hx. by apply elem_of_nil in Hx.
  - simpl. unfold in_u64. lia.
  - simpl. lia.
  - exact band_pct_10.
Qed.

(** C3. End to end: the exchange server answers.  Its engine is the one [main] builds (risk limits with a 10%
    band, matching engine with a million slots, self-trade prevention, queued feed sink) after any number of
    earlier commands of any clients.  A connected client sends up to 4096 framed commands in either protocol,
    with limit prices that are not negative, split into reads in any way.  If none of the commands, executed in
    order, takes the last order at a price with quantity left ([batch_reads], computed from the engine), then the
    readable event queues them, the engine thread executes each of them exactly once in order and writes the
    eventfd once, the drain empties the queue, and the client is disconnected or its stream has grown by exactly
    one framed rendering per command, in order, of the responses of that execution; no step is undefined, out of
    fuel or stuck.  If one does, executing the commands is undefined in the matching loop. *)
Theorem server_answers_pipelined host_little mode n engine fd c sv chunks ps cmds
    (inbound : Ring TaggedCommand) (outbound : Ring TaggedResponse) :
  let protocol := bind_protocol host_little mode in
  served server_engine n engine → Z.of_nat n + Z.of_nat (length cmds) < 18446744073709551616 →
  server_inv sv → connections_ sv !! fd = Some c → read_buffer c = [] → in_u64 (c_id c) →
  concat chunks = frames ps → Forall small ps → Forall (Forall is_byte) ps →
  Forall2 (parses_to protocol) ps cmds → Forall sane_command cmds →
  cmds ≠ [] → Z.of_nat (length cmds) <= kInbound →
  ring_holds kInbound inbound [] → rb_tail inbound < 18446744073709547520 →
  ring_holds kOutbound outbound [] → rb_tail outbound < 18446744073709547520 →
  (length cmds <= agains (sends_ sv))%nat →
  if batch_reads (c_id c) cmds engine
  then dispatch_all api_submit_call api_cancel_call (c_id c) cmds engine = Undefined
  else ∃ rs bytes engine' sv1 inbound1 v sv2 outbound2,
    dispatch_all api_submit_call api_cancel_call (c_id c) cmds engine = Ok (rs, engine') ∧
    length rs = length cmds ∧ Forall2 (λ r bs, render_fn protocol r = Ok bs) rs bytes ∧
    handle_read (on_frame protocol) ((RData <$> chunks) ++ [RAgain]) fd (sv, inbound) = Ok (sv1, inbound1) ∧
    engine_iter api_submit_call api_cancel_call (3 * length cmds + 2)
      (mkVenue inbound1 outbound engine (mkCoalescer false) EPop 0 IWait sv1 [] []) = Ok v ∧
    v_engine v = engine' ∧ v_eventfd v = 1 ∧ ring_holds kInbound (v_inbound v) [] ∧
    on_drain protocol (sv1, v_outbound v) = Ok (sv2, outbound2) ∧ ring_holds kOutbound outbound2 [] ∧
    (client_to_fd_ sv2 !! c_id c = None ∨ stream (c_id c) sv2 = stream (c_id c) sv ++ frames bytes).
Proof.
  intros protocol Hsv Hn Hi Hc Hb Hid Hch Hsm Hby Hp Hsane Hne Hl Hin Hint Hout Houtt Ha.
  destruct (served_ok _ _ _ _ server_engine_ok Hsv) as (A & Ho & Hseq); [simpl; lia|].
  assert (Hwf : Forall wf_command cmds).
  { clear -Hp Hby. induction Hp as [|p cmd ps cmds Hpc _ IH]; [constructor|]. apply Forall_cons in Hby as [Hbp Hby].
    constructor; [by eapply parses_wf|auto]. }
  pose proof (dispatch_all_answered (c_id c) cmds engine A Ho Hwf Hsane Hid ltac:(simpl in Hseq; lia)) as Hall.
  cbv zeta in Hall. destruct (batch_reads (c_id c) cmds engine); [exact Hall|].
  destruct Hall as (rs & engine' & A' & Ed & Hlr & Hrs & _).
  destruct (renders_all host_little mode rs Hrs) as [bytes Hr].
  destruct (pipelined_commands_answered api_submit_call api_cancel_call protocol fd c sv chunks ps cmds engine engine' rs
    bytes inbound outbound) as (sv1 & inbound1 & v & sv2 & outbound2 & Hx); try done; [by rewrite Hlr|].
  exists rs, bytes, engine', sv1, inbound1, v, sv2, outbound2. done.
Qed.

(** ** Witness: a client sends two cancels in three reads *)

Definition one_connection : TcpServer :=
  mkServer {[5 := mkConn 5 3 [] []]} {[3 := 5]} 4 1000 ∅ [SSent 4; SAgain; SAgain] ∅.

Lemma one_connection_inv : server_inv one_connection.
Proof.
  split; simpl.
  - intros fd c. rewrite lookup_singleton_Some. intros [<- <-]. simpl. by rewrite lookup_singleton_eq.
  - intros id fd. rewrite lookup_singleton_Some. intros [<- <-]. exists (mkConn 5 3 [] []). by rewrite lookup_singleton_eq.
  - intros id fd. rewrite lookup_singleton_Some. intros [<- _]. lia.
  - lia.
Qed.

Definition two_cancels : list (list Z) := [str "CANCEL 7"; str "CANCEL 8"].

Lemma server_answers_pipelined_witness :
  ∃ sv1 inbound1,
    handle_read (on_frame text) ((RData <$> [take 5 (frames two_cancels); drop 5 (frames two_cancels)]) ++ [RAgain]) 5
      (one_connection, Ring_new kInbound cmd_default) = Ok (sv1, inbound1).
Proof.
  pose proof (server_answers_pipelined true Plaintext 0 server_engine 5 (mkConn 5 3 [] []) one_connection
    [take 5 (frames two_cancels); drop 5 (frames two_cancels)] two_cancels
    [CCancel (mkCancel 7); CCancel (mkCancel 8)]
    (Ring_new kInbound cmd_default) (Ring_new kOutbound resp_default)) as Hans.
  cbv zeta in Hans. rewrite (cancels_read_nothing _ [7; 8]) in Hans.
  destruct Hans as (_ & _ & _ & sv1 & inbound1 & _ & _ & _ & _ & _ & _ & Hr & _).
  - apply served_start.
  - vm_compute. reflexivity.
  - exact one_connection_inv.
  - reflexivity.
  - reflexivity.
  - unfold in_u64. simpl. lia.
  - vm_compute. reflexivity.
  - unfold two_cancels, small, kMaxFrameSize. repeat constructor; vm_compute; congruence.
  - unfold two_cancels, is_byte. repeat constructor; vm_compute; congruence.
  - repeat constructor; eexists; (split; [vm_compute; reflexivity|reflexivity]).
  - repeat constructor.
  - discriminate.
  - vm_compute. congruence.
  - apply (new_holds _ 12 kInbound_pow2). lia.
  - vm_compute. reflexivity.
  - apply (new_holds _ 16 kOutbound_pow2). lia.
  - vm_compute. reflexivity.
  - vm_compute. lia.
  - exists sv1, inbound1. exact Hr.
Defined.
