(* ===== verification/ServerRun.v ===== *)
(** * ServerRun: the running exchange server is never stuck

    The two threads of ExchangeServer with the engine [main] builds, and the
    feed thread changing the engine's sink at any moment, under the C++
    standard's reading of an erased level: in every state an interleaving can
    reach, the engine thread's next operation is defined unless it executes
    an order that makes the matching loop read a level it erased, and every
    queued response can be rendered. *)
From Stdlib Require Import String.
From S2P Require Import Prelude Core Bytes Text TextProtocol BinaryCodec GatewayCodec TcpServer TcpTheorems SpscRing RingQueue.
From S2P Require Import OrderBook MatchingSpec MatchingEngine EngineInvariant EngineTheorems EngineApi RiskEngine RiskTotal.
From S2P Require Import ExchangeServer ExchangeTheorems EndToEnd VenueTotal UdpFeed ServerMain ServerTheorems.

#[local] Abbreviation Engine := (RiskEngine (MatchingEngine QueuedEventSink)).
#[local] Opaque kServerPool server_sink.

Section Run.
Variables (host_little : bool) (mode : ProtocolMode).
#[local] Abbreviation protocol := (bind_protocol host_little mode).
Implicit Types (v : Venue Engine).

Definition set_io (inbound : Ring TaggedCommand) (sv : TcpServer) v : Venue Engine :=
  mkVenue inbound (v_outbound v) (v_engine v) (v_wakeup v) (v_phase v) (v_eventfd v) (v_io v) sv (v_done v) (v_answered v).

Definition set_venue_sink (s : QueuedEventSink) v : Venue Engine :=
  mkVenue (v_inbound v) (v_outbound v) (risk_with_sink s (v_engine v)) (v_wakeup v) (v_phase v) (v_eventfd v)
    (v_io v) (v_server v) (v_done v) (v_answered v).

(** One operation of a thread: of the engine thread; a frame of some client
    whose command, if it is one, has no negative price; anything else the I/O
    thread does; the feed thread taking events off the sink. *)
Inductive server_step : Venue Engine → Venue Engine → Prop :=
| server_op v v' : engine_step api_submit_call api_cancel_call v = Ok v' → server_step v v'
| server_frame v sv' inbound' client payload :
    in_u64 client → Forall is_byte payload → (∀ cmd, parses_to protocol payload cmd → sane_command cmd) →
    on_frame protocol client payload (v_server v, v_inbound v) = Ok (sv', inbound') →
    server_step v (set_io inbound' sv' v)
| server_io v v' :
    venue_step api_submit_call api_cancel_call protocol v v' → v_inbound v' = v_inbound v →
    v_engine v' = v_engine v → v_phase v' = v_phase v → server_step v v'
| server_feed v s : server_step v (set_venue_sink s v).

(** What may be in the inbound queue. *)
Definition queued_command (tc : TaggedCommand) : Prop :=
  in_u64 (tc_client tc) ∧ wf_command (tc_command tc) ∧ sane_command (tc_command tc).

Definition response_ok (tr : TaggedResponse) : Prop := wf_response (tr_response tr).

Record run_inv (n : Z) v (ins : list TaggedCommand) (outs : list TaggedResponse) (A : ABook) : Prop := {
  ri_in : ring_holds kInbound (v_inbound v) ins;
  ri_out : ring_holds kOutbound (v_outbound v) outs;
  ri_in_tail : rb_tail (v_inbound v) <= n;
  ri_out_tail : rb_tail (v_outbound v) <= n;
  ri_engine : venue_ok (v_engine v) A;
  ri_sequence : next_sequence_ (inner_ (v_engine v)) <= n;
  ri_commands : Forall queued_command ins;
  ri_responses : Forall response_ok (outs ++ in_hand (v_phase v)) }.

Lemma run_inv_weaken n v ins outs A : run_inv n v ins outs A → run_inv (n + 1) v ins outs A.
Proof. intros []. split; try done; lia. Qed.

(** The engine thread is about to execute a command that reads an erased level. *)
Definition pops_reading v : bool :=
  match v_phase v, try_pop kInbound (v_inbound v) with
  | EPop, Ok (Some cmd, _) => command_reads cmd (v_engine v)
  | _, _ => false
  end.

(** Otherwise its next operation is defined and keeps the invariant. *)
Lemma engine_step_defined n v ins outs A :
  run_inv n v ins outs A → n < 18446744073709551615 →
  if pops_reading v then engine_step api_submit_call api_cancel_call v = Undefined
  else ∃ v' ins' outs' A', engine_step api_submit_call api_cancel_call v = Ok v' ∧ run_inv (n + 1) v' ins' outs' A'.
Proof.
  intros [Hi Ho Hit Hot He Hs Hc Hr] Hn. destruct v as [r o e w ph efd io sv hist ans]. unfold pops_reading. simpl in *.
  destruct ph as [| |t|]; simpl in Hr; rewrite ?app_nil_r in Hr.
  - destruct ins as [|cmd ins].
    + rewrite (pop_empty _ _ Hi). simpl. eexists _, [], outs, A. split; [done|].
      split; simpl; rewrite ?app_nil_r; done || lia.
    + destruct (pop_holds _ _ _ _ Hi) as (r1 & -> & Hr1 & Et). cbn [mbind outcome_bind].
      apply Forall_cons in Hc as [(Hcl & Hwf & Hsn) Hc]. destruct cmd as [client c].
      pose proof (dispatch_answered client c e A He Hwf Hsn Hcl ltac:(lia)) as Hd. cbv zeta in Hd.
      destruct (command_reads _ e); [by rewrite Hd|]. destruct Hd as (resp & e1 & A1 & Ed & Hresp & Ho1 & _ & Hn1).
      rewrite Ed. cbn [mbind outcome_bind]. eexists _, ins, outs, A1. split; [reflexivity|].
      split; simpl; try done; try lia. apply Forall_app. split; [done|]. constructor; [exact Hresp|constructor].
  - destruct (should_notify_on_idle w) as [notify w'] eqn:Ew. simpl. eexists _, ins, outs, A.
    split; [done|]. split; simpl; rewrite ?app_nil_r; done || lia.
  - rewrite (holds_size _ _ _ Ho). destruct (Z.leb_spec kOutbound (Z.of_nat (length outs))).
    + eexists _, ins, outs, A. split; [done|]. split; simpl; done || lia.
    + destruct (push_holds _ 16 kOutbound_pow2 ltac:(lia) _ _ t Ho ltac:(lia) ltac:(lia)) as (o1 & -> & Ho1 & Et).
      eexists _, ins, (outs ++ [t]), A. split; [done|]. split; simpl; rewrite ?app_nil_r; done || lia.
  - eexists _, ins, outs, A. split; [done|]. split; simpl; rewrite ?app_nil_r; done || lia.
Qed.

(** What the rest of the I/O thread can do to the outbound queue. *)
Lemma venue_step_outbound v v' outs :
  venue_step api_submit_call api_cancel_call protocol v v' → ring_holds kOutbound (v_outbound v) outs →
  v_phase v' = v_phase v →
  ∃ outs', ring_holds kOutbound (v_outbound v') outs' ∧ rb_tail (v_outbound v') = rb_tail (v_outbound v) ∧ suffix outs' outs.
Proof.
  intros Hs Ho Hp. destruct Hs as [v v' Es|r r' o e w ph efd sv sv' hist ans id p Ef|r o e w ph efd sv hist ans Hpos
    |r o o' e w ph efd sv sv' hist ans popped Ed|r o e w ph efd sv sv' hist ans]; simpl in *;
    try (exists outs; split_and!; [done|done|reflexivity]).
  - destruct v as [r o e w ph efd io sv hist ans]. simpl in *. destruct ph as [| |t|]; simpl in Es.
    + destruct (try_pop kInbound r) as [[[cmd|] r1]| |]; simpl in Es; try done; [|by simplify_eq/=].
      destruct (dispatch_command _ _ _ _) as [[resp e1]| |]; simpl in Es; by simplify_eq/=.
    + destruct (should_notify_on_idle w); by simplify_eq/=.
    + destruct (Z.leb _ _); [simplify_eq/=; exists outs; split_and!; [done|done|reflexivity]|]. destruct (try_push _ _ _); by simplify_eq/=.
    + by simplify_eq/=.
  - unfold drain_one in Ed. cbn [fst snd] in Ed. destruct outs as [|t outs].
    + rewrite (pop_empty _ _ Ho) in Ed. simpl in Ed. simplify_eq. exists []. split_and!; [done|done|reflexivity].
    + destruct (pop_holds _ _ _ _ Ho) as (o1 & Ep & Ho1 & Et). rewrite Ep in Ed. simpl in Ed. inv_ok.
      simplify_eq. exists outs. split_and!; [done..|by apply suffix_cons_r].
Qed.

Lemma server_step_inv n v v' ins outs A :
  run_inv n v ins outs A → n < 18446744073709551615 → server_step v v' →
  ∃ ins' outs' A', run_inv (n + 1) v' ins' outs' A'.
Proof.
  intros Hv Hn Hs. destruct Hs as [v v' Es|v sv' r' client p Hcl Hb Hsn Ef|v v' Hs Ei Ee Ep|v s].
  - pose proof (engine_step_defined _ _ _ _ _ Hv Hn) as Hd. rewrite Es in Hd. destruct (pops_reading v); [done|].
    destruct Hd as (v2 & ins2 & outs2 & A2 & E2 & Hv2). simplify_eq. eauto.
  - destruct Hv as [Hi Ho Hit Hot He Hsq Hc Hr].
    destruct (on_frame_queue _ _ _ _ _ _ _ _ Hi ltac:(lia) Ef) as (ins' & Hi' & Ht & Hins).
    exists ins', outs, A. split; simpl; try done; try lia.
    destruct Hins as [->|(res & cmd & E1 & E2 & ->)]; [done|]. apply Forall_app. split; [done|].
    assert (parses_to protocol p cmd) as Hpc by (by exists res). constructor; [|constructor].
    split_and!; simpl; [done|by eapply parses_wf|by apply Hsn].
  - destruct Hv as [Hi Ho Hit Hot He Hsq Hc Hr].
    destruct (venue_step_outbound _ _ _ Hs Ho Ep) as (outs' & Ho' & Et & [front ->]). exists ins, outs', A.
    rewrite <- app_assoc in Hr. apply Forall_app in Hr as [_ Hr].
    split; rewrite ?Ei, ?Ee, ?Ep, ?Et; done || lia.
  - destruct Hv as [Hi Ho Hit Hot He Hsq Hc Hr]. exists ins, outs, A.
    split; simpl; try done; try lia. by apply venue_ok_sink.
Qed.

Lemma server_run_inv n sv v :
  nsteps server_step n (venue_start cmd_default resp_default server_engine sv) v →
  Z.of_nat n < 18446744073709551615 → ∃ ins outs A, run_inv (Z.of_nat n) v ins outs A.
Proof.
  revert v. induction n as [|n IH]; intros v Hn Hb.
  - inversion Hn; subst. exists [], [], (mkABook [] []). split; simpl; try done.
    + apply (new_holds _ 12 kInbound_pow2). lia.
    + apply (new_holds _ 16 kOutbound_pow2). lia.
    + apply server_engine_ok.
  - apply nsteps_inv_r in Hn as (v1 & Hn & Hs). destruct (IH v1 Hn ltac:(lia)) as (ins & outs & A & Hv).
    replace (Z.of_nat (S n)) with (Z.of_nat n + 1) by lia. by eapply server_step_inv; [..|exact Hs]; [done|lia].
Qed.

(** C4. Safety of the running server, under the C++ standard's reading of an erased level: whatever the clients
    send (in either protocol; commands with limit prices that are not negative), however the engine, I/O and feed
    threads interleave, the engine thread's next operation is defined, unless it is to execute a command that
    passes the risk checks and takes the last order at a price with quantity left ([pops_reading], computed from
    the state), on which the matching loop is undefined; its engine keeps the invariant of the matching engine
    (book consistent and not crossed) and every response that is queued or in hand has a rendering in the protocol. *)
Theorem server_never_stuck n sv v :
  nsteps server_step n (venue_start cmd_default resp_default server_engine sv) v →
  Z.of_nat n < 18446744073709551615 →
  (if pops_reading v then engine_step api_submit_call api_cancel_call v = Undefined
   else ∃ v', engine_step api_submit_call api_cancel_call v = Ok v') ∧
  (∃ A, engine_inv (inner_ (v_engine v)) A) ∧
  ∃ outs, ring_holds kOutbound (v_outbound v) outs ∧
    Forall (λ t, ∃ bytes, render_fn protocol (tr_response t) = Ok bytes) (outs ++ in_hand (v_phase v)).
Proof.
  intros Hr Hn. destruct (server_run_inv _ _ _ Hr Hn) as (ins & outs & A & Hv).
  pose proof (engine_step_defined _ _ _ _ _ Hv Hn) as Hd. destruct Hv.
  split; [destruct (pops_reading v); [done|by destruct Hd as (v' & _ & _ & _ & Es & _); exists v']|]. split; [exists A; apply ri_engine0|]. exists outs. split; [done|].
  eapply Forall_impl; [exact ri_responses0|]. intros t Ht. by apply renders.
Qed.
End Run.

(** ** Witness: a client's cancel is queued *)

Definition run_start : Venue Engine :=
  venue_start cmd_default resp_default server_engine (TcpServer_new kDefaultMaxWriteBufferBytes).

Definition run_queued : Venue Engine :=
  set_io (try_push kInbound (mkTaggedCommand 3 (CCancel (mkCancel 7))) (v_inbound run_start)).2 (v_server run_start) run_start.

Lemma server_never_stuck_witness : ∃ v', engine_step api_submit_call api_cancel_call run_queued = Ok v'.
Proof.
  destruct (server_never_stuck true Plaintext 1 (TcpServer_new kDefaultMaxWriteBufferBytes) run_queued) as [Hs _].
  - apply nsteps_once. apply (server_frame true Plaintext run_start _ _ 3 (str "CANCEL 7")).
    + unfold in_u64. lia.
    + unfold is_byte. repeat constructor; vm_compute; congruence.
    + intros cmd (res & Ep & Ec). vm_compute in Ep. injection Ep as <-. injection Ec as <-. exact I.
    + vm_compute. reflexivity.
  - reflexivity.
  - assert (pops_reading run_queued = false) as Ep by (lazy; reflexivity). rewrite Ep in Hs. exact Hs.
Defined.
