(* ===== verification/FeedLevel.v ===== *)
(** * FeedLevel: the publisher's two sides, level by level

    What each event does to the price, quantity and order count the publisher
    of adapters/udp/udp_feed_publisher.cpp keeps per side, against the orders
    of that price level. *)
From S2P Require Import Prelude Core StdMap OrderPool PriceLevel OrderBook MatchingEngine.
From S2P Require Import ClientIndex MatchingSpec MatchingRefine EngineInvariant EngineRefine EngineTheorems.
From S2P Require Import SpscRing UdpFeed.

(** ** The publisher's two sides *)

Definition pub_side (s : Side) (p : UdpFeedPublisher) : SideState :=
  match s with Buy => bid_ p | Sell => ask_ p end.

Section Sides.
Variable now_ns : Z → Z.
Variable send_fn : Z → FeedMessage → Z.
#[local] Instance feed_sink : EventSink UdpFeedPublisher := publisher_sink now_ns send_fn.
Implicit Types (p : UdpFeedPublisher) (s : Side).

Lemma send_to_all_side s m p : pub_side s (send_to_all send_fn m p).2 = pub_side s p.
Proof. unfold send_to_all. destruct (send_loop _ _ _ _ _). by destruct s. Qed.

Lemma trigger_side s p : pub_side s (check_snapshot_trigger now_ns send_fn p) = pub_side s p.
Proof.
  unfold check_snapshot_trigger, publish_snapshot. simpl. case_match; [|by destruct s].
  assert (Hm : ∀ n q, pub_side s (set_messages_since n q) = pub_side s q) by (by destruct s).
  rewrite Hm, send_to_all_side. by destruct s.
Qed.

Lemma publish_update_side s p : pub_side s (publish_update now_ns send_fn p) = pub_side s p.
Proof. unfold publish_update, publish_top_of_book. rewrite trigger_side. simpl. rewrite send_to_all_side. by destruct s. Qed.

Lemma set_side_side s s' st p : pub_side s (set_side s' st p) = if decide (s = s') then st else pub_side s p.
Proof. by destruct s, s'. Qed.

(** A trade with an order resting on [s], when the other side's best is not at
    its price. *)
Lemma trade_side s t p :
  (0 < ss_count (pub_side (opposite s) p) → ss_price (pub_side (opposite s) p) ≠ t_price t) →
  pub_side (opposite s) (deliver p (EvTrade t)) = pub_side (opposite s) p ∧
  pub_side s (deliver p (EvTrade t)) =
    if Z.eqb (ss_price (pub_side s p)) (t_price t) && Z.ltb 0 (ss_count (pub_side s p))
    then reduce_side (t_quantity t) (resting_order_removed t) (pub_side s p) else pub_side s p.
Proof.
  intros Ho. cbn [deliver on_trade feed_sink publisher_sink]. unfold publisher_on_trade, make_header. cbv beta iota zeta.
  set (p1 := check_snapshot_trigger _ _ _).
  assert (Hp : ∀ s', pub_side s' p1 = pub_side s' p).
  { intros s'. unfold p1. rewrite trigger_side, send_to_all_side. by destruct s'. }
  change (bid_ p1) with (pub_side Buy p1). change (ask_ p1) with (pub_side Sell p1). rewrite !Hp. clearbody p1.
  destruct s; cbn [opposite] in *.
  - destruct (Z.eqb _ _ && Z.ltb _ _); [by rewrite !publish_update_side, !set_side_side, (Hp Sell)|].
    destruct (Z.eqb_spec (ss_price (pub_side Sell p)) (t_price t)); cbn [andb]; [|by rewrite !Hp].
    destruct (Z.ltb_spec 0 (ss_count (pub_side Sell p))); [tauto|by rewrite !Hp].
  - assert (Z.eqb (ss_price (pub_side Buy p)) (t_price t) && Z.ltb 0 (ss_count (pub_side Buy p)) = false) as ->.
    { destruct (Z.eqb_spec (ss_price (pub_side Buy p)) (t_price t)); [|done].
      destruct (Z.ltb_spec 0 (ss_count (pub_side Buy p))); [tauto|done]. }
    destruct (Z.eqb _ _ && Z.ltb _ _); [|by rewrite !Hp].
    by rewrite !publish_update_side, !set_side_side, (Hp Buy).
Qed.

Lemma cancelled_side s s' c p :
  oc_side c = s →
  pub_side s' (deliver p (EvCancelled c)) =
    if decide (s' = s) then
      (if Z.eqb (oc_price c) (ss_price (pub_side s p)) && Z.ltb 0 (ss_count (pub_side s p))
       then reduce_side (oc_remaining_qty c) true (pub_side s p) else pub_side s p)
    else pub_side s' p.
Proof.
  intros Es. cbn [deliver on_order_cancelled feed_sink publisher_sink]. unfold publisher_on_order_cancelled, side_eqb.
  rewrite Es. change (bid_ p) with (pub_side Buy p). change (ask_ p) with (pub_side Sell p).
  destruct s.
  - rewrite (bool_decide_true (Buy = Buy)), (bool_decide_false (Buy = Sell)) by done. cbn [andb].
    destruct (Z.eqb _ _ && Z.ltb _ _); [rewrite publish_update_side, set_side_side|]; by destruct s'.
  - rewrite (bool_decide_false (Sell = Buy)), (bool_decide_true (Sell = Sell)) by done. cbn [andb].
    destruct (Z.eqb _ _ && Z.ltb _ _); [rewrite publish_update_side, set_side_side|]; by destruct s'.
Qed.

(** The publisher takes an order for one that crosses the other side's best. *)
Definition seems_crossing (a : OrderAccepted) p : bool :=
  let opp := pub_side (opposite (oa_side a)) p in
  Z.ltb 0 (ss_count opp) && negb (limit_stops (oa_side a) (Some (oa_price a)) (ss_price opp)).

Lemma accepted_side s' a p :
  oa_price a ≠ 0 →
  pub_side s' (deliver p (EvAccepted a)) =
    let own := pub_side (oa_side a) p in
    if decide (s' = oa_side a) then
      if seems_crossing a p then own
      else if Z.eqb (ss_count own) 0 || tree_lt (oa_side a) (oa_price a) (ss_price own)
      then mkSide (oa_price a) (oa_quantity a) 1
      else if Z.eqb (oa_price a) (ss_price own)
      then mkSide (ss_price own) (Quantity_add (ss_qty own) (oa_quantity a)) (u64_add (ss_count own) 1)
      else own
    else pub_side s' p.
Proof.
  intros Hp. cbn [deliver on_order_accepted feed_sink publisher_sink]. unfold publisher_on_order_accepted, seems_crossing.
  rewrite (proj2 (Z.eqb_neq _ _)) by done. change (bid_ p) with (pub_side Buy p). change (ask_ p) with (pub_side Sell p).
  destruct (oa_side a); cbn [opposite limit_stops tree_lt]; cbv zeta; rewrite ?Z.gtb_ltb, <- ?Z.leb_antisym.
  - destruct (Z.ltb 0 _ && _); [by destruct s'|].
    destruct (Z.eqb _ 0 || _); [rewrite publish_update_side, set_side_side; by destruct s'|].
    destruct (Z.eqb _ _); [rewrite publish_update_side, set_side_side|]; by destruct s'.
  - destruct (Z.ltb 0 _ && _); [by destruct s'|].
    destruct (Z.eqb _ 0 || _); [rewrite publish_update_side, set_side_side; by destruct s'|].
    destruct (Z.eqb _ _); [rewrite publish_update_side, set_side_side|]; by destruct s'.
Qed.
End Sides.

(** ** What a side of the book looks like from outside *)

(** The level at price [k] of a queue, as the publisher would keep it. *)
Definition level_state (k : Z) (l : list Entry) : SideState :=
  let q := filter (λ x, r_price x.2 = k) l in
  if decide (q = []) then mkSide 0 0 0 else mkSide k (sumZ (λ x, r_quantity x.2) q) (Z.of_nat (length q)).

(** The best level of a side, the first entry being the best. *)
Definition top_state (l : list Entry) : SideState :=
  match l with [] => mkSide 0 0 0 | x :: _ => level_state (r_price x.2) l end.

Definition small_quantities (l : list Entry) : Prop := ∀ x, x ∈ l → 0 < r_quantity x.2 < 4294967296.

Lemma filter_all {B} (P : B → Prop) `{∀ x, Decision (P x)} (l : list B) : Forall P l → filter P l = l.
Proof. induction 1 as [|x l Hx _ IH]; [done|]. by rewrite filter_cons_True, IH. Qed.

Lemma filter_none {B} (P : B → Prop) `{∀ x, Decision (P x)} (l : list B) : Forall (λ x, ¬ P x) l → filter P l = [].
Proof. induction 1 as [|x l Hx _ IH]; [done|]. by rewrite filter_cons_False, IH. Qed.

Section Level.
Implicit Types (l : list Entry) (x : Entry) (k : Z).

Lemma sumZ_perm {A} (f : A → Z) (l1 l2 : list A) : l1 ≡ₚ l2 → sumZ f l1 = sumZ f l2.
Proof. induction 1; simpl; lia. Qed.

Lemma level_state_perm k l1 l2 : l1 ≡ₚ l2 → level_state k l1 = level_state k l2.
Proof.
  intros Hp. unfold level_state. assert (Hf : filter (λ x, r_price x.2 = k) l1 ≡ₚ filter (λ x, r_price x.2 = k) l2) by (by rewrite Hp).
  rewrite (sumZ_perm _ _ _ Hf), (Permutation_length Hf).
  destruct (decide (filter _ l1 = [])) as [E|E], (decide (filter _ l2 = [])) as [E'|E']; try done; exfalso.
  - apply E'. rewrite E in Hf. by apply Permutation_nil_l in Hf.
  - apply E. rewrite E' in Hf. by apply Permutation_nil_r in Hf.
Qed.

Lemma level_state_other k x l : r_price x.2 ≠ k → level_state k (x :: l) = level_state k l.
Proof. intros Hk. unfold level_state. by rewrite filter_cons_False. Qed.

Lemma level_state_none k l : (∀ x, x ∈ l → r_price x.2 ≠ k) → level_state k l = mkSide 0 0 0.
Proof.
  induction l as [|x l IH]; intros Hn; [done|]. rewrite level_state_other; [|apply Hn; by constructor].
  apply IH. intros y Hy. apply Hn. by constructor.
Qed.

(** A queue that a pool of [uint32_t] many slots can hold. *)
Definition fits_queue l : Prop := small_quantities l ∧ Z.of_nat (length l) < 4294967296.

Lemma fits_queue_sub l l' : (∀ x, x ∈ l' → x ∈ l) → (length l' <= length l)%nat → fits_queue l → fits_queue l'.
Proof. intros Hs Hl [Hq Hn]. split; [intros x Hx; auto|lia]. Qed.

Lemma quantity_bound l : small_quantities l → 0 <= sumZ (λ x, r_quantity x.2) l <= 4294967295 * Z.of_nat (length l).
Proof.
  induction l as [|x l IH]; intros Hq; [simpl; lia|]. cbn [sumZ length].
  destruct IH; [intros y Hy; apply Hq; by constructor|]. specialize (Hq x (list_elem_of_here _ _)). lia.
Qed.

(** A level with its first order set apart. *)
Definition level_rest k l : Z * Z :=
  let q := filter (λ x, r_price x.2 = k) l in (sumZ (λ x, r_quantity x.2) q, Z.of_nat (length q)).

Lemma level_rest_bound k l :
  fits_queue l → 0 <= (level_rest k l).1 <= 4294967295 * (level_rest k l).2 ∧ 0 <= (level_rest k l).2 < 4294967296.
Proof.
  intros [Hq Hl]. unfold level_rest. simpl.
  pose proof (quantity_bound (filter (λ x, r_price x.2 = k) l)) as Hb.
  destruct Hb; [intros x [_ Hx]%list_elem_of_filter; auto|].
  pose proof (length_filter (λ x, r_price x.2 = k) l). lia.
Qed.

Lemma level_state_head k x l :
  r_price x.2 = k → level_state k (x :: l) = mkSide k (r_quantity x.2 + (level_rest k l).1) (1 + (level_rest k l).2).
Proof.
  intros Hk. unfold level_state, level_rest. rewrite filter_cons_True by done. rewrite decide_False by done.
  cbn [sumZ length fst snd]. f_equal. lia.
Qed.

Lemma level_state_rest k l :
  level_state k l = if Z.eqb (level_rest k l).2 0 then mkSide 0 0 0 else mkSide k (level_rest k l).1 (level_rest k l).2.
Proof. unfold level_state, level_rest. simpl. by destruct (filter _ l). Qed.

(** The three changes the publisher makes to a level. *)
Lemma reduce_gone x l :
  fits_queue (x :: l) → reduce_side (r_quantity x.2) true (level_state (r_price x.2) (x :: l)) = level_state (r_price x.2) l.
Proof.
  intros Hf. rewrite level_state_head, level_state_rest by done. set (k := r_price x.2).
  destruct (level_rest_bound k l) as [Hs Hc].
  { eapply fits_queue_sub; [..|exact Hf]; [intros y Hy; by constructor|simpl; lia]. }
  pose proof (proj1 Hf x (list_elem_of_here _ _)) as Hx. unfold reduce_side. cbn [ss_qty ss_count ss_price]. cbv zeta.
  rewrite (proj2 (Z.leb_le _ _)) by lia. rewrite !u64_sub_small by (u64; lia).
  replace (1 + (level_rest k l).2 - 1) with (level_rest k l).2 by lia.
  destruct (Z.eqb_spec (level_rest k l).2 0) as [E|E]; [by rewrite E|]. f_equal. lia.
Qed.

Lemma reduce_part x q l :
  fits_queue (x :: l) → 0 < q < r_quantity x.2 →
  reduce_side q false (level_state (r_price x.2) (x :: l)) =
    level_state (r_price x.2) ((x.1, rest_set_quantity (r_quantity x.2 - q) x.2) :: l).
Proof.
  intros Hf Hq. rewrite !level_state_head by done. set (k := r_price x.2).
  destruct (level_rest_bound k l) as [Hs Hc].
  { eapply fits_queue_sub; [..|exact Hf]; [intros y Hy; by constructor|simpl; lia]. }
  pose proof (proj1 Hf x (list_elem_of_here _ _)) as Hx. unfold reduce_side. cbn [ss_qty ss_count ss_price]. cbv zeta.
  rewrite (proj2 (Z.leb_le _ _)) by lia. rewrite !u64_sub_small by (u64; lia).
  rewrite (proj2 (Z.eqb_neq _ _)) by lia. f_equal. cbn [snd rest_set_quantity r_quantity]. lia.
Qed.

Lemma level_add k x l :
  r_price x.2 = k → fits_queue (x :: l) →
  mkSide k (Quantity_add (level_rest k l).1 (r_quantity x.2)) (u64_add (level_rest k l).2 1) = level_state k (x :: l).
Proof.
  intros Hk Hf. rewrite level_state_head by done. destruct (level_rest_bound k l) as [Hs Hc].
  { eapply fits_queue_sub; [..|exact Hf]; [intros y Hy; by constructor|simpl; lia]. }
  pose proof (proj1 Hf x (list_elem_of_here _ _)) as Hx. unfold Quantity_add, u64_add.
  rewrite !wrap64_small by (u64; lia). f_equal; lia.
Qed.
End Level.

(** ** Fills, as the publisher hears them *)

Section Fills.
Variable now_ns : Z → Z.
Variable send_fn : Z → FeedMessage → Z.
#[local] Instance fills_sink : EventSink UdpFeedPublisher := feed_sink now_ns send_fn.
Implicit Types (p : UdpFeedPublisher) (l : list Entry) (x : Entry) (c : Incoming) (σ : Fills).

(** A change at another price leaves the level alone. *)
Lemma level_state_misses k price l :
  price ≠ k → Z.eqb (ss_price (level_state k l)) price && Z.ltb 0 (ss_count (level_state k l)) = false.
Proof.
  intros Hk. rewrite level_state_rest. destruct (Z.eqb_spec (level_rest k l).2 0); cbn [ss_price ss_count].
  - by rewrite andb_false_r.
  - by rewrite (proj2 (Z.eqb_neq _ _)).
Qed.

Lemma level_state_hits k x l :
  r_price x.2 = k → fits_queue (x :: l) →
  Z.eqb (ss_price (level_state k (x :: l))) k && Z.ltb 0 (ss_count (level_state k (x :: l))) = true.
Proof.
  intros Hk Hf. rewrite level_state_head by done. cbn [ss_price ss_count]. rewrite Z.eqb_refl.
  destruct (level_rest_bound k l) as [_ Hc].
  { eapply fits_queue_sub; [..|exact Hf]; [intros y Hy; by constructor|simpl; lia]. }
  by rewrite (proj2 (Z.ltb_lt _ _)) by lia.
Qed.

(** The other side's best is not at any of these prices. *)
Definition apart (st : SideState) l : Prop := ∀ x, x ∈ l → 0 < ss_count st → ss_price st ≠ r_price x.2.

(** One fill of the first order: of all of it, or of part. *)
Lemma trade_level s k x l t p :
  fits_queue (x :: l) → pub_side s p = level_state k (x :: l) → apart (pub_side (opposite s) p) (x :: l) →
  t_price t = r_price x.2 →
  pub_side (opposite s) (deliver p (EvTrade t)) = pub_side (opposite s) p ∧
  (resting_order_removed t = true → t_quantity t = r_quantity x.2 →
     pub_side s (deliver p (EvTrade t)) = level_state k l) ∧
  (resting_order_removed t = false → 0 < t_quantity t < r_quantity x.2 →
     pub_side s (deliver p (EvTrade t)) =
       level_state k ((x.1, rest_set_quantity (r_quantity x.2 - t_quantity t) x.2) :: l)).
Proof.
  intros Hf Hs Ha Ht. destruct (trade_side now_ns send_fn s t p) as [Ho Hd].
  { rewrite Ht. apply Ha. constructor. }
  split; [exact Ho|]. rewrite Hs, Ht in Hd. destruct (Z.eq_dec (r_price x.2) k) as [Ek|Ek].
  - rewrite Ek, level_state_hits in Hd by done. subst k. split; intros Er Eq; rewrite Er in Hd.
    + rewrite Eq in Hd. etrans; [exact Hd|]. by apply reduce_gone.
    + etrans; [exact Hd|]. by apply reduce_part.
  - rewrite level_state_misses in Hd by done. rewrite level_state_other in Hd by done.
    split; intros _ _; [exact Hd|]. etrans; [exact Hd|]. by rewrite level_state_other.
Qed.

Lemma fill_events_side c k l σ :
  in_cancel c = false → fits_queue l →
  let s := opposite (in_side c) in
  let '(σ', l') := fill_queue c l σ in
  ∃ evs, f_events σ' = f_events σ ++ evs ∧
    ∀ p, pub_side s p = level_state k l → apart (pub_side (opposite s) p) l →
      pub_side s (deliver_all evs p) = level_state k l' ∧
      pub_side (opposite s) (deliver_all evs p) = pub_side (opposite s) p.
Proof.
  intros Hc Hf s. revert σ Hf. induction l as [|x l IH]; intros σ Hf; cbn [fill_queue].
  { exists []. rewrite app_nil_r. by split. }
  destruct (Z.leb_spec (f_remaining σ) 0) as [|Hr]; [exists []; rewrite app_nil_r; by split|].
  destruct (limit_stops _ _ _); [exists []; rewrite app_nil_r; by split|].
  assert (is_own c x = false) as -> by (unfold is_own; by rewrite Hc).
  destruct (Z.ltb_spec (f_remaining σ) (r_quantity x.2)).
  - eexists. split; [reflexivity|]. intros p Hp Ha.
    destruct (trade_level s k x l (make_trade (in_side c) (in_id c) (f_tseq σ) (r_id x.2) (r_price x.2) (f_remaining σ) false) p Hf Hp Ha eq_refl)
      as (Ho & _ & Hd). split; [|exact Ho]. apply Hd; [done|]. simpl. lia.
  - specialize (IH (trade_with c x (r_quantity x.2) true σ)).
    destruct (fill_queue c l _) as [σ' l'].
    destruct IH as (evs & Ee & Hevs).
    { eapply fits_queue_sub; [..|exact Hf]; [intros y Hy; by constructor|simpl; lia]. }
    eexists. split; [rewrite Ee; cbn [trade_with f_events]; by rewrite <- app_assoc|]. intros p Hp Ha.
    destruct (trade_level s k x l (make_trade (in_side c) (in_id c) (f_tseq σ) (r_id x.2) (r_price x.2) (r_quantity x.2) true) p Hf Hp Ha eq_refl)
      as (Ho & Hd & _). specialize (Hd eq_refl eq_refl). rewrite deliver_all_app. cbn [deliver_all foldl].
    destruct (Hevs (deliver p (EvTrade (make_trade (in_side c) (in_id c) (f_tseq σ) (r_id x.2) (r_price x.2) (r_quantity x.2) true))))
      as [H1 H2]; [exact Hd| |].
    + rewrite Ho. intros y Hy. apply Ha. by constructor.
    + split; [exact H1|]. by rewrite H2.
Qed.
End Fills.
