(* ===== verification/FeedBook.v ===== *)
(** * FeedBook: the published top of book against the engine's book

    The publisher keeps, per side, the price, quantity and number of orders of
    the best level, and learns of changes only through the events.  It follows
    the engine's book through every command that does not empty the best
    level while others stand behind it and does not leave a remainder of a
    crossing order resting: those two are what the events cannot tell it. *)
From S2P Require Import Prelude Core StdMap OrderPool PriceLevel OrderBook MatchingEngine.
From S2P Require Import ClientIndex MatchingSpec MatchingRefine EngineInvariant EngineRefine EngineTheorems.
From S2P Require Import SpscRing UdpFeed FeedLevel EngineWitness.

(** ** Following the book *)

Definition tracks (p : UdpFeedPublisher) (A : ABook) : Prop := ∀ s, pub_side s p = top_state (ab_side s A).

Definition small_book (A : ABook) : Prop := ∀ x, x ∈ ab_entries A → 0 < r_quantity x.2 < 4294967296.

Section Tops.
Implicit Types (l : list Entry) (x : Entry) (s : Side) (A : ABook).

(** The price the publisher has for a side. *)
Definition top_price l : Z := match l with [] => 0 | x :: _ => r_price x.2 end.

Lemma top_state_level l : top_state l = level_state (top_price l) l.
Proof. by destruct l. Qed.

Lemma top_state_cons x l :
  top_state (x :: l) =
    mkSide (r_price x.2) (r_quantity x.2 + (level_rest (r_price x.2) l).1) (1 + (level_rest (r_price x.2) l).2).
Proof. apply level_state_head. done. Qed.

(** A level the publisher still has right: gone with its side, or still the best. *)
Lemma level_state_top k l : l = [] ∨ top_price l = k → level_state k l = top_state l.
Proof. intros [->|<-]; [done|]. by rewrite top_state_level. Qed.

Lemma fits_side s A : small_book A → Z.of_nat (length (ab_entries A)) < 4294967296 → fits_queue (ab_side s A).
Proof.
  intros Hs Hl. rewrite (ab_entries_perm s), length_app in Hl. split; [|lia].
  intros x Hx. apply Hs, ab_entries_elem. eauto.
Qed.

(** What the publisher does on an accepted order is what inserting it does to the best level. *)
Lemma top_insert s x l :
  priority_sorted s l → fits_queue (x :: l) →
  top_state (priority_insert s x l) =
    (let st := top_state l in
     if Z.eqb (ss_count st) 0 || tree_lt s (r_price x.2) (ss_price st) then mkSide (r_price x.2) (r_quantity x.2) 1
     else if Z.eqb (r_price x.2) (ss_price st)
     then mkSide (ss_price st) (Quantity_add (ss_qty st) (r_quantity x.2)) (u64_add (ss_count st) 1)
     else st).
Proof.
  intros Hs Hf. destruct l as [|y l]; cbn [priority_insert].
  { rewrite top_state_cons. cbn. f_equal. lia. }
  assert (Hfl : fits_queue l) by (eapply fits_queue_sub; [..|exact Hf]; [intros z Hz; do 2 constructor; done|simpl; lia]).
  destruct (level_rest_bound (r_price y.2) l Hfl) as [_ Hc]. rewrite (top_state_cons y l). cbv zeta. cbn [ss_count ss_price ss_qty].
  rewrite (proj2 (Z.eqb_neq (1 + _) 0)) by lia. cbn [orb]. destruct (tree_lt s (r_price x.2) (r_price y.2)) eqn:El.
  - rewrite top_state_cons. assert (Hn : level_state (r_price x.2) (y :: l) = mkSide 0 0 0).
    { apply level_state_none. intros z Hz Ez. apply StronglySorted_inv in Hs as [_ Hs]. rewrite Forall_forall in Hs.
      rewrite <- Ez in El. apply elem_of_cons in Hz as [->|Hz]; [by rewrite ltb_irrefl in El|].
      by rewrite (Hs z Hz) in El. }
    rewrite level_state_rest in Hn. destruct (Z.eqb_spec (level_rest (r_price x.2) (y :: l)).2 0) as [E0|E0]; [|by injection Hn].
    assert (fits_queue (y :: l)) as Hfy by (eapply fits_queue_sub; [..|exact Hf]; [intros z Hz; by constructor|simpl; lia]).
    pose proof (level_rest_bound (r_price x.2) (y :: l) Hfy). rewrite E0 in *. f_equal. lia.
  - cbn [top_state]. rewrite (level_state_perm _ _ (x :: y :: l)) by (rewrite priority_insert_perm; constructor).
    destruct (Z.eqb_spec (r_price x.2) (r_price y.2)) as [E|E].
    + rewrite <- (level_add (r_price y.2) x (y :: l)) by done. pose proof (level_state_rest (r_price y.2) (y :: l)) as Hr.
      rewrite level_state_head in Hr by done. destruct (Z.eqb_spec (level_rest (r_price y.2) (y :: l)).2 0); [injection Hr; lia|].
      pose proof (f_equal ss_qty Hr) as H1. pose proof (f_equal ss_count Hr) as H2. cbn [ss_qty ss_count] in H1, H2.
      by rewrite H1, H2.
    + rewrite level_state_other by done. by rewrite level_state_head.
Qed.
End Tops.

Section Commands.
Variable now_ns : Z → Z.
Variable send_fn : Z → FeedMessage → Z.
#[local] Instance command_sink : EventSink UdpFeedPublisher := feed_sink now_ns send_fn.
Implicit Types (e : MatchingEngine UdpFeedPublisher) (A : ABook) (o : NewOrder) (p : UdpFeedPublisher).

Lemma fits_queue_perm l1 l2 : l1 ≡ₚ l2 → fits_queue l1 → fits_queue l2.
Proof. intros Hp [Hs Hl]. split; [intros x Hx; apply Hs; by rewrite Hp|by rewrite <- Hp]. Qed.

Lemma entries_bound e A : engine_inv e A → Z.of_nat (length (ab_entries A)) < 4294967296.
Proof. intros Hi. pose proof (book_capacity _ _ (ei_book _ _ Hi)). pose proof (ei_capacity _ _ Hi). lia. Qed.

(** The best of one side is not at a price of the other. *)
Lemma tracks_apart e A p s : engine_inv e A → tracks p A → apart (pub_side s p) (ab_side (opposite s) A).
Proof.
  intros Hi Ht x Hx Hc. rewrite (Ht s) in *. destruct (ab_side s A) as [|y l] eqn:Es; [done|].
  rewrite top_state_cons. cbn [ss_price]. pose proof (oi_uncrossed _ _ _ (ei_orders _ _ Hi)) as Hu.
  destruct s; simpl in *; [specialize (Hu y x)|specialize (Hu x y)]; rewrite Es in Hu;
    specialize (Hu ltac:(set_solver) ltac:(set_solver)); lia.
Qed.

(** A command leaves the best level of a side, or nothing. *)
Definition same_top (s : Side) A A' : Prop :=
  ab_side s A' = [] ∨ top_price (ab_side s A') = top_price (ab_side s A).

(** Nothing pulled and nothing traded: nothing happened. *)
Lemma fill_no_trades c l σ :
  in_cancel c = false → let '(σ', l') := fill_queue c l σ in f_trades σ' = f_trades σ → σ' = σ ∧ l' = l.
Proof.
  intros Hc. destruct l as [|x l]; cbn [fill_queue]; [done|]. destruct (Z.leb _ _); [done|]. destruct (limit_stops _ _ _); [done|].
  assert (is_own c x = false) as -> by (unfold is_own; by rewrite Hc). destruct (Z.ltb _ _).
  - intros E. apply (f_equal length) in E. cbn [trade_with f_trades] in E. rewrite length_app in E. simpl in E. lia.
  - pose proof (fill_queue_prices c l (trade_with c x (r_quantity x.2) true σ)) as Hp. destruct (fill_queue c l _) as [σ' l'].
    destruct Hp as (ts & Ets & _). intros E. rewrite E in Ets. apply (f_equal length) in Ets.
    cbn [trade_with f_trades] in Ets. rewrite !length_app in Ets. simpl in Ets. lia.
Qed.

Lemma fill_small c l σ : small_quantities l → small_quantities (fill_queue c l σ).2.
Proof.
  intros Hs. pose proof (fill_queue_shape c l σ) as Hsh. destruct (fill_queue c l σ) as [σ' l']. simpl.
  destruct Hsh as (gone & _ & [->|(x & q & l2 & -> & -> & Hq & _)]); intros y Hy.
  - apply Hs. set_solver.
  - apply elem_of_cons in Hy as [->|Hy]; [simpl; specialize (Hs x ltac:(set_solver)); lia|]. apply Hs. set_solver.
Qed.

(** Limit orders of less than [2^32] keep the book's quantities there. *)
Definition small_order o : Prop := match o with NLimit lo => lo_quantity lo < 4294967296 | NMarket _ => True end.

Lemma accepts_small o e A σ l e' A' :
  matched o e A = (σ, l) → accepts o e A σ l e' A' → engine_inv e A → wf_new_order o → small_order o →
  small_book A → small_book A'.
Proof.
  intros Em Ha Hi (_ & _ & Hq & _) Ho Hs. set (opp := opposite (new_order_side o)).
  pose proof (fill_small (incoming_of o e) (ab_side opp A) (fills_start (new_order_quantity o) (next_trade_sequence_ e))) as Hsm.
  pose proof (fill_queue_remaining (incoming_of o e) (ab_side opp A) (fills_start (new_order_quantity o) (next_trade_sequence_ e))) as Hrem.
  unfold matched in Em. fold opp in Em. rewrite Em in Hsm, Hrem. cbn [snd fills_start f_remaining] in Hsm, Hrem.
  destruct Hrem as [Hrem _]; [unfold in_u64 in Hq; lia|by apply (matched_good o e A)|].
  assert (Hl : small_book (ab_set opp l A)).
  { intros x. rewrite (ab_entries_perm opp), ab_side_set_eq, ab_side_set_opp, elem_of_app. intros [Hx|Hx].
    - apply Hsm; [|done]. intros y Hy. apply Hs, ab_entries_elem. eauto.
    - apply Hs, ab_entries_elem. eauto. }
  pose proof (ac_book _ _ _ _ _ _ _ Ha) as Hb. unfold rests in Hb. destruct o as [lo|mo]; [|by destruct Hb as [-> _]].
  destruct (Z.ltb_spec 0 (f_remaining σ)); [|by destruct Hb as [-> _]]. destruct Hb as (slot & _ & -> & _).
  intros x. rewrite (ab_entries_perm (lo_side lo)), ab_side_set_eq, ab_side_set_opp, priority_insert_perm. simpl.
  rewrite <- ab_entries_perm, elem_of_cons. intros [->|?]; [|by apply Hl]. simpl in *. lia.
Qed.

(** An order that meets nothing rests behind a publisher that sees it. *)
Lemma resting_tracks o e A σ l e' A' :
  matched o e A = (σ, l) → accepts o e A σ l e' A' → engine_inv e A → rejection o e A = None → wf_new_order o →
  small_order o → small_book A → stp_pulls e = false → tracks (sink_ e) A → f_trades σ = [] →
  (∃ lo, o = NLimit lo) → tracks (sink_ e') A'.
Proof.
  intros Em Ha Hi Hrej Hwf Ho Hs Hst Ht Htr [lo ->]. pose proof (accepts_small _ _ _ _ _ _ _ Em Ha Hi Hwf Ho Hs) as Hs'.
  pose proof (fits_side (lo_side lo) A' Hs' (entries_bound _ _ (ac_inv _ _ _ _ _ _ _ Ha))) as Hf'.
  pose proof (fill_no_trades (incoming_of (NLimit lo) e) (ab_side (opposite (lo_side lo)) A)
    (fills_start (lo_quantity lo) (next_trade_sequence_ e)) Hst) as Hno.
  pose proof (fill_queue_exhausts (incoming_of (NLimit lo) e) (ab_side (opposite (lo_side lo)) A)
    (fills_start (lo_quantity lo) (next_trade_sequence_ e)) (matched_good (NLimit lo) e A Hi)) as Hex.
  unfold matched in Em. cbn [new_order_side new_order_quantity] in Em. rewrite Em in Hno, Hex. destruct (Hno Htr) as [-> ->].
  unfold rejection in Hrej. cbn [new_order_quantity new_order_limit] in Hrej.
  destruct (Z.eqb_spec (lo_quantity lo) 0); [done|]. destruct (Z.leb_spec (lo_price lo) 0); [done|].
  destruct Hwf as (_ & _ & Hq & _). simpl in Hq. unfold in_u64 in Hq. cbn [fills_start f_remaining] in Hex.
  specialize (Hex ltac:(lia)). destruct Ha as [_ Hb Hsk _ _ _ _ _]. unfold rests in Hb. cbn [fills_start f_remaining] in Hb.
  rewrite (proj2 (Z.ltb_lt 0 _)) in Hb by lia. destruct Hb as (slot & _ & -> & _).
  cbn [new_order_side] in *. assert (Hset : ab_set (opposite (lo_side lo)) (ab_side (opposite (lo_side lo)) A) A = A).
  { by destruct A, (lo_side lo). }
  rewrite Hset in *. rewrite ab_side_set_eq in Hf'. eapply fits_queue_perm in Hf'; [|apply priority_insert_perm].
  rewrite Hsk. cbn [fills_start f_events deliver_all foldl]. intros s.
  set (a := mkAccepted (lo_id lo) (lo_side lo) (lo_quantity lo) (lo_price lo)).
  change (accepted_event (NLimit lo)) with (EvAccepted a). etrans; [apply (accepted_side now_ns send_fn); simpl; lia|].
  cbv zeta. cbn [oa_side oa_price oa_quantity a]. rewrite ab_side_set. destruct (decide (s = lo_side lo)) as [->|Hne]; [|apply Ht].
  assert (seems_crossing a (sink_ e) = false) as ->.
  { unfold seems_crossing. cbn [oa_side oa_price a]. rewrite (Ht (opposite (lo_side lo))).
    destruct (ab_side (opposite (lo_side lo)) A) as [|y q]; [done|]. rewrite top_state_cons. cbn [ss_price ss_count].
    cbn [incoming_of in_side in_limit new_order_side new_order_limit] in Hex. rewrite Hex. by rewrite andb_false_r. }
  rewrite (Ht (lo_side lo)), top_insert; [done|by eapply engine_sorted|exact Hf'].
Qed.

(** The announcement of an order that trades at once changes nothing. *)
Lemma crossing_announced o e A σ l s :
  matched o e A = (σ, l) → rejection o e A = None → tracks (sink_ e) A → fits_queue (ab_side (opposite (new_order_side o)) A) →
  (match o with NLimit _ => f_trades σ ≠ [] | NMarket _ => True end) →
  pub_side s (deliver (sink_ e) (accepted_event o)) = pub_side s (sink_ e).
Proof.
  intros Em Hrej Ht Hfit Htr. destruct o as [lo|mo].
  2: done.
  set (a := mkAccepted (lo_id lo) (lo_side lo) (lo_quantity lo) (lo_price lo)).
  change (accepted_event (NLimit lo)) with (EvAccepted a).
  unfold rejection in Hrej. cbn [new_order_quantity new_order_limit] in Hrej.
  destruct (Z.eqb_spec (lo_quantity lo) 0); [done|]. destruct (Z.leb_spec (lo_price lo) 0); [done|].
  etrans; [apply (accepted_side now_ns send_fn); simpl; lia|]. cbv zeta. cbn [oa_side oa_price oa_quantity a].
  destruct (decide (s = lo_side lo)) as [->|]; [|done].
  assert (seems_crossing a (sink_ e) = true) as ->; [|done].
  unfold seems_crossing. cbn [oa_side oa_price a]. rewrite (Ht (opposite (lo_side lo))).
  unfold matched in Em. cbn [new_order_side] in Em, Hfit. destruct (ab_side (opposite (lo_side lo)) A) as [|y q] eqn:Eq.
  { cbn [fill_queue] in Em. injection Em as <- <-. by destruct Htr. }
  cbn [fill_queue] in Em. destruct (Z.leb _ _); [injection Em as <- <-; by destruct Htr|].
  cbn [incoming_of in_side in_limit new_order_side new_order_limit] in Em.
  destruct (limit_stops (lo_side lo) (Some (lo_price lo)) (r_price y.2)) eqn:Es; [injection Em as <- <-; by destruct Htr|].
  rewrite top_state_cons. cbn [ss_price ss_count]. rewrite Es.
  destruct (level_rest_bound (r_price y.2) q) as [_ Hc].
  { eapply fits_queue_sub; [..|exact Hfit]; [intros z Hz; by constructor|simpl; lia]. }
  by rewrite (proj2 (Z.ltb_lt _ _)) by lia.
Qed.

(** An order that only takes: the publisher is right if the best level was not
    emptied with others behind it. *)
Lemma sweeping_tracks o e A σ l e' A' :
  matched o e A = (σ, l) → accepts o e A σ l e' A' → engine_inv e A → rejection o e A = None →
  small_book A → stp_pulls e = false → tracks (sink_ e) A →
  (match o with NLimit _ => f_trades σ ≠ [] ∧ f_remaining σ = 0 | NMarket _ => True end) →
  same_top (opposite (new_order_side o)) A A' → tracks (sink_ e') A'.
Proof.
  intros Em Ha Hi Hrej Hs Hst Ht Htr Htop. set (opp := opposite (new_order_side o)) in *.
  pose proof (fits_side opp A Hs (entries_bound _ _ Hi)) as Hfit.
  assert (Hann : ∀ s, pub_side s (deliver (sink_ e) (accepted_event o)) = pub_side s (sink_ e)).
  { intros s. eapply crossing_announced; try done. by destruct o; [destruct Htr|]. }
  assert (A' = ab_set opp l A) as ->.
  { destruct Ha as [_ Hb _ _ _ _ _ _]. unfold rests in Hb. destruct o as [lo|mo]; [|by destruct Hb].
    destruct Htr as [_ Hr]. rewrite Hr in Hb. by destruct Hb. }
  pose proof (fill_events_side now_ns send_fn (incoming_of o e) (top_price (ab_side opp A)) (ab_side opp A)
    (fills_start (new_order_quantity o) (next_trade_sequence_ e)) Hst Hfit) as Hev.
  unfold matched in Em. fold opp in Em. cbv zeta in Hev. rewrite Em in Hev.
  destruct Hev as (evs & Eev & Hev). cbn [fills_start f_events app] in Eev.
  assert (Hop : opposite opp = new_order_side o) by (unfold opp; by destruct (new_order_side o)).
  cbn [incoming_of in_side] in Hev. fold opp in Hev. rewrite Hop in Hev.
  destruct (Hev (deliver (sink_ e) (accepted_event o))) as [H1 H2].
  { rewrite Hann, (Ht opp). apply top_state_level. }
  { rewrite Hann. apply (tracks_apart e A (sink_ e) (new_order_side o) Hi Ht). }
  rewrite (ac_sink _ _ _ _ _ _ _ Ha). cbn [deliver_all foldl]. rewrite Eev. intros s. rewrite ab_side_set.
  destruct (decide (s = opp)) as [->|Hne].
  - etrans; [exact H1|]. apply level_state_top. unfold same_top in Htop. by rewrite ab_side_set_eq in Htop.
  - assert (s = new_order_side o) as -> by (unfold opp in Hne; by destruct s, (new_order_side o)).
    etrans; [exact H2|]. rewrite Hann. apply Ht.
Qed.

(** A cancel, likewise. *)
Lemma cancel_tracks e A s l1 slot r l2 :
  engine_inv e A → small_book A → tracks (sink_ e) A → ab_side s A = l1 ++ (slot, r) :: l2 →
  same_top s A (ab_set s (l1 ++ l2) A) →
  tracks (deliver (sink_ e) (EvCancelled (mkCancelled (r_id r) (r_quantity r) (r_side r) (r_price r)))) (ab_set s (l1 ++ l2) A).
Proof.
  intros Hi Hs Ht El Htop. set (k := top_price (ab_side s A)).
  assert (Er : r_side r = s) by (apply (engine_sides e A s (slot, r) Hi); rewrite El; set_solver).
  assert (Hp : ab_side s A ≡ₚ (slot, r) :: l1 ++ l2) by (rewrite El; symmetry; apply Permutation_middle).
  pose proof (fits_queue_perm _ _ Hp (fits_side s A Hs (entries_bound _ _ Hi))) as Hf.
  assert (Hst : pub_side s (sink_ e) = level_state k ((slot, r) :: l1 ++ l2)).
  { rewrite (Ht s), top_state_level. by apply level_state_perm. }
  intros s'. etrans; [by apply (cancelled_side now_ns send_fn s)|]. rewrite ab_side_set.
  destruct (decide (s' = s)) as [->|]; [|apply Ht]. cbn [oc_price oc_remaining_qty]. rewrite Hst, Z.eqb_sym.
  unfold same_top in Htop. rewrite ab_side_set_eq in Htop. fold k in Htop. etrans; [|by apply (level_state_top k)].
  destruct (Z.eq_dec (r_price r) k) as [Ek|Ek].
  - rewrite Ek, level_state_hits by done. rewrite <- Ek. apply (reduce_gone (slot, r)). exact Hf.
  - rewrite level_state_misses by done. by apply level_state_other.
Qed.

(** ** Commands the events tell the whole truth about *)

(** The best level of [s] is the one it was, or the side is empty. *)
Definition kept_top (s : Side) e e' : Prop :=
  best_level s (book_ e') = None ∨ best_level s (book_ e') = best_level s (book_ e).

(** The command emptied no best level that had others behind it, and, being a
    limit order that traded, left no remainder. *)
Definition keeps_top (c : EngineCommand) (r : EngineResponse) e e' : Prop :=
  match c with
  | CLimit o => kept_top (opposite (lo_side o)) e e' ∧ (trades r = [] ∨ remaining_qty r = 0)
  | CMarket o => kept_top (opposite (mo_side o)) e e'
  | CCancel _ => kept_top Buy e e' ∧ kept_top Sell e e'
  end.

Lemma kept_same_top s e e' A A' : engine_inv e A → engine_inv e' A' → kept_top s e e' → same_top s A A'.
Proof.
  intros Hi Hi' Hk. unfold kept_top in Hk. rewrite (best_level_spec _ _ s (ei_book _ _ Hi)), (best_level_spec _ _ s (ei_book _ _ Hi')) in Hk.
  unfold same_top. destruct (ab_side s A') as [|x l]; [by left|]. destruct (ab_side s A) as [|y q]; destruct Hk as [?|?]; simplify_eq; by right.
Qed.

Definition small_command (c : EngineCommand) : Prop :=
  match c with CLimit o => lo_quantity o < 4294967296 | _ => True end.

(** What is known of an engine between two such commands. *)
Record followed_inv e A : Prop := {
  fo_engine : engine_inv e A; fo_small : small_book A; fo_tracks : tracks (sink_ e) A; fo_pulls : stp_pulls e = false }.

Lemma submit_follows o e A r e' :
  followed_inv e A → wf_new_order o → small_order o → next_sequence_ e < 18446744073709551615 →
  submit (Ok true) o e = Ok (r, e') →
  (match o with NLimit _ => trades r = [] ∨ remaining_qty r = 0 | NMarket _ => True end) →
  kept_top (opposite (new_order_side o)) e e' →
  ∃ A', followed_inv e' A' ∧ next_sequence_ e' <= next_sequence_ e + 1.
Proof.
  intros [Hi Hs Ht Hp] Hwf Ho Hn E Hr Hk. pose proof (submit_spec o e A Hi Hwf Hn) as Hsp.
  destruct (rejection o e A) eqn:Er; [rewrite E in Hsp; simplify_eq; exists A; split; [by split|lia]|].
  destruct (matched o e A) as [σ l] eqn:Em. destruct Hsp as (e2 & A' & E2 & Ha). rewrite E in E2. simplify_eq.
  cbn [trades remaining_qty] in Hr. exists A'. split; [|apply Ha]. pose proof (ac_inv _ _ _ _ _ _ _ Ha) as Hi'.
  pose proof (kept_same_top _ _ _ _ _ Hi Hi' Hk) as Htop. split; [done|by eapply accepts_small| |].
  - destruct o as [lo|mo]; [|by eapply sweeping_tracks].
    destruct (decide (f_trades σ = [])) as [En|En]; [eapply resting_tracks; eauto|].
    destruct Hr as [?|Hr]; [done|]. by eapply sweeping_tracks.
  - unfold stp_pulls in *. by rewrite (ac_stp _ _ _ _ _ _ _ Ha).
Qed.

Lemma cancel_follows id e A r e' :
  followed_inv e A → cancel id e = Ok (r, e') → kept_top Buy e e' → kept_top Sell e e' →
  ∃ A', followed_inv e' A' ∧ next_sequence_ e' <= next_sequence_ e + 1.
Proof.
  intros [Hi Hs Ht Hp] E Hb Ha. pose proof (cancel_spec id e A Hi) as Hc. destruct (orders_ (book_ e) !! id) as [slot|].
  2:{ rewrite E in Hc. simplify_eq. exists A. split; [by split|lia]. }
  destruct Hc as (s & l1 & ro & l2 & e2 & El & Er & E2 & Hi' & _ & Hsk & _ & Eq & _ & Es & _).
  rewrite E in E2. simplify_eq. exists (ab_set s (l1 ++ l2) A). split; [|lia].
  assert (Htop : same_top s A (ab_set s (l1 ++ l2) A)) by (apply (kept_same_top s e e2); try done; by destruct s).
  split; [done| | |].
  - intros x. rewrite (ab_entries_perm s), ab_side_set_eq, ab_side_set_opp. intros Hx. apply Hs. rewrite (ab_entries_perm s), El. set_solver.
  - rewrite Hsk. by apply (cancel_tracks e A s l1 slot ro l2).
  - unfold stp_pulls in *. by rewrite Es.
Qed.

(** Runs of such commands from a fresh engine wired to a fresh publisher. *)
Inductive followed (symbol : Z) (subscribers : list Z) (interval : Z) (capacity : nat) (stp : StpConfig)
    : nat → MatchingEngine UdpFeedPublisher → Prop :=
| followed_new :
    followed symbol subscribers interval capacity stp 0
      (MatchingEngine_new (UdpFeedPublisher_new symbol subscribers interval) capacity stp)
| followed_call n e c r e' :
    followed symbol subscribers interval capacity stp n e → wf_command c → small_command c →
    engine_call (Ok true) c e = Ok (r, e') → keeps_top c r e e' →
    followed symbol subscribers interval capacity stp (S n) e'.

Lemma followed_run symbol subscribers interval capacity stp n e :
  Z.of_nat capacity < 4294967296 → stp_enabled stp && bool_decide (stp_policy stp = CancelResting) = false →
  followed symbol subscribers interval capacity stp n e → Z.of_nat n < 18446744073709551615 →
  ∃ A, followed_inv e A ∧ next_sequence_ e <= Z.of_nat n.
Proof.
  intros Hc Hst. induction 1 as [|n e c r e' _ IH Hwf Hsm E Hk]; intros Hn.
  - exists (mkABook [] []). split; [|done]. split; [by apply new_inv| |by intros []|done].
    intros x Hx. by apply elem_of_nil in Hx.
  - destruct IH as (A & Hf & Hs); [lia|].
    assert (∃ A', followed_inv e' A' ∧ next_sequence_ e' <= next_sequence_ e + 1) as (A' & Hf' & Hs').
    { destruct c as [o|o|[id]]; simpl in *.
      - destruct Hk as [Hk Hr]. by eapply (submit_follows (NLimit o)); eauto; lia.
      - by eapply (submit_follows (NMarket o)); eauto; lia.
      - destruct Hk. by eapply cancel_follows. }
    exists A'. split; [done|lia].
Qed.

(** ** The top of the engine's book *)

(** Price and quantity of the best level of a side, zeros for an empty one. *)
Definition level_top (s : Side) (b : OrderBook) : outcome (Z * Z) :=
  match best_level s b with
  | None => Ok (0, 0)
  | Some lp => lv ← deref_level lp b; Ok (price_ lv, total_quantity lv)
  end.

Definition book_top (b : OrderBook) : outcome TopOfBook :=
  '(bid_p, bid_q) ← level_top Buy b;
  '(ask_p, ask_q) ← level_top Sell b;
  Ok (mkTop bid_p bid_q ask_p ask_q).

Lemma level_top_spec s b A :
  book_rep b A → fits_queue (ab_side s A) →
  level_top s b = Ok (ss_price (top_state (ab_side s A)), ss_qty (top_state (ab_side s A))).
Proof.
  intros Hb Hf. unfold level_top. rewrite (best_level_spec _ _ s Hb). pose proof (br_side _ _ Hb s) as Hs.
  destruct (ab_side s A) as [|x l]; [done|]. apply side_front in Hs as (lv & t2 & q2 & a2 & Et & (Hl & _ & Hk) & Hr & -> & Hm & _).
  unfold deref_level. cbn [fst snd]. rewrite Et. cbn [map_find]. simpl. rewrite Z.eqb_refl. simpl.
  destruct Hl as [_ _ Hp _ _ Htot]. unfold total_quantity. rewrite Hp, Htot. cbn [snd].
  assert (Hq : filter (λ y, r_price y.2 = r_price x.2) (x :: q2 ++ concat a2.*2) = x :: q2).
  { rewrite app_comm_cons, filter_app, filter_all, filter_none, app_nil_r; [done| |].
    - apply Forall_forall. intros y Hy Ey. apply map_sorted_cons in Hm as [_ Hm].
      destruct (levels_entry _ _ _ _ _ Hr Hy) as [Hy' _]. specialize (Hm _ Hy'). rewrite Ey in Hm. by rewrite ltb_irrefl in Hm.
    - eapply Forall_impl; [exact Hk|]. by intros y [? _]. }
  unfold top_state, level_state. rewrite Hq, decide_False by done. cbn [ss_price ss_qty].
  unfold queue_quantity. rewrite wrap64_small; [done|].
  destruct (level_rest_bound (r_price x.2) (x :: q2 ++ concat a2.*2) Hf) as [Hs Hc]. unfold level_rest in Hs, Hc.
  rewrite Hq in Hs, Hc. cbn [fst snd] in Hs, Hc. unfold in_u64. lia.
Qed.

(** C29. The published top of book is the book's.  Four conditions on the run: self-trade prevention is off or
    rejects the incoming order (it does not pull resting orders, [CancelResting]); every limit order is for less
    than [2^32]; no command empties a best level that has others behind it; and no limit order that traded leaves
    a remainder.  Then the best prices and their total quantities the publisher last published are those of the
    engine's book, after every command. *)
Theorem feed_shows_top_of_book symbol subscribers interval capacity stp n e :
  Z.of_nat capacity < 4294967296 → stp_enabled stp && bool_decide (stp_policy stp = CancelResting) = false →
  followed symbol subscribers interval capacity stp n e → Z.of_nat n < 18446744073709551615 →
  book_top (book_ e) = Ok (current_top_of_book (sink_ e)).
Proof.
  intros Hc Hst Hr Hn. destruct (followed_run _ _ _ _ _ _ _ Hc Hst Hr Hn) as (A & [Hi Hs Ht _] & _).
  assert (Hf : ∀ s, fits_queue (ab_side s A)) by (intros s; apply fits_side; [done|by eapply entries_bound]).
  unfold book_top. rewrite (level_top_spec Buy _ A (ei_book _ _ Hi) (Hf Buy)), (level_top_spec Sell _ A (ei_book _ _ Hi) (Hf Sell)).
  cbn [mbind outcome_bind]. unfold current_top_of_book. by rewrite (Ht Buy : bid_ _ = _), (Ht Sell : ask_ _ = _).
Qed.
End Commands.

(** ** Witness: two orders rest, a third takes part of one *)

#[local] Instance demo_sink : EventSink UdpFeedPublisher := feed_sink (λ _, 0) (λ _ _, 1).

Definition follow_start : MatchingEngine UdpFeedPublisher :=
  MatchingEngine_new (UdpFeedPublisher_new 1 [7] 500) 8 StpConfig_default.

Definition follow_commands : list EngineCommand :=
  [CLimit (mkLimit 1 Sell 100 10 1); CLimit (mkLimit 1 Buy 95 7 2); CLimit (mkLimit 1 Buy 100 4 3)].

Definition follow_engine (n : nat) : MatchingEngine UdpFeedPublisher :=
  match run_calls (take n follow_commands) follow_start with Ok e => e | _ => follow_start end.

Definition follow_response (n : nat) : EngineResponse :=
  match follow_commands !! n with
  | Some c => match engine_call (Ok true) c (follow_engine n) with Ok (r, _) => r | _ => mkResponse InternalError [] 0 0 end
  | None => mkResponse InternalError [] 0 0
  end.

Lemma feed_shows_top_of_book_witness :
  book_top (book_ (follow_engine 3)) = Ok (current_top_of_book (sink_ (follow_engine 3))) ∧
  current_top_of_book (sink_ (follow_engine 3)) = mkTop 95 7 100 6.
Proof.
  split; [|vm_compute; reflexivity].
  apply (feed_shows_top_of_book (λ _, 0) (λ _ _, 1) 1 [7] 500 8 StpConfig_default 3); [vm_compute; reflexivity..| |vm_compute; reflexivity].
  apply (followed_call _ _ 1 [7] 500 8 StpConfig_default 2 (follow_engine 2) (CLimit (mkLimit 1 Buy 100 4 3)) (follow_response 2));
    [|unfold wf_command, wf_new_order, in_u64, in_i64; simpl; lia|simpl; lia|vm_compute; reflexivity|
      split; [right|right]; vm_compute; reflexivity].
  apply (followed_call _ _ 1 [7] 500 8 StpConfig_default 1 (follow_engine 1) (CLimit (mkLimit 1 Buy 95 7 2)) (follow_response 1));
    [|unfold wf_command, wf_new_order, in_u64, in_i64; simpl; lia|simpl; lia|vm_compute; reflexivity|
      split; [right|left]; vm_compute; reflexivity].
  apply (followed_call _ _ 1 [7] 500 8 StpConfig_default 0 (follow_engine 0) (CLimit (mkLimit 1 Sell 100 10 1)) (follow_response 0));
    [apply followed_new|unfold wf_command, wf_new_order, in_u64, in_i64; simpl; lia|simpl; lia|vm_compute; reflexivity|
      split; [right|left]; vm_compute; reflexivity].
Defined.

(** ** Where it stops being right *)

(** After a drained level the next order at any price is published as the
    best: with offers at 100 and 105, the 100 bought and an offer at 110 added,
    the book's best ask is 105 and the publisher's 110. *)
Theorem drained_side_shows_worse_price :
  ∃ e, run_calls [CLimit (mkLimit 1 Sell 100 10 1); CLimit (mkLimit 2 Sell 105 10 1); CMarket (mkMarket 1 Buy 10 2);
                  CLimit (mkLimit 3 Sell 110 10 1)] follow_start = Ok e ∧
    book_top (book_ e) = Ok (mkTop 0 0 105 10) ∧ current_top_of_book (sink_ e) = mkTop 0 0 110 10.
Proof. vm_compute. eexists. split_and!; reflexivity. Qed.
