(* ===== verification/LatencyRecorder.v ===== *)
(** * LatencyRecorder: apps/benchmark/latency_recorder.cpp

    Samples are nanosecond counts ([int64_t]); the statistics are binary64.
    [std::sort] is a merge sort by [<=].  The 99th percentile's index goes
    through a product in binary64 and a ceiling; it is a valid index for every
    number of samples below [2^53]. *)
From Corelib Require Import SpecFloat.
From S2P Require Import Prelude Core OrderBook MatchingEngine EngineApi Doubles RiskEngine Strategy.

Record LatencyRecorder := mkRecorder { samples_ : list Z }.

Definition LatencyRecorder_new : LatencyRecorder := mkRecorder [].

Definition recorder_record (duration : Z) (r : LatencyRecorder) : LatencyRecorder := mkRecorder (samples_ r ++ [duration]).

Definition recorder_count (r : LatencyRecorder) : Z := Z.of_nat (length (samples_ r)).

Definition double_div (x y : spec_float) : spec_float := SFdiv 53 1024 x y.

Definition double_add (x y : spec_float) : spec_float := SFadd 53 1024 x y.

(** [std::accumulate] in [std::chrono::nanoseconds]: signed overflow is undefined. *)
Fixpoint accumulate (l : list Z) (sum : Z) : outcome Z :=
  match l with
  | [] => Ok sum
  | d :: l => sum ← i64_add sum d; accumulate l sum
  end.

Definition avg_ns (r : LatencyRecorder) : outcome spec_float :=
  match samples_ r with
  | [] => Ok (S754_zero false)
  | _ =>
      sum ← accumulate (samples_ r) 0;
      Ok (double_div (double_of_int sum) (double_of_int (recorder_count r)))
  end.

Definition sorted_samples (r : LatencyRecorder) : list Z := merge_sort Z.le (samples_ r).

Definition sample_at (i : Z) (l : list Z) : outcome Z :=
  if Z.ltb i 0 then Undefined else deref (l !! Z.to_nat i).

Definition median_ns (r : LatencyRecorder) : outcome spec_float :=
  match samples_ r with
  | [] => Ok (S754_zero false)
  | _ =>
      let sorted := sorted_samples r in
      let n := recorder_count r in
      if Z.eqb (n mod 2) 1 then
        x ← sample_at (n / 2) sorted; Ok (double_of_int x)
      else
        x ← sample_at (n / 2 - 1) sorted;
        y ← sample_at (n / 2) sorted;
        Ok (double_div (double_add (double_of_int x) (double_of_int y)) (double_of_int 2))
  end.

(** [static_cast<std::size_t>(std::ceil(x))]; undefined where the value does not fit. *)
Definition ceil_size (x : spec_float) : option Z :=
  match x with
  | S754_zero _ => Some 0
  | S754_finite false m e =>
      let n := if Z.leb 0 e then Zpos m * 2 ^ e else (Zpos m + (2 ^ (- e) - 1)) / 2 ^ (- e) in
      if Z.ltb n 18446744073709551616 then Some n else None
  | S754_finite true m e => if Z.ltb e 0 && Z.ltb (Zpos m) (2 ^ (- e)) then Some 0 else None
  | _ => None
  end.

(** 0.99 as a binary64. *)
Definition pct_99 : spec_float := S754_finite false 8917127262193582 (-53).

Definition p99_index (n : Z) : outcome Z :=
  c ← deref (ceil_size (double_mul pct_99 (double_of_int n))); Ok (u64_sub c 1).

Definition p99_ns (r : LatencyRecorder) : outcome spec_float :=
  match samples_ r with
  | [] => Ok (S754_zero false)
  | _ =>
      index ← p99_index (recorder_count r);
      x ← sample_at index (sorted_samples r);
      Ok (double_of_int x)
  end.

Definition max_ns (r : LatencyRecorder) : spec_float :=
  match samples_ r with
  | [] => S754_zero false
  | x :: l => double_of_int (foldl Z.max x l)
  end.

(** ** The percentile's index *)

Lemma pow_split a b : 0 <= a → 0 <= b → 2 ^ (a + b) = 2 ^ a * 2 ^ b.
Proof. intros. by apply Z.pow_add_r. Qed.

Lemma ceil_bounds m e k n :
  e <= 1 → k <= e → k <= 0 → Zpos m * 2 ^ (e - k) <= n * 2 ^ (- k) → 0 < n < 2 ^ 53 →
  ∃ c, ceil_size (S754_finite false m e) = Some c ∧ 1 <= c <= n.
Proof.
  intros He Hk Hk0 Hle Hn. unfold ceil_size.
  set (c := if Z.leb 0 e then _ else _). assert (Hc : 1 <= c <= n).
  { unfold c. destruct (Z.leb_spec 0 e).
    - split; [nia|]. apply Z.mul_le_mono_pos_r with (2 ^ (- k)); [lia|].
      rewrite <- Z.mul_assoc, <- pow_split by lia. replace (e + - k) with (e - k) by lia. done.
    - assert (Hm : Zpos m <= n * 2 ^ (- e)).
      { apply Z.mul_le_mono_pos_r with (2 ^ (e - k)); [lia|]. rewrite <- Z.mul_assoc, <- pow_split by lia.
        replace (- e + (e - k)) with (- k) by lia. done. }
      split; [apply Z.div_le_lower_bound; lia|]. apply Z.lt_succ_r. apply Z.div_lt_upper_bound; lia. }
  exists c. rewrite (proj2 (Z.ltb_lt _ _)) by lia. done.
Qed.

Lemma p99_index_in_range n : 0 < n < 2 ^ 53 → ∃ i, p99_index n = Ok i ∧ 0 <= i < n.
Proof.
  intros Hn. destruct (of_int_exact n Hn) as (m & e & Em & He & Hm & Emn). unfold p99_index, double_of_int. rewrite Em.
  unfold double_mul, pct_99. cbn [SFmul xorb].
  set (P := Zpos (8917127262193582 * m)). assert (HP : P = 8917127262193582 * Zpos m) by done.
  assert (Hlo : 2 ^ 104 <= P) by (rewrite HP; change (2 ^ 104) with (2 ^ 52 * 2 ^ 52); apply Z.mul_le_mono_nonneg; lia).
  assert (Hhi : P < 2 ^ 106) by (rewrite HP; change (2 ^ 106) with (2 ^ 53 * 2 ^ 53); apply Z.mul_lt_mono_nonneg; lia).
  pose proof (digits2_le P 106 ltac:(lia) ltac:(lia) Hhi) as Hd. pose proof (digits2_lt P ltac:(lia)) as Hd2.
  assert (Hd3 : 105 <= Zdigits2 P).
  { destruct (Z.le_gt_cases 105 (Zdigits2 P)) as [|Hx]; [done|].
    assert (2 ^ Zdigits2 P <= 2 ^ 104) by (apply Z.pow_le_mono_r; lia). lia. }
  set (E := -53 + e). assert (Hk : Z.max E (SpecFloat.fexp 53 1024 (Zdigits2 P + E)) = E + (Zdigits2 P - 53)).
  { unfold SpecFloat.fexp, emin, E. lia. }
  set (k := E + (Zdigits2 P - 53)) in *.
  assert (Hq : P / 2 ^ (k - E) + 1 <= n * 2 ^ (- k)).
  { apply Z.le_succ_l. apply Z.div_lt_upper_bound; [lia|].
    replace (2 ^ (k - E) * (n * 2 ^ (- k))) with (2 ^ 53 * Zpos m); [lia|].
    rewrite Emn. replace (2 ^ 53 * (n * 2 ^ (- e))) with (n * (2 ^ 53 * 2 ^ (- e))) by lia.
    replace (2 ^ (k - E) * (n * 2 ^ (- k))) with (n * (2 ^ (k - E) * 2 ^ (- k))) by lia.
    rewrite <- !pow_split by lia. do 2 f_equal. unfold E. lia. }
  destruct (binary_round_aux_spec false P E (e + 53) loc_Exact) as [[_ H0]|(m' & e' & -> & He' & Hle)]; try (unfold E; lia).
  { replace (e + 53 - E) with 106 by (unfold E; lia). done. }
  { exfalso. rewrite Hk in H0. apply Z.div_small_iff in H0; [|lia].
    assert (2 ^ (k - E) <= 2 ^ 53) by (apply Z.pow_le_mono_r; lia).
    assert (2 ^ 53 <= 2 ^ 104) by (apply Z.pow_le_mono_r; lia). lia. }
  rewrite Hk in He', Hle. destruct (ceil_bounds m' e' k n) as (c & Ec & Hc); [unfold E in *; lia..|lia|done|].
  rewrite Ec. cbn [deref mbind outcome_bind]. exists (c - 1). split; [|lia]. f_equal. apply u64_sub_small; u64; lia.
Qed.

(** ** The statistics are of the samples recorded *)

#[local] Instance Z_le_total : Total Z.le.
Proof. intros x y. lia. Qed.

Lemma sorted_samples_perm r : sorted_samples r ≡ₚ samples_ r.
Proof. apply merge_sort_Permutation. Qed.

Lemma sorted_samples_sorted r : StronglySorted Z.le (sorted_samples r).
Proof. apply (StronglySorted_merge_sort Z.le). Qed.

Lemma sample_at_in_range i r :
  0 <= i < recorder_count r → ∃ x, sample_at i (sorted_samples r) = Ok x ∧ sorted_samples r !! Z.to_nat i = Some x.
Proof.
  unfold recorder_count, sample_at. intros Hi. rewrite <- (Permutation_length (sorted_samples_perm r)) in Hi.
  destruct (lookup_lt_is_Some_2 (sorted_samples r) (Z.to_nat i)) as [x E]; [lia|].
  exists x. rewrite (proj2 (Z.ltb_ge i 0)) by lia. by rewrite E.
Qed.

(** The 99th percentile of a recorder with fewer than 2^53 samples is one of
    them, and its rank is the index the code computes. *)
Theorem p99_is_a_sample r :
  samples_ r ≠ [] → recorder_count r < 2 ^ 53 →
  ∃ i x, p99_index (recorder_count r) = Ok i ∧ 0 <= i < recorder_count r
    ∧ sorted_samples r !! Z.to_nat i = Some x ∧ x ∈ samples_ r ∧ p99_ns r = Ok (double_of_int x).
Proof.
  intros Hne Hn. assert (0 < recorder_count r) by (unfold recorder_count; destruct (samples_ r); [done|cbn; lia]).
  destruct (p99_index_in_range (recorder_count r)) as (i & Ei & Hi); [lia|].
  destruct (sample_at_in_range i r Hi) as (x & Ex & El). exists i, x. repeat split; [done|lia..|done| |].
  - rewrite <- sorted_samples_perm. by eapply list_elem_of_lookup_2.
  - unfold p99_ns. destruct (samples_ r); [done|]. rewrite Ei. cbn [mbind outcome_bind]. by rewrite Ex.
Qed.

(** The median of any recorder is defined. *)
Theorem median_returns r : ∃ v, median_ns r = Ok v.
Proof.
  unfold median_ns. destruct (samples_ r) as [|z l] eqn:E; [by eexists|].
  assert (0 < recorder_count r) by (unfold recorder_count; rewrite E; cbn; lia).
  assert (Hh : 0 <= recorder_count r / 2 < recorder_count r) by (split; [apply Z.div_pos|apply Z.div_lt]; lia).
  pose proof (Z.div_mod (recorder_count r) 2 ltac:(lia)) as Hd. pose proof (Z.mod_pos_bound (recorder_count r) 2 ltac:(lia)).
  destruct (sample_at_in_range _ r Hh) as (y & Ey & _).
  destruct (Z.eqb_spec (recorder_count r mod 2) 1); [rewrite Ey; by eexists|].
  destruct (sample_at_in_range (recorder_count r / 2 - 1) r) as (x & Ex & _); [lia|].
  rewrite Ex. cbn [mbind outcome_bind]. rewrite Ey. by eexists.
Qed.

Lemma foldl_max_spec l x : (∀ y, y ∈ x :: l → y <= foldl Z.max x l) ∧ foldl Z.max x l ∈ x :: l.
Proof.
  revert x. induction l as [|z l IH]; intros x; cbn [foldl].
  - split; [intros y Hy; apply list_elem_of_singleton in Hy; lia|set_solver].
  - destruct (IH (Z.max x z)) as [Hub Hin]. split.
    + intros y [->|[->|Hy]%elem_of_cons]%elem_of_cons.
      * specialize (Hub (Z.max x z) ltac:(set_solver)). lia.
      * specialize (Hub (Z.max x z) ltac:(set_solver)). lia.
      * apply Hub. set_solver.
    + apply elem_of_cons in Hin as [E|Hin]; [|set_solver]. rewrite E. destruct (Z.max_spec x z) as [[_ ->]|[_ ->]]; set_solver.
Qed.

(** The maximum is the largest sample recorded. *)
Theorem max_is_largest r :
  samples_ r ≠ [] → ∃ x, max_ns r = double_of_int x ∧ x ∈ samples_ r ∧ ∀ y, y ∈ samples_ r → y <= x.
Proof.
  intros Hne. unfold max_ns. destruct (samples_ r) as [|x l]; [done|].
  destruct (foldl_max_spec l x) as [Hub Hin]. by exists (foldl Z.max x l).
Qed.
