(* ===== verification/LatencyBench.v ===== *)
(** * LatencyBench: apps/benchmark/latency_bench.cpp and the throughput measurement of main.cpp

    The readings of [steady_clock::now] are a parameter.  A benchmark builds a
    fresh engine per iteration, prepares it untimed, and times one call; here
    the prepared engine and the timed call of an iteration are separate
    definitions, so that what is timed can be stated. *)
From Corelib Require Import SpecFloat.
From S2P Require Import Prelude Core StdMap OrderPool PriceLevel OrderBook MatchingEngine.
From S2P Require Import ClientIndex MatchingSpec MatchingRefine EngineInvariant EngineRefine EngineTheorems.
From S2P Require Import EngineApi Doubles RiskEngine Strategy Workload WorkloadTheorems LatencyRecorder.

Definition kBenchPoolCapacity : nat := Z.to_nat 4096.

Definition kQueueDepth : nat := 100.

Definition bench_engine : MatchingEngine unit := MatchingEngine_new tt kBenchPoolCapacity StpConfig_default.

Section Bench.
Variable freed_empty : outcome bool.
(** The n-th reading of the clock, in nanoseconds. *)
Variable now : nat → Z.

(** ** What an iteration prepares and what it times *)

(** The untimed loop: orders [order j], [order (j+1)], ... are submitted. *)
Fixpoint submit_each (order : Z → LimitOrder) (n : nat) (j : Z) (e : MatchingEngine unit)
    : outcome (MatchingEngine unit) :=
  match n with
  | O => Ok e
  | S n => '(_, e) ← submit freed_empty (NLimit (order j)) e; submit_each order n (j + 1) e
  end.

Definition add_no_match_once : outcome (EngineResponse * MatchingEngine unit) :=
  submit freed_empty (NLimit (mkLimit 1 Buy 10000 100 0)) bench_engine.

Definition resting_sell (j : Z) : LimitOrder := mkLimit (u64_add j 1) Sell (to_i64 (u64_add 10000 j)) 10 0.

Definition aggressive_buy (fill_count : Z) : LimitOrder :=
  mkLimit (u64_add fill_count 1) Buy (to_i64 (u64_sub (u64_add 10000 fill_count) 1)) (wrap64 (10 * fill_count)) 0.

Definition add_with_match_once (fill_count : nat) : outcome (EngineResponse * MatchingEngine unit) :=
  e ← submit_each resting_sell fill_count 0 bench_engine;
  submit freed_empty (NLimit (aggressive_buy (Z.of_nat fill_count))) e.

Definition queued_buy (j : Z) : LimitOrder := mkLimit (u64_add j 1) Buy 10000 10 0.

Definition cancel_once (front_of_queue : bool) : outcome (EngineResponse * MatchingEngine unit) :=
  e ← submit_each queued_buy kQueueDepth 0 bench_engine;
  cancel (if front_of_queue then 1 else Z.of_nat kQueueDepth) e.

(** ** The loops: one recorded sample per iteration *)

(** The recorder and how often the clock has been read. *)
Record BenchState := mkBenchState { bn_recorder : LatencyRecorder; bn_readings : nat }.

Definition record_elapsed (s : BenchState) : outcome BenchState :=
  d ← i64_sub (now (S (bn_readings s))) (now (bn_readings s));
  Ok (mkBenchState (recorder_record d (bn_recorder s)) (S (S (bn_readings s)))).

Fixpoint bench_loop {X} (once : outcome X) (iterations : nat) (s : BenchState) : outcome BenchState :=
  match iterations with
  | O => Ok s
  | S iterations => _ ← once; s ← record_elapsed s; bench_loop once iterations s
  end.

Definition bench_add_no_match (iterations : nat) : BenchState → outcome BenchState :=
  bench_loop add_no_match_once iterations.

Definition bench_add_with_match (iterations fill_count : nat) : BenchState → outcome BenchState :=
  bench_loop (add_with_match_once fill_count) iterations.

Definition bench_cancel (iterations : nat) (front_of_queue : bool) : BenchState → outcome BenchState :=
  bench_loop (cancel_once front_of_queue) iterations.
End Bench.

(** ** Every iteration adds the elapsed time of its call *)

Definition elapsed (now : nat → Z) (readings : nat) (i : nat) : Z :=
  now (S (readings + 2 * i)) - now (readings + 2 * i)%nat.

Lemma elapsed_first now readings : elapsed now readings 0 = now (S readings) - now readings.
Proof. unfold elapsed. by rewrite Nat.mul_0_r, Nat.add_0_r. Qed.

(** A clock that does not leave [int64_t] between two readings. *)
Definition clock_fits (now : nat → Z) : Prop := ∀ k, in_i64 (now (S k) - now k).

Lemma i64_sub_fits a b : in_i64 (a - b) → i64_sub a b = Ok (a - b).
Proof. u64. intros Hab. unfold i64_sub. by rewrite (proj2 (Z.leb_le _ _)), (proj2 (Z.ltb_lt _ _)) by lia. Qed.

Lemma bench_loop_samples {X} now (once : outcome X) x iterations s :
  clock_fits now → once = Ok x →
  bench_loop now once iterations s =
    Ok (mkBenchState (mkRecorder (samples_ (bn_recorder s) ++ (elapsed now (bn_readings s) <$> seq 0 iterations)))
                (bn_readings s + 2 * iterations)).
Proof.
  intros Hc ->. revert s. induction iterations as [|n IH]; intros [[l] k]; cbn [bench_loop].
  { simpl. by rewrite app_nil_r, Nat.add_0_r. }
  cbn [mbind outcome_bind]. unfold record_elapsed. cbn [bn_readings bn_recorder].
  rewrite i64_sub_fits by apply Hc. cbn [mbind outcome_bind]. rewrite IH. cbn [bn_recorder bn_readings recorder_record samples_].
  do 2 f_equal; [|lia]. f_equal. rewrite <- app_assoc. f_equal. cbn [seq fmap list_fmap app]. f_equal.
  - by rewrite elapsed_first.
  - rewrite <- (fmap_S_seq 0 n), <- list_fmap_compose. apply list_fmap_ext. intros i j _. unfold elapsed. simpl.
    do 3 f_equal; lia.
Qed.

(** ** The timed order meets every resting sell *)

Definition sell_key (j : Z) : Z * Z * Z := (j + 1, 10000 + j, 10).

Definition entry_key (x : Entry) : Z * Z * Z := (r_id x.2, r_price x.2, r_quantity x.2).

(** After [k] untimed orders: the sells rest in ascending order, nothing else. *)
Record sells_rest (k : Z) (e : MatchingEngine unit) (A : ABook) : Prop := {
  sr_inv : engine_inv e A;
  sr_bids : ab_bids A = [];
  sr_asks : entry_key <$> ab_asks A = sell_key <$> seqZ 0 k;
  sr_stp : stp_ e = StpConfig_default;
  sr_mark w : last_accepted_id_ e !! 0 = Some w → w <= k;
  sr_seq : next_sequence_ e <= k;
  sr_tseq : next_trade_sequence_ e = 0;
  sr_cap : capacity_ (pool_ (book_ e)) = kBenchPoolCapacity }.

Lemma sells_rest_start : sells_rest 0 bench_engine (mkABook [] []).
Proof. split; try done. by apply new_inv. Qed.

Lemma sells_rest_count k e A : 0 <= k → sells_rest k e A → length (ab_entries A) = Z.to_nat k.
Proof.
  intros Hk [_ Hb Ha _ _ _ _ _]. apply (f_equal length) in Ha. rewrite !length_fmap, length_seqZ in Ha.
  unfold ab_entries. by rewrite Hb.
Qed.

(** An entry at no better price than any other joins the end. *)
Lemma priority_insert_last s x l :
  (∀ y, y ∈ l → tree_lt s (r_price x.2) (r_price y.2) = false) → priority_insert s x l = l ++ [x].
Proof.
  induction l as [|y l IH]; intros Hl; [done|]. cbn [priority_insert app].
  rewrite Hl by set_solver. rewrite IH by set_solver. done.
Qed.

Lemma resting_sell_eq j : 0 <= j < 4096 → resting_sell j = mkLimit (j + 1) Sell (10000 + j) 10 0.
Proof.
  intros Hj. unfold resting_sell. rewrite !u64_add_small by (u64; lia). f_equal. unfold to_i64.
  by rewrite (proj2 (Z.ltb_lt _ _)) by lia.
Qed.

Lemma aggressive_buy_eq n : 1 <= n <= 4096 → aggressive_buy n = mkLimit (n + 1) Buy (10000 + n - 1) (10 * n) 0.
Proof.
  intros Hn. unfold aggressive_buy. rewrite !u64_add_small, u64_sub_small, wrap64_small by (u64; lia). f_equal.
  unfold to_i64. by rewrite (proj2 (Z.ltb_lt _ _)) by lia.
Qed.

(** Orders of the default client after the [k]-th pass every check while the pool has room. *)
Lemma bench_not_rejected k o e A :
  0 <= k → sells_rest k e A → new_order_owner o = 0 → new_order_id o = k + 1 → 0 < new_order_quantity o →
  (∀ p, new_order_limit o = Some p → 0 < p) → (k < 4096 ∨ new_order_limit o = None) →
  rejection o e A = None.
Proof.
  intros Hk Hs Ho Hid Hq Hp Hroom. pose proof (sells_rest_count _ _ _ Hk Hs) as Hlen. destruct Hs as [_ _ _ Hst Hm _ _ Hc].
  unfold rejection. rewrite (proj2 (Z.eqb_neq _ _)) by lia.
  assert (match new_order_limit o with Some p => Z.leb p 0 | None => false end = false) as ->.
  { destruct (new_order_limit o) as [p|]; [|done]. apply Z.leb_gt, Hp. done. }
  unfold is_duplicate. rewrite Ho, Hid, Hst, Hlen, Hc. cbn [stp_enabled StpConfig_default andb].
  assert (match last_accepted_id_ e !! 0 with Some w => Z.leb (k + 1) w | None => false end = false) as ->.
  { destruct (last_accepted_id_ e !! 0) as [w|]; [|done]. specialize (Hm w eq_refl). apply Z.leb_gt. lia. }
  destruct o as [o|o]; [|done]. simpl in Hroom. destruct Hroom as [Hroom|]; [|done].
  rewrite (proj2 (Nat.eqb_neq _ _)); [done|]. unfold kBenchPoolCapacity. lia.
Qed.

Lemma sell_rests k e A :
  0 <= k < 4096 → sells_rest k e A →
  ∃ r e' A', submit (Ok true) (NLimit (resting_sell k)) e = Ok (r, e') ∧ sells_rest (k + 1) e' A'.
Proof.
  intros Hk Hs. rewrite resting_sell_eq by done. set (o := NLimit (mkLimit (k + 1) Sell (10000 + k) 10 0)).
  assert (rejection o e A = None) as Hrej.
  { apply (bench_not_rejected k); try done; [lia|intros p [= <-]; lia|left; lia]. }
  destruct Hs as [Hi Hb Ha Hst Hm Hsq Hts Hc].
  pose proof (submit_spec o e A Hi) as Hsp. rewrite Hrej in Hsp. unfold matched in Hsp. cbn [new_order_side o opposite ab_side] in Hsp.
  change (lo_side _) with Sell in Hsp. cbn [opposite ab_side] in Hsp. rewrite Hb in Hsp. cbn [fill_queue] in Hsp.
  destruct Hsp as (e' & A' & E & Hacc); [unfold wf_new_order; u64; simpl; lia|lia|].
  eexists _, e', A'. split; [exact E|]. destruct Hacc as [Xi Xb _ Xm Xt Xs Xst Xc].
  unfold rests in Xb. cbn [o fills_start f_remaining new_order_quantity lo_quantity] in Xb.
  destruct Xb as (slot & _ & EA & _). cbn [lo_side lo_id lo_price lo_owner new_order_side opposite] in EA.
  assert (Easks : ab_asks A' = ab_asks A ++ [(slot, mkResting (k + 1) Sell (10000 + k) 10 (next_sequence_ e) 0)]).
  { rewrite EA. cbn [ab_set ab_side ab_asks ab_bids]. apply priority_insert_last. intros y Hy. cbn [r_price snd].
    apply (list_elem_of_fmap_2 entry_key) in Hy. rewrite Ha in Hy. apply list_elem_of_fmap in Hy as (j & Ej & Hj).
    apply elem_of_seqZ in Hj. injection Ej as _ Ep _. rewrite Ep. apply Z.ltb_ge. lia. }
  split; try done; try congruence; try lia.
  - by rewrite EA.
  - rewrite Easks, fmap_app, Ha. rewrite (seqZ_app 0 k 1) by lia. by rewrite fmap_app.
  - intros w. rewrite Xm, lookup_insert_eq. intros [= <-]. done.
  - by rewrite Xt.
Qed.

Lemma sells_rest_all n k e A :
  0 <= k → k + Z.of_nat n <= 4096 → sells_rest k e A →
  ∃ e' A', submit_each (Ok true) resting_sell n k e = Ok e' ∧ sells_rest (k + Z.of_nat n) e' A'.
Proof.
  revert k e A. induction n as [|n IH]; intros k e A Hk Hn Hs; cbn [submit_each].
  { exists e, A. by rewrite Z.add_0_r. }
  destruct (sell_rests k e A) as (r & e1 & A1 & -> & Hs1); [lia|done|]. cbn [mbind outcome_bind].
  destruct (IH (k + 1) e1 A1) as (e' & A' & -> & Hs'); [lia..|done|]. exists e', A'.
  replace (k + Z.of_nat (S n)) with (k + 1 + Z.of_nat n) by lia. done.
Qed.

(** The trades of the timed order: all of every sell, best price first. *)
Definition sweep_trade (n j : Z) : Trade := make_trade Buy (n + 1) j (j + 1) (10000 + j) 10 true.

Lemma sweep_fills n l j σ c :
  in_side c = Buy → in_id c = n + 1 → in_limit c = Some (10000 + n - 1) → in_cancel c = false →
  0 <= j → n < 4096 → entry_key <$> l = sell_key <$> seqZ j (n - j) →
  f_remaining σ = 10 * Z.of_nat (length l) → f_tseq σ = j →
  ∃ σ', fill_queue c l σ = (σ', []) ∧ f_remaining σ' = 0 ∧
    f_trades σ' = f_trades σ ++ (sweep_trade n <$> seqZ j (n - j)).
Proof.
  intros Hsd Hid Hlim Hcn. revert j σ. induction l as [|x l IH]; intros j σ Hj Hn Hl Hr Ht.
  - exists σ. destruct (decide (n - j <= 0)) as [Hle|Hgt].
    + rewrite seqZ_nil by lia. by rewrite app_nil_r.
    + rewrite seqZ_cons in Hl by lia. done.
  - destruct (decide (n - j <= 0)) as [Hle|Hgt]; [rewrite seqZ_nil in Hl by lia; done|].
    rewrite seqZ_cons in Hl by lia. cbn [fmap list_fmap] in Hl. injection Hl as Ei Ep Eq Hl.
    cbn [length] in Hr. cbn [fill_queue]. rewrite (proj2 (Z.leb_gt _ _)) by lia.
    rewrite Hsd, Hlim. cbn [limit_stops]. rewrite Ep. assert (Z.ltb (10000 + n - 1) (10000 + j) = false) as Hns by (apply Z.ltb_ge; lia).
    rewrite Hns. unfold is_own. rewrite Hcn. cbn [andb]. rewrite Eq, (proj2 (Z.ltb_ge _ _)) by lia.
    destruct (IH (Z.succ j) (trade_with c x 10 true σ)) as (σ' & E' & Hr' & Ht'); try lia.
    + rewrite Hl. do 2 f_equal. lia.
    + cbn [trade_with f_remaining]. lia.
    + cbn [trade_with f_tseq]. unfold TradeSequence_incr. rewrite Ht, u64_add_small by (u64; lia). done.
    + exists σ'. split; [done|]. split; [done|]. rewrite Ht'. cbn [trade_with f_trades].
      rewrite (seqZ_cons j) by lia. rewrite <- app_assoc. cbn [fmap list_fmap app]. unfold sweep_trade at 2.
      rewrite Hsd, Hid, Ht, Ei, Ep. do 3 f_equal. f_equal; lia.
Qed.

(** The prepared book is swept by the timed order. *)
Lemma add_with_match_sweeps fill_count :
  (1 <= fill_count < 4096)%nat →
  ∃ e, add_with_match_once (Ok true) fill_count =
     Ok (mkResponse Accepted (sweep_trade (Z.of_nat fill_count) <$> seqZ 0 (Z.of_nat fill_count)) 0
           (Z.of_nat fill_count + 1), e).
Proof.
  intros Hn. set (n := Z.of_nat fill_count).
  destruct (sells_rest_all fill_count 0 _ _ ltac:(lia) ltac:(lia) sells_rest_start) as (e & A & E & Hs).
  unfold add_with_match_once. rewrite E. cbn [mbind outcome_bind]. fold n. rewrite Z.add_0_l in Hs. fold n in Hs.
  rewrite aggressive_buy_eq by lia. set (o := NLimit _).
  assert (rejection o e A = None) as Hrej.
  { eapply (bench_not_rejected n); try done; [lia|unfold o; simpl; lia|intros p [= <-]; lia|left; lia]. }
  destruct Hs as [Hi Hb Ha Hst Hm Hsq Hts Hcp]. pose proof (submit_spec o e A Hi) as Hsp. rewrite Hrej in Hsp.
  unfold matched in Hsp. change (ab_side (opposite (new_order_side o)) A) with (ab_asks A) in Hsp.
  destruct (sweep_fills n (ab_asks A) 0 (fills_start (new_order_quantity o) (next_trade_sequence_ e)) (incoming_of o e))
    as (σ' & E' & Hr' & Ht'); try done; try lia.
  - unfold incoming_of, stp_pulls. cbn [in_cancel]. by rewrite Hst.
  - by rewrite Z.sub_0_r.
  - apply (f_equal length) in Ha. rewrite !length_fmap, length_seqZ in Ha. rewrite Ha. simpl. lia.
  - rewrite E' in Hsp. destruct Hsp as (e' & A' & Es & _); [unfold wf_new_order; u64; simpl; lia|lia|].
    exists e'. rewrite Es, Hr', Ht', Z.sub_0_r. done.
Qed.

Lemma bench_add_with_match_samples fill_count now iterations s :
  (1 <= fill_count < 4096)%nat → clock_fits now →
  bench_add_with_match (Ok true) now iterations fill_count s =
    Ok (mkBenchState (mkRecorder (samples_ (bn_recorder s) ++ (elapsed now (bn_readings s) <$> seq 0 iterations)))
                (bn_readings s + 2 * iterations)).
Proof. intros Hn Hc. destruct (add_with_match_sweeps fill_count Hn) as [e E]. exact (bench_loop_samples now _ _ iterations s Hc E). Qed.

(** What [bench_add_with_match] times is what its label says, for every number of fills its pool
    has room for: the order is accepted, trades all of each of the resting sells, in price order, and
    nothing of it is left; and the loop returns one sample per iteration, the time between the two clock
    readings around that call.  An erased level is taken to read as empty: with two fills or more the timed
    call reads one, so this is what the program measures where that read does no harm. *)
Theorem add_with_match_times_the_fills fill_count now iterations s :
  (1 <= fill_count < 4096)%nat → clock_fits now →
  (∃ e, add_with_match_once (Ok true) fill_count =
     Ok (mkResponse Accepted (sweep_trade (Z.of_nat fill_count) <$> seqZ 0 (Z.of_nat fill_count)) 0
           (Z.of_nat fill_count + 1), e)) ∧
  bench_add_with_match (Ok true) now iterations fill_count s =
    Ok (mkBenchState (mkRecorder (samples_ (bn_recorder s) ++ (elapsed now (bn_readings s) <$> seq 0 iterations)))
                (bn_readings s + 2 * iterations)).
Proof.
  intros Hn Hc. split; [by apply add_with_match_sweeps|by apply bench_add_with_match_samples].
Qed.

Lemma add_with_match_times_the_fills_witness :
  (∃ e, add_with_match_once (Ok true) 100 =
     Ok (mkResponse Accepted (sweep_trade 100 <$> seqZ 0 100) 0 101, e)) ∧
  bench_add_with_match (Ok true) Z.of_nat 3 100 (mkBenchState LatencyRecorder_new 0) = Ok (mkBenchState (mkRecorder [1; 1; 1]) 6).
Proof.
  apply (add_with_match_times_the_fills 100 Z.of_nat 3 (mkBenchState LatencyRecorder_new 0)); [lia|].
  intros k. u64. lia.
Defined.

(** What can be seen of a call: the answer and the ids in the book's index afterwards. *)
Definition seen (x : outcome (EngineResponse * MatchingEngine unit)) : outcome (EngineResponse * list Z) :=
  '(r, e) ← x; Ok (r, (map_to_list (orders_ (book_ e))).*1).

Lemma seen_ok x r ids : seen x = Ok (r, ids) → ∃ e, x = Ok (r, e) ∧ (map_to_list (orders_ (book_ e))).*1 = ids.
Proof. destruct x as [[r' e]| |]; [|done..]. intros [= <- <-]. by exists e. Qed.

(** With two fills or more the timed call reads an erased price level; on a strict reading of the
    language the measurement is undefined, with one fill it is not. *)
Theorem add_with_match_reads_erased_level :
  seen (add_with_match_once Undefined 1) = Ok (mkResponse Accepted [sweep_trade 1 0] 0 2, []) ∧
  seen (add_with_match_once Undefined 10) = Undefined.
Proof. split; vm_compute; reflexivity. Qed.

Lemma add_no_match_seen freed_empty : seen (add_no_match_once freed_empty) = Ok (mkResponse Accepted [] 100 1, [1]).
Proof. vm_compute. reflexivity. Qed.

Lemma cancel_seen freed_empty front :
  match seen (cancel_once freed_empty front) with
  | Ok (r, ids) => r = mkResponse Accepted [] 10 (if front then 1 else 100) ∧ merge_sort Z.le ids = if front then seqZ 2 99 else seqZ 1 99
  | _ => False
  end.
Proof. destruct front; vm_compute; split; reflexivity. Qed.

Lemma bench_add_no_match_samples freed_empty now iterations s :
  clock_fits now →
  bench_add_no_match freed_empty now iterations s =
    Ok (mkBenchState (mkRecorder (samples_ (bn_recorder s) ++ (elapsed now (bn_readings s) <$> seq 0 iterations)))
                (bn_readings s + 2 * iterations)).
Proof.
  intros Hc. destruct (seen_ok _ _ _ (add_no_match_seen freed_empty)) as (e & E & _).
  exact (bench_loop_samples now _ _ iterations s Hc E).
Qed.

Lemma cancel_finds_order freed_empty front :
  ∃ e, cancel_once freed_empty front = Ok (mkResponse Accepted [] 10 (if front then 1 else 100), e) ∧
       (map_to_list (orders_ (book_ e))).*1 ≡ₚ if front then seqZ 2 99 else seqZ 1 99.
Proof.
  pose proof (cancel_seen freed_empty front) as Hs. destruct (seen (cancel_once freed_empty front)) as [[r ids]| |] eqn:Eo; [|destruct Hs..].
  destruct Hs as [-> Hids]. destruct (seen_ok _ _ _ Eo) as (e & E & <-). exists e. split; [exact E|].
  rewrite <- Hids. symmetry. apply merge_sort_Permutation.
Qed.

Lemma bench_cancel_samples freed_empty now iterations front s :
  clock_fits now →
  bench_cancel freed_empty now iterations front s =
    Ok (mkBenchState (mkRecorder (samples_ (bn_recorder s) ++ (elapsed now (bn_readings s) <$> seq 0 iterations)))
                (bn_readings s + 2 * iterations)).
Proof.
  intros Hc. destruct (cancel_finds_order freed_empty front) as (e & E & _). exact (bench_loop_samples now _ _ iterations s Hc E).
Qed.

(** The two other benchmarks time what they say: an order that rests untouched in an empty book, and
    a cancel that finds its order at the front or the back of a queue of a hundred and leaves the
    others; each iteration records one sample. *)
Theorem no_match_and_cancel_time_their_call freed_empty now iterations front s :
  clock_fits now →
  (∃ e, add_no_match_once freed_empty = Ok (mkResponse Accepted [] 100 1, e)) ∧
  (∃ e, cancel_once freed_empty front = Ok (mkResponse Accepted [] 10 (if front then 1 else 100), e) ∧
        (map_to_list (orders_ (book_ e))).*1 ≡ₚ if front then seqZ 2 99 else seqZ 1 99) ∧
  ∃ s', bench_add_no_match freed_empty now iterations s = Ok s' ∧ bench_cancel freed_empty now iterations front s = Ok s' ∧
    recorder_count (bn_recorder s') = recorder_count (bn_recorder s) + Z.of_nat iterations.
Proof.
  intros Hc. destruct (seen_ok _ _ _ (add_no_match_seen freed_empty)) as (e1 & E1 & _).
  split; [exists e1; exact E1|]. split; [apply cancel_finds_order|].
  eexists. split; [exact (bench_add_no_match_samples freed_empty now iterations s Hc)|].
  split; [exact (bench_cancel_samples freed_empty now iterations front s Hc)|].
  unfold recorder_count. simpl. rewrite length_app, length_fmap, length_seq. lia.
Qed.

(** ** The sustained-throughput measurement *)

Definition throughput_config : WorkloadConfig :=
  mkWorkload 12345 10000 (S754_finite false 5404319552844595 (-54)) 1 100
    (S754_finite false 5404319552844595 (-53)) (S754_finite false 7205759403792794 (-56))
    (S754_finite false 5404319552844595 (-54)).

Definition kThroughputEvents : nat := Z.to_nat 100000.

Definition kThroughputRepetitions : nat := 10.

Definition kThroughputPoolCapacity : nat := Z.to_nat 262144.

(** The loop over the events; the answers are not looked at. *)
Fixpoint replay {Sk} `{EventSink Sk} (freed_empty : outcome bool) (events : list EngineCommand) (e : MatchingEngine Sk)
    : outcome (MatchingEngine Sk) :=
  match events with
  | [] => Ok e
  | c :: events => '(_, e) ← engine_call freed_empty c e; replay freed_empty events e
  end.

Definition throughput_engine : MatchingEngine unit := MatchingEngine_new tt kThroughputPoolCapacity StpConfig_default.

(** [duration<double>(ns).count()] and the rate of one repetition. *)
Definition seconds (ns : Z) : spec_float := double_div (double_of_int ns) (double_of_int 1000000000).

Definition ops_per_sec (ns : Z) : spec_float := double_div (double_of_int 100000) (seconds ns).

Definition better (best ops : spec_float) : spec_float := if SFltb best ops then ops else best.

Fixpoint throughput_reps (freed_empty : outcome bool) (now : nat → Z) (events : list EngineCommand) (reps readings : nat)
    (best : spec_float) : outcome spec_float :=
  match reps with
  | O => Ok best
  | S reps =>
      _ ← replay freed_empty events throughput_engine;
      ns ← i64_sub (now (S readings)) (now readings);
      throughput_reps freed_empty now events reps (S (S readings)) (better best (ops_per_sec ns))
  end.

Definition measure_throughput {R} `{RandomSource R} (freed_empty : outcome bool) (now : nat → Z) (readings : nat)
    : outcome spec_float :=
  '(events, _) ← generate (R := R) kThroughputEvents (WorkloadGenerator_new throughput_config);
  throughput_reps freed_empty now events kThroughputRepetitions readings (S754_zero false).

(** [BM_SustainedThroughput]: the repetitions are as many as the benchmark library asks for; the
    count of processed items is returned. *)
Fixpoint sustained_reps (freed_empty : outcome bool) (events : list EngineCommand) (iterations : nat) : outcome () :=
  match iterations with
  | O => Ok ()
  | S iterations => _ ← replay freed_empty events throughput_engine; sustained_reps freed_empty events iterations
  end.

Definition BM_SustainedThroughput {R} `{RandomSource R} (freed_empty : outcome bool) (iterations : nat) : outcome Z :=
  '(events, _) ← generate (R := R) kThroughputEvents (WorkloadGenerator_new throughput_config);
  _ ← sustained_reps freed_empty events iterations;
  i64_mul (Z.of_nat iterations) (Z.of_nat (length events)).

Lemma replay_runs {Sk} `{EventSink Sk} events (e : MatchingEngine Sk) rs e' :
  run_workload (Ok true) events e = Ok (rs, e') → replay (Ok true) events e = Ok e'.
Proof.
  revert e rs. induction events as [|c events IH]; intros e rs; cbn [run_workload replay]; [by intros [= _ ->]|].
  destruct (engine_call _ c e) as [[r e1]| |]; [|done..]. cbn [mbind outcome_bind].
  destruct (run_workload (Ok true) events e1) as [[rs1 e2]| |] eqn:E2; [|done..]. cbn [mbind outcome_bind].
  intros [= _ ->]. by eapply IH.
Qed.

(** The measurement's workload is generated, and every repetition runs it, where an erased level reads as empty. *)
Lemma throughput_workload {R} `{LawfulRandom R} m :
  offsets_fit throughput_config m →
  ∃ events (g : WorkloadGenerator R) e, generate kThroughputEvents (WorkloadGenerator_new throughput_config) = Ok (events, g) ∧
    length events = kThroughputEvents ∧ replay (Ok true) events throughput_engine = Ok e.
Proof.
  intros Hoff. destruct (generate_total kThroughputEvents (WorkloadGenerator_new throughput_config) m Hoff) as (events & g & E).
  assert (Z.of_nat kThroughputEvents = 100000) as Hev by (unfold kThroughputEvents; lia).
  destruct (generate_valid kThroughputEvents (WorkloadGenerator_new throughput_config) events g) as [Hl Hv];
    [simpl; lia|simpl; u64; lia|simpl; lia|simpl; lia|exact E|].
  destruct (workload_runs throughput_config events 1 [] throughput_engine (mkABook [] [])) as (rs & e' & Er & _);
    [simpl; lia|simpl; lia|exact Hv| |lia|lia|].
  { split; [apply new_inv; unfold kThroughputPoolCapacity; lia|done|intros w; simpl; by rewrite lookup_empty| |].
    - change (next_sequence_ throughput_engine) with 0. lia.
    - change (capacity_ _) with kThroughputPoolCapacity. simpl. unfold kThroughputPoolCapacity. lia. }
  exists events, g, e'. split; [exact E|]. split; [exact Hl|]. by eapply replay_runs.
Qed.

Lemma throughput_reps_best now events e reps readings best :
  clock_fits now → replay (Ok true) events throughput_engine = Ok e →
  throughput_reps (Ok true) now events reps readings best =
    Ok (foldl better best ((λ i, ops_per_sec (elapsed now readings i)) <$> seq 0 reps)).
Proof.
  intros Hc Hr. revert readings best. induction reps as [|n IH]; intros readings best; cbn [throughput_reps]; [done|].
  rewrite Hr. cbn [mbind outcome_bind]. rewrite i64_sub_fits by apply Hc. cbn [mbind outcome_bind]. rewrite IH.
  cbn [seq fmap list_fmap foldl]. f_equal.
  rewrite elapsed_first. f_equal. rewrite <- (fmap_S_seq 0 n), <- list_fmap_compose. apply list_fmap_ext. intros i j _. unfold elapsed. simpl. do 4 f_equal; lia.
Qed.

(** The throughput measurement returns, where an erased level reads as empty, for every random source that draws
    within its ranges with bounded offsets, and every clock: no repetition runs its pool dry, and the result is the best rate
    among the ten repetitions; the Google benchmark over the same workload counts every event. *)
Theorem throughput_measured {R} `{LawfulRandom R} m now readings iterations :
  offsets_fit (R := R) throughput_config m → clock_fits now → Z.of_nat iterations < 92233720368547 →
  measure_throughput (R := R) (Ok true) now readings =
    Ok (foldl better (S754_zero false) ((λ i, ops_per_sec (elapsed now readings i)) <$> seq 0 10)) ∧
  BM_SustainedThroughput (R := R) (Ok true) iterations = Ok (Z.of_nat iterations * 100000).
Proof.
  intros Hoff Hc Hit. destruct (throughput_workload m Hoff) as (events & g & e & E & Hl & Hr).
  unfold measure_throughput, BM_SustainedThroughput. rewrite E. cbn [mbind outcome_bind]. split; [by apply throughput_reps_best with e|].
  assert (∀ n, sustained_reps (Ok true) events n = Ok ()) as ->.
  { induction n as [|n IH]; cbn [sustained_reps]; [done|]. rewrite Hr. exact IH. }
  cbn [mbind outcome_bind]. rewrite Hl. unfold kThroughputEvents. rewrite Z2Nat.id by lia. unfold i64_mul, i64_check.
  by rewrite (proj2 (Z.leb_le _ _)), (proj2 (Z.ltb_lt _ _)) by lia.
Qed.

Lemma throughput_measured_witness :
  ∃ v, measure_throughput (R := Z) (H := counting_source) (Ok true) Z.of_nat 0 = Ok v ∧
  BM_SustainedThroughput (R := Z) (H := counting_source) (Ok true) 7 = Ok 700000.
Proof.
  eexists. apply (@throughput_measured Z counting_source counting_lawful 3 Z.of_nat 0 7); [|intros k; u64; lia|lia].
  split; [lia|]. split; [simpl; lia|]. split; [simpl; lia|]. intros r. exists 3. split; [reflexivity|lia].
Defined.
