(* ===== verification/QueueLatency.v ===== *)
(** * QueueLatency: the timed loops and the statistics of apps/benchmark/queue_bench.cpp

    [measure_push_latency] and [measure_pop_latency] over any queue with the
    two polling functions, with the clock readings a parameter, and
    [best_throughput] over the rates its runs measured. *)
From Stdlib Require Import String.
From Corelib Require Import SpecFloat.
From S2P Require Import Prelude SpscRing RingQueue QueueBench Doubles RiskEngine Strategy LatencyRecorder.
From S2P Require Import Workload LatencyBench.

Record LatencyResult := mkLatency { res_avg : spec_float; res_median : spec_float; res_p99 : spec_float; res_max : spec_float }.

Definition latency_result (r : LatencyRecorder) : outcome LatencyResult :=
  avg ← avg_ns r; median ← median_ns r; p99 ← p99_ns r; Ok (mkLatency avg median p99 (max_ns r)).

(** [generate_workload]: the configuration of the throughput measurement. *)
Definition generate_workload {R} `{RandomSource R} (count : nat) : outcome (list Core.EngineCommand) :=
  '(events, _) ← generate (R := R) count (WorkloadGenerator_new throughput_config); Ok events.

Section Loops.
Context {Q T : Type} `{PollQueue Q T}.
Variable now : nat → Z.

(** One timed push per command; every second round pops one item. *)
Fixpoint push_loop (i : nat) (workload : list T) (q : Q) (s : BenchState) : outcome BenchState :=
  match workload with
  | [] => Ok s
  | cmd :: rest =>
      let '(_, q) := poll_push cmd q in
      s ← record_elapsed now s;
      q ← (if Nat.eqb (Nat.modulo i 2) 1 then '(_, q) ← poll_pop q; Ok q else Ok q);
      push_loop (S i) rest q s
  end.

Definition measure_push_latency (workload : list T) (queue : Q) (readings : nat) : outcome LatencyResult :=
  s ← push_loop 0 workload queue (mkBenchState LatencyRecorder_new readings);
  latency_result (bn_recorder s).

(** A push, then one timed pop; what the timed pops put into [tmp] is kept here. *)
Fixpoint pop_loop (workload : list T) (q : Q) (s : BenchState) : outcome (list (option T) * Q * BenchState) :=
  match workload with
  | [] => Ok ([], q, s)
  | cmd :: rest =>
      let '(_, q) := poll_push cmd q in
      '(x, q) ← poll_pop q;
      s ← record_elapsed now s;
      '(xs, q, s) ← pop_loop rest q s;
      Ok (x :: xs, q, s)
  end.

Definition measure_pop_latency (workload : list T) (queue : Q) (readings : nat) : outcome LatencyResult :=
  '(_, _, s) ← pop_loop workload queue (mkBenchState LatencyRecorder_new readings);
  latency_result (bn_recorder s).
End Loops.

(** [best_throughput], of the rates the repetitions measured. *)
Definition best_throughput (rates : list spec_float) : spec_float := foldl better (S754_zero false) rates.

(** The rate of one run: [size / (elapsed_ns / 1e9)]. *)
Definition queue_rate (size elapsed_ns : Z) : spec_float := double_div (double_of_int size) (seconds elapsed_ns).

(** ** The statistics are defined *)

(** No pair of readings is further apart than [2^40] ns, about 18 minutes, and time does not run back. *)
Definition clock_steady (now : nat → Z) : Prop := ∀ k, 0 <= now (S k) - now k < 2 ^ 40.

Lemma clock_steady_fits now : clock_steady now → clock_fits now.
Proof. intros Hc k. specialize (Hc k). u64. lia. Qed.

Lemma accumulate_fits l sum :
  Forall (λ d, 0 <= d < 2 ^ 40) l → 0 <= sum → sum + 2 ^ 40 * Z.of_nat (length l) < 2 ^ 63 →
  accumulate l sum = Ok (sum + sumZ id l).
Proof.
  revert sum. induction l as [|d l IH]; intros sum Hl Hs Hb; cbn [accumulate]; [simpl; f_equal; lia|].
  apply Forall_cons in Hl as [Hd Hl]. cbn [length] in Hb. unfold i64_add, i64_check.
  rewrite (proj2 (Z.leb_le _ _)), (proj2 (Z.ltb_lt _ _)) by lia. cbn [mbind outcome_bind andb].
  rewrite IH by (done || lia). f_equal. unfold sumZ. simpl. unfold id. lia.
Qed.

Lemma latency_result_returns r :
  Forall (λ d, 0 <= d < 2 ^ 40) (samples_ r) → recorder_count r < 2 ^ 23 → ∃ v, latency_result r = Ok v.
Proof.
  intros Hf Hn. unfold latency_result. assert (∃ a, avg_ns r = Ok a) as [a ->].
  { unfold avg_ns. destruct (samples_ r) as [|d l] eqn:E; [by eexists|]. rewrite accumulate_fits; [by eexists|done|lia|].
    unfold recorder_count in Hn. rewrite E in Hn. lia. }
  destruct (median_returns r) as [md ->]. cbn [mbind outcome_bind].
  destruct (decide (samples_ r = [])) as [En|Hne]; [|destruct (p99_is_a_sample r Hne) as (i & x & _ & _ & _ & _ & ->); [lia|by eexists]].
  unfold p99_ns. rewrite En. by eexists.
Qed.

Lemma samples_fit now readings n : clock_steady now → Forall (λ d, 0 <= d < 2 ^ 40) (elapsed now readings <$> seq 0 n).
Proof. intros Hc. apply Forall_fmap, Forall_forall. intros i _. apply Hc. Qed.

Section Timed.
Context {Q T : Type} `{BoundedQueue Q T cap holds}.
Hypothesis cap_pos : 1 <= cap.
Variable now : nat → Z.
Hypothesis clock : clock_steady now.

(** The state after one more sample. *)
Definition sampled (s : BenchState) : BenchState :=
  mkBenchState (recorder_record (elapsed now (bn_readings s) 0) (bn_recorder s)) (S (S (bn_readings s))).

Lemma record_elapsed_ok s : record_elapsed now s = Ok (sampled s).
Proof.
  unfold record_elapsed, sampled. rewrite i64_sub_fits by apply (clock_steady_fits _ clock). by rewrite elapsed_first.
Qed.

Lemma sampled_samples s n :
  samples_ (bn_recorder (sampled s)) ++ (elapsed now (bn_readings (sampled s)) <$> seq 0 n) =
  samples_ (bn_recorder s) ++ (elapsed now (bn_readings s) <$> seq 0 (S n)).
Proof.
  cbn [sampled bn_recorder bn_readings recorder_record samples_]. rewrite <- app_assoc. f_equal.
  cbn [seq fmap list_fmap app]. f_equal.
  rewrite <- (fmap_S_seq 0 n), <- list_fmap_compose. apply list_fmap_ext. intros i j _. unfold elapsed. simpl. do 3 f_equal; lia.
Qed.

(** Every timed pop returns the command just pushed, and leaves the queue empty. *)
Lemma pop_loop_pops workload n q s :
  holds (length workload + n) q [] →
  ∃ q' s', pop_loop now workload q s = Ok (Some <$> workload, q', s') ∧ holds n q' [] ∧
    samples_ (bn_recorder s') = samples_ (bn_recorder s) ++ (elapsed now (bn_readings s) <$> seq 0 (length workload)).
Proof.
  revert q s. induction workload as [|cmd rest IH]; intros q s Hq; cbn [pop_loop].
  { exists q, s. split; [done|]. split; [done|]. simpl. by rewrite app_nil_r. }
  destruct (bq_push _ _ _ cmd Hq) as (q1 & -> & H1); [simpl; lia|].
  destruct (bq_some _ _ _ _ H1) as (q2 & -> & H2). cbn [mbind outcome_bind]. rewrite record_elapsed_ok. cbn [mbind outcome_bind].
  destruct (IH q2 (sampled s) H2) as (q' & s' & -> & Hq' & Hs'). cbn [mbind outcome_bind].
  exists q', s'. split; [done|]. split; [done|]. by rewrite Hs', sampled_samples.
Qed.

(** A push never gets stuck either, whether the queue takes it or not. *)
Lemma push_loop_pushes workload i q l s :
  holds (length workload) q l →
  ∃ s', push_loop now i workload q s = Ok s' ∧
    samples_ (bn_recorder s') = samples_ (bn_recorder s) ++ (elapsed now (bn_readings s) <$> seq 0 (length workload)).
Proof.
  revert i q l s. induction workload as [|cmd rest IH]; intros i q l s Hq; cbn [push_loop].
  { exists s. split; [done|]. simpl. by rewrite app_nil_r. }
  assert (∃ ok q1 l1, poll_push cmd q = (ok, q1) ∧ holds (length rest) q1 l1) as (ok & q1 & l1 & -> & H1).
  { destruct (decide (cap <= Z.of_nat (length l))) as [Hf|Hf].
    - exists false, q, l. split; [by eapply bq_full|by apply bq_weaken].
    - destruct (bq_push _ _ _ cmd Hq) as (q1 & E1 & H1); [lia|]. by exists true, q1, (l ++ [cmd]). }
  rewrite record_elapsed_ok. cbn [mbind outcome_bind].
  assert (∃ q2 l2, (if Nat.eqb (Nat.modulo i 2) 1 then '(_, q) ← poll_pop q1; Ok q else Ok q1) = Ok q2 ∧
    holds (length rest) q2 l2) as (q2 & l2 & -> & H2).
  { destruct (Nat.eqb _ _); [|by exists q1, l1]. destruct l1 as [|x l1].
    - exists q1, []. by rewrite (bq_none _ _ H1).
    - destruct (bq_some _ _ _ _ H1) as (q2 & -> & H2). by exists q2, l1. }
  cbn [mbind outcome_bind]. destruct (IH (S i) q2 l2 (sampled s) H2) as (s' & -> & Hs').
  exists s'. split; [done|]. by rewrite Hs', sampled_samples.
Qed.

(** Both latency measurements return over any bounded queue: the workload, of fewer than 2^23
    commands, is pushed and popped without a stuck step, one sample is taken per command, and the four
    statistics of the samples are defined.  Every timed pop returns the command pushed just before it. *)
Theorem queue_latency_measured workload q readings :
  holds (length workload) q [] → Z.of_nat (length workload) < 2 ^ 23 →
  (∃ v, measure_push_latency now workload q readings = Ok v) ∧
  (∃ v, measure_pop_latency now workload q readings = Ok v) ∧
  (∃ q' s, pop_loop now workload q (mkBenchState LatencyRecorder_new readings) = Ok (Some <$> workload, q', s) ∧
     recorder_count (bn_recorder s) = Z.of_nat (length workload)).
Proof.
  intros Hq Hn. set (s0 := mkBenchState LatencyRecorder_new readings).
  destruct (pop_loop_pops workload 0 q s0) as (q' & s1 & E1 & _ & H1); [by rewrite Nat.add_0_r|].
  destruct (push_loop_pushes workload 0 q [] s0 Hq) as (s2 & E2 & H2).
  assert (∀ s, samples_ (bn_recorder s) = samples_ (bn_recorder s0) ++ (elapsed now (bn_readings s0) <$> seq 0 (length workload)) →
    recorder_count (bn_recorder s) = Z.of_nat (length workload) ∧ ∃ v, latency_result (bn_recorder s) = Ok v) as Hres.
  { intros s Es. simpl in Es. assert (recorder_count (bn_recorder s) = Z.of_nat (length workload)) as Hc.
    { unfold recorder_count. by rewrite Es, length_fmap, length_seq. }
    split; [done|]. apply latency_result_returns; [rewrite Es; by apply samples_fit|lia]. }
  unfold measure_push_latency, measure_pop_latency. fold s0. rewrite E1, E2. cbn [mbind outcome_bind].
  destruct (Hres s1 H1) as [Hc1 Hv1]. destruct (Hres s2 H2) as [_ Hv2]. split; [done|]. split; [done|]. by exists q', s1.
Qed.
End Timed.

Lemma queue_latency_measured_witness :
  ∃ v, @measure_pop_latency _ _ (mutex_poll 2) Z.of_nat [1; 2; 3] (mkMutexQueue []) 0 = Ok v.
Proof.
  apply (@queue_latency_measured _ _ (mutex_poll 2) 2 (mutex_good 2) (mutex_bounded 2) ltac:(lia) Z.of_nat
    ltac:(intros k; lia) [1; 2; 3] (mkMutexQueue []) 0); [split; simpl; [reflexivity|lia]|simpl; lia].
Defined.

(** ** main.cpp: the six latency benchmarks, one after the other *)

(** [benchmark::LatencyResult] of results_writer.hpp. *)
Record LatencyRow := mkRow { row_label : list Z; row_result : LatencyResult }.

Definition kLatencyIterations : nat := Z.to_nat 10000.

(** A fresh recorder, one benchmark, its statistics; the clock goes on. *)
Definition latency_row (label : string) (bench : BenchState → outcome BenchState) (readings : nat)
    : outcome (LatencyRow * nat) :=
  s ← bench (mkBenchState LatencyRecorder_new readings);
  v ← latency_result (bn_recorder s);
  Ok (mkRow (Text.str label) v, bn_readings s).

Fixpoint latency_rows (benches : list (string * (BenchState → outcome BenchState))) (readings : nat)
    : outcome (list LatencyRow * nat) :=
  match benches with
  | [] => Ok ([], readings)
  | (label, bench) :: benches =>
      '(row, readings) ← latency_row label bench readings;
      '(rows, readings) ← latency_rows benches readings;
      Ok (row :: rows, readings)
  end.

Definition main_benches (freed_empty : outcome bool) (now : nat → Z) : list (string * (BenchState → outcome BenchState)) :=
  [("ADD (no match)"%string, bench_add_no_match freed_empty now kLatencyIterations);
   ("ADD (1 fill)"%string, bench_add_with_match freed_empty now kLatencyIterations 1);
   ("ADD (10 fills)"%string, bench_add_with_match freed_empty now kLatencyIterations 10);
   ("ADD (100 fills)"%string, bench_add_with_match freed_empty now kLatencyIterations 100);
   ("CANCEL (front)"%string, bench_cancel freed_empty now kLatencyIterations true);
   ("CANCEL (back)"%string, bench_cancel freed_empty now kLatencyIterations false)].

(** A benchmark that takes one sample per iteration. *)
Definition samples_once (now : nat → Z) (bench : BenchState → outcome BenchState) : Prop :=
  ∀ s, bench s = Ok (mkBenchState (mkRecorder (samples_ (bn_recorder s) ++ (elapsed now (bn_readings s) <$> seq 0 kLatencyIterations)))
                       (bn_readings s + 2 * kLatencyIterations)).

(** The statistics of a recorder: in range, and the percentile and maximum two of the samples. *)
Definition statistics_of (samples : list Z) (v : LatencyResult) : Prop :=
  below 61 (res_avg v) ∧ below 61 (res_median v) ∧
  ∃ x y, x ∈ samples ∧ res_p99 v = double_of_int x ∧ y ∈ samples ∧ res_max v = double_of_int y ∧ ∀ z, z ∈ samples → z <= y.

Lemma sample_below x : 0 <= x < 2 ^ 40 → below 40 (double_of_int x).
Proof. intros Hx. apply normalize_below; lia. Qed.

(** An integer of at most 53 bits and at least one, as a divisor. *)
Lemma div_int_below x n k : 0 <= k <= 900 → below k x → 0 < n < 2 ^ 53 → below (k + 1) (double_div x (double_of_int n)).
Proof.
  intros Hk Hx Hn. unfold double_div, double_of_int. destruct (of_int_exact n Hn) as (m & e & -> & He & _ & Hm).
  apply div_below; try done; [lia|]. rewrite Hm. nia.
Qed.

Lemma sum_below l : Forall (λ d, 0 <= d < 2 ^ 40) l → 0 <= sumZ id l <= 2 ^ 40 * Z.of_nat (length l).
Proof. induction 1 as [|d l Hd _ IH]; [simpl; lia|]. cbn [sumZ length]. unfold id in *. lia. Qed.

Lemma median_below r v : Forall (λ d, 0 <= d < 2 ^ 40) (samples_ r) → median_ns r = Ok v → below 61 v.
Proof.
  intros Hf. unfold median_ns. assert (∀ i x, sample_at i (sorted_samples r) = Ok x → below 40 (double_of_int x)) as Hs.
  { intros i x. unfold sample_at. destruct (Z.ltb i 0); [done|]. destruct (_ !! _) as [y|] eqn:E; [|done]. intros [= <-].
    apply sample_below. rewrite Forall_forall in Hf. apply Hf. rewrite <- sorted_samples_perm. by eapply list_elem_of_lookup_2. }
  destruct (samples_ r); [by intros [= <-]|]. destruct (Z.eqb _ _).
  - destruct (sample_at _ _) as [x| |] eqn:E; cbn [mbind outcome_bind]; [|done|done]. intros [= <-].
    apply (below_mono 40); [lia|]. by eapply Hs.
  - destruct (sample_at (_ - 1) _) as [x| |] eqn:E; cbn [mbind outcome_bind]; [|done|done].
    destruct (sample_at _ _) as [y| |] eqn:E2 in |- *; cbn [mbind outcome_bind]; [|done|done]. intros [= <-].
    apply (below_mono 43); [lia|]. apply (div_int_below _ 2 42); [lia| |lia].
    apply (add_below _ _ 40); [lia| |]; by eapply Hs.
Qed.

Lemma avg_below r v : Forall (λ d, 0 <= d < 2 ^ 40) (samples_ r) → recorder_count r < 2 ^ 19 → avg_ns r = Ok v → below 61 v.
Proof.
  intros Hf Hn. unfold avg_ns. destruct (samples_ r) as [|d l] eqn:E; [by intros [= <-]|].
  pose proof (sum_below _ Hf) as Hb. unfold recorder_count in *. rewrite E in Hn |- *.
  rewrite accumulate_fits by (done || lia). cbn [mbind outcome_bind]. intros Hv.
  assert (v = double_div (double_of_int (0 + sumZ id (d :: l))) (double_of_int (Z.of_nat (length (d :: l))))) as -> by congruence.
  apply (div_int_below _ _ 60); [lia| |cbn [length] in *; lia]. apply normalize_below; lia.
Qed.

Lemma latency_result_statistics r v :
  Forall (λ d, 0 <= d < 2 ^ 40) (samples_ r) → samples_ r ≠ [] → recorder_count r < 2 ^ 19 → latency_result r = Ok v →
  statistics_of (samples_ r) v.
Proof.
  intros Hf Hne Hn. unfold latency_result. destruct (avg_ns r) as [a| |] eqn:Ea; cbn [mbind outcome_bind]; [|done|done].
  destruct (median_ns r) as [md| |] eqn:Em; cbn [mbind outcome_bind]; [|done|done].
  destruct (p99_is_a_sample r Hne) as (i & x & _ & _ & _ & Hx & ->); [lia|]. cbn [mbind outcome_bind]. intros [= <-].
  destruct (max_is_largest r Hne) as (y & Ey & Hy & Hmax).
  split; [by eapply avg_below|]. split; [by eapply median_below|]. by exists x, y.
Qed.

(** A row of the report: the benchmark's label and the statistics of its samples from some reading on. *)
Definition row_measured (now : nat → Z) (label : list Z) (row : LatencyRow) : Prop :=
  row_label row = label ∧ ∃ start, statistics_of (elapsed now start <$> seq 0 kLatencyIterations) (row_result row).

Lemma latency_rows_return now benches readings :
  clock_steady now → Forall (λ b, samples_once now b.2) benches →
  ∃ rows n, latency_rows benches readings = Ok (rows, n) ∧ Forall2 (row_measured now) ((λ b, Text.str b.1) <$> benches) rows.
Proof.
  intros Hc. revert readings. induction benches as [|[label bench] benches IH]; intros readings Hb; cbn [latency_rows].
  { eexists _, _. split; [reflexivity|constructor]. }
  apply Forall_cons in Hb as [Hb1 Hb]. unfold latency_row. cbn [snd] in Hb1. rewrite Hb1. cbn [mbind outcome_bind].
  set (r := mkRecorder (elapsed now readings <$> seq 0 kLatencyIterations)).
  assert (recorder_count r < 2 ^ 19) as Hn.
  { unfold recorder_count, r. cbn [samples_]. rewrite length_fmap, length_seq. unfold kLatencyIterations. lia. }
  assert (Forall (λ d, 0 <= d < 2 ^ 40) (samples_ r)) as Hf by (by apply samples_fit).
  destruct (latency_result_returns r Hf) as [v Ev]; [lia|].
  cbn [bn_recorder bn_readings LatencyRecorder_new samples_ app]. fold r. rewrite Ev. cbn [mbind outcome_bind].
  destruct (IH (readings + 2 * kLatencyIterations)%nat Hb) as (rows & n & -> & Hrows). cbn [mbind outcome_bind].
  eexists _, _. split; [reflexivity|]. cbn [fmap list_fmap fst]. constructor; [|exact Hrows]. split; [done|]. exists readings.
  apply (latency_result_statistics r v Hf); [|exact Hn|exact Ev]. intros E. apply fmap_nil_inv in E.
  assert (length (seq 0 kLatencyIterations) = 0%nat) as E2 by (by rewrite E). rewrite length_seq in E2. unfold kLatencyIterations in E2. lia.
Qed.

(** The harness produces its six rows in the order of the report, each with the statistics of its samples, for
    every clock, where an erased level reads as empty: no benchmark is stuck and no statistic undefined. *)
Theorem harness_rows now readings :
  clock_steady now →
  ∃ rows n, latency_rows (main_benches (Ok true) now) readings = Ok (rows, n) ∧
    Forall2 (row_measured now)
      (Text.str <$> ["ADD (no match)"; "ADD (1 fill)"; "ADD (10 fills)"; "ADD (100 fills)"; "CANCEL (front)"; "CANCEL (back)"]%string)
      rows.
Proof.
  intros Hc. pose proof (clock_steady_fits _ Hc) as Hf. apply (latency_rows_return now (main_benches (Ok true) now) readings Hc).
  assert (∀ n, (1 <= n < 4096)%nat → samples_once now (bench_add_with_match (Ok true) now kLatencyIterations n)) as Hm
    by (intros n Hn s; by apply bench_add_with_match_samples).
  unfold main_benches. repeat (apply Forall_cons; split); [..|by apply Forall_nil]; cbn [snd].
  - intros s. by apply bench_add_no_match_samples.
  - apply Hm; lia.
  - apply Hm; lia.
  - apply Hm; lia.
  - intros s. by apply bench_cancel_samples.
  - intros s. by apply bench_cancel_samples.
Qed.
