(* ===== verification/RoundTrip.v ===== *)
(** * RoundTrip: apps/benchmark/tcp_roundtrip_bench.cpp

    The blocking client ([send_frame], [recv_frame]) with the kernel's
    answers as inputs; the server the benchmark wires (text protocol,
    matching engine without the risk decorator, an eventfd write per
    response); and the script of commands [main] sends, one at a time. *)
From Stdlib Require Import String.
From S2P Require Import Prelude Core Text TextProtocol GatewayCodec TcpServer SpscRing RingQueue OrderPool PriceLevel OrderBook MatchingEngine.
From S2P Require Import EngineInvariant EngineTheorems EngineApi TcpTheorems ExchangeServer ExchangeTheorems EndToEnd.
From S2P Require Import RiskEngine Strategy Workload WorkloadTheorems LatencyRecorder LatencyBench QueueLatency.

(** ** The client *)

(** What [read] or [write] answers: up to [n] bytes, EINTR, or another error. *)
Inductive BlockingAnswer := BSome (n : nat) | BIntr | BFail.

(** The loop around [write]: what reaches the socket; [None] is [exit(1)]. *)
Fixpoint send_all (answers : list BlockingAnswer) (bytes : list Z) : outcome (option (list Z * list BlockingAnswer)) :=
  match bytes, answers with
  | [], _ => Ok (Some ([], answers))
  | _, [] => NoFuel
  | _, BIntr :: answers => send_all answers bytes
  | _, BFail :: _ => Ok None
  | _, BSome n :: answers =>
      r ← send_all answers (drop n bytes);
      match r with
      | None => Ok None
      | Some (sent, answers) => Ok (Some (take n bytes ++ sent, answers))
      end
  end.

Definition send_frame (answers : list BlockingAnswer) (payload : list Z) : outcome (option (list Z * list BlockingAnswer)) :=
  send_all answers (frame_message payload).

(** The loop around [read] for [want] bytes: the bytes, what is left on the stream and the answers not used. *)
Fixpoint recv_exact (answers : list BlockingAnswer) (want : nat) (stream : list Z)
    : outcome (option (list Z * list Z * list BlockingAnswer)) :=
  match want, answers with
  | O, _ => Ok (Some ([], stream, answers))
  | _, [] => NoFuel
  | _, BIntr :: answers => recv_exact answers want stream
  | _, BFail :: _ => Ok None
  | _, BSome n :: answers =>
      let k := Nat.min n (Nat.min want (length stream)) in
      if Nat.eqb k 0 then Ok None
      else
        r ← recv_exact answers (want - k) (drop k stream);
        match r with
        | None => Ok None
        | Some (got, stream', answers) => Ok (Some (take k stream ++ got, stream', answers))
        end
  end.

Definition recv_frame (answers : list BlockingAnswer) (stream : list Z)
    : outcome (option (list Z * list Z * list BlockingAnswer)) :=
  r ← recv_exact answers 4 stream;
  match r with
  | None => Ok None
  | Some (len_buf, stream, answers) =>
      len ← payload_len len_buf;
      recv_exact answers (Z.to_nat len) stream
  end.

(** A kernel that makes progress. *)
Definition makes_progress (a : BlockingAnswer) : Prop := match a with BSome n => (0 < n)%nat | BIntr => True | BFail => False end.

Fixpoint transfers (answers : list BlockingAnswer) : nat :=
  match answers with [] => 0 | BSome _ :: l => S (transfers l) | _ :: l => transfers l end.

Lemma send_all_sends answers bytes :
  Forall makes_progress answers → (length bytes <= transfers answers)%nat →
  ∃ rest, send_all answers bytes = Ok (Some (bytes, rest)).
Proof.
  revert bytes. induction answers as [|a answers IH]; intros bytes Hp Hl.
  { simpl in Hl. destruct bytes; [|simpl in Hl; lia]. by eexists. }
  apply Forall_cons in Hp as [Ha Hp]. destruct bytes as [|b bytes]; [by eexists|].
  destruct a as [n| |]; [|by apply IH|done]. simpl in Ha, Hl. cbn [send_all].
  destruct (IH (drop n (b :: bytes)) Hp) as [rest ->]; [rewrite length_drop; simpl; lia|].
  cbn [mbind outcome_bind]. exists rest. by rewrite take_drop.
Qed.

Lemma recv_exact_reads answers want data rest :
  Forall makes_progress answers → length data = want → (want <= transfers answers)%nat →
  ∃ answers', recv_exact answers want (data ++ rest) = Ok (Some (data, rest, answers')) ∧
    Forall makes_progress answers' ∧ (transfers answers <= want + transfers answers')%nat.
Proof.
  revert want data. induction answers as [|a answers IH]; intros want data Hp Hl Ht.
  { simpl in Ht. destruct want; [|lia]. destruct data; [|done]. exists []. split_and!; try done. }
  destruct want as [|want].
  { destruct data; [|done]. exists (a :: answers). split_and!; try done. }
  apply Forall_cons in Hp as [Ha Hp]. destruct a as [n| |]; [|by apply IH|done]. simpl in Ha, Ht.
  cbn [recv_exact]. rewrite length_app. set (k := Nat.min n _).
  assert (0 < k <= S want ∧ k <= length data)%nat as [Hk Hkd] by lia.
  rewrite (proj2 (Nat.eqb_neq k 0)), drop_app_le, take_app_le by lia.
  destruct (IH (S want - k)%nat (drop k data) Hp) as (answers' & -> & Hp' & Ht'); [rewrite length_drop; lia|lia|].
  cbn [mbind outcome_bind]. exists answers'. rewrite take_drop. split_and!; [done|done|]. cbn [transfers]. lia.
Qed.

(** [send_frame] and [recv_frame] are inverse over any splitting of the bytes: a kernel that makes
    progress takes the whole frame from the writer, and hands the reader exactly the payload, leaving
    what follows the frame on the stream; interrupted calls are repeated. *)
Theorem frame_transfer writes reads payload rest :
  Forall makes_progress writes → Forall makes_progress reads →
  Z.of_nat (length payload) < 4294967296 →
  (4 + length payload <= transfers writes)%nat → (4 + length payload <= transfers reads)%nat →
  ∃ wire writes' reads', send_frame writes payload = Ok (Some (wire, writes')) ∧
    recv_frame reads (wire ++ rest) = Ok (Some (payload, rest, reads')).
Proof.
  intros Hw Hr Hl Hcw Hcr. destruct (frame_message_small payload Hl) as (h & E & Hh & Hlen).
  destruct (send_all_sends writes (frame_message payload) Hw) as [writes' Es]; [rewrite E, length_app; lia|].
  exists (frame_message payload), writes'.
  destruct (recv_exact_reads reads 4 h (payload ++ rest) Hr Hh) as (r1 & E1 & Hr1 & Ht1); [lia|].
  destruct (recv_exact_reads r1 (length payload) payload rest Hr1 eq_refl) as (r2 & E2 & _ & _); [lia|].
  exists r2. split; [exact Es|]. unfold recv_frame. rewrite E, <- app_assoc, E1. cbn [mbind outcome_bind].
  specialize (Hlen []). rewrite app_nil_r in Hlen. rewrite Hlen. cbn [mbind outcome_bind]. by rewrite Nat2Z.id.
Qed.

Lemma frame_transfer_witness :
  ∃ wire writes' reads', send_frame (replicate 7 (BSome 2)) [65; 68; 68] = Ok (Some (wire, writes')) ∧
    recv_frame (BIntr :: replicate 9 (BSome 3)) (wire ++ [0; 0]) = Ok (Some ([65; 68; 68], [0; 0], reads')).
Proof.
  apply (frame_transfer (replicate 7 (BSome 2)) (BIntr :: replicate 9 (BSome 3)) [65; 68; 68] [0; 0]).
  - repeat constructor.
  - repeat constructor.
  - simpl. lia.
  - simpl. lia.
  - simpl. lia.
Defined.

(** ** The server *)

Record ServerContext := mkContext {
  sc_engine : MatchingEngine unit;
  sc_inbound : Ring TaggedCommand;
  sc_outbound : Ring TaggedResponse;
  sc_server : TcpServer;
  sc_eventfd : Z }.

(** The frame handler of [wire_server]; whether the queue took the command is not looked at. *)
Definition wire_on_frame (client_id : Z) (payload : list Z) (s : TcpServer * Ring TaggedCommand)
    : outcome (TcpServer * Ring TaggedCommand) :=
  match parsed_command (parse payload) with
  | inr message => sv ← send_to_client client_id (frame_message (render_error message)) s.1; Ok (sv, s.2)
  | inl command => Ok (s.1, (try_push kInbound (mkTaggedCommand client_id command) s.2).2)
  end.

(** The body of [engine_thread_loop]; with no room for the response it waits. *)
Definition engine_thread_round (freed_empty : outcome bool) (s : ServerContext) : outcome ServerContext :=
  '(popped, inbound) ← try_pop kInbound (sc_inbound s);
  match popped with
  | None => Ok (mkContext (sc_engine s) inbound (sc_outbound s) (sc_server s) (sc_eventfd s))
  | Some cmd =>
      '(resp, engine) ← engine_call freed_empty (tc_command cmd) (sc_engine s);
      if Z.leb kOutbound (ring_size (sc_outbound s)) then NoFuel
      else
        let '(_, outbound) := try_push kOutbound (mkTaggedResponse (tc_client cmd) resp) (sc_outbound s) in
        Ok (mkContext engine inbound outbound (sc_server s) (eventfd_write (sc_eventfd s)))
  end.

Definition text_protocol : Protocol := bind_protocol true Plaintext.

(** A readable event with the client's bytes, the engine thread's round, and the wake-up. *)
Definition serve_round (freed_empty : outcome bool) (fd : Z) (chunks : list (list Z)) (s : ServerContext) : outcome ServerContext :=
  '(sv, inbound) ← handle_read wire_on_frame ((RData <$> chunks) ++ [RAgain]) fd (sc_server s, sc_inbound s);
  s ← engine_thread_round freed_empty (mkContext (sc_engine s) inbound (sc_outbound s) sv (sc_eventfd s));
  if Z.ltb 0 (sc_eventfd s) then
    '(sv, outbound) ← on_drain text_protocol (sc_server s, sc_outbound s);
    Ok (mkContext (sc_engine s) (sc_inbound s) outbound sv 0)
  else Ok s.

Fixpoint serve_rounds (freed_empty : outcome bool) (fd : Z) (rounds : list (list (list Z))) (s : ServerContext)
    : outcome ServerContext :=
  match rounds with
  | [] => Ok s
  | chunks :: rounds => s ← serve_round freed_empty fd chunks s; serve_rounds freed_empty fd rounds s
  end.

(** Sending keeps the reader's side of a connection, or closes it. *)
Lemma send_keeps_reader id data sv sv' fd c :
  server_inv sv → connections_ sv !! fd = Some c → c_id c = id → send_to_client id data sv = Ok sv' →
  connections_ sv' !! fd = None ∨
  ∃ c', connections_ sv' !! fd = Some c' ∧ c_id c' = id ∧ read_buffer c' = read_buffer c ∧ stream id sv' = stream id sv ++ data.
Proof.
  intros Hi Hc Hid E. destruct (connections_ sv' !! fd) as [c'|] eqn:Ec'; [right|by left].
  destruct (si_conn _ Hi _ _ Hc) as [_ Hcl]. rewrite Hid in Hcl.
  assert (c_id c' = id ∧ read_buffer c' = read_buffer c) as [Hid' Hrb].
  { destruct (send_cases _ _ _ _ Hi E) as [[Hn _]|(fd2 & c2 & Hcl2 & Hc2 & _ & Hc1 & Hcase)]; [congruence|].
    rewrite Hcl in Hcl2. injection Hcl2 as <-. rewrite Hc in Hc2. injection Hc2 as <-.
    destruct Hcase as [(_ & _ & ->)|(_ & _ & _ & [Ed|(wb & Ed & _)])].
    - unfold close_connection in Ec'. simpl in Ec'. rewrite lookup_insert_eq in Ec'. simpl in Ec'. by rewrite lookup_delete_eq in Ec'.
    - by rewrite Ed, lookup_delete_eq in Ec'.
    - rewrite Ed, lookup_insert_eq in Ec'. by injection Ec' as <-. }
  exists c'. split_and!; try done.
  destruct (send_stream _ _ _ _ Hi E) as [[Hn _]|[Hn|[Hs _]]]; [congruence| |by rewrite Hs, decide_True].
  destruct (si_conn _ (send_inv _ _ _ _ Hi E) _ _ Ec') as [_ Hcl']. congruence.
Qed.

(** The context between two rounds, with room in the rings for [n] more commands. *)
Record idle (fd id : Z) (n : nat) (s : ServerContext) : Prop := {
  id_inv : server_inv (sc_server s);
  id_conn : ∃ c, connections_ (sc_server s) !! fd = Some c ∧ c_id c = id ∧ read_buffer c = [];
  id_in : ring_holds kInbound (sc_inbound s) [];
  id_in_tail : rb_tail (sc_inbound s) + Z.of_nat n < 18446744073709551616;
  id_out : ring_holds kOutbound (sc_outbound s) [];
  id_out_tail : rb_tail (sc_outbound s) + Z.of_nat n < 18446744073709551616;
  id_efd : sc_eventfd s = 0;
  id_sends : (n <= agains (sends_ (sc_server s)))%nat }.

Lemma wire_absorbs id : absorbs wire_on_frame (queue_frame text_protocol id) id.
Proof.
  intros sv p w w' Eq. unfold queue_frame in Eq. cbn [text_protocol bind_protocol parse_fn mbind outcome_bind] in Eq.
  unfold wire_on_frame. destruct (parsed_command (parse p)) as [cmd|m]; [|done]. cbn [fst snd].
  destruct (try_push _ _ w) as [[] r]; [|done]. by simplify_eq.
Qed.

(** One command: the engine executes it and the client's stream grows by the framed response, or the
    connection is gone. *)
Lemma serve_one fd id n s chunks cmd r e' :
  idle fd id (S n) s → concat chunks = frame_message (print_command cmd) → small (print_command cmd) →
  parsed_command (parse (print_command cmd)) = inl cmd →
  engine_call (Ok true) cmd (sc_engine s) = Ok (r, e') →
  ∃ s', serve_round (Ok true) fd chunks s = Ok s' ∧ sc_engine s' = e' ∧
    (connections_ (sc_server s') !! fd = None ∨
     idle fd id n s' ∧ stream id (sc_server s') = stream id (sc_server s) ++ frame_message (render r)).
Proof.
  intros [Hi (c & Hc & Hid & Hrb) Hin Hit Hout Hot Hefd Hsd] Hch Hsm Hp Ee.
  destruct s as [e inb outb sv efd]; cbn [sc_engine sc_inbound sc_outbound sc_server sc_eventfd] in *. subst efd.
  destruct (frames_queued text_protocol id [print_command cmd] [cmd] inb []) as (inb1 & Eq & Hin1);
    [constructor; [by exists (parse (print_command cmd))|constructor]|done|simpl; unfold kInbound; lia|simpl; lia|].
  assert (rb_tail inb1 = rb_tail inb + 1) as Htl.
  { cbn [absorb] in Eq. unfold queue_frame in Eq. cbn [text_protocol bind_protocol parse_fn mbind outcome_bind] in Eq.
    rewrite Hp in Eq. destruct (push_holds _ 12 kInbound_pow2 ltac:(lia) inb [] (mkTaggedCommand id cmd) Hin) as (r1 & E1 & _ & Et);
      [simpl; unfold kInbound; lia|lia|]. rewrite E1 in Eq. cbn [mbind outcome_bind] in Eq. by injection Eq as <-. }
  assert (set_conn fd (mkConn (c_fd c) (c_id c) [] (write_buffer c)) sv = sv) as Esv
    by (apply set_conn_id; rewrite Hc; destruct c; simpl in *; by subst).
  unfold serve_round. cbn [sc_engine sc_inbound sc_outbound sc_server sc_eventfd].
  erewrite (handle_read_frames wire_on_frame (queue_frame text_protocol id) fd sv c inb inb1 chunks [print_command cmd] []);
    [|done|rewrite Hid; apply wire_absorbs|rewrite Hrb, Hch; unfold frames; simpl; by rewrite !app_nil_r|by constructor|left; simpl; lia|done].
  rewrite Esv. cbn [mbind outcome_bind]. unfold engine_thread_round. cbn [sc_engine sc_inbound sc_outbound sc_server sc_eventfd].
  destruct (pop_holds _ _ _ _ Hin1) as (inb2 & -> & Hin2 & Hpt). cbn [mbind outcome_bind tc_command tc_client]. rewrite Ee.
  cbn [mbind outcome_bind]. rewrite (holds_size _ _ _ Hout). cbn [length].
  destruct (push_holds _ 16 kOutbound_pow2 ltac:(lia) _ _ (mkTaggedResponse id r) Hout) as (outb1 & -> & Hout1 & Hot1);
    [simpl; unfold kOutbound; lia|lia|].
  change (Z.leb kOutbound (Z.of_nat 0)) with false. cbn iota. cbn [mbind outcome_bind sc_eventfd sc_server sc_outbound sc_engine sc_inbound].
  change (Z.ltb 0 (eventfd_write 0)) with true. cbn iota. unfold on_drain. cbn [snd]. rewrite (holds_size _ _ _ Hout1).
  cbn [app length]. rewrite Nat2Z.id. cbn [drain_loop]. unfold drain_one. cbn [fst snd].
  destruct (pop_holds _ _ _ _ Hout1) as (outb2 & -> & Hout2 & Hot2). cbn [mbind outcome_bind tr_response tr_client text_protocol bind_protocol render_fn].
  destruct (send_returns id (frame_message (render r)) sv) as [sv1 Es]; [apply agains_elem; lia|].
  rewrite Es. cbn [mbind outcome_bind fst snd]. rewrite (pop_empty _ _ Hout2). cbn [mbind outcome_bind].
  eexists. split; [reflexivity|]. split; [done|]. cbn [sc_server].
  destruct (send_keeps_reader _ _ _ _ _ _ Hi Hc Hid Es) as [Hn|(c' & Hc' & Hid' & Hrb' & Hst)]; [by left|right].
  split; [|done]. pose proof (send_agains _ _ _ _ Es). split; cbn [sc_server sc_inbound sc_outbound sc_eventfd]; try done; try lia.
  - by apply (send_inv _ _ _ _ Hi Es).
  - exists c'. by rewrite Hrb'.
Qed.

(** ** The script of [main] *)

Definition kWarmup : Z := 100.

(** The command lines, as [main] concatenates them. *)
Definition add_buy_line (id : Z) : list Z := str "ADD " ++ to_string_u64 id ++ str " BUY 100 10".

Definition add_sell_line (id : Z) : list Z := str "ADD " ++ to_string_u64 id ++ str " SELL 100 10".

Definition cancel_line (id : Z) : list Z := str "CANCEL " ++ to_string_u64 id.

(** One resting sell and the buy that crosses it, [iterations] times. *)
Fixpoint fill_pairs {X} (sell buy : Z → X) (n : nat) (base : Z) : list X :=
  match n with O => [] | S n => sell base :: buy (base + 1) :: fill_pairs sell buy n (base + 2) end.

(** Everything sent, in order: warm-up and its cancels; the timed adds and their cancels; adds and
    the timed cancels; pairs of a sell and a timed buy. *)
Definition script {X} (sell buy cancel : Z → X) (iterations : nat) : list X :=
  let n := Z.of_nat iterations in
  let base := kWarmup + 1 in
  (buy <$> seqZ 1 kWarmup) ++ (cancel <$> seqZ 1 kWarmup) ++
  (buy <$> seqZ base n) ++ (cancel <$> seqZ base n) ++
  (buy <$> seqZ (base + n) n) ++ (cancel <$> seqZ (base + n) n) ++
  fill_pairs sell buy iterations (base + 2 * n).

Definition script_lines : nat → list (list Z) := script add_sell_line add_buy_line cancel_line.

Definition buy_command (id : Z) : EngineCommand := CLimit (mkLimit id Buy 100 10 0).

Definition sell_command (id : Z) : EngineCommand := CLimit (mkLimit id Sell 100 10 0).

Definition cancel_command (id : Z) : EngineCommand := CCancel (mkCancel id).

Definition script_commands : nat → list EngineCommand := script sell_command buy_command cancel_command.

(** The default pool of [MatchingEngine engine;]. *)
Definition context_engine : MatchingEngine unit := MatchingEngine_new tt (Z.to_nat 1000000) StpConfig_default.

Lemma script_lines_print n : script_lines n = print_command <$> script_commands n.
Proof.
  assert (∀ k base, fill_pairs add_sell_line add_buy_line k base = print_command <$> fill_pairs sell_command buy_command k base) as Hp.
  { induction k as [|k IH]; intros base; cbn [fill_pairs fmap list_fmap]; [done|]. by rewrite IH. }
  unfold script_lines, script_commands, script. rewrite !fmap_app, <- !list_fmap_compose, Hp. done.
Qed.

(** A command of the script: what it is on the line. *)
Definition scripted (c : EngineCommand) : Prop :=
  ∃ id, in_u64 id ∧ (c = buy_command id ∨ c = sell_command id ∨ c = cancel_command id).

Lemma scripted_line c : scripted c → small (print_command c) ∧ parsed_command (parse (print_command c)) = inl c.
Proof.
  intros (id & Hid & Hc). split.
  - assert (∀ a b, (length a <= 10 → length b <= 20 → length (a ++ to_string_u64 id ++ b) <= 4096)%nat) as Hl.
    { intros a b Ha Hb. pose proof (digits_length 20 id []) as Hd. change (digits_fuel 20 id []) with (to_string_u64 id) in Hd.
      rewrite !length_app. cbn [length] in Hd. lia. }
    unfold small, kMaxFrameSize. change 4096 with (Z.of_nat 4096). apply inj_le. destruct Hc as [->|[->| ->]].
    + change (print_command (buy_command id)) with (add_buy_line id). apply Hl; simpl; lia.
    + change (print_command (sell_command id)) with (add_sell_line id). apply Hl; simpl; lia.
    + change (print_command (cancel_command id)) with (cancel_line id). unfold cancel_line.
      rewrite <- (app_nil_r (to_string_u64 id)). apply Hl; simpl; lia.
  - rewrite parse_print_roundtrip; [by destruct Hc as [->|[->| ->]]|].
    destruct Hc as [->|[->| ->]]; simpl; unfold wf_new_order; simpl; u64; lia.
Qed.

(** ** The script is a workload the engine takes *)

Lemma valid_buys n base resting rest :
  valid_workload throughput_config (base + Z.of_nat n) (seqZ base (Z.of_nat n) ++ resting) rest →
  valid_workload throughput_config base resting ((buy_command <$> seqZ base (Z.of_nat n)) ++ rest).
Proof.
  revert base resting. induction n as [|n IH]; intros base resting Hv.
  { by rewrite Z.add_0_r in Hv. }
  rewrite seqZ_cons by lia. replace (Z.pred (Z.of_nat (S n))) with (Z.of_nat n) by lia.
  cbn [fmap list_fmap app valid_workload buy_command lo_id lo_owner lo_price lo_quantity].
  split_and!; try done; simpl; try lia. rewrite Z.add_1_r. apply IH.
  replace (Z.succ base + Z.of_nat n) with (base + Z.of_nat (S n)) by lia. rewrite <- Permutation_middle.
  rewrite seqZ_cons in Hv by lia. replace (Z.pred (Z.of_nat (S n))) with (Z.of_nat n) in Hv by lia. exact Hv.
Qed.

Lemma valid_cancels next l resting rest :
  valid_workload throughput_config next resting rest →
  valid_workload throughput_config next (l ++ resting) ((cancel_command <$> l) ++ rest).
Proof.
  induction l as [|x l IH]; intros Hv; [done|]. cbn [fmap list_fmap app valid_workload cancel_command cr_id].
  exists (l ++ resting). split; [done|by apply IH].
Qed.

Lemma valid_pairs n base resting :
  valid_workload throughput_config base resting (fill_pairs sell_command buy_command n base).
Proof.
  revert base resting. induction n as [|n IH]; intros base resting; cbn [fill_pairs]; [done|].
  cbn [valid_workload sell_command buy_command lo_id lo_owner lo_price lo_quantity].
  split_and!; try done; simpl; try lia. replace (base + 1 + 1) with (base + 2) by lia. apply IH.
Qed.

(** Orders are numbered from 1 and every cancel names an order added before. *)
Lemma script_valid n : valid_workload throughput_config 1 [] (script_commands n).
Proof.
  unfold script_commands, script, kWarmup. change 100 with (Z.of_nat 100). apply valid_buys, valid_cancels.
  change (1 + Z.of_nat 100) with (Z.of_nat 100 + 1). apply valid_buys, valid_cancels, valid_buys, valid_cancels.
  replace (Z.of_nat 100 + 1 + Z.of_nat n + Z.of_nat n) with (Z.of_nat 100 + 1 + 2 * Z.of_nat n) by lia. apply valid_pairs.
Qed.

Lemma script_length n : length (script_commands n) = (200 + 6 * n)%nat.
Proof.
  assert (∀ k base, length (fill_pairs sell_command buy_command k base) = (2 * k)%nat) as Hp.
  { induction k as [|k IH]; intros base; cbn [fill_pairs length]; [done|]. rewrite IH. lia. }
  unfold script_commands, script. rewrite !length_app, !length_fmap, !length_seqZ, Hp, !Nat2Z.id. unfold kWarmup. lia.
Qed.

Lemma pairs_scripted k base :
  0 <= base → base + 2 * Z.of_nat k < 18446744073709551616 → Forall scripted (fill_pairs sell_command buy_command k base).
Proof.
  revert base. induction k as [|k IH]; intros base Hb Hk; cbn [fill_pairs]; [done|].
  constructor; [exists base; split; [u64; lia|auto]|]. constructor; [exists (base + 1); split; [u64; lia|auto]|].
  apply IH; lia.
Qed.

Lemma script_scripted n : Z.of_nat n < 1000000 → Forall scripted (script_commands n).
Proof.
  intros Hn. unfold script_commands, script, kWarmup. rewrite !Forall_app.
  assert (∀ f b m, 0 <= b < 4000000 → m < 2000000 → (∀ id, in_u64 id → scripted (f id)) → Forall scripted (f <$> seqZ b m)) as Hf.
  { intros f b m Hb Hm Hs. apply Forall_fmap, Forall_forall. intros id Hid%elem_of_seqZ. apply Hs. u64. lia. }
  split_and!; try (apply Hf; [lia|lia|intros id Hid; exists id; split; [done|auto]]). apply pairs_scripted; lia.
Qed.

(** ** The session *)

(** The commands of a client, one round trip after the other. *)
Lemma serve_session fd id rounds cmds s rs e' :
  Forall2 (λ chunks c, concat chunks = frame_message (print_command c)) rounds cmds → Forall scripted cmds →
  idle fd id (length cmds) s → run_workload (Ok true) cmds (sc_engine s) = Ok (rs, e') →
  ∃ k s', serve_rounds (Ok true) fd (take k rounds) s = Ok s' ∧
    (connections_ (sc_server s') !! fd = None ∨
     k = length rounds ∧ sc_engine s' = e' ∧ stream id (sc_server s') = stream id (sc_server s) ++ frames (render <$> rs)).
Proof.
  intros Hr. revert s rs. induction Hr as [|chunks c rounds cmds Hc _ IH]; intros s rs Hsc Hid Er; cbn [run_workload] in Er.
  - injection Er as <- <-. exists 0%nat, s. split; [done|]. right. split_and!; try done. by rewrite app_nil_r.
  - apply Forall_cons in Hsc as [[Hsm Hp]%scripted_line Hsc].
    destruct (engine_call (Ok true) c (sc_engine s)) as [[r e1]| |] eqn:E1; [|done..]. cbn [mbind outcome_bind] in Er.
    destruct (run_workload (Ok true) cmds e1) as [[rs1 e2]| |] eqn:E2; [|done..]. cbn [mbind outcome_bind] in Er. injection Er as <- <-.
    destruct (serve_one fd id _ s chunks c r e1 Hid Hc Hsm Hp E1) as (s1 & Es & He1 & [Hgone|[Hid1 Hst1]]).
    + exists 1%nat, s1. cbn [take serve_rounds]. rewrite Es. cbn [mbind outcome_bind]. rewrite take_0. split; [done|by left].
    + rewrite <- He1 in E2. destruct (IH s1 rs1 Hsc Hid1 E2) as (k & s' & Ek & Hcase).
      exists (S k), s'. cbn [take serve_rounds]. rewrite Es. cbn [mbind outcome_bind]. split; [exact Ek|].
      destruct Hcase as [?|(-> & He & Hst)]; [by left|right]. split_and!; try done.
      rewrite Hst, Hst1. unfold frames. by rewrite fmap_cons, <- app_assoc.
Qed.

(** The whole round-trip benchmark: for up to 166000 iterations, however the network splits the
    client's frames, the fresh server executes the commands of the script one after the other, every
    order is accepted and every cancel answered, and, unless it is disconnected, the client's stream
    holds exactly the framed response to each line it sent, in order.  An erased level is taken to read as
    empty. *)
Theorem roundtrip_bench_answered fd id iterations rounds s :
  Z.of_nat iterations <= 166000 → idle fd id (200 + 6 * iterations) s → sc_engine s = context_engine →
  Forall2 (λ chunks line, concat chunks = frame_message line) rounds (script_lines iterations) →
  ∃ rs e', run_workload (Ok true) (script_commands iterations) context_engine = Ok (rs, e') ∧
    Forall2 taken (script_commands iterations) rs ∧
    ∃ k s', serve_rounds (Ok true) fd (take k rounds) s = Ok s' ∧
      (connections_ (sc_server s') !! fd = None ∨
       k = length rounds ∧ sc_engine s' = e' ∧ stream id (sc_server s') = stream id (sc_server s) ++ frames (render <$> rs)).
Proof.
  intros Hn Hid He Hr. rewrite script_lines_print in Hr. apply Forall2_fmap_r in Hr.
  destruct (workload_runs throughput_config (script_commands iterations) 1 [] context_engine (mkABook [] [])) as (rs & e' & Er & Ht);
    [simpl; lia|simpl; lia|apply script_valid| |lia|rewrite script_length; lia|].
  { split; [apply new_inv; lia|done|intros w; simpl; by rewrite lookup_empty| |]; rewrite script_length.
    - change (next_sequence_ context_engine) with 0. lia.
    - change (capacity_ _) with (Z.to_nat 1000000). cbn [ab_entries ab_bids ab_asks app length]. lia. }
  exists rs, e'. split; [exact Er|]. split; [exact Ht|].
  apply (serve_session fd id rounds (script_commands iterations)); [exact Hr|apply script_scripted; lia|by rewrite script_length|by rewrite He].
Qed.

(** A server with one client, whose kernel takes nothing yet. *)
Definition bench_client : TcpServer :=
  mkServer {[7 := mkConn 7 0 [] []]} {[0 := 7]} 1 0 ∅ (replicate 206 SAgain) ∅.

Lemma bench_client_inv : server_inv bench_client.
Proof.
  split; simpl.
  - intros fd c [<- <-]%lookup_singleton_Some. done.
  - intros id fd [<- <-]%lookup_singleton_Some. eexists. by rewrite lookup_singleton_eq.
  - intros id fd [<- <-]%lookup_singleton_Some. lia.
  - lia.
Qed.

Definition demo_context : ServerContext :=
  mkContext context_engine (Ring_new kInbound (mkTaggedCommand 0 (cancel_command 0)))
    (Ring_new kOutbound (mkTaggedResponse 0 (mkResponse Accepted [] 0 0)))
    bench_client 0.

Lemma demo_context_idle : idle 7 0 206 demo_context.
Proof.
  split; cbn [demo_context sc_server sc_inbound sc_outbound sc_eventfd]; try done.
  - apply bench_client_inv.
  - eexists. split; [reflexivity|done].
  - apply (new_holds kInbound 12 kInbound_pow2 ltac:(lia)).
  - apply (new_holds kOutbound 16 kOutbound_pow2 ltac:(lia)).
Qed.

(** One iteration, each frame arriving in one piece. *)
Lemma roundtrip_bench_answered_witness :
  ∃ rs e', run_workload (Ok true) (script_commands 1) context_engine = Ok (rs, e') ∧
    Forall2 taken (script_commands 1) rs ∧
    ∃ k s', serve_rounds (Ok true) 7 (take k ((λ line, [frame_message line]) <$> script_lines 1)) demo_context = Ok s' ∧
      (connections_ (sc_server s') !! 7 = None ∨
       k = length ((λ line, [frame_message line]) <$> script_lines 1) ∧ sc_engine s' = e' ∧
       stream 0 (sc_server s') = stream 0 (sc_server demo_context) ++ frames (render <$> rs)).
Proof.
  apply (roundtrip_bench_answered 7 0 1 _ demo_context); [lia|exact demo_context_idle|reflexivity|].
  apply Forall2_fmap_l, Forall_Forall2_diag, Forall_forall. intros line _. apply app_nil_r.
Defined.

(** ** The samples of [main] *)

(** Which recorder the round trip of a command is timed for. *)
Inductive Timing := Untimed | TimedAdd | TimedCancel | TimedFill.

#[global] Instance Timing_eq_dec : EqDecision Timing.
Proof. solve_decision. Defined.

Definition timings (iterations : nat) : list Timing :=
  replicate 200 Untimed ++ replicate iterations TimedAdd ++ replicate iterations Untimed ++
  replicate iterations Untimed ++ replicate iterations TimedCancel ++
  concat (replicate iterations [Untimed; TimedFill]).

Record Recorders := mkRecorders { rec_no_match : LatencyRecorder; rec_cancel : LatencyRecorder; rec_1fill : LatencyRecorder }.

Definition add_sample (t : Timing) (d : Z) (r : Recorders) : Recorders :=
  match t with
  | Untimed => r
  | TimedAdd => mkRecorders (recorder_record d (rec_no_match r)) (rec_cancel r) (rec_1fill r)
  | TimedCancel => mkRecorders (rec_no_match r) (recorder_record d (rec_cancel r)) (rec_1fill r)
  | TimedFill => mkRecorders (rec_no_match r) (rec_cancel r) (recorder_record d (rec_1fill r))
  end.

(** The clock is read before and after a timed round trip, and not otherwise. *)
Fixpoint record_trips (now : nat → Z) (ts : list Timing) (readings : nat) (r : Recorders) : outcome Recorders :=
  match ts with
  | [] => Ok r
  | t :: ts =>
      if bool_decide (t = Untimed) then record_trips now ts readings r
      else
        d ← i64_sub (now (S readings)) (now readings);
        record_trips now ts (S (S readings)) (add_sample t d r)
  end.

Definition recorder_of (t : Timing) (r : Recorders) : LatencyRecorder :=
  match t with
  | TimedCancel => rec_cancel r | TimedFill => rec_1fill r | _ => rec_no_match r
  end.

(** How often a recorder is due. *)
Fixpoint due (t : Timing) (ts : list Timing) : nat :=
  match ts with [] => 0 | u :: ts => (if bool_decide (u = t) then 1 else 0) + due t ts end.

Lemma due_app t ts us : due t (ts ++ us) = (due t ts + due t us)%nat.
Proof. induction ts as [|u ts IH]; cbn [app due]; lia. Qed.

Lemma due_replicate t u n : due t (replicate n u) = if bool_decide (u = t) then n else 0%nat.
Proof. induction n as [|n IH]; cbn [replicate due]; [by case_match|]. rewrite IH. case_match; lia. Qed.

Lemma timings_due t n : t ≠ Untimed → due t (timings n) = n.
Proof.
  intros Ht. assert (∀ k, due t (concat (replicate k [Untimed; TimedFill])) = if bool_decide (TimedFill = t) then k else 0%nat) as Hp.
  { induction k as [|k IH]; cbn [replicate concat app due]; [by case_match|]. rewrite IH.
    rewrite (bool_decide_false (Untimed = t)) by congruence. case_match; lia. }
  unfold timings. rewrite !due_app, !due_replicate, Hp. destruct t; simpl; done || lia.
Qed.

(** Every timed round trip adds one sample, in range, to its own recorder. *)
Lemma record_trips_samples now ts readings r :
  clock_steady now →
  ∃ r', record_trips now ts readings r = Ok r' ∧ ∀ t, t ≠ Untimed →
    ∃ ds, samples_ (recorder_of t r') = samples_ (recorder_of t r) ++ ds ∧ length ds = due t ts ∧
      Forall (λ d, 0 <= d < 2 ^ 40) ds.
Proof.
  intros Hc. revert readings r. induction ts as [|u ts IH]; intros readings r; cbn [record_trips due].
  { exists r. split; [done|]. intros t _. exists []. by rewrite app_nil_r. }
  destruct (bool_decide_reflect (u = Untimed)) as [->|Hu].
  { destruct (IH readings r) as (r' & E & Hr). exists r'. split; [done|]. intros t Ht.
    rewrite bool_decide_false by congruence. by apply Hr. }
  rewrite i64_sub_fits by (by apply clock_steady_fits). cbn [mbind outcome_bind].
  destruct (IH (S (S readings)) (add_sample u (now (S readings) - now readings) r)) as (r' & E & Hr).
  exists r'. split; [done|]. intros t Ht. destruct (Hr t Ht) as (ds & Hds & Hl & Hf). case_bool_decide as Et.
  - subst u. exists ((now (S readings) - now readings) :: ds). split; [|split; [simpl; lia|by constructor]].
    rewrite Hds. destruct t; simpl; rewrite <- ?app_assoc; done.
  - exists ds. split; [|done]. rewrite Hds. by destruct u, t.
Qed.

(** Each of the three recorders ends with one sample per iteration, and the statistics [main] prints of
    them are defined; the timed commands are as many as the lines sent. *)
Theorem roundtrip_bench_recorded now readings iterations :
  clock_steady now → Z.of_nat iterations <= 166000 →
  length (timings iterations) = length (script_lines iterations) ∧
  ∃ r, record_trips now (timings iterations) readings (mkRecorders LatencyRecorder_new LatencyRecorder_new LatencyRecorder_new) = Ok r ∧
    ∀ t, t ≠ Untimed → recorder_count (recorder_of t r) = Z.of_nat iterations ∧ ∃ v, latency_result (recorder_of t r) = Ok v.
Proof.
  intros Hc Hn. split.
  { rewrite script_lines_print, length_fmap, script_length. unfold timings. rewrite !length_app, !length_replicate.
    assert (∀ k, length (concat (replicate k [Untimed; TimedFill])) = (2 * k)%nat) as ->.
    { induction k as [|k IH]; cbn [replicate concat app length]; [done|]. rewrite IH. lia. }
    lia. }
  destruct (record_trips_samples now (timings iterations) readings (mkRecorders LatencyRecorder_new LatencyRecorder_new LatencyRecorder_new) Hc)
    as (r & E & Hr). exists r. split; [done|]. intros t Ht. destruct (Hr t Ht) as (ds & Hds & Hl & Hf).
  rewrite timings_due in Hl by done.
  assert (samples_ (recorder_of t r) = ds) as Es by (rewrite Hds; by destruct t).
  assert (recorder_count (recorder_of t r) = Z.of_nat iterations) as Hct by (unfold recorder_count; by rewrite Es, Hl).
  split; [done|]. apply latency_result_returns; [by rewrite Es|lia].
Qed.
