(* ===== verification/WeakRing.v ===== *)
(** * WeakRing: the ring under the C++ memory model's release and acquire

    SpscRing interleaves the accesses of the two threads on one memory.  Here
    an atomic index is a history of messages: a load may return any message
    not older than what the thread has already seen of that index, so an
    index of the other thread can be read stale; a release store attaches the
    writer's view to its message, an acquire load joins it to the reader's, a
    relaxed access does neither.  The slots are plain memory: each thread
    counts its accesses to them, a view says how many of each thread's
    accesses happen before, and an access that does not happen after the
    other thread's last access to the slot is a data race.

    Each index has a single writer, so its modification order is the order of
    that thread's stores; values read out of thin air (stores that a relaxed
    load sees before they are made) are outside the model, as they are
    outside the intent of the standard. *)
From S2P Require Import Prelude SpscRing.

(** ** Views and messages *)

Record View := mkView {
  vw_prod : nat;  (** slot accesses of the producer that happen before *)
  vw_cons : nat;  (** slot accesses of the consumer that happen before *)
  vw_head : nat;  (** newest message of [head_] seen *)
  vw_tail : nat   (** newest message of [tail_] seen *) }.

Definition view_start : View := mkView 0 0 0 0.

Definition view_join (v w : View) : View :=
  mkView (Nat.max (vw_prod v) (vw_prod w)) (Nat.max (vw_cons v) (vw_cons w))
         (Nat.max (vw_head v) (vw_head w)) (Nat.max (vw_tail v) (vw_tail w)).

Record Message := mkMessage { ms_value : Z; ms_view : View }.

Inductive MemoryOrder := Relaxed | Acquire | Release.

(** What a load of a message adds to the reader's view, and what a store puts into its message. *)
Definition load_view (o : MemoryOrder) (m : Message) (v : View) : View :=
  match o with Acquire => view_join v (ms_view m) | _ => v end.

Definition store_view (o : MemoryOrder) (v : View) : View :=
  match o with Release => v | _ => view_start end.

Definition see_head (ts : nat) (v : View) : View := view_join v (mkView 0 0 ts 0).

Definition see_tail (ts : nat) (v : View) : View := view_join v (mkView 0 0 0 ts).

(** ** The ring *)

(** A slot: its content, and the number of the last access of each thread to it. *)
Record Slot (T : Type) := mkSlot { sl_item : T; sl_prod : nat; sl_cons : nat }.
Arguments mkSlot {T} _ _ _.
Arguments sl_item {T} _.
Arguments sl_prod {T} _.
Arguments sl_cons {T} _.

(** The memory orders of the accesses of [try_push], [try_pop] and [size]. *)
Definition push_load_tail : MemoryOrder := Relaxed.

Definition push_load_head : MemoryOrder := Acquire.

Definition push_store_tail : MemoryOrder := Release.

Definition pop_load_head : MemoryOrder := Relaxed.

Definition pop_load_tail : MemoryOrder := Acquire.

Definition pop_store_head : MemoryOrder := Release.

Definition size_load : MemoryOrder := Relaxed.

Section Weak.
Context {T : Type}.
Variable capacity : Z.
(** What moving an item out leaves in the slot. *)
Variable moved : T → T.

(** Where the producer is: in [try_push], or in a call of [size].  [WPRoom] is after a [size] below
    the capacity; a push begun there has [waited] set. *)
Inductive wproducer :=
| WPIdle
| WPSizeTail (tail : Z)
| WPSizeBoth (tail head : Z)
| WPRoom
| WPTail (waited : bool) (item : T) (tail : Z)
| WPBoth (waited : bool) (item : T) (tail head : Z)
| WPWrote (item : T) (tail : Z).

Inductive wconsumer :=
| WCIdle
| WCHead (head : Z)
| WCBoth (head tail : Z)
| WCRead (head : Z) (out : T).

Record WeakRun := mkWeak {
  wr_head : list Message; wr_tail : list Message; wr_slots : list (Slot T);
  wr_pview : View; wr_cview : View;
  wr_prod : wproducer; wr_cons : wconsumer;
  wr_pushed : list T; wr_popped : list T }.

Definition weak_start (dflt : T) : WeakRun :=
  mkWeak [mkMessage 0 view_start] [mkMessage 0 view_start]
    (replicate (Z.to_nat capacity) (mkSlot dflt 0 0)) view_start view_start WPIdle WCIdle [] [].

(** [storage_[tail & mask_] = std::move(item)] and [out = std::move(storage_[head & mask_])]: each is
    the accessing thread's next access. *)
Definition produce (v : View) (item : T) (s : Slot T) : Slot T := mkSlot item (S (vw_prod v)) (sl_cons s).

Definition consume (v : View) (s : Slot T) : Slot T := mkSlot (moved (sl_item s)) (sl_prod s) (S (vw_cons v)).

Definition produced (v : View) : View := mkView (S (vw_prod v)) (vw_cons v) (vw_head v) (vw_tail v).

Definition consumed (v : View) : View := mkView (vw_prod v) (S (vw_cons v)) (vw_head v) (vw_tail v).

Inductive weak_step : WeakRun → WeakRun → Prop :=
| weak_size_tail h t sl pv cv c ps qs ts m :
    (vw_tail pv <= ts)%nat → t !! ts = Some m →
    weak_step (mkWeak h t sl pv cv WPIdle c ps qs)
              (mkWeak h t sl (load_view size_load m (see_tail ts pv)) cv (WPSizeTail (ms_value m)) c ps qs)
| weak_size_head h t sl pv cv c ps qs tail ts m :
    (vw_head pv <= ts)%nat → h !! ts = Some m →
    weak_step (mkWeak h t sl pv cv (WPSizeTail tail) c ps qs)
              (mkWeak h t sl (load_view size_load m (see_head ts pv)) cv (WPSizeBoth tail (ms_value m)) c ps qs)
| weak_size_done h t sl pv cv c ps qs tail head :
    weak_step (mkWeak h t sl pv cv (WPSizeBoth tail head) c ps qs)
              (mkWeak h t sl pv cv (if Z.leb capacity (u64_sub tail head) then WPIdle else WPRoom) c ps qs)
| weak_load_tail h t sl pv cv waited c ps qs item ts m :
    (vw_tail pv <= ts)%nat → t !! ts = Some m →
    weak_step (mkWeak h t sl pv cv (if waited : bool then WPRoom else WPIdle) c ps qs)
              (mkWeak h t sl (load_view push_load_tail m (see_tail ts pv)) cv (WPTail waited item (ms_value m)) c ps qs)
| weak_load_head h t sl pv cv c ps qs waited item tail ts m :
    (vw_head pv <= ts)%nat → h !! ts = Some m →
    weak_step (mkWeak h t sl pv cv (WPTail waited item tail) c ps qs)
              (mkWeak h t sl (load_view push_load_head m (see_head ts pv)) cv (WPBoth waited item tail (ms_value m)) c ps qs)
| weak_push_full h t sl pv cv c ps qs waited item tail head :
    ring_full capacity tail head = true →
    weak_step (mkWeak h t sl pv cv (WPBoth waited item tail head) c ps qs) (mkWeak h t sl pv cv WPIdle c ps qs)
| weak_write h t sl pv cv c ps qs waited item tail head s :
    ring_full capacity tail head = false → sl !! slot_of capacity tail = Some s →
    weak_step (mkWeak h t sl pv cv (WPBoth waited item tail head) c ps qs)
              (mkWeak h t (<[slot_of capacity tail := produce pv item s]> sl) (produced pv) cv (WPWrote item tail) c ps qs)
| weak_store_tail h t sl pv cv c ps qs item tail :
    let v := see_tail (length t) pv in
    weak_step (mkWeak h t sl pv cv (WPWrote item tail) c ps qs)
              (mkWeak h (t ++ [mkMessage (u64_add tail 1) (store_view push_store_tail v)]) sl v cv WPIdle c
                      (ps ++ [item]) qs)
| weak_pop_head h t sl pv cv p ps qs ts m :
    (vw_head cv <= ts)%nat → h !! ts = Some m →
    weak_step (mkWeak h t sl pv cv p WCIdle ps qs)
              (mkWeak h t sl pv (load_view pop_load_head m (see_head ts cv)) p (WCHead (ms_value m)) ps qs)
| weak_pop_tail h t sl pv cv p ps qs head ts m :
    (vw_tail cv <= ts)%nat → t !! ts = Some m →
    weak_step (mkWeak h t sl pv cv p (WCHead head) ps qs)
              (mkWeak h t sl pv (load_view pop_load_tail m (see_tail ts cv)) p (WCBoth head (ms_value m)) ps qs)
| weak_pop_empty h t sl pv cv p ps qs head tail :
    ring_empty head tail = true →
    weak_step (mkWeak h t sl pv cv p (WCBoth head tail) ps qs) (mkWeak h t sl pv cv p WCIdle ps qs)
| weak_read h t sl pv cv p ps qs head tail s :
    ring_empty head tail = false → sl !! slot_of capacity head = Some s →
    weak_step (mkWeak h t sl pv cv p (WCBoth head tail) ps qs)
              (mkWeak h t (<[slot_of capacity head := consume cv s]> sl) pv (consumed cv) p (WCRead head (sl_item s)) ps qs)
| weak_store_head h t sl pv cv p ps qs head out :
    let v := see_head (length h) cv in
    weak_step (mkWeak h t sl pv cv p (WCRead head out) ps qs)
              (mkWeak (h ++ [mkMessage (u64_add head 1) (store_view pop_store_head v)]) t sl pv v p WCIdle ps
                      (qs ++ [out])).

Inductive weak_reachable (dflt : T) : WeakRun → Prop :=
| weak_init : weak_reachable dflt (weak_start dflt)
| weak_next s s' : weak_reachable dflt s → weak_step s s' → weak_reachable dflt s'.

(** The next slot access of a thread, if it is at one, is not ordered after the other's last. *)
Definition racy (s : WeakRun) : Prop :=
  (∃ waited item tail head sl, wr_prod s = WPBoth waited item tail head ∧ ring_full capacity tail head = false ∧
     wr_slots s !! slot_of capacity tail = Some sl ∧ (vw_cons (wr_pview s) < sl_cons sl)%nat) ∨
  (∃ head tail sl, wr_cons s = WCBoth head tail ∧ ring_empty head tail = false ∧
     wr_slots s !! slot_of capacity head = Some sl ∧ (vw_prod (wr_cview s) < sl_prod sl)%nat).
End Weak.
Arguments WeakRun T : clear implicits.

(** ** Invariant *)

Section Invariant.
Context {T : Type}.
Variables (capacity k : Z) (moved : T → T).
Hypothesis capacity_pow2 : capacity = 2 ^ k.
Hypothesis capacity_bits : 0 <= k < 63.
Implicit Types (s : WeakRun T).

(** Slot accesses made: one per published item, and one more in flight. *)
Definition writes s : nat := length (wr_pushed s) + match wr_prod s with WPWrote _ _ => 1 | _ => 0 end.

Definition reads s : nat := length (wr_popped s) + match wr_cons s with WCRead _ _ => 1 | _ => 0 end.

(** The items written, published or not. *)
Definition written s : list T := wr_pushed s ++ match wr_prod s with WPWrote item _ => [item] | _ => [] end.

(** No view is ahead of what has happened. *)
Definition view_ok s (v : View) : Prop :=
  (vw_prod v <= writes s)%nat ∧ (vw_cons v <= reads s)%nat ∧
  (vw_head v <= length (wr_popped s))%nat ∧ (vw_tail v <= length (wr_pushed s))%nat.

(** The [i]-th message of an index holds [i], and its view covers the first [i] accesses of its writer. *)
Record history s (l : list Message) (n : nat) (covers : View → nat) : Prop := {
  hi_length : length l = S n;
  hi_value i m : l !! i = Some m → ms_value m = Z.of_nat i;
  hi_covers i m : l !! i = Some m → (i <= covers (ms_view m))%nat;
  hi_ok i m : l !! i = Some m → view_ok s (ms_view m) }.

Definition producer_ok s : Prop :=
  let tail := Z.of_nat (length (wr_pushed s)) in
  let room := tail < Z.of_nat (vw_head (wr_pview s)) + capacity in
  let saw h := ∃ n, h = Z.of_nat n ∧ (n <= vw_head (wr_pview s))%nat in
  match wr_prod s with
  | WPIdle => True
  | WPSizeTail t => t = tail
  | WPSizeBoth t h => t = tail ∧ saw h
  | WPRoom => room
  | WPTail waited _ t => t = tail ∧ (waited = true → room)
  | WPBoth waited _ t h => t = tail ∧ saw h ∧ h <= Z.of_nat (vw_cons (wr_pview s)) ∧ (waited = true → tail < h + capacity)
  | WPWrote _ t => t = tail
  end.

Definition consumer_ok s : Prop :=
  let head := Z.of_nat (length (wr_popped s)) in
  match wr_cons s with
  | WCIdle => True
  | WCHead h => h = head
  | WCBoth h t => h = head ∧ ∃ n, t = Z.of_nat n ∧ (n <= vw_prod (wr_cview s))%nat ∧ (n <= length (wr_pushed s))%nat
  | WCRead h out => h = head ∧ wr_pushed s !! length (wr_popped s) = Some out
  end.

Record weak_inv s : Prop := {
  wi_tail : history s (wr_tail s) (length (wr_pushed s)) vw_prod;
  wi_head : history s (wr_head s) (length (wr_popped s)) vw_cons;
  wi_pview : view_ok s (wr_pview s) ∧ vw_prod (wr_pview s) = writes s ∧ vw_tail (wr_pview s) = length (wr_pushed s);
  wi_cview : view_ok s (wr_cview s) ∧ vw_cons (wr_cview s) = reads s ∧ vw_head (wr_cview s) = length (wr_popped s);
  wi_size : (reads s <= length (wr_pushed s))%nat;
  wi_room : Z.of_nat (writes s) <= Z.of_nat (length (wr_popped s)) + capacity;
  wi_slots : length (wr_slots s) = Z.to_nat capacity;
  wi_prod_last i sl : Z.of_nat (reads s) <= i < Z.of_nat (reads s) + capacity →
    wr_slots s !! slot_of capacity i = Some sl → Z.of_nat (sl_prod sl) <= i + 1;
  wi_cons_last i sl : Z.of_nat (reads s) <= i < Z.of_nat (reads s) + capacity →
    wr_slots s !! slot_of capacity i = Some sl → Z.of_nat (sl_cons sl) <= Z.max 0 (i + 1 - capacity);
  wi_items i sl : (reads s <= i < writes s)%nat →
    wr_slots s !! slot_of capacity (Z.of_nat i) = Some sl → written s !! i = Some (sl_item sl);
  wi_fifo : wr_popped s `prefix_of` wr_pushed s;
  wi_producer : producer_ok s;
  wi_consumer : consumer_ok s }.

Lemma view_ok_mono s s' v :
  (writes s <= writes s')%nat → (reads s <= reads s')%nat → (length (wr_popped s) <= length (wr_popped s'))%nat →
  (length (wr_pushed s) <= length (wr_pushed s'))%nat → view_ok s v → view_ok s' v.
Proof. unfold view_ok. lia. Qed.

Lemma history_mono s s' l n covers :
  (writes s <= writes s')%nat → (reads s <= reads s')%nat → (length (wr_popped s) <= length (wr_popped s'))%nat →
  (length (wr_pushed s) <= length (wr_pushed s'))%nat → history s l n covers → history s' l n covers.
Proof. intros ???? []. split; try done. intros i m Hm. eapply view_ok_mono; eauto. Qed.

(** A view only grows, within what has happened. *)
Definition view_le (v w : View) : Prop :=
  (vw_prod v <= vw_prod w)%nat ∧ (vw_cons v <= vw_cons w)%nat ∧ (vw_head v <= vw_head w)%nat ∧ (vw_tail v <= vw_tail w)%nat.

Lemma load_view_grows s o m v :
  view_ok s v → view_ok s (ms_view m) → view_ok s (load_view o m v) ∧ view_le v (load_view o m v) ∧
  (o = Acquire → view_le (ms_view m) (load_view o m v)).
Proof. destruct o; unfold view_ok, view_le; simpl; try (intuition lia); intros; split_and!; try lia; done. Qed.

Lemma see_head_grows s ts v :
  view_ok s v → (ts <= length (wr_popped s))%nat →
  view_ok s (see_head ts v) ∧ view_le v (see_head ts v) ∧ (ts <= vw_head (see_head ts v))%nat.
Proof. unfold view_ok, view_le; simpl. lia. Qed.

Lemma see_tail_grows s ts v :
  view_ok s v → (ts <= length (wr_pushed s))%nat →
  view_ok s (see_tail ts v) ∧ view_le v (see_tail ts v) ∧ (ts <= vw_tail (see_tail ts v))%nat.
Proof. unfold view_ok, view_le; simpl. lia. Qed.

(** One more message, as the writer of an index appends it. *)
Lemma history_snoc s l n covers value v :
  history s l n covers → value = Z.of_nat (S n) → (S n <= covers v)%nat → view_ok s v →
  history s (l ++ [mkMessage value v]) (S n) covers.
Proof.
  intros [Hl Hv Hc Ho] Ev Hcov Hok. assert (∀ i m, (l ++ [mkMessage value v]) !! i = Some m →
    l !! i = Some m ∨ i = S n ∧ m = mkMessage value v) as Hcase.
  { intros i m Hm. apply lookup_app_Some in Hm as [?|[Hi Hm]]; [by left|right].
    apply list_lookup_singleton_Some in Hm as [Hi' <-]. split; [lia|done]. }
  split.
  - rewrite length_app. simpl. lia.
  - intros i m [Hm|[-> ->]]%Hcase; [by eapply Hv|done].
  - intros i m [Hm|[-> ->]]%Hcase; [by eapply Hc|done].
  - intros i m [Hm|[-> ->]]%Hcase; [by eapply Ho|done].
Qed.

Definition in_flight_p (p : wproducer (T := T)) : bool := match p with WPWrote _ _ => true | _ => false end.

Definition in_flight_c (c : wconsumer (T := T)) : bool := match c with WCRead _ _ => true | _ => false end.

(** Steps that only move the producer, or only the consumer, and make its view grow. *)
Lemma producer_moves h t sl pv pv' cv p p' c ps qs :
  let s := mkWeak h t sl pv cv p c ps qs in
  let s' := mkWeak h t sl pv' cv p' c ps qs in
  weak_inv s → in_flight_p p = false → in_flight_p p' = false → view_ok s pv' → view_le pv pv' →
  producer_ok s' → weak_inv s'.
Proof.
  intros s s' [Ht Hh Hp Hc Hsz Hrm Hsl Hpl Hcl Hit Hff _ Hco] Ep Ep' Hok Hle Hpr.
  assert (writes s' = writes s) as Ew by (unfold writes; simpl; destruct p, p'; done).
  assert (written s' = written s) as Ewr by (unfold written; simpl; destruct p, p'; done).
  assert (∀ v, view_ok s v ↔ view_ok s' v) as Hv by (intros v; unfold view_ok; by rewrite Ew).
  split; rewrite ?Ew, ?Ewr; try done.
  - eapply history_mono; [..|exact Ht]; by rewrite ?Ew.
  - eapply history_mono; [..|exact Hh]; by rewrite ?Ew.
  - split; [by apply Hv|]. unfold view_ok, view_le in *. simpl in *. lia.
  - split; [apply Hv, Hc|apply Hc].
Qed.

Lemma consumer_moves h t sl pv cv cv' p c c' ps qs :
  let s := mkWeak h t sl pv cv p c ps qs in
  let s' := mkWeak h t sl pv cv' p c' ps qs in
  weak_inv s → in_flight_c c = false → in_flight_c c' = false → view_ok s cv' → view_le cv cv' →
  consumer_ok s' → weak_inv s'.
Proof.
  intros s s' [Ht Hh Hp Hc Hsz Hrm Hsl Hpl Hcl Hit Hff Hpo _] Ec Ec' Hok Hle Hco.
  assert (reads s' = reads s) as Er by (unfold reads; simpl; destruct c, c'; done).
  assert (∀ v, view_ok s v ↔ view_ok s' v) as Hv by (intros v; unfold view_ok; by rewrite Er).
  split; rewrite ?Er; try done.
  - eapply history_mono; [..|exact Ht]; by rewrite ?Er.
  - eapply history_mono; [..|exact Hh]; by rewrite ?Er.
  - split; [apply Hv, Hp|apply Hp].
  - split; [by apply Hv|]. unfold view_ok, view_le in *. simpl in *. lia.
Qed.

(** Indices of one lap name different slots; a lap later it is the same slot. *)
Lemma slot_window r i j :
  0 <= r → r <= i < r + capacity → r <= j < r + capacity → slot_of capacity i = slot_of capacity j → i = j.
Proof.
  intros Hr Hi Hj E. destruct (Z.lt_trichotomy i j) as [Hlt|[->|Hgt]]; [|done|].
  - by apply (slot_of_inj _ _ capacity_pow2 capacity_bits i j) in E; try lia.
  - by symmetry in E; apply (slot_of_inj _ _ capacity_pow2 capacity_bits j i) in E; try lia.
Qed.

Lemma slot_lap i : 0 <= i → slot_of capacity (i + capacity) = slot_of capacity i.
Proof.
  intros Hi. pose proof (capacity_bounds _ _ capacity_pow2 capacity_bits).
  rewrite !(slot_of_mod _ _ capacity_pow2 capacity_bits) by lia. f_equal.
  replace (i + capacity) with (i + 1 * capacity) by lia. apply Z_mod_plus_full.
Qed.

Lemma weak_start_inv dflt : weak_inv (weak_start capacity dflt).
Proof.
  pose proof (capacity_bounds _ _ capacity_pow2 capacity_bits).
  assert (∀ covers, history (weak_start capacity dflt) [mkMessage 0 view_start] 0 covers) as Hh.
  { intros covers. split; [done|..]; intros i m [-> <-]%list_lookup_singleton_Some; try done; simpl; lia. }
  assert (∀ i sl, wr_slots (weak_start capacity dflt) !! i = Some sl → sl = mkSlot dflt 0 0) as Hs.
  { intros i sl [-> _]%lookup_replicate_1. done. }
  split; try done; try apply Hh; try (unfold reads, writes; simpl; lia); simpl.
  - apply length_replicate.
  - intros i sl Hi ->%Hs. simpl. lia.
  - intros i sl Hi ->%Hs. simpl. lia.
Qed.

(** What a load returns. *)
Lemma history_load s l n covers i m :
  history s l n covers → l !! i = Some m →
  (i <= n)%nat ∧ ms_value m = Z.of_nat i ∧ (i <= covers (ms_view m))%nat ∧ view_ok s (ms_view m).
Proof.
  intros [Hl Hv Hc Ho] Hm. pose proof (lookup_lt_Some _ _ _ Hm). split_and!; eauto. lia.
Qed.

(** The producer's plain access. *)
Lemma weak_write_inv h t sl pv cv c ps qs waited item tail head x :
  weak_inv (mkWeak h t sl pv cv (WPBoth waited item tail head) c ps qs) → Z.of_nat (length ps) < 18446744073709551616 →
  ring_full capacity tail head = false → sl !! slot_of capacity tail = Some x →
  weak_inv (mkWeak h t (<[slot_of capacity tail := produce pv item x]> sl) (produced pv) cv (WPWrote item tail) c ps qs).
Proof.
  intros Hi Hn Hf Hx. pose proof (wi_producer _ Hi) as Hpo. unfold producer_ok in Hpo. cbn in Hpo. destruct Hpo as (-> & (n & -> & Hnh) & Hhc & _).
  set (s := mkWeak h t sl pv cv _ c ps qs) in Hi. set (s' := mkWeak h t _ _ cv (WPWrote _ _) c ps qs).
  set (r := reads s). assert (reads s' = r ∧ writes s = length ps ∧ writes s' = S (length ps) ∧ (length qs <= r)%nat) as (Er & Ew & Ew' & Hq)
    by (unfold r, reads, writes; simpl; lia).
  pose proof (wi_pview _ Hi) as (Hpv & Hpw & Hpt). pose proof (wi_size _ Hi : (r <= length ps)%nat) as Hsz.
  change (vw_prod pv = writes s) in Hpw. change (vw_tail pv = length ps) in Hpt.
  assert (vw_cons pv <= r ∧ vw_head pv <= length qs)%nat as [Hpc Hph] by (destruct Hpv as (_ & ? & ? & _); done).
  rewrite ring_full_spec in Hf by lia. apply Z.leb_gt in Hf. apply lookup_lt_Some in Hx as Hlt.
  assert (∀ i, Z.of_nat r <= i < Z.of_nat r + capacity →
    slot_of capacity i = slot_of capacity (Z.of_nat (length ps)) → i = Z.of_nat (length ps)) as Hw
    by (intros i Hr; apply (slot_window (Z.of_nat r)); lia).
  assert (∀ i y, Z.of_nat r <= i < Z.of_nat r + capacity → wr_slots s' !! slot_of capacity i = Some y →
    (i = Z.of_nat (length ps) ∧ y = produce pv item x) ∨ (i ≠ Z.of_nat (length ps) ∧ sl !! slot_of capacity i = Some y)) as Hcase.
  { intros i y Hr Hy. cbn [s' wr_slots] in Hy. destruct (decide (i = Z.of_nat (length ps))) as [->|Hne].
    - rewrite list_lookup_insert_eq in Hy by done. injection Hy as <-. by left.
    - rewrite list_lookup_insert_ne in Hy by (intros E; by apply Hne, Hw). by right. }
  assert (∀ v, view_ok s v → view_ok s' v) as Hv by (intros v; apply view_ok_mono; rewrite ?Er, ?Ew, ?Ew'; simpl; lia).
  assert (∀ l m cov, history s l m cov → history s' l m cov) as Hhist
    by (intros l m cov; apply history_mono; rewrite ?Er, ?Ew, ?Ew'; simpl; lia).
  split; rewrite ?Er, ?Ew'.
  - apply Hhist, Hi.
  - apply Hhist, Hi.
  - unfold view_ok. rewrite Er, Ew'. simpl. lia.
  - split; [apply Hv, Hi|apply (wi_cview _ Hi)].
  - exact Hsz.
  - simpl. lia.
  - simpl. rewrite length_insert. apply (wi_slots _ Hi).
  - intros i y Hr [[-> ->]|[_ Hy]]%Hcase; [simpl; lia|by apply (wi_prod_last _ Hi)|done].
  - intros i y Hr [[-> ->]|[_ Hy]]%Hcase; [by apply (wi_cons_last _ Hi _ x)|by apply (wi_cons_last _ Hi)|done].
  - intros i y Hr [[E ->]|[Hne Hy]]%Hcase; [| |lia]; unfold written; simpl.
    + replace i with (length ps) by lia. by rewrite lookup_app_r, Nat.sub_diag.
    + rewrite lookup_app_l by lia. pose proof (wi_items _ Hi i y ltac:(fold r; lia) Hy) as Hit.
      unfold written in Hit. simpl in Hit. by rewrite app_nil_r in Hit.
  - apply (wi_fifo _ Hi).
  - done.
  - apply (wi_consumer _ Hi).
Qed.

(** The consumer's plain access finds the next item, published. *)
Lemma weak_read_inv h t sl pv cv p ps qs head tail x :
  weak_inv (mkWeak h t sl pv cv p (WCBoth head tail) ps qs) → ring_empty head tail = false →
  sl !! slot_of capacity head = Some x →
  weak_inv (mkWeak h t (<[slot_of capacity head := consume moved cv x]> sl) pv (consumed cv) p (WCRead head (sl_item x)) ps qs).
Proof.
  intros Hi He Hx. pose proof (wi_consumer _ Hi) as Hco. unfold consumer_ok in Hco. cbn in Hco.
  destruct Hco as (-> & n & -> & Hnv & Hnp). unfold ring_empty in He. apply Z.leb_gt in He.
  set (s := mkWeak h t sl pv cv p _ ps qs) in Hi. set (s' := mkWeak h t _ pv _ p (WCRead _ _) ps qs).
  set (w := writes s). assert (writes s' = w ∧ reads s = length qs ∧ reads s' = S (length qs) ∧ (length ps <= w)%nat) as (Ew & Er & Er' & Hp)
    by (unfold w, reads, writes; simpl; lia).
  pose proof (wi_room _ Hi : Z.of_nat w <= Z.of_nat (length qs) + capacity) as Hrm.
  pose proof (capacity_bounds _ _ capacity_pow2 capacity_bits) as Hcap. apply lookup_lt_Some in Hx as Hlt.
  assert (∀ i y, Z.of_nat (S (length qs)) <= i < Z.of_nat (S (length qs)) + capacity → wr_slots s' !! slot_of capacity i = Some y →
    (i = Z.of_nat (length qs) + capacity ∧ y = consume moved cv x) ∨
    (i < Z.of_nat (length qs) + capacity ∧ sl !! slot_of capacity i = Some y)) as Hcase.
  { intros i y Hr Hy. cbn [s' wr_slots] in Hy. destruct (decide (i = Z.of_nat (length qs) + capacity)) as [->|Hne].
    - rewrite slot_lap, list_lookup_insert_eq in Hy by (done || lia). injection Hy as <-. by left.
    - rewrite list_lookup_insert_ne in Hy; [right; split; [lia|done]|]. apply (slot_of_inj _ _ capacity_pow2 capacity_bits); lia. }
  assert (∀ v, view_ok s v → view_ok s' v) as Hv by (intros v; apply view_ok_mono; rewrite ?Er, ?Er', ?Ew; simpl; lia).
  assert (∀ l m cov, history s l m cov → history s' l m cov) as Hhist
    by (intros l m cov; apply history_mono; rewrite ?Er, ?Er', ?Ew; simpl; lia).
  pose proof (wi_cview _ Hi) as (Hcv & Hcw & Hch). change (vw_cons cv = reads s) in Hcw. change (vw_head cv = length qs) in Hch.
  assert (Z.of_nat (reads s) <= Z.of_nat (length qs) < Z.of_nat (reads s) + capacity) as Hin by lia.
  pose proof (wi_prod_last _ Hi _ x Hin Hx) as Hxp.
  assert (vw_prod cv <= w ∧ vw_tail cv <= length ps)%nat as [Hcp Hct] by (destruct Hcv as (? & _ & _ & ?); done).
  split; rewrite ?Er', ?Ew.
  - apply Hhist, Hi.
  - apply Hhist, Hi.
  - split; [apply Hv, Hi|apply (wi_pview _ Hi)].
  - unfold view_ok. rewrite Er', Ew. simpl. lia.
  - simpl. lia.
  - exact Hrm.
  - simpl. rewrite length_insert. apply (wi_slots _ Hi).
  - intros i y Hr [[-> ->]|[Hl Hy]]%Hcase; [simpl; lia|apply (wi_prod_last _ Hi); [lia|done]|done].
  - intros i y Hr [[-> ->]|[Hl Hy]]%Hcase; [simpl; lia|apply (wi_cons_last _ Hi); [lia|done]|done].
  - intros i y Hr [[E _]|[_ Hy]]%Hcase; [lia| |lia]. apply (wi_items _ Hi); [fold w; lia|done].
  - apply (wi_fifo _ Hi).
  - apply (wi_producer _ Hi).
  - split; [done|]. simpl. pose proof (wi_items _ Hi (length qs) x ltac:(fold w; lia) Hx) as Hit.
    unfold written in Hit. simpl in Hit. by rewrite lookup_app_l in Hit by lia.
Qed.

(** The two publishing stores. *)
Lemma weak_store_tail_inv h t sl pv cv c ps qs item tail :
  weak_inv (mkWeak h t sl pv cv (WPWrote item tail) c ps qs) → Z.of_nat (length ps) < 18446744073709551615 →
  let v := see_tail (length t) pv in
  weak_inv (mkWeak h (t ++ [mkMessage (u64_add tail 1) (store_view push_store_tail v)]) sl v cv WPIdle c (ps ++ [item]) qs).
Proof.
  intros Hi Hn v. pose proof (wi_producer _ Hi) as Hpo. unfold producer_ok in Hpo. cbn in Hpo. subst tail.
  set (s := mkWeak h t sl pv cv _ c ps qs) in Hi. set (s' := mkWeak h _ sl v cv WPIdle c _ qs).
  assert (reads s' = reads s ∧ writes s = S (length ps) ∧ writes s' = S (length ps) ∧ written s' = written s) as (Er & Ew & Ew' & Ewr).
  { unfold reads, writes, written. simpl. rewrite length_app, app_nil_r. simpl. split_and!; done || lia. }
  assert (length (wr_pushed s') = S (length ps)) as El by (simpl; rewrite length_app; simpl; lia).
  assert (∀ v, view_ok s v → view_ok s' v) as Hv by (intros ?; apply view_ok_mono; rewrite ?Er, ?Ew, ?Ew', ?El; simpl; lia).
  assert (∀ l m cov, history s l m cov → history s' l m cov) as Hhist
    by (intros l m cov; apply history_mono; rewrite ?Er, ?Ew, ?Ew', ?El; simpl; lia).
  pose proof (wi_pview _ Hi) as (Hpv & Hpw & Hpt). change (vw_prod pv = writes s) in Hpw. change (vw_tail pv = length ps) in Hpt.
  pose proof (hi_length _ _ _ _ (wi_tail _ Hi) : length t = S (length ps)) as Hl.
  assert (view_ok s' v) as Hvv.
  { apply Hv in Hpv. unfold view_ok in *. rewrite El in *. unfold v. simpl in *. lia. }
  split; rewrite ?Er, ?Ew', ?Ewr, ?El.
  - apply history_snoc; [apply Hhist, Hi| | |exact Hvv].
    + unfold u64_add. rewrite wrap64_small; [lia|u64; lia].
    + unfold v. simpl. lia.
  - apply Hhist, Hi.
  - split; [exact Hvv|]. unfold v. simpl. lia.
  - split; [apply Hv, Hi|apply (wi_cview _ Hi)].
  - pose proof (wi_size _ Hi). simpl in *. lia.
  - pose proof (wi_room _ Hi) as Hrm. rewrite Ew in Hrm. exact Hrm.
  - apply (wi_slots _ Hi).
  - apply (wi_prod_last _ Hi).
  - apply (wi_cons_last _ Hi).
  - rewrite <- Ew. apply (wi_items _ Hi).
  - apply prefix_app_r, (wi_fifo _ Hi).
  - done.
  - pose proof (wi_consumer _ Hi) as Hco. unfold consumer_ok in *. cbn in *. destruct c as [| |hd tl|hd out]; try done.
    + destruct Hco as (-> & n & -> & ? & ?). split; [done|]. exists n. rewrite length_app. split_and!; try done. lia.
    + destruct Hco as [-> Hl']. split; [done|]. rewrite lookup_app_l; [done|]. by apply lookup_lt_Some in Hl'.
Qed.

Lemma weak_store_head_inv h t sl pv cv p ps qs head out :
  weak_inv (mkWeak h t sl pv cv p (WCRead head out) ps qs) → Z.of_nat (length ps) < 18446744073709551616 →
  let v := see_head (length h) cv in
  weak_inv (mkWeak (h ++ [mkMessage (u64_add head 1) (store_view pop_store_head v)]) t sl pv v p WCIdle ps (qs ++ [out])).
Proof.
  intros Hi Hn v. pose proof (wi_consumer _ Hi) as Hco. unfold consumer_ok in Hco. cbn in Hco. destruct Hco as [-> Hout].
  set (s := mkWeak h t sl pv cv p _ ps qs) in Hi. set (s' := mkWeak _ t sl pv v p WCIdle ps _).
  assert (writes s' = writes s ∧ reads s = S (length qs) ∧ reads s' = S (length qs)) as (Ew & Er & Er').
  { unfold reads, writes. simpl. rewrite length_app. simpl. lia. }
  assert (length (wr_popped s') = S (length qs)) as El by (simpl; rewrite length_app; simpl; lia).
  assert (∀ v, view_ok s v → view_ok s' v) as Hv by (intros ?; apply view_ok_mono; rewrite ?Er, ?Er', ?Ew, ?El; simpl; lia).
  assert (∀ l m cov, history s l m cov → history s' l m cov) as Hhist
    by (intros l m cov; apply history_mono; rewrite ?Er, ?Er', ?Ew, ?El; simpl; lia).
  pose proof (wi_cview _ Hi) as (Hcv & Hcw & Hch). change (vw_cons cv = reads s) in Hcw. change (vw_head cv = length qs) in Hch.
  pose proof (hi_length _ _ _ _ (wi_head _ Hi) : length h = S (length qs)) as Hl. apply lookup_lt_Some in Hout as Hlt.
  assert (view_ok s' v) as Hvv.
  { apply Hv in Hcv. unfold view_ok in *. rewrite El in *. unfold v. simpl in *. lia. }
  split; rewrite ?Er', ?Ew, ?El.
  - apply Hhist, Hi.
  - apply history_snoc; [apply Hhist, Hi| | |exact Hvv].
    + unfold u64_add. rewrite wrap64_small; [lia|u64; lia].
    + unfold v. simpl. lia.
  - split; [apply Hv, Hi|apply (wi_pview _ Hi)].
  - split; [exact Hvv|]. unfold v. simpl. lia.
  - simpl. lia.
  - pose proof (wi_room _ Hi) as Hrm. simpl in Hrm. lia.
  - apply (wi_slots _ Hi).
  - rewrite <- Er. apply (wi_prod_last _ Hi).
  - rewrite <- Er. apply (wi_cons_last _ Hi).
  - rewrite <- Er. apply (wi_items _ Hi).
  - pose proof (wi_fifo _ Hi) as [rest Er2]. simpl in Er2. simpl. subst ps. rewrite lookup_app_r, Nat.sub_diag in Hout by lia.
    destruct rest as [|y rest]; [done|]. simpl in Hout. injection Hout as ->. exists rest. by rewrite <- app_assoc.
  - apply (wi_producer _ Hi).
  - done.
Qed.

(** ** Every step keeps it *)

(** The writer of an index reads its own last store; the other thread reads any store it has not seen past. *)
Lemma producer_loads_tail s ts m o :
  weak_inv s → (vw_tail (wr_pview s) <= ts)%nat → wr_tail s !! ts = Some m →
  ms_value m = Z.of_nat (length (wr_pushed s)) ∧ view_ok s (load_view o m (see_tail ts (wr_pview s))) ∧
  view_le (wr_pview s) (load_view o m (see_tail ts (wr_pview s))).
Proof.
  intros Hi Hts Hm. destruct (history_load _ _ _ _ _ _ (wi_tail _ Hi) Hm) as (Hn & Ev & _ & Hok).
  destruct (wi_pview _ Hi) as (Hpv & _ & Ht). split; [rewrite Ev; f_equal; lia|].
  destruct (see_tail_grows s ts _ Hpv Hn) as (H1 & H2 & _). destruct (load_view_grows s o m _ H1 Hok) as (H3 & H4 & _).
  split; [done|]. unfold view_le in *. lia.
Qed.

Lemma producer_loads_head s ts m o :
  weak_inv s → (vw_head (wr_pview s) <= ts)%nat → wr_head s !! ts = Some m →
  let v := load_view o m (see_head ts (wr_pview s)) in
  ms_value m = Z.of_nat ts ∧ view_ok s v ∧ view_le (wr_pview s) v ∧ (ts <= vw_head v)%nat ∧ (o = Acquire → (ts <= vw_cons v)%nat).
Proof.
  intros Hi Hts Hm v. destruct (history_load _ _ _ _ _ _ (wi_head _ Hi) Hm) as (Hn & Ev & Hc & Hok).
  destruct (wi_pview _ Hi) as (Hpv & _ & _). destruct (see_head_grows s ts _ Hpv Hn) as (H1 & H2 & H2').
  destruct (load_view_grows s o m _ H1 Hok) as (H3 & H4 & H5). fold v in H3, H4, H5. unfold view_le in *.
  split_and!; try done; try lia. intros E. specialize (H5 E). lia.
Qed.

Lemma consumer_loads_head s ts m o :
  weak_inv s → (vw_head (wr_cview s) <= ts)%nat → wr_head s !! ts = Some m →
  ms_value m = Z.of_nat (length (wr_popped s)) ∧ view_ok s (load_view o m (see_head ts (wr_cview s))) ∧
  view_le (wr_cview s) (load_view o m (see_head ts (wr_cview s))).
Proof.
  intros Hi Hts Hm. destruct (history_load _ _ _ _ _ _ (wi_head _ Hi) Hm) as (Hn & Ev & _ & Hok).
  destruct (wi_cview _ Hi) as (Hcv & _ & Ht). split; [rewrite Ev; f_equal; lia|].
  destruct (see_head_grows s ts _ Hcv Hn) as (H1 & H2 & _). destruct (load_view_grows s o m _ H1 Hok) as (H3 & H4 & _).
  split; [done|]. unfold view_le in *. lia.
Qed.

Lemma consumer_loads_tail s ts m :
  weak_inv s → (vw_tail (wr_cview s) <= ts)%nat → wr_tail s !! ts = Some m →
  let v := load_view pop_load_tail m (see_tail ts (wr_cview s)) in
  ms_value m = Z.of_nat ts ∧ view_ok s v ∧ view_le (wr_cview s) v ∧ (ts <= vw_prod v)%nat ∧ (ts <= length (wr_pushed s))%nat.
Proof.
  intros Hi Hts Hm v. destruct (history_load _ _ _ _ _ _ (wi_tail _ Hi) Hm) as (Hn & Ev & Hc & Hok).
  destruct (wi_cview _ Hi) as (Hcv & _ & _). destruct (see_tail_grows s ts _ Hcv Hn) as (H1 & H2 & H2').
  destruct (load_view_grows s pop_load_tail m _ H1 Hok) as (H3 & H4 & H5). fold v in H3, H4, H5.
  specialize (H5 eq_refl). unfold view_le in *. split_and!; try done; lia.
Qed.

Lemma weak_step_inv s s' :
  weak_step capacity moved s s' → weak_inv s → Z.of_nat (length (wr_pushed s')) < 18446744073709551616 → weak_inv s'.
Proof.
  intros Hs Hi Hn. pose proof (wi_producer _ Hi) as Hpo. pose proof (wi_consumer _ Hi) as Hco.
  unfold producer_ok in Hpo. unfold consumer_ok in Hco. destruct Hs; cbn in Hn, Hpo, Hco.
  - destruct (producer_loads_tail _ ts m size_load Hi) as (Ev & Hok & Hle); [done..|]. by eapply producer_moves.
  - destruct (producer_loads_head _ ts m size_load Hi) as (Ev & Hok & Hle & Hh & _); [done..|].
    eapply producer_moves; try done. split; [done|]. exists ts. split; [done|exact Hh].
  - destruct Hpo as (-> & n & -> & Hh). apply (producer_moves _ _ _ pv) with (p := WPSizeBoth (Z.of_nat (length ps)) (Z.of_nat n)); try done.
    + by destruct (Z.leb _ _).
    + apply (wi_pview _ Hi).
    + unfold producer_ok. cbn. destruct (Z.leb_spec capacity (u64_sub (Z.of_nat (length ps)) (Z.of_nat n))) as [|Hr]; [done|].
      destruct (wi_pview _ Hi) as ((_ & _ & Hph & _) & _). pose proof (wi_size _ Hi) as Hsz. unfold reads in Hsz. cbn in Hph, Hsz, Hh.
      rewrite u64_sub_small in Hr by (u64; lia). lia.
  - destruct (producer_loads_tail _ ts m push_load_tail Hi) as (Ev & Hok & Hle); [done..|].
    eapply producer_moves; try done; [by destruct waited|]. split; [done|]. intros ->. cbn in Hpo |- *. unfold view_le in Hle. cbn in Hle. lia.
  - destruct (producer_loads_head _ ts m push_load_head Hi) as (Ev & Hok & Hle & Hh & Hc); [done..|]. destruct Hpo as [-> Hw].
    eapply producer_moves; try done. unfold producer_ok. cbn [wr_prod wr_pushed wr_pview] in *. rewrite Ev. split_and!; try done.
    + by exists ts.
    + specialize (Hc eq_refl). lia.
    + intros ->. specialize (Hw eq_refl). cbn in H. lia.
  - eapply producer_moves; try done. apply (wi_pview _ Hi).
  - by eapply weak_write_inv.
  - rewrite length_app in Hn. apply weak_store_tail_inv; [done|cbn in Hn; lia].
  - destruct (consumer_loads_head _ ts m pop_load_head Hi) as (Ev & Hok & Hle); [done..|]. by eapply consumer_moves.
  - destruct (consumer_loads_tail _ ts m Hi) as (Ev & Hok & Hle & Hp & Hl); [done..|].
    eapply consumer_moves; try done. split; [done|]. by exists ts.
  - eapply consumer_moves; try done. apply (wi_cview _ Hi).
  - by eapply weak_read_inv.
  - by apply weak_store_head_inv.
Qed.

Lemma weak_step_pushed s s' :
  weak_step capacity moved s s' → (length (wr_pushed s) <= length (wr_pushed s'))%nat.
Proof. destruct 1; simpl; rewrite ?length_app; lia. Qed.

Lemma weak_reachable_inv dflt s :
  weak_reachable capacity moved dflt s → Z.of_nat (length (wr_pushed s)) < 18446744073709551616 → weak_inv s.
Proof.
  induction 1 as [|s s' Hr IH Hs]; intros Hn; [apply weak_start_inv|].
  eapply weak_step_inv; try done. apply IH. apply weak_step_pushed in Hs. lia.
Qed.
End Invariant.

(** ** Properties *)

Section Properties.
Context {T : Type}.
Implicit Types s : WeakRun T.

(** C15. FIFO under the memory orders of the code: in every run of a producer and a consumer in which any
    load of the other thread's index may be stale, what has been popped is a prefix of what has been
    pushed, in order, without loss, duplication or reordering, and at most [capacity] items are in flight
    (before 2^64 pushes). *)
Theorem weak_ring_fifo capacity k moved (dflt : T) s :
  capacity = 2 ^ k → 0 <= k < 63 → weak_reachable capacity moved dflt s →
  Z.of_nat (length (wr_pushed s)) < 18446744073709551616 →
  wr_popped s `prefix_of` wr_pushed s ∧
  Z.of_nat (length (wr_pushed s)) - Z.of_nat (length (wr_popped s)) <= capacity.
Proof.
  intros Hc Hk Hr Hn. pose proof (weak_reachable_inv _ _ _ Hc Hk _ _ Hr Hn) as Hi. split; [apply Hi|].
  pose proof (wi_room _ _ Hi) as Hrm. unfold writes in Hrm. lia.
Qed.

(** C16. No data race: in every such run, a thread about to access a slot of the storage happens after the
    other thread's last access to it, by the release stores and acquire loads of the two indices
    alone; and what the consumer is about to move out is the next item in order. *)
Theorem weak_ring_race_free capacity k moved (dflt : T) s :
  capacity = 2 ^ k → 0 <= k < 63 → weak_reachable capacity moved dflt s →
  Z.of_nat (length (wr_pushed s)) < 18446744073709551616 →
  ¬ racy capacity s ∧
  ∀ head tail, wr_cons s = WCBoth head tail → ring_empty head tail = false →
    ∃ sl, wr_slots s !! slot_of capacity head = Some sl ∧ wr_pushed s !! length (wr_popped s) = Some (sl_item sl).
Proof.
  intros Hc Hk Hr Hn. pose proof (weak_reachable_inv _ _ _ Hc Hk _ _ Hr Hn) as Hi.
  pose proof (wi_producer _ _ Hi) as Hpo. pose proof (wi_consumer _ _ Hi) as Hco. unfold producer_ok in Hpo. unfold consumer_ok in Hco.
  pose proof (capacity_bounds _ _ Hc Hk) as Hcap. pose proof (wi_size _ _ Hi) as Hsz. pose proof (wi_room _ _ Hi) as Hrm.
  destruct (wi_pview _ _ Hi) as ((_ & _ & Hph & _) & _). unfold writes in Hrm. split; [intros [Hp|Hcr]|].
  - destruct Hp as (waited & item & tail & head & sl & E & Hf & Hs & Hlt). rewrite E in Hpo. destruct Hpo as (-> & (n & -> & Hnh) & Hhc & _).
    unfold reads in Hsz. rewrite ring_full_spec in Hf by lia. apply Z.leb_gt in Hf.
    assert (Z.of_nat (sl_cons sl) <= Z.max 0 (Z.of_nat (length (wr_pushed s)) + 1 - capacity)) as Hl
      by (eapply (wi_cons_last _ _ Hi); [unfold reads; lia|exact Hs]).
    lia.
  - destruct Hcr as (head & tail & sl & E & He & Hs & Hlt). unfold reads in Hsz. rewrite E in Hco, Hsz.
    destruct Hco as (-> & n & -> & Hnv & Hnp). apply Z.leb_gt in He.
    assert (Z.of_nat (sl_prod sl) <= Z.of_nat (length (wr_popped s)) + 1) as Hl
      by (eapply (wi_prod_last _ _ Hi); [unfold reads; rewrite E; lia|exact Hs]).
    lia.
  - intros head tail E He. unfold reads in Hsz. rewrite E in Hco, Hsz. destruct Hco as (-> & n & -> & Hnv & Hnp). apply Z.leb_gt in He.
    destruct (lookup_lt_is_Some_2 (wr_slots s) (slot_of capacity (Z.of_nat (length (wr_popped s))))) as [sl Hs].
    { rewrite (wi_slots _ _ Hi). by apply (slot_of_lt _ _ Hc Hk); lia. }
    exists sl. split; [done|]. assert (written s !! length (wr_popped s) = Some (sl_item sl)) as Hw
      by (apply (wi_items _ _ Hi); [unfold reads, writes; rewrite E; lia|done]).
    unfold written in Hw. by rewrite lookup_app_l in Hw by lia.
Qed.

(** C17. A producer that has seen [size() < capacity()] and then pushes is not refused, although [size]
    reads the consumer's index relaxed and possibly stale: this is the engine thread's wait for room before
    it pushes a response and ignores the result. *)
Theorem waited_push_succeeds capacity k moved (dflt : T) s item tail head :
  capacity = 2 ^ k → 0 <= k < 63 → weak_reachable capacity moved dflt s →
  Z.of_nat (length (wr_pushed s)) < 18446744073709551616 →
  wr_prod s = WPBoth true item tail head → ring_full capacity tail head = false.
Proof.
  intros Hc Hk Hr Hn E. pose proof (weak_reachable_inv _ _ _ Hc Hk _ _ Hr Hn) as Hi.
  pose proof (wi_producer _ _ Hi) as Hpo. unfold producer_ok in Hpo. rewrite E in Hpo. destruct Hpo as (-> & (n & -> & Hnh) & _ & Hw).
  destruct (wi_pview _ _ Hi) as ((_ & _ & Hph & _) & _). pose proof (wi_size _ _ Hi) as Hsz. unfold reads in Hsz.
  rewrite ring_full_spec by lia. apply Z.leb_gt. by apply Hw.
Qed.
End Properties.

(** ** Sequentially consistent runs are among them *)

Section Embedding.
Context {T : Type}.
Variables (capacity k : Z).
Hypothesis capacity_pow2 : capacity = 2 ^ k.
Hypothesis capacity_bits : 0 <= k < 63.
Variable dflt : T.

Definition weak_producer (p : producer T) : wproducer :=
  match p with
  | PIdle => WPIdle | PTail item t => WPTail false item t | PBoth item t h => WPBoth false item t h
  | PWrote item t => WPWrote item t
  end.

Definition weak_consumer (c : consumer T) : wconsumer :=
  match c with CIdle => WCIdle | CHead h => WCHead h | CBoth h t => WCBoth h t | CRead h out => WCRead h out end.

(** The weak run [w] is where the interleaved run [s] is. *)
Record embeds (s : RingRun T) (w : WeakRun T) : Prop := {
  em_prod : wr_prod w = weak_producer (rr_prod s);
  em_cons : wr_cons w = weak_consumer (rr_cons s);
  em_pushed : wr_pushed w = rr_pushed s;
  em_popped : wr_popped w = rr_popped s;
  em_slots : sl_item <$> wr_slots w = rb_slots (rr_ring s) }.

(** The newest message of an index is its value. *)
Lemma newest_tail s w :
  run_inv capacity s → weak_inv capacity w → embeds s w →
  ∃ m, wr_tail w !! length (wr_pushed w) = Some m ∧ ms_value m = rb_tail (rr_ring s).
Proof.
  intros Hs Hw He. destruct (lookup_lt_is_Some_2 (wr_tail w) (length (wr_pushed w))) as [m Hm].
  { rewrite (hi_length _ _ _ _ (wi_tail _ _ Hw)). lia. }
  exists m. split; [done|]. by rewrite (hi_value _ _ _ _ (wi_tail _ _ Hw) _ _ Hm), (ri_tail _ _ Hs), (em_pushed _ _ He).
Qed.

Lemma newest_head s w :
  run_inv capacity s → weak_inv capacity w → embeds s w →
  ∃ m, wr_head w !! length (wr_popped w) = Some m ∧ ms_value m = rb_head (rr_ring s).
Proof.
  intros Hs Hw He. destruct (lookup_lt_is_Some_2 (wr_head w) (length (wr_popped w))) as [m Hm].
  { rewrite (hi_length _ _ _ _ (wi_head _ _ Hw)). lia. }
  exists m. split; [done|]. by rewrite (hi_value _ _ _ _ (wi_head _ _ Hw) _ _ Hm), (ri_head _ _ Hs), (em_popped _ _ He).
Qed.

Lemma embed_step s s' w :
  run_inv capacity s → weak_inv capacity w → embeds s w → ring_step capacity s s' →
  ∃ w', weak_step capacity id w w' ∧ embeds s' w'.
Proof.
  intros Hs Hw He Hst. destruct (newest_tail s w Hs Hw He) as (mt & Hmt & Evt). destruct (newest_head s w Hs Hw He) as (mh & Hmh & Evh).
  pose proof (wi_pview _ _ Hw) as ((_ & _ & Hph & Hpt) & _). pose proof (wi_cview _ _ Hw) as ((_ & _ & Hch & Hct) & _).
  destruct He as [Ep Ec Eps Eqs Esl].
  destruct w as [h t sl pv cv p c ps qs]; cbn in *. destruct Hst; cbn in *; subst p c ps qs.
  - eexists. split; [by apply (weak_load_tail _ _ _ _ _ _ _ false) with (item := item) (ts := length ps0)|].
    by split; cbn; rewrite ?Evt.
  - eexists. split; [by apply (weak_load_head) with (ts := length qs0)|]. by split; cbn; rewrite ?Evh.
  - eexists. split; [by apply weak_push_full|]. by split.
  - destruct (lookup_lt_is_Some_2 sl (slot_of capacity tail)) as [x Hx].
    { pose proof (wi_slots _ _ Hw) as Hl. cbn in Hl. rewrite Hl. apply (slot_of_lt _ _ capacity_pow2 capacity_bits).
      destruct (ri_prod _ _ Hs) as [E _]. pose proof (ri_tail _ _ Hs) as Et. cbn in E, Et. lia. }
    eexists. split; [by eapply weak_write|]. split; try done. cbn. by rewrite list_fmap_insert, Esl.
  - eexists. split; [apply weak_store_tail|]. by split.
  - eexists. split; [by apply weak_pop_head with (ts := length qs0)|]. by split; cbn; rewrite ?Evh.
  - eexists. split; [by apply weak_pop_tail with (ts := length ps0)|]. by split; cbn; rewrite ?Evt.
  - eexists. split; [by apply weak_pop_empty|]. by split.
  - rewrite <- Esl, list_lookup_fmap in H0. destruct (sl !! slot_of capacity head) as [x|] eqn:Hx; [|done]. cbn in H0. injection H0 as <-.
    eexists. split; [by eapply weak_read|]. split; try done. cbn. rewrite list_fmap_insert. cbn. unfold id.
    rewrite list_insert_id; [done|]. by rewrite list_lookup_fmap, Hx.
  - eexists. split; [apply weak_store_head|]. by split.
Qed.

(** Every run of the interleaving model is a run of this one, in which each load happens to read the
    newest message. *)
Theorem sequential_runs_are_weak s :
  ring_reachable capacity dflt s → Z.of_nat (length (rr_pushed s)) < 18446744073709551616 →
  ∃ w, weak_reachable capacity id dflt w ∧ embeds s w.
Proof.
  induction 1 as [|s s' Hr IH Hs]; intros Hn.
  - exists (weak_start capacity dflt). split; [constructor|]. split; try done. cbn. by rewrite fmap_replicate.
  - assert (length (rr_pushed s) <= length (rr_pushed s'))%nat as Hle by (by eapply ring_step_pushed). destruct IH as (w & Hw & He); [lia|].
    pose proof (ring_reachable_inv _ _ capacity_pow2 capacity_bits _ _ Hr ltac:(lia)) as Hsi.
    pose proof (weak_reachable_inv _ _ _ capacity_pow2 capacity_bits _ _ Hw) as Hwi. rewrite (em_pushed _ _ He) in Hwi.
    destruct (embed_step s s' w Hsi (Hwi ltac:(lia)) He Hs) as (w' & Hst & He'). exists w'. split; [by eapply weak_next|done].
Qed.
End Embedding.

(** ** Witnesses: a ring of four slots *)

(** One item pushed. *)
Definition weak_pushed : WeakRun Z :=
  mkWeak [mkMessage 0 view_start] [mkMessage 0 view_start; mkMessage 1 (mkView 1 0 0 1)]
    [mkSlot 7 1 0; mkSlot 0 0 0; mkSlot 0 0 0; mkSlot 0 0 0] (mkView 1 0 0 1) view_start WPIdle WCIdle [7] [].

Lemma weak_pushed_reachable : weak_reachable 4 id 0 weak_pushed.
Proof.
  eapply weak_next; [eapply weak_next; [eapply weak_next; [eapply weak_next; [apply weak_init|]|]|]|].
  - apply (weak_load_tail _ _ _ _ _ _ _ false _ _ _ 7 0 (mkMessage 0 view_start)); [cbn; lia|reflexivity].
  - apply (weak_load_head _ _ _ _ _ _ _ _ _ _ false 7 0 0 (mkMessage 0 view_start)); [cbn; lia|reflexivity].
  - eapply weak_write; reflexivity.
  - exact (weak_store_tail 4 id [mkMessage 0 view_start] [mkMessage 0 view_start]
      [mkSlot 7 1 0; mkSlot 0 0 0; mkSlot 0 0 0; mkSlot 0 0 0] (mkView 1 0 0 0) view_start WCIdle [] [] 7 0).
Qed.

(** The consumer has loaded both indices, the tail as it is or stale. *)
Definition weak_popping (tail : Z) (cv : View) : WeakRun Z :=
  mkWeak (wr_head weak_pushed) (wr_tail weak_pushed) (wr_slots weak_pushed) (wr_pview weak_pushed) cv WPIdle
    (WCBoth 0 tail) [7] [].

Lemma weak_popping_reachable ts m :
  wr_tail weak_pushed !! ts = Some m →
  weak_reachable 4 id 0 (weak_popping (ms_value m) (view_join (mkView 0 0 0 ts) (ms_view m))).
Proof.
  intros Hm. eapply weak_next; [eapply weak_next; [apply weak_pushed_reachable|]|].
  - apply (weak_pop_head _ _ _ _ _ _ _ _ _ _ 0 (mkMessage 0 view_start)); [cbn; lia|reflexivity].
  - assert (weak_popping (ms_value m) (view_join (mkView 0 0 0 ts) (ms_view m)) =
      mkWeak (wr_head weak_pushed) (wr_tail weak_pushed) (wr_slots weak_pushed) (wr_pview weak_pushed)
        (load_view pop_load_tail m (see_tail ts view_start)) WPIdle (WCBoth 0 (ms_value m)) [7] []) as ->
      by (unfold weak_popping; cbn; done).
    apply weak_pop_tail; [cbn; lia|exact Hm].
Qed.

(** A pop may miss an item already pushed: the load of the tail may return the older message. *)
Theorem pop_may_be_stale :
  ∃ s, weak_reachable 4 id 0 s ∧ wr_pushed s = [7] ∧ wr_popped s = [] ∧ wr_cons s = WCBoth 0 0 ∧ ring_empty 0 0 = true.
Proof. eexists. split; [exact (weak_popping_reachable 0 (mkMessage 0 view_start) eq_refl)|done]. Qed.

Lemma weak_ring_fifo_witness : [] `prefix_of` [7] ∧ 1 - 0 <= 4.
Proof.
  exact (weak_ring_fifo 4 2 id 0 weak_pushed eq_refl ltac:(lia) weak_pushed_reachable ltac:(cbn; lia)).
Defined.

Lemma weak_ring_race_free_witness :
  ∃ sl, wr_slots weak_pushed !! slot_of 4 0 = Some sl ∧ [7] !! 0%nat = Some (sl_item sl).
Proof.
  destruct (weak_ring_race_free 4 2 id 0 (weak_popping 1 (mkView 1 0 0 1)) eq_refl ltac:(lia)
    (weak_popping_reachable 1 (mkMessage 1 (mkView 1 0 0 1)) eq_refl) ltac:(cbn; lia)) as [_ Hread].
  exact (Hread 0 1 eq_refl eq_refl).
Defined.

(** The producer asks for the size, finds room and is about to push a second item. *)
Definition weak_waited : WeakRun Z :=
  mkWeak (wr_head weak_pushed) (wr_tail weak_pushed) (wr_slots weak_pushed) (mkView 1 0 0 1) view_start
    (WPBoth true 8 1 0) WCIdle [7] [].

Lemma weak_waited_reachable : weak_reachable 4 id 0 weak_waited.
Proof.
  eapply weak_next; [eapply weak_next; [eapply weak_next; [eapply weak_next; [eapply weak_next; [apply weak_pushed_reachable|]|]|]|]|].
  - apply (weak_size_tail _ _ _ _ _ _ _ _ _ _ 1 (mkMessage 1 (mkView 1 0 0 1))); [cbn; lia|reflexivity].
  - apply (weak_size_head _ _ _ _ _ _ _ _ _ _ _ 0 (mkMessage 0 view_start)); [cbn; lia|reflexivity].
  - apply weak_size_done.
  - apply (weak_load_tail _ _ _ _ _ _ _ true _ _ _ 8 1 (mkMessage 1 (mkView 1 0 0 1))); [cbn; lia|reflexivity].
  - exact (weak_load_head 4 id (wr_head weak_pushed) (wr_tail weak_pushed) (wr_slots weak_pushed) (mkView 1 0 0 1) view_start WCIdle
      [7] [] true 8 1 0 (mkMessage 0 view_start) ltac:(cbn; lia) eq_refl).
Qed.

Lemma waited_push_succeeds_witness : ring_full 4 1 0 = false.
Proof.
  exact (waited_push_succeeds 4 2 id 0 weak_waited 8 1 0 eq_refl ltac:(lia) weak_waited_reachable ltac:(cbn; lia) eq_refl).
Defined.
