(* ===== verification/FeedThread.v ===== *)
(** * FeedThread: run_feed_publisher of adapters/udp/queued_event_sink.hpp

    The feed thread drains the queued sink until it sees the stop flag and
    then drains once more; the main thread offers events to the sink and sets
    the flag after its own loop has ended.  The two share the sink's ring,
    modelled by WeakRing (a load of the other thread's index may be stale),
    and the flag, an atomic of its own: a history of messages like an index,
    stored and loaded with the memory orders of the code, which are relaxed.
    One step is one access of one thread. *)
From S2P Require Import Prelude Core OrderBook SpscRing UdpFeed FeedTheorems WeakRing.

(** At the loop condition, in the drain of the loop body after [n] events, in
    the drain after the loop, returned. *)
Inductive feed_phase := FTop | FDrain (n : Z) | FLast (n : Z) | FDone.

(** [feed_stop.store(true, ...)] in main.cpp and [stop.load(...)] in the loop. *)
Definition stop_store_order : MemoryOrder := Relaxed.

Definition stop_load_order : MemoryOrder := Relaxed.

(** The ring with both threads' places in it, [dropped_], the offers that have
    ended (history), the messages of the flag, the newest of them the feed
    thread has seen, the publisher, and where the feed thread is. *)
Record FeedState (S : Type) := mkFeed {
  ft_ring : WeakRun FeedEvent; ft_dropped : Z; ft_offered : list FeedEvent;
  ft_stop : list Message; ft_seen : nat; ft_real : S; ft_phase : feed_phase }.
Arguments mkFeed {S} _ _ _ _ _ _ _.
Arguments ft_ring {S} _.
Arguments ft_dropped {S} _.
Arguments ft_offered {S} _.
Arguments ft_stop {S} _.
Arguments ft_seen {S} _.
Arguments ft_real {S} _.
Arguments ft_phase {S} _.

Definition set_cview (v : View) (r : WeakRun FeedEvent) : WeakRun FeedEvent :=
  mkWeak (wr_head r) (wr_tail r) (wr_slots r) (wr_pview r) v (wr_prod r) (wr_cons r) (wr_pushed r) (wr_popped r).

(** The offer that ends with this step of the main thread, and whether the
    ring refused it ([offer] then counts a drop). *)
Definition offer_done (p p' : wproducer (T := FeedEvent)) : option (FeedEvent * bool) :=
  match p, p' with
  | WPBoth _ item _ _, WPIdle => Some (item, true)
  | WPWrote item _, WPIdle => Some (item, false)
  | _, _ => None
  end.

(** The [try_pop] that ends with this step of the feed thread, and its event. *)
Definition pop_done (c c' : wconsumer (T := FeedEvent)) : option (option FeedEvent) :=
  match c, c' with
  | WCRead _ out, WCIdle => Some (Some out)
  | WCBoth _ _, WCIdle => Some None
  | _, _ => None
  end.

Definition draining (ph : feed_phase) : bool := match ph with FDrain _ | FLast _ => true | _ => false end.

(** [while (sink.try_pop(e)) { apply(real, e); ++n; }] and what comes after it. *)
Definition after_pop (ph : feed_phase) (popped : option (option FeedEvent)) : feed_phase :=
  match popped, ph with
  | Some (Some _), FDrain n => FDrain (u64_add n 1)
  | Some (Some _), FLast n => FLast (u64_add n 1)
  | Some None, FDrain _ => FTop
  | Some None, FLast _ => FDone
  | _, _ => ph
  end.

Section Thread.
Context {S : Type} `{EventSink S}.
Variables (store_order load_order : MemoryOrder) (capacity k : Z).
Implicit Types (st : FeedState S) (r : WeakRun FeedEvent).

(** The main thread: an access of an offer (a [try_push], no [size()] before
    it), or, between offers and never to offer again, the store of the flag. *)
Inductive feed_main_step : FeedState S → FeedState S → Prop :=
| feed_offers r r' dropped offered stop seen real ph :
    length stop = 1%nat → weak_step capacity id r r' → wr_cons r' = wr_cons r → (∀ t, wr_prod r' ≠ WPSizeTail t) →
    feed_main_step (mkFeed r dropped offered stop seen real ph)
      (mkFeed r' (match offer_done (wr_prod r) (wr_prod r') with Some (_, true) => u64_add dropped 1 | _ => dropped end)
         (match offer_done (wr_prod r) (wr_prod r') with Some (e, _) => offered ++ [e] | None => offered end)
         stop seen real ph)
| feed_stops r dropped offered stop seen real ph :
    length stop = 1%nat → wr_prod r = WPIdle →
    feed_main_step (mkFeed r dropped offered stop seen real ph)
      (mkFeed r dropped offered (stop ++ [mkMessage 1 (store_view store_order (wr_pview r))]) seen real ph).

(** The feed thread: a test of the flag, which may return a stale message, or
    an access of a [try_pop]; when a drain found nothing it also yields. *)
Inductive feed_thread_step : FeedState S → FeedState S → Prop :=
| feed_tests r dropped offered stop seen real ts m :
    (seen <= ts)%nat → stop !! ts = Some m →
    feed_thread_step (mkFeed r dropped offered stop seen real FTop)
      (mkFeed (set_cview (load_view load_order m (wr_cview r)) r) dropped offered stop ts real
         (if Z.eqb (ms_value m) 0 then FDrain 0 else FLast 0))
| feed_pops r r' dropped offered stop seen real ph :
    draining ph = true → weak_step capacity id r r' → wr_prod r' = wr_prod r →
    let popped := pop_done (wr_cons r) (wr_cons r') in
    feed_thread_step (mkFeed r dropped offered stop seen real ph)
      (mkFeed r' dropped offered stop seen
         (match popped with Some (Some e) => apply_feed_event real e | _ => real end) (after_pop ph popped)).

Definition feed_threads_step st st' : Prop := feed_main_step st st' ∨ feed_thread_step st st'.

Definition feed_start (real0 : S) : FeedState S :=
  mkFeed (weak_start capacity FeedEvent_default) 0 [] [mkMessage 0 view_start] 0 real0 FTop.

(** ** Invariant *)

(** What the thread knows once it has seen the flag set. *)
Definition knows_all r : Prop :=
  store_order = Release → load_order = Acquire → (length (wr_pushed r) <= vw_tail (wr_cview r))%nat.

Definition phase_ok st : Prop :=
  let r := ft_ring st in
  match ft_phase st with
  | FTop => wr_cons r = WCIdle
  | FDrain _ => True
  | FLast _ => length (ft_stop st) = 2%nat ∧ knows_all r
  | FDone => wr_cons r = WCIdle ∧ length (ft_stop st) = 2%nat ∧ knows_all r ∧
             (vw_tail (wr_cview r) <= length (wr_popped r))%nat
  end.

(** A message of the flag: unset at first, then set by a producer that is done. *)
Definition stop_message r (i : nat) (m : Message) : Prop :=
  view_ok r (ms_view m) ∧
  (i = 0%nat ∧ ms_value m = 0 ∨
   i = 1%nat ∧ ms_value m = 1 ∧ (store_order = Release → vw_tail (ms_view m) = length (wr_pushed r))).

Record feed_inv (real0 : S) st : Prop := {
  fi_ring : weak_inv capacity (ft_ring st);
  fi_tails i m : wr_tail (ft_ring st) !! i = Some m → (vw_tail (ms_view m) <= i)%nat;
  fi_both h t : wr_cons (ft_ring st) = WCBoth h t → t = Z.of_nat (vw_tail (wr_cview (ft_ring st)));
  fi_real : ft_real st = foldl apply_feed_event real0 (wr_popped (ft_ring st));
  fi_offered : sublist (wr_pushed (ft_ring st)) (ft_offered st);
  fi_dropped : ft_dropped st = wrap64 (Z.of_nat (length (ft_offered st)) - Z.of_nat (length (wr_pushed (ft_ring st))));
  fi_stop i m : ft_stop st !! i = Some m → stop_message (ft_ring st) i m;
  fi_stopped : length (ft_stop st) = 1%nat ∨ length (ft_stop st) = 2%nat ∧ wr_prod (ft_ring st) = WPIdle;
  fi_phase : phase_ok st }.

Hypothesis capacity_pow2 : capacity = 2 ^ k.
Hypothesis capacity_bits : 0 <= k < 63.

Lemma weak_step_mono r r' :
  weak_step capacity id r r' →
  (writes r <= writes r')%nat ∧ (reads r <= reads r')%nat ∧ (length (wr_popped r) <= length (wr_popped r'))%nat ∧
  (length (wr_pushed r) <= length (wr_pushed r'))%nat.
Proof.
  destruct 1; unfold writes, reads; cbn; rewrite ?length_app; cbn; try lia; destruct waited; lia.
Qed.

(** A step of the main thread in the ring. *)
Lemma producer_step r r' :
  weak_step capacity id r r' → wr_cons r' = wr_cons r → weak_inv capacity r →
  wr_cview r' = wr_cview r ∧ wr_popped r' = wr_popped r ∧
  (∀ i m, wr_tail r' !! i = Some m → wr_tail r !! i = Some m ∨ i = length (wr_tail r) ∧ (vw_tail (ms_view m) <= i)%nat) ∧
  wr_pushed r' = wr_pushed r ++
    match offer_done (wr_prod r) (wr_prod r') with Some (e, false) => [e] | _ => [] end.
Proof.
  intros Hs Hc Hi. destruct Hs; cbn in *; try done; rewrite ?app_nil_r; (split; [done|]); (split; [done|]);
    try (split; [by left|done]).
  - split; [by left|]. destruct waited; by rewrite app_nil_r.
  - split; [|done]. intros i m Hm. apply lookup_app_Some in Hm as [?|[Hge Hm]]; [by left|right].
    apply list_lookup_singleton_Some in Hm as [Hi' <-]. split; [lia|]. unfold push_store_tail. cbn.
    destruct (wi_pview _ _ Hi) as (_ & _ & Ht). pose proof (hi_length _ _ _ _ (wi_tail _ _ Hi)) as Hl. cbn in Ht, Hl. lia.
Qed.

(** Where a pop is, counted down. *)
Definition pop_left (c : wconsumer (T := FeedEvent)) : nat :=
  match c with WCIdle => 3 | WCHead _ => 2 | WCBoth _ _ => 1 | WCRead _ _ => 0 end.

(** A step of the feed thread in the ring. *)
Lemma consumer_step r r' :
  weak_step capacity id r r' → wr_prod r' = wr_prod r → weak_inv capacity r →
  (∀ i m, wr_tail r !! i = Some m → (vw_tail (ms_view m) <= i)%nat) →
  (∀ h t, wr_cons r = WCBoth h t → t = Z.of_nat (vw_tail (wr_cview r))) →
  wr_tail r' = wr_tail r ∧ wr_pushed r' = wr_pushed r ∧ (vw_tail (wr_cview r) <= vw_tail (wr_cview r'))%nat ∧
  (∀ h t, wr_cons r' = WCBoth h t → t = Z.of_nat (vw_tail (wr_cview r'))) ∧
  match pop_done (wr_cons r) (wr_cons r') with
  | Some (Some e) => wr_popped r' = wr_popped r ++ [e] ∧ wr_cons r' = WCIdle ∧ pop_left (wr_cons r) = 0%nat
  | Some None => wr_popped r' = wr_popped r ∧ wr_cons r' = WCIdle ∧ (vw_tail (wr_cview r') <= length (wr_popped r'))%nat
  | None => wr_popped r' = wr_popped r ∧ (pop_left (wr_cons r') < pop_left (wr_cons r))%nat
  end.
Proof.
  intros Hs Hp Hi Ht Hb. destruct Hs; cbn in *; try done;
    try (exfalso; revert Hp; first [by case_match|by destruct waited]).
  - split_and!; try done; lia.
  - specialize (Ht _ _ H1). pose proof (hi_value _ _ _ _ (wi_tail _ _ Hi) _ _ H1) as Ev.
    split_and!; try done; try lia. intros h' t' [= <- <-]. rewrite Ev. f_equal. lia.
  - split_and!; try done. pose proof (wi_consumer _ _ Hi) as Hco. cbn in Hco. destruct Hco as (-> & n & -> & _).
    apply Z.leb_le in H0. specialize (Hb _ _ eq_refl). lia.
  - split_and!; try done; lia.
  - split_and!; try done; lia.
Qed.

(** Views the flag carries stay valid while the ring moves on. *)
Lemma stop_message_mono r r' i m :
  weak_step capacity id r r' → wr_pushed r' = wr_pushed r ∨ i = 0%nat → stop_message r i m → stop_message r' i m.
Proof.
  intros (Hw & Hr & Hq & Hp)%weak_step_mono Heq [Hok Hcase]. split; [by eapply view_ok_mono|].
  destruct Hcase as [?|(-> & ? & Hv)]; [by left|right]. destruct Heq as [->|]; [done|lia].
Qed.
Lemma feed_start_inv real0 : feed_inv real0 (feed_start real0).
Proof.
  split; cbn; try done; try by left.
  - by apply (weak_start_inv capacity k capacity_pow2 capacity_bits).
  - intros i m [-> <-]%list_lookup_singleton_Some. cbn. lia.
  - intros i m [-> <-]%list_lookup_singleton_Some. split; [|by left]. unfold view_ok. cbn. lia.
Qed.

Lemma feed_main_step_inv real0 st st' :
  feed_inv real0 st → feed_main_step st st' → Z.of_nat (length (wr_pushed (ft_ring st'))) < 18446744073709551616 →
  feed_inv real0 st'.
Proof.
  intros [Hi Ht Hb Hre Hof Hdr Hsm Hst Hph] Hs Hn.
  destruct Hs as [r r' dropped offered stop seen real ph Hl Hw Hc _|r dropped offered stop seen real ph Hl Hp]; cbn in *.
  - destruct (producer_step _ _ Hw Hc Hi) as (Ev & Eq & Etl & Eps).
    pose proof (weak_step_inv _ _ _ capacity_pow2 capacity_bits _ _ Hw Hi Hn) as Hi'.
    split; cbn; try done; rewrite ?Ev, ?Eq, ?Hc; try done.
    + intros i m [Hm|[-> Hm]]%Etl; [by apply Ht|done].
    + rewrite Eps. destruct (offer_done _ _) as [[e []]|]; rewrite ?app_nil_r; try done; [by apply sublist_inserts_r|by apply sublist_app].
    + rewrite Eps, Hdr. destruct (offer_done _ _) as [[e []]|]; rewrite ?app_nil_r, ?length_app; cbn; try done.
      * unfold u64_add. rewrite wrap64_add_l. f_equal. lia.
      * f_equal. lia.
    + intros i m Hm. eapply stop_message_mono; [exact Hw| |by apply Hsm]. right. apply lookup_lt_Some in Hm. lia.
    + by left.
    + unfold phase_ok in *. cbn in *. rewrite Hc. destruct ph; try done; lia.
  - split; cbn; try done.
    + intros i m Hm. apply lookup_app_Some in Hm as [?|[Hge Hm]]; [by apply Hsm|].
      apply list_lookup_singleton_Some in Hm as [Hi' <-]. destruct (wi_pview _ _ Hi) as (Hok & _ & Htl).
      split; [by destruct store_order; cbn; [unfold view_ok; cbn; lia..|]|]. right. split; [lia|]. split; [done|]. by intros ->.
    + right. rewrite length_app. cbn. split; [lia|done].
    + unfold phase_ok in *. cbn in *. destruct ph; try done; lia.
Qed.

(** A load of the flag adds to the thread's view and changes nothing else. *)
Lemma tests_inv real0 r dropped offered stop seen real ts m :
  feed_inv real0 (mkFeed r dropped offered stop seen real FTop) → stop !! ts = Some m →
  feed_inv real0 (mkFeed (set_cview (load_view load_order m (wr_cview r)) r) dropped offered stop ts real
                    (if Z.eqb (ms_value m) 0 then FDrain 0 else FLast 0)).
Proof.
  intros [Hi Ht Hb Hre Hof Hdr Hsm Hst Hph] Hm. cbn in *. pose proof (Hsm _ _ Hm) as [Hok Hcase].
  destruct (wi_cview _ _ Hi) as (Hcv & _). unfold phase_ok in Hph. cbn in Hph.
  destruct (load_view_grows k capacity_bits r load_order m (wr_cview r) Hcv Hok) as (Hg & Hle & Hacq).
  destruct r as [h t sl pv cv p c ps qs]. cbn in *. subst c.
  assert (weak_inv capacity (set_cview (load_view load_order m cv) (mkWeak h t sl pv cv p WCIdle ps qs))) as Hi'
    by (by eapply consumer_moves).
  split; cbn; try done.
  unfold phase_ok. cbn. destruct Hcase as [[-> ->]|(-> & -> & Hv)]; [done|]. cbn.
  split; [destruct Hst as [Hl|[Hl _]]; [apply lookup_lt_Some in Hm; lia|done]|].
  intros Hrel Hld. specialize (Hacq Hld). unfold view_le in Hacq. rewrite (Hv Hrel) in Hacq. cbn. lia.
Qed.

Lemma feed_thread_step_inv real0 st st' :
  feed_inv real0 st → feed_thread_step st st' → Z.of_nat (length (wr_pushed (ft_ring st'))) < 18446744073709551616 →
  feed_inv real0 st'.
Proof.
  intros Hf Hs Hn. destruct Hs as [r dropped offered stop seen real ts m Hge Hm|r r' dropped offered stop seen real ph Hd Hw Hp popped];
    [by eapply tests_inv|].
  destruct Hf as [Hi Ht Hb Hre Hof Hdr Hsm Hst Hph]. cbn in *.
  destruct (consumer_step _ _ Hw Hp Hi Ht Hb) as (Et & Eps & Hv & Hb' & Hpop). fold popped in Hpop.
  pose proof (weak_step_inv _ _ _ capacity_pow2 capacity_bits _ _ Hw Hi Hn) as Hi'.
  split; cbn; try done; rewrite ?Et, ?Eps, ?Hp; try done.
  - destruct popped as [[e|]|]; destruct Hpop as [-> _]; [|done..]. by rewrite foldl_app, Hre.
  - intros i m Hm. eapply stop_message_mono; [exact Hw|by left|by apply Hsm].
  - unfold phase_ok in *. cbn in *. destruct ph as [|n|n|]; [done| | |done].
    + destruct popped as [[e|]|]; cbn; [done|by destruct Hpop as (_ & -> & _)|done].
    + destruct Hph as [Hl Hk].
      assert (knows_all r') as Hk' by (intros E1 E2; rewrite Eps; specialize (Hk E1 E2); lia).
      destruct popped as [[e|]|]; cbn; [done| |done]. by destruct Hpop as (_ & -> & ?).
Qed.

Lemma feed_reaches_inv real0 st :
  rtc feed_threads_step (feed_start real0) st → Z.of_nat (length (wr_pushed (ft_ring st))) < 18446744073709551616 →
  feed_inv real0 st.
Proof.
  revert st. apply (rtc_ind_r (λ st, Z.of_nat (length (wr_pushed (ft_ring st))) < 18446744073709551616 → feed_inv real0 st)).
  { intros _. apply feed_start_inv. }
  intros st st' _ Hs IH Hn.
  assert (length (wr_pushed (ft_ring st)) <= length (wr_pushed (ft_ring st')))%nat as Hle.
  { destruct Hs as [Hs|Hs]; destruct Hs as [? ? ? ? ? ? ? ? ? Hw|]; cbn; try lia; by eapply weak_step_pushed. }
  specialize (IH ltac:(lia)). destruct Hs as [Hs|Hs]; [by eapply feed_main_step_inv|by eapply feed_thread_step_inv].
Qed.
End Thread.

(** ** Properties *)

(** Accesses left to the feed thread in its last drain. *)
Definition feed_left {S} (st : FeedState S) : nat :=
  let r := ft_ring st in
  match ft_phase st with
  | FDone => 0
  | _ => 1 + 4 * (length (wr_pushed r) - length (wr_popped r)) + pop_left (wr_cons r)
  end.

Section Properties.
Context {S : Type} `{EventSink S}.
Variables (store_order load_order : MemoryOrder) (capacity k : Z).
Hypothesis capacity_pow2 : capacity = 2 ^ k.
Hypothesis capacity_bits : 0 <= k < 63.
Implicit Types (st : FeedState S).

(** A pop in progress has a next access. *)
Lemma pop_progress (r : WeakRun FeedEvent) : weak_inv capacity r → ∃ r', weak_step capacity id r r' ∧ wr_prod r' = wr_prod r.
Proof.
  intros Hi. destruct (wi_cview _ _ Hi) as ((_ & _ & Hch & Hct) & _). pose proof (wi_consumer _ _ Hi) as Hco.
  pose proof (hi_length _ _ _ _ (wi_head _ _ Hi)) as Hhl. pose proof (hi_length _ _ _ _ (wi_tail _ _ Hi)) as Htl.
  pose proof (wi_slots _ _ Hi) as Hsl. destruct r as [h t sl pv cv p c ps qs]. unfold consumer_ok in Hco. cbn in *.
  destruct c as [|hd|hd tl|hd out].
  - destruct (lookup_lt_is_Some_2 h (length qs)) as [m Hm]; [lia|]. eexists. split; [by eapply weak_pop_head|done].
  - destruct (lookup_lt_is_Some_2 t (length ps)) as [m Hm]; [lia|]. eexists. split; [by eapply weak_pop_tail|done].
  - destruct (ring_empty hd tl) eqn:Ee; [eexists; split; [by apply weak_pop_empty|done]|].
    destruct (lookup_lt_is_Some_2 sl (slot_of capacity hd)) as [x Hx].
    { rewrite Hsl. destruct Hco as [-> _]. apply (slot_of_lt _ _ capacity_pow2 capacity_bits). lia. }
    eexists. split; [by eapply weak_read|done].
  - eexists. split; [apply weak_store_head|done].
Qed.

(** Once it has seen the flag set, the thread moves, and only towards its end. *)
Lemma last_drain real0 st n :
  feed_inv store_order load_order capacity real0 st → ft_phase st = FLast n →
  (∃ st', feed_thread_step load_order capacity st st') ∧
  ∀ st', feed_threads_step store_order load_order capacity st st' →
    Z.of_nat (length (wr_pushed (ft_ring st'))) < 18446744073709551616 → (feed_left st' < feed_left st)%nat.
Proof.
  intros Hf Ep. pose proof Hf as [Hi Ht Hb Hre Hof Hdr Hsm Hst Hph]. split.
  - destruct (pop_progress _ Hi) as (r' & Hw & Hp). destruct st as [r dropped offered stop seen real ph]. cbn in *. subst ph.
    eexists. by apply feed_pops with (r' := r').
  - unfold phase_ok in Hph. rewrite Ep in Hph. destruct Hph as [Hl Hk]. intros st' [Hs|Hs] Hn.
    { exfalso. destruct Hs; cbn in *; lia. }
    pose proof (feed_thread_step_inv _ _ _ _ capacity_pow2 capacity_bits _ _ _ Hf Hs Hn) as [Hi' _ _ _ _ _ _ _ _].
    pose proof (prefix_length _ _ (wi_fifo _ _ Hi')) as Hlen.
    destruct Hs as [r dropped offered stop seen real ts m Hge Hm|r r' dropped offered stop seen real ph Hd Hw Hp popped]; [done|].
    cbn in *. subst ph. destruct (consumer_step _ k capacity_bits _ _ Hw Hp Hi Ht Hb) as (_ & Eps & _ & _ & Hpop). fold popped in Hpop.
    unfold feed_left. cbn. rewrite Eps in *. destruct popped as [[e|]|]; cbn.
    + destruct Hpop as (Eq & -> & ->). rewrite Eq, length_app in *. cbn in *. lia.
    + lia.
    + destruct Hpop as [-> ?]. lia.
Qed.
End Properties.

(** C34. The feed thread under the memory orders of the code, with loads of the indices and of the stop flag that
    may be stale.  In every run: the publisher has received exactly the events popped so far, in order, and they
    are a prefix of the events the ring took, without loss, duplication or reordering; those are the events offered,
    in order, but as many as [dropped()] counts.  Once the thread has seen the flag set it can always move, every
    step of either thread brings it closer to its return, within four accesses per event queued plus four; and when
    it has returned nothing moves any more and it has published every event up to the newest tail it had seen. *)
Theorem feed_thread_publishes_in_order {S} `{EventSink S} capacity k (real0 : S) st :
  capacity = 2 ^ k → 0 <= k < 63 →
  rtc (feed_threads_step stop_store_order stop_load_order capacity) (feed_start capacity real0) st →
  Z.of_nat (length (wr_pushed (ft_ring st))) < 18446744073709551616 →
  let r := ft_ring st in
  (ft_real st = foldl apply_feed_event real0 (wr_popped r) ∧ wr_popped r `prefix_of` wr_pushed r ∧
   sublist (wr_pushed r) (ft_offered st) ∧
   ft_dropped st = wrap64 (Z.of_nat (length (ft_offered st)) - Z.of_nat (length (wr_pushed r)))) ∧
  (∀ n, ft_phase st = FLast n →
    (∃ st', feed_thread_step stop_load_order capacity st st') ∧
    (feed_left st <= 4 * (length (wr_pushed r) - length (wr_popped r)) + 4)%nat ∧
    ∀ st', feed_threads_step stop_store_order stop_load_order capacity st st' → (feed_left st' < feed_left st)%nat) ∧
  (ft_phase st = FDone →
    (∀ st', ¬ feed_threads_step stop_store_order stop_load_order capacity st st') ∧
    (vw_tail (wr_cview r) <= length (wr_popped r))%nat).
Proof.
  intros Hc Hk Hr Hn r. pose proof (feed_reaches_inv _ _ _ _ Hc Hk _ _ Hr Hn) as Hf.
  pose proof Hf as [Hi Ht Hb Hre Hof Hdr Hsm Hst Hph]. split; [|split].
  - split_and!; [done| |done|done]. apply Hi.
  - intros n Ep. destruct (last_drain _ _ _ _ Hc Hk _ _ _ Hf Ep) as [Hgo Hless]. split; [done|]. split.
    + unfold feed_left. rewrite Ep. fold r. destruct (wr_cons r); cbn; lia.
    + intros st' Hs. apply Hless; [done|]. destruct Hs as [Hs|Hs].
      * exfalso. unfold phase_ok in Hph. rewrite Ep in Hph. destruct Hph as [Hl _]. destruct Hs; cbn in *; lia.
      * destruct Hs as [? ? ? ? ? ? ? ? ? ?|r1 r2 ? ? ? ? ? ? ? Hw Hp ?]; cbn in *; [done|].
        by destruct (consumer_step _ k Hk _ _ Hw Hp Hi Ht Hb) as (_ & -> & _).
  - intros Ep. unfold phase_ok in Hph. rewrite Ep in Hph. destruct Hph as (_ & Hl & _ & Hv). split; [|exact Hv].
    intros st' [Hs|Hs]; [destruct Hs; cbn in *; lia|]. destruct Hs; cbn in *; subst; done.
Qed.

(** One event is offered, the flag is set, and the thread sees the flag but not the event. *)
Lemma stale_exit {S} `{EventSink S} capacity k (real0 : S) e :
  capacity = 2 ^ k → 0 <= k < 63 →
  ∃ st, rtc (feed_threads_step stop_store_order stop_load_order capacity) (feed_start capacity real0) st ∧
    ft_phase st = FDone ∧ wr_pushed (ft_ring st) = [e] ∧ ft_offered st = [e] ∧ ft_dropped st = 0 ∧
    wr_popped (ft_ring st) = [] ∧ ft_real st = real0.
Proof.
  intros Hc Hk. pose proof (capacity_bounds _ _ Hc Hk) as Hb.
  assert (slot_of capacity 0 = 0%nat) as E0.
  { rewrite (slot_of_mod _ _ Hc Hk) by lia. by rewrite Z.mod_0_l by lia. }
  assert (replicate (Z.to_nat capacity) (mkSlot FeedEvent_default 0 0) !! slot_of capacity 0 = Some (mkSlot FeedEvent_default 0 0))
    as Hslot by (rewrite E0; apply lookup_replicate; split; [done|lia]).
  assert (ring_full capacity 0 0 = false) as Hfull by (rewrite ring_full_spec by lia; apply Z.leb_gt; lia).
  unfold feed_start, weak_start. eexists. split.
  - eapply rtc_l; [left; eapply feed_offers; [done|by apply (weak_load_tail _ _ _ _ _ _ _ false _ _ _ e 0 (mkMessage 0 view_start))|done|done]|].
    eapply rtc_l; [left; eapply feed_offers; [done|by apply (weak_load_head _ _ _ _ _ _ _ _ _ _ false e 0 0 (mkMessage 0 view_start))|done|done]|].
    eapply rtc_l; [left; eapply feed_offers; [done|by eapply weak_write|done|done]|].
    eapply rtc_l; [left; eapply feed_offers; [done|apply weak_store_tail|done|done]|].
    eapply rtc_l; [left; by apply feed_stops|]. cbn.
    eapply rtc_l; [right; by apply (feed_tests _ _ _ _ _ _ _ _ 1 (mkMessage 1 view_start)); [lia|]|]. cbn.
    eapply rtc_l; [right; eapply feed_pops; [done|by apply (weak_pop_head _ _ _ _ _ _ _ _ _ _ 0 (mkMessage 0 view_start))|done]|]. cbn.
    eapply rtc_l; [right; eapply feed_pops; [done|by apply (weak_pop_tail _ _ _ _ _ _ _ _ _ _ _ 0 (mkMessage 0 view_start))|done]|]. cbn.
    eapply rtc_l; [right; eapply feed_pops; [done|by apply weak_pop_empty|done]|]. apply rtc_refl.
  - done.
Qed.

(** C38. The events the stop flag loses.  With the code's memory orders, whatever the sink and the event, there is a
    run in which the main thread offers the event, the ring takes it (nothing is dropped), the flag is set after the
    offer, and the feed thread returns without publishing it: a relaxed load of the flag orders nothing, and the last
    drain may still read the tail of before the offer.  The relaxed orders are the cause: with a release store and an
    acquire load of the flag, the thread never returns before it has published every event the ring took. *)
Theorem relaxed_stop_loses_events {S} `{EventSink S} capacity k (real0 : S) e :
  capacity = 2 ^ k → 0 <= k < 63 →
  (∃ st, rtc (feed_threads_step stop_store_order stop_load_order capacity) (feed_start capacity real0) st ∧
     ft_phase st = FDone ∧ wr_pushed (ft_ring st) = [e] ∧ ft_offered st = [e] ∧ ft_dropped st = 0 ∧ ft_real st = real0) ∧
  ∀ st, rtc (feed_threads_step Release Acquire capacity) (feed_start capacity real0) st →
    Z.of_nat (length (wr_pushed (ft_ring st))) < 18446744073709551616 → ft_phase st = FDone →
    ft_real st = foldl apply_feed_event real0 (wr_pushed (ft_ring st)).
Proof.
  intros Hc Hk. split.
  - destruct (stale_exit capacity k real0 e Hc Hk) as (st & Hr & Hd & Hp & Ho & Hdr & _ & Hre). by exists st.
  - intros st Hr Hn Ep. pose proof (feed_reaches_inv _ _ _ _ Hc Hk _ _ Hr Hn) as [Hi _ _ -> _ _ _ _ Hph].
    unfold phase_ok in Hph. rewrite Ep in Hph. destruct Hph as (_ & _ & Hall & Hv). specialize (Hall eq_refl eq_refl).
    pose proof (wi_fifo _ _ Hi) as [rest E]. rewrite E in *. rewrite length_app in Hall.
    destruct rest as [|x rest]; [by rewrite app_nil_r|]. cbn in Hall. lia.
Qed.

(** ** Witnesses *)

Definition last_event : OrderCancelled := mkCancelled 7 5 Buy 100.

(** The event is offered, the flag set, and the thread, in its last drain, publishes it. *)
Lemma last_event_published :
  ∃ st, rtc (feed_threads_step stop_store_order stop_load_order 4) (feed_start 4 []) st ∧
    ft_phase st = FLast 1 ∧ wr_pushed (ft_ring st) = [from_cancelled last_event] ∧
    wr_popped (ft_ring st) = [from_cancelled last_event].
Proof.
  unfold feed_start, weak_start. cbn. eexists. split.
  - eapply rtc_l; [left; eapply feed_offers; [done|by apply (weak_load_tail _ _ _ _ _ _ _ false _ _ _ (from_cancelled last_event) 0 (mkMessage 0 view_start))|done|done]|].
    eapply rtc_l; [left; eapply feed_offers; [done|by apply (weak_load_head _ _ _ _ _ _ _ _ _ _ false _ 0 0 (mkMessage 0 view_start))|done|done]|].
    eapply rtc_l; [left; eapply feed_offers; [done|by eapply weak_write|done|done]|].
    eapply rtc_l; [left; eapply feed_offers; [done|apply weak_store_tail|done|done]|]. cbn.
    eapply rtc_l; [left; by apply feed_stops|]. cbn.
    eapply rtc_l; [right; by apply (feed_tests _ _ _ _ _ _ _ _ 1 (mkMessage 1 view_start)); [lia|]|]. cbn.
    eapply rtc_l; [right; eapply feed_pops; [done|by apply (weak_pop_head _ _ _ _ _ _ _ _ _ _ 0 (mkMessage 0 view_start))|done]|]. cbn.
    eapply rtc_l; [right; eapply feed_pops; [done|eapply (weak_pop_tail _ _ _ _ _ _ _ _ _ _ _ 1); [cbn; lia|done]|done]|]. cbn.
    eapply rtc_l; [right; eapply feed_pops; [done|by eapply weak_read|done]|]. cbn.
    eapply rtc_l; [right; eapply feed_pops; [done|apply weak_store_head|done]|]. apply rtc_refl.
  - done.
Qed.

Lemma feed_thread_publishes_in_order_witness :
  ∃ st, rtc (feed_threads_step stop_store_order stop_load_order 4) (feed_start 4 []) st ∧
    ft_real st = [EvCancelled last_event] ∧ (∃ st', feed_thread_step stop_load_order 4 st st') ∧ (feed_left st <= 4)%nat.
Proof.
  destruct last_event_published as (st & Hr & Hp & Hps & Hqs). exists st. split; [exact Hr|].
  destruct (feed_thread_publishes_in_order 4 2 [] st eq_refl ltac:(lia) Hr ltac:(rewrite Hps; cbn; lia))
    as ((Hre & _) & Hlast & _).
  destruct (Hlast 1 Hp) as (Hgo & Hb & _). rewrite Hps, Hqs in *. split; [exact Hre|]. split; [exact Hgo|exact Hb].
Defined.

Lemma relaxed_stop_loses_events_witness :
  ∃ st, rtc (feed_threads_step stop_store_order stop_load_order 4) (feed_start 4 []) st ∧
    ft_phase st = FDone ∧ wr_pushed (ft_ring st) = [from_cancelled last_event] ∧ ft_real st = [].
Proof.
  destruct (relaxed_stop_loses_events 4 2 [] (from_cancelled last_event) eq_refl ltac:(lia))
    as [(st & Hr & Hd & Hp & _ & _ & Hre) _].
  by exists st.
Defined.
