(* ===== verification/FixTime.v ===== *)
(** * FixTime: the SendingTime of an execution report

    [sending_time_now] of adapters/fix/FixEncoder.cpp: [std::time], [gmtime_r]
    and [strftime] with "%Y%m%d-%H:%M:%S".  [std::time] is an input.  The
    calendar of [gmtime_r] is characterised by its start, 1 January 1970, and
    by the day that follows a day ([gmtime_calendar]); the text reads back as
    the time it was made from. *)
From Stdlib Require Import String.
From S2P Require Import Prelude Text.

(** ** [gmtime_r] *)

Record Date := mkDate { dt_year : Z; dt_month : Z; dt_day : Z }.

(** [std::tm], with the year and month as people count them. *)
Record Tm := mkTm { tm_date : Date; tm_hour : Z; tm_min : Z; tm_sec : Z }.

(** Day [z] after 1 January 1970.  Years are counted from 1 March, so that a leap day is the last of its year:
    400-year eras of 146097 days, centuries of 36524, groups of four years of 1461. *)
Definition civil_of_days (z : Z) : Date :=
  let z := z + 719468 in
  let era := z / 146097 in
  let doe := z mod 146097 in
  let c := Z.min (doe / 36524) 3 in
  let r := doe - 36524 * c in
  let q := r / 1461 in
  let s := r - 1461 * q in
  let a := Z.min (s / 365) 3 in
  let doy := s - 365 * a in
  let mp := (5 * doy + 2) / 153 in
  let d := doy - (153 * mp + 2) / 5 + 1 in
  let m := if Z.ltb mp 10 then mp + 3 else mp - 9 in
  let y := 400 * era + 100 * c + 4 * q + a in
  mkDate (if Z.leb m 2 then y + 1 else y) m d.

(** [None]: the year does not fit [tm_year], an [int] that counts from 1900. *)
Definition gmtime (t : Z) : option Tm :=
  let date := civil_of_days (t / 86400) in
  let s := t mod 86400 in
  if Z.leb (-2147483648) (dt_year date - 1900) && Z.ltb (dt_year date - 1900) 2147483648
  then Some (mkTm date (s / 3600) (s mod 3600 / 60) (s mod 60)) else None.

(** [std::tm tm_utc{}] is what a failed [gmtime_r] leaves. *)
Definition tm_zero : Tm := mkTm (mkDate 1900 1 0) 0 0 0.

(** ** [strftime] and [sending_time_now] *)

(** Two digits. *)
Definition two (v : Z) : list Z := [48 + v / 10; 48 + v mod 10].

Definition strftime_sending (tm : Tm) : list Z :=
  to_string_i64 (dt_year (tm_date tm)) ++ two (dt_month (tm_date tm)) ++ two (dt_day (tm_date tm)) ++ [45] ++
  two (tm_hour tm) ++ [58] ++ two (tm_min tm) ++ [58] ++ two (tm_sec tm).

(** [clock n] is what [std::time] returns when report [n] is made. *)
Definition sending_time_now (clock : Z → Z) (n : Z) : list Z :=
  strftime_sending (default tm_zero (gmtime (clock n))).

(** ** The calendar *)

Definition leap (y : Z) : bool := Z.eqb (y mod 4) 0 && (negb (Z.eqb (y mod 100) 0) || Z.eqb (y mod 400) 0).

Definition month_length (y m : Z) : Z :=
  if Z.eqb m 2 then (if leap y then 29 else 28)
  else if Z.eqb m 4 || Z.eqb m 6 || Z.eqb m 9 || Z.eqb m 11 then 30 else 31.

Definition valid_date (d : Date) : Prop :=
  1 <= dt_month d <= 12 ∧ 1 <= dt_day d <= month_length (dt_year d) (dt_month d).

Definition next_day (d : Date) : Date :=
  if Z.ltb (dt_day d) (month_length (dt_year d) (dt_month d)) then mkDate (dt_year d) (dt_month d) (dt_day d + 1)
  else if Z.eqb (dt_month d) 12 then mkDate (dt_year d + 1) 1 1
  else mkDate (dt_year d) (dt_month d + 1) 1.

(** The number of a date, as [timegm] computes it. *)
Definition days_of_civil (d : Date) : Z :=
  let y := if Z.leb (dt_month d) 2 then dt_year d - 1 else dt_year d in
  let mp := if Z.leb (dt_month d) 2 then dt_month d + 9 else dt_month d - 3 in
  let doy := (153 * mp + 2) / 5 + dt_day d - 1 in
  365 * y + y / 4 - y / 100 + y / 400 + doy - 719468.

Lemma leap_true y : leap y = true ↔ y mod 4 = 0 ∧ (y mod 100 ≠ 0 ∨ y mod 400 = 0).
Proof. unfold leap. zb; cbn; naive_solver lia. Qed.

(** Arithmetic with constant divisors. *)
Ltac dlia := Z.div_mod_to_equations; lia.

(** A day of a March year: era, century, group, year and day of the year. *)
Lemma march_split z :
  ∃ era c q a doy, z + 719468 = 146097 * era + 36524 * c + 1461 * q + 365 * a + doy ∧
    0 <= c <= 3 ∧ 0 <= q <= 24 ∧ 0 <= a <= 3 ∧ 0 <= doy <= 365 ∧ (doy = 365 → a = 3 ∧ (q = 24 → c = 3)) ∧
    civil_of_days z = (let mp := (5 * doy + 2) / 153 in
      let d := doy - (153 * mp + 2) / 5 + 1 in
      let m := if Z.ltb mp 10 then mp + 3 else mp - 9 in
      let y := 400 * era + 100 * c + 4 * q + a in
      mkDate (if Z.leb m 2 then y + 1 else y) m d).
Proof.
  set (z1 := z + 719468). exists (z1 / 146097). set (era := z1 / 146097). set (doe := z1 mod 146097).
  assert (z1 = 146097 * era + doe ∧ 0 <= doe < 146097) as [Hz1 Hdoe] by (unfold era, doe; dlia).
  set (c := Z.min (doe / 36524) 3). set (r := doe - 36524 * c).
  assert (0 <= c <= 3 ∧ 0 <= r <= 36524 ∧ (c < 3 → r < 36524)) as (Hc & Hr & Hrc) by (unfold r, c; dlia).
  assert (doe = 36524 * c + r) as Hdoe2 by (unfold r; lia).
  set (q := r / 1461). set (s := r - 1461 * q).
  assert (0 <= q <= 24 ∧ 0 <= s < 1461 ∧ r = 1461 * q + s) as (Hq & Hs & Hrs) by (unfold s, q; dlia).
  set (a := Z.min (s / 365) 3). set (doy := s - 365 * a).
  assert (0 <= a <= 3 ∧ 0 <= doy <= 365 ∧ (a < 3 → doy < 365) ∧ s = 365 * a + doy) as (Ha & Hdoy & Had & Hsa) by (unfold doy, a; dlia).
  exists c, q, a, doy. split_and!; try lia. reflexivity.
Qed.

(** The months of a March year. *)
Lemma month_split doy :
  0 <= doy <= 365 →
  let mp := (5 * doy + 2) / 153 in
  0 <= mp <= 11 ∧ 1 <= doy - (153 * mp + 2) / 5 + 1 ∧
  (mp < 11 → doy - (153 * mp + 2) / 5 + 1 <= (153 * (mp + 1) + 2) / 5 - (153 * mp + 2) / 5) ∧
  (mp = 11 → doy - (153 * mp + 2) / 5 + 1 <= doy - 336).
Proof. intros Hd mp. unfold mp. split_and!; dlia. Qed.

Lemma month_cases mp : 0 <= mp <= 11 → mp = 0 ∨ mp = 1 ∨ mp = 2 ∨ mp = 3 ∨ mp = 4 ∨ mp = 5 ∨ mp = 6 ∨ mp = 7 ∨ mp = 8 ∨ mp = 9 ∨ mp = 10 ∨ mp = 11.
Proof. lia. Qed.

Lemma leap_march era c q a :
  0 <= c <= 3 → 0 <= q <= 24 → 0 <= a <= 3 →
  leap (400 * era + 100 * c + 4 * q + a + 1) = true ↔ a = 3 ∧ (q = 24 → c = 3).
Proof. intros Hc Hq Ha. rewrite leap_true. split; [intros [H1 H2]; split; [|intros ->]|intros [-> H]; split]; dlia. Qed.

Lemma days_civil z : days_of_civil (civil_of_days z) = z ∧ valid_date (civil_of_days z).
Proof.
  destruct (march_split z) as (era & c & q & a & doy & Hz & Hc & Hq & Ha & Hdoy & Hlast & ->). cbv zeta.
  destruct (month_split doy Hdoy) as (Hmp & Hd1 & Hd2 & Hd3). set (mp := (5 * doy + 2) / 153) in *. clearbody mp.
  set (y := 400 * era + 100 * c + 4 * q + a). assert (y = 400 * era + 100 * c + 4 * q + a) as Hy by done.
  assert (y / 4 = 100 * era + 25 * c + q ∧ y / 100 = 4 * era + c ∧ y / 400 = era) as (Hy4 & Hy100 & Hy400) by (unfold y; dlia).
  pose proof (leap_march era c q a Hc Hq Ha) as Hleap. fold y in Hleap. clearbody y.
  assert (doy - (153 * mp + 2) / 5 + 1 <= month_length (if Z.ltb mp 10 then y else y + 1) (if Z.ltb mp 10 then mp + 3 else mp - 9)) as Hml.
  { unfold month_length. destruct (month_cases mp Hmp) as [->|[->|[->|[->|[->|[->|[->|[->|[->|[->|[->| ->]]]]]]]]]]];
      try (match goal with |- ?x <= _ => first [change (x <= 31)|change (x <= 30)]; dlia end).
    change (doy - (153 * 11 + 2) / 5 + 1 <= if leap (y + 1) then 29 else 28). destruct (leap (y + 1)); [dlia|].
    destruct (Z.eq_dec doy 365) as [E|]; [|dlia]. destruct Hleap as [_ Hleap]. by specialize (Hleap (Hlast E)). }
  unfold days_of_civil, valid_date. cbn [dt_year dt_month dt_day]. destruct (Z.ltb_spec mp 10).
  - rewrite (proj2 (Z.leb_gt (mp + 3) 2)) by lia. replace (mp + 3 - 3) with mp by lia. split; [lia|]. split; [lia|done].
  - rewrite (proj2 (Z.leb_le (mp - 9) 2)) by lia. replace (mp - 9 + 9) with mp by lia. rewrite Z.add_simpl_r.
    split; [lia|]. split; [lia|done].
Qed.

(** Days before a March year, and the March year, month and day of a date. *)
Definition days_before (y : Z) : Z := 365 * y + y / 4 - y / 100 + y / 400.

Lemma days_before_next y : days_before (y + 1) = days_before y + (if leap (y + 1) then 366 else 365).
Proof.
  unfold days_before. destruct (leap (y + 1)) eqn:E; [apply leap_true in E as [? ?]; dlia|].
  assert (¬ ((y + 1) mod 4 = 0 ∧ ((y + 1) mod 100 ≠ 0 ∨ (y + 1) mod 400 = 0))) as Hn by (by rewrite <- leap_true, E).
  dlia.
Qed.

Lemma days_before_mono y y' : y <= y' → days_before y <= days_before y'.
Proof. unfold days_before. intros. dlia. Qed.

(** One month: March year [yy], month [mp] of it, [len] days. *)
Ltac march_month yy mp len :=
  match goal with Hd : 1 <= ?d <= month_length ?y ?m |- _ =>
    change (month_length y m) with len in Hd; exists yy, mp, ((153 * mp + 2) / 5 + d - 1); unfold days_before; rewrite ?Z.sub_add;
    split_and!; try done; try lia; try (destruct (leap _)); dlia
  end.

Lemma march_of_date d :
  valid_date d →
  ∃ y mp doy, days_of_civil d = days_before y + doy - 719468 ∧ 0 <= mp <= 11 ∧
    doy = (153 * mp + 2) / 5 + dt_day d - 1 ∧ 0 <= doy < (if leap (y + 1) then 366 else 365) ∧
    (mp < 11 → doy < (153 * (mp + 1) + 2) / 5) ∧
    dt_year d = (if Z.ltb mp 10 then y else y + 1) ∧ dt_month d = (if Z.ltb mp 10 then mp + 3 else mp - 9).
Proof.
  destruct d as [y m d]. intros [Hm Hd]. cbn [dt_year dt_month dt_day] in *. unfold days_of_civil. cbn [dt_year dt_month dt_day].
  assert (m = 1 ∨ m = 2 ∨ m = 3 ∨ m = 4 ∨ m = 5 ∨ m = 6 ∨ m = 7 ∨ m = 8 ∨ m = 9 ∨ m = 10 ∨ m = 11 ∨ m = 12) as Hcase by lia.
  destruct Hcase as [->|[->|[->|[->|[->|[->|[->|[->|[->|[->|[->| ->]]]]]]]]]]].
  - march_month (y - 1) 10 31.
  - march_month (y - 1) 11 (if leap y then 29 else 28).
  - march_month y 0 31.
  - march_month y 1 30.
  - march_month y 2 31.
  - march_month y 3 30.
  - march_month y 4 31.
  - march_month y 5 31.
  - march_month y 6 30.
  - march_month y 7 31.
  - march_month y 8 30.
  - march_month y 9 31.
Qed.

(** The number of a date determines it. *)
Lemma days_inj d d' : valid_date d → valid_date d' → days_of_civil d = days_of_civil d' → d = d'.
Proof.
  intros Hd Hd' E.
  destruct (march_of_date d Hd) as (y & mp & doy & Ed & Hmp & Edoy & Hdoy & Hlt & Ey & Em).
  destruct (march_of_date d' Hd') as (y' & mp' & doy' & Ed' & Hmp' & Edoy' & Hdoy' & Hlt' & Ey' & Em').
  rewrite Ed, Ed' in E. pose proof (days_before_next y) as Hn. pose proof (days_before_next y') as Hn'.
  assert (y = y') as <-.
  { destruct (Z.lt_trichotomy y y') as [Hy|[?|Hy]]; [|done|].
    - pose proof (days_before_mono (y + 1) y' ltac:(lia)). lia.
    - pose proof (days_before_mono (y' + 1) y ltac:(lia)). lia. }
  assert (doy = doy') as <- by lia.
  assert (1 <= dt_day d ∧ 1 <= dt_day d') as [Hd1 Hd2] by (destruct Hd, Hd'; lia).
  assert (mp = mp') as <- by (destruct (Z.lt_trichotomy mp mp') as [|[?|]]; [dlia|done|dlia]).
  destruct d, d'. cbn [dt_year dt_month dt_day] in *. f_equal; [congruence|congruence|lia].
Qed.

Lemma civil_days d : valid_date d → civil_of_days (days_of_civil d) = d.
Proof. intros Hd. destruct (days_civil (days_of_civil d)) as [E Hv]. by apply days_inj. Qed.

Lemma next_day_valid d : valid_date d → valid_date (next_day d).
Proof.
  destruct d as [y m d]. intros [Hm Hd]. unfold next_day, valid_date in *. cbn [dt_year dt_month dt_day] in *.
  assert (∀ y m, 28 <= month_length y m) as Hl by (intros; unfold month_length; repeat case_match; lia).
  destruct (Z.ltb_spec d (month_length y m)); cbn [dt_year dt_month dt_day]; [lia|].
  destruct (Z.eqb_spec m 12); cbn [dt_year dt_month dt_day]; [pose proof (Hl (y + 1) 1)|pose proof (Hl y (m + 1))]; lia.
Qed.

Lemma days_early y m d : m <= 2 → days_of_civil (mkDate y m d) = days_before (y - 1) + ((153 * (m + 9) + 2) / 5 + d - 1) - 719468.
Proof. intros Hm. unfold days_of_civil, days_before. cbn [dt_year dt_month dt_day]. rewrite (proj2 (Z.leb_le m 2)) by done. lia. Qed.

Lemma days_late y m d : 3 <= m → days_of_civil (mkDate y m d) = days_before y + ((153 * (m - 3) + 2) / 5 + d - 1) - 719468.
Proof. intros Hm. unfold days_of_civil, days_before. cbn [dt_year dt_month dt_day]. rewrite (proj2 (Z.leb_gt m 2)) by lia. lia. Qed.

Lemma late_month_length y m : 3 <= m <= 11 → month_length y m = (153 * (m + 1 - 3) + 2) / 5 - (153 * (m - 3) + 2) / 5.
Proof.
  intros Hm. assert (m = 3 ∨ m = 4 ∨ m = 5 ∨ m = 6 ∨ m = 7 ∨ m = 8 ∨ m = 9 ∨ m = 10 ∨ m = 11) as Hcase by lia.
  by destruct Hcase as [->|[->|[->|[->|[->|[->|[->|[->| ->]]]]]]]].
Qed.

Lemma days_next d : valid_date d → days_of_civil (next_day d) = days_of_civil d + 1.
Proof.
  destruct d as [y m d]. intros [Hm Hd]. unfold next_day. cbn [dt_year dt_month dt_day] in *.
  destruct (Z.ltb_spec d (month_length y m)).
  { destruct (Z.le_gt_cases m 2); [rewrite !days_early by lia|rewrite !days_late by lia]; lia. }
  assert (d = month_length y m) as -> by lia. pose proof (days_before_next (y - 1)) as Hn. rewrite Z.sub_add in Hn.
  destruct (Z.eqb_spec m 12) as [->|Hne].
  { rewrite days_early, days_late, Z.add_simpl_r by lia. change (month_length y 12) with 31. dlia. }
  destruct (Z.le_gt_cases 3 m).
  - rewrite !days_late, late_month_length by lia. lia.
  - assert (m = 1 ∨ m = 2) as [-> | ->] by lia.
    + rewrite !days_early by lia. change (month_length y 1) with 31. dlia.
    + rewrite days_late, days_early, Hn by lia. change (month_length y 2) with (if leap y then 29 else 28). destruct (leap y); dlia.
Qed.

(** The calendar: day 0 is 1 January 1970, and each day is followed by the next one of the Gregorian calendar. *)
Theorem gmtime_calendar :
  civil_of_days 0 = mkDate 1970 1 1 ∧ ∀ z, valid_date (civil_of_days z) ∧ civil_of_days (z + 1) = next_day (civil_of_days z).
Proof.
  split; [reflexivity|]. intros z. destruct (days_civil z) as [E Hv]. split; [done|].
  rewrite <- (civil_days (next_day (civil_of_days z))) by (by apply next_day_valid). by rewrite days_next, E.
Qed.

(** ** The text *)

Lemma digits_step fuel v acc : v / 10 ≠ 0 → digits_fuel (S fuel) v acc = digits_fuel fuel (v / 10) ((48 + v mod 10) :: acc).
Proof. intros Hv. cbn [digits_fuel]. by destruct (Z.eqb_spec (v / 10) 0). Qed.

Lemma digits_stop fuel v acc : v / 10 = 0 → digits_fuel (S fuel) v acc = (48 + v mod 10) :: acc.
Proof. intros Hv. cbn [digits_fuel]. by rewrite Hv. Qed.

(** A year of four digits. *)
Lemma year_text y : 1000 <= y <= 9999 → to_string_i64 y = two (y / 100) ++ two (y mod 100).
Proof.
  intros Hy. unfold to_string_i64. rewrite (proj2 (Z.ltb_ge _ _)) by lia. unfold to_string_u64.
  rewrite 3!digits_step, digits_stop by dlia. unfold two. cbn [app]. do 4 (apply f_equal2; [dlia|]). done.
Qed.

Definition text_digits (s : list Z) : Prop := Forall (λ c, is_digit c = true) s.

Lemma two_digits v : 0 <= v < 100 → text_digits (two v) ∧ dec_value (two v) = v.
Proof.
  intros Hv. split; [|unfold dec_value, two; cbn [foldl]; dlia].
  unfold two. repeat constructor; apply digit_char; dlia.
Qed.

(** The time a text stands for, by its columns. *)
Definition read_sending_time (s : list Z) : Z :=
  let field (at_ n : nat) := dec_value (take n (drop at_ s)) in
  days_of_civil (mkDate (field 0 4)%nat (field 4 2)%nat (field 6 2)%nat) * 86400 +
  field 9%nat 2%nat * 3600 + field 12%nat 2%nat * 60 + field 15%nat 2%nat.

(** Times from 1970 to the end of 9999. *)
Definition four_digit_time (t : Z) : Prop := 0 <= t < 253402300800.

Lemma year_range z : 0 <= z < 2932897 → 1970 <= dt_year (civil_of_days z) <= 9999.
Proof.
  intros Hz. destruct (days_civil z) as [E Hv].
  destruct (march_of_date _ Hv) as (y & mp & doy & Ed & Hmp & Edoy & Hdoy & Hlt & -> & _). rewrite E in Ed.
  assert (1 <= dt_day (civil_of_days z)) by (destruct Hv; lia).
  assert (1969 <= y <= 9999) as Hy.
  { split.
    - destruct (Z.le_gt_cases 1969 y); [done|]. pose proof (days_before_mono y 1968 ltac:(lia)) as Hb.
      change (days_before 1968) with 718797 in Hb. destruct (leap (y + 1)); lia.
    - destruct (Z.le_gt_cases y 9999); [done|]. pose proof (days_before_mono 10000 y ltac:(lia)) as Hb.
      change (days_before 10000) with 3652425 in Hb. lia. }
  destruct (Z.ltb_spec mp 10).
  - destruct (Z.eq_dec y 1969) as [->|]; [|lia]. change (days_before 1969) with 719162 in Ed.
    assert (doy < 306) by dlia. lia.
  - destruct (Z.eq_dec y 9999) as [->|]; [|lia]. change (days_before 9999) with 3652059 in Ed.
    assert (306 <= doy) by dlia. lia.
Qed.

(** The text of a time: seventeen characters, digits, a hyphen and two colons, that read back as the time. *)
Theorem sending_time_reads_back clock n :
  four_digit_time (clock n) →
  length (sending_time_now clock n) = 17%nat ∧ Forall (λ c, is_digit c = true ∨ c = 45 ∨ c = 58) (sending_time_now clock n) ∧
  read_sending_time (sending_time_now clock n) = clock n.
Proof.
  unfold four_digit_time, sending_time_now. set (t := clock n). intros Ht.
  set (z := t / 86400). set (s := t mod 86400).
  assert (0 <= z < 2932897 ∧ 0 <= s < 86400 ∧ t = 86400 * z + s) as (Hz & Hs & Et) by (unfold z, s; dlia).
  pose proof (year_range z Hz) as Hy. destruct (days_civil z) as [Ed Hv].
  unfold gmtime. fold z s. rewrite (proj2 (Z.leb_le _ _)), (proj2 (Z.ltb_lt _ _)) by lia. cbn [andb default from_option id].
  clearbody z s. unfold strftime_sending. cbn [tm_date tm_hour tm_min tm_sec]. revert Hy Ed Hv. destruct (civil_of_days z) as [y m d]. intros Hy Ed Hv.
  cbn [dt_year dt_month dt_day] in *. destruct Hv as [Hm Hd]. cbn [dt_year dt_month dt_day] in *.
  assert (month_length y m <= 31) as Hl by (unfold month_length; repeat case_match; lia).
  rewrite year_text by lia. pose proof (two_digits (y / 100) ltac:(dlia)) as [D1 V1].
  pose proof (two_digits (y mod 100) ltac:(dlia)) as [D2 V2]. pose proof (two_digits m ltac:(lia)) as [D3 V3].
  pose proof (two_digits d ltac:(lia)) as [D4 V4]. pose proof (two_digits (s / 3600) ltac:(dlia)) as [D5 V5].
  pose proof (two_digits (s mod 3600 / 60) ltac:(dlia)) as [D6 V6]. pose proof (two_digits (s mod 60) ltac:(dlia)) as [D7 V7].
  split; [reflexivity|]. split.
  - rewrite !Forall_app. split_and!; try (eapply Forall_impl; [eassumption|]; cbn; tauto);
      apply Forall_singleton; tauto.
  - unfold read_sending_time, two in *. cbv zeta. cbn [app take drop]. rewrite V3, V4, V5, V6, V7.
    assert (dec_value [48 + y / 100 / 10; 48 + (y / 100) mod 10; 48 + y mod 100 / 10; 48 + (y mod 100) mod 10] = y) as ->.
    { unfold dec_value. cbn [foldl]. dlia. }
    rewrite Ed, Et. dlia.
Qed.

Lemma sending_time_reads_back_witness : read_sending_time (str "20240229-12:34:56") = 1709210096.
Proof. apply (sending_time_reads_back (λ _, 1709210096) 0). unfold four_digit_time. lia. Defined.
