(* ===== verification/FixVenue.v ===== *)
(** * FixVenue: FIX sessions over the engines of the venue

    [TotalEngine] is what a session needs of the engine behind the port so
    that nothing but one kind of order can stop it, whatever the bytes of the
    messages: the engine answers every call, except that it is undefined on
    the orders [stops] computes.  The matching engine, under the C++
    standard's reading of an erased level, is such an engine, and [stops] are
    the orders that make it read one; so is the risk decorator over it, for
    prices that are not negative.  A session over either answers every
    message up to the first that holds such an order. *)
From Stdlib Require Import String.
From S2P Require Import Prelude Core Text StdMap OrderPool PriceLevel OrderBook MatchingEngine TextProtocol.
From S2P Require Import ClientIndex MatchingSpec MatchingRefine EngineInvariant EngineRefine EngineTheorems.
From S2P Require Import EngineApi RiskEngine RiskTheorems RiskTotal GatewayCodec VenueTotal Fix FixTheorems FixTime.

(** [ok n e]: the engine takes [n] more well-formed calls, orders as far as they are [allowed]. *)
Class TotalEngine (E : Type) `{EngineAPI E} (ok : nat → E → Prop) (allowed : NewOrder → Prop)
    (stops : NewOrder → E → bool) : Prop := {
  total_submit n o e : ok (S n) e → wf_new_order o → allowed o →
    if stops o e then api_submit o e = Undefined
    else ∃ r e', api_submit o e = Ok (r, e') ∧ in_u64 (remaining_qty r) ∧ ok n e';
  total_cancel n id e : ok (S n) e → in_u64 id →
    ∃ r e', api_cancel id e = Ok (r, e') ∧ in_u64 (remaining_qty r) ∧ ok n e';
  total_weaken n e : ok (S n) e → ok n e }.

(** ** What a parsed message holds *)

Lemma parse_uint64_field_range map tag v : parse_uint64_field map tag = Some v → in_u64 v.
Proof.
  unfold parse_uint64_field. destruct (tag_get tag map) as [[|c s]|]; [done| |done].
  intros E. by apply (parse_uint64_range (c :: s)).
Qed.

Lemma parse_int64_field_range map tag v : parse_int64_field map tag = Some v → in_i64 v.
Proof.
  unfold parse_int64_field. destruct (tag_get tag map) as [[|c s]|]; [done| |done].
  intros E. by apply (parse_int64_range (c :: s)).
Qed.

(** An accepted message is an order of the session's client or a cancel, with fields in range. *)
Lemma fix_parse_range map owner msg :
  in_u64 owner → fix_parse map owner = inl msg →
  match msg with PMNew o => wf_new_order o ∧ new_order_owner o = owner | PMCancel c => in_u64 (cr_id c) end.
Proof.
  intros Hown. unfold fix_parse. destruct (tag_get 35 map) as [t|]; [|done]. case_decide; [|case_decide; [|done]].
  - unfold parse_new_order_single. destruct (parse_uint64_field map 11) as [id|] eqn:Ei; [|done].
    destruct (tag_get 55 map) as [sym|]; [|done]. destruct (negb _); [done|]. destruct (side_field map) as [sd|]; [|done].
    destruct (parse_uint64_field map 38) as [q|] eqn:Eq; [|done].
    pose proof (parse_uint64_field_range _ _ _ Ei) as Hid. pose proof (parse_uint64_field_range _ _ _ Eq) as Hq.
    destruct q as [|q|q]; [done| |u64; lia]. destruct (tag_get 40 map) as [ot|]; [|done]. case_decide; [|case_decide; [|done]].
    + destruct (parse_int64_field map 44) as [p|] eqn:Ep; [|done]. intros [= <-].
      pose proof (parse_int64_field_range _ _ _ Ep). done.
    + intros [= <-]. done.
  - unfold parse_cancel_request. destruct (parse_uint64_field map 41) as [id|] eqn:E41.
    { intros [= <-]. by apply parse_uint64_field_range in E41. }
    destruct (parse_uint64_field map 11) as [id|] eqn:E11; [|by destruct (tag_has _ _ || tag_has _ _)].
    intros [= <-]. by apply parse_uint64_field_range in E11.
Qed.

(** ** Reports are short enough to be valid *)

Lemma length_to_string v : (length (to_string_u64 v) <= 20)%nat.
Proof. pose proof (digits_length 20 v []) as H. exact H. Qed.

Lemma length_fields fs :
  Forall (λ f, (length f.2 <= 1000)%nat) fs → (length (fields_bytes fs) <= 1100 * length fs)%nat.
Proof.
  induction 1 as [|f fs Hf _ IH]; [done|]. rewrite fields_bytes_cons. unfold field_bytes. rewrite !length_app. cbn [length].
  assert (length (to_string_i64 f.1) <= 21)%nat as Ht.
  { unfold to_string_i64. destruct (Z.ltb _ _); cbn [length].
    - pose proof (length_to_string (- f.1)). lia.
    - pose proof (length_to_string f.1). lia. }
  lia.
Qed.

(** The texts of a session are short. *)
Definition short_texts (time : Z → list Z) (enc : FixEncoder) : Prop :=
  (length (sender_comp_id_ enc) <= 1000 ∧ length (target_comp_id_ enc) <= 1000)%nat ∧ ∀ n, (length (time n) <= 1000)%nat.

Lemma report_length time ctx r enc :
  short_texts time enc → Z.of_nat (length (fields_bytes (report_fields time ctx r enc))) < 9223372036854775808.
Proof.
  intros [[Hs Ht] Hn]. assert (Forall (λ f, (length f.2 <= 1000)%nat) (report_fields time ctx r enc)) as Hf.
  { pose proof (length_to_string (next_seq_num_ enc)). pose proof (length_to_string (ctx_order_id ctx)).
    pose proof (length_to_string (next_exec_id_ enc)). pose proof (length_to_string (total_filled r)).
    pose proof (length_to_string (remaining_qty r)). specialize (Hn (next_seq_num_ enc)).
    unfold report_fields. repeat (apply Forall_cons; split); try apply Forall_nil; try done; cbn [snd]; try (simpl; lia); try lia.
    destruct (ctx_side ctx); simpl; lia. }
  apply length_fields in Hf. unfold report_fields in Hf at 2. cbn [length] in Hf. lia.
Qed.

(** ** Sessions *)

Section Session.
Context {E : Type} `{TotalEngine E ok allowed stops}.
Variable time : Z → list Z.
Implicit Types s : FixSession E.

(** The messages of a counterparty, one after the other. *)
Fixpoint fix_session (msgs : list (list Z)) s : outcome (list (list Z + FixError) * FixSession E) :=
  match msgs with
  | [] => Ok ([], s)
  | raw :: msgs =>
      '(a, s) ← handle_message time raw s;
      '(answers, s) ← fix_session msgs s;
      Ok (a :: answers, s)
  end.

(** The message holds an order the engine is undefined on. *)
Definition message_stops (raw : list Z) s : bool :=
  match parse_validated raw with
  | inl map => match fix_parse map (client_id_ s) with inl (PMNew o) => stops o (engine_ s) | _ => false end
  | inr _ => false
  end.

(** One of the messages, handled in order, does. *)
Fixpoint session_stops (msgs : list (list Z)) s : bool :=
  match msgs with
  | [] => false
  | raw :: msgs =>
      message_stops raw s ||
      match handle_message time raw s with Ok (_, s') => session_stops msgs s' | _ => false end
  end.

(** A message whose order, if it holds one, the engine can take. *)
Definition admissible (client : Z) (raw : list Z) : Prop :=
  ∀ map o, parse_validated raw = inl map → fix_parse map client = inl (PMNew o) → allowed o.

(** The answers are errors, or valid execution reports numbered from [seq] on without a gap. *)
Fixpoint reports_numbered (seq : Z) (answers : list (list Z + FixError)) : Prop :=
  match answers with
  | [] => True
  | inr _ :: answers => reports_numbered seq answers
  | inl out :: answers =>
      (∃ map, parse_validated out = inl map ∧ tag_get 35 map = Some (str "8") ∧ parse_uint64_field map 34 = Some seq) ∧
      reports_numbered (seq + 1) answers
  end.

(** A session between two messages, good for [n] more. *)
Record session_good (n : nat) s : Prop := {
  sg_engine : ok n (engine_ s);
  sg_client : in_u64 (client_id_ s);
  sg_encoder : wf_encoder time (encoder_ s);
  sg_short : short_texts time (encoder_ s);
  sg_seq : next_seq_num_ (encoder_ s) + Z.of_nat n < 18446744073709551616;
  sg_exec : next_exec_id_ (encoder_ s) + Z.of_nat n < 18446744073709551616 }.

(** One report: valid, numbered, and the session goes on. *)
Lemma report_step n ctx r e s :
  session_good (S n) s → ok n e → in_u64 (ctx_order_id ctx) → in_u64 (remaining_qty r) →
  let rep := encode_execution_report time ctx r (encoder_ s) in
  (∃ map, parse_validated rep.1 = inl map ∧ tag_get 35 map = Some (str "8") ∧
          parse_uint64_field map 34 = Some (next_seq_num_ (encoder_ s))) ∧
  session_good n (mkSession e (client_id_ s) rep.2) ∧ next_seq_num_ rep.2 = next_seq_num_ (encoder_ s) + 1.
Proof.
  intros [He Hc Hw Hsh Hsq Hex] Hok Hid Hrem rep.
  destruct (exec_report_valid time ctx r (encoder_ s) Hw Hid Hrem (report_length _ _ _ _ Hsh)) as (map & E1 & E2 & E3 & _ & _ & _ & _ & _ & _ & _ & E4).
  fold rep in E1, E4. pose proof Hw as [? ? ? Hs1 He1].
  rewrite !wrap64_small in E4 by (u64; lia).
  split; [by exists map|]. rewrite E4. split; [|done]. split; cbn [engine_ client_id_ encoder_ next_seq_num_ next_exec_id_]; try done; try lia.
  split; cbn; try done; u64; lia.
Qed.

Lemma session_weaken n s : session_good (S n) s → session_good n s.
Proof. intros []. split; try done; [by apply total_weaken|lia|lia]. Qed.

(** Any other message is answered: an error leaves the session alone, a report advances its numbers. *)
Lemma handle_message_total n raw s :
  session_good (S n) s → admissible (client_id_ s) raw →
  if message_stops raw s then handle_message time raw s = Undefined
  else ∃ a s', handle_message time raw s = Ok (a, s') ∧ session_good n s' ∧ client_id_ s' = client_id_ s ∧
    match a with
    | inr _ => s' = s
    | inl out => (∃ map, parse_validated out = inl map ∧ tag_get 35 map = Some (str "8") ∧
        parse_uint64_field map 34 = Some (next_seq_num_ (encoder_ s))) ∧
        next_seq_num_ (encoder_ s') = next_seq_num_ (encoder_ s) + 1
    end.
Proof.
  intros Hg Hadm. unfold message_stops, handle_message.
  destruct (parse_validated raw) as [map|er] eqn:Ev; [|exists (inr er), s; split_and!; try done; by apply session_weaken].
  destruct (fix_parse map (client_id_ s)) as [msg|er] eqn:Ep; [|exists (inr er), s; split_and!; try done; by apply session_weaken].
  pose proof (fix_parse_range _ _ _ (sg_client _ _ Hg) Ep) as Hr. destruct msg as [o|c].
  - destruct Hr as [Hwf _]. pose proof (total_submit n o (engine_ s) (sg_engine _ _ Hg) Hwf (Hadm _ _ Ev Ep)) as Hsub.
    destruct (stops o (engine_ s)); [by rewrite Hsub|]. destruct Hsub as (r & e & -> & Hrem & Hok).
    cbn [mbind outcome_bind]. destruct (report_step n (context_from_new_order o) r e s Hg Hok) as (Hv & Hg' & Hs'); [apply Hwf|done|].
    destruct (encode_execution_report time (context_from_new_order o) r (encoder_ s)) as [out enc]. by eexists _, _.
  - destruct (total_cancel n (cr_id c) (engine_ s) (sg_engine _ _ Hg) Hr) as (r & e & -> & Hrem & Hok).
    cbn [mbind outcome_bind]. destruct (report_step n (mkCtx (cr_id c) Buy 0 true) r e s Hg Hok) as (Hv & Hg' & Hs'); [done|done|].
    destruct (encode_execution_report time (mkCtx (cr_id c) Buy 0 true) r (encoder_ s)) as [out enc]. by eexists _, _.
Qed.

Lemma fix_session_total msgs s :
  session_good (length msgs) s → Forall (admissible (client_id_ s)) msgs →
  if session_stops msgs s then fix_session msgs s = Undefined
  else ∃ answers s', fix_session msgs s = Ok (answers, s') ∧ length answers = length msgs ∧
    reports_numbered (next_seq_num_ (encoder_ s)) answers ∧ ok 0 (engine_ s').
Proof.
  revert s. induction msgs as [|raw msgs IH]; intros s Hg Hadm; cbn [fix_session session_stops].
  { exists [], s. split_and!; try done. apply Hg. }
  apply Forall_cons in Hadm as [Ha Hadm].
  pose proof (handle_message_total (length msgs) raw s Hg Ha) as Hm. destruct (message_stops raw s); cbn [orb]; [by rewrite Hm|].
  destruct Hm as (a & s1 & -> & Hg1 & Hc1 & Hans). cbn [mbind outcome_bind].
  specialize (IH s1 Hg1 ltac:(by rewrite Hc1)). destruct (session_stops msgs s1); [by rewrite IH|].
  destruct IH as (answers & s2 & -> & Hl & Hn & Hok2). cbn [mbind outcome_bind].
  exists (a :: answers), s2. split; [done|]. split; [by cbn; rewrite Hl|]. split; [|done]. cbn [reports_numbered].
  destruct a as [out|er]; [|by subst s1]. destruct Hans as [Hv Hs1]. split; [done|]. by rewrite <- Hs1.
Qed.
End Session.

(** ** The engines *)

Section Engines.
Context {Sk : Type} `{EventSink Sk}.

(** The matching engine with sequence numbers left for [n] orders. *)
Definition engine_good (n : nat) (e : MatchingEngine Sk) : Prop :=
  ∃ A, engine_inv e A ∧ next_sequence_ e + Z.of_nat n < 18446744073709551616.

#[export] Instance matching_total : TotalEngine (MatchingEngine Sk) engine_good (λ _, True) reads_erased.
Proof.
  split.
  - intros n o e (A & Hi & Hs) Hwf _. pose proof (submit_spec o e A Hi Hwf ltac:(lia)) as Hsp. cbn [api_submit inner_api matching_engine_api].
    rewrite (submit_strict o e A Hi Hwf). destruct (reads_erased o e); [done|]. destruct (rejection o e A) as [r|].
    { eexists _, e. split; [exact Hsp|]. split; [cbn; u64; lia|]. exists A. split; [done|lia]. }
    destruct (matched o e A) as [σ l] eqn:Em. destruct Hsp as (e' & A' & -> & Ha). eexists _, e'. split; [done|]. destruct Ha. split.
    + unfold matched in Em. pose proof (fill_queue_remaining (incoming_of o e) (ab_side (opposite (new_order_side o)) A)
        (fills_start (new_order_quantity o) (next_trade_sequence_ e))) as Hr. rewrite Em in Hr. destruct Hwf as (_ & _ & Hq & _).
      destruct Hr as [Hr _]; [cbn; u64; lia|by apply (matched_good o e A)|]. cbn in *. u64. lia.
    + exists A'. split; [done|lia].
  - intros n id e (A & Hi & Hs) Hid. pose proof (cancel_spec id e A Hi) as Hc. cbn [api_cancel inner_api matching_engine_api].
    destruct (orders_ (book_ e) !! id) as [slot|].
    + destruct Hc as (sd & l1 & r & l2 & e' & El & _ & -> & Hi' & _ & _ & _ & Es & _). eexists _, e'. split; [done|].
      assert ((slot, r) ∈ ab_entries A) as Hx by (apply ab_entries_elem; exists sd; rewrite El; set_solver).
      pose proof (ei_quantity _ _ Hi _ Hx) as Hq. unfold good_quantity in Hq. cbn in Hq. split; [cbn; u64; lia|].
      eexists. split; [exact Hi'|lia].
    + eexists _, e. split; [exact Hc|]. split; [cbn; u64; lia|]. exists A. split; [done|lia].
  - intros n e (A & Hi & Hs). exists A. split; [done|lia].
Qed.

(** The risk decorator over it. *)
Definition venue_good (n : nat) (e : RiskEngine (MatchingEngine Sk)) : Prop :=
  ∃ A, venue_ok e A ∧ next_sequence_ (inner_ e) + Z.of_nat n < 18446744073709551616.

#[export] Instance venue_total : TotalEngine (RiskEngine (MatchingEngine Sk)) venue_good sane_limit risk_reads.
Proof.
  split.
  - intros n o e (A & Hv & Hs) Hwf Hsn. pose proof (risk_submit_answered o e A Hv Hwf Hsn ltac:(lia)) as Hsub.
    destruct (risk_reads o e); [done|]. destruct Hsub as (r & e' & A' & E & (_ & Hr & _) & Hv' & _ & Hs').
    exists r, e'. split; [exact E|]. split; [done|]. exists A'. split; [done|lia].
  - intros n id e (A & Hv & Hs) Hid. destruct (risk_cancel_answered id e A Hv Hid) as (r & e' & A' & E & (_ & Hr & _) & Hv' & _ & Hs').
    exists r, e'. split; [exact E|]. split; [done|]. exists A'. split; [done|lia].
  - intros n e (A & Hv & Hs). exists A. split; [done|lia].
Qed.
End Engines.

(** ** A session from its logon on *)

(** The texts a session is opened with: short, and free of the field separator. *)
Definition session_texts (time : Z → list Z) (sender target : list Z) : Prop :=
  (no_soh sender ∧ no_soh target ∧ length sender <= 1000 ∧ length target <= 1000)%nat ∧
  ∀ n, no_soh (time n) ∧ (length (time n) <= 1000)%nat.

Lemma fresh_session_good {E} `{TotalEngine E ok allowed stops} time (n : nat) (e : E) client sender target :
  ok n e → in_u64 client → session_texts time sender target → Z.of_nat n < 18446744073709551615 →
  session_good (ok := ok) time n (mkSession e client (FixEncoder_new sender target)).
Proof.
  intros He Hc [(Hs & Ht & Hls & Hlt) Hn] Hb. split; cbn [engine_ client_id_ encoder_]; try done.
  - split; try done. intros k. apply Hn.
  - split; [done|]. intros k. apply Hn.
  - cbn. lia.
  - cbn. lia.
Qed.

(** The SendingTime of a clock between 1970 and the end of 9999 is such a text. *)
Lemma clock_texts clock sender target :
  (∀ n, four_digit_time (clock n)) → no_soh sender → no_soh target → (length sender <= 1000)%nat → (length target <= 1000)%nat →
  session_texts (sending_time_now clock) sender target.
Proof.
  intros Hc Hs Ht Hls Hlt. split; [done|]. intros n. destruct (sending_time_reads_back clock n (Hc n)) as (Hl & Hd & _).
  split; [|rewrite Hl; lia]. intros Hin. rewrite Forall_forall in Hd. by destruct (Hd _ Hin) as [|[|]].
Qed.

(** C26. A FIX session over the matching engine survives any counterparty, under the C++ standard's reading of an
    erased level: whatever byte strings it is sent, each is answered, no call has undefined behaviour, the engine
    keeps its invariant, and the execution reports among the answers are valid messages numbered 1, 2, 3, ...
    without a gap; unless one of the messages, handled in order, holds an order that is accepted and takes the
    last order at a price with quantity left ([session_stops], computed from the session), on which the matching
    loop, and with it the session, is undefined. *)
Theorem fix_session_survives {Sk} `{EventSink Sk} clock (sink : Sk) capacity stp client sender target msgs :
  Z.of_nat capacity < 4294967296 → in_u64 client → (∀ n, four_digit_time (clock n)) →
  no_soh sender → no_soh target → (length sender <= 1000)%nat → (length target <= 1000)%nat →
  Z.of_nat (length msgs) < 18446744073709551615 →
  let time := sending_time_now clock in
  let s := mkSession (MatchingEngine_new sink capacity stp) client (FixEncoder_new sender target) in
  if session_stops (stops := reads_erased) time msgs s then fix_session time msgs s = Undefined
  else ∃ answers s', fix_session time msgs s = Ok (answers, s') ∧
    length answers = length msgs ∧ reports_numbered 1 answers ∧ ∃ A, engine_inv (engine_ s') A.
Proof.
  intros Hcap Hc Hclock Hs Ht Hls Hlt Hn time s. pose proof (clock_texts clock sender target Hclock Hs Ht Hls Hlt) as Htexts.
  pose proof (fix_session_total (ok := engine_good) (allowed := λ _, True) (stops := reads_erased) time msgs s) as Htot.
  destruct (session_stops _ msgs s); [apply Htot|destruct Htot as (answers & s' & E & Hl & Hr & A & Hi & _)].
  1, 3: apply fresh_session_good; try done; exists (mkABook [] []); split; [by apply new_inv|cbn; lia].
  1, 2: apply Forall_true; by intros raw map o.
  exists answers, s'. split; [exact E|]. split; [done|]. split; [exact Hr|]. by exists A.
Qed.

(** The same behind the risk checks, for messages whose prices are not negative. *)
Theorem fix_risk_session_survives {Sk} `{EventSink Sk} clock (sink : Sk) capacity config client sender target msgs :
  Z.of_nat capacity < 4294967296 → band_pct_ok (price_band_pct config) → in_i64 (initial_reference_price config) →
  in_u64 client →
  (∀ n, four_digit_time (clock n)) → no_soh sender → no_soh target → (length sender <= 1000)%nat → (length target <= 1000)%nat →
  Z.of_nat (length msgs) < 18446744073709551615 →
  Forall (admissible (allowed := sane_limit) client) msgs →
  let time := sending_time_now clock in
  let s := mkSession (RiskEngine_new (MatchingEngine_new sink capacity (RiskConfig_stp config)) config) client
    (FixEncoder_new sender target) in
  if session_stops (stops := risk_reads) time msgs s then fix_session time msgs s = Undefined
  else ∃ answers s', fix_session time msgs s = Ok (answers, s') ∧
    length answers = length msgs ∧ reports_numbered 1 answers ∧ ∃ A, engine_inv (inner_ (engine_ s')) A.
Proof.
  intros Hcap Hp Href Hc Hclock Hs Ht Hls Hlt Hn Hadm time s.
  pose proof (clock_texts clock sender target Hclock Hs Ht Hls Hlt) as Htexts.
  pose proof (fix_session_total (ok := venue_good) (allowed := sane_limit) (stops := risk_reads) time msgs s) as Htot.
  destruct (session_stops _ msgs s); [apply Htot|destruct Htot as (answers & s' & E & Hl & Hr & A & [Hi _ _ _ _] & _)]; try done.
  1, 2: apply fresh_session_good; try done; exists (mkABook [] []); split; [|cbn; lia];
    split; cbn; try done; [by apply new_inv|intros x Hx; by apply elem_of_nil in Hx|unfold in_i64 in Href; lia].
  exists answers, s'. split; [exact E|]. split; [done|]. split; [exact Hr|]. by exists A.
Qed.

(** An order, noise, a damaged order and a cancel. *)
Definition fix_demo_messages : list (list Z) :=
  let order := fix_frame (fields_bytes (order_fields fix_demo_header fix_demo_order)) in
  [order; [1; 2; 3]; <[63%nat := 54]> order; fix_frame (fields_bytes (cancel_fields fix_demo_header 42))].

(** Noon of a leap day, and a second more for each report. *)
Definition fix_demo_clock (n : Z) : Z := 1709208000 + n mod 86400.

Lemma fix_demo_clock_fits n : four_digit_time (fix_demo_clock n).
Proof. unfold four_digit_time, fix_demo_clock. pose proof (Z.mod_pos_bound n 86400 ltac:(lia)). lia. Qed.

Lemma fix_session_survives_witness :
  ∃ answers s', fix_session (sending_time_now fix_demo_clock) fix_demo_messages fix_demo_session = Ok (answers, s') ∧
    length answers = 4%nat ∧ reports_numbered 1 answers ∧ order_count (book_ (engine_ s')) = 0.
Proof.
  pose proof (fix_session_survives fix_demo_clock ([] : list Event) 8 StpConfig_default 7 (str "MINI") (str "PEER")
    fix_demo_messages ltac:(lia) ltac:(u64; lia) fix_demo_clock_fits ltac:(vm_compute; set_solver) ltac:(vm_compute; set_solver)
    ltac:(vm_compute; lia) ltac:(vm_compute; lia) ltac:(simpl; lia)) as Hs. cbv zeta in Hs.
  assert (session_stops (stops := reads_erased) (sending_time_now fix_demo_clock) fix_demo_messages
    (mkSession (MatchingEngine_new [] 8 StpConfig_default) 7 (FixEncoder_new (str "MINI") (str "PEER"))) = false) as En
    by (vm_compute; reflexivity).
  rewrite En in Hs. destruct Hs as (answers & s' & E & Hl & Hr & _).
  exists answers, s'. split; [exact E|]. split; [exact Hl|]. split; [exact Hr|].
  vm_compute in E. injection E as <- <-. vm_compute. reflexivity.
Defined.

Lemma fix_risk_session_survives_witness :
  ∃ answers s', fix_session (sending_time_now fix_demo_clock) fix_demo_messages
      (mkSession (RiskEngine_new (MatchingEngine_new ([] : list Event) 8 (RiskConfig_stp RiskConfig_default)) RiskConfig_default)
        7 (FixEncoder_new (str "MINI") (str "PEER"))) = Ok (answers, s') ∧
    length answers = 4%nat ∧ reports_numbered 1 answers.
Proof.
  assert (Forall (admissible (allowed := sane_limit) 7) fix_demo_messages) as Hadm.
  { assert (∀ raw o, raw ∈ fix_demo_messages → ∀ map, parse_validated raw = inl map → fix_parse map 7 = inl (PMNew o) → o = fix_demo_order) as Hd.
    { intros raw o Hraw map Ev Ep. unfold fix_demo_messages in Hraw.
      repeat (apply elem_of_cons in Hraw as [->|Hraw]; [vm_compute in Ev; try done; injection Ev as <-; vm_compute in Ep; try done; by injection Ep as <-|]).
      by apply elem_of_nil in Hraw. }
    apply Forall_forall. intros raw Hraw map o Ev Ep. rewrite (Hd raw o Hraw map Ev Ep). intros p [= <-]. lia. }
  pose proof (fix_risk_session_survives fix_demo_clock ([] : list Event) 8 RiskConfig_default 7 (str "MINI") (str "PEER")
    fix_demo_messages ltac:(lia) band_pct_10 ltac:(unfold in_i64; cbn; lia) ltac:(u64; lia) fix_demo_clock_fits ltac:(vm_compute; set_solver)
    ltac:(vm_compute; set_solver) ltac:(vm_compute; lia) ltac:(vm_compute; lia) ltac:(simpl; lia) Hadm) as Hs. cbv zeta in Hs.
  assert (session_stops (stops := risk_reads) (sending_time_now fix_demo_clock) fix_demo_messages
    (mkSession (RiskEngine_new (MatchingEngine_new [] 8 (RiskConfig_stp RiskConfig_default)) RiskConfig_default)
      7 (FixEncoder_new (str "MINI") (str "PEER"))) = false) as En by (vm_compute; reflexivity).
  rewrite En in Hs. destruct Hs as (answers & s' & E & Hl & Hr & _).
  exists answers, s'. split; [exact E|]. split; [exact Hl|exact Hr].
Defined.
