(* ===== verification/Decimal.v ===== *)
(** * Decimal: printing a [double] in fixed notation

    [printf]'s [%.Nf] and [std::fixed] with [std::setprecision]: the exact
    value of the binary64, times ten to the precision, rounded to the nearest
    integer, ties to even, and printed with a point before the last digits.
    The text of a NaN, whose sign a binary64 of SpecFloat does not keep, is a
    parameter, with and without the [+] flag. *)
From Stdlib Require Import String.
From Corelib Require Import SpecFloat.
From S2P Require Import Prelude Text Doubles Core OrderBook MatchingEngine EngineApi RiskEngine.

(** ** The printer *)

(** [num / den] to the nearest integer, ties to even. *)
Definition div_nearest_even (num den : Z) : Z :=
  let q := num / den in
  let r := num mod den in
  if Z.ltb (2 * r) den then q
  else if Z.ltb den (2 * r) then q + 1
  else if Z.even q then q else q + 1.

(** Numerator and denominator of [m * 2^e * 10^prec]. *)
Definition scaled_num (prec m e : Z) : Z := m * 10 ^ prec * 2 ^ Z.max 0 e.

Definition scaled_den (e : Z) : Z := 2 ^ Z.max 0 (- e).

(** The last [k] decimal digits of [v]. *)
Fixpoint last_digits (k : nat) (v : Z) : list Z :=
  match k with O => [] | S k => last_digits k (v / 10) ++ [48 + v mod 10] end.

(** 309 digits are enough for the integer part of any binary64. *)
Definition fixed_digits (prec : nat) (n : Z) : list Z :=
  digits_fuel 310 (n / 10 ^ Z.of_nat prec) [] ++
  match prec with O => [] | S _ => 46 :: last_digits prec n end.

(** The sign, with or without the [+] flag. *)
Definition sign_text (plus negative : bool) : list Z :=
  if negative then [45] else if plus then [43] else [].

Definition print_fixed (nan_text : bool → list Z) (plus : bool) (prec : nat) (x : spec_float) : list Z :=
  match x with
  | S754_zero s => sign_text plus s ++ fixed_digits prec 0
  | S754_finite s m e =>
      sign_text plus s ++ fixed_digits prec (div_nearest_even (scaled_num (Z.of_nat prec) (Zpos m) e) (scaled_den e))
  | S754_infinity s => sign_text plus s ++ str "inf"
  | S754_nan => nan_text plus
  end.

(** [std::snprintf] into a buffer of [size] bytes: the text is cut to leave room for the terminator. *)
Definition snprintf (size : nat) (text : list Z) : list Z := take (size - 1) text.

(** ** Rounding *)

(** Within half a unit, and even when exactly half way. *)
Lemma div_nearest_even_spec num den :
  0 < den →
  let q := div_nearest_even num den in
  2 * Z.abs (q * den - num) <= den ∧ (2 * Z.abs (q * den - num) = den → Z.even q = true).
Proof.
  intros Hd. unfold div_nearest_even. pose proof (Z.div_mod num den ltac:(lia)) as Hdm.
  pose proof (Z.mod_pos_bound num den Hd) as Hm. set (q := num / den) in *. set (r := num mod den) in *.
  destruct (Z.ltb_spec (2 * r) den); [split; [nia|]|destruct (Z.ltb_spec den (2 * r)); [split; [nia|]|]].
  - intros E. exfalso. assert (q * den - num = - r) as E2 by lia. rewrite E2 in E. lia.
  - intros E. exfalso. assert ((q + 1) * den - num = den - r) as E2 by lia. rewrite E2 in E. lia.
  - destruct (Z.even q) eqn:Ev; [split; [nia|done]|]. split; [nia|]. intros _. rewrite Z.even_add, Ev. done.
Qed.

(** The nearest integer is unique, except half way between two, where it is the even one. *)
Lemma nearest_even_unique num den a b :
  0 < den →
  2 * Z.abs (a * den - num) <= den → (2 * Z.abs (a * den - num) = den → Z.even a = true) →
  2 * Z.abs (b * den - num) <= den → (2 * Z.abs (b * den - num) = den → Z.even b = true) → a = b.
Proof.
  intros Hd Ha Ea Hb Eb. destruct (Z.eq_dec a b) as [|Hne]; [done|exfalso].
  assert (Z.abs (a - b) = 1) as Hone.
  { assert (Z.abs (a - b) * den <= den); [|nia].
    rewrite <- (Z.abs_eq den) at 1 by lia. rewrite <- Z.abs_mul. replace ((a - b) * den) with (a * den - b * den) by lia. lia. }
  assert (a = b + 1 ∨ a = b - 1) as [->| ->] by lia.
  - assert (2 * Z.abs (b * den - num) = den ∧ 2 * Z.abs ((b + 1) * den - num) = den) as [E1 E2] by lia.
    specialize (Ea E2). specialize (Eb E1). rewrite Z.even_add, Eb in Ea. done.
  - assert (2 * Z.abs (b * den - num) = den ∧ 2 * Z.abs ((b - 1) * den - num) = den) as [E1 E2] by lia.
    specialize (Ea E2). specialize (Eb E1). rewrite Z.even_sub, Eb in Ea. done.
Qed.

Lemma div_nearest_even_exact q den : 0 < den → div_nearest_even (q * den) den = q.
Proof.
  intros Hd. destruct (div_nearest_even_spec (q * den) den Hd) as [H1 H2].
  apply (nearest_even_unique (q * den) den); try done; rewrite Z.sub_diag; [lia|]. intros E. simpl in E. lia.
Qed.

(** ** Digits *)

Lemma last_digits_spec k v :
  0 <= v → all_digits (last_digits k v) ∧ length (last_digits k v) = k ∧ dec_value (last_digits k v) = v mod 10 ^ Z.of_nat k.
Proof.
  revert v. induction k as [|k IH]; intros v Hv; cbn [last_digits].
  { split; [constructor|]. split; [done|]. rewrite Z.mod_1_r. done. }
  destruct (IH (v / 10)) as (Ha & Hl & Hd); [apply Z.div_pos; lia|].
  pose proof (Z.mod_pos_bound v 10 ltac:(lia)) as Hm. split_and!.
  - apply Forall_app. split; [done|]. constructor; [by apply digit_char|constructor].
  - rewrite length_app, Hl. simpl. lia.
  - unfold dec_value in *. rewrite foldl_app. cbn [foldl]. rewrite Hd.
    rewrite Nat2Z.inj_succ, Z.pow_succ_r by lia. rewrite Z.rem_mul_r by lia. lia.
Qed.

Lemma dec_value_app ds es : dec_value (ds ++ es) = dec_value ds * 10 ^ Z.of_nat (length es) + dec_value es.
Proof. unfold dec_value at 1. rewrite foldl_app. apply dec_value_snoc_cons. Qed.

(** The integer and the fractional digits of a printed number. *)
Lemma fixed_digits_spec prec n :
  0 <= n → n / 10 ^ Z.of_nat prec < 10 ^ 310 →
  ∃ ip fp, fixed_digits prec n = ip ++ match prec with O => [] | S _ => 46 :: fp end ∧
    all_digits ip ∧ ip ≠ [] ∧ all_digits fp ∧ length fp = prec ∧ dec_value (ip ++ fp) = n.
Proof.
  intros Hn Hb. pose proof (Z.pow_pos_nonneg 10 (Z.of_nat prec) ltac:(lia) ltac:(lia)) as Hp.
  destruct (digits_fuel_spec 310 (n / 10 ^ Z.of_nat prec) []) as (H1 & H2 & H3);
    [split; [apply Z.div_pos; lia|exact Hb]|lia|constructor|].
  destruct (last_digits_spec prec n Hn) as (H4 & H5 & H6).
  eexists _, (last_digits prec n). split; [reflexivity|]. split_and!; try done.
  rewrite dec_value_app, H3, H5, H6. cbn [length]. unfold dec_value. cbn [foldl].
  pose proof (Z.div_mod n (10 ^ Z.of_nat prec) ltac:(lia)). lia.
Qed.

(** ** What is printed *)

(** The integer part of a binary64 has at most 310 digits. *)
Lemma scaled_small prec m e :
  0 < m < 2 ^ 53 → e <= 971 →
  let n := div_nearest_even (scaled_num (Z.of_nat prec) m e) (scaled_den e) in
  0 <= n ∧ n / 10 ^ Z.of_nat prec < 10 ^ 310.
Proof.
  intros Hm He n. set (P := 10 ^ Z.of_nat prec). assert (0 < P) as HP by (apply Z.pow_pos_nonneg; lia).
  assert (2 ^ 1024 < 10 ^ 310) as Hbig by (apply Z.ltb_lt; vm_compute; reflexivity).
  assert (0 < scaled_den e) as Hd by (apply Z.pow_pos_nonneg; lia).
  destruct (div_nearest_even_spec (scaled_num (Z.of_nat prec) m e) (scaled_den e) Hd) as [H1 _]. fold n in H1.
  unfold scaled_num in H1. fold P in H1. set (D := scaled_den e) in *.
  assert (0 < 2 ^ Z.max 0 e) by (apply Z.pow_pos_nonneg; lia). split; [nia|].
  destruct (Z.le_gt_cases 0 e) as [He0|He0].
  - assert (D = 1) as HD by (unfold D, scaled_den; rewrite Z.max_l by lia; done). rewrite HD, Z.mul_1_r in H1.
    assert (n = m * 2 ^ e * P) as -> by (rewrite Z.max_r in H1 by lia; lia). rewrite Z.div_mul by lia.
    etrans; [|exact Hbig]. apply Z.lt_le_trans with (2 ^ 53 * 2 ^ e); [nia|].
    rewrite <- Z.pow_add_r by lia. apply Z.pow_le_mono_r; lia.
  - rewrite Z.max_l, Z.pow_0_r, Z.mul_1_r in H1 by lia.
    assert (n <= m * P + 1) as Hn by nia.
    apply Z.le_lt_trans with (m + 1); [|apply Z.lt_trans with (2 ^ 1024); [|exact Hbig]].
    + apply Z.lt_succ_r, Z.div_lt_upper_bound; [lia|]. nia.
    + apply Z.le_lt_trans with (2 ^ 53); [lia|]. by apply Z.pow_lt_mono_r.
Qed.

(** Printing is correctly rounded: the text of a finite binary64 is its sign, digits, and with a positive
    precision a point and exactly that many digits; read as an integer the digits are the nearest one to the
    value times ten to the precision, the even one when it is half way between two. *)
Theorem print_fixed_nearest nan_text plus prec s m e :
  Zpos m < 2 ^ 53 → e <= 971 →
  ∃ ip fp, print_fixed nan_text plus prec (S754_finite s m e) =
      sign_text plus s ++ ip ++ match prec with O => [] | S _ => 46 :: fp end ∧
    all_digits ip ∧ ip ≠ [] ∧ all_digits fp ∧ length fp = prec ∧
    2 * Z.abs (dec_value (ip ++ fp) * scaled_den e - scaled_num (Z.of_nat prec) (Zpos m) e) <= scaled_den e ∧
    (2 * Z.abs (dec_value (ip ++ fp) * scaled_den e - scaled_num (Z.of_nat prec) (Zpos m) e) = scaled_den e →
     Z.even (dec_value (ip ++ fp)) = true).
Proof.
  intros Hm He. destruct (scaled_small prec (Zpos m) e ltac:(lia) He) as [H0 Hb].
  destruct (fixed_digits_spec prec _ H0 Hb) as (ip & fp & E & H1 & H2 & H3 & H4 & H5).
  assert (0 < scaled_den e) as Hd by (apply Z.pow_pos_nonneg; lia).
  destruct (div_nearest_even_spec (scaled_num (Z.of_nat prec) (Zpos m) e) (scaled_den e) Hd) as [H6 H7].
  exists ip, fp. rewrite H5. split_and!; try done. cbn [print_fixed]. by rewrite E.
Qed.

Lemma digits_fuel_more fuel v acc d :
  0 <= v < 10 ^ Z.of_nat fuel → (0 < fuel)%nat → digits_fuel (fuel + d) v acc = digits_fuel fuel v acc.
Proof.
  revert v acc. induction fuel as [|fuel IH]; intros v acc Hv Hf; [lia|].
  rewrite Nat2Z.inj_succ, Z.pow_succ_r in Hv by lia. cbn [Nat.add digits_fuel].
  destruct (Z.eqb_spec (v / 10) 0) as [|Hne]; [done|]. pose proof (Z.div_mod v 10 ltac:(lia)).
  pose proof (Z.mod_pos_bound v 10 ltac:(lia)). apply IH; [lia|]. destruct fuel; [simpl in Hv|]; lia.
Qed.

(** An integer below [2^53] is printed as [std::to_string] prints it. *)
Lemma print_fixed_integer nan_text z : 0 <= z < 2 ^ 53 → print_fixed nan_text false 0 (double_of_int z) = to_string_u64 z.
Proof.
  intros Hz. assert (fixed_digits 0 z = to_string_u64 z) as Hf.
  { unfold fixed_digits, to_string_u64. rewrite app_nil_r. cbn [Z.of_nat]. rewrite Z.pow_0_r, Z.div_1_r.
    apply (digits_fuel_more 20 z [] 290); [|lia]. split; [lia|]. apply Z.lt_trans with (2 ^ 53); [lia|]. done. }
  destruct (Z.eq_dec z 0) as [->|]; [reflexivity|].
  destruct (of_int_exact z) as (m & e & E & He & Hm & Hme); [lia|]. unfold double_of_int. rewrite E. cbn [print_fixed].
  rewrite <- Hf. cbn [sign_text app]. f_equal. unfold scaled_num, scaled_den.
  rewrite Z.max_l, Z.max_r, Z.mul_1_r, Z.pow_0_r, Z.mul_1_r, Hme by lia. apply div_nearest_even_exact. apply Z.pow_pos_nonneg; lia.
Qed.

(** Half way goes to even; a negative zero and a rounded one keep their sign; infinities are words. *)
Example printed_values :
  print_fixed (λ _, []) false 0 (S754_finite false 5629499534213120 (-51)) = str "2" ∧
  print_fixed (λ _, []) false 0 (S754_finite false 7881299347898368 (-51)) = str "4" ∧
  print_fixed (λ _, []) false 1 (S754_finite false 4503599627370496 (-54)) = str "0.2" ∧
  print_fixed (λ _, []) true 1 (S754_finite true 5764607523034235 (-57)) = str "-0.0" ∧
  print_fixed (λ _, []) true 1 (S754_finite false 6614661952700416 (-46)) = str "+94.0" ∧
  print_fixed (λ _, []) false 2 (S754_infinity true) = str "-inf".
Proof. split_and!; vm_compute; reflexivity. Qed.

Lemma print_fixed_nearest_witness :
  ∃ ip fp, print_fixed (λ _, []) false 1 (S754_finite false 7205759403792794 (-56)) = ip ++ 46 :: fp ∧ dec_value (ip ++ fp) = 1.
Proof.
  destruct (print_fixed_nearest (λ _, []) false 1 false 7205759403792794 (-56) ltac:(lia) ltac:(lia))
    as (ip & fp & E & _ & _ & _ & _ & Hn & _).
  exists ip, fp. split; [exact E|]. change (scaled_den (-56)) with 72057594037927936 in Hn.
  change (scaled_num (Z.of_nat 1) 7205759403792794 (-56)) with 72057594037927940 in Hn. lia.
Defined.
