(* ===== verification/ReportFile.v ===== *)
(** * ReportFile: the report files of the benchmarks

    [write_results] of apps/benchmark/results_writer.cpp with the end of
    apps/benchmark/main.cpp that calls it, and [write_results] of
    apps/benchmark/queue_bench.cpp: the bytes of the file written.  Whether
    the directories can be made and the file opened are inputs.  [fmt] casts a
    [double] to [int64_t], which is undefined out of range. *)
From Stdlib Require Import String.
From Corelib Require Import SpecFloat.
From S2P Require Import Prelude Text Doubles Decimal RiskEngine LatencyRecorder Workload WorkloadTheorems LatencyBench QueueLatency.

Definition nl : list Z := [10].

Definition double_sub (x y : spec_float) : spec_float := SFsub 53 1024 x y.

(** [static_cast<int64_t>] of a [double]: toward zero; undefined where the result does not fit. *)
Definition trunc_i64 (x : spec_float) : option Z :=
  match x with
  | S754_zero _ => Some 0
  | S754_finite s m e =>
      let n := if Z.leb 0 e then Zpos m * 2 ^ e else Zpos m / 2 ^ (- e) in
      let v := if s then - n else n in
      if Z.leb (-9223372036854775808) v && Z.ltb v 9223372036854775808 then Some v else None
  | _ => None
  end.

(** ** results_writer.hpp *)

Record ThroughputResult := mkThroughput { tr_label : list Z; orders_per_sec : spec_float }.

Record BaselineEntry := mkBaseline { be_label : list Z; be_median : spec_float }.

(** How a call of [write_results] ends: an exception of [create_directories], a message on the error stream, or
    the file. *)
Inductive Written :=
| DirectoriesThrew
| NotOpened (stderr : list Z)
| Wrote (contents : list Z).

(** A loop that writes one line per element. *)
Fixpoint each_line {A} (line : A → outcome (list Z)) (l : list A) : outcome (list Z) :=
  match l with
  | [] => Ok []
  | x :: l => t ← line x; ts ← each_line line l; Ok (t ++ ts)
  end.

Definition interpretation_text : list Z :=
  nl ++
  str "## Interpretation" ++ nl ++ nl ++
  str "### CANCEL operations: unchanged (expected)" ++ nl ++ nl ++
  str "CANCEL was already O(1) via the intrusive doubly-linked list unlink + hash-map erase. The memory pool doesn't change the cancel path — `pool_.release()` replaces `unique_ptr` destruction, but both are O(1) with similar constant factors. Median staying flat confirms this." ++ nl ++ nl ++
  str "### ADD operations: pool eliminates per-order heap allocation" ++ nl ++ nl ++
  str "The pool replaces `std::make_unique<Order>(...)` (which calls `operator new`) with a free-list pop — a single index read and store. Any improvement in ADD latency is directly attributable to removing heap allocation from the hot path. The magnitude depends on system malloc performance and whether the allocator's free-list was already warm." ++ nl ++ nl ++
  str "### Throughput: proportional to ADD-path share of workload" ++ nl ++ nl ++
  str "The mixed workload is 60% limit adds + 10% market adds + 30% cancels. Since 70% of operations hit the ADD path (where the pool helps) and 30% hit the CANCEL path (where it doesn't), any throughput improvement should be roughly 0.7x the per-ADD improvement." ++ nl ++ nl ++
  str "### Methodology note" ++ nl ++ nl ++
  str "These benchmarks create a fresh `MatchingEngine` per single-operation iteration (construction is untimed). The pool's primary benefit — eliminating heap fragmentation and per-order `new`/`delete` over a long-lived engine — is best visible in sustained throughput, not in micro-benchmarks where pool construction cost (one large allocation at startup) amortizes across fewer operations. Absolute numbers depend on the host and its CPU-frequency settings (see the Environment line above); relative comparisons are directionally meaningful but vary between runs." ++ nl.

Definition queue_interpretation_text : list Z :=
  nl ++
  str "## Interpretation" ++ nl ++ nl ++
  str "- **Isolated latency (single-threaded):** With no contention, the mutex has minimal overhead (no actual blocking occurs). The lock-free buffer may show similar or slightly better numbers due to avoiding the mutex syscall overhead entirely — even an uncontended mutex requires an atomic compare-and-swap on Linux (futex fast path) or a kernel transition on Windows." ++ nl ++
  str "- **Two-thread throughput:** This is where the lock-free buffer should clearly outperform. Under sustained producer/consumer load, the mutex forces serialization (one thread waits while the other holds the lock), while the ring buffer allows both threads to progress simultaneously — the producer writes to tail without observing head's cache line (until checking if full), and the consumer reads from head without touching tail's cache line (until checking if empty)." ++ nl ++
  str "- **Tail latency (P99/max):** The mutex's worst-case is unbounded under contention (thread can be descheduled while holding the lock, blocking the other indefinitely). The ring buffer's worst case is bounded by the try_push/try_pop operation itself (a few cache misses at most). This difference matters most under load — exactly Phase 5's scenario." ++ nl.

Section Report.
(** What the library prints for a NaN, without and with the [+] flag. *)
Variable nan_text : bool → list Z.

(** An integer if the value is whole, one decimal otherwise. *)
Definition fmt (val : spec_float) : outcome (list Z) :=
  n ← deref (trunc_i64 val);
  Ok (if SFeqb val (double_of_int n) then snprintf 64 (print_fixed nan_text false 0 val)
      else snprintf 64 (print_fixed nan_text false 1 val)).

Definition latency_line (r : LatencyRow) : outcome (list Z) :=
  avg ← fmt (res_avg (row_result r));
  median ← fmt (res_median (row_result r));
  p99 ← fmt (res_p99 (row_result r));
  max ← fmt (res_max (row_result r));
  Ok (str "| " ++ row_label r ++ str " | " ++ avg ++ str " | " ++ median ++ str " | " ++ p99 ++ str " | " ++ max ++ str " |" ++ nl).

(** Millions with two decimals, thousands, or units. *)
Definition throughput_text (v : spec_float) : list Z :=
  if SFleb (double_of_int 1000000) v then
    snprintf 64 (print_fixed nan_text false 2 (double_div v (double_of_int 1000000)) ++ str "M")
  else if SFleb (double_of_int 1000) v then
    snprintf 64 (print_fixed nan_text false 0 (double_div v (double_of_int 1000)) ++ str "K")
  else snprintf 64 (print_fixed nan_text false 0 v).

Definition throughput_line (r : ThroughputResult) : list Z :=
  str "| " ++ tr_label r ++ str " | " ++ throughput_text (orders_per_sec r) ++ str " |" ++ nl.

(** [((new - old) / old) * 100.0] with a sign and one decimal. *)
Definition delta_pct (new old : spec_float) : spec_float :=
  double_mul (double_div (double_sub new old) old) (double_of_int 100).

Definition delta_text (delta : spec_float) : list Z := snprintf 64 (print_fixed nan_text true 1 delta ++ str "%").

(** The inner loop of the comparison: the first row with the label of the baseline entry. *)
Fixpoint comparison_line (b : BaselineEntry) (rows : list LatencyRow) : outcome (list Z) :=
  match rows with
  | [] => Ok []
  | r :: rows =>
      if bool_decide (row_label r = be_label b) then
        let delta := if SFltb (S754_zero false) (be_median b) then delta_pct (res_median (row_result r)) (be_median b)
                     else S754_zero false in
        old ← fmt (be_median b);
        new ← fmt (res_median (row_result r));
        Ok (str "| " ++ be_label b ++ str " | " ++ old ++ str " | " ++ new ++ str " | " ++ delta_text delta ++ str " |" ++ nl)
      else comparison_line b rows
  end.

Definition millions (v : spec_float) : list Z :=
  snprintf 64 (print_fixed nan_text false 2 (double_div v (double_of_int 1000000)) ++ str "M").

Definition throughput_comparison (throughputs : list ThroughputResult) (baseline_throughput : spec_float) : list Z :=
  match throughputs with
  | t :: _ =>
      if SFltb (S754_zero false) baseline_throughput then
        nl ++ str "### Throughput comparison" ++ nl ++ nl ++
        str "| Workload | Phase 2 | Phase 3 | Δ (%) |" ++ nl ++
        str "|---|---|---|---|" ++ nl ++
        str "| Mixed (60/10/30) | " ++ millions baseline_throughput ++ str " | " ++ millions (orders_per_sec t) ++
        str " | " ++ delta_text (delta_pct (orders_per_sec t) baseline_throughput) ++ str " |" ++ nl
      else []
  | [] => []
  end.

Definition comparison (rows : list LatencyRow) (throughputs : list ThroughputResult) (baseline : list BaselineEntry)
    (baseline_throughput : spec_float) : outcome (list Z) :=
  match baseline with
  | [] => Ok []
  | _ =>
      lines ← each_line (λ b, comparison_line b rows) baseline;
      Ok (nl ++ str "## Phase 2 → Phase 3 comparison" ++ nl ++ nl ++
          str "| Operation | Phase 2 Median (ns) | Phase 3 Median (ns) | Δ (%) |" ++ nl ++
          str "|---|---|---|---|" ++ nl ++ lines ++
          throughput_comparison throughputs baseline_throughput ++ interpretation_text)
  end.

Definition report_head (environment title : list Z) : list Z :=
  str "# " ++ title ++ nl ++ nl ++
  str "Environment: " ++ environment ++ nl ++
  str "Build: RelWithDebInfo" ++ nl ++ nl ++
  str "## Single-operation latency (ns)" ++ nl ++ nl ++
  str "| Operation | Avg | Median | P99 | Max |" ++ nl ++
  str "|---|---|---|---|---|" ++ nl.

Definition throughput_head : list Z :=
  nl ++ str "## Sustained throughput" ++ nl ++ nl ++ str "| Workload | Orders/sec |" ++ nl ++ str "|---|---|" ++ nl.

(** [path.has_parent_path()]: there is a slash. *)
Definition has_parent_path (path : list Z) : bool := existsb (Z.eqb 47) path.

Definition write_results (made opened : bool) (filepath : list Z) (rows : list LatencyRow) (throughputs : list ThroughputResult)
    (environment title : list Z) (baseline : list BaselineEntry) (baseline_throughput : spec_float) : outcome Written :=
  if has_parent_path filepath && negb made then Ok DirectoriesThrew
  else if negb opened then Ok (NotOpened (str "ERROR: could not open " ++ filepath ++ str " for writing" ++ nl))
  else
    lines ← each_line latency_line rows;
    rest ← comparison rows throughputs baseline baseline_throughput;
    Ok (Wrote (report_head environment title ++ lines ++ throughput_head ++ concat (throughput_line <$> throughputs) ++ rest)).

(** ** The end of apps/benchmark/main.cpp *)

Definition bench_environment (getenv : option (list Z)) (fallback : list Z) : list Z :=
  match getenv with None | Some [] => fallback | Some env => env end.

Definition phase2_baseline : list BaselineEntry :=
  [mkBaseline (str "ADD (no match)") (double_of_int 900); mkBaseline (str "ADD (1 fill)") (double_of_int 600);
   mkBaseline (str "ADD (10 fills)") (double_of_int 2300); mkBaseline (str "ADD (100 fills)") (double_of_int 19500);
   mkBaseline (str "CANCEL (front)") (double_of_int 300); mkBaseline (str "CANCEL (back)") (double_of_int 200)].

Definition kPhase2Throughput : spec_float := double_of_int 2920000.

Definition results_path : list Z := str "benchmarks/results/phase-03-pooled.md".

(** The latency benchmarks, the throughput measurement, the report; what is printed on the terminal is left out. *)
Definition benchmark_main {R} `{RandomSource R} (freed_empty : outcome bool) (now : nat → Z) (getenv : option (list Z))
    (made opened : bool) : outcome Written :=
  '(rows, readings) ← latency_rows (main_benches freed_empty now) 0;
  throughput ← measure_throughput (R := R) freed_empty now readings;
  write_results made opened results_path rows [mkThroughput (str "Mixed (60% limit, 10% market, 30% cancel)") throughput]
    (bench_environment getenv (str "Windows laptop, no CPU pinning, no turbo-boost control"))
    (str "Phase 3 — Memory Pool Results") phase2_baseline kPhase2Throughput.

(** ** [write_results] of queue_bench.cpp *)

Definition kQueueCapacity : Z := 4096.

(** One row, with [std::fixed] and one decimal. *)
Definition queue_row (op qtype : list Z) (r : LatencyResult) : list Z :=
  str "| " ++ op ++ str " | " ++ qtype ++ str " | " ++ print_fixed nan_text false 1 (res_avg r) ++ str " | " ++
  print_fixed nan_text false 1 (res_median r) ++ str " | " ++ print_fixed nan_text false 1 (res_p99 r) ++ str " | " ++
  print_fixed nan_text false 1 (res_max r) ++ str " |" ++ nl.

Definition queue_write_results (made opened : bool) (getenv : option (list Z)) (spsc_push spsc_pop mutex_push mutex_pop : LatencyResult)
    (spsc_throughput mutex_throughput : spec_float) : Written :=
  if negb made then DirectoriesThrew
  else if negb opened then NotOpened []
  else Wrote (
    str "# Phase 4 — Queue Comparison: Lock-Free vs. Mutex Baseline" ++ nl ++ nl ++
    str "**Environment:** " ++ bench_environment getenv (str "Windows laptop, no CPU pinning") ++ str ", RelWithDebInfo build, " ++
    to_string_u64 kQueueCapacity ++ str "-slot queue capacity" ++ nl ++ nl ++
    str "## Isolated Per-Operation Latency (single-threaded)" ++ nl ++ nl ++
    str "| Operation | Queue | Avg (ns) | Median (ns) | P99 (ns) | Max (ns) |" ++ nl ++
    str "|---|---|---|---|---|---|" ++ nl ++
    queue_row (str "try_push") (str "SpscRingBuffer") spsc_push ++
    queue_row (str "try_push") (str "MutexQueue") mutex_push ++
    queue_row (str "try_pop") (str "SpscRingBuffer") spsc_pop ++
    queue_row (str "try_pop") (str "MutexQueue") mutex_pop ++
    nl ++ str "## Two-Thread Producer/Consumer Throughput" ++ nl ++ nl ++
    str "| Queue | Throughput (ops/sec) |" ++ nl ++
    str "|---|---|" ++ nl ++
    str "| SpscRingBuffer | " ++ print_fixed nan_text false 0 spsc_throughput ++ str " |" ++ nl ++
    str "| MutexQueue | " ++ print_fixed nan_text false 0 mutex_throughput ++ str " |" ++ nl ++
    nl ++ str "**Speedup:** SpscRingBuffer is " ++
    print_fixed nan_text false 2 (double_div spsc_throughput mutex_throughput) ++
    str "x faster than MutexQueue in two-thread throughput." ++ nl ++
    queue_interpretation_text).
End Report.

(** ** The cells of the tables *)

Section Cells.
Variable nan_text : bool → list Z.

(** [SFeqb] of a finite number with itself. *)
Lemma finite_eqb s m e : SFeqb (S754_finite s m e) (S754_finite s m e) = true.
Proof. unfold SFeqb. cbn [SFcompare]. rewrite Z.compare_refl, Pos.compare_cont_refl. by destruct s. Qed.

Lemma trunc_below x : below 61 x → ∃ n, trunc_i64 x = Some n.
Proof.
  destruct x as [s| | |[] m e]; try done; [by eexists|]. intros [He Hm]. unfold trunc_i64. set (n := if Z.leb 0 e then _ else _).
  assert (0 <= n <= 2 ^ 61) as Hn.
  { unfold n. destruct (Z.leb_spec 0 e).
    - split; [nia|]. replace 61 with (61 - e + e) by lia. rewrite Z.pow_add_r by lia. apply Z.mul_le_mono_nonneg_r; lia.
    - split; [apply Z.div_pos; lia|]. apply Z.div_le_upper_bound; [lia|]. rewrite <- Z.pow_add_r by lia.
      replace (- e + 61) with (61 - e) by lia. done. }
  exists n. by rewrite (proj2 (Z.leb_le _ _)), (proj2 (Z.ltb_lt _ _)) by lia.
Qed.

Lemma fmt_below x : below 61 x → ∃ t, fmt nan_text x = Ok t.
Proof. intros Hx. unfold fmt. destruct (trunc_below x Hx) as [n ->]. by eexists. Qed.

Lemma trunc_of_int z : 0 <= z < 2 ^ 53 → trunc_i64 (double_of_int z) = Some z.
Proof.
  intros Hz. destruct (Z.eq_dec z 0) as [->|]; [done|]. unfold double_of_int.
  destruct (of_int_exact z) as (m & e & -> & He & _ & Hm); [lia|]. cbn [trunc_i64]. rewrite Hm.
  assert ((if Z.leb 0 e then z * 2 ^ (- e) * 2 ^ e else z * 2 ^ (- e) / 2 ^ (- e)) = z) as ->.
  { destruct (Z.leb_spec 0 e); [assert (e = 0) as -> by lia; lia|apply Z.div_mul; lia]. }
  by rewrite (proj2 (Z.leb_le _ _)), (proj2 (Z.ltb_lt _ _)) by lia.
Qed.

(** A count of nanoseconds below [2^53] appears in a table as the integer it is. *)
Lemma fmt_integer z : 0 <= z < 2 ^ 53 → fmt nan_text (double_of_int z) = Ok (to_string_u64 z).
Proof.
  intros Hz. unfold fmt. rewrite trunc_of_int by done. cbn [deref mbind outcome_bind].
  assert (SFeqb (double_of_int z) (double_of_int z) = true) as ->.
  { destruct (Z.eq_dec z 0) as [->|]; [done|]. unfold double_of_int.
    destruct (of_int_exact z) as (m & e & -> & _); [lia|]. apply finite_eqb. }
  rewrite print_fixed_integer by done. f_equal. unfold snprintf. apply take_ge.
  pose proof (digits_length 20 z []) as Hl. unfold to_string_u64. cbn [length] in Hl. lia.
Qed.

Lemma each_line_ok {A} (line : A → outcome (list Z)) l ts :
  Forall2 (λ x t, line x = Ok t) l ts → each_line line l = Ok (concat ts).
Proof. induction 1 as [|x t l ts Hx _ IH]; [done|]. cbn [each_line concat]. rewrite Hx. cbn [mbind outcome_bind]. by rewrite IH. Qed.

(** The line of a benchmark: its label, the texts of average and median, and two of its samples as integers,
    the second the largest. *)
Definition line_measured (now : nat → Z) (label line : list Z) : Prop :=
  ∃ start avg median x y, let samples := elapsed now start <$> seq 0 kLatencyIterations in
    x ∈ samples ∧ y ∈ samples ∧ (∀ z, z ∈ samples → z <= y) ∧
    line = str "| " ++ label ++ str " | " ++ avg ++ str " | " ++ median ++ str " | " ++ to_string_u64 x ++ str " | " ++
           to_string_u64 y ++ str " |" ++ nl.

Lemma latency_line_measured now label row :
  clock_steady now → row_measured now label row → ∃ line, latency_line nan_text row = Ok line ∧ line_measured now label line.
Proof.
  intros Hc (<- & start & Ha & Hm & x & y & Hx & Ex & Hy & Ey & Hmax). unfold latency_line.
  destruct (fmt_below _ Ha) as [a ->], (fmt_below _ Hm) as [md ->]. cbn [mbind outcome_bind]. rewrite Ex, Ey.
  assert (∀ z, z ∈ elapsed now start <$> seq 0 kLatencyIterations → 0 <= z < 2 ^ 53) as Hb.
  { intros z Hz. pose proof (samples_fit now start kLatencyIterations Hc) as Hf. rewrite Forall_forall in Hf.
    specialize (Hf z Hz). cbn in Hf. lia. }
  rewrite !fmt_integer by (by apply Hb). cbn [mbind outcome_bind]. eexists. split; [reflexivity|]. by exists start, a, md, x, y.
Qed.

Lemma comparison_line_defined b rows :
  (∃ k, be_median b = double_of_int k ∧ 0 <= k < 2 ^ 53) → Forall (λ r, below 61 (res_median (row_result r))) rows →
  ∃ t, comparison_line nan_text b rows = Ok t.
Proof.
  intros (k & Ek & Hk) Hr. induction Hr as [|r rows Hr _ IH]; cbn [comparison_line]; [by eexists|].
  case_bool_decide; [|done]. rewrite Ek, fmt_integer by done. cbn [mbind outcome_bind].
  destruct (fmt_below _ Hr) as [t ->]. by eexists.
Qed.

Lemma comparison_defined rows tps baseline tp :
  Forall (λ b, ∃ k, be_median b = double_of_int k ∧ 0 <= k < 2 ^ 53) baseline →
  Forall (λ r, below 61 (res_median (row_result r))) rows → ∃ t, comparison nan_text rows tps baseline tp = Ok t.
Proof.
  intros Hb Hr. assert (∃ ts, Forall2 (λ b t, comparison_line nan_text b rows = Ok t) baseline ts) as [ts Hts].
  { induction Hb as [|b bs Hb _ IH]; [by exists []|]. destruct IH as [ts Hts].
    destruct (comparison_line_defined b rows Hb Hr) as [t Ht]. exists (t :: ts). by constructor. }
  unfold comparison. destruct baseline as [|b bs]; [by eexists|].
  rewrite (each_line_ok _ _ _ Hts). by eexists.
Qed.

Lemma phase2_medians : Forall (λ b, ∃ k, be_median b = double_of_int k ∧ 0 <= k < 2 ^ 53) phase2_baseline.
Proof. unfold phase2_baseline. repeat (apply Forall_cons; split; [eexists; split; [reflexivity|lia]|]). apply Forall_nil. done. Qed.

(** Where an erased level reads as empty, the benchmark program writes its report, whatever a steady clock
    measures and a random source with bounded offsets draws: no
    conversion of a statistic is undefined, and the latency table has the six operations in order, each with
    a 99th percentile and a maximum that are, digit for digit, two of the times measured for it, the maximum the
    largest. *)
Theorem benchmark_report_written {R} `{LawfulRandom R} m now getenv :
  offsets_fit (R := R) throughput_config m → clock_steady now →
  ∃ lines rest, benchmark_main nan_text (R := R) (Ok true) now getenv true true =
      Ok (Wrote (report_head (bench_environment getenv (str "Windows laptop, no CPU pinning, no turbo-boost control"))
                   (str "Phase 3 — Memory Pool Results") ++ concat lines ++ rest)) ∧
    Forall2 (line_measured now)
      (str <$> ["ADD (no match)"; "ADD (1 fill)"; "ADD (10 fills)"; "ADD (100 fills)"; "CANCEL (front)"; "CANCEL (back)"]%string)
      lines.
Proof.
  intros Hoff Hc. unfold benchmark_main. destruct (harness_rows now 0 Hc) as (rows & n & -> & Hrows). cbn [mbind outcome_bind].
  destruct (throughput_measured m now n 0 Hoff (clock_steady_fits _ Hc) ltac:(lia)) as [-> _]. cbn [mbind outcome_bind].
  unfold write_results. rewrite andb_false_r. cbn [negb].
  assert (∃ lines, Forall2 (λ r t, latency_line nan_text r = Ok t) rows lines ∧
    Forall2 (line_measured now)
      (str <$> ["ADD (no match)"; "ADD (1 fill)"; "ADD (10 fills)"; "ADD (100 fills)"; "CANCEL (front)"; "CANCEL (back)"]%string)
      lines) as (lines & Hl & Hlines).
  { clear -Hc Hrows. induction Hrows as [|label row labels rows Hr _ IH]; [by exists []|]. destruct IH as (ls & H1 & H2).
    destruct (latency_line_measured now label row Hc Hr) as (l & El & Hl). exists (l :: ls). split; by constructor. }
  rewrite (each_line_ok _ _ _ Hl). cbn [mbind outcome_bind].
  assert (Forall (λ r, below 61 (res_median (row_result r))) rows) as Hmed.
  { clear -Hrows. induction Hrows as [|label row labels rows (_ & _ & _ & Hm & _) _ IH]; by constructor. }
  destruct (comparison_defined rows [mkThroughput (str "Mixed (60% limit, 10% market, 30% cancel)") (foldl better (S754_zero false)
    ((λ i, ops_per_sec (elapsed now n i)) <$> seq 0 10))] phase2_baseline kPhase2Throughput phase2_medians Hmed) as [rest Er].
  rewrite Er. cbn [mbind outcome_bind]. eexists lines, _. split; [reflexivity|done].
Qed.
End Cells.

Lemma benchmark_report_written_witness :
  ∃ lines rest, benchmark_main (λ _, str "nan") (R := Z) (H := counting_source) (Ok true) Z.of_nat None true true =
      Ok (Wrote (report_head (str "Windows laptop, no CPU pinning, no turbo-boost control")
                   (str "Phase 3 — Memory Pool Results") ++ concat lines ++ rest)) ∧ length lines = 6%nat.
Proof.
  destruct (@benchmark_report_written (λ _, str "nan") Z counting_source counting_lawful 3 Z.of_nat None) as (lines & rest & E & Hl).
  - split; [lia|]. split; [simpl; lia|]. split; [simpl; lia|]. intros r. exists 3. split; [reflexivity|lia].
  - intros k. lia.
  - exists lines, rest. split; [exact E|]. apply Forall2_length in Hl. rewrite <- Hl. reflexivity.
Defined.

(** The cells and lines of a small report. *)
Example report_cells :
  let f := λ _, str "nan" in
  let result := mkLatency (double_div (double_of_int 2801) (double_of_int 2)) (double_of_int 1350) (double_of_int 2000) (double_of_int 31000) in
  latency_line f (mkRow (str "ADD (1 fill)") result) = Ok (str "| ADD (1 fill) | 1400.5 | 1350 | 2000 | 31000 |" ++ nl) ∧
  comparison_line f (mkBaseline (str "ADD (1 fill)") (double_of_int 600)) [mkRow (str "ADD (1 fill)") result] =
    Ok (str "| ADD (1 fill) | 600 | 1350 | +125.0% |" ++ nl) ∧
  throughput_line f (mkThroughput (str "Mixed") (double_of_int 2921000)) = str "| Mixed | 2.92M |" ++ nl ∧
  throughput_line f (mkThroughput (str "Mixed") (double_of_int 29210)) = str "| Mixed | 29K |" ++ nl ∧
  queue_row f (str "try_pop") (str "MutexQueue") result = str "| try_pop | MutexQueue | 1400.5 | 1350.0 | 2000.0 | 31000.0 |" ++ nl.
Proof. cbv zeta. split_and!; vm_compute; reflexivity. Qed.

(** A file that cannot be opened is reported, and nothing else happens; a statistic that is not a number would
    make the report undefined. *)
Example report_errors :
  write_results (λ _, []) true false (str "a/b.md") [] [] [] [] [] (S754_zero false) =
    Ok (NotOpened (str "ERROR: could not open a/b.md for writing" ++ nl)) ∧
  write_results (λ _, []) false true (str "a/b.md") [] [] [] [] [] (S754_zero false) = Ok DirectoriesThrew ∧
  fmt (λ _, []) S754_nan = Undefined ∧ fmt (λ _, []) (S754_infinity false) = Undefined.
Proof. split_and!; vm_compute; reflexivity. Qed.
