(* ===== verification/AllocCount.v ===== *)
(** * AllocCount: the allocation counter of tools/protocol_benchmark

    The replaced [operator new] and [operator delete], the guard that switches
    the counter on, and the rounds of [BM_JsonEncode_*] and [BM_JsonDecode_*]
    with their "Allocations" counter.  What the JSON library allocates and
    frees in a round is an input: a list of calls with [malloc]'s answers. *)
From S2P Require Import Prelude Bytes BinaryCodec GatewayCodec JsonCodec.

(** [g_alloc_count] and [g_counting], of one thread. *)
Record AllocState := mkAlloc { g_alloc_count : Z; g_counting : bool }.

Definition alloc_start : AllocState := mkAlloc 0 false.

(** A call of [operator new], with whether [malloc] finds memory, or of [operator delete]. *)
Inductive AllocEvent := New (found : bool) | Delete.

(** [operator new]: counted before [malloc] answers; [None] is [std::bad_alloc]. *)
Definition operator_new (found : bool) (st : AllocState) : option AllocState :=
  let st := if g_counting st then mkAlloc (u64_add (g_alloc_count st) 1) (g_counting st) else st in
  if found then Some st else None.

Definition operator_delete (st : AllocState) : AllocState := st.

Fixpoint run_events (events : list AllocEvent) (st : AllocState) : option AllocState :=
  match events with
  | [] => Some st
  | New found :: events => st ← operator_new found st; run_events events st
  | Delete :: events => run_events events (operator_delete st)
  end.

(** [AllocGuard]: constructor, destructor, [count]. *)
Definition guard_new (st : AllocState) : AllocState := mkAlloc 0 true.

Definition guard_destroy (st : AllocState) : AllocState := mkAlloc (g_alloc_count st) false.

Definition guard_count (st : AllocState) : Z := g_alloc_count st.

Section Rounds.
Context {A : Type}.
(** What the library calls while a round does its work, and when the objects of the round are destroyed. *)
Variables (work destroy : nat → list AllocEvent).

(** The rounds of a benchmark: a guard, the work, the counter read, and at the end of the scope the objects
    destroyed before the guard.  [None] is an exception that leaves the loop. *)
Fixpoint counted_rounds (body : option A) (iters i : nat) (allocs : Z) (st : AllocState) : option (list A * Z * AllocState) :=
  match iters with
  | O => Some ([], allocs, st)
  | S iters =>
      let st := guard_new st in
      st ← run_events (work i) st;
      a ← body;
      let allocs := guard_count st in
      st ← run_events (destroy i) st;
      '(rest, allocs, st) ← counted_rounds body iters (S i) allocs (guard_destroy st);
      Some (a :: rest, allocs, st)
  end.
End Rounds.

Section Benchmarks.
Context {J : Type} `{Json J}.
Variables (work destroy : nat → list AllocEvent).

(** [BM_JsonEncode_*]: the bytes of each round and "Allocations". *)
Definition json_encode_counted (msg : AnyMessage) (iters : nat) (st : AllocState) : option (list nat * Z * AllocState) :=
  counted_rounds work destroy (Some (length (json_dump (to_json (J := J) msg)))) iters 0 0 st.

(** [BM_JsonDecode_*]: the text is made first, outside any guard ([setup]). *)
Definition json_decode_counted (setup : list AllocEvent) (msg : AnyMessage) (iters : nat) (st : AllocState)
    : option (list AnyMessage * Z * AllocState) :=
  st ← run_events setup st;
  let s := json_dump (to_json (J := J) msg) in
  counted_rounds work destroy (parsed ← json_parse s; from_json_like (J := J) msg parsed) iters 0 0 st.
End Benchmarks.

(** ** What is counted *)

Definition news (events : list AllocEvent) : Z := sumZ (λ e, match e with New _ => 1 | Delete => 0 end) events.

(** [malloc] always finds memory. *)
Definition memory_found (events : list AllocEvent) : Prop := Forall (λ e, e ≠ New false) events.

Lemma news_nonneg events : 0 <= news events.
Proof. apply sumZ_nonneg. intros [] _; lia. Qed.

Lemma run_events_counts events st :
  memory_found events → (g_counting st = true → 0 <= g_alloc_count st ∧ g_alloc_count st + news events < 18446744073709551616) →
  run_events events st = Some (mkAlloc (if g_counting st then g_alloc_count st + news events else g_alloc_count st) (g_counting st)).
Proof.
  intros Hf. revert st. induction Hf as [|e events He _ IH]; intros [n c] Hb; cbn [run_events g_counting g_alloc_count] in *.
  { destruct c; [|done]. do 2 f_equal. unfold news. simpl. lia. }
  pose proof (news_nonneg events) as Hn. destruct e as [[]|]; [|done|].
  - unfold operator_new. cbn [g_counting g_alloc_count]. destruct c; cbn [mbind option_bind].
    + destruct (Hb eq_refl) as [H0 H1]. unfold news in H1. cbn [sumZ] in H1. fold (news events) in H1.
      rewrite u64_add_small by (u64; lia). rewrite IH by (cbn; lia). cbn [g_counting g_alloc_count]. do 2 f_equal.
      unfold news. cbn [sumZ]. lia.
    + by rewrite IH.
  - unfold operator_delete. rewrite IH; [cbn [g_counting g_alloc_count]; unfold news; cbn [sumZ]; by rewrite Z.add_0_l|].
    intros E. destruct (Hb E) as [H0 H1]. unfold news in H1. cbn [sumZ] in H1. fold (news events) in H1. cbn. lia.
Qed.

(** The calls of the rounds find memory and are fewer than [2^64] each. *)
Definition rounds_run (work destroy : nat → list AllocEvent) : Prop :=
  ∀ i, memory_found (work i) ∧ memory_found (destroy i) ∧ news (work i) + news (destroy i) < 18446744073709551616.

Lemma counted_rounds_spec {A} work destroy (a : A) iters i allocs st :
  rounds_run work destroy →
  ∃ st', counted_rounds work destroy (Some a) iters i allocs st =
      Some (replicate iters a, if decide (iters = 0%nat) then allocs else news (work (i + iters - 1)%nat), st') ∧
    (iters ≠ 0%nat ∨ g_counting st = false → g_counting st' = false).
Proof.
  intros Hr. revert i allocs st. induction iters as [|iters IH]; intros i allocs st; cbn [counted_rounds].
  { exists st. split; [done|]. by intros [|]. }
  destruct (Hr i) as (Hw & Hd & Hb). pose proof (news_nonneg (work i)). pose proof (news_nonneg (destroy i)).
  rewrite run_events_counts by (done || (cbn; lia)). cbn [mbind option_bind guard_new g_counting g_alloc_count guard_count].
  rewrite run_events_counts by (done || (cbn; lia)). cbn [mbind option_bind g_counting g_alloc_count].
  destruct (IH (S i) (0 + news (work i)) (guard_destroy (mkAlloc (0 + news (work i) + news (destroy i)) true))) as (st' & -> & Hc).
  cbn [mbind option_bind]. exists st'. split.
  - cbn [replicate]. destruct (decide (S iters = 0%nat)); [lia|]. do 3 f_equal.
    destruct (decide (iters = 0%nat)) as [->|]; [rewrite Z.add_0_l|]; do 2 f_equal; lia.
  - intros _. apply Hc. by right.
Qed.

(** The counter counts what it says: whatever was allocated before and while the text is made, and whatever is
    freed or allocated when the objects of a round are destroyed, "Allocations" is the number of allocations of
    the parse and read of the last round; every round decodes the message, and counting is off afterwards. *)
Theorem allocations_counted {J} `{LawfulJson J same} work destroy setup m iters st :
  wf_message m → rounds_run work destroy → memory_found setup → g_counting st = false →
  ∃ st', json_decode_counted (J := J) work destroy setup m (S iters) st =
      Some (replicate (S iters) (no_padding m), news (work iters), st') ∧ g_counting st' = false.
Proof.
  intros Hm Hr Hs Hst. unfold json_decode_counted. rewrite run_events_counts by (done || (rewrite Hst; done)).
  cbn [mbind option_bind]. cbv zeta. pose proof (json_text_roundtrip (J := J) m Hm) as Ht.
  change (json_parse (json_dump (to_json m)) ≫= (λ parsed, from_json_like (J := J) m parsed) = Some (no_padding m)) in Ht.
  cbn [mbind option_bind] in Ht. rewrite Ht.
  destruct (counted_rounds_spec work destroy (no_padding m) (S iters) 0 0 (mkAlloc (if g_counting st then g_alloc_count st + news setup
    else g_alloc_count st) (g_counting st)) Hr) as (st' & -> & Hc).
  exists st'. split; [|apply Hc; left; lia]. rewrite decide_False by lia. by replace (0 + S iters - 1)%nat with iters by lia.
Qed.

(** The encode loop likewise, with the size of the text in every round. *)
Theorem encode_allocations_counted {J} `{Json J} work destroy m iters st :
  rounds_run work destroy →
  ∃ st', json_encode_counted (J := J) work destroy m (S iters) st =
      Some (replicate (S iters) (length (json_dump (to_json (J := J) m))), news (work iters), st') ∧ g_counting st' = false.
Proof.
  intros Hr. unfold json_encode_counted.
  destruct (counted_rounds_spec work destroy (length (json_dump (to_json (J := J) m))) (S iters) 0 0 st Hr) as (st' & -> & Hc).
  exists st'. split; [|apply Hc; left; lia]. rewrite decide_False by lia. by replace (0 + S iters - 1)%nat with iters by lia.
Qed.

#[local] Existing Instance flat_json_api.

Lemma allocations_counted_witness :
  ∃ st', json_decode_counted (J := flat_json) (λ i, if Nat.eqb i 0 then [New true] else [New true; Delete; New true]) (λ _, [Delete; New true; Delete]) [New true] (MCancel make_cancel) 2
    alloc_start = Some ([MCancel make_cancel; MCancel make_cancel], 2, st') ∧ g_counting st' = false.
Proof.
  pose proof flat_json_lawful.
  apply (allocations_counted (J := flat_json) (λ i, if Nat.eqb i 0 then [New true] else [New true; Delete; New true]) (λ _, [Delete; New true; Delete]) [New true]
    (MCancel make_cancel) 1 alloc_start).
  - unfold wf_message, is_byte, in_u64. simpl. lia.
  - intros i. split_and!; [destruct (Nat.eqb i 0); repeat constructor; discriminate|repeat constructor; discriminate|].
    destruct (Nat.eqb i 0); vm_compute; reflexivity.
  - repeat constructor; discriminate.
  - reflexivity.
Defined.
