(* ===== verification/Primitives.v ===== *)
(** * Primitives: the operators of core/Types.hpp

    The wrappers of an integer ([OrderId], [ClientId], [Price], [Quantity],
    [Sequence], [TradeSequence], [SymbolId]) write out their comparison
    operators one by one, and specialise [std::hash].  [RelationalLaws] and
    [HashLaws] are what the containers keyed by them need: [std::map] a strict
    weak order whose equivalence is equality, [std::unordered_map] a hash that
    respects equality. *)
From S2P Require Import Prelude Core StdMap.

(** The operators a wrapper defines, on the wrapped values. *)
Record Equality := mkEquality { op_eq : Z → Z → bool; op_ne : Z → Z → bool }.

Record Relational := mkRelational {
  rel_equality : Equality;
  op_lt : Z → Z → bool; op_le : Z → Z → bool; op_gt : Z → Z → bool; op_ge : Z → Z → bool }.

Definition OrderId_equality : Equality := mkEquality (λ a b, Z.eqb a b) (λ a b, negb (Z.eqb a b)).

Definition ClientId_equality : Equality := mkEquality (λ a b, Z.eqb a b) (λ a b, negb (Z.eqb a b)).

Definition SymbolId_equality : Equality := mkEquality (λ a b, Z.eqb a b) (λ a b, negb (Z.eqb a b)).

Definition Price_relational : Relational :=
  mkRelational (mkEquality (λ a b, Z.eqb a b) (λ a b, negb (Z.eqb a b)))
    (λ a b, Z.ltb a b) (λ a b, Z.leb a b) (λ a b, Z.gtb a b) (λ a b, Z.geb a b).

Definition Quantity_relational : Relational :=
  mkRelational (mkEquality (λ a b, Z.eqb a b) (λ a b, negb (Z.eqb a b)))
    (λ a b, Z.ltb a b) (λ a b, Z.leb a b) (λ a b, Z.gtb a b) (λ a b, Z.geb a b).

(** [Sequence] and [TradeSequence]: equality, order, and both increments; the postfix one returns the old value. *)
Record Counter := mkCounter {
  ctr_equality : Equality; ctr_lt : Z → Z → bool;
  ctr_pre : Z → Z * Z; ctr_post : Z → Z * Z }.

Definition Sequence_counter : Counter :=
  mkCounter (mkEquality (λ a b, Z.eqb a b) (λ a b, negb (Z.eqb a b))) (λ a b, Z.ltb a b)
    (λ v, let v := u64_add v 1 in (v, v)) (λ v, let tmp := v in let v := u64_add v 1 in (tmp, v)).

Definition TradeSequence_counter : Counter :=
  mkCounter (mkEquality (λ a b, Z.eqb a b) (λ a b, negb (Z.eqb a b))) (λ a b, Z.ltb a b)
    (λ v, let v := u64_add v 1 in (v, v)) (λ v, let tmp := v in let v := u64_add v 1 in (tmp, v)).

(** The specialisations of [std::hash] forward to the hash of the integer. *)
Definition OrderId_hash (hash_u64 : Z → Z) (id : Z) : Z := hash_u64 id.

Definition ClientId_hash (hash_u64 : Z → Z) (id : Z) : Z := hash_u64 id.

Definition SymbolId_hash (hash_u32 : Z → Z) (id : Z) : Z := hash_u32 id.

(** ** What the containers need *)

Class EqualityLaws (ops : Equality) : Prop := {
  eq_reflects a b : op_eq ops a b = true ↔ a = b;
  ne_negates a b : op_ne ops a b = negb (op_eq ops a b) }.

Class RelationalLaws (ops : Relational) : Prop := {
  relational_equality :: EqualityLaws (rel_equality ops);
  lt_strict :: StrictOrderB (op_lt ops);
  gt_strict :: StrictOrderB (op_gt ops);
  incomparable_equal a b : op_lt ops a b = false ∧ op_lt ops b a = false ↔ op_eq (rel_equality ops) a b = true;
  gt_swaps a b : op_gt ops a b = op_lt ops b a;
  le_negates a b : op_le ops a b = negb (op_gt ops a b);
  ge_negates a b : op_ge ops a b = negb (op_lt ops a b) }.

(** Equal keys hash alike, for any hash of the integers. *)
Class HashLaws (ops : Equality) (hash : (Z → Z) → Z → Z) : Prop := {
  hash_respects h a b : op_eq ops a b = true → hash h a = hash h b;
  hash_forwards h a b : hash h a ≠ hash h b → op_eq ops a b = false }.

Lemma eqb_laws : EqualityLaws (mkEquality (λ a b, Z.eqb a b) (λ a b, negb (Z.eqb a b))).
Proof. split; [apply Z.eqb_eq|done]. Qed.

#[export] Instance order_id_laws : EqualityLaws OrderId_equality := eqb_laws.

#[export] Instance client_id_laws : EqualityLaws ClientId_equality := eqb_laws.

#[export] Instance symbol_id_laws : EqualityLaws SymbolId_equality := eqb_laws.

Lemma integer_relational ops :
  ops = mkRelational (mkEquality (λ a b, Z.eqb a b) (λ a b, negb (Z.eqb a b)))
    (λ a b, Z.ltb a b) (λ a b, Z.leb a b) (λ a b, Z.gtb a b) (λ a b, Z.geb a b) → RelationalLaws ops.
Proof.
  intros ->. split; cbn; [apply eqb_laws|exact less_order|exact greater_order| | | |]; intros a b; rewrite ?Z.gtb_ltb, ?Z.geb_leb; zb; naive_solver lia.
Qed.

#[export] Instance price_laws : RelationalLaws Price_relational := integer_relational _ eq_refl.

#[export] Instance quantity_laws : RelationalLaws Quantity_relational := integer_relational _ eq_refl.

Lemma forwarding_hash ops hash : EqualityLaws ops → (∀ h a, hash h a = h a) → HashLaws ops hash.
Proof.
  intros He Hh. split; intros h a b.
  - intros ->%eq_reflects. done.
  - intros Hne. apply not_true_is_false. intros ->%eq_reflects. done.
Qed.

#[export] Instance order_id_hash : HashLaws OrderId_equality OrderId_hash := forwarding_hash _ _ _ (λ _ _, eq_refl).

#[export] Instance client_id_hash : HashLaws ClientId_equality ClientId_hash := forwarding_hash _ _ _ (λ _ _, eq_refl).

#[export] Instance symbol_id_hash : HashLaws SymbolId_equality SymbolId_hash := forwarding_hash _ _ _ (λ _ _, eq_refl).

(** Numbering with the postfix increment: before the counter wraps, [n] uses give distinct, increasing numbers. *)
Fixpoint take_numbers (c : Counter) (n : nat) (v : Z) : list Z * Z :=
  match n with
  | O => ([], v)
  | S n => let '(x, v) := ctr_post c v in let '(xs, v) := take_numbers c n v in (x :: xs, v)
  end.

Theorem numbers_consecutive c n v :
  c = Sequence_counter ∨ c = TradeSequence_counter → 0 <= v → v + Z.of_nat n < 18446744073709551616 →
  take_numbers c n v = ((λ i, v + Z.of_nat i) <$> seq 0 n, v + Z.of_nat n).
Proof.
  intros Hc. revert v. induction n as [|n IH]; intros v Hv Hn; [simpl; f_equal; lia|]. cbn [take_numbers].
  assert (ctr_post c v = (v, v + 1)) as -> by (destruct Hc as [-> | ->]; cbn; by rewrite u64_add_small by (u64; lia)).
  rewrite IH by lia. cbn [seq fmap list_fmap]. f_equal; [|lia]. f_equal; [lia|].
  rewrite <- (fmap_S_seq 0 n), <- list_fmap_compose. apply list_fmap_ext. intros i j _. cbn. lia.
Qed.

Lemma numbers_consecutive_witness : take_numbers Sequence_counter 3 7 = ([7; 8; 9], 10).
Proof. apply (numbers_consecutive Sequence_counter 3 7); [by left|lia|lia]. Defined.
