(* ===== verification/QueueReport.v ===== *)
(** * QueueReport: [run_queue_benchmark] of apps/benchmark/queue_bench.cpp

    The whole queue benchmark: both workloads, the four latency measurements
    on both queues, the best of the throughput runs, and the report.  The rates the
    two-thread runs measure are inputs (QueueBench has the runs). *)
From Stdlib Require Import String.
From Corelib Require Import SpecFloat.
From S2P Require Import Prelude Text Core SpscRing RingQueue QueueBench Doubles Decimal RiskEngine LatencyRecorder.
From S2P Require Import Workload WorkloadTheorems LatencyBench QueueLatency ReportFile.

Definition kLatencyOps : nat := Z.to_nat 100000.

Definition kThroughputOps : nat := Z.to_nat 2000000.

Definition kThroughputReps : nat := 5.

(** A value-initialized [EngineCommand]: the first alternative of the variant. *)
Definition command_default : EngineCommand := CLimit (mkLimit 0 Buy 0 0 0).

Definition spsc_queue : Ring EngineCommand := Ring_new kQueueCapacity command_default.

Definition mutex_queue : MutexQueue EngineCommand := mkMutexQueue [].

#[local] Instance spsc_poll : PollQueue (Ring EngineCommand) EngineCommand := ring_poll kQueueCapacity.

#[local] Instance mutex_poll_commands : PollQueue (MutexQueue EngineCommand) EngineCommand := mutex_poll kQueueCapacity.

(** [run_queue_benchmark], less the lines it prints on the terminal.  [now] counts the readings of the clock from the
    first one on; each latency measurement takes two per command.
    [spsc_rates] and [mutex_rates] are what the runs of [measure_throughput] returned. *)
Definition run_queue_benchmark {R} `{RandomSource R} (nan_text : bool → list Z) (now : nat → Z) (getenv : option (list Z))
    (made opened : bool) (spsc_rates mutex_rates : list spec_float) : outcome Written :=
  latency_workload ← generate_workload (R := R) kLatencyOps;
  throughput_workload ← generate_workload (R := R) kThroughputOps;
  spsc_push ← measure_push_latency now latency_workload spsc_queue 0;
  spsc_pop ← measure_pop_latency now latency_workload spsc_queue (2 * kLatencyOps);
  mutex_push ← measure_push_latency now latency_workload mutex_queue (4 * kLatencyOps);
  mutex_pop ← measure_pop_latency now latency_workload mutex_queue (6 * kLatencyOps);
  Ok (queue_write_results nan_text made opened getenv spsc_push spsc_pop mutex_push mutex_pop
        (best_throughput (take kThroughputReps spsc_rates)) (best_throughput (take kThroughputReps mutex_rates))).

Lemma ops_count : Z.of_nat kLatencyOps = 100000.
Proof. unfold kLatencyOps. lia. Qed.

Lemma workload_generated {R} `{LawfulRandom R} m n :
  offsets_fit (R := R) throughput_config m → Z.of_nat n < 18446744073709551615 →
  ∃ events, generate_workload (R := R) n = Ok events ∧ length events = n.
Proof.
  intros Hoff Hn. unfold generate_workload.
  destruct (generate_total n (WorkloadGenerator_new throughput_config) m Hoff) as (events & g & E).
  destruct (workload_valid throughput_config n events g) as [Hl _]; [simpl; lia|simpl; u64; lia|done|done|].
  rewrite E. by exists events.
Qed.

(** Both latency measurements of a queue that holds nothing and has room for the whole workload. *)
Lemma both_latencies {Q} `{BoundedQueue Q EngineCommand cap holds} now workload (q : Q) r1 r2 :
  1 <= cap → clock_steady now → holds (length workload) q [] → length workload = kLatencyOps →
  (∃ v, measure_push_latency now workload q r1 = Ok v) ∧ (∃ v, measure_pop_latency now workload q r2 = Ok v).
Proof.
  intros Hcap Hc Hq Hl. pose proof ops_count as Hn. assert (Z.of_nat (length workload) < 2 ^ 23) as Hs by (rewrite Hl; lia).
  split; [apply (queue_latency_measured Hcap now Hc workload q r1 Hq Hs)|apply (queue_latency_measured Hcap now Hc workload q r2 Hq Hs)].
Qed.

(** The queue benchmark runs to its report: whatever the clock measures, the random source draws and the
    throughput runs return, both workloads are generated, all four measurements are defined on both queues, and
    the report with their statistics is written. *)
Theorem queue_report_written {R} `{LawfulRandom R} m nan_text now getenv spsc_rates mutex_rates :
  offsets_fit (R := R) throughput_config m → clock_steady now →
  ∃ spsc_push spsc_pop mutex_push mutex_pop,
    run_queue_benchmark (R := R) nan_text now getenv true true spsc_rates mutex_rates =
    Ok (queue_write_results nan_text true true getenv spsc_push spsc_pop mutex_push mutex_pop
          (best_throughput (take kThroughputReps spsc_rates)) (best_throughput (take kThroughputReps mutex_rates))).
Proof.
  intros Hoff Hc. unfold run_queue_benchmark. pose proof ops_count as Hn.
  destruct (workload_generated m kLatencyOps Hoff) as (w & -> & Hw); [lia|]. cbn [mbind outcome_bind].
  destruct (workload_generated m kThroughputOps Hoff) as (w2 & -> & _); [unfold kThroughputOps; lia|]. cbn [mbind outcome_bind].
  pose proof (ring_bounded (T := EngineCommand) kQueueCapacity 12 eq_refl ltac:(lia)) as Hring.
  pose proof (mutex_bounded (T := EngineCommand) kQueueCapacity) as Hmutex.
  destruct (both_latencies (H0 := Hring) now w spsc_queue 0 (2 * kLatencyOps)) as [[v1 E1] [v2 E2]];
    [unfold kQueueCapacity; lia|done| |done|].
  { split; [apply (new_holds kQueueCapacity 12 eq_refl ltac:(lia))|]. rewrite Hw. cbn [spsc_queue Ring_new rb_tail]. lia. }
  destruct (both_latencies (H0 := Hmutex) now w mutex_queue (4 * kLatencyOps) (6 * kLatencyOps)) as [[v3 E3] [v4 E4]];
    [unfold kQueueCapacity; lia|done| |done|].
  { split; [done|]. unfold kQueueCapacity. simpl. lia. }
  unfold spsc_poll, mutex_poll_commands. rewrite E1. cbn [mbind outcome_bind]. rewrite E2. cbn [mbind outcome_bind].
  rewrite E3. cbn [mbind outcome_bind]. rewrite E4. cbn [mbind outcome_bind]. by exists v1, v2, v3, v4.
Qed.

Lemma queue_report_written_witness :
  ∃ r1 r2 r3 r4, run_queue_benchmark (R := Z) (H := counting_source) (λ _, str "nan") Z.of_nat None true true
      [double_of_int 3; double_of_int 5] [double_of_int 2] =
    Ok (queue_write_results (λ _, str "nan") true true None r1 r2 r3 r4 (double_of_int 5) (double_of_int 2)).
Proof.
  apply (@queue_report_written Z counting_source counting_lawful 3 (λ _, str "nan") Z.of_nat None
    [double_of_int 3; double_of_int 5] [double_of_int 2]).
  - split; [lia|]. split; [simpl; lia|]. split; [simpl; lia|]. intros r. exists 3. split; [reflexivity|lia].
  - intros k. lia.
Defined.
