(* ===== verification/RoundTripMain.v ===== *)
(** * RoundTripMain: the life of apps/benchmark/tcp_roundtrip_bench.cpp

    The arguments, the [ServerContext] with its server and eventfd, the client's connection
    and the last lines of [main], over the descriptors of the process.  RoundTrip has
    what client and server exchange in between. *)
From Stdlib Require Import String.
From S2P Require Import Prelude Text TcpServer TcpLifetime ExchangeServer Strategy ServerMain.

(** The port, cut to 16 bits, and the iterations, a [long] read as a [size_t]. *)
Definition roundtrip_args (args : list (list Z)) : outcome (Z * Z) :=
  port ← match args with [] => Ok 0 | a :: _ => v ← atoi a; Ok (v mod 65536) end;
  iterations ← match args with _ :: b :: _ => v ← atoll b; Ok (wrap64 v) | _ => Ok 10000 end;
  Ok (port, iterations).

(** The answers of the kernel. *)
Record RoundTripAnswers := mkRoundTripAnswers {
  ra_tcp : SetupAnswers; ra_eventfd : sys Z; ra_epoll_eventfd : sys unit; ra_socket : sys Z; ra_connect : sys unit }.

(** How far [main] comes: [std::exit], an exception nothing catches, or connected. *)
Inductive roundtrip :=
| Exits (code : Z)
| Uncaught (what : list Z)
| Connected (sockets : Sockets) (efd client_fd : Z) (peer : SockaddrIn).

(** [ServerContext(port)]: the server, then the eventfd. *)
Definition ServerContext_new (port : Z) (an : RoundTripAnswers) (os : Os) : (roundtrip + Sockets * Z) * Os :=
  match TcpServer_construct port (ra_tcp an) os with
  | (Throws what, _, os) => (inl (Uncaught what), os)
  | (Returns, sockets, os) =>
      match ra_eventfd an with
      | SysErr _ => (inl (Exits 1), os)
      | SysOk efd => (inr (sockets, efd), os_add efd os)
      end
  end.

(** [connect_to_server]: the loopback address and the port the server is bound to. *)
Definition connect_to_server (port : Z) (an : RoundTripAnswers) (os : Os) : (roundtrip + Z * SockaddrIn) * Os :=
  match ra_socket an with
  | SysErr _ => (inl (Exits 1), os)
  | SysOk fd =>
      let os := os_add fd os in
      let addr := feed_subscriber port in
      match ra_connect an with
      | SysErr _ => (inl (Exits 1), os_close fd os)
      | SysOk _ => (inr (fd, addr), os)
      end
  end.

Definition roundtrip_start (args : list (list Z)) (an : RoundTripAnswers) (os : Os) : outcome (roundtrip * Os) :=
  '(port, iterations) ← roundtrip_args args;
  match ServerContext_new port an os with
  | (inl r, os) => Ok (r, os)
  | (inr (sockets, efd), os) =>
      match set_eventfd efd (ra_epoll_eventfd an) sockets os with
      | (Throws what, _, os) => Ok (Uncaught what, os)
      | (Returns, sockets, os) =>
          match connect_to_server (port_ sockets) an os with
          | (inl r, os) => Ok (r, os)
          | (inr (fd, addr), os) => Ok (Connected sockets efd fd addr, os)
          end
      end
  end.

(** [~ServerContext]: the eventfd, then the members, the server among them. *)
Definition ServerContext_destroy (sv : TcpServer) (sockets : Sockets) (efd : Z) (os : Os) : Os :=
  let os := close_if_open efd os in
  let '(_, _, os) := TcpServer_destroy sv sockets os in os.

(** After the measurements: the client's descriptor, the threads joined, the context. *)
Definition roundtrip_finish (sv : TcpServer) (sockets : Sockets) (efd client_fd : Z) (os : Os) : Z * Os :=
  let os := os_close client_fd os in
  (0, ServerContext_destroy sv sockets efd os).

(** ** Descriptors *)

(** The kernel hands out descriptors that are not open. *)
Record fresh_roundtrip (an : RoundTripAnswers) (os : Os) : Prop := {
  fr_tcp : fresh_answers (ra_tcp an) os;
  fr_eventfd port s os1 efd : TcpServer_construct port (ra_tcp an) os = (Returns, s, os1) → ra_eventfd an = SysOk efd →
    0 <= efd ∧ (efd ∉ os_open os1) ∧
    ∀ fd, ra_socket an = SysOk fd → (fd ∉ {[efd]} ∪ os_open os1) }.

(** The round-trip benchmark gives its descriptors back: when the client is connected, to the port the server
    is bound to, it returns 0 with exactly the descriptors open that were open before, whatever connections the server
    had; when the client cannot connect, its socket is closed before the exit. *)
Theorem roundtrip_gives_descriptors_back args an os st os1 :
  fresh_roundtrip an os → roundtrip_start args an os = Ok (st, os1) →
  match st with
  | Connected sockets efd fd peer =>
      an_getsockname (ra_tcp an) = SysOk (port_ sockets) ∧ peer = feed_subscriber (port_ sockets) ∧
      {[listener_fd_ sockets; efd]} ⊆ os_watched os1 ∧
      ∀ sv, dom (connections_ sv) ## os_open os1 →
        let finished := roundtrip_finish sv sockets efd fd (mkOs (dom (connections_ sv) ∪ os_open os1) (os_watched os1)) in
        finished.1 = 0 ∧ os_open finished.2 = os_open os
  | Exits code => code = 1 ∧ ∀ fd, ra_socket an = SysOk fd → fd ∉ os_open os → fd ∉ os_open os1 ∨ ∃ m, ra_eventfd an = SysErr m
  | Uncaught _ => True
  end.
Proof.
  intros [Ht He] Hm. unfold roundtrip_start in Hm. destruct (roundtrip_args args) as [[port iters]| |]; [|done..].
  cbn [mbind outcome_bind] in Hm. unfold ServerContext_new in Hm.
  destruct (TcpServer_construct port (ra_tcp an) os) as [[[|what] sk] os2] eqn:Ec; [|by simplify_eq].
  destruct (construct_returns _ _ _ _ _ Ht Ec) as (Hl0 & Hp0 & Hdis & Hop & Hw).
  pose proof (construction_descriptors (ra_tcp an) port os Ht) as Hcd. rewrite Ec in Hcd. destruct Hcd as (_ & _ & _ & Hport).
  destruct (ra_eventfd an) as [efd|m] eqn:Ee; [|simplify_eq; split; [done|]; intros; right; by eexists].
  destruct (He port sk os2 efd Ec eq_refl) as (Hefd & Hefn & Hfd). unfold set_eventfd in Hm.
  destruct (ra_epoll_eventfd an) as [|m]; [|by simplify_eq]. unfold connect_to_server in Hm. cbn [port_] in Hm.
  destruct (ra_socket an) as [fd|m] eqn:Es; [|simplify_eq; split; [done|]; done].
  specialize (Hfd fd eq_refl).
  destruct (ra_connect an) as [|m]; simplify_eq.
  - cbn [port_ listener_fd_ os_open os_watched os_add os_watch]. split; [done|]. split; [done|]. split; [set_solver|].
    intros sv Hd. split; [done|]. unfold roundtrip_finish, ServerContext_destroy. cbn [snd].
    match goal with |- context [TcpServer_destroy sv ?s ?o] => pose proof (destroy_open sv s o) as Hdo; destruct (TcpServer_destroy sv s o) as [[? ?] os3] end.
    cbn [snd] in Hdo. rewrite Hdo. unfold close_if_open. cbn [listener_fd_ epoll_fd_]. rewrite !(proj2 (Z.leb_le 0 _)) by done.
    cbn [os_open os_close]. rewrite Hop in *. set_solver.
  - split; [done|]. intros fd0 [= ->] _. left. cbn [os_open os_close os_add os_watch]. set_solver.
Qed.

Definition roundtrip_answers : RoundTripAnswers :=
  mkRoundTripAnswers (demo_answers (SysOk ())) (SysOk 5) (SysOk ()) (SysOk 6) (SysOk ()).

Lemma roundtrip_answers_fresh : fresh_roundtrip roundtrip_answers demo_os.
Proof.
  split; [apply demo_fresh|]. intros port s os1 efd E [= <-]. change (TcpServer_construct port (ra_tcp roundtrip_answers) demo_os) with
    (Returns, mkSockets 9000 3 4 (-1), os_watch 3 (os_add 4 (os_add 3 demo_os))) in E. injection E as _ <-. split; [lia|]. split.
  - unfold os_watch, os_add, demo_os. cbn [os_open]. set_solver by lia.
  - intros fd [= <-]. unfold os_watch, os_add, demo_os. cbn [os_open]. set_solver by lia.
Qed.

Lemma roundtrip_gives_descriptors_back_witness :
  os_open (roundtrip_finish demo_left (mkSockets 9000 3 4 5) 5 6
    (mkOs (dom (connections_ demo_left) ∪ os_open (os_add 6 (os_watch 5 (os_add 5 demo_sockets.2)))) (os_watched (os_watch 5 demo_sockets.2)))).2 =
  os_open demo_os.
Proof.
  pose proof (roundtrip_gives_descriptors_back [] roundtrip_answers demo_os
    (Connected (mkSockets 9000 3 4 5) 5 6 (feed_subscriber 9000)) (os_add 6 (os_watch 5 (os_add 5 demo_sockets.2)))
    roundtrip_answers_fresh eq_refl) as (_ & _ & _ & H).
  apply H. cbn. rewrite dom_singleton. set_solver by lia.
Defined.

(** A negative count is a huge one, and a port is taken modulo [2^16]. *)
Example roundtrip_args_wrap :
  roundtrip_args [str "70000"; str "-1"] = Ok (4464, 18446744073709551615) ∧ roundtrip_args [] = Ok (0, 10000).
Proof. split; reflexivity. Qed.
